(* ===== verification/_CoqProject ===== *)
-Q . S2P
Prelude.v
RaftTypes.v
Quorum.v
RaftNode.v
RaftInv.v
RaftStep.v
RaftClient.v
RaftVotes.v
Election.v
RaftSafety.v
Operations.v
FailStop.v
ReadBarrier.v
LogHistory.v
RaftLogs.v
RaftLead.v
Bytes.v
Wal.v
Backup.v
RaftWal.v
Widths.v
Snapshot.v
RaftStore.v
LogStores.v
LogSafety.v
FaultDisk.v
Devices.v
Uring.v
StateMachine.v
EventHeap.v
Engine.v
EngineInv.v
EngineLog.v
EngineSim.v
GoStrings.v
DeviceSuite.v
Float64.v
Chaos.v
RaftCluster.v
Restarts.v
Scenario.v
Paxos.v
TokenRing.v
Protocol.v
AdapterProto.v
AdapterHost.v
AdapterProcess.v
Sim.v
Seeds.v
Server.v
ClusterSpec.v
