(* ===== verification/Prelude.v ===== *)
(** * Promtact: a verification development

    Promtact is a replicated key-value server: a Raft core that does no I/O
    ([raft]), its durable storage ([storage], [backup]), a state machine
    ([statemachine]), a server that connects them to clients and peers ([server],
    [protocol]), and a deterministic simulator for it and for other protocols
    ([dst], [sim], [examples], [internal/adapterhost]) with a controller for faults
    on real networks ([chaos]).  This library models those parts as executable
    functions and proves what each of them promises to the others.

    ** How the code is modelled

    - Unsigned integers are [Z]; where the source can overflow, the operation
      goes through [w64], [w32], ...  Byte slices are lists of [Z]; Go maps are
      [gmap], and where the source iterates over a map the model takes the order
      as an argument and the theorem is for every order.  Floating-point numbers
      are those of the standard library's [SpecFloat] ([Float64]).
    - A method on a pointer is a computation in the state-and-panic monad [M] of
      this file; [wp] is its total-correctness logic (the call returns), [wlp]
      the partial one, [wpx] the one with a condition for the exceptional exit.
      Errors are values of [option error] or a sum, as in the source.
    - Go interfaces are classes with their laws: [StableStore], [DurableVotes]
      and [DurableLog] (raft/persist.go), [Device] and [DeviceSpec] (storage/wal),
      [Cluster] (dst/engine.go), [Writer] (io.Writer), [Transport] (the pipes of
      an adapter), [Runner] (chaos).  Clients are proved against the class,
      implementations are instances.
    - Code outside the repository (the random generator, SHA-256, JSON, system
      calls, the kernel's side of io_uring, the network) is an argument: the
      theorems hold for every behaviour of it, or state what they need of it.
    - Concurrency is interleaving: the server's loop and connections, the workers
      of the seed sweep and the kernel behind the ring take steps in any order.

    ** Raft (raft/)

    - [RaftTypes]: entries, messages, hard state, the store interfaces.
    - [Quorum]: voter masks, majorities, [Membership].  Masks count voters; any
      two quorums meet, also across a joint configuration; the mask rule and the
      list rule of [Membership] agree.
    - [RaftNode]: node.go and recover.go, one definition per function.
    - [RaftInv], [RaftStep], [RaftClient]: the node invariant and a
      specification of every function, in dependency order.
    - [RaftSafety]: the theorems about one node.  No operation panics on input
      that does not contradict committed entries; term, vote, commit index and
      committed entries only move forward; what appends, votes, proposals, reads,
      compaction, application and recovery do on every branch.
    - [Operations], [FailStop], [ReadBarrier]: a node under any sequence of its
      operations.  A failed call of the store is the last one, and the node is
      silent afterwards; a read barrier opens only with the confirmations of a
      quorum, received since it was started.
    - [RaftVotes], [Election]: votes are durable before they are visible; in a
      cluster with message loss, duplication, reordering, storage failures and
      restarts a term has at most one leader.
    - [Widths]: steps, ticks, proposals and the other calls of a running node keep
      its fields, entries and messages within their Go types, and give the store
      only such values; [Restarts] relies on it.
    - [LogHistory], [RaftLogs], [RaftLead], [LogSafety]: the logs of such a
      cluster.  [LogHistory] is the argument on elected logs, votes and
      acknowledgements; [RaftLogs] and [RaftLead] show that every function of the
      node keeps such a history; [LogSafety] concludes log matching, leader
      completeness, state machine safety and the durability of what is committed.
      [LogStores] shows that the persistent stores keep the contract it needs.

    ** Storage (storage/, backup/)

    - [Bytes]: little-endian integers and CRC-32C with single-byte detection.
    - [Wal]: records, the log, its recovery, the in-memory device.
      [FaultDisk], [Devices]: the fault-injecting, file and io_uring devices.
      Recovery returns a prefix of what was appended with everything synced.
      [DeviceSuite]: the test suite for devices, and which devices pass it.
    - [Uring]: the queues shared with the kernel and the writer over them; an
      acknowledged block was written in full and synced afterwards.
    - [RaftWal], [Snapshot], [RaftStore]: hard state and entries over the log,
      the snapshot file, and both together; operations are atomic under crashes.
    - [Backup]: a backup is restored to the files it was made of.

    ** State machine and server (statemachine/, protocol/, server/)

    - [StateMachine]: every request takes effect once; snapshots round-trip.
    - [Protocol]: frames and messages round-trip; damage is detected.
    - [Server]: the event loop and its connections as an interleaving of events.
      No reply is sent twice; a get is answered after its read barrier, a mutation
      from an entry that was applied; an iteration does not panic and applies what
      is committed once and in order; peers receive what was sent.
    - [ClusterSpec]: validation and configuration of a cluster file.

    ** Simulation (dst/, sim/, examples/, internal/)

    - [EventHeap], [Engine], [EngineInv], [EngineLog], [EngineSim]: the event heap,
      the engine with faults and invariants, and proof rules for every cluster:
      invariants of runs, termination of a step, what the counters of the faults
      count, and runs over related clusters.  The engine refines one without a heap.
    - [RaftCluster], [Restarts], [Sim]: the simulated Raft cluster never violates
      one of its three safety checks, whatever its callers propose, apply, compact,
      read or transfer ([RaftCluster]), and also when nodes crash and are rebuilt
      from the bytes of their logs ([Restarts]); the older simulator runs in lockstep
      with the engine.
    - [Paxos], [TokenRing]: agreement and termination of the Paxos example; the
      ring never has two tokens, and passes its token on.
    - [GoStrings], [Scenario]: scenario files, what they are accepted for and what
      they mean, and the [simulate] command from the file to its report, which
      counts the messages each fault has dropped.
    - [Seeds]: the [sim] and [seeds] commands; a sweep ends, its verdict is that of
      all its seeds, and no seed fails.
    - [AdapterProto], [AdapterHost], [AdapterProcess]: protocols under test in a
      child process.  Its answers are checked, a run over the pipes is the run in
      the simulator, a failed call included, and the child is always waited for.

    ** Network faults (chaos/, bpf/)

    - [Float64], [Chaos]: the policy, the packet programs that enforce it, and the
      controller, which removes only what it has created.

    ** Bounds and fuel

    Loops over indexes run over [seqZ] and loops over queues over the queue.
    Where the source loops until something is done, the fuel is a bound that is
    proved sufficient: the length of a heap for sifting, the length of the pending
    bytes for writing.  The cascade inside an engine step has no bound in general:
    [Step] takes fuel and answers [Limit] without it; the theorems hold for every
    fuel, and for Paxos and the token ring a sufficient fuel is proved.  The
    kernel's answers to the ring are a list, which a call may exhaust ([Waiting]).
    The theorems about a Raft node assume that its last index is below the largest
    [uint64], so that no index wraps, and that the outbound buffer has room for
    what an operation sends.  Log agreement considers executions with that bound,
    restarts from a store that holds what the node has stored, and no compaction
    by a stopped node that is restarted later; the simulated cluster is shown safe
    for runs with restarts and for runs with compactions, not with both, because its
    stores bring back entries that a snapshot has replaced.  A simulated device holds
    at most 2^63-1 bytes, the longest slice.  The seed sweep ends for ranges below the
    largest [int64], and the ring theorem covers fewer than 2^62 appends.

    ** What is not modelled

    - Goroutines, listeners and signals of [Server.Run], the HTTP status pages,
      and wall-clock time: the server is the set of its interleavings.
    - JSON decoding, CIDR parsing and the printing of delays and rates: library
      code, which the definitions take as arguments.
    - [OpenRing] and [Close] of the ring, which map memory, block devices opened
      raw, the kernel probe and the benchmarks, which measure: system calls.
    - The command line (flags, printing, exit), the project templates of
      [newproject], which are constant text, [tlc.go], which filters the output
      of an external checker with regular expressions, and [apisurface], which
      prints what the Go parser returns.
    - Elections and logs of a cluster that changes its members: election and log
      safety are for a fixed membership; joint configurations are covered by the
      quorum and single-node theorems.

    This file: integers, record update, the monad and its logic, and lemmas on
    lists and maps shared by the other files. *)

From stdpp Require Export base tactics numbers list gmap sets strings.
From Stdlib Require Export ZArith Lia.

#[global] Open Scope Z_scope.

(** ** Machine integers

    Go's unsigned integers are modelled as [Z]; every operation that can
    overflow in the source goes through one of these wrap-around functions. *)

Definition w64 (z : Z) : Z := z mod 2 ^ 64.
Definition w32 (z : Z) : Z := z mod 2 ^ 32.
Definition w16 (z : Z) : Z := z mod 2 ^ 16.
Definition w8 (z : Z) : Z := z mod 2 ^ 8.

Definition is_u64 (z : Z) : Prop := 0 <= z < 2 ^ 64.
Definition is_u32 (z : Z) : Prop := 0 <= z < 2 ^ 32.
Definition is_u16 (z : Z) : Prop := 0 <= z < 2 ^ 16.
Definition is_u8 (z : Z) : Prop := 0 <= z < 2 ^ 8.

Definition maxu64 : Z := 2 ^ 64 - 1.

(** Go's [len] as an integer. *)
Definition len {A : Type} (l : list A) : Z := Z.of_nat (length l).

(** Go's error values: [None] is [nil]. *)
Abbreviation error := string.

(** ** Record update

    [r <| f := v |>] is [r] with field [f] replaced.  A record declares its
    eta-expansion once ([Eta]); the updater of a projection is computed from it. *)

Class Eta (R : Type) := eta : R -> R.
Class Update {R T : Type} (proj : R -> T) := upd : T -> R -> R.

Ltac build_update proj :=
  lazymatch type of proj with
  | ?R -> ?T =>
      let i := constr:(_ : Eta R) in
      let body := eval hnf in i in
      let r := fresh "r" in
      let v := fresh "v" in
      refine (fun (v : T) (r : R) => _);
      let e := eval cbv beta in (body r) in
      lazymatch eval pattern (proj r) in e with
      | ?g _ => let t := eval cbv beta in (g v) in exact t
      end
  end.

#[export] Hint Extern 0 (Update ?proj) => build_update proj : typeclass_instances.

#[warnings="-postfix-notation-not-level-1"]
Notation "r <| f := v |>" := (upd (proj := f) v r)
  (at level 12, left associativity, f at level 9, v at level 200).

(** ** The state-and-panic monad

    Imperative Go code over a mutable object of type [S] becomes [M S E A]: a
    function from the object to either a result with the updated object, or the
    panic that stopped the goroutine. *)

Inductive outcome (S E A : Type) :=
| Done (a : A) (s : S)
| Panicked (e : E).
Arguments Done {S E A} a s.
Arguments Panicked {S E A} e.

Definition M (S E A : Type) : Type := S -> outcome S E A.

#[export] Instance M_ret {S E} : MRet (M S E) := fun A a s => Done a s.
#[export] Instance M_bind {S E} : MBind (M S E) :=
  fun A B k m s => match m s with Done a s' => k a s' | Panicked e => Panicked e end.

Section monad_ops.
Context {S E : Type}.

Definition get : M S E S := fun s => Done s s.
Definition modify (f : S -> S) : M S E () := fun s => Done tt (f s).
Definition panic {A} (e : E) : M S E A := fun _ => Panicked e.

(** A [for _, x := range l] loop without [break]. *)
Fixpoint forM_ {A : Type} (l : list A) (f : A -> M S E ()) : M S E () :=
  match l with
  | [] => mret ()
  | x :: l => f x ;; forM_ l f
  end.

(** The same loop carrying local variables of type [B]. *)
Fixpoint foldM {A B : Type} (f : B -> A -> M S E B) (b : B) (l : list A) : M S E B :=
  match l with
  | [] => mret b
  | x :: l => b' ← f b x; foldM f b' l
  end.

(** Total weakest precondition: the computation returns, and its result and
    final state satisfy [Q]. *)
Definition wp {A} (m : M S E A) (Q : A -> S -> Prop) (s : S) : Prop :=
  match m s with Done a s' => Q a s' | Panicked _ => False end.

Lemma wp_ret {A} (a : A) (Q : A -> S -> Prop) s : Q a s -> wp (mret a) Q s.
Proof. done. Qed.

Lemma wp_bind {A B} (m : M S E A) (k : A -> M S E B) Q s :
  wp m (fun a s' => wp (k a) Q s') s -> wp (m ≫= k) Q s.
Proof. unfold wp, mbind, M_bind. by destruct (m s). Qed.

Lemma wp_mono {A} (m : M S E A) (P Q : A -> S -> Prop) s :
  wp m P s -> (forall a s', P a s' -> Q a s') -> wp m Q s.
Proof. unfold wp. destruct (m s); eauto. Qed.

Lemma wp_get (Q : S -> S -> Prop) s : Q s s -> wp get Q s.
Proof. done. Qed.

Lemma wp_modify f (Q : () -> S -> Prop) s : Q () (f s) -> wp (modify f) Q s.
Proof. done. Qed.

(** Loop rule: an invariant kept by every iteration. *)
Lemma wp_forM_ {A} (I : S -> Prop) (l : list A) (f : A -> M S E ()) s :
  I s ->
  (forall x s, x ∈ l -> I s -> wp (f x) (fun _ s' => I s') s) ->
  wp (forM_ l f) (fun _ s' => I s') s.
Proof.
  revert s. induction l as [|x l IH]; intros s HI Hf; [exact HI|].
  cbn. apply wp_bind. eapply wp_mono.
  - apply Hf; [set_solver | done].
  - intros [] s' Hs'. apply IH; [done|]. intros y t Hy. apply Hf. set_solver.
Qed.

(** Loop rule with the list of elements already processed. *)
Lemma wp_forM_prefix {A} (I : list A -> S -> Prop) (l : list A) (f : A -> M S E ()) s :
  I [] s ->
  (forall pre x post s, l = pre ++ x :: post -> I pre s ->
     wp (f x) (fun _ s' => I (pre ++ [x]) s') s) ->
  wp (forM_ l f) (fun _ s' => I l s') s.
Proof.
  intros HI Hf.
  cut (forall post pre s, l = pre ++ post -> I pre s -> wp (forM_ post f) (fun _ s' => I l s') s).
  { intros H. by apply (H l []). }
  clear s HI. induction post as [|x post IH]; intros pre s -> HI; cbn [forM_].
  - by rewrite app_nil_r in *.
  - apply wp_bind. eapply wp_mono; [by eapply Hf|]. intros [] s' HI'.
    apply (IH (pre ++ [x])); [by rewrite <- app_assoc|done].
Qed.

Lemma wp_det {A} (m : M S E A) (Q : A -> S -> Prop) s a s' :
  m s = Done a s' -> Q a s' -> wp m Q s.
Proof. unfold wp. by intros ->. Qed.

Lemma wp_Done {A} (m : M S E A) (Q : A -> S -> Prop) s :
  wp m Q s -> exists a s', m s = Done a s' /\ Q a s'.
Proof. unfold wp. destruct (m s); naive_solver. Qed.

(** Partial weakest precondition: if the computation returns, its result and
    final state satisfy [Q]. *)
Definition wlp {A} (m : M S E A) (Q : A -> S -> Prop) (s : S) : Prop :=
  match m s with Done a s' => Q a s' | Panicked _ => True end.

Lemma wlp_ret {A} (a : A) (Q : A -> S -> Prop) s : Q a s -> wlp (mret a) Q s.
Proof. done. Qed.

Lemma wlp_panic {A} e (Q : A -> S -> Prop) s : wlp (panic e) Q s.
Proof. done. Qed.

Lemma wlp_bind {A B} (m : M S E A) (k : A -> M S E B) Q s :
  wlp m (fun a s' => wlp (k a) Q s') s -> wlp (m ≫= k) Q s.
Proof. unfold wlp, mbind, M_bind. by destruct (m s). Qed.

Lemma wlp_mono {A} (m : M S E A) (P Q : A -> S -> Prop) s :
  wlp m P s -> (forall a s', P a s' -> Q a s') -> wlp m Q s.
Proof. unfold wlp. destruct (m s); eauto. Qed.

Lemma wlp_get (Q : S -> S -> Prop) s : Q s s -> wlp get Q s.
Proof. done. Qed.

Lemma wlp_modify f (Q : () -> S -> Prop) s : Q () (f s) -> wlp (modify f) Q s.
Proof. done. Qed.

Lemma wlp_forM_ {A} (I : S -> Prop) (l : list A) (f : A -> M S E ()) s :
  I s -> (forall x s, x ∈ l -> I s -> wlp (f x) (fun _ s' => I s') s) ->
  wlp (forM_ l f) (fun _ s' => I s') s.
Proof.
  revert s. induction l as [|x l IH]; intros s HI Hf; [exact HI|].
  cbn. apply wlp_bind. eapply wlp_mono.
  - apply Hf; [set_solver | done].
  - intros [] s' Hs'. apply IH; [done|]. intros y t Hy. apply Hf. set_solver.
Qed.

Lemma wlp_foldM {A B} (I : B -> S -> Prop) (l : list A) (f : B -> A -> M S E B) b s :
  I b s -> (forall b x s, x ∈ l -> I b s -> wlp (f b x) I s) -> wlp (foldM f b l) I s.
Proof.
  revert b s. induction l as [|x l IH]; intros b s HI Hf; [exact HI|].
  cbn. apply wlp_bind. eapply wlp_mono.
  - apply Hf; [set_solver | done].
  - intros b' s' Hs'. apply IH; [done|]. intros. apply Hf; [set_solver|done].
Qed.

Lemma wp_wlp {A} (m : M S E A) (Q : A -> S -> Prop) s : wp m Q s -> wlp m Q s.
Proof. unfold wp, wlp. by destruct (m s). Qed.

Lemma wlp_Done {A} (m : M S E A) (Q : A -> S -> Prop) s a s' :
  wlp m Q s -> m s = Done a s' -> Q a s'.
Proof. unfold wlp. intros H Hm. by rewrite Hm in H. Qed.

(** Weakest precondition with a postcondition for either way to stop. *)
Definition wpx {A} (m : M S E A) (Q : A -> S -> Prop) (R : E -> Prop) (s : S) : Prop :=
  match m s with Done a s' => Q a s' | Panicked e => R e end.

Lemma wpx_bind {A B} (m : M S E A) (k : A -> M S E B) Q R s :
  wpx m (fun a s' => wpx (k a) Q R s') R s -> wpx (m ≫= k) Q R s.
Proof. unfold wpx, mbind, M_bind. by destruct (m s). Qed.

Lemma wpx_mono {A} (m : M S E A) (P Q : A -> S -> Prop) (R : E -> Prop) s :
  wpx m P R s -> (forall a s', P a s' -> Q a s') -> wpx m Q R s.
Proof. unfold wpx. destruct (m s); eauto. Qed.

Lemma wpx_conseq {A} (m : M S E A) (P Q : A -> S -> Prop) (R R' : E -> Prop) s :
  wpx m P R s -> (forall e, R e -> R' e) -> (forall a s', P a s' -> Q a s') -> wpx m Q R' s.
Proof. unfold wpx. destruct (m s); eauto. Qed.

Lemma wpx_bind_assoc {A B C} (m : M S E A) (f : A -> M S E B) (k : B -> M S E C) Q R s :
  wpx ((m ≫= f) ≫= k) Q R s -> wpx (m ≫= fun a => f a ≫= k) Q R s.
Proof. unfold wpx, mbind, M_bind. by destruct (m s). Qed.

End monad_ops.

(** Symbolic execution of the pure parts of a computation. *)
Ltac wp_pure :=
  lazymatch goal with
  | |- wp (mbind _ _) _ _ => apply wp_bind
  | |- wp get _ _ => apply wp_get
  | |- wp (modify _) _ _ => apply wp_modify
  | |- wp (mret _) _ _ => apply wp_ret
  end; cbn beta.
Ltac wp_pures := repeat wp_pure.

Ltac wlp_pure :=
  lazymatch goal with
  | |- wlp (mbind _ _) _ _ => apply wlp_bind
  | |- wlp get _ _ => apply wlp_get
  | |- wlp (modify _) _ _ => apply wlp_modify
  | |- wlp (mret _) _ _ => apply wlp_ret
  | |- wlp (panic _) _ _ => apply wlp_panic
  end; cbn beta.
Ltac wlp_pures := repeat wlp_pure.

Tactic Notation "wlp_call" uconstr(H) := eapply wlp_mono; [eapply H|cbn beta].

(** [wp_call H]: the next computation is described by [H : wp m _ _]. *)
Tactic Notation "wp_call" uconstr(H) := eapply wp_mono; [eapply H|cbn beta].

(** ** Lists *)

Lemma filter_ext_in {A} (P Q : A -> Prop) `{!forall x, Decision (P x)}
  `{!forall x, Decision (Q x)} (l : list A) :
  (forall x, x ∈ l -> P x <-> Q x) -> filter P l = filter Q l.
Proof.
  induction l as [|x l IH]; intros Hx; [done|].
  rewrite !filter_cons. rewrite IH by set_solver.
  specialize (Hx x ltac:(set_solver)). by repeat case_decide; try tauto.
Qed.

Lemma filter_none {A} (P : A -> Prop) `{!forall x, Decision (P x)} (l : list A) :
  (forall x, x ∈ l -> ~ P x) -> filter P l = [].
Proof.
  induction l as [|x l IH]; intros Hx; [done|].
  rewrite filter_cons. case_decide as HP.
  - by destruct (Hx x ltac:(set_solver)).
  - apply IH. set_solver.
Qed.

(** Removing one element of a duplicate-free list from a filter. *)
Lemma length_filter_remove {A} `{!EqDecision A} (P : A -> Prop)
  `{!forall x, Decision (P x)} (l : list A) (k : A) :
  NoDup l -> k ∈ l -> P k ->
  length (filter P l) = S (length (filter (fun x => P x /\ x <> k) l)).
Proof.
  intros Hnd Hk HP. induction Hnd as [|x l Hx Hnd IH]; [set_solver|].
  destruct (decide (x = k)) as [->|Hne].
  - rewrite filter_cons_True by done. rewrite filter_cons_False by tauto.
    cbn. f_equal. f_equal. apply filter_ext_in.
    intros y Hy. split; [|tauto]. intros Py. split; [done|]. intros ->. done.
  - apply elem_of_cons in Hk as [->|Hk]; [done|].
    destruct (decide (P x)) as [Px|Px].
    + rewrite filter_cons_True by done. rewrite filter_cons_True by done.
      cbn. by rewrite IH.
    + rewrite filter_cons_False by done. rewrite filter_cons_False by tauto. by apply IH.
Qed.

(** Pigeonhole: two sub-collections of [l] that together outnumber it overlap. *)
Lemma filter_overlap {A} (P Q : A -> Prop) `{!forall x, Decision (P x)}
  `{!forall x, Decision (Q x)} (l : list A) :
  (length l < length (filter P l) + length (filter Q l))%nat ->
  exists x, x ∈ l /\ P x /\ Q x.
Proof.
  induction l as [|x l IH]; [cbn; lia|].
  rewrite !filter_cons. intros Hlt.
  destruct (decide (P x)) as [HP|HP], (decide (Q x)) as [HQ|HQ];
    [exists x; set_solver| | |]; cbn in Hlt;
    destruct IH as (y & Hy & ?); try lia; exists y; set_solver.
Qed.
