(* ===== verification/RaftTypes.v ===== *)
(** * Raft data types and the persistence boundary

    The data of [raft/types.go] and [raft/persist.go]: node states, log entries,
    messages, hard state, snapshots, and the two store interfaces as a class.
    Enumerations that Go declares as [uint8] and that arrive from the wire or
    from disk ([EntryKind], [CommandOp], [MessageType]) stay integers, because
    values outside the declared constants do reach the code. *)

From S2P Require Import Prelude.

(** ** raft/types.go *)

Inductive State := Follower | Candidate | Leader.

#[export] Instance State_eq_dec : EqDecision State.
Proof. solve_decision. Defined.

Definition EntryNormal : Z := 0.
Definition EntryJointConfig : Z := 1.
Definition EntryFinalConfig : Z := 2.
Definition EntryNoop : Z := 3.

Definition CommandLegacy : Z := 0.
Definition CommandPut : Z := 1.
Definition CommandDelete : Z := 2.

Record Entry := mkEntry {
  e_Term : Z;
  e_Command : Z;
  e_Kind : Z;
  e_OldVoters : Z;
  e_NewVoters : Z;
  e_Operation : Z;
  e_ClientID : Z;
  e_RequestID : Z;
  e_Key : Z;
  e_Value : Z
}.

#[export] Instance Entry_eq_dec : EqDecision Entry.
Proof. solve_decision. Defined.

#[export] Instance eta_Entry : Eta Entry := fun e =>
  mkEntry (e_Term e) (e_Command e) (e_Kind e) (e_OldVoters e) (e_NewVoters e)
    (e_Operation e) (e_ClientID e) (e_RequestID e) (e_Key e) (e_Value e).

(** The zero value [Entry{}]. *)
Definition zeroEntry : Entry := mkEntry 0 0 0 0 0 0 0 0 0 0.

Definition MsgPreVote : Z := 0.
Definition MsgPreVoteResponse : Z := 1.
Definition MsgRequestVote : Z := 2.
Definition MsgRequestVoteResponse : Z := 3.
Definition MsgAppend : Z := 4.
Definition MsgAppendResponse : Z := 5.
Definition MsgTimeoutNow : Z := 6.
Definition MsgInstallSnapshot : Z := 7.
Definition MsgInstallSnapshotResponse : Z := 8.

Record Message := mkMessage {
  m_Type : Z;
  m_From : Z;
  m_To : Z;
  m_Term : Z;
  m_LogIndex : Z;
  m_LogTerm : Z;
  m_Entry : Entry;
  m_HasEntry : bool;
  m_Commit : Z;
  m_Reject : bool;
  m_Match : Z;
  m_Context : Z;
  m_SnapshotIndex : Z;
  m_SnapshotTerm : Z;
  m_Snapshot : list Z;
  m_SnapshotOld : Z;
  m_SnapshotNew : Z
}.

#[export] Instance eta_Message : Eta Message := fun m =>
  mkMessage (m_Type m) (m_From m) (m_To m) (m_Term m) (m_LogIndex m) (m_LogTerm m)
    (m_Entry m) (m_HasEntry m) (m_Commit m) (m_Reject m) (m_Match m) (m_Context m)
    (m_SnapshotIndex m) (m_SnapshotTerm m) (m_Snapshot m) (m_SnapshotOld m)
    (m_SnapshotNew m).

#[export] Instance Message_eq_dec : EqDecision Message.
Proof. solve_decision. Defined.

(** [Message{Type: ty, From: from, To: to, Term: term}], the fields every
    message literal of the code sets; the others hold their zero value. *)
Definition newMessage (ty from to term : Z) : Message :=
  mkMessage ty from to term 0 0 zeroEntry false 0 false 0 0 0 0 [] 0 0.

(** ** raft/persist.go *)

Definition ErrStorage : error := "raft: stable storage failure".

Record HardState := mkHardState {
  h_Term : Z;
  h_VotedFor : Z;
  h_Commit : Z
}.

#[export] Instance HardState_eq_dec : EqDecision HardState.
Proof. solve_decision. Defined.

Record Snapshot := mkSnapshot {
  s_LastIndex : Z;
  s_LastTerm : Z;
  s_State : list Z;
  s_OldVoters : Z;
  s_NewVoters : Z
}.

Definition zeroSnapshot : Snapshot := mkSnapshot 0 0 [] 0 0.

(** The [SnapshotStore] extension. *)
Record SnapshotStore (S : Type) := mkSnapshotStore {
  SaveSnapshot : Snapshot -> S -> S * option error;
  CompactLog : Z -> S -> S * option error
}.
Arguments SaveSnapshot {S} _ _ _.
Arguments CompactLog {S} _ _ _.

(** The [StableStore] interface.  [AsSnapshotStore] is the outcome of the type
    assertion [n.store.(SnapshotStore)]: whether the dynamic type of the store
    also implements the snapshot extension, and with which operations. *)
Class StableStore (S : Type) := {
  SaveHardState : HardState -> S -> S * option error;
  Append : Z -> Entry -> S -> S * option error;
  AsSnapshotStore : option (SnapshotStore S)
}.

(** ** The in-memory store of [NewNode] *)

Module Memory.

Record memoryStore := mkMemoryStore {
  hard : HardState;
  log : list Entry;
  snapshot : Snapshot;
  base : Z
}.

Definition zero : memoryStore := mkMemoryStore (mkHardState 0 0 0) [] zeroSnapshot 0.

Definition saveHardState (h : HardState) (s : memoryStore) : memoryStore * option error :=
  (mkMemoryStore h (log s) (snapshot s) (base s), None).

Definition append (_ : Z) (e : Entry) (s : memoryStore) : memoryStore * option error :=
  (mkMemoryStore (hard s) (log s ++ [e]) (snapshot s) (base s), None).

Definition saveSnapshot (snap : Snapshot) (s : memoryStore) : memoryStore * option error :=
  (mkMemoryStore (hard s) (log s) snap (base s), None).

Definition compactLog (index : Z) (s : memoryStore) : memoryStore * option error :=
  if index <? base s then (s, Some ErrStorage)
  else (mkMemoryStore (hard s) (log s) (snapshot s) index, None).

#[global] Instance store : StableStore memoryStore := {
  SaveHardState := saveHardState;
  Append := append;
  AsSnapshotStore := Some {| SaveSnapshot := saveSnapshot; CompactLog := compactLog |}
}.

End Memory.
