(* ===== verification/Quorum.v ===== *)
(** * Voter masks, majorities and membership

    The voter-set arithmetic of [raft/node.go] ([nodeBit], [bitsSet],
    [majorityMask], [voterMask]) and the list-based [Membership] of
    [raft/membership.go], with the two facts consensus rests on: the masks count
    voters correctly, and two majorities of one voter set share a voter. *)

From S2P Require Import Prelude.

(** ** Definitions *)

(** [nodeBit]: [None] is the panic "raft: node IDs must be in 1..64". *)
Definition nodeBit (id : Z) : option Z :=
  if (id =? 0) || (64 <? id) then None else Some (w64 (Z.shiftl 1 (id - 1))).

(** The Kernighan loop of [bitsSet]; [fuel] bounds its iterations, and 64 is
    enough because every iteration clears one of the 64 bits. *)
Fixpoint bitsSet_loop (fuel : nat) (mask count : Z) : Z :=
  match fuel with
  | O => count
  | S fuel =>
      if mask =? 0 then count
      else bitsSet_loop fuel (Z.land mask (w64 (mask - 1))) (count + 1)
  end.

Definition bitsSet (mask : Z) : Z := bitsSet_loop 64 mask 0.

Definition majorityMask (voters acked : Z) : bool :=
  negb (voters =? 0) && (bitsSet voters / 2 + 1 <=? bitsSet (Z.land voters acked)).

(** The commit and election rule of [canCommitIndex] and [quorumMask]: a majority
    of the old voters and, in a joint configuration, of the new ones too. *)
Definition quorum (oldVoters newVoters acked : Z) : bool :=
  majorityMask oldVoters acked && ((newVoters =? 0) || majorityMask newVoters acked).

(** The loop of [voterMask]; [None] is a [nodeBit] panic. *)
Fixpoint voterMask_loop (ids : list Z) (mask : Z) : option (Z * bool) :=
  match ids with
  | [] => Some (mask, true)
  | id :: ids =>
      match nodeBit id with
      | None => None
      | Some bit =>
          if negb (Z.land mask bit =? 0) then Some (0, false)
          else voterMask_loop ids (Z.lor mask bit)
      end
  end.

Definition voterMask (ids : list Z) : option (Z * bool) :=
  if decide (ids = []) then Some (0, false) else voterMask_loop ids 0.

(** ** raft/membership.go *)

Record Membership := mkMembership { Old : list Z; New : list Z }.

Definition Joint (m : Membership) : bool := negb (len (New m) =? 0).

(** The counting loop of [majority]; [acked] is a Go map, whose missing keys
    read as [false]. *)
Fixpoint majority_count (voters : list Z) (acked : gmap Z bool) (count : Z) : Z :=
  match voters with
  | [] => count
  | id :: voters =>
      majority_count voters acked
        (if default false (acked !! id) then count + 1 else count)
  end.

Definition majority (voters : list Z) (acked : gmap Z bool) : bool :=
  if len voters =? 0 then false
  else len voters / 2 + 1 <=? majority_count voters acked 0.

Definition CanCommit (m : Membership) (acked : gmap Z bool) : bool :=
  if negb (majority (Old m) acked) then false
  else negb (Joint m) || majority (New m) acked.

Fixpoint contains (ids : list Z) (target : Z) : bool :=
  match ids with
  | [] => false
  | id :: ids => if id =? target then true else contains ids target
  end.

Definition Contains (m : Membership) (id : Z) : bool :=
  contains (Old m) id || contains (New m) id.

(** ** Bits of a mask *)

(** The positions set in a 64-bit mask, in increasing order. *)
Definition bits (mask : Z) : list Z := filter (fun i => Z.testbit mask i = true) (seqZ 0 64).

Lemma elem_of_bits mask i :
  i ∈ bits mask <-> Z.testbit mask i = true /\ 0 <= i < 64.
Proof. unfold bits. rewrite list_elem_of_filter, elem_of_seqZ. intuition lia. Qed.

Lemma NoDup_bits mask : NoDup (bits mask).
Proof. apply NoDup_filter, NoDup_seqZ. Qed.

Lemma w64_small z : is_u64 z -> w64 z = z.
Proof. apply Z.mod_small. Qed.

Lemma w64_range z : is_u64 (w64 z).
Proof. apply Z.mod_pos_bound. lia. Qed.

Lemma testbit_ge64 mask i : is_u64 mask -> 64 <= i -> Z.testbit mask i = false.
Proof.
  intros [H0 H1] Hi. destruct (Z.eq_dec mask 0) as [->|Hne]; [apply Z.bits_0|].
  apply Z.bits_above_log2; [lia|].
  apply Z.lt_le_trans with 64; [|lia]. apply Z.log2_lt_pow2; lia.
Qed.

(** A mask whose 64 bits are all clear is zero. *)
Lemma bits_nil mask : is_u64 mask -> bits mask = [] -> mask = 0.
Proof.
  intros Hm Hb. apply Z.bits_inj_0. intros i.
  destruct (Z.lt_ge_cases i 0); [by apply Z.testbit_neg_r|].
  destruct (Z.lt_ge_cases i 64); [|apply testbit_ge64; [done|lia]].
  destruct (Z.testbit mask i) eqn:E; [|done].
  assert (i ∈ bits mask) by (apply elem_of_bits; auto). rewrite Hb in *. set_solver.
Qed.

(** [mask & (mask - 1)] clears exactly one bit that was set. *)
Lemma clear_lowest (p : positive) :
  exists k, 0 <= k /\ Z.testbit (Zpos p) k = true /\
    forall i, 0 <= i ->
      Z.testbit (Z.land (Zpos p) (Zpos p - 1)) i = Z.testbit (Zpos p) i && negb (i =? k).
Proof.
  induction p as [p _|p IH|].
  - exists 0. split; [lia|]. split; [done|]. intros i Hi.
    rewrite Z.land_spec. replace (Zpos p~1 - 1) with (2 * Zpos p) by lia.
    replace (Zpos p~1) with (2 * Zpos p + 1) by lia.
    destruct (Z.eqb_spec i 0) as [->|Hne].
    + rewrite Z.testbit_even_0. by rewrite andb_false_r.
    + replace i with (Z.succ (i - 1)) by lia.
      rewrite Z.testbit_odd_succ, Z.testbit_even_succ by lia.
      rewrite andb_true_r. apply andb_diag.
  - destruct IH as (k & Hk & Hb & IH). exists (Z.succ k). split; [lia|].
    replace (Zpos p~0) with (2 * Zpos p) by lia. split.
    { rewrite Z.testbit_even_succ; [done|lia]. }
    intros i Hi. rewrite Z.land_spec.
    replace (2 * Zpos p - 1) with (2 * (Zpos p - 1) + 1) by lia.
    destruct (Z.eqb_spec i 0) as [->|Hne].
    { by rewrite Z.testbit_even_0. }
    replace i with (Z.succ (i - 1)) by lia.
    rewrite Z.testbit_odd_succ, Z.testbit_even_succ by lia.
    rewrite <- Z.land_spec, IH by lia. f_equal. f_equal.
    destruct (Z.eqb_spec (i - 1) k), (Z.eqb_spec (Z.succ (i - 1)) (Z.succ k)); lia.
  - exists 0. split; [lia|]. split; [done|]. intros i Hi. rewrite Z.land_0_r, Z.bits_0.
    destruct (Z.eqb_spec i 0) as [->|Hne]; [done|].
    replace i with (Z.succ (i - 1)) by lia.
    by rewrite <- (Z.add_0_l 1), <- (Z.mul_0_r 2), Z.testbit_odd_succ, Z.bits_0 by lia.
Qed.

Lemma clear_lowest_bits mask :
  is_u64 mask -> mask <> 0 ->
  length (bits mask) = S (length (bits (Z.land mask (w64 (mask - 1))))).
Proof.
  intros Hm Hne. rewrite w64_small by (unfold is_u64 in *; lia).
  assert (exists p, mask = Zpos p) as [p ->] by (destruct mask; unfold is_u64 in *; eauto; lia).
  destruct (clear_lowest p) as (k & Hk & Hb & Hc).
  assert (k < 64).
  { destruct (Z.lt_ge_cases k 64); [done|]. by rewrite testbit_ge64 in Hb by (done || lia). }
  unfold bits at 1. rewrite (length_filter_remove _ _ k); [| |apply elem_of_seqZ; lia|done].
  2: apply NoDup_seqZ.
  f_equal. f_equal. apply filter_ext_in. intros i Hi%elem_of_seqZ.
  rewrite Hc by lia. destruct (Z.testbit _ i), (Z.eqb_spec i k); naive_solver.
Qed.

(** A non-negative integer without bits above 63 is a [uint64]. *)
Lemma u64_of_bits z : 0 <= z -> (forall i, 64 <= i -> Z.testbit z i = false) -> is_u64 z.
Proof.
  intros Hz Hb. split; [done|].
  replace z with (w64 z); [apply w64_range|]. apply Z.bits_inj'. intros i Hi.
  unfold w64. destruct (Z.lt_ge_cases i 64).
  - by rewrite Z.mod_pow2_bits_low.
  - rewrite Z.mod_pow2_bits_high by lia. by rewrite Hb.
Qed.

Lemma land_u64 a b : is_u64 a -> is_u64 (Z.land a b).
Proof.
  intros Ha. apply u64_of_bits; [apply Z.land_nonneg; unfold is_u64 in *; tauto|].
  intros i Hi. by rewrite Z.land_spec, testbit_ge64.
Qed.

Lemma lor_u64 a b : is_u64 a -> is_u64 b -> is_u64 (Z.lor a b).
Proof.
  intros Ha Hb. apply u64_of_bits; [apply Z.lor_nonneg; unfold is_u64 in *; lia|].
  intros i Hi. by rewrite Z.lor_spec, !testbit_ge64.
Qed.

Lemma bitsSet_loop_counts fuel mask count :
  is_u64 mask -> (length (bits mask) <= fuel)%nat ->
  bitsSet_loop fuel mask count = count + len (bits mask).
Proof.
  revert mask count. induction fuel as [|fuel IH]; intros mask count Hm Hle; cbn.
  - unfold len. lia.
  - destruct (Z.eqb_spec mask 0) as [->|Hne].
    + replace (bits 0) with ([] : list Z); [unfold len; cbn; lia|].
      symmetry. apply filter_none. intros i _. by rewrite Z.bits_0.
    + pose proof (clear_lowest_bits mask Hm Hne) as Hc.
      rewrite IH; [unfold len; lia| |lia].
      by apply land_u64.
Qed.

(** ** Counting and intersection *)

Lemma bitsSet_bits mask : is_u64 mask -> bitsSet mask = len (bits mask).
Proof.
  intros Hm. unfold bitsSet. rewrite bitsSet_loop_counts; [done..|].
  unfold bits. etrans; [apply length_filter|]. by rewrite length_seqZ.
Qed.

Lemma bits_land v a : bits (Z.land v a) = filter (fun i => Z.testbit a i = true) (bits v).
Proof.
  unfold bits. rewrite list_filter_filter. apply filter_ext_in. intros i _.
  rewrite Z.land_spec, andb_true_iff. tauto.
Qed.

Lemma majorityMask_spec v a :
  is_u64 v ->
  majorityMask v a = true <->
  v <> 0 /\ len (bits v) < 2 * len (filter (fun i => Z.testbit a i = true) (bits v)).
Proof.
  intros Hv. unfold majorityMask.
  rewrite !bitsSet_bits, bits_land by auto using land_u64.
  rewrite andb_true_iff, negb_true_iff, Z.eqb_neq, Z.leb_le.
  generalize (len (bits v)) (len (filter (fun i => Z.testbit a i = true) (bits v))).
  intros x y. split; intros [? ?]; split; try done.
  - pose proof (Z.mul_div_le x 2). pose proof (Z.mod_pos_bound x 2).
    pose proof (Z.div_mod x 2). lia.
  - pose proof (Z.div_mod x 2). pose proof (Z.mod_pos_bound x 2). lia.
Qed.

(** Two majorities of one voter set share a voter. *)
Lemma majorityMask_intersect v a b :
  is_u64 v -> majorityMask v a = true -> majorityMask v b = true ->
  exists i, 0 <= i < 64 /\ Z.testbit v i = true /\ Z.testbit a i = true /\ Z.testbit b i = true.
Proof.
  intros Hv [_ HA]%majorityMask_spec [_ HB]%majorityMask_spec; try done.
  destruct (filter_overlap (fun i => Z.testbit a i = true) (fun i => Z.testbit b i = true)
    (bits v)) as (i & Hi & ? & ?); [unfold len in *; lia|].
  apply elem_of_bits in Hi. naive_solver.
Qed.

(** Reasoning goes through the lemmas above: unfolding the 64-fold loop on a
    symbolic mask is exponential. *)
#[global] Opaque bitsSet majorityMask.

(** ** Masks built from identifiers *)

Lemma nodeBit_Some id b :
  0 <= id -> nodeBit id = Some b -> 1 <= id <= 64 /\ b = Z.shiftl 1 (id - 1).
Proof.
  intros Hid. unfold nodeBit.
  destruct (Z.eqb_spec id 0), (Z.ltb_spec 64 id); cbn; try discriminate.
  intros [= <-]. split; [lia|]. apply w64_small. rewrite Z.shiftl_1_l.
  split; [apply Z.pow_nonneg; lia|apply Z.pow_lt_mono_r; lia].
Qed.

Lemma nodeBit_ok id : 1 <= id <= 64 -> nodeBit id = Some (Z.shiftl 1 (id - 1)).
Proof.
  intros Hid. destruct (nodeBit id) as [b|] eqn:E.
  - by destruct (nodeBit_Some id b ltac:(lia) E) as [_ ->].
  - unfold nodeBit in E. destruct (Z.eqb_spec id 0), (Z.ltb_spec 64 id); cbn in E; lia || done.
Qed.

Lemma testbit_bit k i : 0 <= k -> 0 <= i -> Z.testbit (Z.shiftl 1 k) i = (i =? k).
Proof.
  intros Hk Hi. rewrite Z.shiftl_1_l, Z.pow2_bits_eqb by done. apply Z.eqb_sym.
Qed.

Lemma bit_u64 k : 0 <= k < 64 -> is_u64 (Z.shiftl 1 k).
Proof.
  intros Hk. rewrite Z.shiftl_1_l. split; [apply Z.pow_nonneg; lia|apply Z.pow_lt_mono_r; lia].
Qed.

Lemma land_bit_zero mask k :
  0 <= mask -> 0 <= k -> (Z.land mask (Z.shiftl 1 k) =? 0) = negb (Z.testbit mask k).
Proof.
  intros Hm Hk. destruct (Z.testbit mask k) eqn:E; cbn.
  - apply Z.eqb_neq. intros H0. apply (f_equal (fun z => Z.testbit z k)) in H0.
    rewrite Z.land_spec, E, testbit_bit, Z.eqb_refl, Z.bits_0 in H0 by lia. done.
  - apply Z.eqb_eq, Z.bits_inj_0. intros i.
    destruct (Z.lt_ge_cases i 0); [by apply Z.testbit_neg_r|].
    rewrite Z.land_spec, testbit_bit by lia.
    destruct (Z.eqb_spec i k) as [->|]; [by rewrite E|apply andb_false_r].
Qed.

(** Adding a fresh identifier adds one position to the mask. *)
Lemma bits_lor_bit mask k :
  is_u64 mask -> 0 <= k < 64 -> Z.testbit mask k = false ->
  bits (Z.lor mask (Z.shiftl 1 k)) ≡ₚ k :: bits mask.
Proof.
  intros Hm Hk Hf. apply NoDup_Permutation; [apply NoDup_bits| |].
  - constructor; [|apply NoDup_bits]. rewrite elem_of_bits. intros [? _]; congruence.
  - intros i. rewrite elem_of_cons, !elem_of_bits, Z.lor_spec.
    destruct (Z.lt_ge_cases i 0); [split; [intros [? ?]; lia|intros [->|[? ?]]; lia]|].
    rewrite testbit_bit by lia. destruct (Z.eqb_spec i k) as [->|].
    + rewrite orb_true_r. split; auto.
    + rewrite orb_false_r. split; [auto|]. by intros [?|?].
Qed.

Lemma voterMask_loop_bits ids mask0 mask :
  Forall (fun id => 0 <= id) ids -> is_u64 mask0 ->
  voterMask_loop ids mask0 = Some (mask, true) ->
  is_u64 mask /\ bits mask ≡ₚ map (fun id => id - 1) ids ++ bits mask0.
Proof.
  intros Hids. revert mask0. induction Hids as [|id ids Hid Hids IH]; intros mask0 Hm; cbn.
  { intros [= <-]. done. }
  destruct (nodeBit id) as [b|] eqn:Eb; [|done].
  destruct (nodeBit_Some id b Hid Eb) as [Hr ->].
  rewrite land_bit_zero, negb_involutive by (unfold is_u64 in *; lia).
  destruct (Z.testbit mask0 (id - 1)) eqn:Ef; [done|]. intros HL.
  destruct (IH _ (lor_u64 _ _ Hm (bit_u64 (id - 1) ltac:(lia))) HL) as [Hu HP].
  split; [done|]. rewrite HP, bits_lor_bit by (done || lia).
  symmetry. apply Permutation_middle.
Qed.

Lemma majority_count_filter voters acked count :
  majority_count voters acked count =
  count + len (filter (fun id => default false (acked !! id) = true) voters).
Proof.
  revert count. induction voters as [|id voters IH]; intros count; cbn [majority_count].
  { unfold len. cbn. lia. }
  rewrite IH, filter_cons. destruct (default false (acked !! id)); unfold len.
  - rewrite decide_True by done. cbn [length]. lia.
  - rewrite decide_False by done. lia.
Qed.


(** The bit-mask majority and the list-based one agree whenever mask and list
    name the same voters and the acknowledgements agree on them. *)
Lemma majorityMask_is_majority (ids : list Z) (mask ackMask : Z) (acked : gmap Z bool) :
  Forall (fun id => 0 <= id) ids -> is_u64 ackMask ->
  voterMask ids = Some (mask, true) ->
  (forall id, id ∈ ids -> Z.testbit ackMask (id - 1) = default false (acked !! id)) ->
  majorityMask mask ackMask = majority ids acked.
Proof.
  intros Hids Hack HM Hag. unfold voterMask in HM. case_decide as Hne; [done|].
  destruct (voterMask_loop_bits ids 0 mask Hids) as [Hu HP]; [done..|].
  replace (bits 0) with ([] : list Z) in HP by reflexivity. rewrite app_nil_r in HP.
  Transparent majorityMask. unfold majorityMask, majority. Opaque majorityMask.
  rewrite majority_count_filter.
  rewrite !bitsSet_bits, bits_land by (try apply land_u64; try done; apply Hack).
  assert (length (bits mask) = length ids) as E1 by (rewrite HP; apply length_map).
  assert (length (filter (fun i => Z.testbit ackMask i = true) (bits mask)) =
          length (filter (fun id => default false (acked !! id) = true) ids)) as E2.
  { rewrite HP. clear -Hag. induction ids as [|id ids IH]; [done|]. cbn [map].
    rewrite !filter_cons, (Hag id) by set_solver.
    case_decide; cbn [length]; rewrite IH by set_solver; done. }
  unfold len. rewrite E1, E2, Z.add_0_l.
  destruct (Z.eqb_spec mask 0) as [->|Hm].
  - exfalso. apply Hne. replace (bits 0) with ([] : list Z) in HP by reflexivity.
    symmetry in HP. apply Permutation_nil_r in HP. by apply map_eq_nil in HP.
  - destruct ids as [|id ids]; [done|]. cbn [negb andb].
    by destruct (Z.eqb_spec (Z.of_nat (length (id :: ids))) 0) as [E|]; [cbn in E; lia|].
Qed.

Lemma voterMask_nonzero ids mask :
  Forall (fun id => 0 <= id) ids -> voterMask ids = Some (mask, true) -> mask <> 0.
Proof.
  intros Hids HM ->. unfold voterMask in HM. case_decide as Hne; [done|].
  destruct (voterMask_loop_bits ids 0 0 Hids) as [Hu HP]; [done..|].
  replace (bits 0) with ([] : list Z) in HP by reflexivity. rewrite app_nil_r in HP.
  apply Hne. symmetry in HP. apply Permutation_nil_r in HP. by apply map_eq_nil in HP.
Qed.

(** ** Properties *)

(** [bitsSet] terminates within its 64 iterations on every [uint64] and
    returns the number of one bits. *)
Theorem bitsSet_counts (mask : Z) :
  is_u64 mask -> bitsSet mask = len (filter (fun i => Z.testbit mask i = true) (seqZ 0 64)).
Proof. apply bitsSet_bits. Qed.

Lemma bitsSet_counts_witness : bitsSet (2 ^ 64 - 1) = 64.
Proof.
  rewrite (bitsSet_counts (2 ^ 64 - 1)); [reflexivity|]. unfold is_u64. lia.
Defined.

(** C34 Consecutive configurations of a joint-consensus transition cannot decide
    apart: a quorum of the joint configuration shares an old voter with every
    quorum of the old configuration, a new voter with every quorum of the new
    one, and two quorums of one configuration share a voter. *)
Theorem joint_quorums_intersect (o n a b : Z) :
  is_u64 o -> is_u64 n -> is_u64 a -> is_u64 b ->
  quorum o n a = true ->
  (quorum o 0 b = true ->
     exists i, 0 <= i < 64 /\ Z.testbit o i = true /\ Z.testbit a i = true /\ Z.testbit b i = true) /\
  (n <> 0 -> quorum n 0 b = true ->
     exists i, 0 <= i < 64 /\ Z.testbit n i = true /\ Z.testbit a i = true /\ Z.testbit b i = true) /\
  (quorum o n b = true ->
     exists i, 0 <= i < 64 /\ Z.testbit o i = true /\ Z.testbit a i = true /\ Z.testbit b i = true).
Proof.
  intros Ho Hn [Ha _] [Hb _]. unfold quorum. rewrite !andb_true_iff, !orb_true_iff, !Z.eqb_eq.
  intros [HA HA']. split_and!.
  - intros [HB _]. apply majorityMask_intersect; assumption.
  - intros Hne [HB _]. destruct HA' as [->|HA']; [done|]. apply majorityMask_intersect; assumption.
  - intros [HB _]. apply majorityMask_intersect; assumption.
Qed.

(** Voters 1,2,3 moving to 2,3,4; acknowledgements of 1,2,3 and of 3,4. *)
Lemma joint_quorums_intersect_witness :
  exists i, 0 <= i < 64 /\ Z.testbit 14 i = true /\ Z.testbit 7 i = true /\ Z.testbit 12 i = true.
Proof.
  apply (joint_quorums_intersect 7 14 7 12); try (unfold is_u64; lia); vm_compute; reflexivity.
Defined.

(** The bit-mask quorum rule the node commits and elects with agrees with
    [Membership.CanCommit] of [raft/membership.go], joint configurations
    included, whenever masks and lists name the same voters and the
    acknowledgements agree on them. *)
Theorem quorum_is_CanCommit (m : Membership) (oldMask newMask ackMask : Z) (acked : gmap Z bool) :
  Forall (fun id => 0 <= id) (Old m ++ New m) -> is_u64 ackMask ->
  voterMask (Old m) = Some (oldMask, true) ->
  (New m = [] /\ newMask = 0 \/ voterMask (New m) = Some (newMask, true)) ->
  (forall id, id ∈ Old m ++ New m ->
     Z.testbit ackMask (id - 1) = default false (acked !! id)) ->
  quorum oldMask newMask ackMask = CanCommit m acked.
Proof.
  intros [HO HN]%Forall_app Hack HMo HMn Hag. unfold quorum, CanCommit.
  rewrite (majorityMask_is_majority (Old m) oldMask ackMask acked) by set_solver.
  destruct (majority (Old m) acked); [|done]. cbn [negb andb]. unfold Joint.
  destruct HMn as [[-> ->]|HMn]; [done|].
  rewrite (majorityMask_is_majority (New m) newMask ackMask acked) by set_solver.
  rewrite (proj2 (Z.eqb_neq newMask 0)) by (by eapply voterMask_nonzero).
  destruct (New m); [done|]. unfold len.
  by rewrite (proj2 (Z.eqb_neq _ 0)) by (cbn; lia).
Qed.

Lemma quorum_is_CanCommit_witness :
  quorum 7 14 6 = CanCommit (mkMembership [1; 2; 3] [2; 3; 4]) {[ 2 := true; 3 := true ]}.
Proof.
  apply (quorum_is_CanCommit (mkMembership [1; 2; 3] [2; 3; 4]) 7 14 6 {[ 2 := true; 3 := true ]}).
  - repeat constructor; lia.
  - unfold is_u64; lia.
  - reflexivity.
  - right. reflexivity.
  - intros id Hid. cbn in Hid.
    repeat (apply elem_of_cons in Hid as [->|Hid]; [reflexivity|]). set_solver.
Defined.
