(* ===== verification/RaftNode.v ===== *)
(** * The Raft node

    A translation of [raft/node.go], function by function.  The mutable [*Node]
    is the state of the monad [M]; [panic] calls and the capacity check of [send]
    are [Panicked] outcomes; the stable store is any instance of [StableStore],
    and a failing store operation drives the node into fail-stop exactly as
    [failStorageWith] does.

    [for index := a; index <= b; index++] loops run over [seqZ a (b - a + 1)],
    which is the sequence of values [index] takes as long as [b] is not the
    largest [uint64] (there the Go loop would not terminate). *)

From S2P Require Import Prelude RaftTypes Quorum.

Definition outboundCapacity : Z := 4096.

(** The panics of the package. *)
Inductive Panic :=
| PanicDuplicateID      (* "raft: duplicate node ID" *)
| PanicNodeID           (* "raft: node IDs must be in 1..64" *)
| PanicLogIndex         (* "raft: log index out of range" *)
| PanicOutbound.        (* "raft outbound capacity exceeded" *)

Section node.
Context {S : Type} `{!StableStore S}.

Record Node := mkNode {
  n_ID : Z;
  n_Peers : list Z;
  n_State : State;
  n_Term : Z;
  n_VotedFor : Z;
  n_Leader : Z;
  n_Log : list Entry;
  n_BaseIndex : Z;
  n_BaseTerm : Z;
  n_Commit : Z;
  n_Applied : Z;
  n_timeout : Z;
  n_elapsed : Z;
  n_voteMask : Z;
  n_preVoteMask : Z;
  n_preVoteTerm : Z;
  n_next : gmap Z Z;
  n_match : gmap Z Z;
  n_outbound : list Message;
  n_store : S;
  n_Faulted : bool;
  n_storageErr : option error;
  n_readContext : Z;
  n_readAckMask : Z;
  n_readIndex : Z;
  n_readReady : bool;
  n_snapshot : Snapshot;
  n_votersOld : Z;
  n_votersNew : Z;
  n_pendingConfig : Z
}.

#[export] Instance eta_Node : Eta Node := fun n =>
  mkNode (n_ID n) (n_Peers n) (n_State n) (n_Term n) (n_VotedFor n) (n_Leader n)
    (n_Log n) (n_BaseIndex n) (n_BaseTerm n) (n_Commit n) (n_Applied n)
    (n_timeout n) (n_elapsed n) (n_voteMask n) (n_preVoteMask n) (n_preVoteTerm n)
    (n_next n) (n_match n) (n_outbound n) (n_store n) (n_Faulted n)
    (n_storageErr n) (n_readContext n) (n_readAckMask n) (n_readIndex n)
    (n_readReady n) (n_snapshot n) (n_votersOld n) (n_votersNew n)
    (n_pendingConfig n).

Abbreviation MN := (M Node Panic).

(** Reading a missing key of a Go [map[uint32]uint64] yields zero. *)
Definition mapGet (m : gmap Z Z) (k : Z) : Z := default 0 (m !! k).

(** [nodeBit] inside the node's code. *)
Definition bitOf (id : Z) : MN Z :=
  match nodeBit id with Some b => mret b | None => panic PanicNodeID end.

(** ** Construction *)

(** The duplicate check of [NewNodeWithStore]; returns the voter mask. *)
Fixpoint newNode_voters (seen : Z) (peers : list Z) : Panic + Z :=
  match peers with
  | [] => inr seen
  | peer :: peers =>
      match nodeBit peer with
      | None => inl PanicNodeID
      | Some bit =>
          if negb (Z.land seen bit =? 0) then inl PanicDuplicateID
          else newNode_voters (Z.lor seen bit) peers
      end
  end.

Definition NewNodeWithStore (id : Z) (peers : list Z) (electionTimeout : Z) (store : S)
  : Panic + Node :=
  match nodeBit id with
  | None => inl PanicNodeID
  | Some seen =>
      match newNode_voters seen peers with
      | inl p => inl p
      | inr voters =>
          inr (mkNode id peers Follower 0 0 0 [zeroEntry] 0 0 0 0 electionTimeout 0
                 0 0 0 ∅ ∅ [] store false None 0 0 0 false zeroSnapshot voters 0 0)
      end
  end.

(** ** Log access *)

Definition lastIndex (n : Node) : Z := w64 (n_BaseIndex n + len (n_Log n) - 1).

Definition offset (n : Node) (index : Z) : option Z :=
  if (index <? n_BaseIndex n) || (lastIndex n <? index) then None
  else Some (w64 (index - n_BaseIndex n)).

Definition logAt (n : Node) (off : Z) : Entry :=
  default zeroEntry (n_Log n !! Z.to_nat off).

Definition EntryAt (n : Node) (index : Z) : option Entry :=
  match offset n index with None => None | Some off => Some (logAt n off) end.

Definition termAt (n : Node) (index : Z) : option Z :=
  match offset n index with None => None | Some off => Some (e_Term (logAt n off)) end.

Definition termAtMust (index : Z) : MN Z :=
  n ← get;
  match termAt n index with Some t => mret t | None => panic PanicLogIndex end.

Definition entryAt (index : Z) : MN Entry :=
  n ← get;
  match offset n index with Some off => mret (logAt n off) | None => panic PanicLogIndex end.

(** [VoterMasks]. *)
Definition VoterMasks (n : Node) : Z * Z := (n_votersOld n, n_votersNew n).

(** ** Fail-stop *)

Definition failStorage : MN () :=
  modify (fun n => n
    <| n_storageErr := match n_storageErr n with None => Some ErrStorage | e => e end |>
    <| n_Faulted := true |> <| n_State := Follower |> <| n_Leader := 0 |>
    <| n_outbound := [] |>).

Definition failStorageWith (err : error) : MN () :=
  modify (fun n => n <| n_storageErr := Some err |>) ;; failStorage.

(** A call of a store method: the store keeps whatever state the method left. *)
Definition storeOp (op : S -> S * option error) : MN (option error) :=
  fun n => let '(s, err) := op (n_store n) in Done err (n <| n_store := s |>).

Definition persistHardState (h : HardState) : MN bool :=
  err ← storeOp (SaveHardState h);
  match err with
  | Some err => failStorageWith err ;; mret false
  | None => mret true
  end.

(** ** Messages *)

Definition send (m : Message) : MN () :=
  n ← get;
  if len (n_outbound n) =? outboundCapacity then panic PanicOutbound
  else modify (fun n => n <| n_outbound := n_outbound n ++ [m] |>).

Definition Drain (dst : list Message) : MN (list Message) :=
  n ← get;
  modify (fun n => n <| n_outbound := [] |>) ;;
  mret (dst ++ n_outbound n).

(** ** Configurations *)

(** The configuration in force: the committed one, overridden by the last joint
    entry of the uncommitted suffix. *)
Definition effectiveVoters : MN (Z * Z) :=
  n ← get;
  let first := Z.max (w64 (n_Commit n + 1)) (w64 (n_BaseIndex n + 1)) in
  foldM (fun '(o, w) index =>
      entry ← entryAt index;
      mret (if e_Kind entry =? EntryJointConfig
            then (e_OldVoters entry, e_NewVoters entry) else (o, w)))
    (n_votersOld n, n_votersNew n) (seqZ first (lastIndex n - first + 1)).

Definition quorumMask (mask : Z) : MN bool :=
  '(oldVoters, newVoters) ← effectiveVoters;
  mret (quorum oldVoters newVoters mask).

Definition isVoter (id : Z) : MN bool :=
  '(oldVoters, newVoters) ← effectiveVoters;
  bit ← bitOf id;
  mret (negb (Z.land (Z.lor oldVoters newVoters) bit =? 0)).

Definition canCommitIndex (index acked : Z) : MN bool :=
  n ← get;
  let first := w64 (n_Commit n + 1) in
  '(oldVoters, newVoters) ← foldM (fun '(o, w) pending =>
      entry ← entryAt pending;
      mret (if e_Kind entry =? EntryJointConfig
            then (e_OldVoters entry, e_NewVoters entry) else (o, w)))
    (n_votersOld n, n_votersNew n) (seqZ first (index - first + 1));
  mret (quorum oldVoters newVoters acked).

Definition ensurePeers (mask : Z) : MN () :=
  forM_ (seqZ 1 64) (fun id =>
    n ← get;
    bit ← bitOf id;
    if (id =? n_ID n) || (Z.land mask bit =? 0) then mret ()
    else if existsb (Z.eqb id) (n_Peers n) then mret ()
    else modify (fun n => n
      <| n_Peers := n_Peers n ++ [id] |>
      <| n_next := <[id := w64 (lastIndex n + 1)]> (n_next n) |>
      <| n_match := <[id := 0]> (n_match n) |>)).

Definition applyCommittedConfigurations (first last : Z) : MN () :=
  n ← get;
  let first := if first <=? n_BaseIndex n then w64 (n_BaseIndex n + 1) else first in
  forM_ (seqZ first (last - first + 1)) (fun index =>
    entry ← entryAt index;
    (if e_Kind entry =? EntryJointConfig then
       modify (fun n => n <| n_votersOld := e_OldVoters entry |>
                          <| n_votersNew := e_NewVoters entry |>) ;;
       ensurePeers (Z.lor (e_OldVoters entry) (e_NewVoters entry))
     else if e_Kind entry =? EntryFinalConfig then
       modify (fun n => n <| n_votersOld := e_OldVoters entry |> <| n_votersNew := 0 |>) ;;
       n ← get;
       v ← isVoter (n_ID n);
       (if v : bool then mret () else
          modify (fun n => n <| n_State := Follower |> <| n_Leader := 0 |>
                             <| n_readReady := false |>))
     else mret ()) ;;
    n ← get;
    if index =? n_pendingConfig n then modify (fun n => n <| n_pendingConfig := 0 |>)
    else mret ()).

(** The loop of [restoreConfigurationState]; [None] is its [return false]. *)
Fixpoint restoreConfigurationState_loop (indexes : list Z) (oldVoters newVoters pending : Z)
  : MN (option (Z * Z * Z)) :=
  match indexes with
  | [] => mret (Some (oldVoters, newVoters, pending))
  | index :: indexes =>
      entry ← entryAt index;
      n ← get;
      let next : option (Z * Z * Z) :=
        if e_Kind entry =? EntryNormal then
          if negb (e_OldVoters entry =? 0) || negb (e_NewVoters entry =? 0) then None
          else Some (oldVoters, newVoters, pending)
        else if e_Kind entry =? EntryNoop then
          if negb (e_Command entry =? 0) || negb (e_OldVoters entry =? 0) ||
             negb (e_NewVoters entry =? 0) || negb (e_Operation entry =? CommandLegacy)
          then None else Some (oldVoters, newVoters, pending)
        else if e_Kind entry =? EntryJointConfig then
          if negb (pending =? 0) || negb (newVoters =? 0) ||
             negb (e_OldVoters entry =? oldVoters) ||
             (e_OldVoters entry =? 0) || (e_NewVoters entry =? 0) then None
          else if index <=? n_Commit n then Some (e_OldVoters entry, e_NewVoters entry, pending)
          else Some (oldVoters, newVoters, index)
        else if e_Kind entry =? EntryFinalConfig then
          if negb (pending =? 0) || (newVoters =? 0) ||
             negb (e_OldVoters entry =? newVoters) || negb (e_NewVoters entry =? 0) then None
          else if index <=? n_Commit n then Some (e_OldVoters entry, 0, pending)
          else Some (oldVoters, newVoters, index)
        else None in
      match next with
      | None => mret None
      | Some (o, w, p) =>
          ensurePeers (Z.lor (e_OldVoters entry) (e_NewVoters entry)) ;;
          restoreConfigurationState_loop indexes o w p
      end
  end.

Definition restoreConfigurationState : MN bool :=
  n ← get;
  let first := w64 (n_BaseIndex n + 1) in
  r ← restoreConfigurationState_loop (seqZ first (lastIndex n - first + 1))
        (n_votersOld n) (n_votersNew n) 0;
  match r with
  | None => mret false
  | Some (o, w, p) =>
      modify (fun n => n <| n_votersOld := o |> <| n_votersNew := w |> <| n_pendingConfig := p |>) ;;
      mret true
  end.

Definition rebuildPendingConfig : MN () :=
  modify (fun n => n <| n_pendingConfig := 0 |>) ;;
  n ← get;
  let first := Z.max (w64 (n_Commit n + 1)) (w64 (n_BaseIndex n + 1)) in
  forM_ (seqZ first (lastIndex n - first + 1)) (fun index =>
    entry ← entryAt index;
    if (e_Kind entry =? EntryJointConfig) || (e_Kind entry =? EntryFinalConfig) then
      modify (fun n => n <| n_pendingConfig := index |>) ;;
      ensurePeers (Z.lor (e_OldVoters entry) (e_NewVoters entry))
    else mret ()).

(** ** Replication *)

Definition appendToContext (p context : Z) : MN () :=
  n ← get;
  if mapGet (n_next n) p <=? n_BaseIndex n then
    send (newMessage MsgInstallSnapshot (n_ID n) p (n_Term n)
      <| m_SnapshotIndex := s_LastIndex (n_snapshot n) |>
      <| m_SnapshotTerm := s_LastTerm (n_snapshot n) |>
      <| m_Snapshot := s_State (n_snapshot n) |>
      <| m_SnapshotOld := s_OldVoters (n_snapshot n) |>
      <| m_SnapshotNew := s_NewVoters (n_snapshot n) |>)
  else
    next ← (if w64 (lastIndex n + 1) <? mapGet (n_next n) p then
              modify (fun n => n <| n_next := <[p := w64 (lastIndex n + 1)]> (n_next n) |>) ;;
              mret (w64 (lastIndex n + 1))
            else mret (mapGet (n_next n) p));
    let next := if next =? 0 then 1 else next in
    let prev := w64 (next - 1) in
    prevTerm ← termAtMust prev;
    let m := newMessage MsgAppend (n_ID n) p (n_Term n)
      <| m_LogIndex := prev |> <| m_LogTerm := prevTerm |>
      <| m_Commit := n_Commit n |> <| m_Context := context |> in
    if next <? w64 (lastIndex n + 1) then
      entry ← entryAt next;
      send (m <| m_Entry := entry |> <| m_HasEntry := true |>)
    else send m.

Definition appendTo (p : Z) : MN () := appendToContext p 0.

Definition broadcastAppend : MN () :=
  n ← get;
  forM_ (n_Peers n) (fun p =>
    v ← isVoter p;
    if v : bool then appendTo p else mret ()).

Definition appendLocal (entry : Entry) : MN bool :=
  n ← get;
  err ← storeOp (Append (w64 (lastIndex n + 1)) entry);
  match err with
  | Some err => failStorageWith err ;; mret false
  | None =>
      modify (fun n => n <| n_Log := n_Log n ++ [entry] |>) ;;
      n ← get;
      bit ← bitOf (n_ID n);
      q ← quorumMask bit;
      if q : bool then
        let previous := n_Commit n in
        modify (fun n => n <| n_Commit := lastIndex n |>) ;;
        n ← get;
        ok ← persistHardState (mkHardState (n_Term n) (n_VotedFor n) (n_Commit n));
        if ok : bool then
          applyCommittedConfigurations (w64 (previous + 1)) (n_Commit n) ;; mret true
        else modify (fun n => n <| n_Commit := previous |>) ;; mret false
      else mret true
  end.

Definition becomeLeader : MN () :=
  modify (fun n => n <| n_State := Leader |> <| n_Leader := n_ID n |> <| n_elapsed := 0 |>) ;;
  n ← get;
  ok ← appendLocal (zeroEntry <| e_Term := n_Term n |> <| e_Kind := EntryNoop |>);
  if ok : bool then
    n ← get;
    let last := w64 (lastIndex n + 1) in
    forM_ (n_Peers n) (fun p =>
      modify (fun n => n <| n_next := <[p := last]> (n_next n) |>
                         <| n_match := <[p := 0]> (n_match n) |>)) ;;
    broadcastAppend
  else mret ().

(** ** Elections *)

Definition startElection : MN () :=
  n ← get;
  let nextTerm := w64 (n_Term n + 1) in
  ok ← persistHardState (mkHardState nextTerm (n_ID n) (n_Commit n));
  if ok : bool then
    modify (fun n => n <| n_State := Candidate |> <| n_Term := nextTerm |>
                       <| n_VotedFor := n_ID n |> <| n_elapsed := 0 |>) ;;
    bit ← bitOf (n_ID n);
    modify (fun n => n <| n_voteMask := bit |> <| n_preVoteMask := 0 |>) ;;
    n ← get;
    let last := lastIndex n in
    forM_ (n_Peers n) (fun p =>
      t ← termAtMust last;
      send (newMessage MsgRequestVote (n_ID n) p (n_Term n)
              <| m_LogIndex := last |> <| m_LogTerm := t |>)) ;;
    q ← quorumMask (n_voteMask n);
    if q : bool then becomeLeader else mret ()
  else mret ().

Definition startPreVote : MN () :=
  n ← get;
  modify (fun n => n <| n_elapsed := 0 |> <| n_preVoteTerm := w64 (n_Term n + 1) |>
                     <| n_Leader := 0 |>) ;;
  bit ← bitOf (n_ID n);
  modify (fun n => n <| n_preVoteMask := bit |>) ;;
  n ← get;
  let last := lastIndex n in
  forM_ (n_Peers n) (fun p =>
    t ← termAtMust last;
    send (newMessage MsgPreVote (n_ID n) p (n_preVoteTerm n)
            <| m_LogIndex := last |> <| m_LogTerm := t |>)) ;;
  q ← quorumMask (n_preVoteMask n);
  if q : bool then startElection else mret ().

Definition Tick : MN () :=
  n ← get;
  if n_Faulted n then mret () else
  modify (fun n => n <| n_elapsed := w64 (n_elapsed n + 1) |>) ;;
  n ← get;
  if decide (n_State n = Leader) then
    if 3 <=? n_elapsed n then
      modify (fun n => n <| n_elapsed := 0 |>) ;; broadcastAppend
    else mret ()
  else if n_timeout n <=? n_elapsed n then startPreVote
  else mret ().

(** The log-freshness test of [onPreVote] and [onVote]. *)
Definition logUpToDate (m : Message) (last lastTerm : Z) : bool :=
  (lastTerm <? m_LogTerm m) || ((m_LogTerm m =? lastTerm) && (last <=? m_LogIndex m)).

Definition onPreVote (m : Message) : MN () :=
  n ← get;
  let last := lastIndex n in
  lastTerm ← termAtMust last;
  let upToDate := logUpToDate m last lastTerm in
  let leaderActive := negb (n_Leader n =? 0) && (n_elapsed n <? n_timeout n) in
  v ← isVoter (m_From m);
  let grant := v && (w64 (n_Term n + 1) <=? m_Term m) && upToDate && negb leaderActive in
  send (newMessage MsgPreVoteResponse (n_ID n) (m_From m) (m_Term m) <| m_Reject := negb grant |>).

Definition onVote (m : Message) : MN () :=
  n ← get;
  let last := lastIndex n in
  lastTerm ← termAtMust last;
  let upToDate := logUpToDate m last lastTerm in
  v ← isVoter (m_From m);
  let grant := v && (m_Term m =? n_Term n) &&
    ((n_VotedFor n =? 0) || (n_VotedFor n =? m_From m)) && upToDate in
  ok ← (if grant then
          ok ← persistHardState (mkHardState (n_Term n) (m_From m) (n_Commit n));
          if ok : bool then
            modify (fun n => n <| n_VotedFor := m_From m |> <| n_elapsed := 0 |>) ;; mret true
          else mret false
        else mret true);
  if ok : bool then
    send (newMessage MsgRequestVoteResponse (n_ID n) (m_From m) (n_Term n)
            <| m_Reject := negb grant |>)
  else mret ().

(** ** Log replication, follower side *)

Definition validNewEntry (n : Node) (entry : Entry) : bool :=
  if e_Kind entry =? EntryNormal then
    (e_OldVoters entry =? 0) && (e_NewVoters entry =? 0) &&
    ((e_Operation entry =? CommandLegacy) ||
     (((e_Operation entry =? CommandPut) || (e_Operation entry =? CommandDelete)) &&
      negb (e_ClientID entry =? 0) && negb (e_RequestID entry =? 0)))
  else if e_Kind entry =? EntryNoop then
    (e_Command entry =? 0) && (e_OldVoters entry =? 0) && (e_NewVoters entry =? 0) &&
    (e_Operation entry =? CommandLegacy)
  else if e_Kind entry =? EntryJointConfig then
    (n_pendingConfig n =? 0) && (n_votersNew n =? 0) &&
    (e_OldVoters entry =? n_votersOld n) && negb (e_OldVoters entry =? 0) &&
    negb (e_NewVoters entry =? 0)
  else if e_Kind entry =? EntryFinalConfig then
    (n_pendingConfig n =? 0) && negb (n_votersNew n =? 0) &&
    (e_OldVoters entry =? n_votersNew n) && (e_NewVoters entry =? 0)
  else false.

(** The rejection test at the head of [onAppend]. *)
Definition appendRejected (n : Node) (m : Message) : bool :=
  let reject := (m_Term m <? n_Term n) ||
    match termAt n (m_LogIndex m) with
    | None => true
    | Some prevTerm => negb (prevTerm =? m_LogTerm m)
    end in
  if negb reject && m_HasEntry m &&
     (w64 (m_LogIndex m + 1) =? w64 (lastIndex n + 1)) && negb (validNewEntry n (m_Entry m))
  then true else reject.

(** The entry branch of an accepted append; [false] is its early [return]. *)
Definition appendEntry (m : Message) : MN bool :=
  n ← get;
  let at_ := w64 (m_LogIndex m + 1) in
  (match offset n at_ with
   | Some off =>
       if negb (e_Term (logAt n off) =? e_Term (m_Entry m)) then
         modify (fun n => n <| n_Log := take (Z.to_nat off) (n_Log n) |>) ;;
         rebuildPendingConfig
       else mret ()
   | None => mret ()
   end) ;;
  n ← get;
  if at_ =? w64 (lastIndex n + 1) then
    err ← storeOp (Append at_ (m_Entry m));
    match err with
    | Some err => failStorageWith err ;; mret false
    | None =>
        modify (fun n => n <| n_Log := n_Log n ++ [m_Entry m] |>) ;;
        (if (e_Kind (m_Entry m) =? EntryJointConfig) || (e_Kind (m_Entry m) =? EntryFinalConfig)
         then modify (fun n => n <| n_pendingConfig := at_ |>) ;;
              ensurePeers (Z.lor (e_OldVoters (m_Entry m)) (e_NewVoters (m_Entry m)))
         else mret ()) ;;
        mret true
    end
  else mret true.

(** The commit branch of an accepted append; [false] is its early [return]. *)
Definition appendCommit (m : Message) : MN bool :=
  n ← get;
  if (n_Commit n <? m_Commit m) &&
     ((n_Commit n <? m_LogIndex m) ||
      (m_HasEntry m && (n_Commit n <? w64 (m_LogIndex m + 1)))) then
    let previous := n_Commit n in
    let matched := if m_HasEntry m then w64 (m_LogIndex m + 1) else m_LogIndex m in
    let commit := Z.min (m_Commit m) matched in
    ok ← persistHardState (mkHardState (n_Term n) (n_VotedFor n) commit);
    if ok : bool then
      modify (fun n => n <| n_Commit := commit |>) ;;
      applyCommittedConfigurations (w64 (previous + 1)) commit ;;
      mret true
    else mret false
  else mret true.

Definition onAppend (m : Message) : MN () :=
  n ← get;
  let reject := appendRejected n m in
  ok ← (if reject then mret true
        else
          modify (fun n => n <| n_State := Follower |> <| n_Leader := m_From m |>
                             <| n_elapsed := 0 |>) ;;
          ok ← (if m_HasEntry m then appendEntry m else mret true);
          if ok : bool then appendCommit m else mret false);
  if ok : bool then
    n ← get;
    let matched :=
      if reject then lastIndex n
      else if m_HasEntry m then w64 (m_LogIndex m + 1) else m_LogIndex m in
    send (newMessage MsgAppendResponse (n_ID n) (m_From m) (n_Term n)
            <| m_Reject := reject |> <| m_Match := matched |> <| m_Context := m_Context m |>)
  else mret ().

(** ** Log replication, leader side *)

(** The acknowledgement mask of one candidate commit index. *)
Definition ackedMask (idx : Z) : MN Z :=
  n ← get;
  self ← bitOf (n_ID n);
  foldM (fun acked p =>
      if idx <=? mapGet (n_match n) p then bit ← bitOf p; mret (Z.lor acked bit)
      else mret acked)
    self (n_Peers n).

(** The descending commit loop of [onAppendResponse]; [true] is its early [return]. *)
Fixpoint commitLoop (indexes : list Z) : MN bool :=
  match indexes with
  | [] => mret false
  | idx :: indexes =>
      n ← get;
      t ← termAtMust idx;
      if negb (t =? n_Term n) then commitLoop indexes else
      acked ← ackedMask idx;
      c ← canCommitIndex idx acked;
      if c : bool then
        ok ← persistHardState (mkHardState (n_Term n) (n_VotedFor n) idx);
        if ok : bool then
          modify (fun n => n <| n_Commit := idx |>) ;;
          applyCommittedConfigurations (w64 (n_Commit n + 1)) idx ;;
          n ← get;
          (if decide (n_State n = Leader) then broadcastAppend else mret ()) ;;
          mret false
        else mret true
      else commitLoop indexes
  end.

Definition onAppendResponse (m : Message) : MN () :=
  n ← get;
  (if bool_decide (n_State n = Leader) && (m_Term m =? n_Term n) && negb (m_Reject m) &&
      negb (m_Context m =? 0) && (m_Context m =? n_readContext n) then
     v ← isVoter (m_From m);
     if v : bool then
       bit ← bitOf (m_From m);
       modify (fun n => n <| n_readAckMask := Z.lor (n_readAckMask n) bit |>) ;;
       n ← get;
       q ← quorumMask (n_readAckMask n);
       if q : bool then
         modify (fun n => n <| n_readIndex := n_Commit n |> <| n_readReady := true |>)
       else mret ()
     else mret ()
   else mret ()) ;;
  n ← get;
  if negb (bool_decide (n_State n = Leader)) || negb (m_Term m =? n_Term n) ||
     (w64 (lastIndex n + 1) <=? m_Match m) then mret ()
  else if m_Reject m then
    (if 1 <? mapGet (n_next n) (m_From m) then
       modify (fun n => n <| n_next := <[m_From m := mapGet (n_next n) (m_From m) - 1]> (n_next n) |>)
     else mret ()) ;;
    appendTo (m_From m)
  else
    modify (fun n => n <| n_match := <[m_From m := m_Match m]> (n_match n) |>
                       <| n_next := <[m_From m := w64 (m_Match m + 1)]> (n_next n) |>) ;;
    n ← get;
    returned ← commitLoop (reverse (seqZ (n_Commit n + 1) (lastIndex n - n_Commit n)));
    n ← get;
    if returned || negb (bool_decide (n_State n = Leader)) then mret ()
    else if mapGet (n_next n) (m_From m) <? w64 (lastIndex n + 1) then appendTo (m_From m)
    else mret ().

(** ** Snapshots *)

Definition Compact (index : Z) (state : list Z) : MN bool :=
  n ← get;
  if (index <=? n_BaseIndex n) || (n_Applied n <? index) then mret false else
  match termAt n index, offset n index with
  | Some term, Some off =>
      match AsSnapshotStore with
      | None => failStorage ;; mret false
      | Some ops =>
          let snapshot := mkSnapshot index term state (n_votersOld n) (n_votersNew n) in
          err ← storeOp (SaveSnapshot ops snapshot);
          match err with
          | Some err => failStorageWith err ;; mret false
          | None =>
              err ← storeOp (CompactLog ops index);
              match err with
              | Some err => failStorageWith err ;; mret false
              | None =>
                  modify (fun n => n <| n_Log := drop (Z.to_nat off) (n_Log n) |>
                    <| n_BaseIndex := index |> <| n_BaseTerm := term |>
                    <| n_snapshot := snapshot |>) ;;
                  mret true
              end
          end
      end
  | _, _ => mret false
  end.

(** The installing branch of [onInstallSnapshot]; [false] is its early [return]. *)
Definition installSnapshot (m : Message) : MN bool :=
  match AsSnapshotStore with
  | None => failStorage ;; mret false
  | Some ops =>
      let snapshot := mkSnapshot (m_SnapshotIndex m) (m_SnapshotTerm m) (m_Snapshot m)
                        (m_SnapshotOld m) (m_SnapshotNew m) in
      err ← storeOp (SaveSnapshot ops snapshot);
      match err with
      | Some err => failStorageWith err ;; mret false
      | None =>
          err ← storeOp (CompactLog ops (s_LastIndex snapshot));
          match err with
          | Some err => failStorageWith err ;; mret false
          | None =>
              n ← get;
              let log :=
                match offset n (s_LastIndex snapshot) with
                | Some off =>
                    if e_Term (logAt n off) =? s_LastTerm snapshot
                    then drop (Z.to_nat off) (n_Log n)
                    else [zeroEntry <| e_Term := s_LastTerm snapshot |>]
                | None => [zeroEntry <| e_Term := s_LastTerm snapshot |>]
                end in
              modify (fun n => n <| n_Log := log |>
                <| n_BaseIndex := s_LastIndex snapshot |> <| n_BaseTerm := s_LastTerm snapshot |>
                <| n_snapshot := snapshot |>
                <| n_votersOld := s_OldVoters snapshot |> <| n_votersNew := s_NewVoters snapshot |>
                <| n_Commit := Z.max (n_Commit n) (s_LastIndex snapshot) |>
                <| n_Applied := Z.max (n_Applied n) (s_LastIndex snapshot) |>) ;;
              mret true
          end
      end
  end.

Definition onInstallSnapshot (m : Message) : MN () :=
  n ← get;
  let reject := (m_Term m <? n_Term n) || (m_SnapshotIndex m <? n_BaseIndex n) ||
    (m_SnapshotOld m =? 0) ||
    ((m_SnapshotIndex m =? n_BaseIndex n) && negb (m_SnapshotTerm m =? n_BaseTerm n)) in
  ok ← (if negb reject && (n_BaseIndex n <? m_SnapshotIndex m) then installSnapshot m
        else mret true);
  if ok : bool then
    (if reject then mret ()
     else modify (fun n => n <| n_State := Follower |> <| n_Leader := m_From m |>
                             <| n_elapsed := 0 |>)) ;;
    n ← get;
    send (newMessage MsgInstallSnapshotResponse (n_ID n) (m_From m) (n_Term n)
            <| m_Reject := reject |> <| m_Match := n_BaseIndex n |>)
  else mret ().

Definition onInstallSnapshotResponse (m : Message) : MN () :=
  n ← get;
  if negb (bool_decide (n_State n = Leader)) || negb (m_Term m =? n_Term n) || m_Reject m
  then mret () else
  v ← isVoter (m_From m);
  if v : bool then
    (if mapGet (n_match n) (m_From m) <? m_Match m then
       modify (fun n => n <| n_match := <[m_From m := m_Match m]> (n_match n) |>
                          <| n_next := <[m_From m := w64 (m_Match m + 1)]> (n_next n) |>)
     else mret ()) ;;
    n ← get;
    if mapGet (n_next n) (m_From m) <=? lastIndex n then appendTo (m_From m) else mret ()
  else mret ().

(** ** Reads and leadership transfer *)

Definition StartReadIndex (context : Z) : MN bool :=
  n ← get;
  if negb (bool_decide (n_State n = Leader)) || n_Faulted n || (context =? 0) ||
     (n_Commit n =? 0) then mret false else
  t ← termAtMust (n_Commit n);
  bit ← bitOf (n_ID n);
  allowed ← (if t =? n_Term n then mret true else quorumMask bit);
  if allowed : bool then
    modify (fun n => n <| n_readContext := context |> <| n_readAckMask := bit |>) ;;
    q ← quorumMask bit;
    modify (fun n => n <| n_readReady := q |>) ;;
    (if q : bool then modify (fun n => n <| n_readIndex := n_Commit n |>) else mret ()) ;;
    n ← get;
    forM_ (n_Peers n) (fun p => appendToContext p context) ;;
    mret true
  else mret false.

Definition ReadIndex (n : Node) (context : Z) : option Z :=
  if negb (bool_decide (n_State n = Leader)) || negb (context =? n_readContext n) ||
     negb (n_readReady n) then None
  else Some (n_readIndex n).

Definition TransferLeadership (target : Z) : MN bool :=
  n ← get;
  if negb (bool_decide (n_State n = Leader)) || (target =? n_ID n) then mret false else
  v ← isVoter target;
  if v : bool then
    if mapGet (n_match n) target <? lastIndex n then appendTo target ;; mret false
    else send (newMessage MsgTimeoutNow (n_ID n) target (n_Term n)) ;; mret true
  else mret false.

(** ** Proposals *)

Definition liftMask (r : option (Z * bool)) : MN (Z * bool) :=
  match r with Some r => mret r | None => panic PanicNodeID end.

Definition ProposeJoint (newVoters : list Z) : MN bool :=
  '(newMask, ok) ← liftMask (voterMask newVoters);
  n ← get;
  if negb ok || negb (bool_decide (n_State n = Leader)) || n_Faulted n ||
     negb (n_votersNew n =? 0) || negb (n_pendingConfig n =? 0) then mret false else
  ensurePeers newMask ;;
  ok ← appendLocal (zeroEntry <| e_Term := n_Term n |> <| e_Kind := EntryJointConfig |>
                      <| e_OldVoters := n_votersOld n |> <| e_NewVoters := newMask |>);
  if ok : bool then
    modify (fun n => n <| n_pendingConfig := lastIndex n |>) ;;
    broadcastAppend ;; mret true
  else mret false.

Definition ProposeFinal : MN bool :=
  n ← get;
  if negb (bool_decide (n_State n = Leader)) || n_Faulted n || (n_votersNew n =? 0) ||
     negb (n_pendingConfig n =? 0) then mret false else
  ok ← appendLocal (zeroEntry <| e_Term := n_Term n |> <| e_Kind := EntryFinalConfig |>
                      <| e_OldVoters := n_votersNew n |>);
  if ok : bool then
    modify (fun n => n <| n_pendingConfig := lastIndex n |>) ;;
    broadcastAppend ;; mret true
  else mret false.

Definition Propose (command : Z) : MN bool :=
  n ← get;
  if negb (bool_decide (n_State n = Leader)) || n_Faulted n then mret false else
  ok ← appendLocal (zeroEntry <| e_Term := n_Term n |> <| e_Command := command |>);
  if ok : bool then broadcastAppend ;; mret true else mret false.

Definition ProposeRequest (operation clientID requestID key value : Z) : MN bool :=
  n ← get;
  if negb (bool_decide (n_State n = Leader)) || n_Faulted n || (clientID =? 0) ||
     (requestID =? 0) || (negb (operation =? CommandPut) && negb (operation =? CommandDelete))
  then mret false else
  ok ← appendLocal (zeroEntry <| e_Term := n_Term n |> <| e_Operation := operation |>
                      <| e_ClientID := clientID |> <| e_RequestID := requestID |>
                      <| e_Key := key |> <| e_Value := value |>);
  if ok : bool then broadcastAppend ;; mret true else mret false.

(** ** Dispatch *)

(** The term check every non-pre-vote message goes through; [false] is the early
    [return] after a failed persist. *)
Definition stepTerm (m : Message) : MN bool :=
  n ← get;
  let isPreVote := (m_Type m =? MsgPreVote) || (m_Type m =? MsgPreVoteResponse) in
  if negb isPreVote && (n_Term n <? m_Term m) then
    ok ← persistHardState (mkHardState (m_Term m) 0 (n_Commit n));
    if ok : bool then
      modify (fun n => n <| n_State := Follower |> <| n_Term := m_Term m |>
                         <| n_VotedFor := 0 |> <| n_Leader := 0 |> <| n_readReady := false |>) ;;
      mret true
    else mret false
  else mret true.

Definition onPreVoteResponse (m : Message) : MN () :=
  n ← get;
  if bool_decide (n_State n = Leader) then mret () else
  v ← isVoter (m_From m);
  if v && (m_Term m =? w64 (n_Term n + 1)) && (m_Term m =? n_preVoteTerm n) && negb (m_Reject m) then
    bit ← bitOf (m_From m);
    modify (fun n => n <| n_preVoteMask := Z.lor (n_preVoteMask n) bit |>) ;;
    n ← get;
    q ← quorumMask (n_preVoteMask n);
    if q : bool then startElection else mret ()
  else mret ().

Definition onVoteResponse (m : Message) : MN () :=
  n ← get;
  if negb (bool_decide (n_State n = Candidate)) then mret () else
  v ← isVoter (m_From m);
  if v && (m_Term m =? n_Term n) && negb (m_Reject m) then
    bit ← bitOf (m_From m);
    modify (fun n => n <| n_voteMask := Z.lor (n_voteMask n) bit |>) ;;
    n ← get;
    q ← quorumMask (n_voteMask n);
    if q : bool then becomeLeader else mret ()
  else mret ().

Definition onTimeoutNow (m : Message) : MN () :=
  n ← get;
  if bool_decide (n_State n = Follower) && (m_Term m =? n_Term n) && (m_From m =? n_Leader n)
  then startElection else mret ().

Definition dispatch (m : Message) : MN () :=
  if m_Type m =? MsgPreVote then onPreVote m
  else if m_Type m =? MsgPreVoteResponse then onPreVoteResponse m
  else if m_Type m =? MsgRequestVote then onVote m
  else if m_Type m =? MsgRequestVoteResponse then onVoteResponse m
  else if m_Type m =? MsgAppend then onAppend m
  else if m_Type m =? MsgAppendResponse then onAppendResponse m
  else if m_Type m =? MsgInstallSnapshot then onInstallSnapshot m
  else if m_Type m =? MsgInstallSnapshotResponse then onInstallSnapshotResponse m
  else if m_Type m =? MsgTimeoutNow then onTimeoutNow m
  else mret ().

Definition Step (m : Message) : MN () :=
  n ← get;
  if n_Faulted n then mret () else
  ok ← stepTerm m;
  if ok : bool then dispatch m else mret ().

(** ** Applying committed entries *)

(** The loop of [ApplyEntries] runs [n.Commit - n.Applied] times. *)
Definition ApplyEntries (dst : list Entry) : MN (list Entry) :=
  n ← get;
  foldM (fun dst _ =>
      modify (fun n => n <| n_Applied := w64 (n_Applied n + 1) |>) ;;
      n ← get;
      entry ← entryAt (n_Applied n);
      mret (if e_Kind entry =? EntryNormal then dst ++ [entry] else dst))
    dst (seqZ 0 (n_Commit n - n_Applied n)).

Definition Apply : MN (list Z) :=
  entries ← ApplyEntries [];
  mret (map e_Command entries).

(** ** raft/recover.go *)

Definition onNew {A} (r : Panic + Node) (k : MN A) : outcome Node Panic A :=
  match r with inl p => Panicked p | inr n => k n end.

(** The tail both recovery functions share: check the commit index against the
    log, then rebuild the configuration state. *)
Definition recoverTail : MN () :=
  n ← get;
  if lastIndex n <? n_Commit n then failStorage else
  ok ← restoreConfigurationState;
  if ok : bool then mret () else failStorage.

Definition NewRecoveredNode (id : Z) (peers : list Z) (electionTimeout : Z) (store : S)
  (hard : HardState) (log : list Entry) : outcome Node Panic () :=
  onNew (NewNodeWithStore id peers electionTimeout store)
    (modify (fun n => n <| n_Term := h_Term hard |> <| n_VotedFor := h_VotedFor hard |>
                        <| n_Commit := h_Commit hard |>
                        <| n_Log := if decide (log = []) then n_Log n else log |>) ;;
     recoverTail).

Definition NewRecoveredNodeWithSnapshot (id : Z) (peers : list Z) (electionTimeout : Z)
  (store : S) (hard : HardState) (snapshot : Snapshot) (suffix : list Entry)
  : outcome Node Panic () :=
  onNew (NewNodeWithStore id peers electionTimeout store)
    (modify (fun n => n <| n_Term := h_Term hard |> <| n_VotedFor := h_VotedFor hard |>
       <| n_BaseIndex := s_LastIndex snapshot |> <| n_BaseTerm := s_LastTerm snapshot |>
       <| n_snapshot := snapshot |>
       <| n_votersOld := s_OldVoters snapshot |> <| n_votersNew := s_NewVoters snapshot |>) ;;
     if s_OldVoters snapshot =? 0 then failStorage else
     ensurePeers (Z.lor (s_OldVoters snapshot) (s_NewVoters snapshot)) ;;
     modify (fun n => n
       <| n_Log := (zeroEntry <| e_Term := s_LastTerm snapshot |>) :: suffix |>
       <| n_Commit := Z.max (h_Commit hard) (s_LastIndex snapshot) |>
       <| n_Applied := s_LastIndex snapshot |>) ;;
     recoverTail).

End node.

Arguments Node : clear implicits.
Abbreviation MN S := (M (Node S) Panic).
