(* ===== verification/RaftInv.v ===== *)
(** * Node invariant and operation specifications

    The well-formedness invariant of a Raft node, and for every operation of
    [RaftNode] a specification in total-correctness style: from a well-formed
    node the operation returns (it does not panic) and the result differs from
    the initial node exactly as stated. *)

From S2P Require Import Prelude RaftTypes Quorum RaftNode.

Section inv_defs.
Context {S : Type} `{!StableStore S}.
Implicit Types n : Node S.

(** ** Invariant *)

(** The log slice is never empty (its first element is the compacted base) and
    the index after the last one is still a [uint64]. *)
Definition wf_log n : Prop :=
  n_Log n <> [] /\ 0 <= n_BaseIndex n /\ n_BaseIndex n + len (n_Log n) <= maxu64.

(** The order [checkIndexSanity] and [CheckSafety] require of the indexes. *)
Definition wf_index n : Prop :=
  n_BaseIndex n <= n_Applied n /\ n_Applied n <= n_Commit n /\
  n_Commit n <= n_BaseIndex n + len (n_Log n) - 1.

Definition valid_id (id : Z) : Prop := 1 <= id <= 64.

Definition wf_peers n : Prop :=
  valid_id (n_ID n) /\ Forall valid_id (n_Peers n) /\ NoDup (n_ID n :: n_Peers n).

(** Voter masks hold [uint64] values, in the node and in its log. *)
Definition wf_voters n : Prop :=
  0 <= n_votersOld n /\ 0 <= n_votersNew n /\
  Forall (fun e => 0 <= e_OldVoters e /\ 0 <= e_NewVoters e) (n_Log n).

Definition wf n : Prop := wf_log n /\ wf_index n /\ wf_peers n /\ wf_voters n.

(** The index after the last one. *)
Definition top n : Z := n_BaseIndex n + len (n_Log n).

(** [k] more messages fit into the outbound buffer. *)
Definition room n (k : Z) : Prop := len (n_outbound n) + k <= outboundCapacity.

(** *** Shapes of node updates *)

(** A node that only sent messages and moved replication cursors. *)
Definition repUpd n (nx : gmap Z Z) (out : list Message) : Node S :=
  n <| n_next := nx |> <| n_outbound := out |>.

Definition peerUpd n (ps : list Z) (nx mt : gmap Z Z) : Node S :=
  n <| n_Peers := ps |> <| n_next := nx |> <| n_match := mt |>.


(** A node whose configuration, peers and role may have changed, but not its
    log, its indexes, its term or its vote. *)
Definition cfgUpd n (ps : list Z) (nx mt : gmap Z Z) (st : State) (ld : Z) (rr : bool)
  (vo vn pc : Z) : Node S :=
  n <| n_Peers := ps |> <| n_next := nx |> <| n_match := mt |> <| n_State := st |>
    <| n_Leader := ld |> <| n_readReady := rr |> <| n_votersOld := vo |>
    <| n_votersNew := vn |> <| n_pendingConfig := pc |>.

(** A node stopped by a storage failure. *)
Definition faultUpd n (s : S) (e : option error) : Node S :=
  n <| n_store := s |> <| n_storageErr := e |> <| n_Faulted := true |>
    <| n_State := Follower |> <| n_Leader := 0 |> <| n_outbound := [] |>.

End inv_defs.

(** Compute the projections of updated nodes. *)
Ltac nsimp :=
  cbn [upd repUpd peerUpd cfgUpd faultUpd
       n_ID n_Peers n_State n_Term n_VotedFor n_Leader
       n_Log n_BaseIndex n_BaseTerm n_Commit n_Applied n_timeout
       n_elapsed n_voteMask n_preVoteMask n_preVoteTerm n_next n_match
       n_outbound n_store n_Faulted n_storageErr n_readContext n_readAckMask
       n_readIndex n_readReady n_snapshot n_votersOld n_votersNew n_pendingConfig].

Ltac nsimp_all :=
  cbn [upd repUpd peerUpd cfgUpd faultUpd
       n_ID n_Peers n_State n_Term n_VotedFor n_Leader
       n_Log n_BaseIndex n_BaseTerm n_Commit n_Applied n_timeout
       n_elapsed n_voteMask n_preVoteMask n_preVoteTerm n_next n_match
       n_outbound n_store n_Faulted n_storageErr n_readContext n_readAckMask
       n_readIndex n_readReady n_snapshot n_votersOld n_votersNew n_pendingConfig] in *.

(** Two updates of the same node agree. *)
Ltac nrefl :=
  lazy [upd repUpd peerUpd cfgUpd faultUpd
       n_ID n_Peers n_State n_Term n_VotedFor n_Leader
       n_Log n_BaseIndex n_BaseTerm n_Commit n_Applied n_timeout
       n_elapsed n_voteMask n_preVoteMask n_preVoteTerm n_next n_match
       n_outbound n_store n_Faulted n_storageErr n_readContext n_readAckMask
       n_readIndex n_readReady n_snapshot n_votersOld n_votersNew n_pendingConfig];
  reflexivity.

(** Index arithmetic of the invariant. *)
Ltac idx :=
  unfold top, wf_index, valid_id, room, outboundCapacity, is_u64, maxu64, len in *;
  nsimp_all; rewrite ?length_app in *; cbn [length] in *; lia.

Section inv.
Context {S : Type} `{!StableStore S}.
Implicit Types n : Node S.

(** ** Log access *)

Lemma lastIndex_wf n : wf_log n -> lastIndex n = n_BaseIndex n + len (n_Log n) - 1.
Proof.
  intros (Hne & Hb & Hm). unfold lastIndex. apply w64_small.
  unfold is_u64, maxu64, len in *. destruct (n_Log n); [done|]. cbn in *. lia.
Qed.

Lemma nextIndex_wf n : wf_log n -> w64 (lastIndex n + 1) = n_BaseIndex n + len (n_Log n).
Proof.
  intros Hw. rewrite lastIndex_wf by done. destruct Hw as (Hne & Hb & Hm).
  replace (_ + 1) with (n_BaseIndex n + len (n_Log n)) by lia. apply w64_small.
  unfold is_u64, maxu64, len in *. lia.
Qed.

Lemma len_Log_pos n : wf_log n -> 1 <= len (n_Log n).
Proof. intros (Hne & _). unfold len. destruct (n_Log n); [done|]. cbn. lia. Qed.

Lemma offset_wf n i :
  wf_log n ->
  offset n i =
    if decide (n_BaseIndex n <= i <= n_BaseIndex n + len (n_Log n) - 1)
    then Some (i - n_BaseIndex n) else None.
Proof.
  intros Hw. pose proof (len_Log_pos n Hw). unfold offset. rewrite lastIndex_wf by done.
  destruct Hw as (Hne & Hb & Hm).
  destruct (Z.ltb_spec i (n_BaseIndex n)), (Z.ltb_spec (n_BaseIndex n + len (n_Log n) - 1) i);
    cbn; case_decide; try lia; try done.
  f_equal. apply w64_small. unfold is_u64, maxu64 in *. lia.
Qed.

(** The slice access behind a successful [offset] is in range. *)
Lemma offset_in_range n i off :
  wf_log n -> offset n i = Some off -> is_Some (n_Log n !! Z.to_nat off).
Proof.
  intros Hw. rewrite offset_wf by done. case_decide as Hr; [|done]. intros [= <-].
  apply lookup_lt_is_Some. unfold len in *. lia.
Qed.

Lemma entryAt_wf n i :
  wf_log n -> n_BaseIndex n <= i <= n_BaseIndex n + len (n_Log n) - 1 ->
  entryAt i n = Done (logAt n (i - n_BaseIndex n)) n.
Proof.
  intros Hw Hr. unfold entryAt, mbind, M_bind, get.
  rewrite offset_wf by done. by rewrite decide_True by done.
Qed.

Lemma termAt_wf n i :
  wf_log n -> n_BaseIndex n <= i <= n_BaseIndex n + len (n_Log n) - 1 ->
  termAt n i = Some (e_Term (logAt n (i - n_BaseIndex n))).
Proof. intros Hw Hr. unfold termAt. rewrite offset_wf by done. by rewrite decide_True. Qed.

Lemma termAtMust_wf n i :
  wf_log n -> n_BaseIndex n <= i <= n_BaseIndex n + len (n_Log n) - 1 ->
  termAtMust i n = Done (e_Term (logAt n (i - n_BaseIndex n))) n.
Proof.
  intros Hw Hr. unfold termAtMust, mbind, M_bind, get. by rewrite termAt_wf.
Qed.

Lemma bitOf_wf id n : valid_id id -> bitOf id n = Done (Z.shiftl 1 (id - 1)) n.
Proof. intros Hid. unfold bitOf. by rewrite nodeBit_ok. Qed.

(** The log entries at indexes [first .. first + cnt - 1]. *)
Definition entries n (first cnt : Z) : list Entry :=
  take (Z.to_nat cnt) (drop (Z.to_nat (first - n_BaseIndex n)) (n_Log n)).

Lemma logAt_lookup n i :
  n_BaseIndex n <= i -> i - n_BaseIndex n < len (n_Log n) ->
  n_Log n !! Z.to_nat (i - n_BaseIndex n) = Some (logAt n (i - n_BaseIndex n)).
Proof.
  intros H1 H2. unfold logAt. destruct (n_Log n !! _) eqn:E; [done|].
  apply lookup_ge_None in E. unfold len in *. lia.
Qed.

Lemma entries_cons n first cnt :
  n_BaseIndex n <= first -> 0 < cnt -> first - n_BaseIndex n < len (n_Log n) ->
  entries n first cnt = logAt n (first - n_BaseIndex n) :: entries n (first + 1) (cnt - 1).
Proof.
  intros H1 H2 H3. unfold entries.
  rewrite (drop_S (n_Log n) _ _ (logAt_lookup n first H1 H3)).
  replace (Z.to_nat cnt) with (Datatypes.S (Z.to_nat (cnt - 1))) by lia. cbn [take].
  f_equal. f_equal. f_equal. lia.
Qed.

(** A read-only loop over an index range is a fold over the entries. *)
Lemma foldM_entries {B} (f : B -> Entry -> B) (b : B) n first cnt :
  wf_log n -> n_BaseIndex n <= first -> first + cnt <= n_BaseIndex n + len (n_Log n) ->
  foldM (fun b i => e ← entryAt i; mret (f b e)) b (seqZ first cnt) n =
  Done (foldl f b (entries n first cnt)) n.
Proof.
  intros Hw. remember (Z.to_nat cnt) as k eqn:Hk. revert first cnt b Hk.
  induction k as [|k IH]; intros first cnt b Hk H1 H2.
  - rewrite seqZ_nil by lia. unfold entries. rewrite <- Hk. done.
  - rewrite seqZ_cons by lia. cbn [foldM]. unfold mbind, M_bind at 1.
    rewrite (entries_cons n first cnt) by (unfold len in *; lia). cbn [foldl].
    unfold M_bind at 1. rewrite entryAt_wf by (done || (unfold len in *; lia)).
    unfold mret, M_ret. rewrite <- IH by lia.
    by replace (Z.succ first) with (first + 1) by lia; replace (Z.pred cnt) with (cnt - 1) by lia.
Qed.

(** ** Reading the configuration *)

(** How one log entry changes the pair of voter sets in force. *)
Definition jointOver (voters : Z * Z) (e : Entry) : Z * Z :=
  if e_Kind e =? EntryJointConfig then (e_OldVoters e, e_NewVoters e) else voters.

(** The voter sets in force: the committed ones overridden by the last joint
    entry after the commit index. *)
Definition effVoters n : Z * Z :=
  foldl jointOver (n_votersOld n, n_votersNew n)
    (drop (Z.to_nat (n_Commit n + 1 - n_BaseIndex n)) (n_Log n)).

Definition isVoterOf n (id : Z) : bool :=
  Z.testbit (Z.lor (effVoters n).1 (effVoters n).2) (id - 1).

Definition quorumOf n (mask : Z) : bool := quorum (effVoters n).1 (effVoters n).2 mask.

Lemma commit_u64 n : wf n -> is_u64 (n_Commit n + 1) /\ is_u64 (n_BaseIndex n + 1).
Proof.
  intros (Hl & Hi & _). pose proof (len_Log_pos n Hl). destruct Hl as (_ & ? & ?).
  unfold wf_index, is_u64, maxu64 in *. lia.
Qed.

Lemma foldM_ext {St E A B} (f g : B -> A -> M St E B) b l s :
  (forall b a, f b a = g b a) -> foldM f b l s = foldM g b l s.
Proof.
  intros Hfg. revert b s. induction l as [|a l IH]; intros b s; [done|].
  cbn. unfold mbind, M_bind. rewrite Hfg. by destruct (g b a s).
Qed.

Lemma entries_to_end n first :
  entries n first (n_BaseIndex n + len (n_Log n) - first) =
  drop (Z.to_nat (first - n_BaseIndex n)) (n_Log n).
Proof.
  unfold entries. apply take_ge. rewrite length_drop. unfold len.
  destruct (decide (n_BaseIndex n <= first)); lia.
Qed.

Lemma effectiveVoters_wf n : wf n -> effectiveVoters n = Done (effVoters n) n.
Proof.
  intros Hwf. destruct (commit_u64 n Hwf) as [Hc Hb]. destruct Hwf as (Hl & Hi & _).
  unfold effectiveVoters, mbind at 1, M_bind at 1, get.
  rewrite !w64_small by done. replace (Z.max _ _) with (n_Commit n + 1)
    by (unfold wf_index in *; lia).
  rewrite (foldM_ext _ (fun b i => e ← entryAt i; mret (jointOver b e))) by (by intros []).
  rewrite lastIndex_wf by done.
  replace (_ - 1 - _ + 1) with (n_BaseIndex n + len (n_Log n) - (n_Commit n + 1)) by lia.
  rewrite foldM_entries by (done || (unfold wf_index in *; lia)).
  by rewrite entries_to_end.
Qed.

Lemma quorumMask_wf n mask : wf n -> quorumMask mask n = Done (quorumOf n mask) n.
Proof.
  intros Hwf. unfold quorumMask, mbind, M_bind. rewrite effectiveVoters_wf by done.
  unfold quorumOf. by destruct (effVoters n).
Qed.

Lemma effVoters_nonneg n : wf_voters n -> 0 <= (effVoters n).1 /\ 0 <= (effVoters n).2.
Proof.
  intros (Ho & Hn & Hl). unfold effVoters.
  apply (Forall_drop _ (Z.to_nat (n_Commit n + 1 - n_BaseIndex n))) in Hl.
  assert (0 <= (n_votersOld n, n_votersNew n).1 /\ 0 <= (n_votersOld n, n_votersNew n).2) as Hp by done.
  revert Hp. generalize (n_votersOld n, n_votersNew n).
  induction Hl as [|e l He Hl IH]; intros p Hp; [done|].
  cbn [foldl]. apply IH. unfold jointOver. by destruct (_ =? _).
Qed.

Lemma isVoter_wf n id : wf n -> valid_id id -> isVoter id n = Done (isVoterOf n id) n.
Proof.
  intros Hwf Hid. unfold isVoter, mbind, M_bind. rewrite effectiveVoters_wf by done.
  destruct Hwf as (_ & _ & _ & Hv). destruct (effVoters_nonneg n Hv) as [Ho Hn].
  unfold isVoterOf. destruct (effVoters n) as [o w]. cbn in *. rewrite bitOf_wf by done.
  unfold mret, M_ret. f_equal.
  rewrite land_bit_zero; [apply negb_involutive| |unfold valid_id in *; lia].
  by apply Z.lor_nonneg.
Qed.

(** ** Sending and replication *)

Lemma send_wp m n (Q : () -> Node S -> Prop) :
  room n 1 -> Q () (n <| n_outbound := n_outbound n ++ [m] |>) -> wp (send m) Q n.
Proof.
  intros Hr HQ. unfold send. wp_pures.
  destruct (Z.eqb_spec (len (n_outbound n)) outboundCapacity); [unfold room in *; lia|].
  by wp_pures.
Qed.

(** The snapshot message for peer [p]. *)
Definition snapMsg n (p : Z) : Message :=
  newMessage MsgInstallSnapshot (n_ID n) p (n_Term n)
    <| m_SnapshotIndex := s_LastIndex (n_snapshot n) |>
    <| m_SnapshotTerm := s_LastTerm (n_snapshot n) |>
    <| m_Snapshot := s_State (n_snapshot n) |>
    <| m_SnapshotOld := s_OldVoters (n_snapshot n) |>
    <| m_SnapshotNew := s_NewVoters (n_snapshot n) |>.

(** The append message for peer [p] when [next] is the next index to send: it
    carries the term of the entry before [next] and, when there is one, the
    entry at [next]. *)
Definition appMsg n (p context next : Z) : Message :=
  let m := newMessage MsgAppend (n_ID n) p (n_Term n)
    <| m_LogIndex := next - 1 |>
    <| m_LogTerm := e_Term (logAt n (next - 1 - n_BaseIndex n)) |>
    <| m_Commit := n_Commit n |> <| m_Context := context |> in
  if next <? n_BaseIndex n + len (n_Log n)
  then m <| m_Entry := logAt n (next - n_BaseIndex n) |> <| m_HasEntry := true |>
  else m.

(** What a leader sends to replicate. *)
Definition replMsg n (p context : Z) (m : Message) : Prop :=
  m = snapMsg n p \/
  exists next, n_BaseIndex n < next <= n_BaseIndex n + len (n_Log n) /\ m = appMsg n p context next.

Lemma appendToContext_wp p ctx n :
  wf n -> room n 1 ->
  wp (appendToContext p ctx)
     (fun _ n' => exists nx m, n' = repUpd n nx (n_outbound n ++ [m]) /\ replMsg n p ctx m) n.
Proof.
  intros Hwf Hroom. pose proof Hwf as (Hl & _). pose proof (len_Log_pos n Hl) as Hpos.
  unfold appendToContext. wp_pures.
  destruct (Z.leb_spec (mapGet (n_next n) p) (n_BaseIndex n)) as [Hle|Hlt].
  { apply send_wp; [done|]. exists (n_next n), (snapMsg n p). split; [done|by left]. }
  rewrite nextIndex_wf by done.
  set (nx := mapGet (n_next n) p) in *. pose proof Hl as (_ & Hb & Hm).
  set (top := n_BaseIndex n + len (n_Log n)) in *.
  apply wp_bind. apply (wp_mono _ (fun next n' => exists nx',
    n' = n <| n_next := nx' |> /\ next = Z.min nx top)).
  { destruct (Z.ltb_spec top nx); wp_pures.
    - eexists. split; [done|]. lia.
    - exists (n_next n). split; [by clear; destruct n|lia]. }
  intros next n' (nx' & -> & ->). cbn beta.
  destruct (Z.eqb_spec (Z.min nx top) 0); [lia|].
  rewrite w64_small by (unfold is_u64, maxu64, top, len in *; lia).
  apply wp_bind. eapply wp_det.
  { apply termAtMust_wf; cbn; [done|]. unfold top in *. lia. }
  assert (replMsg n p ctx (appMsg n p ctx (Z.min nx top))) as Hrep.
  { right. exists (Z.min nx top). split; [lia|done]. }
  unfold appMsg in Hrep. fold top in Hrep.
  destruct (Z.ltb_spec (Z.min nx top) top).
  - apply wp_bind. eapply wp_det.
    { apply entryAt_wf; cbn; [done|]. unfold top in *. lia. }
    apply send_wp; [done|]. eexists _, _. split; [done|]. apply Hrep.
  - apply send_wp; [done|]. eexists _, _. split; [done|]. apply Hrep.
Qed.

Lemma wf_repUpd n nx out : wf (repUpd n nx out) <-> wf n.
Proof. done. Qed.

Lemma replMsg_repUpd n nx out p ctx m : replMsg (repUpd n nx out) p ctx m <-> replMsg n p ctx m.
Proof. done. Qed.

Lemma isVoterOf_repUpd n nx out id : isVoterOf (repUpd n nx out) id = isVoterOf n id.
Proof. done. Qed.

(** Sending the same context to a list of peers. *)
Lemma forM_append_wp (l : list Z) (f : Z -> MN S ()) (ctx : Z) n :
  wf n -> room n (len l) ->
  (forall p nx out, p ∈ l -> len out + 1 <= outboundCapacity ->
     wp (f p) (fun _ n' => exists nx' ms, n' = repUpd n nx' (out ++ ms) /\ len ms <= 1 /\
                 Forall (replMsg n p ctx) ms) (repUpd n nx out)) ->
  wp (forM_ l f)
     (fun _ n' => exists nx ms, n' = repUpd n nx (n_outbound n ++ ms) /\ len ms <= len l /\
        Forall (fun m => exists p, p ∈ l /\ replMsg n p ctx m) ms) n.
Proof.
  intros Hwf Hroom Hf.
  cut (forall nx out, len out + len l <= outboundCapacity ->
    wp (forM_ l f) (fun _ n' => exists nx' ms, n' = repUpd n nx' (out ++ ms) /\ len ms <= len l /\
        Forall (fun m => exists p, p ∈ l /\ replMsg n p ctx m) ms) (repUpd n nx out)).
  { intros H. specialize (H (n_next n) (n_outbound n) Hroom). by destruct n. }
  clear Hroom. induction l as [|p l IH]; intros nx out Hroom; cbn [forM_].
  - wp_pures. exists nx, []. rewrite app_nil_r. done.
  - apply wp_bind. unfold len in *. cbn [length] in Hroom.
    wp_call Hf; [set_solver|unfold len; lia|].
    intros _ n' (nx1 & ms1 & -> & Hlen1 & Hms1).
    wp_call IH; [|rewrite length_app; unfold len in *; lia|].
    { intros q nx' out' Hq. apply Hf. set_solver. }
    intros _ n' (nx2 & ms2 & -> & Hlen2 & Hms2).
    exists nx2, (ms1 ++ ms2). rewrite app_assoc. split; [done|]. split.
    + rewrite length_app. cbn [length]. unfold len in *. lia.
    + apply Forall_app. split.
      * eapply Forall_impl; [exact Hms1|]. intros m Hm. exists p. split; [set_solver|done].
      * eapply Forall_impl; [exact Hms2|]. intros m (q & Hq & Hm). exists q. split; [set_solver|done].
Qed.

Lemma broadcastAppend_wp n :
  wf n -> room n (len (n_Peers n)) ->
  wp broadcastAppend
     (fun _ n' => exists nx ms, n' = repUpd n nx (n_outbound n ++ ms) /\
        len ms <= len (n_Peers n) /\
        Forall (fun m => exists p, p ∈ n_Peers n /\ replMsg n p 0 m) ms) n.
Proof.
  intros Hwf Hroom. unfold broadcastAppend. wp_pures.
  apply forM_append_wp; [done..|]. intros p nx out Hp Hout.
  pose proof Hwf as (_ & _ & (_ & Hps & _) & _). rewrite Forall_forall in Hps.
  apply wp_bind. eapply wp_det; [apply isVoter_wf; [done|by apply Hps]|].
  destruct (isVoterOf _ p).
  - wp_call appendToContext_wp; [done|done|].
    intros _ n' (nx' & m & -> & Hm). exists nx', [m]. split; [done|]. split; [done|].
    by constructor.
  - wp_pures. exists nx, []. rewrite app_nil_r. done.
Qed.

(** ** Peers and configurations *)

Lemma existsb_Zeqb id l : existsb (Z.eqb id) l = bool_decide (id ∈ l).
Proof.
  induction l as [|x l IH]; [done|]. cbn. rewrite IH.
  destruct (Z.eqb_spec id x) as [->|Hne]; cbn; repeat case_bool_decide; set_solver.
Qed.

Lemma wf_peers_snoc n ps nx mt id :
  wf_peers (peerUpd n ps nx mt) -> valid_id id -> id <> n_ID n -> id ∉ ps ->
  wf_peers (peerUpd n (ps ++ [id]) nx mt).
Proof.
  intros (Hid & Hps & Hnd) Hv Hne Hnin. unfold wf_peers in *. cbn in *. split; [done|]. split.
  - apply Forall_app. split; [done|]. by apply Forall_singleton.
  - rewrite app_comm_cons. apply NoDup_app. split; [done|]. split; [|apply NoDup_singleton].
    intros x Hx ->%list_elem_of_singleton. set_solver.
Qed.

(** [ensurePeers] only adds peers, keeps them valid and distinct, and afterwards
    every node of the mask other than the node itself is a peer. *)
Lemma ensurePeers_wp mask n :
  0 <= mask -> wf_peers n ->
  wp (ensurePeers mask)
     (fun _ n' => exists ps nx mt, n' = peerUpd n (n_Peers n ++ ps) nx mt /\ wf_peers n' /\
        (forall id, valid_id id -> Z.testbit mask (id - 1) = true -> id = n_ID n \/ id ∈ n_Peers n')) n.
Proof.
  intros Hmask Hwf. unfold ensurePeers.
  eapply wp_mono; [apply (wp_forM_prefix (fun pre n' => exists ps nx mt,
    n' = peerUpd n (n_Peers n ++ ps) nx mt /\ wf_peers n' /\
    (forall id, id ∈ pre -> Z.testbit mask (id - 1) = true -> id = n_ID n \/ id ∈ n_Peers n')))|].
  - exists [], (n_next n), (n_match n). rewrite app_nil_r. split; [by destruct n|].
    split; [done|]. set_solver.
  - intros pre id post n' Hl (ps & nx & mt & -> & Hw & Hin).
    assert (valid_id id) as Hv.
    { assert (id ∈ seqZ 1 64) as Hx by (rewrite Hl; set_solver). apply elem_of_seqZ in Hx.
      unfold valid_id. lia. }
    wp_pures. eapply wp_det; [by apply bitOf_wf|]. nsimp.
    rewrite land_bit_zero by (done || (unfold valid_id in *; lia)).
    destruct (Z.eqb_spec id (n_ID n)) as [->|Hne]; cbn [orb].
    { wp_pures. exists ps, nx, mt. split; [done|]. split; [done|].
      intros id [?| ->%list_elem_of_singleton]%elem_of_app ?; [by apply Hin|by left]. }
    destruct (Z.testbit mask (id - 1)) eqn:Eb; cbn [negb].
    2: { wp_pures. exists ps, nx, mt. split; [done|]. split; [done|].
         intros id' [?| ->%list_elem_of_singleton]%elem_of_app ?; [by apply Hin|congruence]. }
    rewrite existsb_Zeqb. case_bool_decide as Hp.
    + wp_pures. exists ps, nx, mt. split; [done|]. split; [done|].
      intros id' [?| ->%list_elem_of_singleton]%elem_of_app ?; [by apply Hin|by right].
    + wp_pures. exists (ps ++ [id]). eexists _, _. rewrite app_assoc. split; [done|]. split.
      * by apply (wf_peers_snoc n (n_Peers n ++ ps)).
      * cbn in *. intros id' [?| ->%list_elem_of_singleton]%elem_of_app ?; [|set_solver].
        destruct (Hin id') as [|]; set_solver.
  - intros _ n' (ps & nx & mt & -> & Hw & Hin). exists ps, nx, mt. split; [done|]. split; [done|].
    intros id Hv. apply Hin. apply elem_of_seqZ. unfold valid_id in *. lia.
Qed.

Definition cfgStep n n' : Prop :=
  exists ps nx mt st ld rr vo vn pc,
    n' = cfgUpd n (n_Peers n ++ ps) nx mt st ld rr vo vn pc /\
    (st = n_State n \/ st = Follower) /\ wf_peers n' /\ wf_voters n'.

Lemma cfgStep_refl n : wf_peers n -> wf_voters n -> cfgStep n n.
Proof.
  intros. exists [], (n_next n), (n_match n), (n_State n), (n_Leader n), (n_readReady n),
    (n_votersOld n), (n_votersNew n), (n_pendingConfig n).
  rewrite app_nil_r. split; [by destruct n|]. auto.
Qed.

Lemma cfgStep_trans n1 n2 n3 : cfgStep n1 n2 -> cfgStep n2 n3 -> cfgStep n1 n3.
Proof.
  intros (ps & nx & mt & st & ld & rr & vo & vn & pc & -> & Hst & _ & _)
         (ps' & nx' & mt' & st' & ld' & rr' & vo' & vn' & pc' & -> & Hst' & Hp & Hv).
  exists (ps ++ ps'), nx', mt', st', ld', rr', vo', vn', pc'. rewrite app_assoc.
  split; [done|]. split; [|by split]. cbn in Hst'. naive_solver.
Qed.

Lemma cfgStep_wf n n' : cfgStep n n' -> wf n -> wf n'.
Proof.
  intros (ps & nx & mt & st & ld & rr & vo & vn & pc & -> & _ & Hp & Hv) (Hl & Hi & _ & _).
  by split_and!.
Qed.

Lemma ensurePeers_cfg mask n :
  0 <= mask -> wf_peers n -> wf_voters n -> wp (ensurePeers mask) (fun _ n' => cfgStep n n') n.
Proof.
  intros Hm Hp Hv. wp_call ensurePeers_wp; [done..|].
  intros _ n' (ps & nx & mt & -> & Hp' & _).
  exists ps, nx, mt, (n_State n), (n_Leader n), (n_readReady n),
    (n_votersOld n), (n_votersNew n), (n_pendingConfig n). auto.
Qed.

Lemma logAt_voters n off :
  wf_voters n -> 0 <= e_OldVoters (logAt n off) /\ 0 <= e_NewVoters (logAt n off).
Proof.
  intros (_ & _ & Hl). unfold logAt. destruct (n_Log n !! Z.to_nat off) eqn:E; cbn; [|lia].
  by eapply Forall_lookup_1 in Hl.
Qed.

(** How a committed entry changes the configuration in force. *)
Definition cfgOf (voters : Z * Z) (e : Entry) : Z * Z :=
  if e_Kind e =? EntryJointConfig then (e_OldVoters e, e_NewVoters e)
  else if e_Kind e =? EntryFinalConfig then (e_OldVoters e, 0)
  else voters.

(** One iteration of [applyCommittedConfigurations], up to its last statement. *)
Lemma applyConfig_wp e n :
  wf n -> 0 <= e_OldVoters e -> 0 <= e_NewVoters e ->
  wp (if e_Kind e =? EntryJointConfig then
        modify (fun n => n <| n_votersOld := e_OldVoters e |> <| n_votersNew := e_NewVoters e |>) ;;
        ensurePeers (Z.lor (e_OldVoters e) (e_NewVoters e))
      else if e_Kind e =? EntryFinalConfig then
        modify (fun n => n <| n_votersOld := e_OldVoters e |> <| n_votersNew := 0 |>) ;;
        n ← get;
        v ← isVoter (n_ID n);
        (if v : bool then mret () else
           modify (fun n => n <| n_State := Follower |> <| n_Leader := 0 |> <| n_readReady := false |>))
      else mret ())
     (fun _ n' => cfgStep n n' /\ VoterMasks n' = cfgOf (VoterMasks n) e) n.
Proof.
  intros Hwf Ho Hn. unfold cfgOf.
  assert (forall vo vn pc st ld rr, 0 <= vo -> 0 <= vn -> (st = n_State n \/ st = Follower) ->
    cfgStep n (cfgUpd n (n_Peers n) (n_next n) (n_match n) st ld rr vo vn pc)) as Hset.
  { intros. eexists [], _, _, _, _, _, _, _, _. rewrite app_nil_r. split; [done|].
    split; [done|]. split; [apply Hwf|]. split; [done|]. split; [done|]. apply Hwf. }
  destruct (e_Kind e =? EntryJointConfig); [|destruct (e_Kind e =? EntryFinalConfig)].
  - wp_pures. wp_call ensurePeers_wp; [by apply Z.lor_nonneg|apply Hwf|].
    intros _ n2 (ps & nx & mt & -> & Hp2 & _). split; [|done].
    exists ps, nx, mt, (n_State n), (n_Leader n), (n_readReady n), (e_OldVoters e), (e_NewVoters e),
      (n_pendingConfig n). split; [nrefl|]. split; [auto|]. split; [done|].
    split; [done|]. split; [done|]. apply Hwf.
  - specialize (Hset (e_OldVoters e) 0 (n_pendingConfig n)).
    pose proof (Hset (n_State n) (n_Leader n) (n_readReady n) Ho ltac:(lia) ltac:(auto)) as Hset1.
    wp_pures. eapply wp_det.
    { apply isVoter_wf; [exact (cfgStep_wf _ _ Hset1 Hwf)|apply Hwf]. }
    destruct (isVoterOf _ _); wp_pures; (split; [|done]); [exact Hset1|].
    apply (Hset Follower 0 false); auto; lia.
  - wp_pures. split; [|done]. apply cfgStep_refl; apply Hwf.
Qed.

Lemma entries_snoc n first cnt :
  n_BaseIndex n <= first -> 0 <= cnt -> first + cnt < n_BaseIndex n + len (n_Log n) ->
  entries n first (cnt + 1) = entries n first cnt ++ [logAt n (first + cnt - n_BaseIndex n)].
Proof.
  intros H1 H2 H3. unfold entries. replace (Z.to_nat (cnt + 1)) with (Datatypes.S (Z.to_nat cnt)) by lia.
  apply take_S_r. rewrite lookup_drop. rewrite <- (logAt_lookup n (first + cnt)) by lia. f_equal. lia.
Qed.

Lemma seqZ_split first cnt pre x post :
  seqZ first cnt = pre ++ x :: post -> x = first + len pre /\ first + len pre < first + cnt.
Proof.
  intros E. assert (seqZ first cnt !! length pre = Some x) as Hl.
  { rewrite E. by apply list_lookup_middle. }
  apply lookup_seqZ in Hl. unfold len. lia.
Qed.

(** Committing the indexes up to [last] activates the configurations among
    them, in order, and nothing else of the log, the term or the vote changes. *)
Lemma applyCommittedConfigurations_wp first last n :
  wf n -> last <= n_BaseIndex n + len (n_Log n) - 1 ->
  let first' := Z.max first (n_BaseIndex n + 1) in
  wp (applyCommittedConfigurations first last)
     (fun _ n' => cfgStep n n' /\
        VoterMasks n' = foldl cfgOf (VoterMasks n) (entries n first' (last - first' + 1))) n.
Proof.
  intros Hwf Hlast. cbn zeta. unfold applyCommittedConfigurations. wp_pures.
  destruct (commit_u64 n Hwf) as [_ Hbu]. rewrite (w64_small _ Hbu).
  replace (if first <=? n_BaseIndex n then _ else _) with (Z.max first (n_BaseIndex n + 1))
    by (destruct (Z.leb_spec first (n_BaseIndex n)); lia).
  set (first' := Z.max _ _). assert (n_BaseIndex n < first') as Hf by (unfold first'; lia).
  eapply wp_mono; [apply (wp_forM_prefix (fun pre n' => cfgStep n n' /\
    VoterMasks n' = foldl cfgOf (VoterMasks n) (entries n first' (len pre))))|].
  - split; [apply cfgStep_refl; apply Hwf|done].
  - intros pre index post n1 [-> Hlt]%seqZ_split [Hc Hv].
    pose proof (cfgStep_wf n n1 Hc Hwf) as Hwf1.
    assert (n_BaseIndex n1 = n_BaseIndex n /\ n_Log n1 = n_Log n) as [Eb El].
    { destruct Hc as (ps & nx & mt & st & ld & rr & vo & vn & pc & -> & _). done. }
    assert (0 <= len pre) by (unfold len; lia).
    apply wp_bind. eapply wp_det; [apply entryAt_wf; [apply Hwf1|rewrite Eb, El; lia]|].
    assert (logAt n1 (first' + len pre - n_BaseIndex n1) = logAt n (first' + len pre - n_BaseIndex n)) as ->.
    { unfold logAt. by rewrite Eb, El. }
    destruct (logAt_voters n (first' + len pre - n_BaseIndex n)) as [Ho Hn]; [apply Hwf|].
    apply wp_bind. wp_call applyConfig_wp; [done..|]. intros _ n2 [Hc2 Hv2]. wp_pures.
    assert (cfgStep n n2) as Hc' by (by eapply cfgStep_trans).
    assert (VoterMasks n2 = foldl cfgOf (VoterMasks n) (entries n first' (len (pre ++ [first' + len pre])))) as Hv'.
    { unfold len at 1. rewrite length_app. cbn [length]. rewrite Nat2Z.inj_add. fold (len pre).
      change (Z.of_nat 1) with 1. rewrite entries_snoc by lia. rewrite foldl_snoc. by rewrite <- Hv. }
    destruct (_ =? n_pendingConfig n2); wp_pures; [|done]. split; [|exact Hv'].
    destruct Hc' as (ps & nx & mt & st & ld & rr & vo & vn & pc & -> & Hst & Hp & Hvs).
    exists ps, nx, mt, st, ld, rr, vo, vn, 0. split; [nrefl|]. by split_and!.
  - intros _ n' [Hc Hv]. split; [done|]. rewrite Hv. unfold len. rewrite length_seqZ.
    unfold entries. f_equal. f_equal. lia.
Qed.


(** ** Evolution of a node

    [evolves b k n n'] is what every operation of the node guarantees between
    the state before and after it: the invariant, monotonic term, vote, indexes
    and committed entries, at most [k] messages sent, a log that ends below [b],
    and fail-stop (a faulted node is a silent follower). *)

(** A message this node may put on the wire. *)
Definition sentBy n (m : Message) : Prop := m_From m = n_ID n /\ valid_id (m_To m).

Definition stopped n : Prop :=
  n_State n = Follower /\ n_Leader n = 0 /\ n_outbound n = [] /\ is_Some (n_storageErr n).

Record evolves (b k : Z) (n n' : Node S) : Prop := mkEvolves {
  ev_wf : wf n';
  ev_id : n_ID n' = n_ID n;
  ev_term : n_Term n <= n_Term n';
  ev_vote : n_Term n' = n_Term n -> n_VotedFor n <> 0 -> n_VotedFor n' = n_VotedFor n;
  ev_commit : n_Commit n <= n_Commit n';
  ev_applied : n_Applied n <= n_Applied n';
  ev_base : n_BaseIndex n <= n_BaseIndex n';
  ev_keep : forall i, n_BaseIndex n' < i <= n_Commit n -> EntryAt n' i = EntryAt n i;
  ev_top : top n' <= b;
  ev_fault : n_Faulted n' = true -> stopped n';
  ev_sent : n_Faulted n' = false -> n_Faulted n = false /\
    exists ms, n_outbound n' = n_outbound n ++ ms /\ len ms <= k /\ Forall (sentBy n) ms
}.

Lemma evolves_trans b1 b2 k1 k2 k n1 n2 n3 :
  evolves b1 k1 n1 n2 -> evolves b2 k2 n2 n3 -> k1 + k2 <= k -> evolves b2 k n1 n3.
Proof.
  intros H1 H2 Hk. destruct H1, H2. split; try done; try congruence; try lia.
  - intros i Hi. rewrite ev_keep1 by lia. apply ev_keep0. lia.
  - intros Hf. destruct (ev_sent1 Hf) as (Hf2 & ms2 & E2 & Hl2 & Hs2).
    destruct (ev_sent0 Hf2) as (Hf1 & ms1 & E1 & Hl1 & Hs1). split; [done|].
    exists (ms1 ++ ms2). rewrite E2, E1, app_assoc. split; [done|]. split.
    + unfold len in *. rewrite length_app. lia.
    + apply Forall_app. split; [done|]. eapply Forall_impl; [exact Hs2|].
      intros m [Hm1 Hm2]. split; [congruence|done].
Qed.

Lemma evolves_mono b b' k k' n n' : evolves b k n n' -> b <= b' -> k <= k' -> evolves b' k' n n'.
Proof.
  intros [] Hb Hk. split; try done; try lia.
  intros Hf. destruct (ev_sent0 Hf) as (? & ms & ? & ? & ?). split; [done|].
  exists ms. split; [done|]. split; [lia|done].
Qed.

(** Operations that leave the log, the indexes and the term alone. *)
Lemma evolves_quiet k n n' ms :
  wf n' -> n_ID n' = n_ID n -> n_Term n' = n_Term n ->
  (n_VotedFor n <> 0 -> n_VotedFor n' = n_VotedFor n) ->
  n_Commit n' = n_Commit n -> n_Applied n' = n_Applied n ->
  n_BaseIndex n' = n_BaseIndex n -> n_Log n' = n_Log n ->
  n_Faulted n = false -> n_Faulted n' = false ->
  n_outbound n' = n_outbound n ++ ms -> len ms <= k -> Forall (sentBy n) ms ->
  evolves (top n) k n n'.
Proof.
  intros Hwf Hid Ht Hv Hc Ha Hb Hl Hf Hf' Ho Hk Hms.
  split; rewrite ?Ht, ?Hc, ?Ha, ?Hb; try done; try lia.
  - intros i _. unfold EntryAt, offset, lastIndex, logAt. by rewrite Hb, Hl.
  - unfold top. rewrite Hb, Hl. lia.
  - congruence.
  - intros _. split; [done|]. eauto.
Qed.

Lemma evolves_refl n : wf n -> (n_Faulted n = true -> stopped n) -> evolves (top n) 0 n n.
Proof.
  intros Hwf Hf. split; try done; try lia.
  intros Hf'. split; [done|]. exists []. rewrite app_nil_r. done.
Qed.

Lemma evolves_fault n s e : wf n -> is_Some e -> evolves (top n) 0 n (faultUpd n s e).
Proof. intros Hwf He. split; try done; cbn; lia. Qed.

Lemma failStorageWith_wp err n :
  wp (failStorageWith err) (fun _ n' => n' = faultUpd n (n_store n) (Some err)) n.
Proof. unfold failStorageWith, failStorage. by wp_pures. Qed.

Lemma failStorage_wp n :
  wp failStorage (fun _ n' => exists e, is_Some e /\ n' = faultUpd n (n_store n) e) n.
Proof.
  unfold failStorage. wp_pures. eexists. split; [|done]. by destruct (n_storageErr n).
Qed.

Lemma persistHardState_wp h n :
  wp (persistHardState h)
     (fun (ok : bool) n' => exists s,
        if ok then SaveHardState h (n_store n) = (s, None) /\ n' = n <| n_store := s |>
        else exists e, SaveHardState h (n_store n) = (s, Some e) /\ n' = faultUpd n s (Some e)) n.
Proof.
  unfold persistHardState, storeOp. wp_pures. unfold wp at 1.
  destruct (SaveHardState h (n_store n)) as [s [e|]]; wp_pures.
  - wp_call failStorageWith_wp. intros _ n' ->. wp_pures. exists s, e. done.
  - exists s. done.
Qed.

Lemma peers_le n : wf_peers n -> len (n_Peers n) <= 63.
Proof.
  intros (Hid & Hps & Hnd).
  assert (submseteq (n_ID n :: n_Peers n) (seqZ 1 64)) as Hs.
  { apply NoDup_submseteq; [done|]. intros x Hx. apply elem_of_seqZ.
    rewrite Forall_forall in Hps. unfold valid_id in *. set_unfold. destruct Hx as [->|Hx]; [lia|].
    specialize (Hps x Hx). lia. }
  apply submseteq_length in Hs. rewrite length_seqZ in Hs. cbn [length] in Hs. unfold len. lia.
Qed.

Lemma EntryAt_app n e i :
  wf_log n -> top n < maxu64 -> i < top n ->
  EntryAt (n <| n_Log := n_Log n ++ [e] |>) i = EntryAt n i.
Proof.
  intros Hw Ht Hi. pose proof (len_Log_pos n Hw).
  assert (wf_log (n <| n_Log := n_Log n ++ [e] |>)) as Hw'.
  { destruct Hw as (? & ? & ?). split; cbn; [by destruct (n_Log n)|]. split; [done|].
    unfold top, len in *. rewrite length_app. cbn. lia. }
  unfold EntryAt. rewrite !offset_wf by done. cbn. unfold top, len in *. rewrite length_app. cbn.
  repeat case_decide; try lia; [|done]. f_equal. unfold logAt. cbn.
  rewrite lookup_app_l by (unfold len in *; lia). done.
Qed.

Lemma wf_append n e :
  wf n -> top n < maxu64 -> 0 <= e_OldVoters e -> 0 <= e_NewVoters e ->
  wf (n <| n_Log := n_Log n ++ [e] |>).
Proof.
  intros ((Hne & Hb & Hm) & Hi & Hp & (Hvo & Hvn & Hvl)) Ht Ho Hn. split; [|split; [|split]].
  - split; [by cbn; destruct (n_Log n)|]. split; [done|]. cbn. idx.
  - unfold wf_index in *. cbn. idx.
  - done.
  - split; [done|]. split; [done|]. apply Forall_app. split; [done|]. by apply Forall_singleton.
Qed.

(** Raising the commit index within the log. *)
Lemma wf_commit n c : wf n -> n_Commit n <= c < top n -> wf (n <| n_Commit := c |>).
Proof.
  intros (Hl & Hi & Hp & Hv) Hc. split_and!; try done.
  unfold wf_index, top in *. cbn. lia.
Qed.

Lemma cfgStep_evolves n n' b k n0 :
  evolves b k n0 n -> n_Faulted n = false -> cfgStep n n' -> evolves b k n0 n'.
Proof.
  intros Hev Hf Hc. pose proof (cfgStep_wf n n' Hc (ev_wf _ _ _ _ Hev)) as Hwf.
  destruct Hc as (ps & nx & mt & st & ld & rr & vo & vn & pc & -> & _).
  destruct Hev. split; try done. cbn. congruence.
Qed.

Lemma evolves_store b k n n' s : evolves b k n n' -> evolves b k n (n' <| n_store := s |>).
Proof. intros []. by split. Qed.

Lemma evolves_stop b k n n' s e : evolves b k n n' -> is_Some e -> evolves b k n (faultUpd n' s e).
Proof. intros [] He. split; try done. Qed.

Lemma evolves_room b k j n n' :
  evolves b k n n' -> n_Faulted n' = false -> room n (k + j) -> room n' j.
Proof.
  intros Hev Hf Hr. destruct (ev_sent _ _ _ _ Hev Hf) as (_ & ms & E & Hl & _).
  unfold room. rewrite E. idx.
Qed.

(** Appending one entry. *)
Lemma evolves_append n e :
  wf n -> n_Faulted n = false -> top n < maxu64 -> 0 <= e_OldVoters e -> 0 <= e_NewVoters e ->
  evolves (top n + 1) 0 n (n <| n_Log := n_Log n ++ [e] |>).
Proof.
  intros Hwf Hf Ht Ho Hn. split; try done; try (cbn; lia).
  - by apply wf_append.
  - intros i Hi. apply EntryAt_app; [apply Hwf|done|]. destruct Hwf as (_ & Hi' & _). idx.
  - cbn. idx.
  - cbn. congruence.
  - intros _. split; [done|]. exists []. by rewrite app_nil_r.
Qed.

(** Raising the commit index. *)
Lemma evolves_commit b k n n' c :
  evolves b k n n' -> n_Commit n' <= c < top n' -> evolves b k n (n' <| n_Commit := c |>).
Proof.
  intros Hev Hc. pose proof (wf_commit n' c (ev_wf _ _ _ _ Hev) Hc) as Hwf.
  destruct Hev. split; try done. cbn. lia.
Qed.

(** Commit [c] (already durable) and activate the configurations it commits. *)
Lemma commit_wp b k n0 n first c :
  evolves b k n0 n -> n_Faulted n = false -> n_Commit n <= c < top n ->
  wp (applyCommittedConfigurations first c)
     (fun _ n' => evolves b k n0 n' /\ n_Faulted n' = false /\
        n_Log n' = n_Log n /\ n_BaseIndex n' = n_BaseIndex n /\ n_Commit n' = c /\
        n_outbound n' = n_outbound n /\ n_Term n' = n_Term n) (n <| n_Commit := c |>).
Proof.
  intros Hev Hf Hc. pose proof (evolves_commit b k n0 n c Hev Hc) as Hev'.
  wp_call applyCommittedConfigurations_wp; [apply Hev'|cbn; idx|].
  intros _ n' [Hcfg _]. split; [by eapply cfgStep_evolves|].
  destruct Hcfg as (ps & nx & mt & st & ld & rr & vo & vn & pc & -> & _). done.
Qed.

Lemma appendLocal_wp e n :
  wf n -> n_Faulted n = false -> top n < maxu64 -> 0 <= e_OldVoters e -> 0 <= e_NewVoters e ->
  wp (appendLocal e)
     (fun ok n' => evolves (top n + 1) 0 n n' /\ n_Faulted n' = negb ok /\ n_Term n' = n_Term n /\
        n_BaseIndex n' = n_BaseIndex n /\ (ok = true -> n_Log n' = n_Log n ++ [e])) n.
Proof.
  intros Hwf Hf Ht Ho Hn. unfold appendLocal. wp_pures. unfold storeOp at 1. unfold wp at 1.
  destruct (Append _ _ _) as [s [err|]].
  { wp_pures. wp_call failStorageWith_wp. intros _ n' ->. wp_pures. split; [|done].
    apply evolves_stop with (n' := n); [|done].
    eapply evolves_mono; [apply evolves_refl; congruence|lia|lia]. }
  wp_pures. set (n1 := _ <| n_Log := _ |>).
  assert (evolves (top n + 1) 0 n n1) as Hev.
  { change n1 with (n <| n_Log := n_Log n ++ [e] |> <| n_store := s |>).
    by apply evolves_store, evolves_append. }
  assert (wf n1) as Hwf1 by apply Hev.
  eapply wp_det; [apply bitOf_wf, Hwf|]. wp_pures.
  eapply wp_det; [by apply quorumMask_wf|].
  destruct (quorumOf n1 _); wp_pures; [|done].
  assert (n_Commit n1 <= lastIndex n1 < top n1) as Hc.
  { rewrite lastIndex_wf by apply Hwf1. destruct Hwf1 as (_ & Hi & _). idx. }
  wp_call persistHardState_wp. intros [] n2 (s' & Hs).
  - destruct Hs as [_ ->]. wp_pures.
    pose proof (evolves_store _ _ _ _ s' Hev) as Hev2.
    wp_call (commit_wp _ _ _ _ _ _ Hev2); [done|done|].
    intros _ n3 (Hev3 & Hf3 & Hl3 & Hb3 & _ & _ & Ht3). by wp_pures.
  - destruct Hs as (err & _ & ->). wp_pures. split; [|done].
    destruct Hev. by split.
Qed.

Lemma replMsg_sent n p ctx m : valid_id p -> replMsg n p ctx m -> sentBy n m.
Proof.
  intros Hp [->|(next & _ & ->)]; [done|]. unfold appMsg. by destruct (_ <? _).
Qed.

Lemma evolves_rep n nx ms k :
  wf n -> n_Faulted n = false -> len ms <= k -> Forall (sentBy n) ms ->
  evolves (top n) k n (repUpd n nx (n_outbound n ++ ms)).
Proof. intros. by apply (evolves_quiet k n _ ms). Qed.

Lemma appendToContext_evolves p ctx n :
  wf n -> n_Faulted n = false -> room n 1 -> valid_id p ->
  wp (appendToContext p ctx)
     (fun _ n' => evolves (top n) 1 n n' /\ n_Faulted n' = false /\ n_Commit n' = n_Commit n) n.
Proof.
  intros Hwf Hf Hr Hp. wp_call appendToContext_wp; [done..|].
  intros _ n' (nx & m & -> & Hm). split; [|done]. apply evolves_rep; [done..|].
  apply Forall_singleton. by eapply replMsg_sent.
Qed.

Lemma broadcastAppend_evolves n :
  wf n -> n_Faulted n = false -> room n 63 ->
  wp broadcastAppend
     (fun _ n' => evolves (top n) 63 n n' /\ n_Faulted n' = false /\ n_Commit n' = n_Commit n) n.
Proof.
  intros Hwf Hf Hr. pose proof Hwf as (_ & _ & Hwp & _). pose proof (peers_le n Hwp) as Hle.
  wp_call broadcastAppend_wp; [done|idx|]. intros _ n' (nx & ms & -> & Hl & Hms).
  split; [|done]. apply evolves_rep; [done|done|lia|].
  eapply Forall_impl; [exact Hms|]. intros m (p & Hp & Hm). eapply replMsg_sent; [|done].
  destruct Hwp as (_ & Hps & _). rewrite Forall_forall in Hps. by apply Hps.
Qed.

Lemma resetProgress_wp last (l : list Z) n :
  wp (E := Panic) (forM_ l (fun p => modify (fun n => n <| n_next := <[p := last]> (n_next n) |>
                                           <| n_match := <[p := 0]> (n_match n) |>)))
     (fun _ n' => exists nx mt, n' = peerUpd n (n_Peers n) nx mt) n.
Proof.
  apply (wp_forM_ (fun n' => exists nx mt, n' = peerUpd n (n_Peers n) nx mt)).
  - exists (n_next n), (n_match n). by destruct n.
  - intros p n' _ (nx & mt & ->). wp_pures. eexists _, _. done.
Qed.

Lemma becomeLeader_wp n :
  wf n -> n_Faulted n = false -> top n < maxu64 -> room n 63 ->
  wp becomeLeader (fun _ n' => evolves (top n + 1) 63 n n') n.
Proof.
  intros Hwf Hf Ht Hr. unfold becomeLeader. wp_pures.
  set (n1 := n <| n_State := Leader |> <| n_Leader := n_ID n |> <| n_elapsed := 0 |>).
  assert (evolves (top n) 0 n n1) as Hev1.
  { apply (evolves_quiet 0 n n1 []); try done. by rewrite app_nil_r. }
  wp_call appendLocal_wp; [done..|]. intros ok n2 (Hev2 & Hf2 & _).
  pose proof (evolves_trans _ _ _ _ 0 _ _ _ Hev1 Hev2 ltac:(lia)) as Hev.
  destruct ok; wp_pures; [|eapply evolves_mono; [exact Hev|done|lia]].
  wp_call resetProgress_wp. intros _ n3 (nx & mt & ->).
  assert (room n2 63) as Hr2 by (eapply evolves_room; [exact Hev|done|exact Hr]).
  wp_call broadcastAppend_evolves; [apply Hev|done|done|].
  intros _ n4 (Hev4 & _). eapply (evolves_mono (top n2)); [|apply Hev|reflexivity].
  apply (evolves_trans _ _ 0 63 63 _ _ _ Hev); [|lia]. destruct Hev4. by split.
Qed.

(** The vote-request loops. *)
Lemma sendAll_wp (mk : Z -> Z -> Message) (l : list Z) n :
  wf_log n -> room n (len l) ->
  wp (forM_ l (fun p => t ← termAtMust (lastIndex n); send (mk p t)))
     (fun _ n' => n' = n <| n_outbound := n_outbound n ++
        map (fun p => mk p (e_Term (logAt n (top n - 1 - n_BaseIndex n)))) l |>) n.
Proof.
  intros Hl Hr. set (t := e_Term _).
  eapply wp_mono; [apply (wp_forM_prefix (fun pre n' =>
    n' = n <| n_outbound := n_outbound n ++ map (fun p => mk p t) pre |>))|].
  - cbn. rewrite app_nil_r. by destruct n.
  - intros pre p post n' -> ->. apply wp_bind. eapply wp_det.
    { apply termAtMust_wf; cbn; [done|]. rewrite lastIndex_wf by done.
      pose proof (len_Log_pos n Hl). lia. }
    apply send_wp.
    { unfold room in *. cbn. unfold len in *. rewrite !length_app in *. cbn in Hr.
      rewrite length_map. lia. }
    cbn. rewrite map_app, app_assoc. cbn. rewrite lastIndex_wf by done. done.
  - done.
Qed.

Lemma requests_sent n (mk : Z -> Z -> Message) t k :
  wf_peers n -> (forall p t, m_From (mk p t) = n_ID n /\ m_To (mk p t) = p) -> 63 <= k ->
  Forall (sentBy n) (map (fun p => mk p t) (n_Peers n)) /\
  len (map (fun p => mk p t) (n_Peers n)) <= k.
Proof.
  intros Hwp Hmk Hk. split.
  - destruct Hwp as (_ & Hps & _). apply Forall_map. eapply Forall_impl; [exact Hps|].
    intros p Hp. destruct (Hmk p t) as [E1 E2]. split; [done|by rewrite E2].
  - pose proof (peers_le n Hwp). unfold len in *. rewrite length_map. lia.
Qed.

Lemma startElection_wp n :
  wf n -> n_Faulted n = false -> top n < maxu64 -> 0 <= n_Term n < maxu64 -> room n 126 ->
  wp startElection (fun _ n' => evolves (top n + 1) 126 n n') n.
Proof.
  intros Hwf Hf Htop Ht Hr. unfold startElection. wp_pures.
  rewrite w64_small by idx.
  wp_call persistHardState_wp. intros [] n1 (s & Hs).
  2: { destruct Hs as (err & _ & ->). wp_pures. apply evolves_stop; [|done].
       eapply evolves_mono; [apply evolves_refl; [done|congruence]|lia|lia]. }
  destruct Hs as (_ & ->). wp_pures. eapply wp_det; [apply bitOf_wf, Hwf|]. wp_pures.
  set (n1 := _ <| n_preVoteMask := 0 |>).
  pose proof (peers_le n ltac:(apply Hwf)) as Hle.
  assert (wf n1) as Hwf1 by done.
  wp_call (sendAll_wp (fun p t => newMessage MsgRequestVote (n_ID n1) p (n_Term n1)
     <| m_LogIndex := lastIndex n1 |> <| m_LogTerm := t |>)); [apply Hwf|unfold n1; idx|].
  intros _ n2 E2.
  edestruct (requests_sent n1 (fun p t => newMessage MsgRequestVote (n_ID n1) p (n_Term n1)
     <| m_LogIndex := lastIndex n1 |> <| m_LogTerm := t |>)) as [Hms Hml];
    [apply Hwf|done|reflexivity|].
  assert (evolves (top n) 63 n n2) as Hev2.
  { rewrite E2. split; try done; cbn; try lia; try congruence. intros _. split; [done|]. eauto. }
  wp_pures. eapply wp_det; [apply quorumMask_wf, Hev2|].
  assert (n_Faulted n2 = false /\ top n2 = top n) as [Hf2 Ht2] by by subst n2.
  destruct (quorumOf _ _); [|wp_pures; eapply evolves_mono; [exact Hev2|lia|lia]].
  wp_call becomeLeader_wp; [apply Hev2|done|by rewrite Ht2|by eapply evolves_room|].
  intros _ n3 Hev3. rewrite Ht2 in Hev3. eapply evolves_trans; [exact Hev2|exact Hev3|done].
Qed.

Lemma startPreVote_wp n :
  wf n -> n_Faulted n = false -> top n < maxu64 -> 0 <= n_Term n < maxu64 -> room n 189 ->
  wp startPreVote (fun _ n' => evolves (top n + 1) 189 n n') n.
Proof.
  intros Hwf Hf Htop Ht Hr. unfold startPreVote. wp_pures.
  eapply wp_det; [apply bitOf_wf, Hwf|]. wp_pures. set (n1 := _ <| n_preVoteMask := _ |>).
  pose proof (peers_le n ltac:(apply Hwf)) as Hle.
  wp_call (sendAll_wp (fun p t => newMessage MsgPreVote (n_ID n1) p (n_preVoteTerm n1)
     <| m_LogIndex := lastIndex n1 |> <| m_LogTerm := t |>)); [apply Hwf|unfold n1; idx|].
  intros _ n2 E2.
  edestruct (requests_sent n1 (fun p t => newMessage MsgPreVote (n_ID n1) p (n_preVoteTerm n1)
     <| m_LogIndex := lastIndex n1 |> <| m_LogTerm := t |>)) as [Hms Hml];
    [apply Hwf|done|reflexivity|].
  assert (evolves (top n) 63 n n2) as Hev2.
  { rewrite E2. split; try done; cbn; try lia; try congruence. intros _. split; [done|]. eauto. }
  wp_pures. eapply wp_det; [apply quorumMask_wf, Hev2|].
  assert (n_Faulted n2 = false /\ top n2 = top n /\ n_Term n2 = n_Term n) as (Hf2 & Ht2 & Htt2)
    by by subst n2.
  destruct (quorumOf _ _); [|wp_pures; eapply evolves_mono; [exact Hev2|lia|lia]].
  wp_call startElection_wp; [apply Hev2|done|by rewrite Ht2|by rewrite Htt2|by eapply evolves_room|].
  intros _ n3 Hev3. rewrite Ht2 in Hev3. eapply evolves_trans; [exact Hev2|exact Hev3|done].
Qed.

End inv.
