(* ===== verification/RaftStep.v ===== *)
(** * Message handlers and client operations of a node

    Every exported operation of a Raft node ([Step], [Tick], the proposals,
    [Compact], [ApplyEntries], ...) keeps the node invariant, does not panic and
    [evolves] the node: terms, votes, indexes and committed entries only move
    forward, and a storage failure leaves a silent follower. *)

From S2P Require Import Prelude RaftTypes Quorum RaftNode RaftInv.

Section step_defs.
Context {S : Type} `{!StableStore S}.
Implicit Types n : Node S.

(** The invariant between operations. *)
Definition node_inv n : Prop :=
  wf n /\ 0 <= n_Term n /\ (n_Faulted n = true -> stopped n).

(** A message a node can receive from a peer that follows the protocol: fields
    of their Go types, and no contradiction with what the node already knows to
    be committed. *)
Record msg_ok n (m : Message) : Prop := {
  mo_from : valid_id (m_From m);
  mo_term : 0 <= m_Term m;
  mo_index : 0 <= m_LogIndex m;
  mo_snap : 0 <= m_SnapshotIndex m < maxu64;
  mo_entry : 0 <= e_OldVoters (m_Entry m) /\ 0 <= e_NewVoters (m_Entry m);
  mo_masks : 0 <= m_SnapshotOld m /\ 0 <= m_SnapshotNew m;
  mo_append : m_Type m = MsgAppend -> m_HasEntry m = true -> m_LogIndex m + 1 <= n_Commit n ->
    forall e, EntryAt n (m_LogIndex m + 1) = Some e -> e_Term e = e_Term (m_Entry m);
  mo_install : m_Type m = MsgInstallSnapshot -> m_SnapshotIndex m <= n_Commit n ->
    forall e, EntryAt n (m_SnapshotIndex m) = Some e -> e_Term e = m_SnapshotTerm m
}.

End step_defs.

Section step.
Context {S : Type} `{!StableStore S}.
Implicit Types n : Node S.

(** ** Elections *)

Lemma evolves_self n : wf n -> n_Faulted n = false -> forall b k, top n <= b -> 0 <= k -> evolves b k n n.
Proof. intros Hwf Hf b k Hb Hk. eapply evolves_mono; [apply evolves_refl; congruence|done|done]. Qed.

Lemma room_le n k j : room n k -> j <= k -> room n j.
Proof. idx. Qed.

Lemma Tick_wp n :
  node_inv n -> top n < maxu64 -> n_Term n < maxu64 -> room n 189 ->
  wp Tick (fun _ n' => evolves (top n + 1) 189 n n') n.
Proof.
  intros (Hwf & Ht0 & Hst) Htop Ht Hr. unfold Tick. wp_pures.
  destruct (n_Faulted n) eqn:Hf; wp_pures.
  { eapply evolves_mono; [apply evolves_refl; [done|auto]|lia|lia]. }
  set (n1 := n <| n_elapsed := _ |>). case_decide as Hs.
  - destruct (3 <=? _); wp_pures.
    + set (n2 := n1 <| n_elapsed := 0 |>). wp_call broadcastAppend_evolves; [done|done|by apply (room_le n 189)|].
      intros _ n' [Hev _]. apply (evolves_mono (top n) _ 63); [|lia|lia]. destruct Hev. by split.
    + destruct (evolves_self n Hwf Hf (top n + 1) 189 ltac:(lia) ltac:(lia)). by split.
  - destruct (_ <=? _).
    + wp_call startPreVote_wp; [done..|]. intros _ n' []. by split.
    + wp_pures. destruct (evolves_self n Hwf Hf (top n + 1) 189 ltac:(lia) ltac:(lia)). by split.
Qed.

Lemma lastTerm_wf n : wf n -> termAtMust (lastIndex n) n = Done (e_Term (logAt n (top n - 1 - n_BaseIndex n))) n.
Proof.
  intros (Hl & _). pose proof (len_Log_pos n Hl). rewrite termAtMust_wf; rewrite ?lastIndex_wf; try done; lia.
Qed.

Lemma evolves_send n m : wf n -> n_Faulted n = false -> sentBy n m ->
  evolves (top n) 1 n (n <| n_outbound := n_outbound n ++ [m] |>).
Proof.
  intros. apply (evolves_quiet 1 n _ [m]); try done. by apply Forall_singleton.
Qed.

Lemma onPreVote_wp m n :
  wf n -> n_Faulted n = false -> room n 1 -> valid_id (m_From m) ->
  wp (onPreVote m) (fun _ n' => evolves (top n) 1 n n') n.
Proof.
  intros Hwf Hf Hr Hid. unfold onPreVote. wp_pures. eapply wp_det; [by apply lastTerm_wf|].
  wp_pures. eapply wp_det; [by apply isVoter_wf|]. apply send_wp; [done|]. by apply evolves_send.
Qed.

Lemma onVote_wp m n :
  wf n -> n_Faulted n = false -> room n 1 -> valid_id (m_From m) ->
  wp (onVote m) (fun _ n' => evolves (top n) 1 n n') n.
Proof.
  intros Hwf Hf Hr Hid. unfold onVote. wp_pures. eapply wp_det; [by apply lastTerm_wf|].
  wp_pures. eapply wp_det; [by apply isVoter_wf|].
  set (grant := isVoterOf n _ && _ && _ && _). wp_pures.
  destruct grant eqn:Hg; wp_pures.
  2: { apply send_wp; [done|]. by apply evolves_send. }
  wp_call persistHardState_wp. intros [] n1 (s & Hs).
  - destruct Hs as (_ & ->). wp_pures. apply send_wp; [done|].
    eapply (evolves_quiet 1 n _ [_]); try done; [|by apply Forall_singleton].
    cbn. intros Hv. unfold grant in Hg. apply andb_prop in Hg as [Hg _].
    apply andb_prop in Hg as [_ Hg]. apply orb_prop in Hg as [Hg|Hg]; apply Z.eqb_eq in Hg; congruence.
  - destruct Hs as (err & _ & ->). wp_pures. apply evolves_stop; [|done].
    apply evolves_self; [done|done|lia|lia].
Qed.

(** ** Log replication, follower side *)

Lemma EntryAt_wf n i :
  wf_log n ->
  EntryAt n i = if decide (n_BaseIndex n <= i) then n_Log n !! Z.to_nat (i - n_BaseIndex n) else None.
Proof.
  intros Hl. unfold EntryAt. rewrite offset_wf by done. repeat case_decide; try idx.
  - symmetry. apply logAt_lookup; idx.
  - symmetry. apply lookup_ge_None. idx.
  - done.
Qed.

Lemma EntryAt_in n i : wf_log n -> n_BaseIndex n <= i < top n -> is_Some (EntryAt n i).
Proof.
  intros Hl Hi. rewrite EntryAt_wf by done. rewrite decide_True by lia.
  apply lookup_lt_is_Some. idx.
Qed.

Definition truncUpd n (a : Z) : Node S :=
  n <| n_Log := take (Z.to_nat (a - n_BaseIndex n)) (n_Log n) |>.

Lemma top_trunc n a : n_BaseIndex n <= a <= top n -> top (truncUpd n a) = a.
Proof. intros Ha. unfold top, len in *. cbn. rewrite length_take. lia. Qed.

Lemma wf_trunc n a : wf n -> n_Commit n < a <= top n -> wf (truncUpd n a).
Proof.
  intros ((Hne & Hb & Hm) & Hi & Hp & (Hvo & Hvn & Hvl)) Ha.
  assert (top (truncUpd n a) = a) as Ht by (apply top_trunc; idx).
  assert (len (n_Log (truncUpd n a)) = a - n_BaseIndex n) as Hlen.
  { unfold top in Ht. cbn in Ht |- *. lia. }
  split; [|split; [|split]].
  - split; [|split].
    + intros E. rewrite E in Hlen. cbn in Hlen. idx.
    + done.
    + rewrite Hlen. cbn. idx.
  - unfold wf_index. rewrite Hlen. cbn. idx.
  - done.
  - split; [done|]. split; [done|]. by apply Forall_take.
Qed.

Lemma EntryAt_trunc n a i :
  wf n -> n_Commit n < a <= top n -> i < a -> EntryAt (truncUpd n a) i = EntryAt n i.
Proof.
  intros Hwf Ha Hi. pose proof (wf_trunc n a Hwf Ha) as (Hl & _). rewrite !EntryAt_wf by (done || apply Hwf).
  cbn. case_decide; [|done]. apply lookup_take_lt. idx.
Qed.

Lemma evolves_trunc n a :
  wf n -> n_Faulted n = false -> n_Commit n < a <= top n -> evolves (top n) 0 n (truncUpd n a).
Proof.
  intros Hwf Hf Ha. pose proof (wf_trunc n a Hwf Ha). split; try done; try (cbn; lia).
  - intros i Hi. apply EntryAt_trunc; [done..|lia].
  - rewrite top_trunc; [lia|]. destruct Hwf as (_ & Hi & _). idx.
  - cbn. congruence.
  - intros _. split; [done|]. exists []. by rewrite app_nil_r.
Qed.

Lemma rebuildPendingConfig_wp n :
  wf n -> wp rebuildPendingConfig (fun _ n' => cfgStep n n') n.
Proof.
  intros Hwf. destruct (commit_u64 n Hwf) as [Hcu Hbu]. unfold rebuildPendingConfig. wp_pures.
  cbn [n_Commit n_BaseIndex upd]. rewrite (w64_small _ Hcu), (w64_small _ Hbu).
  set (n0 := n <| n_pendingConfig := 0 |>).
  assert (forall n1 pc, cfgStep n n1 -> cfgStep n (n1 <| n_pendingConfig := pc |>)) as Hset.
  { intros n1 pc (ps & nx & mt & st & ld & rr & vo & vn & pc' & -> & Hst & Hp & Hv).
    exists ps, nx, mt, st, ld, rr, vo, vn, pc. split; [nrefl|]. split; [exact Hst|].
    split; [exact Hp|exact Hv]. }
  apply (wp_forM_ (fun n' => cfgStep n n')).
  { apply Hset. apply cfgStep_refl; apply Hwf. }
  intros index n1 Hx%elem_of_seqZ Hc. pose proof (cfgStep_wf n n1 Hc Hwf) as Hwf1.
  assert (n_BaseIndex n1 = n_BaseIndex n /\ n_Log n1 = n_Log n) as [Eb El].
  { destruct Hc as (ps & nx & mt & st & ld & rr & vo & vn & pc & -> & _). done. }
  rewrite lastIndex_wf in Hx by apply Hwf. unfold n0 in Hx. cbn [n_Log n_BaseIndex upd] in Hx.
  apply wp_bind. eapply wp_det; [apply entryAt_wf; [apply Hwf1|rewrite Eb, El; lia]|].
  destruct (logAt_voters n1 (index - n_BaseIndex n1)) as [Ho Hn]; [apply Hwf1|].
  destruct (_ || _); wp_pures; [|done].
  wp_call ensurePeers_cfg; [by apply Z.lor_nonneg|apply Hwf1|apply Hwf1|].
  intros _ n2 Hc2. eapply cfgStep_trans; [by apply (Hset n1 index)|done].
Qed.

(** The outcome of storing the leader's entry [e] at index [a]: everything
    before [a] is kept, and the entry at [a] is [e] or was already there with
    the term of [e]. *)
Definition stored n (a : Z) (e : Entry) n' : Prop :=
  (forall i, i < a -> EntryAt n' i = EntryAt n i) /\
  exists e', EntryAt n' a = Some e' /\ e_Term e' = e_Term e /\ (e' = e \/ EntryAt n a = Some e').

(** The node with its log cut before [a] when the entry there conflicts. *)
Lemma appendEntry_cut_wp m n :
  wf n -> n_Faulted n = false -> n_BaseIndex n <= m_LogIndex m < top n ->
  (m_LogIndex m + 1 <= n_Commit n ->
     forall e, EntryAt n (m_LogIndex m + 1) = Some e -> e_Term e = e_Term (m_Entry m)) ->
  wp (match offset n (m_LogIndex m + 1) with
      | Some off =>
          if negb (e_Term (logAt n off) =? e_Term (m_Entry m)) then
            modify (fun n => n <| n_Log := take (Z.to_nat off) (n_Log n) |>) ;;
            rebuildPendingConfig
          else mret ()
      | None => mret ()
      end)
     (fun _ n' => evolves (top n) 0 n n' /\ n_Faulted n' = false /\ n_BaseIndex n' = n_BaseIndex n /\
        n_Term n' = n_Term n /\ n_Commit n' = n_Commit n /\
        (forall i, i <= m_LogIndex m -> EntryAt n' i = EntryAt n i) /\ m_LogIndex m < top n' /\
        (top n' = m_LogIndex m + 1 \/ EntryAt n' (m_LogIndex m + 1) = EntryAt n (m_LogIndex m + 1) /\
          exists e, EntryAt n (m_LogIndex m + 1) = Some e /\ e_Term e = e_Term (m_Entry m))) n.
Proof.
  intros Hwf Hf Hi Hcom. pose proof Hwf as (Hl & Hx & _). set (a := m_LogIndex m + 1) in *.
  rewrite offset_wf by done. case_decide as Ha.
  2: { wp_pures. split; [apply evolves_self; [done|done|lia|lia]|]. split_and!; try done; try idx. }
  assert (EntryAt n a = Some (logAt n (a - n_BaseIndex n))) as Ea.
  { rewrite EntryAt_wf by done. rewrite decide_True by lia. apply logAt_lookup; idx. }
  destruct (Z.eqb_spec (e_Term (logAt n (a - n_BaseIndex n))) (e_Term (m_Entry m))) as [He|He]; cbn [negb].
  { wp_pures. split; [apply evolves_self; [done|done|lia|lia]|].
    split_and!; try done; try idx. right. eauto. }
  assert (n_Commit n < a <= top n) as Hc.
  { split; [|idx]. destruct (decide (n_Commit n < a)); [done|]. exfalso. apply He, Hcom; [lia|done]. }
  wp_pures. wp_call rebuildPendingConfig_wp; [by apply (wf_trunc n a)|].
  intros _ n' Hcfg. split; [apply (cfgStep_evolves (truncUpd n a)); [by apply evolves_trunc|done|exact Hcfg]|].
  destruct Hcfg as (ps & nx & mt & st & ld & rr & vo & vn & pc & -> & _).
  assert (top (truncUpd n a) = a) as Ht by (apply top_trunc; idx).
  do 4 (split; [done|]). split; [|split; [|left]].
  - intros i Hi'. apply (EntryAt_trunc n a i); [done..|lia].
  - unfold top in *. cbn in Ht |- *. lia.
  - exact Ht.
Qed.

Lemma appendEntry_wp m n :
  wf n -> n_Faulted n = false -> top n < maxu64 -> n_BaseIndex n <= m_LogIndex m < top n ->
  0 <= e_OldVoters (m_Entry m) -> 0 <= e_NewVoters (m_Entry m) ->
  (m_LogIndex m + 1 <= n_Commit n ->
     forall e, EntryAt n (m_LogIndex m + 1) = Some e -> e_Term e = e_Term (m_Entry m)) ->
  wp (appendEntry m)
     (fun ok n' => evolves (top n + 1) 0 n n' /\ n_Faulted n' = negb ok /\ n_Term n' = n_Term n /\ n_Commit n' = n_Commit n /\
        n_BaseIndex n' = n_BaseIndex n /\
        (ok = true -> m_LogIndex m + 1 < top n' /\ stored n (m_LogIndex m + 1) (m_Entry m) n')) n.
Proof.
  intros Hwf Hf Ht Hi Ho Hn Hcom. pose proof Hwf as ((_ & Hb & _) & _).
  unfold appendEntry. wp_pures. rewrite w64_small by idx.
  wp_call appendEntry_cut_wp; [done..|].
  intros _ n1 (Hev & Hf1 & Hb1 & Ht1 & Hc1 & Hpre & Hlt & Hcase). wp_pures.
  pose proof (ev_wf _ _ _ _ Hev) as Hwf1. pose proof (ev_top _ _ _ _ Hev) as Htop1.
  rewrite nextIndex_wf by apply Hwf1. fold (top n1).
  assert (top n1 + 1 <= top n + 1) as Htop2 by lia.
  destruct (Z.eqb_spec (m_LogIndex m + 1) (top n1)) as [Ea|Ea]; wp_pures.
  2: { destruct Hcase as [?|(E & e & He & Het)]; [lia|]. split; [|split_and!; try done].
       - eapply evolves_mono; [exact Hev|lia|lia].
       - intros _. split; [lia|]. split; [intros i ?; apply Hpre; lia|]. exists e. rewrite E. auto. }
  unfold storeOp at 1. unfold wp at 1. destruct (Append _ _ _) as [s [err|]]; wp_pures.
  { wp_call failStorageWith_wp. intros _ n' ->. wp_pures. split; [|by split_and!].
    apply evolves_stop with (n' := n1); [|done]. eapply evolves_mono; [exact Hev|lia|lia]. }
  set (n2 := n1 <| n_Log := n_Log n1 ++ [m_Entry m] |>).
  assert (evolves (top n1 + 1) 0 n n2) as Hev2.
  { eapply evolves_trans; [exact Hev|apply evolves_append; (done || lia)|done]. }
  assert (wf_log n2) as Hl2 by apply (ev_wf _ _ _ _ Hev2).
  assert (stored n (m_LogIndex m + 1) (m_Entry m) n2) as Hsto.
  { split.
    - intros i ?. rewrite <- Hpre by lia. apply EntryAt_app; [apply Hwf1|lia|lia].
    - exists (m_Entry m). split; [|by auto]. rewrite EntryAt_wf by done.
      rewrite decide_True by (unfold n2; nsimp; lia). unfold n2. nsimp.
      rewrite lookup_app_r by idx. replace (Z.to_nat _ - _)%nat with 0%nat by idx. done. }
  assert (m_LogIndex m + 1 < top n2) as Hlt2 by (unfold n2; idx).
  destruct (_ || _); wp_pures.
  2: { split; [|by split_and!]. eapply evolves_mono; [|exact Htop2|reflexivity].
       by apply (evolves_store _ _ _ n2 s). }
  wp_call ensurePeers_cfg; [by apply Z.lor_nonneg|apply Hwf1|apply (ev_wf _ _ _ _ Hev2)|].
  intros _ n3 Hcfg. wp_pures. split.
  - eapply evolves_mono; [|exact Htop2|reflexivity].
    eapply cfgStep_evolves; [| |exact Hcfg]; [|exact Hf1]. destruct Hev2. by split.
  - destruct Hcfg as (ps & nx & mt & st & ld & rr & vo & vn & pc & -> & _). by split_and!.
Qed.

(** The last index an accepted append vouches for. *)
Definition matchedIndex (m : Message) : Z :=
  if m_HasEntry m then m_LogIndex m + 1 else m_LogIndex m.

Lemma appendCommit_wp m n :
  wf n -> n_Faulted n = false -> 0 <= m_LogIndex m -> matchedIndex m < top n ->
  wp (appendCommit m)
     (fun ok n' => evolves (top n) 0 n n' /\ n_Faulted n' = negb ok /\
        (ok = true -> n_Log n' = n_Log n /\ n_BaseIndex n' = n_BaseIndex n /\ n_Term n' = n_Term n /\
           n_ID n' = n_ID n /\ n_outbound n' = n_outbound n /\
           n_Commit n' = Z.max (n_Commit n) (Z.min (m_Commit m) (matchedIndex m)))) n.
Proof.
  intros Hwf Hf Hm0 Hm. pose proof Hwf as (Hl & Hx & _).
  unfold appendCommit. wp_pures.
  assert (m_HasEntry m = true -> w64 (m_LogIndex m + 1) = m_LogIndex m + 1) as Hw.
  { intros He. apply w64_small. unfold matchedIndex in Hm. rewrite He in Hm.
    destruct Hl as (_ & ? & ?). idx. }
  replace (if m_HasEntry m then w64 (m_LogIndex m + 1) else m_LogIndex m) with (matchedIndex m)
    by (unfold matchedIndex; destruct (m_HasEntry m); [by rewrite Hw|done]).
  set (c := Z.min (m_Commit m) (matchedIndex m)).
  destruct (_ && _) eqn:Eg; wp_pures.
  - assert (n_Commit n < c) as Hc.
    { unfold c, matchedIndex. apply andb_prop in Eg as [E1%Z.ltb_lt [E2%Z.ltb_lt|E2]%orb_prop].
      - destruct (m_HasEntry m); lia.
      - apply andb_prop in E2 as [E2 E3]. rewrite E2. rewrite (Hw E2) in E3. lia. }
    wp_call persistHardState_wp. intros [] n1 (s & Hs).
    + destruct Hs as (_ & ->). wp_pures.
      assert (evolves (top n) 0 n (n <| n_store := s |>)) as Hev.
      { by apply evolves_store, evolves_self. }
      wp_call (commit_wp _ _ _ _ _ c Hev); [done|unfold c; cbn; idx|].
      intros _ n2 (Hev2 & Hf2 & Hl2 & Hb2 & Hc2 & Ho2 & Ht2). wp_pures.
      split; [done|]. split; [done|]. intros _. split_and!; try done; [apply Hev2|lia].
    + destruct Hs as (err & _ & ->). wp_pures. split; [|done].
      apply evolves_stop; [by apply evolves_self|done].
  - split; [by apply evolves_self|]. split; [done|]. intros _. split_and!; try done.
    unfold c, matchedIndex in *. destruct (m_HasEntry m).
    + rewrite (Hw eq_refl) in Eg. cbn in Eg. lia.
    + cbn in Eg. lia.
Qed.

Lemma appendRejected_false n m :
  wf_log n -> appendRejected n m = false ->
  n_Term n <= m_Term m /\ n_BaseIndex n <= m_LogIndex m < top n /\
  e_Term (logAt n (m_LogIndex m - n_BaseIndex n)) = m_LogTerm m /\
  (m_HasEntry m = true -> m_LogIndex m + 1 = top n -> validNewEntry n (m_Entry m) = true).
Proof.
  intros Hl. unfold appendRejected, termAt. rewrite offset_wf by done. rewrite nextIndex_wf by done.
  fold (top n). pose proof Hl as (_ & Hb & Hm).
  case_decide as Hd; [|rewrite orb_true_r; by destruct (_ && _)].
  intros E. destruct (_ || _) eqn:Er; cbn [negb andb] in E; [done|].
  apply orb_false_elim in Er as [E1%Z.ltb_ge E2%negb_false_iff%Z.eqb_eq].
  split_and!; try done; try idx. intros He Ht. rewrite He in E. cbn in E.
  rewrite w64_small in E by idx. rewrite Ht, Z.eqb_refl in E. cbn in E.
  by destruct (validNewEntry n (m_Entry m)).
Qed.

(** The answer of [onAppend]. *)
Definition appendResponse n (m : Message) (reject : bool) (matched : Z) : Message :=
  newMessage MsgAppendResponse (n_ID n) (m_From m) (n_Term n)
    <| m_Reject := reject |> <| m_Match := matched |> <| m_Context := m_Context m |>.

(** What an accepted append leaves behind when storage did not fail. *)
Definition accepted n (m : Message) n' : Prop :=
  (if m_HasEntry m then stored n (m_LogIndex m + 1) (m_Entry m) n'
   else forall i, EntryAt n' i = EntryAt n i) /\
  n_Commit n' = Z.max (n_Commit n) (Z.min (m_Commit m) (matchedIndex m)) /\
  n_outbound n' = n_outbound n ++ [appendResponse n m false (matchedIndex m)].

Lemma evolves_out0 b n n' : evolves b 0 n n' -> n_Faulted n' = false -> n_outbound n' = n_outbound n.
Proof.
  intros Hev Hf. destruct (ev_sent _ _ _ _ Hev Hf) as (_ & [|m ms] & E & Hl & _); [|unfold len in Hl; cbn in Hl; lia].
  by rewrite E, app_nil_r.
Qed.

Lemma EntryAt_log n n' i : n_Log n' = n_Log n -> n_BaseIndex n' = n_BaseIndex n -> EntryAt n' i = EntryAt n i.
Proof. intros El Eb. unfold EntryAt, offset, lastIndex, logAt. by rewrite El, Eb. Qed.

Lemma stored_log n a e n' n'' :
  n_Log n'' = n_Log n' -> n_BaseIndex n'' = n_BaseIndex n' -> stored n a e n' -> stored n a e n''.
Proof.
  intros El Eb [H1 (e' & H2 & H3)]. split.
  - intros i Hi. rewrite (EntryAt_log n'); auto.
  - exists e'. rewrite (EntryAt_log n') by done. done.
Qed.

(** The entry step of an accepted append. *)
Lemma appendEntries_wp m n :
  wf n -> n_Faulted n = false -> top n < maxu64 -> msg_ok n m -> m_Type m = MsgAppend ->
  n_BaseIndex n <= m_LogIndex m < top n ->
  wp (if m_HasEntry m then appendEntry m else mret true)
     (fun ok n' => evolves (top n + 1) 0 n n' /\ n_Faulted n' = negb ok /\ n_Term n' = n_Term n /\ n_Commit n' = n_Commit n /\
        (ok = true -> matchedIndex m < top n' /\
           if m_HasEntry m then stored n (m_LogIndex m + 1) (m_Entry m) n'
           else forall i, EntryAt n' i = EntryAt n i)) n.
Proof.
  intros Hwf Hf Ht Hok Hty Hi. unfold matchedIndex. destruct (m_HasEntry m) eqn:He.
  - wp_call appendEntry_wp; try done; try apply (mo_entry _ _ Hok); [by apply (mo_append _ _ Hok)|].
    intros ok n' (Hev & Hf' & Ht' & Hc' & _ & Hst). by split_and!.
  - wp_pures. split; [|split_and!; try done; intros _; split; [lia|done]]. apply evolves_self; [done|done|lia|lia].
Qed.

Lemma onAppend_wp m n :
  wf n -> n_Faulted n = false -> top n < maxu64 -> room n 1 -> msg_ok n m -> m_Type m = MsgAppend ->
  wp (onAppend m)
     (fun _ n' => evolves (top n + 1) 1 n n' /\
        (n_Faulted n' = false ->
           if appendRejected n m
           then n' = n <| n_outbound := n_outbound n ++ [appendResponse n m true (top n - 1)] |>
           else accepted n m n')) n.
Proof.
  intros Hwf Hf Htop Hr Hok Hty. pose proof (mo_from _ _ Hok) as Hid. unfold onAppend. wp_pures.
  destruct (appendRejected n m) eqn:Erej; wp_pures.
  { rewrite lastIndex_wf by apply Hwf. apply send_wp; [done|]. split; [|done].
    eapply evolves_mono; [by apply evolves_send|lia|lia]. }
  apply appendRejected_false in Erej as (_ & Hi & _); [|apply Hwf].
  set (n1 := n <| n_State := Follower |> <| n_Leader := m_From m |> <| n_elapsed := 0 |>).
  assert (evolves (top n) 0 n n1) as Hev1.
  { apply (evolves_quiet 0 n n1 []); try done. by rewrite app_nil_r. }
  assert (msg_ok n1 m) as Hok1 by (destruct Hok; by split).
  wp_call (appendEntries_wp m n1); [done..|].
  intros ok n2 (Hev2 & Hf2 & Ht2 & Hc2 & Hres). pose proof (evolves_trans _ _ _ _ 0 _ _ _ Hev1 Hev2 ltac:(lia)) as Hev.
  destruct ok; wp_pures.
  2: { split; [|by rewrite Hf2]. eapply evolves_mono; [exact Hev|reflexivity|lia]. }
  destruct (Hres eq_refl) as (Hm & Hst).
  wp_call (appendCommit_wp m n2); [apply Hev2|done|apply Hok|done|].
  intros ok n3 (Hev3 & Hf3 & Hres3).
  pose proof (evolves_trans _ _ _ _ 0 _ _ _ Hev Hev3 ltac:(lia)) as Hev'.
  destruct ok; wp_pures.
  2: { split; [|by rewrite Hf3]. eapply evolves_mono; [exact Hev'|by apply Hev|lia]. }
  destruct (Hres3 eq_refl) as (El & Eb & Et & Eid & Eo & Ec).
  replace (if m_HasEntry m then w64 (m_LogIndex m + 1) else m_LogIndex m) with (matchedIndex m).
  2: { unfold matchedIndex in *. destruct (m_HasEntry m); [|done]. symmetry. apply w64_small.
       pose proof (mo_index _ _ Hok). idx. }
  assert (n_outbound n3 = n_outbound n) as Eout.
  { by apply (evolves_out0 _ _ _ Hev'). }
  apply send_wp; [by eapply evolves_room|]. split.
  - apply (evolves_mono (top n3) _ 1); [|etransitivity; [exact (ev_top _ _ _ _ Hev')|exact (ev_top _ _ _ _ Hev)]|done].
    eapply evolves_trans; [exact Hev'|apply evolves_send; [apply Hev'|done|]|done].
    by split.
  - intros _. split; [|split].
    + cbn [n_Log]. destruct (m_HasEntry m); [by eapply stored_log|].
      intros i. etransitivity; [by apply (EntryAt_log n2)|exact (Hst i)].
    + cbn. by rewrite Ec, Hc2.
    + cbn. rewrite Eout, Et, Eid. unfold appendResponse.
      by rewrite (ev_id _ _ _ _ Hev), Ht2.
Qed.

(** ** Log replication, leader side *)

(** The nodes known to hold index [idx]: the leader and every peer whose match
    index reached it. *)
Definition ackedOf n (idx : Z) : Z :=
  foldl (fun acked p => if idx <=? mapGet (n_match n) p then Z.lor acked (Z.shiftl 1 (p - 1)) else acked)
    (Z.shiftl 1 (n_ID n - 1)) (n_Peers n).

(** The voters that decide on index [idx]: the committed ones overridden by the
    last joint entry up to [idx]. *)
Definition commitVoters n (idx : Z) : Z * Z :=
  foldl jointOver (n_votersOld n, n_votersNew n) (entries n (n_Commit n + 1) (idx - n_Commit n)).

Definition commitQuorum n (idx : Z) : bool :=
  quorum (commitVoters n idx).1 (commitVoters n idx).2 (ackedOf n idx).

Lemma ackedMask_wf n idx : wf_peers n -> ackedMask idx n = Done (ackedOf n idx) n.
Proof.
  intros (Hid & Hps & _). unfold ackedMask, mbind at 1 2, M_bind at 1 2, get.
  rewrite bitOf_wf by done. unfold ackedOf. generalize (Z.shiftl 1 (n_ID n - 1)).
  induction Hps as [|p l Hp _ IH]; intros acked; [done|]. cbn [foldM foldl].
  unfold mbind, M_bind at 1. destruct (idx <=? mapGet (n_match n) p); [|apply IH].
  unfold M_bind at 1. rewrite bitOf_wf by done. apply IH.
Qed.

Lemma canCommitIndex_wf n idx acked :
  wf n -> n_Commit n < idx < top n ->
  canCommitIndex idx acked n =
    Done (quorum (commitVoters n idx).1 (commitVoters n idx).2 acked) n.
Proof.
  intros Hwf Hi. destruct (commit_u64 n Hwf) as [Hc _]. pose proof Hwf as (Hl & Hx & _).
  unfold canCommitIndex, mbind at 1 2, M_bind at 1 2, get. rewrite w64_small by done.
  rewrite (foldM_ext _ (fun b i => e ← entryAt i; mret (jointOver b e))) by (by intros []).
  replace (idx - (n_Commit n + 1) + 1) with (idx - n_Commit n) by lia.
  rewrite foldM_entries by (done || idx). fold (commitVoters n idx). by destruct (commitVoters n idx).
Qed.

Definition commitRule n (idx : Z) : Prop :=
  (exists e, EntryAt n idx = Some e /\ e_Term e = n_Term n) /\ commitQuorum n idx = true.

Lemma commitLoop_wp (l : list Z) n :
  wf n -> n_Faulted n = false -> room n 63 -> Forall (fun idx => n_Commit n < idx < top n) l ->
  wp (commitLoop l)
     (fun ret n' => evolves (top n) 63 n n' /\ n_Faulted n' = ret /\
        (ret = false -> n_Commit n' = n_Commit n \/ n_Commit n' ∈ l /\ commitRule n (n_Commit n'))) n.
Proof.
  intros Hwf Hf Hr Hl. pose proof Hwf as (Hlog & Hx & Hp & _).
  induction Hl as [|idx l Hi Hl IH]; cbn [commitLoop].
  { wp_pures. split; [by apply evolves_self|]. auto. }
  wp_pures. eapply wp_det; [apply termAtMust_wf; [done|idx]|].
  assert (forall ret n', (evolves (top n) 63 n n' /\ n_Faulted n' = ret /\
    (ret = false -> n_Commit n' = n_Commit n \/ n_Commit n' ∈ l /\ commitRule n (n_Commit n'))) ->
    evolves (top n) 63 n n' /\ n_Faulted n' = ret /\
    (ret = false -> n_Commit n' = n_Commit n \/ n_Commit n' ∈ idx :: l /\ commitRule n (n_Commit n'))) as Hw.
  { set_solver. }
  destruct (Z.eqb_spec (e_Term (logAt n (idx - n_BaseIndex n))) (n_Term n)) as [Et|Et]; cbn [negb].
  2: { eapply wp_mono; [exact IH|]. exact Hw. }
  wp_pures. eapply wp_det; [by apply ackedMask_wf|]. wp_pures.
  eapply wp_det; [by apply canCommitIndex_wf|]. fold (commitQuorum n idx).
  destruct (commitQuorum n idx) eqn:Eq; [|eapply wp_mono; [exact IH|exact Hw]]. clear IH Hw.
  wp_pures. wp_call persistHardState_wp. intros [] n1 (s & Hs).
  2: { destruct Hs as (err & _ & ->). wp_pures. split; [|done].
       apply evolves_stop; [by apply evolves_self|done]. }
  destruct Hs as (_ & ->). wp_pures.
  assert (evolves (top n) 0 n (n <| n_store := s |>)) as Hev by (by apply evolves_store, evolves_self).
  wp_call (commit_wp _ _ _ _ _ idx Hev); [done|cbn; idx|].
  intros _ n2 (Hev2 & Hf2 & Hl2 & Hb2 & Hc2 & Ho2 & Ht2). wp_pures.
  assert (commitRule n idx) as Hrule.
  { split; [|done]. eexists. split; [|exact Et]. rewrite EntryAt_wf by done.
    rewrite decide_True by idx. apply logAt_lookup; idx. }
  case_decide; wp_pures.
  2: { split; [by eapply evolves_mono|]. split; [done|]. intros _. right. rewrite Hc2. set_solver. }
  wp_call broadcastAppend_evolves; [apply Hev2|done|by eapply evolves_room|].
  intros _ n3 (Hev3 & Hf3 & Hc3). wp_pures. split; [|split; [done|]].
  - eapply evolves_mono; [eapply evolves_trans; [exact Hev2|exact Hev3|reflexivity]|apply Hev2|done].
  - intros _. right. rewrite Hc3, Hc2. set_solver.
Qed.

(** A node after a read acknowledgement. *)
Definition readUpd n (ack i : Z) (ready : bool) : Node S :=
  n <| n_readAckMask := ack |> <| n_readIndex := i |> <| n_readReady := ready |>.

Definition matchUpd n (p i : Z) : Node S := n <| n_match := <[p := i]> (n_match n) |>.

(** The read-barrier half of [onAppendResponse]. *)
Lemma readAck_wp m n :
  wf n -> valid_id (m_From m) ->
  wp (if bool_decide (n_State n = Leader) && (m_Term m =? n_Term n) && negb (m_Reject m) &&
         negb (m_Context m =? 0) && (m_Context m =? n_readContext n) then
        v ← isVoter (m_From m);
        if v : bool then
          bit ← bitOf (m_From m);
          modify (fun n => n <| n_readAckMask := Z.lor (n_readAckMask n) bit |>) ;;
          n ← get;
          q ← quorumMask (n_readAckMask n);
          if q : bool then
            modify (fun n => n <| n_readIndex := n_Commit n |> <| n_readReady := true |>)
          else mret ()
        else mret ()
      else mret ())
     (fun _ n' => exists ack i r, n' = readUpd n ack i r) n.
Proof.
  intros Hwf Hid.
  assert (n = readUpd n (n_readAckMask n) (n_readIndex n) (n_readReady n)) as Eself by by destruct n.
  destruct (_ && _); [|wp_pures; eauto]. wp_pures. eapply wp_det; [by apply isVoter_wf|].
  destruct (isVoterOf _ _); [|wp_pures; eauto]. wp_pures.
  eapply wp_det; [by apply bitOf_wf|]. wp_pures. eapply wp_det; [by apply quorumMask_wf|].
  destruct (quorumOf _ _); wp_pures.
  - eexists _, _, _. reflexivity.
  - exists (Z.lor (n_readAckMask n) (Z.shiftl 1 (m_From m - 1))), (n_readIndex n), (n_readReady n).
    clear. by destruct n.
Qed.

Lemma onAppendResponse_wp m n :
  wf n -> n_Faulted n = false -> room n 64 -> valid_id (m_From m) ->
  wp (onAppendResponse m)
     (fun _ n' => evolves (top n) 64 n n' /\
        (n_Faulted n' = false -> n_Commit n' = n_Commit n \/
           n_State n = Leader /\ n_Commit n < n_Commit n' /\
           commitRule (matchUpd n (m_From m) (m_Match m)) (n_Commit n'))) n.
Proof.
  intros Hwf Hf Hr Hid. unfold onAppendResponse. wp_pures.
  wp_call readAck_wp; [done..|]. intros _ n1 (ack & i & r & ->). wp_pures.
  set (n1 := readUpd n ack i r).
  assert (forall b k n', evolves b k n1 n' -> evolves b k n n') as Hback.
  { intros b k n' []. by split. }
  destruct (_ || _ || _) eqn:Eg; wp_pures.
  { split; [|by left]. apply Hback. apply evolves_self; [done|done|reflexivity|done]. }
  apply orb_false_elim in Eg as [[Es%negb_false_iff%bool_decide_eq_true_1 _]%orb_false_elim _].
  destruct (m_Reject m).
  { wp_pures. apply (wp_mono _ (fun _ n' => exists nx, n' = n1 <| n_next := nx |>)).
    { destruct (1 <? _); wp_pures; [by eauto|]. exists (n_next n1). clear. by destruct n. }
    intros _ n2 (nx & ->). wp_call (appendToContext_evolves (m_From m) 0); [done..|by apply (room_le n 64)|done|].
    intros _ n3 (Hev & _ & Hc). split; [|by left].
    apply (evolves_mono (top n) _ 1); [|done|done]. destruct Hev. by split. }
  wp_pures. set (n2 := n1 <| n_match := _ |> <| n_next := _ |>).
  assert (forall b k n', evolves b k n2 n' -> evolves b k n n') as Hback2.
  { intros b k n' []. by split. }
  wp_call (commitLoop_wp _ n2); [done|done|by apply (room_le n 64)| |].
  { apply Forall_reverse, Forall_forall. intros idx Hx%elem_of_seqZ.
    rewrite lastIndex_wf in Hx by apply Hwf. unfold top. lia. }
  intros ret n3 (Hev3 & Hf3 & Hcom). apply Hback2 in Hev3. wp_pures.
  assert (n_Faulted n3 = false -> n_Commit n3 = n_Commit n \/ n_State n = Leader /\
    n_Commit n < n_Commit n3 /\ commitRule (matchUpd n (m_From m) (m_Match m)) (n_Commit n3)) as Hcom'.
  { intros Hf'. destruct Hcom as [?|[Hin Hrule]]; [congruence|by left|right].
    split; [done|]. split; [|exact Hrule].
    apply elem_of_reverse, elem_of_seqZ in Hin. cbn in Hin. lia. }
  destruct (ret || _) eqn:Eret; wp_pures.
  { split; [|done]. eapply evolves_mono; [exact Hev3|reflexivity|done]. }
  apply orb_false_elim in Eret as [-> _].
  destruct (_ <? _).
  2: { wp_pures. split; [|done]. eapply evolves_mono; [exact Hev3|reflexivity|done]. }
  wp_call (appendToContext_evolves (m_From m) 0); [apply Hev3|done|by eapply evolves_room|done|].
  intros _ n4 (Hev4 & _ & Hc4). split; [|rewrite Hc4; auto].
  eapply evolves_mono; [|exact (ev_top _ _ _ _ Hev3)|reflexivity].
  eapply evolves_trans; [exact Hev3|exact Hev4|done].
Qed.

(** ** Snapshots *)

(** The log kept when a snapshot at [idx] with [term] is installed. *)
Definition installLog n (idx term : Z) : list Entry :=
  match offset n idx with
  | Some off =>
      if e_Term (logAt n off) =? term then drop (Z.to_nat off) (n_Log n)
      else [zeroEntry <| e_Term := term |>]
  | None => [zeroEntry <| e_Term := term |>]
  end.

Definition installUpd n (m : Message) : Node S :=
  n <| n_Log := installLog n (m_SnapshotIndex m) (m_SnapshotTerm m) |>
    <| n_BaseIndex := m_SnapshotIndex m |> <| n_BaseTerm := m_SnapshotTerm m |>
    <| n_snapshot := mkSnapshot (m_SnapshotIndex m) (m_SnapshotTerm m) (m_Snapshot m)
                       (m_SnapshotOld m) (m_SnapshotNew m) |>
    <| n_votersOld := m_SnapshotOld m |> <| n_votersNew := m_SnapshotNew m |>
    <| n_Commit := Z.max (n_Commit n) (m_SnapshotIndex m) |>
    <| n_Applied := Z.max (n_Applied n) (m_SnapshotIndex m) |>.

(** Either the log is kept from the snapshot on, or the snapshot is beyond
    everything committed. *)
Lemma installLog_cases n m :
  wf n -> msg_ok n m -> m_Type m = MsgInstallSnapshot -> n_BaseIndex n < m_SnapshotIndex m ->
  let log := installLog n (m_SnapshotIndex m) (m_SnapshotTerm m) in
  (m_SnapshotIndex m < top n /\
   log = drop (Z.to_nat (m_SnapshotIndex m - n_BaseIndex n)) (n_Log n)) \/
  (n_Commit n < m_SnapshotIndex m /\ log = [zeroEntry <| e_Term := m_SnapshotTerm m |>]).
Proof.
  intros Hwf Hok Hty Hb. pose proof Hwf as (Hl & Hx & _). cbn zeta. unfold installLog.
  rewrite offset_wf by done. case_decide as Hd; [|right; split; [idx|done]].
  destruct (Z.eqb_spec (e_Term (logAt n (m_SnapshotIndex m - n_BaseIndex n))) (m_SnapshotTerm m)) as [E|E];
    [left; split; [idx|done]|right].
  split; [|done]. destruct (decide (n_Commit n < m_SnapshotIndex m)) as [|Hge]; [done|].
  exfalso. apply E. apply (mo_install _ _ Hok Hty); [lia|].
  rewrite EntryAt_wf by done. rewrite decide_True by lia. apply logAt_lookup; idx.
Qed.

Lemma wf_install n m :
  wf n -> msg_ok n m -> m_Type m = MsgInstallSnapshot -> n_BaseIndex n < m_SnapshotIndex m ->
  wf (installUpd n m) /\ top (installUpd n m) <= Z.max (top n) (m_SnapshotIndex m + 1) /\
  (forall i, m_SnapshotIndex m < i <= n_Commit n -> EntryAt (installUpd n m) i = EntryAt n i).
Proof.
  intros Hwf Hok Hty Hb. pose proof Hwf as (Hl & Hx & Hp & (_ & _ & Hvl)).
  pose proof (mo_snap _ _ Hok). pose proof (mo_masks _ _ Hok) as [? ?].
  pose proof (installLog_cases n m Hwf Hok Hty Hb) as Hcase. cbn zeta in Hcase.
  set (log := installLog _ _ _) in *. pose proof Hl as (_ & ? & ?).
  assert (wf (installUpd n m) /\ top (installUpd n m) <= Z.max (top n) (m_SnapshotIndex m + 1)) as [Hwf' Ht'].
  { unfold wf, wf_log, wf_index, wf_voters, top, installUpd. nsimp. fold log.
    destruct Hcase as [(Hlt & ->)|(Hlt & ->)].
    - assert (len (drop (Z.to_nat (m_SnapshotIndex m - n_BaseIndex n)) (n_Log n)) = top n - m_SnapshotIndex m) as E.
      { unfold len, top in *. rewrite length_drop. unfold len in *. lia. }
      rewrite E. split_and!; try done; try idx.
      + intros E0. rewrite E0 in E. cbn in E. idx.
      + by apply Forall_drop.
    - cbn. split_and!; try done; try idx. apply Forall_singleton. cbn. done. }
  split; [done|]. split; [done|]. intros i Hi.
  rewrite !EntryAt_wf by (done || apply Hwf'). unfold installUpd. nsimp. fold log.
  rewrite !decide_True by lia. destruct Hcase as [(Hlt & ->)|(Hlt & ->)]; [|lia].
  rewrite lookup_drop. f_equal. lia.
Qed.

Lemma evolves_install n m :
  wf n -> n_Faulted n = false -> msg_ok n m -> m_Type m = MsgInstallSnapshot ->
  n_BaseIndex n < m_SnapshotIndex m ->
  evolves (Z.max (top n) (m_SnapshotIndex m + 1)) 0 n (installUpd n m).
Proof.
  intros Hwf Hf Hok Hty Hb. destruct (wf_install n m Hwf Hok Hty Hb) as (Hwf' & Ht & Hk).
  split; try done; try (cbn; lia).
  - cbn. congruence.
  - intros _. split; [done|]. exists []. by rewrite app_nil_r.
Qed.

Lemma storeOp_wp (op : S -> S * option error) n (Q : option error -> Node S -> Prop) :
  (forall s err, op (n_store n) = (s, err) -> Q err (n <| n_store := s |>)) -> wp (storeOp op) Q n.
Proof. intros H. unfold wp, storeOp. destruct (op (n_store n)) as [s err] eqn:E. by apply H. Qed.

(** A failed store call stops the node. *)
Lemma storeFail_wp {A} b k n0 n (a : A) err :
  evolves b k n0 n ->
  wp (failStorageWith err ;; mret a)
     (fun a' n' => a' = a /\ evolves b k n0 n' /\ n_Faulted n' = true) n.
Proof.
  intros Hev. wp_pures. wp_call failStorageWith_wp. intros _ n' ->. wp_pures.
  split; [done|]. split; [by apply evolves_stop|done].
Qed.

Lemma installSnapshot_wp m n :
  wf n -> n_Faulted n = false -> msg_ok n m -> m_Type m = MsgInstallSnapshot ->
  n_BaseIndex n < m_SnapshotIndex m ->
  wp (installSnapshot m)
     (fun ok n' => evolves (Z.max (top n) (m_SnapshotIndex m + 1)) 0 n n' /\ n_Faulted n' = negb ok /\
        (ok = true -> exists s, n' = installUpd n m <| n_store := s |>)) n.
Proof.
  intros Hwf Hf Hok Hty Hb. set (b := Z.max _ _).
  assert (forall s, evolves b 0 n (n <| n_store := s |>)) as Hself.
  { intros s. apply evolves_store, evolves_self; [done|done|unfold b; lia|done]. }
  unfold installSnapshot. destruct AsSnapshotStore as [ops|].
  2: { wp_pures. wp_call failStorage_wp. intros _ n' (e & He & ->). wp_pures.
       split; [|done]. apply evolves_stop; [|done]. specialize (Hself (n_store n)). by destruct n. }
  wp_pures. apply storeOp_wp. intros s [err|] _.
  { wp_call (storeFail_wp b 0 n); [done|]. intros a' n' (-> & ? & ?). by split_and!. }
  wp_pures. apply storeOp_wp. intros s' [err|] _.
  { wp_call (storeFail_wp b 0 n); [apply (Hself s')|]. intros a' n' (-> & ? & ?). by split_and!. }
  wp_pures. split; [|split; [done|]].
  - apply (evolves_store _ _ _ (installUpd n m) s'). by apply evolves_install.
  - intros _. exists s'. unfold installUpd. nrefl.
Qed.

Lemma onInstallSnapshot_wp m n :
  wf n -> n_Faulted n = false -> room n 1 -> msg_ok n m -> m_Type m = MsgInstallSnapshot ->
  wp (onInstallSnapshot m)
     (fun _ n' => evolves (Z.max (top n) (m_SnapshotIndex m + 1)) 1 n n') n.
Proof.
  intros Hwf Hf Hr Hok Hty. pose proof (mo_from _ _ Hok). set (b := Z.max _ _).
  unfold onInstallSnapshot. wp_pures. set (reject := _ || _).
  apply (wp_mono _ (fun ok n' => evolves b 0 n n' /\ n_Faulted n' = negb ok)).
  { destruct (negb reject && (n_BaseIndex n <? m_SnapshotIndex m)) eqn:E.
    - apply andb_prop in E as [_ E%Z.ltb_lt]. wp_call installSnapshot_wp; [done..|].
      intros ok n' (Hev & ? & _). done.
    - wp_pures. split; [|done]. apply evolves_self; [done|done|unfold b; lia|done]. }
  intros [] n1 [Hev Hf1]; wp_pures; [|eapply evolves_mono; [exact Hev|reflexivity|done]].
  apply (wp_mono _ (fun _ n' => evolves b 0 n n' /\ n_Faulted n' = false)).
  { destruct reject; wp_pures; [done|]. split; [|done]. destruct Hev. split; try done.
    cbn in *. congruence. }
  intros _ n2 [Hev2 Hf2]. wp_pures. apply send_wp; [by eapply evolves_room|].
  eapply evolves_mono; [|exact (ev_top _ _ _ _ Hev2)|reflexivity].
  eapply evolves_trans; [exact Hev2|apply evolves_send; [apply Hev2|done|by split]|done].
Qed.

Lemma onInstallSnapshotResponse_wp m n :
  wf n -> n_Faulted n = false -> room n 1 -> valid_id (m_From m) ->
  wp (onInstallSnapshotResponse m) (fun _ n' => evolves (top n) 1 n n') n.
Proof.
  intros Hwf Hf Hr Hid. unfold onInstallSnapshotResponse. wp_pures.
  destruct (_ || _); wp_pures; [by apply evolves_self|].
  eapply wp_det; [by apply isVoter_wf|]. destruct (isVoterOf _ _); wp_pures; [|by apply evolves_self].
  apply (wp_mono _ (fun _ n' => exists mt nx, n' = n <| n_match := mt |> <| n_next := nx |>)).
  { destruct (_ <? _); wp_pures; [by eauto|]. exists (n_match n), (n_next n). by destruct n. }
  intros _ n1 (mt & nx & ->). wp_pures. destruct (_ <=? _).
  - wp_call (appendToContext_evolves (m_From m) 0); [done..|]. intros _ n2 ([] & _). by split.
  - wp_pures. destruct (evolves_self n Hwf Hf (top n) 1 ltac:(lia) ltac:(lia)). by split.
Qed.

(** ** Dispatch *)

Lemma onPreVoteResponse_wp m n :
  wf n -> n_Faulted n = false -> top n < maxu64 -> 0 <= n_Term n < maxu64 -> room n 126 ->
  valid_id (m_From m) ->
  wp (onPreVoteResponse m) (fun _ n' => evolves (top n + 1) 126 n n') n.
Proof.
  intros Hwf Hf Ht Htm Hr Hid. pose proof (evolves_self n Hwf Hf (top n + 1) 126 ltac:(lia) ltac:(lia)) as Hself.
  unfold onPreVoteResponse. wp_pures. destruct (bool_decide _); wp_pures; [done|].
  eapply wp_det; [by apply isVoter_wf|]. destruct (_ && _); wp_pures; [|done].
  eapply wp_det; [by apply bitOf_wf|]. wp_pures. eapply wp_det; [by apply quorumMask_wf|].
  destruct (quorumOf _ _); wp_pures.
  - wp_call startElection_wp; [done..|]. intros _ n' []. by split.
  - destruct Hself. by split.
Qed.

Lemma onVoteResponse_wp m n :
  wf n -> n_Faulted n = false -> top n < maxu64 -> room n 63 -> valid_id (m_From m) ->
  wp (onVoteResponse m) (fun _ n' => evolves (top n + 1) 63 n n') n.
Proof.
  intros Hwf Hf Ht Hr Hid. pose proof (evolves_self n Hwf Hf (top n + 1) 63 ltac:(lia) ltac:(lia)) as Hself.
  unfold onVoteResponse. wp_pures. destruct (negb _); wp_pures; [done|].
  eapply wp_det; [by apply isVoter_wf|]. destruct (_ && _); wp_pures; [|done].
  eapply wp_det; [by apply bitOf_wf|]. wp_pures. eapply wp_det; [by apply quorumMask_wf|].
  destruct (quorumOf _ _); wp_pures.
  - wp_call becomeLeader_wp; [done..|]. intros _ n' []. by split.
  - destruct Hself. by split.
Qed.

(** The bound [Step] keeps the log under. *)
Definition stepTop n (m : Message) : Z := Z.max (top n + 1) (m_SnapshotIndex m + 1).

Lemma dispatch_wp m n :
  wf n -> n_Faulted n = false -> top n < maxu64 -> 0 <= n_Term n < maxu64 -> room n 126 ->
  msg_ok n m -> wp (dispatch m) (fun _ n' => evolves (stepTop n m) 126 n n') n.
Proof.
  intros Hwf Hf Ht Htm Hr Hok. pose proof (mo_from _ _ Hok) as Hid.
  assert (forall b k n', evolves b k n n' -> b <= stepTop n m -> k <= 126 ->
    evolves (stepTop n m) 126 n n') as Hmono by (intros; by eapply evolves_mono).
  assert (room n 1 /\ room n 63 /\ room n 64) as (? & ? & ?) by (split_and!; by apply (room_le n 126)).
  assert (top n <= stepTop n m /\ top n + 1 <= stepTop n m /\
          Z.max (top n) (m_SnapshotIndex m + 1) <= stepTop n m) as (? & ? & ?) by (unfold stepTop; lia).
  unfold dispatch.
  destruct (m_Type m =? MsgPreVote); [wp_call onPreVote_wp; [done..|]; intros _ n' Hev; by apply (Hmono _ _ _ Hev)|].
  destruct (m_Type m =? MsgPreVoteResponse); [wp_call onPreVoteResponse_wp; [done..|]; intros _ n' Hev; by apply (Hmono _ _ _ Hev)|].
  destruct (m_Type m =? MsgRequestVote); [wp_call onVote_wp; [done..|]; intros _ n' Hev; by apply (Hmono _ _ _ Hev)|].
  destruct (m_Type m =? MsgRequestVoteResponse); [wp_call onVoteResponse_wp; [done..|]; intros _ n' Hev; by apply (Hmono _ _ _ Hev)|].
  destruct (Z.eqb_spec (m_Type m) MsgAppend); [wp_call onAppend_wp; [done..|]; intros _ n' [Hev _]; by apply (Hmono _ _ _ Hev)|].
  destruct (m_Type m =? MsgAppendResponse); [wp_call onAppendResponse_wp; [done..|]; intros _ n' [Hev _]; by apply (Hmono _ _ _ Hev)|].
  destruct (Z.eqb_spec (m_Type m) MsgInstallSnapshot); [wp_call onInstallSnapshot_wp; [done..|]; intros _ n' Hev; by apply (Hmono _ _ _ Hev)|].
  destruct (m_Type m =? MsgInstallSnapshotResponse); [wp_call onInstallSnapshotResponse_wp; [done..|]; intros _ n' Hev; by apply (Hmono _ _ _ Hev)|].
  destruct (m_Type m =? MsgTimeoutNow); [|wp_pures; by apply evolves_self].
  unfold onTimeoutNow. wp_pures.
  destruct (_ && _); [wp_call startElection_wp; [done..|]; intros _ n' Hev; by apply (Hmono _ _ _ Hev)|wp_pures; by apply evolves_self].
Qed.

Lemma stepTerm_wp m n :
  wf n -> n_Faulted n = false ->
  wp (stepTerm m)
     (fun ok n' => evolves (top n) 0 n n' /\ n_Faulted n' = negb ok /\ top n' = top n /\
        n_Commit n' = n_Commit n /\ n_Log n' = n_Log n /\ n_BaseIndex n' = n_BaseIndex n /\
        (n_Term n' = n_Term n \/ n_Term n' = m_Term m)) n.
Proof.
  intros Hwf Hf. unfold stepTerm. wp_pures. destruct (_ && _) eqn:E; wp_pures.
  2: { split; [by apply evolves_self|]. split_and!; (done || by left). }
  apply andb_prop in E as [_ E%Z.ltb_lt].
  wp_call persistHardState_wp. intros [] n1 (s & Hs).
  - destruct Hs as (_ & ->). wp_pures. split; [|split_and!; (done || by right)].
    split; try done; cbn; try lia; [congruence|]. intros _. split; [done|].
    exists []. by rewrite app_nil_r.
  - destruct Hs as (err & _ & ->). wp_pures. split; [|split_and!; (done || by left)].
    apply evolves_stop; [by apply evolves_self|done].
Qed.

Lemma msg_ok_log n n' m :
  n_Commit n' = n_Commit n -> n_Log n' = n_Log n -> n_BaseIndex n' = n_BaseIndex n ->
  msg_ok n m -> msg_ok n' m.
Proof.
  intros Ec El Eb []. split; try done; rewrite Ec; intros; rewrite (EntryAt_log n n') in *; eauto.
Qed.

Lemma Step_wp m n :
  node_inv n -> msg_ok n m -> top n < maxu64 -> n_Term n < maxu64 -> m_Term m < maxu64 ->
  room n 126 -> wp (Step m) (fun _ n' => evolves (stepTop n m) 126 n n') n.
Proof.
  intros (Hwf & Ht0 & Hst) Hok Htop Ht Hmt Hr. unfold Step. wp_pures.
  destruct (n_Faulted n) eqn:Hf; wp_pures.
  { eapply evolves_mono; [apply evolves_refl; [done|auto]|unfold stepTop; lia|lia]. }
  wp_call stepTerm_wp; [done..|]. intros ok n1 (Hev & Hf1 & Et & Ec & El & Eb & Etm).
  destruct ok; wp_pures; [|eapply evolves_mono; [exact Hev|unfold stepTop; lia|lia]].
  pose proof (mo_term _ _ Hok). pose proof (ev_term _ _ _ _ Hev).
  wp_call (dispatch_wp m n1); [apply Hev|done|lia|lia|by eapply evolves_room|by apply (msg_ok_log n)|].
  intros _ n2 Hev2. unfold stepTop in *. rewrite Et in Hev2.
  eapply evolves_trans; [exact Hev|exact Hev2|done].
Qed.

Lemma evolves_inv b k n n' : node_inv n -> evolves b k n n' -> node_inv n'.
Proof.
  intros (_ & Ht & _) Hev. split; [apply Hev|]. split; [|apply Hev].
  pose proof (ev_term _ _ _ _ Hev). lia.
Qed.

End step.
