(* ===== verification/RaftClient.v ===== *)
(** * Client operations, compaction, application and recovery

    Specifications of the operations the embedding program calls: proposals,
    read barriers, leadership transfer, [Compact], [ApplyEntries], [Drain] and
    the two recovery constructors. *)

From S2P Require Import Prelude RaftTypes Quorum RaftNode RaftInv RaftStep.

Section client.
Context {S : Type} `{!StableStore S}.
Implicit Types n : Node S.

(** ** Proposals *)

(** What a proposal of entry [e] does: refused without effect, stopped by a
    storage failure, or appended after the old log. *)
Definition proposed n (e : Entry) (ok : bool) n' : Prop :=
  if ok then n_State n = Leader /\ n_Faulted n' = false /\ n_Log n' = n_Log n ++ [e]
  else n' = n \/ n_Faulted n' = true.

(** Accepted only when allowed, and refused only when not allowed or stopped. *)
Definition accepts (allowed : Prop) (ok : bool) n' : Prop :=
  if ok then allowed else ~ allowed \/ n_Faulted n' = true.

Definition leads n : Prop := n_State n = Leader /\ n_Faulted n = false.

Lemma leads_guard n : negb (bool_decide (n_State n = Leader)) || n_Faulted n = false <-> leads n.
Proof.
  unfold leads. rewrite orb_false_iff, negb_false_iff, bool_decide_eq_true. done.
Qed.

Definition requestAllowed n (op cid rid : Z) : Prop :=
  leads n /\ cid <> 0 /\ rid <> 0 /\ (op = CommandPut \/ op = CommandDelete).
Definition finalAllowed n : Prop := leads n /\ n_votersNew n <> 0 /\ n_pendingConfig n = 0.
Definition jointAllowed n (valid : bool) : Prop :=
  valid = true /\ leads n /\ n_votersNew n = 0 /\ n_pendingConfig n = 0.

(** Append locally, note a pending configuration if there is one, broadcast. *)
Lemma propose_wp e (pend : Node S -> Node S) n :
  wf n -> n_Faulted n = false -> top n < maxu64 -> room n 63 -> n_State n = Leader ->
  0 <= e_OldVoters e -> 0 <= e_NewVoters e ->
  (forall n, exists pc, pend n = n <| n_pendingConfig := pc |>) ->
  wp (ok ← appendLocal e;
      if ok : bool then modify pend ;; broadcastAppend ;; mret true else mret false)
     (fun ok n' => evolves (top n + 1) 63 n n' /\ proposed n e ok n' /\
        (ok = false -> n_Faulted n' = true)) n.
Proof.
  intros Hwf Hf Ht Hr Hs Ho Hn Hpend. wp_pures. wp_call appendLocal_wp; [done..|].
  intros ok n1 (Hev & Hf1 & _ & _ & Hlog).
  destruct ok; wp_pures.
  2: { split; [eapply evolves_mono; [exact Hev|lia|lia]|]. split; [by right|done]. }
  destruct (Hpend n1) as [pc ->]. set (n2 := n1 <| n_pendingConfig := pc |>).
  assert (wf n2) as Hwf2 by apply Hev.
  assert (room n2 63) as Hr2 by (apply (evolves_room _ 0 63 n n1 Hev Hf1 Hr)).
  pose proof (peers_le n2 ltac:(apply Hwf2)) as Hle.
  wp_call (broadcastAppend_wp n2); [done|apply (room_le _ 63); [done|lia]|].
  intros _ n3 (nx & ms & -> & Hl & Hms). wp_pures. split; [|split; [|done]; split; [done|]; split; [done|by apply Hlog]].
  eapply evolves_mono; [|exact (ev_top _ _ _ _ Hev)|reflexivity].
  apply (evolves_trans _ _ 0 63 63 _ n1 _ Hev); [|done].
  assert (evolves (top n2) 63 n2 (repUpd n2 nx (n_outbound n2 ++ ms))) as Hev2.
  { apply evolves_rep; [done|done|lia|]. eapply Forall_impl; [exact Hms|].
    intros m (p & Hp & Hm). eapply replMsg_sent; [|done].
    destruct Hwf2 as (_ & _ & (_ & Hps & _) & _). rewrite Forall_forall in Hps. by apply Hps. }
  destruct Hev2. by split.
Qed.

Lemma refused n e : node_inv n -> evolves (top n + 1) 63 n n /\ proposed n e false n.
Proof.
  intros (Hwf & _ & Hst). split; [|by left].
  eapply evolves_mono; [by apply evolves_refl|lia|lia].
Qed.

(** Without a pending configuration the middle step is absent. *)
Lemma propose_plain_wp e n :
  wf n -> n_Faulted n = false -> top n < maxu64 -> room n 63 -> n_State n = Leader ->
  0 <= e_OldVoters e -> 0 <= e_NewVoters e ->
  wp (ok ← appendLocal e; if ok : bool then broadcastAppend ;; mret true else mret false)
     (fun ok n' => evolves (top n + 1) 63 n n' /\ proposed n e ok n' /\
        (ok = false -> n_Faulted n' = true)) n.
Proof.
  intros Hwf Hf Ht Hr Hs Ho Hn.
  pose proof (propose_wp e id n Hwf Hf Ht Hr Hs Ho Hn) as H.
  assert (forall n, exists pc, id n = n <| n_pendingConfig := pc |>) as Hid.
  { intros n0. exists (n_pendingConfig n0). by destruct n0. }
  specialize (H Hid). revert H. unfold wp, mbind, M_bind. by destruct (appendLocal e n) as [[]|].
Qed.

Lemma Propose_wp command n :
  node_inv n -> top n < maxu64 -> room n 63 ->
  wp (Propose command)
     (fun ok n' => evolves (top n + 1) 63 n n' /\
        proposed n (zeroEntry <| e_Term := n_Term n |> <| e_Command := command |>) ok n' /\
        accepts (leads n) ok n') n.
Proof.
  intros Hinv Ht Hr. pose proof Hinv as (Hwf & _). unfold Propose. wp_pures.
  pose proof (leads_guard n) as Hg. destruct (_ || _).
  { wp_pures. split; [by apply (refused n zeroEntry)|]. split; [by left|]. left. by intros ?%Hg. }
  destruct (proj1 Hg eq_refl) as [Hs Hf]. wp_call propose_plain_wp; [done..|].
  intros ok n' (Hev & Hp & Hff). split; [done|]. split; [done|]. destruct ok; [by split|right; by apply Hff].
Qed.

Lemma ProposeRequest_wp op cid rid key value n :
  node_inv n -> top n < maxu64 -> room n 63 ->
  wp (ProposeRequest op cid rid key value)
     (fun ok n' => evolves (top n + 1) 63 n n' /\
        proposed n (zeroEntry <| e_Term := n_Term n |> <| e_Operation := op |>
          <| e_ClientID := cid |> <| e_RequestID := rid |> <| e_Key := key |> <| e_Value := value |>) ok n' /\
        accepts (requestAllowed n op cid rid) ok n') n.
Proof.
  intros Hinv Ht Hr. pose proof Hinv as (Hwf & _). unfold ProposeRequest. wp_pures.
  set (guard := _ || _). assert (guard = false <-> requestAllowed n op cid rid) as Hg.
  { unfold guard, requestAllowed, leads.
    rewrite !orb_false_iff, andb_false_iff, !negb_false_iff, bool_decide_eq_true, !Z.eqb_neq, !Z.eqb_eq. tauto. }
  destruct guard.
  { wp_pures. split; [by apply (refused n zeroEntry)|]. split; [by left|]. left. by intros ?%Hg. }
  destruct (proj1 Hg eq_refl) as ([Hs Hf] & Ha). wp_call propose_plain_wp; [done..|].
  intros ok n' (Hev & Hp & Hff). split; [done|]. split; [done|]. destruct ok; [by apply Hg|right; by apply Hff].
Qed.

Lemma ProposeFinal_wp n :
  node_inv n -> top n < maxu64 -> room n 63 ->
  wp ProposeFinal
     (fun ok n' => evolves (top n + 1) 63 n n' /\
        proposed n (zeroEntry <| e_Term := n_Term n |> <| e_Kind := EntryFinalConfig |>
                      <| e_OldVoters := n_votersNew n |>) ok n' /\
        accepts (finalAllowed n) ok n') n.
Proof.
  intros Hinv Ht Hr. pose proof Hinv as (Hwf & _). unfold ProposeFinal. wp_pures.
  set (guard := _ || _). assert (guard = false <-> finalAllowed n) as Hg.
  { unfold guard, finalAllowed, leads.
    rewrite !orb_false_iff, !negb_false_iff, bool_decide_eq_true, Z.eqb_neq, Z.eqb_eq. tauto. }
  destruct guard.
  { wp_pures. split; [by apply (refused n zeroEntry)|]. split; [by left|]. left. by intros ?%Hg. }
  destruct (proj1 Hg eq_refl) as ([Hs Hf] & Ha).
  wp_call propose_wp; try done; [apply Hwf|by eauto|]. intros ok n' (Hev & Hp & Hff). split; [done|]. split; [done|].
  destruct ok; [by apply Hg|right; by apply Hff].
Qed.

Lemma voterMask_ok ids :
  Forall valid_id ids -> exists mask ok, voterMask ids = Some (mask, ok) /\ 0 <= mask.
Proof.
  intros Hids. unfold voterMask. case_decide as Hne; [by exists 0, false|]. clear Hne.
  cut (forall m, 0 <= m -> exists mask ok, voterMask_loop ids m = Some (mask, ok) /\ 0 <= mask).
  { intros Hcut. by apply Hcut. }
  induction Hids as [|id ids Hid Hids IH]; intros mask Hm; cbn; [by eauto|].
  rewrite nodeBit_ok by done. destruct (negb _); [by exists 0, false|].
  apply IH. apply Z.lor_nonneg. split; [done|]. by apply Z.shiftl_nonneg.
Qed.

Lemma ProposeJoint_wp newVoters n :
  node_inv n -> top n < maxu64 -> room n 63 -> Forall valid_id newVoters ->
  wp (ProposeJoint newVoters)
     (fun ok n' => evolves (top n + 1) 63 n n' /\
        exists mask valid, voterMask newVoters = Some (mask, valid) /\
          proposed n (zeroEntry <| e_Term := n_Term n |> <| e_Kind := EntryJointConfig |>
            <| e_OldVoters := n_votersOld n |> <| e_NewVoters := mask |>) ok n' /\
          accepts (jointAllowed n valid) ok n') n.
Proof.
  intros Hinv Ht Hr Hids. pose proof Hinv as (Hwf & _).
  destruct (voterMask_ok newVoters Hids) as (mask & valid & Em & Hm).
  unfold ProposeJoint. rewrite Em. cbn [liftMask]. wp_pures.
  set (guard := _ || _). assert (guard = false <-> jointAllowed n valid) as Hg.
  { unfold guard, jointAllowed, leads.
    rewrite !orb_false_iff, !negb_false_iff, bool_decide_eq_true, !Z.eqb_eq. tauto. }
  destruct guard.
  { wp_pures. split; [by apply (refused n zeroEntry)|]. exists mask, valid. split; [done|]. split; [by left|].
    left. by intros ?%Hg. }
  destruct (proj1 Hg eq_refl) as (Eok & [Hs Hf] & Ev & Ep).
  apply wp_bind. wp_call ensurePeers_wp; [done|apply Hwf|]. intros _ n1 (ps & nx & mt & -> & Hp1 & _).
  set (n1 := peerUpd _ _ _ _) in *.
  assert (wf n1) as Hwf1 by (destruct Hwf as (? & ? & ? & ?); by split_and!).
  wp_call (propose_wp _ _ n1); try done; [apply Hwf|by eauto|].
  intros ok n' (Hev & Hp & Hff). split; [destruct Hev; by split|].
  exists mask, valid. split; [done|]. split; [destruct ok; [exact Hp|right; by apply Hff]|].
  destruct ok; [by apply Hg|right; by apply Hff].
Qed.

(** ** Applying committed entries *)

Lemma applyLoop_wp (cnt : Z) (a : Z) dst n :
  wf n -> 0 <= cnt -> n_Applied n + cnt <= n_Commit n ->
  wp (foldM (fun dst (_ : Z) =>
        modify (fun n => n <| n_Applied := w64 (n_Applied n + 1) |>) ;;
        n ← get;
        entry ← entryAt (n_Applied n);
        mret (if e_Kind entry =? EntryNormal then dst ++ [entry] else dst)) dst (seqZ a cnt))
     (fun r n' => r = dst ++ filter (fun e => e_Kind e = EntryNormal) (entries n (n_Applied n + 1) cnt) /\
                  n' = n <| n_Applied := n_Applied n + cnt |>) n.
Proof.
  intros Hwf Hc. revert a dst n Hwf. pattern cnt. revert cnt Hc.
  apply natlike_ind; [|intros cnt Hc IH]; intros a dst n Hwf Hle.
  { rewrite seqZ_nil by lia. cbn [foldM]. wp_pures. split.
    - unfold entries. cbn. by rewrite app_nil_r.
    - rewrite Z.add_0_r. by destruct n. }
  pose proof Hwf as (Hl & Hx & Hp & Hv). pose proof Hl as (_ & Hb & Hm).
  rewrite seqZ_cons by lia. cbn [foldM]. wp_pures. nsimp.
  rewrite w64_small by idx.
  set (n1 := n <| n_Applied := n_Applied n + 1 |>).
  assert (wf n1) as Hwf1 by (split_and!; try done; unfold wf_index, n1 in *; nsimp; lia).
  eapply wp_det; [apply entryAt_wf; [apply Hwf1|unfold n1; idx]|]. wp_pures.
  replace (Z.pred (Z.succ cnt)) with cnt by lia.
  wp_call IH; [done|unfold n1; nsimp; lia|]. intros r n' (-> & ->). split.
  - rewrite (entries_cons n (n_Applied n + 1)) by idx. rewrite filter_cons.
    replace (Z.succ cnt - 1) with cnt by lia. unfold n1. nsimp.
    change (logAt (n <| n_Applied := n_Applied n + 1 |>)) with (logAt n).
    change (entries (n <| n_Applied := n_Applied n + 1 |>)) with (entries n).
    case_decide as Hk.
    + rewrite (proj2 (Z.eqb_eq _ _)) by done. by rewrite <- app_assoc.
    + rewrite (proj2 (Z.eqb_neq _ _)) by done. done.
  - unfold n1. clear. replace (n_Applied n + Z.succ cnt) with (n_Applied n + 1 + cnt) by lia. nrefl.
Qed.

Lemma ApplyEntries_wp dst n :
  wf n ->
  wp (ApplyEntries dst)
     (fun r n' => r = dst ++ filter (fun e => e_Kind e = EntryNormal)
                              (entries n (n_Applied n + 1) (n_Commit n - n_Applied n)) /\
                  n' = n <| n_Applied := n_Commit n |>) n.
Proof.
  intros Hwf. pose proof Hwf as (_ & Hx & _). unfold ApplyEntries. wp_pures.
  wp_call applyLoop_wp; [done|idx|idx|]. intros r n' [-> ->]. split; [done|].
  by replace (n_Applied n + (n_Commit n - n_Applied n)) with (n_Commit n) by lia.
Qed.

(** ** Compaction *)

Definition compactUpd n (index : Z) (state : list Z) (s : S) : Node S :=
  n <| n_store := s |>
    <| n_Log := drop (Z.to_nat (index - n_BaseIndex n)) (n_Log n) |>
    <| n_BaseIndex := index |> <| n_BaseTerm := e_Term (logAt n (index - n_BaseIndex n)) |>
    <| n_snapshot := mkSnapshot index (e_Term (logAt n (index - n_BaseIndex n))) state
                       (n_votersOld n) (n_votersNew n) |>.

Lemma wf_compact n index state s :
  wf n -> n_BaseIndex n < index <= n_Applied n ->
  wf (compactUpd n index state s) /\ top (compactUpd n index state s) = top n /\
  (forall i, index <= i -> EntryAt (compactUpd n index state s) i = EntryAt n i).
Proof.
  intros (Hl & Hx & Hp & (Hvo & Hvn & Hvl)) Hi. pose proof Hl as (_ & Hb & Hm).
  set (n' := compactUpd n index state s).
  assert (len (n_Log n') = top n - index) as E.
  { unfold n', compactUpd, len, top in *. nsimp. rewrite length_drop. idx. }
  assert (wf_log n') as Hl'.
  { split; [|split; [unfold n', compactUpd; nsimp; lia|rewrite E; unfold n', compactUpd; idx]].
    intros E0. rewrite E0 in E. cbn in E. idx. }
  split; [|split].
  - split; [done|]. split; [unfold wf_index; rewrite E; unfold n', compactUpd; idx|].
    split; [done|]. split; [done|]. split; [done|]. by apply Forall_drop.
  - unfold top. rewrite E. unfold n', compactUpd. idx.
  - intros i Hii. rewrite !EntryAt_wf by done. unfold n', compactUpd. nsimp.
    rewrite !decide_True by lia. rewrite lookup_drop. f_equal. lia.
Qed.

Lemma Compact_wp index state n :
  node_inv n ->
  wp (Compact index state)
     (fun ok n' => evolves (top n) 0 n n' /\
        if ok then n_BaseIndex n < index <= n_Applied n /\ exists s, n' = compactUpd n index state s
        else n' = n \/ n_Faulted n' = true) n.
Proof.
  intros (Hwf & _ & Hst). pose proof Hwf as (Hl & Hx & _).
  pose proof (evolves_refl n Hwf Hst) as Hself.
  unfold Compact. wp_pures. destruct (_ || _) eqn:Eg; wp_pures; [by auto|].
  apply orb_false_elim in Eg as [E1%Z.leb_gt E2%Z.ltb_ge].
  rewrite termAt_wf, offset_wf by (done || idx). rewrite decide_True by idx.
  destruct AsSnapshotStore as [ops|].
  2: { wp_pures. wp_call failStorage_wp. intros _ n' (e & He & ->). wp_pures.
       split; [by apply evolves_stop|by right]. }
  wp_pures. apply storeOp_wp. intros s [err|] _.
  { wp_call (storeFail_wp (top n) 0 n); [by apply evolves_store|].
    intros a' n' (-> & ? & ?). split; [done|by right]. }
  wp_pures. apply storeOp_wp. intros s' [err|] _.
  { wp_call (storeFail_wp (top n) 0 n); [by apply (evolves_store _ _ _ n s')|].
    intros a' n' (-> & ? & ?). split; [done|by right]. }
  wp_pures. change (evolves (top n) 0 n (compactUpd n index state s') /\
    n_BaseIndex n < index <= n_Applied n /\
    exists s, compactUpd n index state s' = compactUpd n index state s).
  destruct (wf_compact n index state s' Hwf ltac:(lia)) as (Hwf' & Ht & Hk).
  split; [|split; [lia|by exists s']]. split; try done; try (cbn; lia).
  - intros i Hi. apply Hk. cbn in Hi. lia.
  - intros Hf. split; [done|]. exists []. by rewrite app_nil_r.
Qed.

(** ** Read barriers and leadership transfer *)

Lemma sendContext_wp ctx n :
  wf n -> room n 63 ->
  wp (forM_ (n_Peers n) (fun p => appendToContext p ctx))
     (fun _ n' => exists nx ms, n' = repUpd n nx (n_outbound n ++ ms) /\ len ms <= 63 /\
        Forall (sentBy n) ms) n.
Proof.
  intros Hwf Hr. pose proof Hwf as (_ & _ & Hp & _). pose proof (peers_le n Hp) as Hle.
  wp_call (forM_append_wp _ _ ctx); [done|apply (room_le _ 63); [done|lia]| |].
  - intros p nx out Hin Hout. wp_call appendToContext_wp; [done|done|].
    intros _ n' (nx' & m & -> & Hm). exists nx', [m]. split; [done|]. split; [done|]. by constructor.
  - intros _ n' (nx & ms & -> & Hl & Hms). exists nx, ms. split; [done|]. split; [lia|].
    eapply Forall_impl; [exact Hms|]. intros m (p & Hin & Hm). eapply replMsg_sent; [|done].
    destruct Hp as (_ & Hps & _). rewrite Forall_forall in Hps. by apply Hps.
Qed.

(** The leader may serve reads: it committed an entry of its own term, or it is
    a quorum by itself. *)
Definition mayRead n : Prop :=
  n_Commit n <> 0 /\
  ((exists e, EntryAt n (n_Commit n) = Some e /\ e_Term e = n_Term n) \/
   quorumOf n (Z.shiftl 1 (n_ID n - 1)) = true).

Lemma StartReadIndex_wp ctx n :
  node_inv n -> room n 63 ->
  wp (StartReadIndex ctx)
     (fun ok n' => evolves (top n) 63 n n' /\
        if ok then n_State n = Leader /\ ctx <> 0 /\ mayRead n /\
          n_State n' = Leader /\ n_readContext n' = ctx /\
          n_readAckMask n' = Z.shiftl 1 (n_ID n - 1) /\
          n_readReady n' = quorumOf n (n_readAckMask n') /\
          (n_readReady n' = true -> n_readIndex n' = n_Commit n)
        else n' = n) n.
Proof.
  intros (Hwf & _ & Hst) Hr. pose proof Hwf as (Hl & Hx & Hp & _).
  unfold StartReadIndex. wp_pures. destruct (_ || _) eqn:Eg; wp_pures.
  { split; [|done]. eapply evolves_mono; [by apply evolves_refl|lia|lia]. }
  apply orb_false_elim in Eg as [Eg Ec%Z.eqb_neq].
  apply orb_false_elim in Eg as [Eg Ectx%Z.eqb_neq].
  apply orb_false_elim in Eg as [Hs%negb_false_iff%bool_decide_eq_true_1 Hf].
  eapply wp_det; [apply termAtMust_wf; [done|idx]|]. wp_pures.
  eapply wp_det; [apply bitOf_wf, Hp|]. wp_pures. set (bit := Z.shiftl 1 (n_ID n - 1)).
  apply (wp_mono _ (fun b n' => n' = n /\ (b = true -> mayRead n))).
  { destruct (Z.eqb_spec (e_Term (logAt n (n_Commit n - n_BaseIndex n))) (n_Term n)) as [E|E].
    - wp_pures. split; [done|]. intros _. split; [done|]. left. eexists. split; [|exact E].
      rewrite EntryAt_wf by done. rewrite decide_True by idx. apply logAt_lookup; idx.
    - eapply wp_det; [by apply quorumMask_wf|]. split; [done|]. intros Hq. split; [done|by right]. }
  intros [] n1 [-> Hmay]; wp_pures.
  2: { split; [|done]. by apply evolves_self. }
  eapply wp_det; [by apply quorumMask_wf|].
  change (quorumOf _ bit) with (quorumOf n bit). wp_pures.
  set (q := quorumOf n bit).
  apply (wp_mono _ (fun _ n' => exists i, n' = n <| n_readContext := ctx |> <| n_readAckMask := bit |>
    <| n_readReady := q |> <| n_readIndex := i |> /\ (q = true -> i = n_Commit n))).
  { destruct q; wp_pures; [by eauto|]. exists (n_readIndex n). split; [|done]. clear. by destruct n. }
  intros _ n2 (i & -> & Hi). wp_pures. set (n2 := _ <| n_readIndex := i |>).
  wp_call (sendContext_wp ctx n2); [done|done|]. intros _ n3 (nx & ms & -> & Hlen & Hms). wp_pures.
  split; [|by split_and!; auto].
  apply (evolves_quiet 63 n _ ms); done.
Qed.

Lemma TransferLeadership_wp target n :
  node_inv n -> room n 1 -> valid_id target ->
  wp (TransferLeadership target)
     (fun ok n' => evolves (top n) 1 n n' /\
        (ok = true -> n_State n = Leader /\ target <> n_ID n /\ isVoterOf n target = true /\
           top n - 1 <= mapGet (n_match n) target /\
           n_outbound n' = n_outbound n ++ [newMessage MsgTimeoutNow (n_ID n) target (n_Term n)])) n.
Proof.
  intros (Hwf & _ & Hst) Hr Hid. pose proof Hwf as (Hl & _).
  assert (evolves (top n) 1 n n) as Hself by (eapply evolves_mono; [by apply evolves_refl|lia|lia]).
  unfold TransferLeadership. wp_pures. destruct (_ || _) eqn:Eg; wp_pures; [done|].
  apply orb_false_elim in Eg as [Hs%negb_false_iff%bool_decide_eq_true_1 Ht%Z.eqb_neq].
  assert (n_Faulted n = false) as Hf.
  { destruct (n_Faulted n); [|done]. destruct (Hst eq_refl) as [E _]. congruence. }
  eapply wp_det; [by apply isVoter_wf|]. destruct (isVoterOf n target) eqn:Ev; wp_pures; [|done].
  rewrite lastIndex_wf by done. destruct (Z.ltb_spec (mapGet (n_match n) target) (n_BaseIndex n + len (n_Log n) - 1)); wp_pures.
  - wp_call (appendToContext_evolves target 0); [done..|]. intros _ n' (Hev & _). wp_pures. done.
  - apply send_wp; [done|]. wp_pures. split; [by apply evolves_send|]. intros _. by split_and!.
Qed.

(** ** Recovery *)

Definition isConfig (e : Entry) : bool :=
  (e_Kind e =? EntryJointConfig) || (e_Kind e =? EntryFinalConfig).

(** Configuration and pending index after scanning the entries at [l]. *)
Definition scanVoters n (v : Z * Z) (l : list Z) : Z * Z :=
  foldl (fun v i => if i <=? n_Commit n then cfgOf v (logAt n (i - n_BaseIndex n)) else v) v l.

Definition scanPending n (p : Z) (l : list Z) : Z :=
  foldl (fun p i => if (n_Commit n <? i) && isConfig (logAt n (i - n_BaseIndex n)) then i else p) p l.

(** The node with more peers. *)
Definition morePeers n n' : Prop :=
  exists ps nx mt, n' = peerUpd n (n_Peers n ++ ps) nx mt /\ wf_peers n'.

Lemma morePeers_trans n1 n2 n3 : morePeers n1 n2 -> morePeers n2 n3 -> morePeers n1 n3.
Proof.
  intros (ps & nx & mt & -> & _) (ps' & nx' & mt' & -> & Hp).
  exists (ps ++ ps'), nx', mt'. rewrite app_assoc. split; [nrefl|done].
Qed.

Lemma morePeers_refl n : wf_peers n -> morePeers n n.
Proof.
  intros Hp. exists [], (n_next n), (n_match n). rewrite app_nil_r. split; [by destruct n|done].
Qed.

Lemma restoreLoop_wp (l : list Z) o w p n :
  wf_log n -> wf_peers n -> Forall (fun e => 0 <= e_OldVoters e /\ 0 <= e_NewVoters e) (n_Log n) ->
  Forall (fun i => n_BaseIndex n < i < top n) l ->
  wp (restoreConfigurationState_loop l o w p)
     (fun r n' => morePeers n n' /\
        match r with
        | Some (o', w', p') => (o', w') = scanVoters n (o, w) l /\ p' = scanPending n p l
        | None => True
        end) n.
Proof.
  intros Hl Hp Hvl Hin. revert o w p n Hl Hp Hvl Hin.
  induction l as [|i l IH]; intros o w p n Hl Hp Hvl Hin; cbn [restoreConfigurationState_loop].
  { wp_pures. split; [by apply morePeers_refl|done]. }
  apply Forall_cons in Hin as [Hi Hin].
  wp_pures. eapply wp_det; [apply entryAt_wf; [done|idx]|]. wp_pures.
  set (e := logAt n (i - n_BaseIndex n)).
  assert (0 <= e_OldVoters e /\ 0 <= e_NewVoters e) as [Ho Hn].
  { apply (Forall_lookup_1 _ _ _ e Hvl (logAt_lookup n i ltac:(lia) ltac:(idx))). }
  match goal with |- wp (match ?x with _ => _ end) _ _ =>
    assert (forall o' w' p', x = Some (o', w', p') ->
      (o', w') = (if i <=? n_Commit n then cfgOf (o, w) e else (o, w)) /\
      p' = (if (n_Commit n <? i) && isConfig e then i else p)) as Hnext;
    [|destruct x as [[[o' w'] p']|] eqn:En] end.
  { clear. unfold cfgOf, isConfig. intros o' w' p'. rewrite (Z.ltb_antisym i).
    destruct (Z.eqb_spec (e_Kind e) EntryNormal) as [E|?]; rewrite ?E; [by destruct (_ || _), (i <=? _); intros [= <- <- <-]|].
    destruct (Z.eqb_spec (e_Kind e) EntryNoop) as [E|?]; rewrite ?E; [by destruct (_ || _), (i <=? _); intros [= <- <- <-]|].
    destruct (Z.eqb_spec (e_Kind e) EntryJointConfig) as [E|?]; rewrite ?E;
      [by destruct (_ || _), (i <=? _); intros [= <- <- <-]|].
    destruct (Z.eqb_spec (e_Kind e) EntryFinalConfig) as [E|?]; rewrite ?E;
      [by destruct (_ || _), (i <=? _); intros [= <- <- <-]|done]. }
  2: { wp_pures. split; [by apply morePeers_refl|done]. }
  destruct (Hnext _ _ _ eq_refl) as [Ev Ep]. wp_pures.
  wp_call ensurePeers_wp; [by apply Z.lor_nonneg|done|].
  intros _ n1 (ps & nx & mt & -> & Hp1 & _).
  set (n1 := peerUpd _ _ _ _) in *. wp_call (IH o' w' p' n1); [done..|].
  intros r n2 [Hm Hr]. split; [eapply morePeers_trans; [|exact Hm]; by exists ps, nx, mt|].
  destruct r as [[[o2 w2] p2]|]; [|done]. destruct Hr as [Hr1 Hr2].
  rewrite Ev in Hr1. rewrite Ep in Hr2. done.
Qed.

Lemma foldl_seqZ_entries {B} (f : B -> Entry -> B) (b : B) n first cnt :
  n_BaseIndex n <= first -> first + cnt <= top n ->
  foldl (fun b i => f b (logAt n (i - n_BaseIndex n))) b (seqZ first cnt) =
  foldl f b (entries n first cnt).
Proof.
  remember (Z.to_nat cnt) as k eqn:Hk. revert first cnt b Hk.
  induction k as [|k IH]; intros first cnt b Hk H1 H2.
  - rewrite seqZ_nil by lia. unfold entries. by rewrite <- Hk.
  - rewrite seqZ_cons by lia. rewrite (entries_cons n first cnt) by idx. cbn [foldl].
    replace (Z.succ first) with (first + 1) by lia. replace (Z.pred cnt) with (cnt - 1) by lia.
    by apply IH; try lia.
Qed.

Lemma foldl_ext_in {A B} (f g : B -> A -> B) b l :
  (forall b a, a ∈ l -> f b a = g b a) -> foldl f b l = foldl g b l.
Proof.
  revert b. induction l as [|a l IH]; intros b H; [done|]. cbn. rewrite H by set_solver.
  apply IH. intros. apply H. set_solver.
Qed.

Lemma foldl_id {A B} (f : B -> A -> B) b l : (forall b a, a ∈ l -> f b a = b) -> foldl f b l = b.
Proof.
  intros H. rewrite (foldl_ext_in f (fun b _ => b)) by done. clear H. by induction l.
Qed.

(** Scanning the whole log replays exactly the committed configurations, and
    the pending one is the last among the uncommitted entries. *)
Lemma scan_log n v :
  n_BaseIndex n <= n_Commit n < top n ->
  let l := seqZ (n_BaseIndex n + 1) (top n - 1 - n_BaseIndex n) in
  scanVoters n v l = foldl cfgOf v (entries n (n_BaseIndex n + 1) (n_Commit n - n_BaseIndex n)) /\
  scanPending n 0 l =
    foldl (fun p i => if isConfig (logAt n (i - n_BaseIndex n)) then i else p) 0
      (seqZ (n_Commit n + 1) (top n - 1 - n_Commit n)).
Proof.
  intros Hc. cbn zeta.
  replace (top n - 1 - n_BaseIndex n) with ((n_Commit n - n_BaseIndex n) + (top n - 1 - n_Commit n)) by lia.
  rewrite seqZ_app by lia. replace (n_BaseIndex n + 1 + (n_Commit n - n_BaseIndex n)) with (n_Commit n + 1) by lia.
  unfold scanVoters, scanPending. rewrite !foldl_app. split.
  - rewrite (foldl_id _ _ (seqZ (n_Commit n + 1) _)).
    2: { intros b a Ha%elem_of_seqZ. by rewrite (proj2 (Z.leb_gt a (n_Commit n))) by lia. }
    rewrite <- foldl_seqZ_entries by lia. apply foldl_ext_in. intros b a Ha%elem_of_seqZ.
    by rewrite (proj2 (Z.leb_le a (n_Commit n))) by lia.
  - rewrite (foldl_id _ _ (seqZ (n_BaseIndex n + 1) _)).
    2: { intros b a Ha%elem_of_seqZ. by rewrite (proj2 (Z.ltb_ge (n_Commit n) a)) by lia. }
    apply foldl_ext_in. intros b a Ha%elem_of_seqZ.
    by rewrite (proj2 (Z.ltb_lt (n_Commit n) a)) by lia.
Qed.

(** What recovery leaves: a stopped node, or a well-formed node whose
    configuration is the replay of the committed prefix. *)
Definition recovered n n' : Prop :=
  if n_Faulted n' then stopped n'
  else wf n' /\ n_Commit n < top n /\
    VoterMasks n' = foldl cfgOf (VoterMasks n) (entries n (n_BaseIndex n + 1) (n_Commit n - n_BaseIndex n)) /\
    n_pendingConfig n' =
      foldl (fun p i => if isConfig (logAt n (i - n_BaseIndex n)) then i else p) 0
        (seqZ (n_Commit n + 1) (top n - 1 - n_Commit n)).

(** The fields recovery does not touch. *)
Definition sameState n n' : Prop :=
  n_ID n' = n_ID n /\ n_Term n' = n_Term n /\ n_VotedFor n' = n_VotedFor n /\
  n_Commit n' = n_Commit n /\ n_Applied n' = n_Applied n /\ n_Log n' = n_Log n /\
  n_BaseIndex n' = n_BaseIndex n /\ n_BaseTerm n' = n_BaseTerm n /\ n_State n' = n_State n /\
  n_outbound n' = n_outbound n /\ n_store n' = n_store n /\ n_snapshot n' = n_snapshot n.

Lemma cfgOf_nonneg l v :
  Forall (fun e => 0 <= e_OldVoters e /\ 0 <= e_NewVoters e) l -> 0 <= v.1 /\ 0 <= v.2 ->
  0 <= (foldl cfgOf v l).1 /\ 0 <= (foldl cfgOf v l).2.
Proof.
  intros Hl. revert v. induction Hl as [|e l He Hl IH]; intros v Hv; [done|]. cbn [foldl]. apply IH.
  unfold cfgOf. destruct (_ =? _); [done|]. destruct (_ =? _); [|done]. split; [apply He|done].
Qed.

Lemma recoverTail_wp n :
  wf_log n -> wf_peers n -> wf_voters n -> n_BaseIndex n <= n_Applied n <= n_Commit n ->
  n_Faulted n = false -> n_State n = Follower -> n_outbound n = [] -> n_Leader n = 0 ->
  wp recoverTail (fun _ n' => recovered n n' /\ sameState n n') n.
Proof.
  intros Hl Hp Hv Hx Hf Hs Ho Hld. pose proof Hv as (Hvo & Hvn & Hvl). pose proof Hl as (_ & Hb & Hm).
  unfold recoverTail. wp_pures. rewrite lastIndex_wf by done. fold (top n).
  destruct (Z.ltb_spec (top n - 1) (n_Commit n)) as [Hc|Hc].
  { wp_call failStorage_wp. intros _ n' (e & He & ->). split; [|by split_and!].
    unfold recovered. cbn. by split_and!. }
  unfold restoreConfigurationState. wp_pures. rewrite w64_small by (pose proof (len_Log_pos n Hl); idx).
  rewrite lastIndex_wf by done. fold (top n).
  replace (top n - 1 - (n_BaseIndex n + 1) + 1) with (top n - 1 - n_BaseIndex n) by lia.
  wp_call restoreLoop_wp; [done..| |].
  { apply Forall_forall. intros i Hi%elem_of_seqZ. lia. }
  destruct (scan_log n (VoterMasks n) ltac:(lia)) as [Ev Ep].
  intros r n1 [(ps & nx & mt & -> & Hp1) Hr]. destruct r as [[[o w] p]|]; wp_pures.
  - destruct Hr as [Er ->]. change (n_votersOld n, n_votersNew n) with (VoterMasks n) in Er.
    rewrite Ev in Er. rewrite Ep. split; [|by split_and!].
    unfold recovered. nsimp. rewrite Hf.
    pose proof (cfgOf_nonneg (entries n (n_BaseIndex n + 1) (n_Commit n - n_BaseIndex n)) (VoterMasks n)) as Hnn.
    rewrite <- Er in Hnn. destruct Hnn as [Hno Hnw]; [by apply Forall_take, Forall_drop|done|].
    split; [|split; [lia|done]]. split; [done|]. split; [unfold wf_index; idx|]. by split_and!.
  - wp_call failStorage_wp. intros _ n' (e & He & ->). split; [|by split_and!].
    unfold recovered. cbn. by split_and!.
Qed.

Lemma newNode_voters_ok seen peers :
  0 <= seen -> Forall valid_id peers -> NoDup peers ->
  (forall p, p ∈ peers -> Z.testbit seen (p - 1) = false) ->
  exists voters, newNode_voters seen peers = inr voters /\ 0 <= voters /\
    (forall id, valid_id id -> Z.testbit voters (id - 1) = Z.testbit seen (id - 1) || bool_decide (id ∈ peers)).
Proof.
  intros Hs Hps Hnd. revert seen Hs. induction Hps as [|p l Hp Hps IH]; intros seen Hs Hdis; cbn.
  - exists seen. split; [done|]. split; [done|]. intros id _. by rewrite orb_false_r.
  - apply NoDup_cons in Hnd as [Hnin Hnd]. rewrite nodeBit_ok by done.
    assert (0 <= p - 1) by idx.
    rewrite land_bit_zero, negb_involutive by done. rewrite Hdis by set_solver.
    assert (forall id, valid_id id -> Z.testbit (Z.lor seen (Z.shiftl 1 (p - 1))) (id - 1) =
      Z.testbit seen (id - 1) || (id - 1 =? p - 1)) as Hbit.
    { intros id Hid. rewrite Z.lor_spec, testbit_bit by idx. done. }
    destruct (IH Hnd (Z.lor seen (Z.shiftl 1 (p - 1)))) as (v & E & Hv & Hb).
    + apply Z.lor_nonneg. split; [done|]. by apply Z.shiftl_nonneg.
    + intros q Hq. rewrite Forall_forall in Hps. rewrite Hbit by auto. rewrite Hdis by set_solver.
      apply Z.eqb_neq. intros Eq. assert (q = p) as -> by lia. done.
    + exists v. split; [done|]. split; [done|]. intros id Hid. rewrite Hb, Hbit by done.
      rewrite <- orb_assoc. f_equal. destruct (Z.eqb_spec (id - 1) (p - 1)); repeat case_bool_decide;
        try done; set_unfold; try tauto; exfalso; intuition lia.
Qed.

(** The voter mask of a fresh node: itself and its peers. *)
Definition initialVoters (id : Z) (peers : list Z) (voters : Z) : Prop :=
  0 <= voters /\
  forall i, valid_id i -> Z.testbit voters (i - 1) = bool_decide (i ∈ id :: peers).

(** The node [NewNodeWithStore] builds. *)
Definition freshNode (id : Z) (peers : list Z) (timeout : Z) (store : S) (voters : Z) : Node S :=
  mkNode id peers Follower 0 0 0 [zeroEntry] 0 0 0 0 timeout 0 0 0 0 ∅ ∅ [] store false None
    0 0 0 false zeroSnapshot voters 0 0.

Lemma NewNodeWithStore_ok id peers timeout (store : S) :
  valid_id id -> Forall valid_id peers -> NoDup (id :: peers) ->
  exists voters, initialVoters id peers voters /\
    NewNodeWithStore id peers timeout store = inr (freshNode id peers timeout store voters).
Proof.
  intros Hid Hps [Hnin Hnd]%NoDup_cons. assert (0 <= id - 1) by idx.
  destruct (newNode_voters_ok (Z.shiftl 1 (id - 1)) peers) as (v & E & Hv & Hb); [by apply Z.shiftl_nonneg|done|done| |].
  { intros p Hp. rewrite Forall_forall in Hps. specialize (Hps p Hp). rewrite testbit_bit by idx.
    apply Z.eqb_neq. intros Eq. assert (p = id) as -> by lia. done. }
  exists v. split.
  - split; [done|]. intros i Hi. rewrite Hb by done. rewrite testbit_bit by idx.
    destruct (Z.eqb_spec (i - 1) (id - 1)); repeat case_bool_decide; try done; set_unfold; try tauto;
      exfalso; intuition lia.
  - unfold NewNodeWithStore. rewrite nodeBit_ok by done. by rewrite E.
Qed.

(** The node state recovery starts from. *)
Definition recoverInit (hard : HardState) (log : list Entry) n : Node S :=
  n <| n_Term := h_Term hard |> <| n_VotedFor := h_VotedFor hard |> <| n_Commit := h_Commit hard |>
    <| n_Log := if decide (log = []) then n_Log n else log |>.

Lemma NewRecoveredNode_wp id peers timeout (store : S) hard log :
  valid_id id -> Forall valid_id peers -> NoDup (id :: peers) -> len log <= maxu64 -> 0 <= h_Commit hard ->
  Forall (fun e => 0 <= e_OldVoters e /\ 0 <= e_NewVoters e) log ->
  exists voters n, initialVoters id peers voters /\
    NewRecoveredNode id peers timeout store hard log = Done () n /\
    let n0 := recoverInit hard log (freshNode id peers timeout store voters) in
    recovered n0 n /\ sameState n0 n.
Proof.
  intros Hid Hps Hnd Hlen Hc Hlog.
  destruct (NewNodeWithStore_ok id peers timeout store Hid Hps Hnd) as (v & Hv & E).
  unfold NewRecoveredNode, onNew. rewrite E. cbn zeta.
  set (n0 := recoverInit hard log (freshNode id peers timeout store v)).
  destruct (wp_Done recoverTail (fun _ n' => recovered n0 n' /\ sameState n0 n') n0) as ([] & n & En & Hrec & Hsame).
  { apply recoverTail_wp; try done.
    - unfold n0, recoverInit, wf_log. nsimp. case_decide; cbn; [done|]. split; [done|]. lia.
    - split; [apply Hv|]. split; [done|]. unfold n0, recoverInit. nsimp. case_decide; [|done].
      by apply Forall_singleton. }
  exists v, n. split; [done|]. split; [|done]. exact En.
Qed.

Definition snapshotInit (hard : HardState) (snap : Snapshot) (suffix : list Entry) n : Node S :=
  n <| n_Term := h_Term hard |> <| n_VotedFor := h_VotedFor hard |>
    <| n_BaseIndex := s_LastIndex snap |> <| n_BaseTerm := s_LastTerm snap |> <| n_snapshot := snap |>
    <| n_votersOld := s_OldVoters snap |> <| n_votersNew := s_NewVoters snap |>
    <| n_Log := (zeroEntry <| e_Term := s_LastTerm snap |>) :: suffix |>
    <| n_Commit := Z.max (h_Commit hard) (s_LastIndex snap) |> <| n_Applied := s_LastIndex snap |>.

Lemma NewRecoveredNodeWithSnapshot_wp id peers timeout (store : S) hard snap suffix :
  valid_id id -> Forall valid_id peers -> NoDup (id :: peers) ->
  0 <= s_LastIndex snap -> s_LastIndex snap + len suffix < maxu64 ->
  0 < s_OldVoters snap -> 0 <= s_NewVoters snap ->
  Forall (fun e => 0 <= e_OldVoters e /\ 0 <= e_NewVoters e) suffix ->
  exists voters n ps nx mt, initialVoters id peers voters /\
    NewRecoveredNodeWithSnapshot id peers timeout store hard snap suffix = Done () n /\
    let n0 := peerUpd (snapshotInit hard snap suffix (freshNode id peers timeout store voters)) ps nx mt in
    recovered n0 n /\ sameState n0 n.
Proof.
  intros Hid Hps Hnd Hi Hlen Ho Hn Hlog.
  destruct (NewNodeWithStore_ok id peers timeout store Hid Hps Hnd) as (v & Hv & E).
  unfold NewRecoveredNodeWithSnapshot, onNew. rewrite E. cbn zeta. set (f := freshNode _ _ _ _ _).
  cut (wp (modify (fun n => n <| n_Term := h_Term hard |> <| n_VotedFor := h_VotedFor hard |>
       <| n_BaseIndex := s_LastIndex snap |> <| n_BaseTerm := s_LastTerm snap |>
       <| n_snapshot := snap |>
       <| n_votersOld := s_OldVoters snap |> <| n_votersNew := s_NewVoters snap |>) ;;
     if s_OldVoters snap =? 0 then failStorage else
     ensurePeers (Z.lor (s_OldVoters snap) (s_NewVoters snap)) ;;
     modify (fun n => n
       <| n_Log := (zeroEntry <| e_Term := s_LastTerm snap |>) :: suffix |>
       <| n_Commit := Z.max (h_Commit hard) (s_LastIndex snap) |>
       <| n_Applied := s_LastIndex snap |>) ;;
     recoverTail) (fun _ n => exists ps nx mt, let n0 := peerUpd (snapshotInit hard snap suffix f) ps nx mt in
       recovered n0 n /\ sameState n0 n) f).
  { intros ([] & n & En & (ps & nx & mt & H))%wp_Done. exists v, n, ps, nx, mt. split; [done|]. split; [exact En|exact H]. }
  wp_pures. rewrite (proj2 (Z.eqb_neq (s_OldVoters snap) 0)) by lia. wp_pures.
  wp_call ensurePeers_wp; [apply Z.lor_nonneg; lia|done|].
  intros _ n1 (ps & nx & mt & -> & Hp & _). wp_pures.
  match goal with |- wp _ _ ?x =>
    assert (x = peerUpd (snapshotInit hard snap suffix f) (peers ++ ps) nx mt) as ->
      by (unfold snapshotInit; nrefl) end.
  set (n0 := peerUpd _ _ _ _).
  assert (wf_log n0 /\ wf_peers n0 /\ wf_voters n0 /\ n_BaseIndex n0 <= n_Applied n0 <= n_Commit n0 /\
    n_Faulted n0 = false /\ n_State n0 = Follower /\ n_outbound n0 = [] /\ n_Leader n0 = 0)
    as (H1 & H2 & H3 & H4 & H5 & H6 & H7 & H8).
  { clear -Hp Hi Hlen Ho Hn Hlog Hid. unfold n0, wf_log, wf_voters, wf_peers, snapshotInit in *. nsimp_all.
    split_and!; try reflexivity; try lia; try done; try apply Hp.
    - unfold len in *. cbn. lia.
    - by constructor. }
  eapply wp_mono; [apply (recoverTail_wp n0 H1 H2 H3 H4 H5 H6 H7 H8)|].
  cbn beta. intros _ n H. exists (peers ++ ps), nx, mt. exact H.
Qed.

End client.
