(* ===== verification/RaftVotes.v ===== *)
(** * What the operations of a node do to its vote

    The facts election safety needs about one node: which operations may change
    its term, vote, role or collected votes, that these changes are durable
    before they are visible, and which vote responses it sends.  They are
    partial-correctness statements ([wlp]) for a cluster of fixed membership
    [V]; they need no assumption on indexes or buffer sizes. *)

From S2P Require Import Prelude RaftTypes Quorum RaftNode RaftInv RaftStep RaftClient.

(** ** The store as the node relies on it

    [durable s] is the hard state a restart from [s] would read.  A successful
    save replaces it; a failed save leaves the old or the new one; the other
    operations do not touch it. *)
Class DurableVotes (S : Type) `{!StableStore S} := {
  durable : S -> HardState;
  durable_save h s s' : SaveHardState h s = (s', None) -> durable s' = h;
  durable_save_err h s s' e :
    SaveHardState h s = (s', Some e) -> durable s' = durable s \/ durable s' = h;
  durable_append i e s : durable (Append i e s).1 = durable s;
  durable_snapshot ops snap s :
    AsSnapshotStore = Some ops -> durable (SaveSnapshot ops snap s).1 = durable s;
  durable_compact ops i s :
    AsSnapshotStore = Some ops -> durable (CompactLog ops i s).1 = durable s
}.

#[export] Instance Memory_durable : DurableVotes Memory.memoryStore.
Proof.
  refine {| durable := Memory.hard |}.
  - by intros h s s' [= <-].
  - done.
  - done.
  - intros ops snap s E. cbn in E. by injection E as <-.
  - intros ops i s E. cbn in E. injection E as <-. cbn. unfold Memory.compactLog.
    by destruct (i <? Memory.base s).
Defined.

Definition cfgfree (e : Entry) : bool := negb (isConfig e).

(** A granting vote response. *)
Definition grant (m : Message) : Prop := m_Type m = MsgRequestVoteResponse /\ m_Reject m = false.

Section votes.
Context {S : Type} `{!StableStore S} `{!DurableVotes S} (V : Z).
Implicit Types n : Node S.

(** ** Fixed membership *)

Definition staticMasks (o w : Z) : Prop := o = 0 \/ o = V /\ w = 0.

Definition staticMsg (m : Message) : Prop :=
  cfgfree (m_Entry m) = true /\ staticMasks (m_SnapshotOld m) (m_SnapshotNew m).

Definition quiet (m : Message) : Prop := staticMsg m /\ ~ grant m.

Record static n : Prop := {
  st_voters : VoterMasks n = (V, 0);
  st_log : Forall (fun e => cfgfree e = true) (n_Log n);
  st_snap : staticMasks (s_OldVoters (n_snapshot n)) (s_NewVoters (n_snapshot n))
}.

(** ** Volatile against durable state *)

Definition ahead n : Prop :=
  let d := durable (n_store n) in
  n_Term n < h_Term d \/
  h_Term d = n_Term n /\ (h_VotedFor d = n_VotedFor n \/ n_VotedFor n = 0).

Definition synced n : Prop :=
  h_Term (durable (n_store n)) = n_Term n /\ h_VotedFor (durable (n_store n)) = n_VotedFor n.

(** [keep n0 n]: since [n0] the term, the vote and the collected votes did not
    change, the role changed at most to follower, and only messages that are not
    votes were sent. *)
Record keep n0 n : Prop := mkKeep {
  k_id : n_ID n = n_ID n0;
  k_term : n_Term n = n_Term n0;
  k_vote : n_VotedFor n = n_VotedFor n0;
  k_mask : n_voteMask n = n_voteMask n0;
  k_state : n_State n = n_State n0 \/ n_State n = Follower;
  k_static : static n;
  k_ahead : ahead n;
  k_synced : n_Faulted n = false -> synced n;
  k_fault : n_Faulted n = true -> n_State n = Follower;
  k_out : forall m, m ∈ n_outbound n -> m ∈ n_outbound n0 \/ quiet m
}.

Definition keeps {A} (op : MN S A) : Prop :=
  forall n0 n, keep n0 n -> wlp op (fun _ n' => keep n0 n') n.

Lemma keeps_call {A} (op : MN S A) n0 n (Q : A -> Node S -> Prop) :
  keeps op -> keep n0 n -> (forall a n', keep n0 n' -> Q a n') -> wlp op Q n.
Proof. intros Hop Hk HQ. eapply wlp_mono; [by apply Hop|]. auto. Qed.

Lemma modify_call n0 n f (Q : () -> Node S -> Prop) :
  keep n0 (f n) -> (forall n', keep n0 n' -> Q () n') -> wlp (E := Panic) (modify f) Q n.
Proof. intros Hk HQ. apply wlp_modify. auto. Qed.

(** An update of fields [keep] does not mention. *)
Ltac keep_upd :=
  lazymatch goal with
  | H : keep ?n0 ?n |- keep ?n0 _ =>
      destruct H; split; try assumption;
      try (match goal with Hs : static _ |- static _ => destruct Hs; split; assumption end)
  end.

Lemma storeOp_keeps op : (forall s : S, durable (op s).1 = durable s) -> keeps (storeOp op).
Proof.
  intros Hop n0 n []. unfold wlp, storeOp. specialize (Hop (n_store n)).
  destruct (op (n_store n)) as [s err]. cbn in Hop.
  split; try assumption; [destruct k_static0; by split|..]; unfold ahead, synced; cbn; by rewrite Hop.
Qed.

Lemma failStorage_keeps : keeps failStorage.
Proof.
  intros n0 n []. unfold failStorage. wlp_pures.
  split; try assumption; cbn; try done; [by right|destruct k_static0; by split|set_solver].
Qed.

Lemma failStorageWith_keeps err : keeps (failStorageWith err).
Proof.
  intros n0 n Hk. unfold failStorageWith. wlp_pures. apply failStorage_keeps. keep_upd.
Qed.

Lemma persist_call n0 n h (Q : bool -> Node S -> Prop) :
  keep n0 n -> h_Term h = n_Term n0 -> h_VotedFor h = n_VotedFor n0 ->
  (forall a n', keep n0 n' -> Q a n') -> wlp (persistHardState h) Q n.
Proof.
  intros Hk Ht Hv HQ. unfold persistHardState. wlp_pures. unfold storeOp. unfold wlp at 1.
  destruct (SaveHardState h (n_store n)) as [s [e|]] eqn:E; wlp_pures.
  - unfold failStorageWith, failStorage. wlp_pures. apply HQ. apply durable_save_err in E. destruct Hk.
    split; try assumption; cbn; try done; [by right|destruct k_static0; by split| |set_solver].
    destruct E as [E|E]; unfold ahead; cbn; rewrite E; [assumption|].
    right. rewrite Ht, Hv, k_term0, k_vote0. auto.
  - apply HQ. apply durable_save in E. destruct Hk.
    split; try assumption; [destruct k_static0; by split|..]; unfold ahead, synced; cbn;
      rewrite E, Ht, Hv, k_term0, k_vote0; auto.
Qed.

(** The term and vote of a saved hard state are the current ones. *)
Ltac keep_hs :=
  cbn;
  match goal with
  | H : keep ?n0 ?n |- n_Term ?n = n_Term ?n0 => exact (k_term _ _ H)
  | H : keep ?n0 ?n |- n_VotedFor ?n = n_VotedFor ?n0 => exact (k_vote _ _ H)
  end.

Create HintDb keeps discriminated.

(** One step of a [keeps] proof. *)
Ltac keep_step :=
  lazymatch goal with
  | |- wlp (mbind _ _) _ _ => wlp_pure
  | |- wlp get _ _ => wlp_pure
  | |- wlp (mret _) _ _ => wlp_pure
  | |- wlp (panic _) _ _ => wlp_pure
  | H : keep ?n0 ?n |- wlp (modify _) _ ?n => apply (modify_call n0); [|cbn beta; intros]
  | |- wlp (match ?x with _ => _ end) _ _ => destruct x
  | H : keep ?n0 ?n |- wlp (forM_ _ _) _ ?n =>
      eapply wlp_mono; [apply (wlp_forM_ (fun n' => keep n0 n')); [|intros]|cbn beta; intros]
  | H : keep ?n0 ?n |- wlp (foldM _ _ _) _ ?n =>
      eapply wlp_mono; [apply (wlp_foldM (fun _ n' => keep n0 n')); [|intros]|cbn beta; intros]
  | H : keep ?n0 ?n |- wlp (persistHardState _) _ ?n =>
      eapply persist_call; [exact H|keep_hs|keep_hs|cbn beta; intros]
  | |- wlp _ _ _ => eapply keeps_call; [solve [auto with keeps]|eassumption|cbn beta; intros]
  | |- keep _ _ => first [assumption|keep_upd; done]
  end.
Ltac keep_auto := repeat keep_step.

(** Reading the log yields entries of the fixed membership. *)
Lemma entryAt_static i n : static n -> wlp (entryAt i) (fun e n' => n' = n /\ cfgfree e = true) n.
Proof.
  intros [_ Hlog _]. unfold entryAt. wlp_pures. destruct (offset n i) as [off|]; wlp_pures.
  split; [done|]. unfold logAt. destruct (n_Log n !! Z.to_nat off) as [e|] eqn:E; [|done].
  by apply (Forall_lookup_1 _ _ _ _ Hlog E).
Qed.

Lemma effectiveVoters_static n : static n -> wlp effectiveVoters (fun p n' => n' = n /\ p = (V, 0)) n.
Proof.
  intros Hs. unfold effectiveVoters. wlp_pures.
  eapply wlp_mono; [apply (wlp_foldM (fun p n' => n' = n /\ p = (V, 0)))|].
  - split; [done|]. apply Hs.
  - intros [o w] i n1 _ [-> [= -> ->]]. wlp_pures. wlp_call entryAt_static; [done|].
    intros e n1 [-> He]. wlp_pures. split; [done|]. unfold cfgfree, isConfig in He.
    by destruct (e_Kind e =? EntryJointConfig).
  - intros p n' [-> ->]. done.
Qed.

Lemma quorumMask_static mask n : static n -> wlp (quorumMask mask) (fun q n' => n' = n /\ q = quorum V 0 mask) n.
Proof.
  intros Hs. unfold quorumMask. wlp_pures. wlp_call effectiveVoters_static; [done|].
  intros [o w] n' [-> [= -> ->]]. by wlp_pures.
Qed.

Lemma quorumMask_keeps mask : keeps (quorumMask mask).
Proof. intros n0 n Hk. wlp_call quorumMask_static; [apply Hk|]. by intros q n' [-> _]. Qed.

Lemma bitOf_keeps id : keeps (bitOf id).
Proof. intros n0 n Hk. unfold bitOf. by keep_auto. Qed.

Lemma entryAt_keeps i : keeps (entryAt i).
Proof. intros n0 n Hk. unfold entryAt. by keep_auto. Qed.

Lemma termAtMust_keeps i : keeps (termAtMust i).
Proof. intros n0 n Hk. unfold termAtMust. by keep_auto. Qed.

Lemma isVoter_keeps id : keeps (isVoter id).
Proof.
  intros n0 n Hk. unfold isVoter. wlp_pures. wlp_call effectiveVoters_static; [apply Hk|].
  intros [o w] n' [-> _]. wlp_pures. eapply keeps_call; [apply bitOf_keeps|done|]. by keep_auto.
Qed.

#[local] Hint Resolve quorumMask_keeps bitOf_keeps entryAt_keeps termAtMust_keeps isVoter_keeps
  failStorage_keeps failStorageWith_keeps : keeps.

Lemma send_keeps m : quiet m -> keeps (send m).
Proof.
  intros Hm n0 n Hk. unfold send. wlp_pures. destruct (_ =? _); [wlp_pures|].
  apply (modify_call n0); [|auto]. destruct Hk. split; try assumption; [destruct k_static0; by split|].
  cbn. intros m' [?| ->%list_elem_of_singleton]%elem_of_app; auto.
Qed.

Lemma send_kept n0 n m :
  quiet m -> keep n0 n ->
  wlp (send m) (fun _ n' => keep n0 n' /\ n_Faulted n' = n_Faulted n /\ n_State n' = n_State n) n.
Proof.
  intros Hm Hk. pose proof (send_keeps m Hm n0 n Hk) as H. revert H. unfold send, wlp, mbind, M_bind, get.
  by destruct (_ =? _).
Qed.

Lemma termAtMust_read i n : wlp (termAtMust i) (fun _ n' => n' = n) n.
Proof. unfold termAtMust. wlp_pures. by destruct (termAt n i). Qed.

(** Messages without entry or snapshot, other than votes, are quiet. *)
Lemma quiet_plain m :
  m_Type m <> MsgRequestVoteResponse -> cfgfree (m_Entry m) = true -> m_SnapshotOld m = 0 -> quiet m.
Proof. intros Ht He Ho. split; [split; [done|by left]|]. by intros [? _]. Qed.

Lemma quiet_reject m :
  m_Reject m = true -> cfgfree (m_Entry m) = true -> m_SnapshotOld m = 0 -> quiet m.
Proof. intros Ht He Ho. split; [split; [done|by left]|]. intros [_ ?]. congruence. Qed.

Lemma ensurePeers_keeps mask : keeps (ensurePeers mask).
Proof. intros n0 n Hk. unfold ensurePeers. by keep_auto. Qed.
#[local] Hint Resolve ensurePeers_keeps : keeps.

Lemma cfgfree_kind e : 
  cfgfree e = true -> (e_Kind e =? EntryJointConfig) = false /\ (e_Kind e =? EntryFinalConfig) = false.
Proof. unfold cfgfree, isConfig. intros [??]%negb_true_iff%orb_false_elim. done. Qed.

Lemma applyCommittedConfigurations_keeps first last : keeps (applyCommittedConfigurations first last).
Proof.
  intros n0 n Hk. unfold applyCommittedConfigurations. wlp_pures.
  apply (wlp_forM_ (fun n' => keep n0 n')); [done|]. intros i n1 _ Hk1. wlp_pures.
  wlp_call entryAt_static; [apply Hk1|]. intros e n1' [-> [-> ->]%cfgfree_kind]. by keep_auto.
Qed.

Lemma rebuildPendingConfig_keeps : keeps rebuildPendingConfig.
Proof. intros n0 n Hk. unfold rebuildPendingConfig. by keep_auto. Qed.
#[local] Hint Resolve applyCommittedConfigurations_keeps rebuildPendingConfig_keeps : keeps.

Lemma appendToContext_keeps p ctx : keeps (appendToContext p ctx).
Proof.
  intros n0 n Hk. unfold appendToContext. wlp_pures. destruct (_ <=? _).
  { eapply keeps_call; [apply send_keeps|done|auto]. split; [split; [done|]|by intros [? _]].
    apply (k_static _ _ Hk). }
  wlp_pures. apply (wlp_mono _ (fun _ n' => keep n0 n')); [by keep_auto|].
  intros next n1 Hk1. wlp_pures. eapply keeps_call; [apply termAtMust_keeps|done|].
  intros t n2 Hk2. destruct (_ <? _); wlp_pures.
  - wlp_call entryAt_static; [apply Hk2|]. intros e n3 [-> He].
    apply send_keeps; [|done]. apply quiet_plain; done.
  - apply send_keeps; [|done]. apply quiet_plain; done.
Qed.
#[local] Hint Resolve appendToContext_keeps : keeps.

Lemma appendTo_keeps p : keeps (appendTo p).
Proof. apply appendToContext_keeps. Qed.
#[local] Hint Resolve appendTo_keeps : keeps.

Lemma broadcastAppend_keeps : keeps broadcastAppend.
Proof. intros n0 n Hk. unfold broadcastAppend. by keep_auto. Qed.
#[local] Hint Resolve broadcastAppend_keeps : keeps.

Lemma log_snoc_keep n0 n e :
  keep n0 n -> cfgfree e = true -> keep n0 (n <| n_Log := n_Log n ++ [e] |>).
Proof.
  intros [] He. split; try assumption. destruct k_static0. split; try assumption.
  apply Forall_app. split; [done|by apply Forall_singleton].
Qed.

Lemma appendLocal_keeps e : cfgfree e = true -> keeps (appendLocal e).
Proof.
  intros He n0 n Hk. unfold appendLocal. wlp_pures.
  eapply keeps_call; [apply storeOp_keeps, durable_append|done|]. intros [err|] n1 Hk1; [by keep_auto|].
  apply wlp_bind, (modify_call n0); [by apply log_snoc_keep|]. intros n2 Hk2. by keep_auto.
Qed.
#[local] Hint Resolve appendLocal_keeps : keeps.

(** ** Replication handlers keep the vote *)

Lemma appendEntry_keeps m : cfgfree (m_Entry m) = true -> keeps (appendEntry m).
Proof.
  intros He n0 n Hk. unfold appendEntry. wlp_pures.
  apply (wlp_mono _ (fun _ n' => keep n0 n')).
  { destruct (offset n _) as [off|]; [|by keep_auto]. destruct (negb _); [|by keep_auto].
    apply wlp_bind, (modify_call n0); [|intros; by keep_auto]. destruct Hk. split; try assumption.
    destruct k_static0. split; try assumption. by apply Forall_take. }
  intros _ n1 Hk1. wlp_pures. destruct (_ =? _); [|by keep_auto]. wlp_pures.
  eapply keeps_call; [apply storeOp_keeps, durable_append|done|]. intros [err|] n2 Hk2; [by keep_auto|].
  apply wlp_bind, (modify_call n0); [by apply log_snoc_keep|]. intros n3 Hk3. by keep_auto.
Qed.

Lemma appendCommit_keeps m : keeps (appendCommit m).
Proof. intros n0 n Hk. unfold appendCommit. by keep_auto. Qed.
#[local] Hint Resolve appendEntry_keeps appendCommit_keeps : keeps.

Lemma follower_keep n0 n ld el :
  keep n0 n -> keep n0 (n <| n_State := Follower |> <| n_Leader := ld |> <| n_elapsed := el |>).
Proof. intros []. split; try assumption; [by right|destruct k_static0; by split|done]. Qed.

Lemma onAppend_keeps m : staticMsg m -> keeps (onAppend m).
Proof.
  intros [He _] n0 n Hk. unfold onAppend. wlp_pures.
  apply (wlp_mono _ (fun _ n' => keep n0 n')).
  { destruct (appendRejected n m); [by keep_auto|].
    apply wlp_bind, (modify_call n0); [by apply follower_keep|]. intros n1 Hk1. by keep_auto. }
  intros ok n1 Hk1. destruct ok; [|by keep_auto]. wlp_pures. apply send_keeps; [|done].
  by apply quiet_plain.
Qed.

Lemma ackedMask_keeps idx : keeps (ackedMask idx).
Proof. intros n0 n Hk. unfold ackedMask. by keep_auto. Qed.

Lemma canCommitIndex_keeps idx acked : keeps (canCommitIndex idx acked).
Proof.
  intros n0 n Hk. unfold canCommitIndex. wlp_pures.
  eapply wlp_mono; [apply (wlp_foldM (fun _ n' => keep n0 n')); [done|]|].
  - intros [o w] i n1 _ Hk1. by keep_auto.
  - intros [o w] n1 Hk1. by keep_auto.
Qed.
#[local] Hint Resolve ackedMask_keeps canCommitIndex_keeps : keeps.

Lemma commitLoop_keeps l : keeps (commitLoop l).
Proof.
  induction l as [|idx l IH]; intros n0 n Hk; cbn [commitLoop]; [by keep_auto|].
  wlp_pures. eapply keeps_call; [apply termAtMust_keeps|done|]. intros t n1 Hk1.
  destruct (negb _); [by apply IH|]. wlp_pures.
  eapply keeps_call; [apply ackedMask_keeps|done|]. intros acked n2 Hk2. wlp_pures.
  eapply keeps_call; [apply canCommitIndex_keeps|done|]. intros c n3 Hk3.
  destruct c; [|by apply IH]. by keep_auto.
Qed.
#[local] Hint Resolve commitLoop_keeps : keeps.

Lemma onAppendResponse_keeps m : keeps (onAppendResponse m).
Proof. intros n0 n Hk. unfold onAppendResponse. by keep_auto. Qed.

Lemma onInstallSnapshotResponse_keeps m : keeps (onInstallSnapshotResponse m).
Proof. intros n0 n Hk. unfold onInstallSnapshotResponse. by keep_auto. Qed.

Lemma installSnapshot_keeps m :
  staticMsg m -> m_SnapshotOld m <> 0 -> keeps (installSnapshot m).
Proof.
  intros [_ [?|[Eo Ew]]] Ho n0 n Hk; [done|]. unfold installSnapshot.
  destruct AsSnapshotStore as [ops|] eqn:Eops; [|by keep_auto]. wlp_pures.
  eapply keeps_call; [apply storeOp_keeps; intros; by apply durable_snapshot|done|].
  intros [err|] n1 Hk1; [by keep_auto|]. wlp_pures.
  eapply keeps_call; [apply storeOp_keeps; intros; by apply durable_compact|done|].
  intros [err|] n2 Hk2; [by keep_auto|]. wlp_pures.
  destruct Hk2. split; try assumption. destruct k_static0. split; nsimp.
  - unfold VoterMasks. cbn. by rewrite Eo, Ew.
  - destruct (offset n2 _); [|by apply Forall_singleton].
    destruct (_ =? _); [by apply Forall_drop|by apply Forall_singleton].
  - by right.
Qed.

Lemma onInstallSnapshot_keeps m : staticMsg m -> keeps (onInstallSnapshot m).
Proof.
  intros Hm n0 n Hk. unfold onInstallSnapshot. wlp_pures. set (reject := _ || _).
  apply (wlp_mono _ (fun _ n' => keep n0 n')).
  { destruct (negb reject && _) eqn:E; [|by keep_auto].
    apply installSnapshot_keeps; [done| |done]. apply andb_prop in E as [E%negb_true_iff _].
    apply orb_false_elim in E as [E _]. apply orb_false_elim in E as [_ E%Z.eqb_neq]. done. }
  intros [] n1 Hk1; [|by keep_auto]. wlp_pures.
  apply (wlp_mono _ (fun _ n' => keep n0 n')).
  { destruct reject; [by keep_auto|]. apply (modify_call n0); [by apply follower_keep|auto]. }
  intros _ n2 Hk2. wlp_pures. apply send_keeps; [|done]. by apply quiet_plain.
Qed.

Lemma onPreVote_keeps m : keeps (onPreVote m).
Proof.
  intros n0 n Hk. unfold onPreVote. wlp_pures. eapply keeps_call; [apply termAtMust_keeps|done|].
  intros t n1 Hk1. wlp_pures. eapply keeps_call; [apply isVoter_keeps|done|].
  intros v n2 Hk2. apply send_keeps; [|done]. by apply quiet_plain.
Qed.

(** ** Client operations keep the vote *)

Lemma Propose_keeps command : keeps (Propose command).
Proof. intros n0 n Hk. unfold Propose. by keep_auto. Qed.

Lemma ProposeRequest_keeps op cid rid key value : keeps (ProposeRequest op cid rid key value).
Proof. intros n0 n Hk. unfold ProposeRequest. by keep_auto. Qed.

Lemma StartReadIndex_keeps ctx : keeps (StartReadIndex ctx).
Proof. intros n0 n Hk. unfold StartReadIndex. by keep_auto. Qed.

Lemma TransferLeadership_keeps target : keeps (TransferLeadership target).
Proof.
  intros n0 n Hk. unfold TransferLeadership. wlp_pures. destruct (_ || _); [by keep_auto|].
  wlp_pures. eapply keeps_call; [apply isVoter_keeps|done|]. intros [] n1 Hk1; [|by keep_auto].
  destruct (_ <? _); [by keep_auto|]. wlp_pures.
  eapply keeps_call; [apply send_keeps; by apply quiet_plain|done|]. intros; by keep_auto.
Qed.

Lemma ApplyEntries_keeps dst : keeps (ApplyEntries dst).
Proof. intros n0 n Hk. unfold ApplyEntries. by keep_auto. Qed.

Lemma Compact_keeps index state : keeps (Compact index state).
Proof.
  intros n0 n Hk. unfold Compact. wlp_pures. destruct (_ || _); [by keep_auto|].
  destruct (termAt n index) as [t|]; [|by keep_auto]. destruct (offset n index) as [off|]; [|by keep_auto].
  destruct AsSnapshotStore as [ops|] eqn:Eops; [|by keep_auto]. wlp_pures.
  eapply keeps_call; [apply storeOp_keeps; intros; by apply durable_snapshot|done|].
  intros [err|] n1 Hk1; [by keep_auto|]. wlp_pures.
  eapply keeps_call; [apply storeOp_keeps; intros; by apply durable_compact|done|].
  intros [err|] n2 Hk2; [by keep_auto|]. wlp_pures.
  pose proof (st_voters _ (k_static _ _ Hk)) as [= Eo Ew].
  destruct Hk2. split; try assumption. destruct k_static0. split; nsimp; [done|by apply Forall_drop|].
  right. split; [exact Eo|exact Ew].
Qed.

(** ** Operations that change the vote *)

(** The node-local part of the election invariant. *)
Record sound n : Prop := {
  so_static : static n;
  so_ahead : ahead n;
  so_synced : n_Faulted n = false -> synced n;
  so_fault : n_Faulted n = true -> n_State n = Follower;
  so_term : 0 <= n_Term n
}.

Lemma sound_keep n : sound n -> keep n n.
Proof. intros []. split; auto. Qed.

Lemma keep_sound n0 n : sound n0 -> keep n0 n -> sound n.
Proof. intros [] []. split; auto. by rewrite k_term0. Qed.

(** [legal src n n']: what a whole operation may do.  [src T b] tells that the
    operation consumed a granting response of node [b + 1] in term [T]. *)
Record legal (src : Z -> Z -> Prop) n n' : Prop := mkLegal {
  l_id : n_ID n' = n_ID n;
  l_sound : sound n';
  l_vote : n_Term n < n_Term n' \/
    n_Term n' = n_Term n /\ (n_VotedFor n' = n_VotedFor n \/ n_VotedFor n = 0);
  l_mask : n_State n' <> Follower -> forall b, Z.testbit (n_voteMask n') b = true ->
    (b = n_ID n' - 1 /\ n_VotedFor n' = n_ID n') \/
    (n_Term n' = n_Term n /\ n_State n <> Follower /\ Z.testbit (n_voteMask n) b = true) \/
    src (n_Term n') b;
  l_leader : n_State n' = Leader ->
    (n_State n = Leader /\ n_Term n' = n_Term n /\ n_voteMask n' = n_voteMask n) \/
    quorum V 0 (n_voteMask n') = true;
  l_out : forall m, m ∈ n_outbound n' -> m ∈ n_outbound n \/ quiet m \/
    staticMsg m /\ m_From m = n_ID n' /\ m_Term m = n_Term n' /\
    m_To m = n_VotedFor n' /\ n_VotedFor n' <> 0
}.

Lemma keep_legal src n n' : sound n -> keep n n' -> legal src n n'.
Proof.
  intros Hs Hk. pose proof (keep_sound _ _ Hs Hk). destruct Hk. split; try assumption.
  - right. split; [done|by left].
  - intros Hst b Hb. right. left. split; [done|]. split; [|by rewrite <- k_mask0].
    destruct k_state0; congruence.
  - intros Hst. left. split_and!; try done. destruct k_state0; congruence.
  - intros m Hm. destruct (k_out0 m Hm); auto.
Qed.

Lemma keeps_legal {A} (op : MN S A) src n :
  keeps op -> sound n -> wlp op (fun _ n' => legal src n n') n.
Proof.
  intros Hop Hs. eapply wlp_mono; [apply Hop, sound_keep, Hs|]. intros. by apply keep_legal.
Qed.

(** After a step that left a follower, later changes count from the start. *)
Lemma legal_follower src n0 n n' :
  legal src n0 n -> n_State n = Follower -> (forall m, m ∈ n_outbound n -> m ∈ n_outbound n0) ->
  legal src n n' -> legal src n0 n'.
Proof.
  intros H1 Hf Hout H2. split.
  - rewrite (l_id _ _ _ H2). apply H1.
  - apply H2.
  - destruct (l_vote _ _ _ H1) as [?|[E [Ev|Ev]]], (l_vote _ _ _ H2) as [?|[E' [Ev'|Ev']]]; try lia; right;
      (split; [lia|]); rewrite ?Ev', ?Ev in *; auto.
  - intros Hst b Hb. destruct (l_mask _ _ _ H2 Hst b Hb) as [?|[(_ & Hn & _)|?]]; [by auto|done|by auto].
  - intros Hst. destruct (l_leader _ _ _ H2 Hst) as [(Hn & _)|?]; [by rewrite Hn in Hf|by auto].
  - intros m Hm. destruct (l_out _ _ _ H2 m Hm) as [Hm'|[?|?]]; auto.
Qed.

(** The node a won election starts from. *)
Definition leaderUpd n : Node S :=
  n <| n_State := Leader |> <| n_Leader := n_ID n |> <| n_elapsed := 0 |>.

Lemma becomeLeader_keep n :
  sound n -> n_Faulted n = false -> wlp becomeLeader (fun _ n' => keep (leaderUpd n) n') n.
Proof.
  intros [] Hf. unfold becomeLeader. apply wlp_bind, (modify_call (leaderUpd n)).
  - destruct so_static0. split; auto; [by split|]. cbn. congruence.
  - intros n1 Hk1. by keep_auto.
Qed.

(** Won election: [n] is the candidate that reached a quorum. *)
Lemma elected_legal src n0 n n' :
  sound n0 -> keep (leaderUpd n) n' -> quorum V 0 (n_voteMask n) = true ->
  sound n -> legal src n0 n -> n_State n <> Follower -> legal src n0 n'.
Proof.
  intros Hs0 Hk Hq Hs Hl Hst. assert (sound n') as Hs'.
  { destruct Hs, Hk. split; auto. by rewrite k_term0. }
  destruct Hk, Hl. cbn in *. split; rewrite ?k_id0, ?k_term0, ?k_vote0, ?k_mask0; try done.
  - auto.
  - intros _. by right.
  - intros m Hm. destruct (k_out0 m Hm) as [Hm'|?]; [|by auto]. by apply l_out0.
Qed.

Lemma nodeBit_testbit id b k : nodeBit id = Some b -> Z.testbit b k = true -> k = id - 1.
Proof.
  unfold nodeBit. destruct (_ || _) eqn:E; [done|]. intros [= <-] Hk.
  apply orb_false_elim in E as [E1%Z.eqb_neq E2%Z.ltb_ge].
  destruct (decide (0 <= id)) as [Hid|Hid].
  - rewrite w64_small in Hk by (apply bit_u64; lia).
    destruct (decide (0 <= k)); [|by rewrite Z.testbit_neg_r in Hk by lia].
    rewrite testbit_bit in Hk by lia. lia.
  - assert (Z.shiftl 1 (id - 1) = 0) as E0; [|by rewrite E0, Z.testbit_0_l in Hk].
    replace (id - 1) with (- (- (id - 1))) by lia. rewrite <- Z.shiftr_opp_r, Z.opp_involutive.
    apply Z.shiftr_eq_0; cbn; lia.
Qed.

Lemma bitOf_wlp id n : wlp (bitOf id) (fun b n' => n' = n /\ forall k, Z.testbit b k = true -> k = id - 1) n.
Proof.
  unfold bitOf. destruct (nodeBit id) eqn:E; wlp_pures. split; [done|].
  intros k. by apply nodeBit_testbit.
Qed.

Lemma legal_keep src n0 n n' : legal src n0 n -> keep n n' -> legal src n0 n'.
Proof.
  intros Hl Hk. pose proof (keep_sound _ _ (l_sound _ _ _ Hl) Hk) as Hs.
  destruct Hk, Hl. split; try assumption; rewrite ?k_id0, ?k_term0, ?k_vote0, ?k_mask0; try done.
  - intros Hst. destruct k_state0; [|congruence]. apply l_mask0. congruence.
  - intros Hst. destruct k_state0; [|congruence]. apply l_leader0. congruence.
  - intros m Hm. destruct (k_out0 m Hm) as [Hm'|?]; [|by auto]. by apply l_out0.
Qed.

Lemma keep_then_legal src n0 n n' :
  sound n0 -> keep n0 n -> n_State n = n_State n0 -> legal src n n' -> legal src n0 n'.
Proof.
  intros Hs Hk Hst Hl. destruct Hk, Hl. rewrite ?k_id0, ?k_term0, ?k_vote0, ?k_mask0, ?Hst in *.
  split; try assumption.
  intros m Hm. destruct (l_out0 m Hm) as [Hm'|?]; [|by auto]. destruct (k_out0 m Hm'); auto.
Qed.

(** A storage failure while saving a newer term or vote. *)
Lemma fault_legal src n s e h :
  sound n -> n_Faulted n = false -> SaveHardState h (n_store n) = (s, Some e) ->
  (n_Term n < h_Term h \/ h_Term h = n_Term n /\ n_VotedFor n = 0) \/
  (h_Term h = n_Term n /\ h_VotedFor h = n_VotedFor n) ->
  legal src n (faultUpd n s (Some e)).
Proof.
  intros [] Hf E Hh. apply durable_save_err in E. specialize (so_synced0 Hf) as [Et Ev].
  assert (sound (faultUpd n s (Some e))) as Hs.
  { split; try done; [destruct so_static0; by split|]. unfold ahead in *. cbn.
    destruct E as [-> | ->]; [done|]. naive_solver. }
  split; try done; cbn.
  - right. split; [done|by left].
  - set_solver.
Qed.

Lemma startElection_legal src n :
  sound n -> n_Faulted n = false -> n_Term n < maxu64 -> wlp startElection (fun _ n' => legal src n n') n.
Proof.
  intros Hs Hf Ht. pose proof (so_term _ Hs) as Ht0. unfold startElection. wlp_pures.
  rewrite w64_small by (unfold is_u64, maxu64 in *; lia).
  eapply wlp_mono; [apply wp_wlp, persistHardState_wp|]. intros [] n1 (s & Hsave).
  2: { destruct Hsave as (e & E & ->). wlp_pures. eapply fault_legal; [done|done|exact E|]. cbn. lia. }
  destruct Hsave as [E%durable_save ->]. wlp_pures.
  wlp_call bitOf_wlp. intros bit n1 [-> Hbit]. wlp_pures.
  set (n1 := _ <| n_preVoteMask := 0 |>).
  assert (sound n1) as Hs1.
  { destruct Hs, so_static0. split; [by split|..]; unfold ahead, synced; cbn; rewrite ?E; cbn.
    - auto.
    - auto.
    - congruence.
    - lia. }
  assert (legal src n n1) as Hl1.
  { split; try done; cbn.
    - lia.
    - intros _ b Hb%Hbit. by left.
    - intros m Hm. by left. }
  eapply wlp_mono; [apply (wlp_forM_ (fun n' => keep n1 n' /\ n_Faulted n' = false /\ n_State n' = Candidate))|].
  { split; [by apply sound_keep|done]. }
  { intros p n2 _ (Hk2 & Hf2 & Hst2). wlp_pures. wlp_call termAtMust_read. intros t n3 ->.
    eapply wlp_mono; [eapply send_kept; [|exact Hk2]; by apply quiet_plain|].
    intros _ n3 (Hk3 & Hf3 & Hst3). split; [done|]. by rewrite Hf3, Hst3. }
  cbn beta. intros _ n2 (Hk2 & Hf2 & Hst2). wlp_pures. wlp_call quorumMask_static; [apply Hk2|].
  intros q n2' [-> ->]. pose proof (legal_keep _ _ _ _ Hl1 Hk2) as Hl2.
  change (n_voteMask n1) with bit. destruct (quorum V 0 bit) eqn:Eq; wlp_pures; [|done].
  wlp_call becomeLeader_keep; [apply Hl2|done|]. intros _ n3 Hk3.
  apply (elected_legal src n n2); [done|done| |apply Hl2|done|congruence].
  by rewrite (k_mask _ _ Hk2).
Qed.

Lemma startPreVote_legal src n :
  sound n -> n_Faulted n = false -> n_Term n < maxu64 -> wlp startPreVote (fun _ n' => legal src n n') n.
Proof.
  intros Hs Hf Ht. unfold startPreVote. wlp_pures. wlp_call bitOf_wlp. intros bit n1 [-> _]. wlp_pures.
  set (n1 := _ <| n_preVoteMask := bit |>).
  assert (keep n n1) as Hk1.
  { pose proof (sound_keep _ Hs) as []. destruct k_static0. split; try assumption. by split. }
  eapply wlp_mono; [apply (wlp_forM_ (fun n' => keep n n' /\ n_Faulted n' = false /\ n_State n' = n_State n))|].
  { done. }
  { intros p n2 _ (Hk2 & Hf2 & Hst2). wlp_pures. wlp_call termAtMust_read. intros t n3 ->.
    eapply wlp_mono; [eapply send_kept; [|exact Hk2]; by apply quiet_plain|].
    intros _ n3 (Hk3 & Hf3 & Hst3). split; [done|]. by rewrite Hf3, Hst3. }
  cbn beta. intros _ n2 (Hk2 & Hf2 & Hst2). wlp_pures. wlp_call quorumMask_static; [apply Hk2|].
  intros q n2' [-> ->]. destruct (quorum _ _ _); wlp_pures; [|by apply keep_legal].
  wlp_call (startElection_legal src); [by eapply keep_sound|done|by rewrite (k_term _ _ Hk2)|].
  intros _ n3 Hl. by apply (keep_then_legal src n n2).
Qed.

Lemma Tick_legal src n :
  sound n -> n_Term n < maxu64 -> wlp Tick (fun _ n' => legal src n n') n.
Proof.
  intros Hs Ht. unfold Tick. wlp_pures. destruct (n_Faulted n) eqn:Hf.
  { wlp_pures. by apply keep_legal, sound_keep. }
  wlp_pures. set (n1 := n <| n_elapsed := _ |>).
  assert (keep n n1) as Hk1.
  { pose proof (sound_keep _ Hs) as []. destruct k_static0. split; try assumption. by split. }
  assert (sound n1) as Hs1 by by eapply keep_sound.
  case_decide.
  - apply (wlp_mono _ (fun _ n' => keep n n')); [by keep_auto|]. intros a n' Hk. by apply keep_legal.
  - destruct (_ <=? _); [|wlp_pures; by apply keep_legal].
    wlp_call (startPreVote_legal src); [done|done|done|].
    intros _ n2 Hl. by apply (keep_then_legal src n n1).
Qed.

Lemma isVoter_read id n : static n -> wlp (isVoter id) (fun _ n' => n' = n /\ id <> 0) n.
Proof.
  intros Hs. unfold isVoter. wlp_pures. wlp_call effectiveVoters_static; [done|].
  intros [o w] n' [-> _]. wlp_pures. unfold bitOf. destruct (nodeBit id) eqn:E; wlp_pures.
  split; [done|]. intros ->. done.
Qed.

Lemma onVote_legal src m n :
  sound n -> n_Faulted n = false -> wlp (onVote m) (fun _ n' => legal src n n') n.
Proof.
  intros Hs Hf. unfold onVote. wlp_pures. wlp_call termAtMust_read. intros t n1 ->. wlp_pures.
  wlp_call isVoter_read; [apply Hs|]. intros v n1 [-> Hid]. set (g := v && _ && _ && _).
  destruct g eqn:Eg; wlp_pures.
  2: { eapply wlp_mono; [apply send_keeps; [by apply quiet_reject|by apply sound_keep]|].
       cbn beta. intros _ n' Hk. by apply keep_legal. }
  eapply wlp_mono; [apply wp_wlp, persistHardState_wp|]. intros [] n1 (s & Hsave).
  2: { destruct Hsave as (e & E & ->). wlp_pures. eapply fault_legal; [done|done|exact E|]. cbn.
       unfold g in Eg. apply andb_prop in Eg as [Eg _]. apply andb_prop in Eg as [_ Eg].
       apply orb_prop in Eg as [Eg|Eg]; apply Z.eqb_eq in Eg; [by auto|right; done]. }
  destruct Hsave as [E%durable_save ->]. wlp_pures. unfold send. wlp_pures.
  destruct (len _ =? outboundCapacity); wlp_pures.
  match goal with |- legal _ _ ?x => set (n' := x) end.
  assert (n_VotedFor n = m_From m \/ n_VotedFor n = 0) as Hv.
  { unfold g in Eg. apply andb_prop in Eg as [Eg _]. apply andb_prop in Eg as [_ Eg].
    apply orb_prop in Eg as [Eg|Eg]; apply Z.eqb_eq in Eg; auto. }
  assert (sound n') as Hs'.
  { destruct Hs, so_static0. split; [by split|..]; unfold ahead, synced; cbn; rewrite ?E; cbn; auto. }
  split; try done; cbn.
  - right. split; [done|]. destruct Hv; auto.
  - intros Hst b Hb. auto.
  - intros Hst. left. auto.
  - intros m' [?| ->%list_elem_of_singleton]%elem_of_app; [by auto|]. right. right.
    split; [|done]. split; [done|by left].
Qed.

(** The granting response an operation consumed. *)
Definition consumed (m : Message) (T b : Z) : Prop :=
  grant m /\ m_Term m = T /\ b = m_From m - 1.

Lemma onVoteResponse_legal m n :
  sound n -> n_Faulted n = false -> m_Type m = MsgRequestVoteResponse ->
  wlp (onVoteResponse m) (fun _ n' => legal (consumed m) n n') n.
Proof.
  intros Hs Hf Hty. unfold onVoteResponse. wlp_pures.
  destruct (negb _) eqn:Est; wlp_pures; [by apply keep_legal, sound_keep|].
  apply negb_false_iff, bool_decide_eq_true_1 in Est.
  wlp_call isVoter_read; [apply Hs|]. intros v n1 [-> _].
  destruct (v && _ && _) eqn:Eg; wlp_pures; [|by apply keep_legal, sound_keep].
  apply andb_prop in Eg as [[_ Et%Z.eqb_eq]%andb_prop Er%negb_true_iff].
  wlp_call bitOf_wlp. intros bit n1 [-> Hbit]. wlp_pures.
  set (n1 := n <| n_voteMask := _ |>).
  assert (sound n1) as Hs1 by (destruct Hs, so_static0; split; [by split|done..]).
  assert (legal (consumed m) n n1) as Hl1.
  { split; try done; cbn; [auto| |congruence|auto].
    intros _ b Hb. rewrite Z.lor_spec in Hb. apply orb_prop in Hb as [Hb|Hb%Hbit].
    - right. left. split; [done|]. split; [congruence|done].
    - right. right. done. }
  wlp_call quorumMask_static; [apply Hs1|]. intros q n1' [-> ->].
  destruct (quorum V 0 _) eqn:Eq; wlp_pures; [|done].
  wlp_call becomeLeader_keep; [done|done|]. intros _ n2 Hk2.
  apply (elected_legal _ n n1); try done. cbn. congruence.
Qed.

Lemma onPreVoteResponse_legal src m n :
  sound n -> n_Faulted n = false -> n_Term n < maxu64 ->
  wlp (onPreVoteResponse m) (fun _ n' => legal src n n') n.
Proof.
  intros Hs Hf Ht. unfold onPreVoteResponse. wlp_pures.
  destruct (bool_decide _); wlp_pures; [by apply keep_legal, sound_keep|].
  wlp_call isVoter_read; [apply Hs|]. intros v n1 [-> _].
  destruct (_ && _); wlp_pures; [|by apply keep_legal, sound_keep].
  wlp_call bitOf_wlp. intros bit n1 [-> _]. wlp_pures.
  set (n1 := n <| n_preVoteMask := _ |>).
  assert (keep n n1) as Hk1.
  { pose proof (sound_keep _ Hs) as []. destruct k_static0. split; try assumption. by split. }
  wlp_call quorumMask_static; [apply Hk1|]. intros q n1' [-> ->].
  destruct (quorum _ _ _); wlp_pures; [|by apply keep_legal].
  wlp_call (startElection_legal src); [by eapply keep_sound|done|done|].
  intros _ n2 Hl. by apply (keep_then_legal src n n1).
Qed.

Lemma onTimeoutNow_legal src m n :
  sound n -> n_Faulted n = false -> n_Term n < maxu64 ->
  wlp (onTimeoutNow m) (fun _ n' => legal src n n') n.
Proof.
  intros Hs Hf Ht. unfold onTimeoutNow. wlp_pures.
  destruct (_ && _); [by apply startElection_legal|wlp_pures; by apply keep_legal, sound_keep].
Qed.

Lemma dispatch_legal m n :
  sound n -> n_Faulted n = false -> n_Term n < maxu64 -> staticMsg m ->
  wlp (dispatch m) (fun _ n' => legal (consumed m) n n') n.
Proof.
  intros Hs Hf Ht Hm. unfold dispatch.
  destruct (m_Type m =? MsgPreVote); [apply keeps_legal; [apply onPreVote_keeps|done]|].
  destruct (m_Type m =? MsgPreVoteResponse); [by apply onPreVoteResponse_legal|].
  destruct (m_Type m =? MsgRequestVote); [by apply onVote_legal|].
  destruct (Z.eqb_spec (m_Type m) MsgRequestVoteResponse); [by apply onVoteResponse_legal|].
  destruct (m_Type m =? MsgAppend); [apply keeps_legal; [by apply onAppend_keeps|done]|].
  destruct (m_Type m =? MsgAppendResponse); [apply keeps_legal; [apply onAppendResponse_keeps|done]|].
  destruct (m_Type m =? MsgInstallSnapshot); [apply keeps_legal; [by apply onInstallSnapshot_keeps|done]|].
  destruct (m_Type m =? MsgInstallSnapshotResponse);
    [apply keeps_legal; [apply onInstallSnapshotResponse_keeps|done]|].
  destruct (m_Type m =? MsgTimeoutNow); [by apply onTimeoutNow_legal|].
  wlp_pures. by apply keep_legal, sound_keep.
Qed.

(** A message of a newer term first turns the node into a follower of that term
    without a vote. *)
Lemma stepTerm_legal src m n :
  sound n -> n_Faulted n = false ->
  wlp (stepTerm m)
     (fun ok n' => legal src n n' /\ n_Faulted n' = negb ok /\
        (n' = n \/ n_State n' = Follower /\ (forall m, m ∈ n_outbound n' -> m ∈ n_outbound n)) /\ (n_Term n' = n_Term n \/ n_Term n' = m_Term m)) n.
Proof.
  intros Hs Hf. unfold stepTerm. wlp_pures. destruct (_ && _) eqn:Eg; wlp_pures.
  2: { split; [by apply keep_legal, sound_keep|]. auto. }
  apply andb_prop in Eg as [_ Et%Z.ltb_lt].
  eapply wlp_mono; [apply wp_wlp, persistHardState_wp|]. intros [] n1 (s & Hsave).
  2: { destruct Hsave as (e & E & ->). wlp_pures.
       split; [eapply fault_legal; [done|done|exact E|]; cbn; lia|]. cbn. split; [done|]. split; [right; set_solver|auto]. }
  destruct Hsave as [E%durable_save ->]. wlp_pures. cbn. split; [|by auto].
  assert (0 <= m_Term m) by (pose proof (so_term _ Hs); lia).
  split; try done; cbn; [|lia|auto].
  destruct Hs, so_static0. split; [by split|..]; unfold ahead, synced; cbn; rewrite ?E; cbn; auto.
Qed.

Lemma Step_legal m n :
  sound n -> n_Term n < maxu64 -> m_Term m < maxu64 -> staticMsg m ->
  wlp (Step m) (fun _ n' => legal (consumed m) n n') n.
Proof.
  intros Hs Ht Hmt Hm. unfold Step. wlp_pures.
  destruct (n_Faulted n) eqn:Hf; wlp_pures; [by apply keep_legal, sound_keep|].
  wlp_call (stepTerm_legal (consumed m)); [done|done|]. intros ok n1 (Hl & Hf1 & Hcase & Htm).
  destruct ok; wlp_pures; [|done].
  wlp_call dispatch_legal; [apply Hl|done|lia|done|]. intros _ n2 Hl2.
  destruct Hcase as [->|[Hfol Hout]]; [done|]. by eapply legal_follower.
Qed.

(** ** Restart *)

Lemma restoreLoop_keep (l : list Z) p n0 n :
  keep n0 n ->
  wlp (restoreConfigurationState_loop l V 0 p)
     (fun r n' => keep n0 n' /\
        match r with Some (o, w, _) => (o, w) = (V, 0) | None => True end) n.
Proof.
  revert p n. induction l as [|i l IH]; intros p n Hk; cbn [restoreConfigurationState_loop].
  { by wlp_pures. }
  wlp_pures. wlp_call entryAt_static; [apply Hk|]. intros e n1 [-> [E1 E2]%cfgfree_kind]. wlp_pures.
  rewrite E1, E2. destruct (e_Kind e =? EntryNormal).
  { destruct (_ || _); [by wlp_pures|]. wlp_pures. eapply keeps_call; [apply ensurePeers_keeps|done|]. auto. }
  destruct (e_Kind e =? EntryNoop); [|by wlp_pures].
  destruct (_ || _); [by wlp_pures|]. wlp_pures. eapply keeps_call; [apply ensurePeers_keeps|done|]. auto.
Qed.

Lemma recoverTail_keep n0 n : keep n0 n -> wlp recoverTail (fun _ n' => keep n0 n') n.
Proof.
  intros Hk. unfold recoverTail. wlp_pures. destruct (_ <? _); [by keep_auto|].
  unfold restoreConfigurationState. wlp_pures.
  pose proof (st_voters _ (k_static _ _ Hk)) as Hv. unfold VoterMasks in Hv. injection Hv as -> ->.
  wlp_call restoreLoop_keep; [done|]. intros [[[o w] p]|] n1 [Hk1 Hr]; wlp_pures; [|by keep_auto].
  injection Hr as -> ->. destruct Hk1. split; try assumption. destruct k_static0. by split.
Qed.

(** A restarted node: a follower with the saved term and vote. *)
Definition restarted (hard : HardState) (j : Z) n : Prop :=
  sound n /\ n_ID n = j /\ n_State n = Follower /\ n_Term n = h_Term hard /\
  n_VotedFor n = h_VotedFor hard /\ n_outbound n = [].

Lemma keep_restarted hard j n0 n :
  keep n0 n -> sound n0 -> n_ID n0 = j -> n_State n0 = Follower -> n_Term n0 = h_Term hard ->
  n_VotedFor n0 = h_VotedFor hard -> n_outbound n = [] -> restarted hard j n.
Proof.
  intros Hk Hs ? Hst ? ? Hout. split; [by eapply keep_sound|].
  destruct Hk. destruct k_state0; split_and!; congruence.
Qed.

(** Recovery sends nothing. *)
Definition silent {A} (op : MN S A) : Prop :=
  forall n, n_outbound n = [] -> wlp op (fun _ n' => n_outbound n' = []) n.

Lemma ensurePeers_silent mask : silent (ensurePeers mask).
Proof.
  intros n Hn. unfold ensurePeers. apply wlp_forM_; [done|]. intros id n1 _ Hn1. wlp_pures.
  unfold bitOf. destruct (nodeBit id); wlp_pures. by repeat case_match; wlp_pures.
Qed.

Lemma restoreLoop_silent l o w p : silent (restoreConfigurationState_loop l o w p).
Proof.
  revert o w p. induction l as [|i l IH]; intros o w p n Hn; cbn [restoreConfigurationState_loop];
    [by wlp_pures|].
  wlp_pures. unfold entryAt. wlp_pures. destruct (offset n i); wlp_pures.
  match goal with |- wlp (match ?x with _ => _ end) _ _ => destruct x as [[[o' w'] p']|] end; [|by wlp_pures].
  wlp_pures. eapply wlp_mono; [by apply ensurePeers_silent|]. cbn beta. intros _ n1 Hn1. by apply IH.
Qed.

Lemma recoverTail_silent : silent recoverTail.
Proof.
  intros n Hn. unfold recoverTail, restoreConfigurationState, failStorage. wlp_pures.
  destruct (_ <? _); wlp_pures; [done|].
  eapply wlp_mono; [by apply restoreLoop_silent|]. cbn beta.
  intros [[[o w] p]|] n1 Hn1; by wlp_pures.
Qed.

Lemma NewNodeWithStore_fields id peers timeout (store : S) n :
  NewNodeWithStore id peers timeout store = inr n ->
  n = freshNode id peers timeout store (n_votersOld n).
Proof.
  unfold NewNodeWithStore. destruct (nodeBit id); [|done].
  destruct (newNode_voters _ peers); [done|]. by intros [= <-].
Qed.

Lemma sound_boot n :
  static n -> n_Faulted n = false -> synced n -> 0 <= n_Term n -> sound n.
Proof.
  intros Hst Hf Hsy Ht. split; try done; [|congruence].
  right. destruct Hsy as [-> ->]. auto.
Qed.

Lemma NewRecoveredNode_restarted id peers timeout store hard log f n :
  NewNodeWithStore id peers timeout store = inr f -> n_votersOld f = V ->
  durable store = hard -> 0 <= h_Term hard -> Forall (fun e => cfgfree e = true) log ->
  NewRecoveredNode id peers timeout store hard log = Done () n -> restarted hard id n.
Proof.
  intros Hnew HV Hd Ht Hlog E. unfold NewRecoveredNode, onNew in E. rewrite Hnew in E.
  apply NewNodeWithStore_fields in Hnew. rewrite HV in Hnew. clear HV. subst f.
  set (n0 := recoverInit hard log (freshNode id peers timeout store V)).
  change (recoverTail n0 = Done () n) in E.
  assert (sound n0) as Hs0.
  { apply sound_boot; try done; [|by unfold synced; cbn; rewrite Hd].
    split; [done| |by left]. cbn. case_decide; [by apply Forall_singleton|done]. }
  eapply (keep_restarted hard id n0); try done.
  - apply (wlp_Done recoverTail (fun _ n' => keep n0 n') n0 () n); [|exact E].
    by apply recoverTail_keep, sound_keep.
  - apply (wlp_Done recoverTail (fun _ n' => n_outbound n' = []) n0 () n); [|exact E].
    by apply recoverTail_silent.
Qed.

Lemma ensurePeers_wlp mask n :
  wlp (ensurePeers mask) (fun _ n' => exists ps nx mt, n' = peerUpd n ps nx mt) n.
Proof.
  unfold ensurePeers. apply (wlp_forM_ (fun n' => exists ps nx mt, n' = peerUpd n ps nx mt)).
  - exists (n_Peers n), (n_next n), (n_match n). by destruct n.
  - intros id n1 _ (ps & nx & mt & ->). wlp_pures. unfold bitOf. destruct (nodeBit id); wlp_pures.
    repeat case_match; wlp_pures; eexists _, _, _; reflexivity.
Qed.

Lemma keep_peerUpd n ps nx mt : sound n -> keep n (peerUpd n ps nx mt).
Proof.
  intros Hs. pose proof (sound_keep _ Hs) as []. destruct k_static0. split; try assumption. by split.
Qed.

Lemma NewRecoveredNodeWithSnapshot_restarted id peers timeout store hard snap suffix f n :
  NewNodeWithStore id peers timeout store = inr f ->
  durable store = hard -> 0 <= h_Term hard -> Forall (fun e => cfgfree e = true) suffix ->
  s_OldVoters snap = V -> s_NewVoters snap = 0 -> V <> 0 ->
  NewRecoveredNodeWithSnapshot id peers timeout store hard snap suffix = Done () n ->
  restarted hard id n.
Proof.
  intros Hnew Hd Ht Hlog Ho Hw HV E. unfold NewRecoveredNodeWithSnapshot, onNew in E. rewrite Hnew in E.
  apply NewNodeWithStore_fields in Hnew. set (v := n_votersOld f) in *. clearbody v. subst f.
  set (n0 := snapshotInit hard snap suffix (freshNode id peers timeout store v)).
  assert (sound n0) as Hs0.
  { apply sound_boot; try done; [|by unfold synced; cbn; rewrite Hd].
    split; [|by constructor|by right]. unfold VoterMasks. cbn. by rewrite Ho, Hw. }
  assert (keep n0 n /\ n_outbound n = []) as [Hk Hout]; [|by eapply (keep_restarted hard id n0)].
  match type of E with ?m ?s = _ =>
    apply (wlp_Done m (fun _ n' => keep n0 n' /\ n_outbound n' = []) s () n); [|exact E] end.
  clear E. wlp_pures. rewrite (proj2 (Z.eqb_neq (s_OldVoters snap) 0)) by congruence. wlp_pures.
  wlp_call ensurePeers_wlp. intros _ n1 (ps & nx & mt & ->). wlp_pures.
  match goal with |- wlp _ _ ?x =>
    assert (x = peerUpd n0 ps nx mt) as -> by (unfold n0, snapshotInit; nrefl) end.
  pose proof (keep_peerUpd n0 ps nx mt Hs0) as Hk.
  pose proof (recoverTail_keep n0 _ Hk) as H1. pose proof (recoverTail_silent (peerUpd n0 ps nx mt) eq_refl) as H2.
  revert H1 H2. unfold wlp. by destruct (recoverTail _).
Qed.
End votes.
