(* ===== verification/Election.v ===== *)
(** * Election safety of a cluster

    Nodes of fixed membership [V] exchange messages over a network that may
    lose, duplicate, delay and reorder them: every message ever drained stays in
    [c_net] and may be delivered at any later time, any number of times, or
    never.  Nodes tick, take client calls, may fail-stop on storage errors and
    may restart from what their store holds.  The cluster is executable
    ([exec]); two history variables record the votes held and the leaders seen.

    The theorem: in one term there is at most one leader, ever. *)

From S2P Require Import Prelude RaftTypes Quorum RaftNode RaftInv RaftStep RaftClient RaftVotes.

Section election.
Context {S : Type} `{!StableStore S} `{!DurableVotes S} (V : Z).

(** ** The cluster *)

Record cluster := mkCluster {
  c_nodes : gmap Z (Node S);
  c_net : list Message;
  c_votes : list (Z * Z * Z);   (* (node, term, vote) ever held after an operation *)
  c_leaders : list (Z * Z)      (* (term, node) ever leading after an operation *)
}.

#[export] Instance eta_cluster : Eta cluster := fun c =>
  mkCluster (c_nodes c) (c_net c) (c_votes c) (c_leaders c).

Inductive action :=
| ADeliver (k : nat)
| ATick (j : Z)
| APropose (j command : Z)
| AProposeRequest (j operation clientID requestID key value : Z)
| AStartReadIndex (j context : Z)
| ATransferLeadership (j target : Z)
| ACompact (j index : Z) (state : list Z)
| AApplyEntries (j : Z)
| ADrain (j : Z)
| ARestart (j : Z) (peers : list Z) (timeout : Z) (store : S) (log : list Entry)
| ARestartSnapshot (j : Z) (peers : list Z) (timeout : Z) (store : S) (snap : Snapshot)
    (log : list Entry).

(** Node [j] is now [n]. *)
Definition observe (j : Z) (n : Node S) (c : cluster) : cluster :=
  mkCluster (<[j := n]> (c_nodes c)) (c_net c) ((j, n_Term n, n_VotedFor n) :: c_votes c)
    (if decide (n_State n = Leader) then (n_Term n, j) :: c_leaders c else c_leaders c).

(** Run one operation of node [j]; executions in which the term would leave
    [uint64] are not considered. *)
Definition runOp {A} (op : MN S A) (j : Z) (c : cluster) : option cluster :=
  n ← c_nodes c !! j;
  if n_Term n <? maxu64 then
    match op n with Done _ n' => Some (observe j n' c) | Panicked _ => None end
  else None.

(** A restart may use any store that holds the durable hard state of the old
    one, and any log without configuration entries. *)
Definition mayRestart (j : Z) (n : Node S) (store : S) (log : list Entry) : bool :=
  bool_decide (durable store = durable (n_store n)) && forallb cfgfree log.

Definition restart (j : Z) (r : outcome (Node S) Panic ()) (c : cluster) : option cluster :=
  match r with Done _ n' => Some (observe j n' c) | Panicked _ => None end.

Definition exec (a : action) (c : cluster) : option cluster :=
  match a with
  | ADeliver k =>
      m ← c_net c !! k;
      if m_Term m <? maxu64 then runOp (Step m) (m_To m) c else None
  | ATick j => runOp Tick j c
  | APropose j command => runOp (Propose command) j c
  | AProposeRequest j op cid rid key value => runOp (ProposeRequest op cid rid key value) j c
  | AStartReadIndex j context => runOp (StartReadIndex context) j c
  | ATransferLeadership j target => runOp (TransferLeadership target) j c
  | ACompact j index state => runOp (Compact index state) j c
  | AApplyEntries j => runOp (ApplyEntries []) j c
  | ADrain j =>
      n ← c_nodes c !! j;
      runOp (Drain []) j (c <| c_net := c_net c ++ n_outbound n |>)
  | ARestart j peers timeout store log =>
      n ← c_nodes c !! j;
      match NewNodeWithStore j peers timeout store with
      | inr f =>
          if mayRestart j n store log && (n_votersOld f =? V) then
            restart j (NewRecoveredNode j peers timeout store (durable store) log) c
          else None
      | inl _ => None
      end
  | ARestartSnapshot j peers timeout store snap log =>
      n ← c_nodes c !! j;
      match NewNodeWithStore j peers timeout store with
      | inr f =>
          if mayRestart j n store log && (s_OldVoters snap =? V) && (s_NewVoters snap =? 0) then
            restart j (NewRecoveredNodeWithSnapshot j peers timeout store (durable store) snap log) c
          else None
      | inl _ => None
      end
  end.

Definition run (l : list action) (c : cluster) : option cluster :=
  foldl (fun r a => r ≫= exec a) (Some c) l.

(** A cluster of fresh nodes with the membership [V] and empty stores. *)
Record initial (c : cluster) : Prop := {
  in_nodes : forall j n, c_nodes c !! j = Some n -> exists peers timeout store,
    NewNodeWithStore j peers timeout store = inr n /\ n_votersOld n = V /\
    h_Term (durable store) = 0 /\ h_VotedFor (durable store) = 0;
  in_net : c_net c = [];
  in_votes : c_votes c = [];
  in_leaders : c_leaders c = []
}.

(** ** The invariant *)

(** Everyone in [mask] voted for [j] in term [T]. *)
Definition backed (c : cluster) (mask T j : Z) : Prop :=
  forall b, Z.testbit mask b = true -> (b + 1, T, j) ∈ c_votes c.

Definition goodMsg (c : cluster) (m : Message) : Prop :=
  staticMsg V m /\ (grant m -> m_To m <> 0 /\ (m_From m, m_Term m, m_To m) ∈ c_votes c).

Record Inv (c : cluster) : Prop := mkInv {
  i_node : forall j n, c_nodes c !! j = Some n -> n_ID n = j /\ j <> 0 /\ sound V n;
  i_hist : forall j n T v, c_nodes c !! j = Some n -> (j, T, v) ∈ c_votes c -> v <> 0 ->
    T < n_Term n \/ T = n_Term n /\ n_VotedFor n = v;
  i_fun : forall j T v w, (j, T, v) ∈ c_votes c -> (j, T, w) ∈ c_votes c -> v <> 0 -> w <> 0 -> v = w;
  i_net : forall m, m ∈ c_net c -> goodMsg c m;
  i_out : forall j n m, c_nodes c !! j = Some n -> m ∈ n_outbound n -> goodMsg c m;
  i_mask : forall j n, c_nodes c !! j = Some n -> n_State n <> Follower ->
    backed c (n_voteMask n) (n_Term n) j;
  i_leader : forall j n, c_nodes c !! j = Some n -> n_State n = Leader ->
    quorum V 0 (n_voteMask n) = true;
  i_leaders : forall T j, (T, j) ∈ c_leaders c ->
    j <> 0 /\ exists mask, quorum V 0 mask = true /\ backed c mask T j
}.

Lemma backed_observe c mask T j j' n' : backed c mask T j -> backed (observe j' n' c) mask T j.
Proof. intros H b Hb. right. by apply H. Qed.

Lemma goodMsg_observe c m j n' : goodMsg c m -> goodMsg (observe j n' c) m.
Proof. intros [H1 H2]. split; [done|]. intros Hg. destruct (H2 Hg). split; [done|]. by right. Qed.

Lemma observe_inv src c j n n' :
  Inv c -> c_nodes c !! j = Some n -> legal V src n n' ->
  (forall T b, src T b -> (b + 1, T, j) ∈ c_votes c) -> Inv (observe j n' c).
Proof.
  intros HI Hn HL Hsrc. destruct (i_node c HI j n Hn) as (Hid & Hj & Hs).
  assert (n_ID n' = j) as Hid' by (rewrite (l_id _ _ _ _ HL); done).
  assert (n_State n' <> Follower -> backed (observe j n' c) (n_voteMask n') (n_Term n') j) as Hmask.
  { intros Hst b Hb. destruct (l_mask _ _ _ _ HL Hst b Hb) as [[-> Hv]|[(Ht & Hst0 & Hb0)|Hb0]].
    - apply elem_of_cons. left. rewrite Hv, Hid'. by replace (j - 1 + 1) with j by lia.
    - right. rewrite Ht. by apply (i_mask c HI j n).
    - right. by apply Hsrc. }
  assert (n_State n' = Leader -> quorum V 0 (n_voteMask n') = true) as Hlead.
  { intros Hst. destruct (l_leader _ _ _ _ HL Hst) as [(Hst0 & _ & ->)|?]; [|done].
    by apply (i_leader c HI j n). }
  assert (forall T v, (j, T, v) ∈ c_votes c -> v <> 0 -> T < n_Term n' \/ T = n_Term n' /\ n_VotedFor n' = v) as Hhist.
  { intros T v Hin Hv. pose proof (l_vote _ _ _ _ HL).
    destruct (i_hist c HI j n T v Hn Hin Hv) as [?|[? ?]]; [left; lia|].
    destruct (l_vote _ _ _ _ HL) as [?|[? [?|?]]]; [left; lia|right; split; congruence|congruence]. }
  split.
  - intros k n1. cbn. destruct (decide (k = j)) as [->|Hne].
    + rewrite lookup_insert_eq. intros [= <-]. split; [done|]. split; [done|apply HL].
    + rewrite lookup_insert_ne by done. apply (i_node c HI).
  - intros k n1 T v. cbn. destruct (decide (k = j)) as [->|Hne].
    + rewrite lookup_insert_eq. intros [= <-] [[= -> ->]|Hin]%elem_of_cons Hv; [by right|by apply Hhist].
    + rewrite lookup_insert_ne by done. intros Hn1 [[= ? ? ?]|Hin]%elem_of_cons Hv; [done|].
      by apply (i_hist c HI k n1).
  - intros k T v w. cbn. intros [Ev|Hv]%elem_of_cons [Ew|Hw]%elem_of_cons Hv0 Hw0.
    + congruence.
    + injection Ev as -> -> ->. destruct (Hhist _ _ Hw Hw0) as [?|[_ ?]]; [lia|done].
    + injection Ew as -> -> ->. destruct (Hhist _ _ Hv Hv0) as [?|[_ ?]]; [lia|done].
    + by apply (i_fun c HI k T).
  - intros m Hm. apply goodMsg_observe. by apply (i_net c HI).
  - intros k n1 m. cbn. destruct (decide (k = j)) as [->|Hne].
    + rewrite lookup_insert_eq. intros [= <-] Hm.
      destruct (l_out _ _ _ _ HL m Hm) as [Hm'|[[Hq Hng]|(Hst & E1 & E2 & E3 & Hv0)]].
      * apply goodMsg_observe. by apply (i_out c HI j n).
      * by split.
      * split; [done|]. intros _. split; [congruence|]. apply elem_of_cons. left. congruence.
    + rewrite lookup_insert_ne by done. intros Hn1 Hm. apply goodMsg_observe. by apply (i_out c HI k n1).
  - intros k n1. cbn. destruct (decide (k = j)) as [->|Hne].
    + rewrite lookup_insert_eq. by intros [= <-].
    + rewrite lookup_insert_ne by done. intros. apply backed_observe. by apply (i_mask c HI).
  - intros k n1. cbn. destruct (decide (k = j)) as [->|Hne].
    + rewrite lookup_insert_eq. by intros [= <-].
    + rewrite lookup_insert_ne by done. apply (i_leader c HI).
  - intros T k Hin. assert ((T, k) ∈ c_leaders c \/ T = n_Term n' /\ k = j /\ n_State n' = Leader) as [Hin'|(-> & -> & Hst)].
    { cbn in Hin. case_decide; [|by left]. apply elem_of_cons in Hin as [[= -> ->]|?]; auto. }
    + destruct (i_leaders c HI T k Hin') as (? & mask & ? & Hb). split; [done|].
      exists mask. split; [done|by apply backed_observe].
    + split; [done|]. exists (n_voteMask n'). split; [by apply Hlead|]. apply Hmask. congruence.
Qed.

Lemma restarted_legal src j n n' :
  sound V n -> n_ID n = j -> restarted V (durable (n_store n)) j n' -> legal V src n n'.
Proof.
  intros Hs Hid (Hs' & Hid' & Hst & Ht & Hv & Hout). split; try done; try congruence.
  - rewrite Ht, Hv. destruct (so_ahead _ _ Hs) as [?|[E [?|?]]]; [by left|right..]; auto.
  - rewrite Hout. set_solver.
Qed.

Lemma net_inv c ms :
  Inv c -> (forall m, m ∈ ms -> exists j n, c_nodes c !! j = Some n /\ m ∈ n_outbound n) ->
  Inv (c <| c_net := c_net c ++ ms |>).
Proof.
  intros [] Hms. split; try assumption. cbn. intros m [Hm|Hm]%elem_of_app; [by apply i_net0|].
  destruct (Hms m Hm) as (j & n & Hn & Hin). by eapply i_out0.
Qed.

Lemma initial_inv c : initial c -> Inv c.
Proof.
  intros [Hn Hnet Hvt Hld]. split; rewrite ?Hnet, ?Hvt, ?Hld.
  - intros j n E. destruct (Hn j n E) as (peers & timeout & store & Hnew & HV & Ht & Hv).
    assert (j <> 0) as Hj by (intros ->; done).
    apply NewNodeWithStore_fields in Hnew. rewrite HV in Hnew. subst n. split; [done|]. split; [done|].
    apply sound_boot; try done. split; [done|by apply Forall_singleton|by left].
  - intros j n T v _ []%elem_of_nil.
  - intros j T v w []%elem_of_nil.
  - intros m []%elem_of_nil.
  - intros j n m E Hm. destruct (Hn j n E) as (peers & timeout & store & Hnew & HV & Ht & Hv).
    apply NewNodeWithStore_fields in Hnew. rewrite Hnew in Hm. set_solver.
  - intros j n E Hst. destruct (Hn j n E) as (peers & timeout & store & Hnew & HV & Ht & Hv).
    apply NewNodeWithStore_fields in Hnew. rewrite Hnew in Hst. done.
  - intros j n E Hst. destruct (Hn j n E) as (peers & timeout & store & Hnew & HV & Ht & Hv).
    apply NewNodeWithStore_fields in Hnew. by rewrite Hnew in Hst.
  - intros T j []%elem_of_nil.
Qed.

Lemma runOp_inv {A} (op : MN S A) src j c c' :
  Inv c -> runOp op j c = Some c' ->
  (forall n, c_nodes c !! j = Some n -> sound V n -> n_Term n < maxu64 ->
     wlp op (fun _ n' => legal V src n n') n) ->
  (forall T b, src T b -> (b + 1, T, j) ∈ c_votes c) -> Inv c'.
Proof.
  intros HI E Hop Hsrc. unfold runOp in E. destruct (c_nodes c !! j) as [n|] eqn:Hn; [|done]. cbn in E.
  destruct (Z.ltb_spec (n_Term n) maxu64) as [Ht|]; [|done].
  destruct (op n) as [a n'|] eqn:Eop; [|done]. injection E as <-.
  eapply observe_inv; [done|done| |exact Hsrc].
  apply (wlp_Done op _ n a n' (Hop n eq_refl (proj2 (proj2 (i_node c HI j n Hn))) Ht) Eop).
Qed.

Lemma keepsOp_inv {A} (op : MN S A) j c c' :
  keeps V op -> Inv c -> runOp op j c = Some c' -> Inv c'.
Proof.
  intros Hop HI E. apply (runOp_inv op (fun _ _ => False) j c c'); try done.
  intros n _ Hs _. by apply keeps_legal.
Qed.

Lemma restart_inv j n r c c' :
  Inv c -> c_nodes c !! j = Some n -> restart j r c = Some c' ->
  (forall n', r = Done () n' -> restarted V (durable (n_store n)) j n') -> Inv c'.
Proof.
  intros HI Hn E Hr. unfold restart in E. destruct r as [[] n'|]; [|done]. injection E as <-.
  destruct (i_node c HI j n Hn) as (Hid & _ & Hs).
  apply (observe_inv (fun _ _ => False) c j n); try done. apply restarted_legal with (j := j); auto.
Qed.

Lemma mayRestart_true j n store log :
  mayRestart j n store log = true ->
  durable store = durable (n_store n) /\ Forall (fun e => cfgfree e = true) log.
Proof.
  intros [H1%bool_decide_eq_true_1 H2]%andb_prop. split; [done|].
  revert H2. clear. induction log as [|e l IH]; [by constructor|]. cbn. intros [??]%andb_prop.
  constructor; auto.
Qed.

Lemma Drain_keeps : keeps V (Drain (S := S) []).
Proof.
  intros n0 n []. unfold Drain. wlp_pures. split; try assumption; [destruct k_static; by split|].
  cbn. set_solver.
Qed.

Lemma sound_durable n : sound V n -> 0 <= h_Term (durable (n_store n)).
Proof. intros [_ Ha _ _ Ht]. unfold ahead in Ha. lia. Qed.

Lemma exec_inv a c c' : V <> 0 -> Inv c -> exec a c = Some c' -> Inv c'.
Proof.
  intros HV HI E. destruct a; cbn in E.
  - destruct (c_net c !! k) as [m|] eqn:Em; [|done]. cbn in E.
    destruct (Z.ltb_spec (m_Term m) maxu64) as [Hmt|]; [|done].
    apply list_elem_of_lookup_2 in Em. destruct (i_net c HI m Em) as [Hst Hg].
    apply (runOp_inv _ (consumed m) _ _ _ HI E).
    + intros n _ Hs Ht. by apply Step_legal.
    + intros T b (Hgr & <- & ->). replace (m_From m - 1 + 1) with (m_From m) by lia. by destruct (Hg Hgr).
  - apply (runOp_inv _ (fun _ _ => False) _ _ _ HI E); [|done]. intros n _ Hs Ht. by apply Tick_legal.
  - by eapply keepsOp_inv; [apply Propose_keeps| |].
  - by eapply keepsOp_inv; [apply ProposeRequest_keeps| |].
  - by eapply keepsOp_inv; [apply StartReadIndex_keeps| |].
  - by eapply keepsOp_inv; [apply TransferLeadership_keeps| |].
  - by eapply keepsOp_inv; [apply Compact_keeps| |].
  - by eapply keepsOp_inv; [apply ApplyEntries_keeps| |].
  - destruct (c_nodes c !! j) as [n|] eqn:Hn; [|done]. cbn in E.
    eapply keepsOp_inv; [apply Drain_keeps| |exact E]. apply net_inv; [done|]. eauto.
  - destruct (c_nodes c !! j) as [n|] eqn:Hn; [|done]. cbn in E.
    destruct (NewNodeWithStore j peers timeout store) as [|f] eqn:Hf; [done|].
    destruct (mayRestart j n store log && _) eqn:Er; [|done].
    apply andb_prop in Er as [[Hd Hlog]%mayRestart_true Hv%Z.eqb_eq].
    destruct (i_node c HI j n Hn) as (_ & _ & Hs).
    eapply restart_inv; [done|done|exact E|]. intros n' En'.
    rewrite <- Hd. eapply NewRecoveredNode_restarted; eauto.
    rewrite Hd. by apply sound_durable.
  - destruct (c_nodes c !! j) as [n|] eqn:Hn; [|done]. cbn in E.
    destruct (NewNodeWithStore j peers timeout store) as [|f] eqn:Hf; [done|].
    destruct (mayRestart j n store log && _ && _) eqn:Er; [|done].
    apply andb_prop in Er as [[[Hd Hlog]%mayRestart_true Hv%Z.eqb_eq]%andb_prop Hw%Z.eqb_eq].
    destruct (i_node c HI j n Hn) as (_ & _ & Hs).
    eapply restart_inv; [done|done|exact E|]. intros n' En'.
    rewrite <- Hd. eapply NewRecoveredNodeWithSnapshot_restarted; eauto.
    rewrite Hd. by apply sound_durable.
Qed.

Lemma run_inv l c c' : V <> 0 -> Inv c -> run l c = Some c' -> Inv c'.
Proof.
  intros HV. unfold run. revert c. induction l as [|a l IH]; intros c HI E; [by injection E as <-|].
  cbn [foldl] in E. destruct (exec a c) as [c1|] eqn:Ea; cbn in E; rewrite Ea in E.
  - apply (IH c1); [by eapply exec_inv|done].
  - exfalso. clear -E. induction l as [|a l IH]; [done|]. by apply IH.
Qed.

Lemma quorum_static mask : quorum V 0 mask = majorityMask V mask.
Proof. unfold quorum. by rewrite orb_true_l, andb_true_r. Qed.

(** Two candidates that quorums voted for in one term have a common voter. *)
Lemma backed_unique c T i j mi mj :
  is_u64 V -> Inv c -> i <> 0 -> j <> 0 -> quorum V 0 mi = true -> quorum V 0 mj = true ->
  backed c mi T i -> backed c mj T j -> i = j.
Proof.
  intros Hu HI Hi0 Hj0 Hqi Hqj Hbi Hbj. rewrite quorum_static in Hqi, Hqj.
  destruct (majorityMask_intersect V mi mj) as (b & _ & _ & Bi & Bj); [assumption..|].
  by eapply (i_fun c HI (b + 1) T); [apply Hbi|apply Hbj| |].
Qed.

Lemma leaders_unique c T i j :
  is_u64 V -> Inv c -> (T, i) ∈ c_leaders c -> (T, j) ∈ c_leaders c -> i = j.
Proof.
  intros Hu HI Hi Hj.
  destruct (i_leaders c HI T i Hi) as (Hi0 & mi & Hqi & Hbi).
  destruct (i_leaders c HI T j Hj) as (Hj0 & mj & Hqj & Hbj). 
  exact (backed_unique c T i j mi mj Hu HI Hi0 Hj0 Hqi Hqj Hbi Hbj).
Qed.

Lemma current_leaders_unique c i j ni nj :
  is_u64 V -> Inv c -> c_nodes c !! i = Some ni -> c_nodes c !! j = Some nj ->
  n_State ni = Leader -> n_State nj = Leader -> n_Term ni = n_Term nj -> i = j.
Proof.
  intros Hu HI Hi Hj Li Lj HT.
  assert (i <> 0 /\ j <> 0) as [Hi0 Hj0] by (split; [apply (i_node c HI i ni Hi)|apply (i_node c HI j nj Hj)]).
  pose proof (i_leader c HI i ni Hi Li) as Qi. pose proof (i_leader c HI j nj Hj Lj) as Qj.
  pose proof (i_mask c HI i ni Hi) as Bi. pose proof (i_mask c HI j nj Hj) as Bj. rewrite <- HT in Bj.
  apply (backed_unique c (n_Term ni) i j (n_voteMask ni) (n_voteMask nj) Hu HI Hi0 Hj0 Qi Qj); [apply Bi|apply Bj]; congruence.
Qed.

(** A granting response in the network is backed by the hard state of its sender. *)
Lemma granted_durable c m n :
  Inv c -> m ∈ c_net c -> grant m -> c_nodes c !! m_From m = Some n ->
  let d := durable (n_store n) in
  m_Term m < h_Term d \/ m_Term m = h_Term d /\ h_VotedFor d = m_To m.
Proof.
  intros HI Hm Hg Hn. cbn zeta.
  destruct (i_net c HI m Hm) as [_ Hgood]. destruct (Hgood Hg) as [Hto Hin].
  destruct (i_node c HI _ n Hn) as (_ & _ & Hs).
  destruct (i_hist c HI _ n _ _ Hn Hin Hto) as [Hlt|[Heq Hv]];
    destruct (so_ahead _ _ Hs) as [Ha|[Ha [Hb|Hb]]]; try (left; lia).
  right. split; congruence.
Qed.

(** C2 Election safety: in every execution of a cluster of fixed membership
    [V], whatever the network, the clients, storage failures and restarts do,
    two leaders ever seen in the same term are the same node.  And a granted vote
    is durable before anyone can see it: whenever the network holds a granting
    vote response, the hard state a restart of its sender would read is of a later
    term, or of that term with that vote. *)
Theorem election_safety c0 l c :
  is_u64 V -> V <> 0 -> initial c0 -> run l c0 = Some c ->
  (forall T i j, (T, i) ∈ c_leaders c -> (T, j) ∈ c_leaders c -> i = j) /\
  (forall m n, m ∈ c_net c -> grant m -> c_nodes c !! m_From m = Some n ->
     let d := durable (n_store n) in
     m_Term m < h_Term d \/ m_Term m = h_Term d /\ h_VotedFor d = m_To m).
Proof.
  intros Hu HV H0 Hrun. assert (Inv c) as HI by (eapply run_inv; [done|by apply initial_inv|done]).
  split; [intros T i j; by apply leaders_unique|intros m n; by apply granted_durable].
Qed.
End election.

(** ** A concrete election *)

Definition demoNode (j : Z) (peers : list Z) : Node Memory.memoryStore :=
  freshNode j peers 2 Memory.zero 7.

Definition demoCluster : cluster (S := Memory.memoryStore) :=
  mkCluster (<[1 := demoNode 1 [2; 3]]> (<[2 := demoNode 2 [1; 3]]> {[3 := demoNode 3 [1; 2]]})) [] [] [].

(** Node 1 times out, wins the pre-vote and the vote of node 2, and leads;
    node 2 restarts in between. *)
Definition demoActions : list (action (S := Memory.memoryStore)) :=
  [ATick 1; ATick 1; ADrain 1; ADeliver 0; ADrain 2; ADeliver 2; ADrain 1; ADeliver 3; ADrain 2;
   ARestart 2 [1; 3] 2 (Memory.mkMemoryStore (mkHardState 1 1 0) [] zeroSnapshot 0) [];
   ADeliver 5; ADrain 1].

Lemma demo_initial : initial 7 demoCluster.
Proof.
  split; [|done..]. intros j n. unfold demoCluster. cbn [c_nodes].
  intros [[<- <-]|[_ [[<- <-]|[_ [<- <-]%lookup_singleton_Some]]%lookup_insert_Some]]%lookup_insert_Some.
  - exists [2; 3], 2, Memory.zero. done.
  - exists [1; 3], 2, Memory.zero. done.
  - exists [1; 2], 2, Memory.zero. done.
Qed.

Lemma election_safety_witness :
  match run 7 demoActions demoCluster with
  | Some c =>
      ((1, 1) ∈ c_leaders c /\ forall j, (1, j) ∈ c_leaders c -> 1 = j) /\
      exists m n, m ∈ c_net c /\ grant m /\ c_nodes c !! 2 = Some n /\
        (1 < h_Term (durable (n_store n)) \/ 1 = h_Term (durable (n_store n)) /\
          h_VotedFor (durable (n_store n)) = 1)
  | None => False
  end.
Proof.
  assert ((fun c => (c_leaders c, c_net c !! 5%nat)) <$> run 7 demoActions demoCluster =
    Some ([(1, 1); (1, 1)], Some (newMessage MsgRequestVoteResponse 2 1 1))) as E by (vm_compute; reflexivity).
  assert (match run 7 demoActions demoCluster with
          | Some c => is_Some (c_nodes c !! 2) | None => False end) as E2
    by (vm_compute; eexists; reflexivity).
  destruct (run 7 demoActions demoCluster) as [c|] eqn:Erun; [|discriminate E].
  injection E as El En. destruct E2 as [n Hn].
  destruct (election_safety 7 demoCluster demoActions c) as [HL HD];
    [unfold is_u64; lia|discriminate|exact demo_initial|exact Erun|].
  assert ((1, 1) ∈ c_leaders c) as H1 by (rewrite El; left).
  split; [split; [exact H1|intros j Hj; exact (HL 1 1 j H1 Hj)]|].
  exists (newMessage MsgRequestVoteResponse 2 1 1), n.
  assert (newMessage MsgRequestVoteResponse 2 1 1 ∈ c_net c) as Hm by (by eapply list_elem_of_lookup_2).
  split; [exact Hm|]. split; [split; reflexivity|]. split; [exact Hn|].
  apply (HD (newMessage MsgRequestVoteResponse 2 1 1) n Hm); [split; reflexivity|exact Hn].
Defined.
