(* ===== verification/RaftSafety.v ===== *)
(** * Properties of one Raft node

    The main theorems about the operations of [raft/node.go] and
    [raft/recover.go], each with an instance on a concrete node. *)

From S2P Require Import Prelude RaftTypes Quorum RaftNode RaftInv RaftStep RaftClient.

Section safety.
Context {S : Type} `{!StableStore S}.
Implicit Types n : Node S.

(** C10 Messages and ticks: from a node that satisfies the invariant, [Step] on a
    message that does not contradict committed entries, and [Tick], return (no
    panic), the invariant holds again, and the node only moved forward: term,
    commit, applied and base index grow, a vote of the same term stays, committed
    entries stay, a bounded number of messages is sent, and if storage failed the
    node is a silent follower. *)
Theorem node_safe n :
  node_inv n -> top n < maxu64 -> n_Term n < maxu64 -> room n 189 ->
  (forall m, msg_ok n m -> m_Term m < maxu64 ->
     exists n', Step m n = Done () n' /\ node_inv n' /\ evolves (stepTop n m) 126 n n') /\
  (exists n', Tick n = Done () n' /\ node_inv n' /\ evolves (top n + 1) 189 n n').
Proof.
  intros Hinv Ht Htm Hr. split.
  - intros m Hok Hmt. assert (room n 126) as Hr' by (by apply (room_le n 189)).
    destruct (wp_Done _ _ _ (Step_wp m n Hinv Hok Ht Htm Hmt Hr')) as ([] & n' & E & Hev).
    exists n'. split; [done|]. split; [by eapply evolves_inv|done].
  - destruct (wp_Done _ _ _ (Tick_wp n Hinv Ht Htm Hr)) as ([] & n' & E & Hev).
    exists n'. split; [done|]. split; [by eapply evolves_inv|done].
Qed.

(** C8 Appending on a follower: a rejected append changes nothing and answers
    with the last index; an accepted one keeps everything before the new index,
    holds at that index an entry with the leader's term (the leader's entry, or
    the one already there), raises the commit index to the smaller of the leader's
    commit and the index vouched for, and acknowledges exactly that index. *)
Theorem append_spec n m :
  node_inv n -> n_Faulted n = false -> msg_ok n m -> m_Type m = MsgAppend -> top n < maxu64 -> room n 1 ->
  exists n', onAppend m n = Done () n' /\ node_inv n' /\
    (n_Faulted n' = true \/
     if appendRejected n m
     then n' = n <| n_outbound := n_outbound n ++ [appendResponse n m true (top n - 1)] |>
     else accepted n m n').
Proof.
  intros Hinv Hf Hok Hty Ht Hr. pose proof Hinv as (Hwf & _).
  destruct (wp_Done _ _ _ (onAppend_wp m n Hwf Hf Ht Hr Hok Hty)) as ([] & n' & E & Hev & Hres).
  exists n'. split; [done|]. split; [by eapply evolves_inv|].
  destruct (n_Faulted n'); [by left|right; by apply Hres].
Qed.

(** C9 The commit rule: processing an append response raises the commit index
    only on a leader, only to an index whose entry has the leader's current
    term, and only when the nodes whose match index reaches it (after recording
    the response) are a quorum of the configuration in force at that index, of
    both halves if it is joint. *)
Theorem commit_rule n m :
  node_inv n -> n_Faulted n = false -> valid_id (m_From m) -> room n 64 ->
  exists n', onAppendResponse m n = Done () n' /\ node_inv n' /\
    (n_Faulted n' = false -> n_Commit n' <> n_Commit n ->
     n_State n = Leader /\ n_Commit n < n_Commit n' /\
     commitRule (matchUpd n (m_From m) (m_Match m)) (n_Commit n')).
Proof.
  intros Hinv Hf Hid Hr. pose proof Hinv as (Hwf & _).
  destruct (wp_Done _ _ _ (onAppendResponse_wp m n Hwf Hf Hr Hid)) as ([] & n' & E & Hev & Hc).
  exists n'. split; [done|]. split; [by eapply evolves_inv|]. intros Hf' Hne. destruct (Hc Hf'); [done|auto].
Qed.

(** The condition under which a vote is granted. *)
Definition voteGranted n (m : Message) : bool :=
  isVoterOf n (m_From m) && (m_Term m =? n_Term n) &&
  ((n_VotedFor n =? 0) || (n_VotedFor n =? m_From m)) &&
  logUpToDate m (top n - 1) (e_Term (logAt n (top n - 1 - n_BaseIndex n))).

Definition voteResponse n (m : Message) (reject : bool) : Message :=
  newMessage MsgRequestVoteResponse (n_ID n) (m_From m) (n_Term n) <| m_Reject := reject |>.

(** Voting: the vote goes to a voter of the current configuration, in the
    current term, if no other vote was cast in it and the candidate's log is at
    least as up to date; it is saved with the term before the response is sent,
    and if saving fails nothing is sent and the node stops. *)
Theorem vote_spec n m :
  node_inv n -> n_Faulted n = false -> valid_id (m_From m) -> room n 1 ->
  exists n', onVote m n = Done () n' /\ node_inv n' /\
    if voteGranted n m then
      match SaveHardState (mkHardState (n_Term n) (m_From m) (n_Commit n)) (n_store n) with
      | (s, None) =>
          n' = n <| n_store := s |> <| n_VotedFor := m_From m |> <| n_elapsed := 0 |>
                 <| n_outbound := n_outbound n ++ [voteResponse n m false] |>
      | (s, Some e) => n' = faultUpd n s (Some e)
      end
    else n' = n <| n_outbound := n_outbound n ++ [voteResponse n m true] |>.
Proof.
  intros Hinv Hf Hid Hr. pose proof Hinv as (Hwf & _).
  destruct (wp_Done _ _ _ (onVote_wp m n Hwf Hf Hr Hid)) as ([] & n' & E & Hev).
  exists n'. split; [done|]. split; [by eapply evolves_inv|].
  unfold onVote, mbind at 1 2, M_bind at 1 2, get in E. rewrite lastTerm_wf in E by done.
  unfold mbind at 1, M_bind at 1 in E. rewrite isVoter_wf in E by done.
  rewrite lastIndex_wf in E by apply Hwf. fold (top n) in E. fold (voteGranted n m) in E.
  destruct (voteGranted n m).
  - unfold mbind, M_bind, persistHardState, storeOp, failStorageWith, failStorage, modify, mret, M_ret, mbind, M_bind in E.
    destruct (SaveHardState _ _) as [s [e|]]; cbn in E.
    + injection E as <-. reflexivity.
    + unfold send, panic, mret, M_ret, mbind, M_bind, get, modify in E. cbn in E.
      destruct (len (n_outbound n) =? outboundCapacity); [done|]. injection E as <-. reflexivity.
  - unfold mbind, M_bind, send, panic, mret, M_ret, mbind, M_bind, get, modify in E. cbn in E.
    destruct (len (n_outbound n) =? outboundCapacity); [done|]. injection E as <-. reflexivity.
Qed.

(** Applying: [ApplyEntries] returns the normal entries at the indexes after
    the applied one up to the commit index, each once and in log order, and
    marks them applied. *)
Theorem apply_exact n dst :
  node_inv n ->
  ApplyEntries dst n =
    Done (dst ++ filter (fun e => e_Kind e = EntryNormal)
                   (entries n (n_Applied n + 1) (n_Commit n - n_Applied n)))
         (n <| n_Applied := n_Commit n |>).
Proof.
  intros (Hwf & _). destruct (wp_Done _ _ _ (ApplyEntries_wp dst n Hwf)) as (r & n' & E & -> & ->). done.
Qed.

(** Compaction: it succeeds only up to the applied index, keeps every entry
    from the snapshot index on, records the term and configuration of the
    snapshot, and otherwise leaves the node unchanged or stopped. *)
Theorem compact_spec n index state :
  node_inv n ->
  exists ok n', Compact index state n = Done ok n' /\ node_inv n' /\
    if ok then n_BaseIndex n < index <= n_Applied n /\ n_BaseIndex n' = index /\
      (forall i, index <= i -> EntryAt n' i = EntryAt n i) /\
      n_snapshot n' = mkSnapshot index (n_BaseTerm n') state (n_votersOld n) (n_votersNew n) /\
      termAt n index = Some (n_BaseTerm n')
    else n' = n \/ n_Faulted n' = true.
Proof.
  intros Hinv. pose proof Hinv as (Hwf & _). destruct (wp_Done _ _ _ (Compact_wp index state n Hinv)) as (ok & n' & E & Hev & Hres).
  exists ok, n'. split; [done|]. split; [by eapply evolves_inv|]. destruct ok; [|done].
  destruct Hres as (Hi & s & ->). destruct (wf_compact n index state s Hwf Hi) as (_ & _ & Hk).
  split_and!; try done; try lia. rewrite termAt_wf; [done|apply Hwf|]. destruct Hwf as (_ & Hx & _). idx.
Qed.

(** An operation that proposes entry [e]: it returns; it accepts only when allowed,
    and then the entry follows the old log; and unless storage failed it refuses
    only when not allowed, and then nothing changed. *)
Definition proposes n (op : MN S bool) (allowed : Prop) (e : Entry) : Prop :=
  exists ok n', op n = Done ok n' /\ node_inv n' /\
    if ok then allowed /\ n_Log n' = n_Log n ++ [e]
    else n' = n /\ ~ allowed \/ n_Faulted n' = true.

Lemma proposes_wp n op allowed e :
  node_inv n -> wp op (fun ok n' => evolves (top n + 1) 63 n n' /\ proposed n e ok n' /\ accepts allowed ok n') n ->
  proposes n op allowed e.
Proof.
  intros Hinv H. destruct (wp_Done _ _ _ H) as (ok & n' & E & Hev & Hp & Ha).
  exists ok, n'. split; [done|]. split; [by eapply evolves_inv|]. destruct ok.
  - split; [done|apply Hp].
  - destruct Hp as [->|?]; [|by right]. destruct Ha; [by left|by right].
Qed.

(** Proposals.  A command, a client request, a joint and a final configuration
    are accepted exactly by a leader, under these conditions, unless storage
    fails: a request is a put or a delete with non-zero client and request
    numbers; a joint configuration has distinct voters, while no transition is
    active or pending; a final one needs an active transition, none pending.  The
    entry that follows the old log has the current term, and the configurations
    carry the current and the new voters. *)
Theorem proposal_spec n :
  node_inv n -> top n < maxu64 -> room n 63 ->
  (forall command, proposes n (Propose command) (leads n) (mkEntry (n_Term n) command EntryNormal 0 0 0 0 0 0 0)) /\
  (forall op cid rid key value, proposes n (ProposeRequest op cid rid key value) (requestAllowed n op cid rid)
     (mkEntry (n_Term n) 0 EntryNormal 0 0 op cid rid key value)) /\
  (forall voters, Forall valid_id voters -> exists mask valid, voterMask voters = Some (mask, valid) /\
     proposes n (ProposeJoint voters) (jointAllowed n valid)
       (mkEntry (n_Term n) 0 EntryJointConfig (n_votersOld n) mask 0 0 0 0 0)) /\
  proposes n ProposeFinal (finalAllowed n) (mkEntry (n_Term n) 0 EntryFinalConfig (n_votersNew n) 0 0 0 0 0 0).
Proof.
  intros Hinv Ht Hr. split; [intros; by apply proposes_wp, Propose_wp|].
  split; [intros; by apply proposes_wp, ProposeRequest_wp|]. split; [|by apply proposes_wp, ProposeFinal_wp].
  intros voters Hv. destruct (voterMask_ok voters Hv) as (mask & valid & Em & _). exists mask, valid. split; [done|].
  apply proposes_wp; [done|]. eapply wp_mono; [by apply ProposeJoint_wp|].
  intros ok n' (Hev & mask' & valid' & Em' & H). rewrite Em in Em'. by injection Em' as <- <-.
Qed.

(** Recovery: from a durable hard state and log, [NewRecoveredNode] builds a
    silent follower with exactly that term, vote, commit index and log.  Unless
    it found the data inconsistent and stopped, the node satisfies the invariant,
    its voters are the initial ones changed by the committed configuration
    entries in order, and the pending configuration is the last configuration
    entry that is not committed. *)
Theorem recovery_spec id peers timeout (store : S) hard log :
  valid_id id -> Forall valid_id peers -> NoDup (id :: peers) -> len log <= maxu64 ->
  0 <= h_Term hard -> 0 <= h_Commit hard ->
  Forall (fun e => 0 <= e_OldVoters e /\ 0 <= e_NewVoters e) log -> log <> [] ->
  exists voters n, initialVoters id peers voters /\
    NewRecoveredNode id peers timeout store hard log = Done () n /\
    n_State n = Follower /\ n_outbound n = [] /\ n_Term n = h_Term hard /\
    n_VotedFor n = h_VotedFor hard /\ n_Commit n = h_Commit hard /\ n_Log n = log /\
    (if n_Faulted n then stopped n else
       node_inv n /\ h_Commit hard < len log /\
       VoterMasks n = foldl cfgOf (voters, 0) (take (Z.to_nat (h_Commit hard)) (tail log)) /\
       n_pendingConfig n =
         foldl (fun p i => if isConfig (logAt n i) then i else p) 0
           (seqZ (h_Commit hard + 1) (len log - 1 - h_Commit hard))).
Proof.
  intros Hid Hps Hnd Hlen Ht Hc Hlog Hne.
  destruct (NewRecoveredNode_wp id peers timeout store hard log Hid Hps Hnd Hlen Hc Hlog)
    as (voters & n & Hv & E & Hrec). cbn zeta in Hrec.
  set (n0 := recoverInit hard log (freshNode id peers timeout store voters)) in Hrec.
  assert (n_Log n0 = log) as El by (cbn; by rewrite decide_False).
  destruct Hrec as [Hrec (S1 & S2 & S3 & S4 & S5 & S6 & S7 & S8 & S9 & S10 & _)].
  exists voters, n. split; [done|]. split; [done|].
  rewrite S9, S10, S2, S3, S4, S6, El. do 6 (split; [done|]).
  unfold recovered in Hrec. destruct (n_Faulted n) eqn:Ef; [done|].
  destruct Hrec as (Hwf & Htop & Hvm & Hpc).
  split. { split; [done|]. split; [by rewrite S2|]. by rewrite Ef. }
  unfold top in Htop, Hpc. rewrite El in Htop, Hpc. split; [exact Htop|]. split.
  - rewrite Hvm. unfold entries. rewrite El. change (n_BaseIndex n0) with 0. change (n_Commit n0) with (h_Commit hard).
    rewrite Z.sub_0_r. by destruct log.
  - rewrite Hpc. change (n_BaseIndex n0) with 0. change (n_Commit n0) with (h_Commit hard).
    apply foldl_ext_in. intros b a _. rewrite Z.sub_0_r. unfold logAt. by rewrite S6.
Qed.
End safety.

(** ** Concrete instances *)

Module Demo.

Definition MS := Memory.memoryStore.

(** A fresh member of a cluster of three, and the leader it can become. *)
Definition node1 : Node MS := freshNode 1 [2; 3] 2 Memory.zero 7.

Definition noop : Entry := zeroEntry <| e_Term := 1 |> <| e_Kind := EntryNoop |>.

Definition leader1 : Node MS :=
  node1 <| n_State := Leader |> <| n_Term := 1 |> <| n_VotedFor := 1 |> <| n_Leader := 1 |>
        <| n_Log := [zeroEntry; noop] |>.

(** The leader after committing and applying its no-op. *)
Definition leader2 : Node MS := leader1 <| n_Commit := 1 |> <| n_Applied := 1 |>.

Lemma wf_concrete (n : Node MS) :
  n_Log n <> [] -> 0 <= n_BaseIndex n -> n_BaseIndex n + len (n_Log n) <= maxu64 ->
  n_BaseIndex n <= n_Applied n -> n_Applied n <= n_Commit n ->
  n_Commit n <= n_BaseIndex n + len (n_Log n) - 1 ->
  n_ID n = 1 -> n_Peers n = [2; 3] -> 0 <= n_votersOld n -> 0 <= n_votersNew n ->
  forallb (fun e => (0 <=? e_OldVoters e) && (0 <=? e_NewVoters e)) (n_Log n) = true ->
  0 <= n_Term n -> n_Faulted n = false -> node_inv n.
Proof.
  intros. split; [|split; [done|congruence]]. split; [done|]. split; [done|]. split.
  - unfold wf_peers. rewrite H5, H6. split; [unfold valid_id; lia|]. split.
    + repeat (apply Forall_cons; split; [unfold valid_id; lia|]). by apply Forall_nil.
    + apply (bool_decide_unpack _). vm_compute. exact I.
  - split; [done|]. split; [done|]. apply Forall_forall. intros e He.
    rewrite forallb_forall in H9. specialize (H9 e). rewrite <- list_elem_of_In in H9.
    specialize (H9 He). lia.
Qed.

Lemma node1_inv : node_inv node1.
Proof. apply wf_concrete; cbn; (done || (unfold maxu64, len; cbn; lia)). Qed.

Lemma leader1_inv : node_inv leader1.
Proof. apply wf_concrete; cbn; (done || (unfold maxu64, len; cbn; lia)). Qed.

Lemma leader2_inv : node_inv leader2.
Proof. apply wf_concrete; cbn; (done || (unfold maxu64, len; cbn; lia)). Qed.

Lemma msg_ok_concrete (n : Node MS) m :
  n_Commit n = 0 -> n_BaseIndex n = 0 -> valid_id (m_From m) -> 0 <= m_Term m -> 0 <= m_LogIndex m ->
  m_SnapshotIndex m = 0 -> m_Type m <> MsgInstallSnapshot ->
  0 <= e_OldVoters (m_Entry m) -> 0 <= e_NewVoters (m_Entry m) ->
  0 <= m_SnapshotOld m -> 0 <= m_SnapshotNew m -> msg_ok n m.
Proof. intros. split; try done; try lia. rewrite H4. unfold maxu64. lia. Qed.

(** A vote request and the append of a no-op by node 2 in term 1. *)
Definition voteRequest : Message := newMessage MsgRequestVote 2 1 1.
Definition appendNoop : Message :=
  newMessage MsgAppend 2 1 1 <| m_Entry := noop |> <| m_HasEntry := true |>.

Lemma appendNoop_ok : msg_ok node1 appendNoop.
Proof. apply msg_ok_concrete; cbn; (done || (unfold valid_id; lia)). Qed.

Lemma room_concrete (n : Node MS) k : n_outbound n = [] -> k <= outboundCapacity -> room n k.
Proof. intros E Hk. unfold room. by rewrite E. Qed.

Lemma node_safe_witness :
  (exists n', Step appendNoop node1 = Done () n' /\ node_inv n' /\ evolves (stepTop node1 appendNoop) 126 node1 n') /\
  (exists n', Tick node1 = Done () n' /\ node_inv n' /\ evolves (top node1 + 1) 189 node1 n').
Proof.
  destruct (node_safe node1) as [H1 H2]; [exact node1_inv|cbv; done|cbv; done|by apply room_concrete|].
  split; [|exact H2]. apply H1; [exact appendNoop_ok|cbv; done].
Defined.

Lemma append_spec_witness :
  appendRejected node1 appendNoop = false /\
  exists n', onAppend appendNoop node1 = Done () n' /\ node_inv n' /\
    (n_Faulted n' = true \/
     if appendRejected node1 appendNoop
     then n' = node1 <| n_outbound := n_outbound node1 ++ [appendResponse node1 appendNoop true (top node1 - 1)] |>
     else accepted node1 appendNoop n').
Proof.
  split; [vm_compute; reflexivity|].
  apply (append_spec node1 appendNoop);
    [exact node1_inv|reflexivity|exact appendNoop_ok|reflexivity|cbv; done|by apply room_concrete].
Defined.

(** Node 2 acknowledges the no-op: with the leader that is a quorum. *)
Definition ack2 : Message := newMessage MsgAppendResponse 2 1 1 <| m_Match := 1 |>.

Lemma commit_rule_witness :
  (exists n', onAppendResponse ack2 leader1 = Done () n' /\ n_Commit n' = 1) /\
  exists n', onAppendResponse ack2 leader1 = Done () n' /\ node_inv n' /\
    (n_Faulted n' = false -> n_Commit n' <> n_Commit leader1 ->
     n_State leader1 = Leader /\ n_Commit leader1 < n_Commit n' /\
     commitRule (matchUpd leader1 2 1) (n_Commit n')).
Proof.
  split; [eexists; split; vm_compute; reflexivity|].
  apply (commit_rule leader1 ack2);
    [exact leader1_inv|reflexivity|cbv; split; discriminate|by apply room_concrete].
Defined.

Lemma vote_spec_witness :
  let n := node1 <| n_Term := 1 |> in
  voteGranted n voteRequest = true /\
  exists n', onVote voteRequest n = Done () n' /\ node_inv n' /\
    if voteGranted n voteRequest then
      match SaveHardState (mkHardState (n_Term n) 2 (n_Commit n)) (n_store n) with
      | (s, None) =>
          n' = n <| n_store := s |> <| n_VotedFor := 2 |> <| n_elapsed := 0 |>
                 <| n_outbound := n_outbound n ++ [voteResponse n voteRequest false] |>
      | (s, Some e) => n' = faultUpd n s (Some e)
      end
    else n' = n <| n_outbound := n_outbound n ++ [voteResponse n voteRequest true] |>.
Proof.
  intros n. split; [vm_compute; reflexivity|].
  apply (vote_spec n voteRequest); [|reflexivity|cbv; split; discriminate|by apply room_concrete].
  apply wf_concrete; cbn; (done || (unfold maxu64, len; cbn; lia)).
Defined.

Lemma apply_exact_witness :
  let n := leader1 <| n_Log := [zeroEntry; noop; zeroEntry <| e_Command := 9 |>] |> <| n_Commit := 2 |> in
  ApplyEntries [] n = Done [zeroEntry <| e_Command := 9 |>] (n <| n_Applied := 2 |>).
Proof.
  intros n. rewrite (apply_exact n []); [reflexivity|].
  apply wf_concrete; cbn; (done || (unfold maxu64, len; cbn; lia)).
Defined.

Lemma compact_spec_witness :
  exists ok n', Compact 1 [42] leader2 = Done ok n' /\ node_inv n' /\
    if ok then n_BaseIndex leader2 < 1 <= n_Applied leader2 /\ n_BaseIndex n' = 1 /\
      (forall i, 1 <= i -> EntryAt n' i = EntryAt leader2 i) /\
      n_snapshot n' = mkSnapshot 1 (n_BaseTerm n') [42] (n_votersOld leader2) (n_votersNew leader2) /\
      termAt leader2 1 = Some (n_BaseTerm n')
    else n' = leader2 \/ n_Faulted n' = true.
Proof. apply (compact_spec leader2 1 [42]). exact leader2_inv. Defined.

Lemma proposal_spec_witness :
  (exists n', ProposeRequest CommandPut 5 6 7 8 leader1 = Done true n' /\
     n_Log n' = n_Log leader1 ++ [mkEntry 1 0 EntryNormal 0 0 CommandPut 5 6 7 8]) /\
  (exists n', ProposeJoint [1; 4] leader1 = Done true n' /\
     n_Log n' = n_Log leader1 ++ [mkEntry 1 0 EntryJointConfig 7 9 0 0 0 0 0]) /\
  ProposeFinal leader1 = Done false leader1.
Proof.
  destruct (proposal_spec leader1) as (_ & H2 & H3 & H4); [exact leader1_inv|cbv; done|by apply room_concrete|].
  assert (leads leader1) as HL by (split; reflexivity). split; [|split].
  - destruct (H2 CommandPut 5 6 7 8) as (ok & n' & E & _ & H). destruct ok; [exists n'; split; [exact E|apply H]|].
    vm_compute in E. discriminate.
  - destruct (H3 [1; 4]) as (mask & valid & Em & ok & n' & E & _ & H).
    + repeat (apply Forall_cons; split; [unfold valid_id; lia|]). by apply Forall_nil.
    + vm_compute in Em. injection Em as <- <-. destruct ok; [exists n'; split; [exact E|apply H]|].
      vm_compute in E. discriminate.
  - destruct H4 as (ok & n' & E & _ & H). destruct ok; [destruct H as ((_ & H & _) & _); destruct (H eq_refl)|].
    destruct H as [[-> _]|H]; [exact E|]. vm_compute in E. injection E as <-. discriminate H.
Defined.

Lemma recovery_spec_witness :
  exists voters n, initialVoters 1 [2; 3] voters /\
    NewRecoveredNode 1 [2; 3] 2 Memory.zero (mkHardState 4 2 1) [zeroEntry; noop] = Done () n /\
    n_State n = Follower /\ n_outbound n = [] /\ n_Term n = 4 /\
    n_VotedFor n = 2 /\ n_Commit n = 1 /\ n_Log n = [zeroEntry; noop] /\
    (if n_Faulted n then stopped n else
       node_inv n /\ 1 < len [zeroEntry; noop] /\
       VoterMasks n = foldl cfgOf (voters, 0) (take (Z.to_nat 1) (tail [zeroEntry; noop])) /\
       n_pendingConfig n =
         foldl (fun p i => if isConfig (logAt n i) then i else p) 0
           (seqZ (1 + 1) (len [zeroEntry; noop] - 1 - 1))).
Proof.
  apply (recovery_spec 1 [2; 3] 2 Memory.zero (mkHardState 4 2 1) [zeroEntry; noop]); cbn;
    try (unfold valid_id, maxu64, len; cbn; lia); try done.
  - repeat (apply Forall_cons; split; [unfold valid_id; lia|]). by apply Forall_nil.
  - apply (bool_decide_unpack _). vm_compute. exact I.
  - repeat (apply Forall_cons; split; [done|]). by apply Forall_nil.
Defined.
End Demo.
