(* ===== verification/Operations.v ===== *)
(** * The operations of a node, one after another

    The exported operations of [raft/node.go] as one type, and runs of them: what a
    caller such as the server does with a node, in any order.  Only [ApplyEntries]
    and a snapshot from the leader move the applied index. *)

From S2P Require Import Prelude RaftTypes Quorum RaftNode RaftInv RaftStep RaftClient.

Inductive operation :=
| OpTick
| OpStep (m : Message)
| OpPropose (command : Z)
| OpProposeRequest (op clientID requestID key value : Z)
| OpProposeJoint (voters : list Z)
| OpProposeFinal
| OpStartReadIndex (context : Z)
| OpTransferLeadership (target : Z)
| OpCompact (index : Z) (state : list Z)
| OpApplyEntries
| OpDrain.

(** What a caller gets: nothing, whether it was accepted, entries, or messages. *)
Inductive reply := Silent | Accepted (ok : bool) | Entries (l : list Entry) | Messages (l : list Message).

Definition perform {S} `{!StableStore S} (o : operation) : MN S reply :=
  match o with
  | OpTick => Tick ;; mret Silent
  | OpStep m => Step m ;; mret Silent
  | OpPropose command => ok ← Propose command; mret (Accepted ok)
  | OpProposeRequest op clientID requestID key value => ok ← ProposeRequest op clientID requestID key value; mret (Accepted ok)
  | OpProposeJoint voters => ok ← ProposeJoint voters; mret (Accepted ok)
  | OpProposeFinal => ok ← ProposeFinal; mret (Accepted ok)
  | OpStartReadIndex context => ok ← StartReadIndex context; mret (Accepted ok)
  | OpTransferLeadership target => ok ← TransferLeadership target; mret (Accepted ok)
  | OpCompact index state => ok ← Compact index state; mret (Accepted ok)
  | OpApplyEntries => l ← ApplyEntries []; mret (Entries l)
  | OpDrain => l ← Drain []; mret (Messages l)
  end.

Section operations.
Context {S : Type} `{!StableStore S}.
Implicit Types n : Node S.

(** The node has room for what an operation may do, and its arguments are those of
    peers and callers that keep to the protocol. *)
Definition admissible n (o : operation) : Prop :=
  top n < maxu64 /\ n_Term n < maxu64 /\ room n 189 /\
  match o with
  | OpStep m => msg_ok n m /\ m_Term m < maxu64
  | OpProposeJoint voters => Forall valid_id voters
  | OpTransferLeadership target => valid_id target
  | _ => True
  end.

Inductive steps : Node S -> list operation -> Node S -> Prop :=
| steps_nil n : steps n [] n
| steps_cons n o r n1 l n' : admissible n o -> perform o n = Done r n1 -> steps n1 l n' -> steps n (o :: l) n'.

Lemma steps_app n1 l1 n2 l2 n3 : steps n1 l1 n2 -> steps n2 l2 n3 -> steps n1 (l1 ++ l2) n3.
Proof. induction 1; [done|]. intros H3. by eapply steps_cons; [..|auto]. Qed.

(** What an operation keeps. *)
Record moves n n' : Prop := {
  mv_inv : node_inv n';
  mv_id : n_ID n' = n_ID n;
  mv_term : n_Term n <= n_Term n';
  mv_commit : n_Commit n <= n_Commit n'
}.

Lemma evolves_moves b k n n' : node_inv n -> evolves b k n n' -> moves n n'.
Proof. intros Hinv Hev. split; [by eapply evolves_inv|apply Hev..]. Qed.

Lemma moves_refl n : node_inv n -> moves n n.
Proof. by split. Qed.

Lemma moves_trans n1 n2 n3 : moves n1 n2 -> moves n2 n3 -> moves n1 n3.
Proof. intros [] []. split; [done|congruence|lia|lia]. Qed.

(** Every admissible operation returns. *)
Lemma perform_moves o n : node_inv n -> admissible n o -> wp (perform o) (fun _ n' => moves n n') n.
Proof.
  intros Hinv (Ht & Htm & Hr & Ho). pose proof Hinv as (Hwf & _).
  assert (forall k, k <= 189 -> room n k) as Hroom by (intros k Hk; by apply (room_le n 189)).
  destruct o; cbn [perform]; wp_pures.
  - wp_call Tick_wp; [done..|]. intros [] n' Hev. by eapply evolves_moves.
  - destruct Ho. wp_call Step_wp; [done..|by apply Hroom|]. intros [] n' Hev. by eapply evolves_moves.
  - wp_call Propose_wp; [done..|by apply Hroom|]. intros ok n' [Hev _]. by eapply evolves_moves.
  - wp_call ProposeRequest_wp; [done..|by apply Hroom|]. intros ok n' [Hev _]. by eapply evolves_moves.
  - wp_call ProposeJoint_wp; [done..|by apply Hroom|done|]. intros ok n' [Hev _]. by eapply evolves_moves.
  - wp_call ProposeFinal_wp; [done..|by apply Hroom|]. intros ok n' [Hev _]. by eapply evolves_moves.
  - wp_call StartReadIndex_wp; [done|by apply Hroom|]. intros ok n' [Hev _]. by eapply evolves_moves.
  - wp_call TransferLeadership_wp; [done|by apply Hroom|done|]. intros ok n' [Hev _]. by eapply evolves_moves.
  - wp_call Compact_wp; [done|]. intros ok n' [Hev _]. by eapply evolves_moves.
  - wp_call ApplyEntries_wp; [done|]. intros l n' [_ ->]. destruct Hinv as ((H1 & H2 & H3 & H4) & H5 & H6).
    split; cbn; [|done..]. split; [|done]. split_and!; try done. unfold wf_index in *. cbn. lia.
  - unfold Drain. wp_pures. destruct Hinv as (H1 & H5 & H6). split; cbn; [|done..]. split; [done|]. split; [done|].
    intros Hf. by destruct (H6 Hf) as (? & ? & _ & ?).
Qed.

Lemma steps_moves n l n' : node_inv n -> steps n l n' -> moves n n'.
Proof.
  intros Hinv H. induction H as [n|n o r n1 l n' Ha E Hs IH]; [by apply moves_refl|].
  pose proof (perform_moves o n Hinv Ha) as Hm. unfold wp in Hm. rewrite E in Hm.
  eapply moves_trans; [exact Hm|]. apply IH, Hm.
Qed.

End operations.

(** ** The applied index *)

Section applied.
Context {S : Type} `{!StableStore S}.
Implicit Types n : Node S.

Definition steady {A} (op : MN S A) : Prop :=
  forall a n, n_Applied n = a -> wlp op (fun _ n' => n_Applied n' = a) n.

Lemma steady_call {A} (op : MN S A) (Q : A -> Node S -> Prop) a n :
  steady op -> n_Applied n = a -> (forall x n', n_Applied n' = a -> Q x n') -> wlp op Q n.
Proof. intros Hop Hn H. eapply wlp_mono; [by apply Hop|]. auto. Qed.

Create HintDb steady discriminated.

Ltac steady_step :=
  lazymatch goal with
  | |- forall _, _ => cbn beta; intros
  | |- wlp (mbind _ _) _ _ => wlp_pure
  | |- wlp get _ _ => wlp_pure
  | |- wlp (mret _) _ _ => wlp_pure
  | |- wlp (panic _) _ _ => wlp_pure
  | |- wlp (modify _) _ _ => wlp_pure
  | |- wlp (match ?x with _ => _ end) _ _ => destruct x eqn:?; cbn beta
  | |- wlp ((match ?x with _ => _ end) _) _ _ => destruct x; cbn beta
  | H : n_Applied _ = ?a |- wlp (forM_ _ _) _ _ =>
      eapply wlp_mono; [apply (wlp_forM_ (fun n => n_Applied n = a)); [assumption|intros; cbn beta]|cbn beta; intros]
  | H : n_Applied _ = ?a |- wlp (foldM _ _ _) _ _ =>
      eapply wlp_mono; [apply (wlp_foldM (fun _ n => n_Applied n = a)); [assumption|intros; cbn beta]|cbn beta; intros]
  | |- wlp _ _ _ => eapply steady_call; [solve [eauto with steady]|eassumption|cbn beta; intros]
  | |- n_Applied _ = _ => assumption
  end.
Ltac steady_auto := repeat (cbn zeta; steady_step).

Lemma storeOp_steady op : steady (storeOp op).
Proof. intros a n Hn. unfold wlp, storeOp. by destruct (op _). Qed.
#[local] Hint Resolve storeOp_steady : steady.

Lemma bitOf_steady id : steady (bitOf id).
Proof. intros a n Hn. unfold bitOf. by steady_auto. Qed.

Lemma entryAt_steady i : steady (entryAt i).
Proof. intros a n Hn. unfold entryAt. by steady_auto. Qed.

Lemma termAtMust_steady i : steady (termAtMust i).
Proof. intros a n Hn. unfold termAtMust. by steady_auto. Qed.

Lemma send_steady m : steady (send m).
Proof. intros a n Hn. unfold send. by steady_auto. Qed.

Lemma failStorageWith_steady e : steady (failStorageWith e).
Proof. intros a n Hn. unfold failStorageWith, failStorage. by steady_auto. Qed.
#[local] Hint Resolve bitOf_steady entryAt_steady termAtMust_steady send_steady failStorageWith_steady : steady.

Lemma effectiveVoters_steady : steady effectiveVoters.
Proof. intros a n Hn. unfold effectiveVoters. by steady_auto. Qed.
#[local] Hint Resolve effectiveVoters_steady : steady.

Lemma quorumMask_steady mask : steady (quorumMask mask).
Proof. intros a n Hn. unfold quorumMask. by steady_auto. Qed.

Lemma isVoter_steady id : steady (isVoter id).
Proof. intros a n Hn. unfold isVoter. by steady_auto. Qed.

Lemma canCommitIndex_steady i acked : steady (canCommitIndex i acked).
Proof. intros a n Hn. unfold canCommitIndex. by steady_auto. Qed.

Lemma ackedMask_steady i : steady (ackedMask i).
Proof. intros a n Hn. unfold ackedMask. by steady_auto. Qed.

Lemma ensurePeers_steady mask : steady (ensurePeers mask).
Proof. intros a n Hn. unfold ensurePeers. by steady_auto. Qed.

Lemma persistHardState_steady h : steady (persistHardState h).
Proof. intros a n Hn. unfold persistHardState. by steady_auto. Qed.
#[local] Hint Resolve quorumMask_steady isVoter_steady canCommitIndex_steady ackedMask_steady ensurePeers_steady
  persistHardState_steady : steady.

Lemma applyCommittedConfigurations_steady first last : steady (applyCommittedConfigurations first last).
Proof. intros a n Hn. unfold applyCommittedConfigurations. by steady_auto. Qed.

Lemma rebuildPendingConfig_steady : steady rebuildPendingConfig.
Proof. intros a n Hn. unfold rebuildPendingConfig. by steady_auto. Qed.

Lemma appendToContext_steady p ctx : steady (appendToContext p ctx).
Proof. intros a n Hn. unfold appendToContext. by steady_auto. Qed.
#[local] Hint Resolve applyCommittedConfigurations_steady rebuildPendingConfig_steady appendToContext_steady : steady.

Lemma appendTo_steady p : steady (appendTo p).
Proof. apply appendToContext_steady. Qed.
#[local] Hint Resolve appendTo_steady : steady.

Lemma broadcastAppend_steady : steady broadcastAppend.
Proof. intros a n Hn. unfold broadcastAppend. by steady_auto. Qed.
#[local] Hint Resolve broadcastAppend_steady : steady.

Lemma appendLocal_steady e : steady (appendLocal e).
Proof. intros a n Hn. unfold appendLocal. by steady_auto. Qed.

Lemma commitLoop_steady l : steady (commitLoop l).
Proof. induction l as [|i l IH]; intros a n Hn; cbn [commitLoop]; by steady_auto. Qed.
#[local] Hint Resolve appendLocal_steady commitLoop_steady : steady.

Lemma becomeLeader_steady : steady becomeLeader.
Proof. intros a n Hn. unfold becomeLeader. by steady_auto. Qed.
#[local] Hint Resolve becomeLeader_steady : steady.

Lemma startElection_steady : steady startElection.
Proof. intros a n Hn. unfold startElection. by steady_auto. Qed.
#[local] Hint Resolve startElection_steady : steady.

Lemma Tick_steady : steady Tick.
Proof. intros a n Hn. unfold Tick, startPreVote. by steady_auto. Qed.

Lemma onAppend_steady m : steady (onAppend m).
Proof. intros a n Hn. unfold onAppend, appendEntry, appendCommit. by steady_auto. Qed.

Lemma onAppendResponse_steady m : steady (onAppendResponse m).
Proof. intros a n Hn. unfold onAppendResponse. by steady_auto. Qed.
#[local] Hint Resolve onAppend_steady onAppendResponse_steady : steady.

Lemma Step_steady m : m_Type m <> MsgInstallSnapshot -> steady (Step m).
Proof.
  intros Hm a n Hn. unfold Step, stepTerm, dispatch, onPreVote, onPreVoteResponse, onVote, onVoteResponse,
    onInstallSnapshotResponse, onTimeoutNow. rewrite (proj2 (Z.eqb_neq _ _) Hm). by steady_auto.
Qed.

Lemma ProposeRequest_steady op cid rid key value : steady (ProposeRequest op cid rid key value).
Proof. intros a n Hn. unfold ProposeRequest. by steady_auto. Qed.

Lemma StartReadIndex_steady ctx : steady (StartReadIndex ctx).
Proof. intros a n Hn. unfold StartReadIndex. by steady_auto. Qed.

End applied.
