(* ===== verification/FailStop.v ===== *)
(** * Fail-stop

    What a node does when its store fails ([failStorage], [failStorageWith] and
    their callers in [raft/node.go]).  The store is any store at all, watched: it
    also remembers the outcome of every call that was made to it.  The first call
    that fails is the last one: within the same operation the node becomes a
    follower without a leader, drops every message it had queued, keeps the error,
    and from then on refuses its callers and ignores its peers. *)

From S2P Require Import Prelude RaftTypes Quorum RaftNode RaftInv RaftStep RaftClient Operations.

(** ** A store and its calls *)

Record watched (S : Type) := mkWatched { inner : S; calls : list (option error) }.
Arguments mkWatched {S} inner calls.
Arguments inner {S}.
Arguments calls {S}.

Definition watch {S} (op : S -> S * option error) (w : watched S) : watched S * option error :=
  let (s, err) := op (inner w) in (mkWatched s (err :: calls w), err).

#[export] Instance watched_store {S} `{!StableStore S} : StableStore (watched S) := {
  SaveHardState := fun h => watch (SaveHardState h);
  Append := fun i e => watch (Append i e);
  AsSnapshotStore :=
    (fun ops => {| SaveSnapshot := fun snap => watch (SaveSnapshot ops snap);
                   CompactLog := fun i => watch (CompactLog ops i) |}) <$> AsSnapshotStore
}.

(** ** Refusals *)

(** The answer of a node that does nothing. *)
Definition refusal (o : operation) : reply :=
  match o with
  | OpTick | OpStep _ => Silent
  | OpApplyEntries => Entries []
  | OpDrain => Messages []
  | _ => Accepted false
  end.

(** [Compact] and [ApplyEntries] do not ask whether the node has stopped, and
    [ProposeJoint] panics on a node number out of range before it does. *)
Definition guarded (o : operation) : Prop :=
  match o with
  | OpCompact _ _ | OpApplyEntries => False
  | OpProposeJoint voters => Forall valid_id voters
  | _ => True
  end.

Section failstop.
Context {S : Type} `{!StableStore S}.
Abbreviation node := (Node (watched S)).
Implicit Types n : node.

Abbreviation fine := (Forall (fun r : option error => r = None)).

(** Every call of the store has succeeded so far. *)
Definition unfailed n : Prop :=
  n_Faulted n = false /\ n_storageErr n = None /\ fine (calls (n_store n)).

(** Why a node stopped: its store returned this error, or cannot take snapshots. *)
Definition cause n : Prop :=
  (exists e l, calls (n_store n) = Some e :: l /\ n_storageErr n = Some e /\ fine l) \/
  (AsSnapshotStore (S := S) = None /\ n_storageErr n = Some ErrStorage /\ fine (calls (n_store n))).

(** Nothing of the node was left to be sent, and the failed call was the last. *)
Record halted n : Prop := {
  ha_faulted : n_Faulted n = true;
  ha_state : n_State n = Follower;
  ha_leader : n_Leader n = 0;
  ha_outbound : n_outbound n = [];
  ha_cause : cause n
}.

(** [op] either leaves a node whose store has not failed, or stops it and says so
    with a result in [P]. *)
Definition halts {A} (op : MN (watched S) A) (P : A -> Prop) : Prop :=
  forall n, unfailed n -> wlp op (fun a n' => unfailed n' \/ halted n' /\ P a) n.

(** [op] does not reach the store. *)
Definition calm {A} (op : MN (watched S) A) : Prop := forall n, unfailed n -> wlp op (fun _ n' => unfailed n') n.

Lemma halts_call {A} (op : MN (watched S) A) P (Q : A -> node -> Prop) n :
  halts op P -> unfailed n -> (forall a n', unfailed n' -> Q a n') -> (forall a n', P a -> halted n' -> Q a n') -> wlp op Q n.
Proof. intros Hop Hn H1 H2. eapply wlp_mono; [by apply Hop|]. intros a n' [H|[H HP]]; auto. Qed.

Lemma calm_call {A} (op : MN (watched S) A) (Q : A -> node -> Prop) n :
  calm op -> unfailed n -> (forall a n', unfailed n' -> Q a n') -> wlp op Q n.
Proof. intros Hop Hn H. eapply wlp_mono; [by apply Hop|]. auto. Qed.

Lemma halted_commit n c : halted n -> halted (n <| n_Commit := c |>).
Proof. by intros []. Qed.

(** Between a failed call and [failStorageWith]. *)
Definition failing (e : error) n : Prop :=
  n_Faulted n = false /\ exists l, calls (n_store n) = Some e :: l /\ fine l.

Lemma store_call (op : S -> S * option error) (Q : option error -> node -> Prop) n :
  unfailed n -> (forall n', unfailed n' -> Q None n') -> (forall e n', failing e n' -> Q (Some e) n') ->
  wlp (storeOp (watch op)) Q n.
Proof.
  intros (Hf & He & Hc) H1 H2. unfold wlp, storeOp, watch. destruct (op _) as [s [e|]].
  - apply H2. split; [done|]. by eexists.
  - apply H1. split; [done|]. split; [done|]. by constructor.
Qed.

Lemma failWith_call e (Q : () -> node -> Prop) n :
  failing e n -> (forall n', halted n' -> Q () n') -> wlp (failStorageWith e) Q n.
Proof.
  intros (Hf & l & Hc & Hl) H. unfold failStorageWith, failStorage. wlp_pures. apply H. split; try done.
  left. by exists e, l.
Qed.

Lemma fail_call (Q : () -> node -> Prop) n :
  AsSnapshotStore (S := S) = None -> unfailed n -> (forall n', halted n' -> Q () n') -> wlp failStorage Q n.
Proof.
  intros Ha (Hf & He & Hc) H. unfold failStorage. wlp_pures. apply H. split; try done. right. cbn. by rewrite He.
Qed.

Lemma snapshot_ops ops :
  AsSnapshotStore (S := watched S) = Some ops ->
  exists o, ops = {| SaveSnapshot := fun snap => watch (SaveSnapshot o snap); CompactLog := fun i => watch (CompactLog o i) |}.
Proof. cbn. destruct AsSnapshotStore as [o|]; [|done]. intros [= <-]. by exists o. Qed.

Lemma snapshot_none : AsSnapshotStore (S := watched S) = None -> AsSnapshotStore (S := S) = None.
Proof. cbn. by destruct AsSnapshotStore. Qed.

Create HintDb calm discriminated.
Create HintDb halts discriminated.

(** One step of a proof that a piece of code keeps to [unfailed]; a node that
    stopped may only return. *)
Ltac halt_step :=
  lazymatch goal with
  | |- forall _, _ => cbn beta; intros
  | |- wlp (mbind _ _) _ _ => wlp_pure
  | |- wlp get _ _ => wlp_pure
  | |- wlp (mret _) _ _ => wlp_pure
  | |- wlp (panic _) _ _ => wlp_pure
  | |- wlp (modify _) _ _ => wlp_pure
  | |- wlp (match ?x with _ => _ end) _ _ => destruct x eqn:?; try (simplify_eq; fail); cbn beta
  | |- wlp ((match ?x with _ => _ end) _) _ _ => destruct x; cbn beta
  | |- wlp (forM_ _ _) _ _ => eapply wlp_mono; [apply (wlp_forM_ unfailed); [assumption|intros; cbn beta]|cbn beta; intros]
  | |- wlp (foldM _ _ _) _ _ =>
      eapply wlp_mono; [apply (wlp_foldM (fun _ n => unfailed n)); [assumption|intros; cbn beta]|cbn beta; intros]
  | |- wlp (storeOp _) _ _ => eapply store_call; [eassumption|cbn beta; intros|cbn beta; intros]
  | |- wlp (failStorageWith _) _ _ => eapply failWith_call; [eassumption|cbn beta; intros]
  | |- wlp failStorage _ _ => eapply fail_call; [by apply snapshot_none|eassumption|cbn beta; intros]
  | |- wlp _ _ _ =>
      first [eapply calm_call; [solve [eauto with calm]|eassumption|cbn beta; intros]
            |eapply halts_call; [solve [eauto with halts]|eassumption|cbn beta; intros|cbn beta; intros ? ? ->; intros]]
  | |- unfailed ?n => first [assumption|(unfold unfailed in *; cbn; tauto)]
  | |- halted _ => first [assumption|by apply halted_commit]
  | |- unfailed _ \/ _ =>
      first [left; (assumption || (unfold unfailed in *; cbn; tauto))
            |right; split; [assumption || by apply halted_commit|done]]
  end.
Ltac halt_auto := repeat (cbn zeta; halt_step).

(** ** Code that does not reach the store *)

Lemma bitOf_calm id : calm (bitOf id).
Proof. intros n Hn. unfold bitOf. by halt_auto. Qed.

Lemma entryAt_calm i : calm (entryAt i).
Proof. intros n Hn. unfold entryAt. by halt_auto. Qed.

Lemma termAtMust_calm i : calm (termAtMust i).
Proof. intros n Hn. unfold termAtMust. by halt_auto. Qed.

Lemma send_calm m : calm (send m).
Proof. intros n Hn. unfold send. by halt_auto. Qed.
#[local] Hint Resolve bitOf_calm entryAt_calm termAtMust_calm send_calm : calm.

Lemma effectiveVoters_calm : calm effectiveVoters.
Proof. intros n Hn. unfold effectiveVoters. by halt_auto. Qed.
#[local] Hint Resolve effectiveVoters_calm : calm.

Lemma quorumMask_calm mask : calm (quorumMask mask).
Proof. intros n Hn. unfold quorumMask. by halt_auto. Qed.

Lemma isVoter_calm id : calm (isVoter id).
Proof. intros n Hn. unfold isVoter. by halt_auto. Qed.

Lemma canCommitIndex_calm i acked : calm (canCommitIndex i acked).
Proof. intros n Hn. unfold canCommitIndex. by halt_auto. Qed.

Lemma ackedMask_calm i : calm (ackedMask i).
Proof. intros n Hn. unfold ackedMask. by halt_auto. Qed.

Lemma ensurePeers_calm mask : calm (ensurePeers mask).
Proof. intros n Hn. unfold ensurePeers. by halt_auto. Qed.
#[local] Hint Resolve quorumMask_calm isVoter_calm canCommitIndex_calm ackedMask_calm ensurePeers_calm : calm.

Lemma applyCommittedConfigurations_calm first last : calm (applyCommittedConfigurations first last).
Proof. intros n Hn. unfold applyCommittedConfigurations. by halt_auto. Qed.

Lemma rebuildPendingConfig_calm : calm rebuildPendingConfig.
Proof. intros n Hn. unfold rebuildPendingConfig. by halt_auto. Qed.

Lemma appendToContext_calm p ctx : calm (appendToContext p ctx).
Proof. intros n Hn. unfold appendToContext. by halt_auto. Qed.
#[local] Hint Resolve applyCommittedConfigurations_calm rebuildPendingConfig_calm appendToContext_calm : calm.

Lemma appendTo_calm p : calm (appendTo p).
Proof. apply appendToContext_calm. Qed.
#[local] Hint Resolve appendTo_calm : calm.

Lemma broadcastAppend_calm : calm broadcastAppend.
Proof. intros n Hn. unfold broadcastAppend. by halt_auto. Qed.
#[local] Hint Resolve broadcastAppend_calm : calm.

(** ** Code that reaches the store *)

Abbreviation refuses := (fun ok : bool => ok = false).
Abbreviation returns := (fun u : () => u = ()).

Lemma persistHardState_halts h : halts (persistHardState h) refuses.
Proof. intros n Hn. unfold persistHardState. by halt_auto. Qed.
#[local] Hint Resolve persistHardState_halts : halts.

Lemma appendLocal_halts e : halts (appendLocal e) refuses.
Proof. intros n Hn. unfold appendLocal. by halt_auto. Qed.
#[local] Hint Resolve appendLocal_halts : halts.

Lemma becomeLeader_halts : halts becomeLeader returns.
Proof. intros n Hn. unfold becomeLeader. by halt_auto. Qed.
#[local] Hint Resolve becomeLeader_halts : halts.

Lemma startElection_halts : halts startElection returns.
Proof. intros n Hn. unfold startElection. by halt_auto. Qed.
#[local] Hint Resolve startElection_halts : halts.

Lemma startPreVote_halts : halts startPreVote returns.
Proof. intros n Hn. unfold startPreVote. by halt_auto. Qed.
#[local] Hint Resolve startPreVote_halts : halts.

Lemma Tick_halts : halts Tick returns.
Proof. intros n Hn. unfold Tick. by halt_auto. Qed.

Lemma onPreVote_halts m : halts (onPreVote m) returns.
Proof. intros n Hn. unfold onPreVote. by halt_auto. Qed.

Lemma onVote_halts m : halts (onVote m) returns.
Proof. intros n Hn. unfold onVote. by halt_auto. Qed.

Lemma appendEntry_halts m : halts (appendEntry m) refuses.
Proof. intros n Hn. unfold appendEntry. by halt_auto. Qed.

Lemma appendCommit_halts m : halts (appendCommit m) refuses.
Proof. intros n Hn. unfold appendCommit. by halt_auto. Qed.
#[local] Hint Resolve appendEntry_halts appendCommit_halts : halts.

Lemma onAppend_halts m : halts (onAppend m) returns.
Proof. intros n Hn. unfold onAppend. by halt_auto. Qed.

(** The commit loop returns [true] when it failed. *)
Lemma commitLoop_halts l : halts (commitLoop l) (fun returned => returned = true).
Proof. induction l as [|i l IH]; intros n Hn; cbn [commitLoop]; by halt_auto. Qed.
#[local] Hint Resolve commitLoop_halts : halts.

Lemma onAppendResponse_halts m : halts (onAppendResponse m) returns.
Proof. intros n Hn. unfold onAppendResponse. by halt_auto. Qed.

Lemma installSnapshot_halts m : halts (installSnapshot m) refuses.
Proof.
  intros n Hn. unfold installSnapshot. destruct AsSnapshotStore as [ops|] eqn:Ea; [|by halt_auto].
  destruct (snapshot_ops ops Ea) as [o ->]. by halt_auto.
Qed.
#[local] Hint Resolve installSnapshot_halts : halts.

Lemma onInstallSnapshot_halts m : halts (onInstallSnapshot m) returns.
Proof. intros n Hn. unfold onInstallSnapshot. by halt_auto. Qed.

Lemma onInstallSnapshotResponse_halts m : halts (onInstallSnapshotResponse m) returns.
Proof. intros n Hn. unfold onInstallSnapshotResponse. by halt_auto. Qed.

Lemma stepTerm_halts m : halts (stepTerm m) refuses.
Proof. intros n Hn. unfold stepTerm. by halt_auto. Qed.

Lemma onPreVoteResponse_halts m : halts (onPreVoteResponse m) returns.
Proof. intros n Hn. unfold onPreVoteResponse. by halt_auto. Qed.

Lemma onVoteResponse_halts m : halts (onVoteResponse m) returns.
Proof. intros n Hn. unfold onVoteResponse. by halt_auto. Qed.

Lemma onTimeoutNow_halts m : halts (onTimeoutNow m) returns.
Proof. intros n Hn. unfold onTimeoutNow. by halt_auto. Qed.
#[local] Hint Resolve onPreVote_halts onVote_halts onAppend_halts onAppendResponse_halts onInstallSnapshot_halts
  onInstallSnapshotResponse_halts stepTerm_halts onPreVoteResponse_halts onVoteResponse_halts onTimeoutNow_halts : halts.

Lemma Step_halts m : halts (Step m) returns.
Proof. intros n Hn. unfold Step, dispatch. by halt_auto. Qed.

Lemma Compact_halts index state : halts (Compact index state) refuses.
Proof.
  intros n Hn. unfold Compact. wlp_pures. destruct (_ || _); [by halt_auto|].
  destruct (termAt n index); [|by halt_auto]. destruct (offset n index); [|by halt_auto].
  destruct AsSnapshotStore as [ops|] eqn:Ea; [|by halt_auto].
  destruct (snapshot_ops ops Ea) as [o ->]. by halt_auto.
Qed.
#[local] Hint Resolve Tick_halts Step_halts Compact_halts : halts.

Lemma perform_halts o : halts (perform o) (fun r => r = refusal o).
Proof.
  intros n Hn. destruct o; cbn [perform refusal];
    unfold Propose, ProposeRequest, ProposeJoint, liftMask, ProposeFinal, StartReadIndex, TransferLeadership, ApplyEntries, Drain;
    by halt_auto.
Qed.

(** C39 Fail-stop.  Over any store, watched from its creation on: as long as every
    call has succeeded the node runs; an operation during which a call fails, if it
    returns, makes no further call, and leaves the node a follower without a leader,
    with no message to send and with that error kept, and reports a refusal to its
    caller.  (Needing a snapshot from a store that has none counts as a failure.)
    A node that stopped so answers ticks, messages, all four kinds of proposals,
    read barriers, transfers of leadership and [Drain] by doing nothing. *)
Theorem fail_stop n o :
  (forall id peers timeout store, NewNodeWithStore id peers timeout (mkWatched store []) = inr n -> unfailed n) /\
  (unfailed n -> forall r n', perform o n = Done r n' -> unfailed n' \/ halted n' /\ r = refusal o) /\
  (halted n -> guarded o -> perform o n = Done (refusal o) n) /\
  (halted n -> forall context, ReadIndex n context = None).
Proof.
  split; [|split; [|split]].
  - intros id peers timeout store. unfold NewNodeWithStore. destruct (nodeBit id); [|done].
    destruct (newNode_voters _ _); [done|]. intros [= <-]. done.
  - intros Hn r n' E. exact (wlp_Done _ _ n r n' (perform_halts o n Hn) E).
  - intros [Hf Hs Hl Ho _] Hg. destruct n. cbn in Hf, Hs, Ho. subst.
    destruct o as [| | | |voters| | | | | |]; cbn in Hg; try done; try reflexivity.
    destruct (voterMask_ok voters Hg) as (mask & ok & E & _). cbn [perform]. unfold ProposeJoint, liftMask. rewrite E.
    by destruct ok.
  - intros [_ Hs _ _ _] context. unfold ReadIndex. by rewrite Hs.
Qed.

End failstop.

Module Demo.

(** A store that takes so many calls, and no snapshots. *)
Definition budget (k : nat) : nat * option error :=
  match k with O => (O, Some "disk full"%string) | Datatypes.S k => (k, None) end.

#[local] Instance budget_store : StableStore nat := {
  SaveHardState := fun _ => budget;
  Append := fun _ _ => budget;
  AsSnapshotStore := None
}.

Definition node1 : Node (watched nat) := freshNode 1 [2; 3] 1 (mkWatched 3%nat []) 7.

(** Node 1 is elected and takes one command. *)
Definition steps : list operation :=
  [OpTick; OpStep (newMessage MsgPreVoteResponse 2 1 1); OpStep (newMessage MsgRequestVoteResponse 2 1 1); OpDrain; OpPropose 7].

Definition after (l : list operation) (n : Node (watched nat)) : Node (watched nat) :=
  foldl (fun n o => match perform o n with Done _ n' => n' | Panicked _ => n end) n l.

Abbreviation leader := (after steps node1).
Abbreviation stoppedNode := (after [OpPropose 8] leader).

Lemma fail_stop_witness :
  n_State leader = Leader /\ length (n_outbound leader) = 2%nat /\ unfailed leader /\
  halted stoppedNode /\ n_storageErr stoppedNode = Some "disk full"%string /\
  perform (OpProposeJoint [1; 2]) stoppedNode = Done (Accepted false) stoppedNode.
Proof.
  assert (unfailed leader) as Hn.
  { split; [vm_compute; reflexivity|]. split; [vm_compute; reflexivity|]. vm_compute. by repeat constructor. }
  assert (perform (OpPropose 8) leader = Done (Accepted false) stoppedNode) as E by (vm_compute; reflexivity).
  assert (halted stoppedNode) as Hh.
  { destruct (fail_stop leader (OpPropose 8)) as (_ & H & _). destruct (H Hn _ _ E) as [[Hf _]|[Hh _]]; [|exact Hh].
    vm_compute in Hf. discriminate. }
  split; [vm_compute; reflexivity|]. split; [vm_compute; reflexivity|]. split; [exact Hn|]. split; [exact Hh|].
  split; [vm_compute; reflexivity|]. apply (fail_stop stoppedNode (OpProposeJoint [1; 2])); [exact Hh|].
  unfold guarded. repeat (apply Forall_cons; split; [unfold valid_id; lia|]). constructor.
Defined.

End Demo.
