(* ===== verification/ReadBarrier.v ===== *)
(** * Read barriers

    The read index of [raft/node.go]: [StartReadIndex] opens a round of
    confirmations, [onAppendResponse] collects them and [ReadIndex] reads the
    result.  No other operation opens a barrier.  An index that is handed out was
    the commit index of the node at a moment after the barrier was started, when a
    quorum of the voters then in force had confirmed it. *)

From S2P Require Import Prelude RaftTypes Quorum RaftNode RaftInv RaftStep RaftClient Operations RaftSafety.

Section reads.
Context {S : Type} `{!StableStore S}.
Implicit Types n : Node S.

(** The round is as it was, or closed. *)
Definition quiet n n' : Prop :=
  n_readContext n' = n_readContext n /\ n_readAckMask n' = n_readAckMask n /\ n_readIndex n' = n_readIndex n /\
  (n_readReady n' = true -> n_readReady n = true).

(** The same, and only a node that lost its leadership closes it. *)
Definition sinks n n' : Prop :=
  quiet n n' /\ (n_State n' = n_State n /\ n_readReady n' = n_readReady n \/ n_State n' = Follower).

Definition sinking {A} (op : MN S A) : Prop := forall n0 n, sinks n0 n -> wlp op (fun _ n' => sinks n0 n') n.
Definition quieting {A} (op : MN S A) : Prop := forall n0 n, quiet n0 n -> wlp op (fun _ n' => quiet n0 n') n.

Lemma quiet_refl n : quiet n n. Proof. done. Qed.
Lemma sinks_refl n : sinks n n. Proof. split; [done|by left]. Qed.
Lemma quiet_trans n1 n2 n3 : quiet n1 n2 -> quiet n2 n3 -> quiet n1 n3.
Proof. unfold quiet. intuition congruence. Qed.

Lemma sinking_quieting {A} (op : MN S A) : sinking op -> quieting op.
Proof.
  intros Hop n0 n Hn. eapply wlp_mono; [apply (Hop n), sinks_refl|]. intros a n' [H _]. by eapply quiet_trans.
Qed.

Lemma sinking_call {A} (op : MN S A) (Q : A -> Node S -> Prop) n0 n :
  sinking op -> sinks n0 n -> (forall a n', sinks n0 n' -> Q a n') -> wlp op Q n.
Proof. intros Hop Hn H. eapply wlp_mono; [by apply Hop|]. auto. Qed.

Lemma quieting_call {A} (op : MN S A) (Q : A -> Node S -> Prop) n0 n :
  quieting op -> quiet n0 n -> (forall a n', quiet n0 n' -> Q a n') -> wlp op Q n.
Proof. intros Hop Hn H. eapply wlp_mono; [by apply Hop|]. auto. Qed.

Lemma sinking_modify f (Q : () -> Node S -> Prop) n0 n :
  sinks n0 (f n) -> (forall n', sinks n0 n' -> Q () n') -> wlp (modify f : MN S ()) Q n.
Proof. intros Hn H. apply wlp_modify. auto. Qed.

Lemma quieting_modify f (Q : () -> Node S -> Prop) n0 n :
  quiet n0 (f n) -> (forall n', quiet n0 n' -> Q () n') -> wlp (modify f : MN S ()) Q n.
Proof. intros Hn H. apply wlp_modify. auto. Qed.

Lemma storeOp_sinking op : sinking (storeOp op).
Proof. intros n0 n Hn. unfold wlp, storeOp. by destruct (op _). Qed.

Create HintDb sinking discriminated.
Create HintDb quieting discriminated.

Ltac keep := first [assumption|unfold sinks, quiet in *; cbn; intuition (congruence || discriminate)].

Ltac read_step :=
  lazymatch goal with
  | |- forall _, _ => cbn beta; intros
  | |- wlp (mbind _ _) _ _ => wlp_pure
  | |- wlp get _ _ => wlp_pure
  | |- wlp (mret _) _ _ => wlp_pure
  | |- wlp (panic _) _ _ => wlp_pure
  | H : sinks ?n0 ?n |- wlp (modify _) _ ?n => apply (sinking_modify _ _ n0); [keep|cbn beta; intros]
  | H : quiet ?n0 ?n |- wlp (modify _) _ ?n => apply (quieting_modify _ _ n0); [keep|cbn beta; intros]
  | |- wlp (match ?x with _ => _ end) _ _ => destruct x eqn:?; cbn beta
  | |- wlp ((match ?x with _ => _ end) _) _ _ => destruct x; cbn beta
  | H : sinks ?n0 ?n |- wlp (forM_ _ _) _ ?n =>
      eapply wlp_mono; [apply (wlp_forM_ (sinks n0)); [assumption|intros; cbn beta]|cbn beta; intros]
  | H : sinks ?n0 ?n |- wlp (foldM _ _ _) _ ?n =>
      eapply wlp_mono; [apply (wlp_foldM (fun _ n' => sinks n0 n')); [assumption|intros; cbn beta]|cbn beta; intros]
  | H : quiet ?n0 ?n |- wlp (forM_ _ _) _ ?n =>
      eapply wlp_mono; [apply (wlp_forM_ (quiet n0)); [assumption|intros; cbn beta]|cbn beta; intros]
  | H : sinks ?n0 ?n |- wlp _ _ ?n =>
      eapply (sinking_call _ _ n0); [solve [eauto with sinking]|exact H|cbn beta; intros]
  | H : quiet ?n0 ?n |- wlp _ _ ?n =>
      eapply (quieting_call _ _ n0); [solve [eauto with quieting sinking]|exact H|cbn beta; intros]
  | |- sinks _ _ => keep
  | |- quiet _ _ => keep
  end.
Ltac read_auto := repeat (cbn zeta; read_step).

#[local] Hint Resolve storeOp_sinking : sinking.

(** ** Operations that do not confirm *)

Lemma bitOf_sinking id : sinking (bitOf id).
Proof. intros n0 n Hn. unfold bitOf. by read_auto. Qed.

Lemma entryAt_sinking i : sinking (entryAt i).
Proof. intros n0 n Hn. unfold entryAt. by read_auto. Qed.

Lemma termAtMust_sinking i : sinking (termAtMust i).
Proof. intros n0 n Hn. unfold termAtMust. by read_auto. Qed.

Lemma send_sinking m : sinking (send m).
Proof. intros n0 n Hn. unfold send. by read_auto. Qed.

Lemma failStorage_sinking : sinking failStorage.
Proof. intros n0 n Hn. unfold failStorage. by read_auto. Qed.
#[local] Hint Resolve bitOf_sinking entryAt_sinking termAtMust_sinking send_sinking failStorage_sinking : sinking.

Lemma failStorageWith_sinking e : sinking (failStorageWith e).
Proof. intros n0 n Hn. unfold failStorageWith. by read_auto. Qed.

Lemma effectiveVoters_sinking : sinking effectiveVoters.
Proof. intros n0 n Hn. unfold effectiveVoters. by read_auto. Qed.
#[local] Hint Resolve failStorageWith_sinking effectiveVoters_sinking : sinking.

Lemma quorumMask_sinking mask : sinking (quorumMask mask).
Proof. intros n0 n Hn. unfold quorumMask. by read_auto. Qed.

Lemma isVoter_sinking id : sinking (isVoter id).
Proof. intros n0 n Hn. unfold isVoter. by read_auto. Qed.

Lemma canCommitIndex_sinking i acked : sinking (canCommitIndex i acked).
Proof. intros n0 n Hn. unfold canCommitIndex. by read_auto. Qed.

Lemma ackedMask_sinking i : sinking (ackedMask i).
Proof. intros n0 n Hn. unfold ackedMask. by read_auto. Qed.

Lemma ensurePeers_sinking mask : sinking (ensurePeers mask).
Proof. intros n0 n Hn. unfold ensurePeers. by read_auto. Qed.

Lemma persistHardState_sinking h : sinking (persistHardState h).
Proof. intros n0 n Hn. unfold persistHardState. by read_auto. Qed.
#[local] Hint Resolve quorumMask_sinking isVoter_sinking canCommitIndex_sinking ackedMask_sinking ensurePeers_sinking
  persistHardState_sinking : sinking.

Lemma applyCommittedConfigurations_sinking first last : sinking (applyCommittedConfigurations first last).
Proof. intros n0 n Hn. unfold applyCommittedConfigurations. by read_auto. Qed.

Lemma rebuildPendingConfig_sinking : sinking rebuildPendingConfig.
Proof. intros n0 n Hn. unfold rebuildPendingConfig. by read_auto. Qed.

Lemma appendToContext_sinking p ctx : sinking (appendToContext p ctx).
Proof. intros n0 n Hn. unfold appendToContext. by read_auto. Qed.
#[local] Hint Resolve applyCommittedConfigurations_sinking rebuildPendingConfig_sinking appendToContext_sinking : sinking.

Lemma appendTo_sinking p : sinking (appendTo p).
Proof. apply appendToContext_sinking. Qed.
#[local] Hint Resolve appendTo_sinking : sinking.

Lemma broadcastAppend_sinking : sinking broadcastAppend.
Proof. intros n0 n Hn. unfold broadcastAppend. by read_auto. Qed.
#[local] Hint Resolve broadcastAppend_sinking : sinking.

Lemma appendLocal_sinking e : sinking (appendLocal e).
Proof. intros n0 n Hn. unfold appendLocal. by read_auto. Qed.

Lemma commitLoop_sinking l : sinking (commitLoop l).
Proof. induction l as [|i l IH]; intros n0 n Hn; cbn [commitLoop]; by read_auto. Qed.
#[local] Hint Resolve appendLocal_sinking commitLoop_sinking : sinking.

Lemma onPreVote_sinking m : sinking (onPreVote m).
Proof. intros n0 n Hn. unfold onPreVote. by read_auto. Qed.

Lemma onVote_sinking m : sinking (onVote m).
Proof. intros n0 n Hn. unfold onVote. by read_auto. Qed.

Lemma onAppend_sinking m : sinking (onAppend m).
Proof. intros n0 n Hn. unfold onAppend, appendEntry, appendCommit. by read_auto. Qed.

Lemma onInstallSnapshot_sinking m : sinking (onInstallSnapshot m).
Proof. intros n0 n Hn. unfold onInstallSnapshot, installSnapshot. by read_auto. Qed.

Lemma onInstallSnapshotResponse_sinking m : sinking (onInstallSnapshotResponse m).
Proof. intros n0 n Hn. unfold onInstallSnapshotResponse. by read_auto. Qed.

Lemma stepTerm_sinking m : sinking (stepTerm m).
Proof. intros n0 n Hn. unfold stepTerm. by read_auto. Qed.
#[local] Hint Resolve onPreVote_sinking onVote_sinking onAppend_sinking onInstallSnapshot_sinking
  onInstallSnapshotResponse_sinking stepTerm_sinking : sinking.
#[local] Hint Resolve sinking_quieting : quieting.

Lemma becomeLeader_quieting : quieting becomeLeader.
Proof. intros n0 n Hn. unfold becomeLeader. by read_auto. Qed.
#[local] Hint Resolve becomeLeader_quieting : quieting.

Lemma startElection_quieting : quieting startElection.
Proof. intros n0 n Hn. unfold startElection. by read_auto. Qed.
#[local] Hint Resolve startElection_quieting : quieting.

Lemma startPreVote_quieting : quieting startPreVote.
Proof. intros n0 n Hn. unfold startPreVote. by read_auto. Qed.
#[local] Hint Resolve startPreVote_quieting : quieting.

Lemma Tick_quieting : quieting Tick.
Proof. intros n0 n Hn. unfold Tick. by read_auto. Qed.

Lemma onPreVoteResponse_quieting m : quieting (onPreVoteResponse m).
Proof. intros n0 n Hn. unfold onPreVoteResponse. by read_auto. Qed.

Lemma onVoteResponse_quieting m : quieting (onVoteResponse m).
Proof. intros n0 n Hn. unfold onVoteResponse. by read_auto. Qed.

Lemma onTimeoutNow_quieting m : quieting (onTimeoutNow m).
Proof. intros n0 n Hn. unfold onTimeoutNow. by read_auto. Qed.
#[local] Hint Resolve Tick_quieting onPreVoteResponse_quieting onVoteResponse_quieting onTimeoutNow_quieting : quieting.

(** ** Confirmations *)

(** [m] confirms the round of leader [n]. *)
Definition confirms n (m : Message) : bool :=
  (m_Type m =? MsgAppendResponse) && bool_decide (n_State n = Leader) && (m_Term m =? n_Term n) && negb (m_Reject m) &&
  negb (m_Context m =? 0) && (m_Context m =? n_readContext n) && isVoterOf n (m_From m).

(** What the confirmation of [m] makes of the round. *)
Definition confirmed n (m : Message) : Node S :=
  let mask := Z.lor (n_readAckMask n) (Z.shiftl 1 (m_From m - 1)) in
  if quorumOf n mask then readUpd n mask (n_Commit n) true else n <| n_readAckMask := mask |>.

Lemma onAppendResponse_reads m n :
  wf n -> valid_id (m_From m) -> m_Type m = MsgAppendResponse ->
  wlp (onAppendResponse m) (fun _ n' => sinks (if confirms n m then confirmed n m else n) n') n.
Proof.
  intros Hwf Hid Hty. unfold onAppendResponse. wlp_pures.
  apply (wlp_mono _ (fun _ n' => n' = if confirms n m then confirmed n m else n)).
  - unfold confirms. rewrite Hty. cbn [Z.eqb Pos.eqb MsgAppendResponse andb].
    destruct (_ && (m_Context m =? n_readContext n)); [|done]. cbn [andb]. wlp_pures.
    unfold wlp at 1. rewrite isVoter_wf by done. destruct (isVoterOf n (m_From m)); [|done]. wlp_pures.
    unfold wlp at 1. rewrite bitOf_wf by done. wlp_pures. unfold wlp at 1. rewrite quorumMask_wf by done.
    unfold confirmed. cbn zeta. cbn [n_readAckMask]. change (quorumOf (n <| n_readAckMask := _ |>) ?x) with (quorumOf n x).
    by destruct (quorumOf n _).
  - intros u n1 H1. assert (sinks (if confirms n m then confirmed n m else n) n1) as Hs by (rewrite H1; apply sinks_refl).
    clear H1 u. by read_auto.
Qed.

Lemma onAppendResponse_follower m n :
  n_State n <> Leader -> wlp (onAppendResponse m) (fun _ n' => n' = n) n.
Proof.
  intros Hs. unfold onAppendResponse. wlp_pures. rewrite bool_decide_false by done. cbn [andb]. wlp_pures.
  rewrite bool_decide_false by done. by wlp_pures.
Qed.

Lemma dispatch_quieting m : m_Type m <> MsgAppendResponse -> quieting (dispatch m).
Proof. intros Hty n0 n Hn. unfold dispatch. rewrite (proj2 (Z.eqb_neq _ _) Hty). by read_auto. Qed.

Lemma stepTerm_reads m n :
  wlp (stepTerm m) (fun ok n' => ok = true /\ n' = n \/ quiet n n' /\ n_State n' = Follower /\ n_Term n < m_Term m) n.
Proof.
  unfold stepTerm. wlp_pures. destruct (negb _ && _) eqn:E; [|wlp_pures; by left].
  apply andb_prop in E as [_ E%Z.ltb_lt]. unfold persistHardState, failStorageWith, failStorage, storeOp. wlp_pures.
  unfold wlp at 1. destruct (SaveHardState _ _) as [s' [e|]]; wlp_pures; right; split_and!; done.
Qed.

Lemma Step_reads m n : node_inv n -> msg_ok n m ->
  wlp (Step m) (fun _ n' => if confirms n m then sinks (confirmed n m) n' else quiet n n') n.
Proof.
  intros (Hwf & _ & Hst) Hm. unfold Step. wlp_pures. destruct (n_Faulted n) eqn:Hf.
  { wlp_pures. unfold confirms. rewrite (proj1 (Hst eq_refl)). by rewrite andb_false_r. }
  wlp_pures. eapply wlp_mono; [apply stepTerm_reads|]. cbn beta.
  intros ok n1 H1. destruct (Z.eq_dec (m_Type m) MsgAppendResponse) as [Hty|Hty].
  - destruct H1 as [[-> ->]|(Hq & Hs & Ht)].
    + unfold dispatch. rewrite Hty. cbn. eapply wlp_mono; [by apply onAppendResponse_reads; [|apply Hm|]|].
      intros u n'. destruct (confirms n m); [done|by intros [? _]].
    + assert (confirms n m = false) as ->.
      { unfold confirms. rewrite (proj2 (Z.eqb_neq (m_Term m) (n_Term n))) by lia. by rewrite andb_false_r. }
      destruct ok; [|done]. unfold dispatch. rewrite Hty. cbn.
      eapply wlp_mono; [apply onAppendResponse_follower; congruence|]. by intros u n' ->.
  - assert (confirms n m = false) as -> by (unfold confirms; by rewrite (proj2 (Z.eqb_neq _ _) Hty)).
    assert (quiet n n1) as H by (destruct H1 as [[_ ->]|[? _]]; done). destruct ok; [|done].
    by apply dispatch_quieting.
Qed.

(** ** Rounds *)

Lemma perform_reads o n r n' :
  node_inv n -> admissible n o -> perform o n = Done r n' ->
  match o with
  | OpStep m => if confirms n m then sinks (confirmed n m) n' else quiet n n'
  | OpStartReadIndex ctx => n_readContext n' = ctx \/ n' = n
  | _ => quiet n n'
  end.
Proof.
  intros Hinv (_ & _ & Hr & Ho) E.
  assert (forall A (op : MN S A) k (_ : quieting op), (op ≫= fun a => mret (k a)) n = Done r n' -> quiet n n') as Hq.
  { intros A op k Hop. unfold mbind, M_bind. pose proof (Hop n n (quiet_refl n)) as H. unfold wlp in H.
    destruct (op n) as [a n1|]; [|done]. by intros [= _ <-]. }
  assert (forall A (op : MN S A), sinking op -> quieting op) as Hs by (intros; by apply sinking_quieting).
  destruct o; cbn [perform] in E.
  - eapply (Hq _ _ (fun _ => Silent)); [|exact E]. apply Tick_quieting.
  - pose proof (Step_reads m n Hinv (proj1 Ho)) as H. unfold wlp, mbind, M_bind in *. destruct (Step m n); [|done].
    by injection E as _ <-.
  - eapply Hq; [|exact E]. apply Hs. intros n0 n1 H1. unfold Propose. by read_auto.
  - eapply Hq; [|exact E]. apply Hs. intros n0 n1 H1. unfold ProposeRequest. by read_auto.
  - eapply Hq; [|exact E]. apply Hs. intros n0 n1 H1. unfold ProposeJoint, liftMask. by read_auto.
  - eapply Hq; [|exact E]. apply Hs. intros n0 n1 H1. unfold ProposeFinal. by read_auto.
  - destruct (wp_Done _ _ _ (StartReadIndex_wp context n Hinv (room_le n 189 63 Hr ltac:(lia)))) as (ok & n1 & E1 & _ & H1).
    unfold mbind, M_bind in E. rewrite E1 in E. injection E as <- <-. destruct ok; [left; apply H1|by right].
  - eapply Hq; [|exact E]. apply Hs. intros n0 n1 H1. unfold TransferLeadership. by read_auto.
  - eapply Hq; [|exact E]. apply Hs. intros n0 n1 H1. unfold Compact. by read_auto.
  - eapply Hq; [|exact E]. apply Hs. intros n0 n1 H1. unfold ApplyEntries. by read_auto.
  - eapply Hq; [|exact E]. apply Hs. intros n0 n1 H1. unfold Drain. by read_auto.
Qed.

(** Among the operations [l] is a confirmation of [ctx] by [id], in a term between
    [first] and [last]. *)
Definition answered (ctx first last id : Z) (l : list operation) : Prop :=
  exists m, OpStep m ∈ l /\ m_Type m = MsgAppendResponse /\ m_From m = id /\ m_Context m = ctx /\
    m_Reject m = false /\ first <= m_Term m <= last.

Definition backed (ctx first last self mask : Z) (l : list operation) : Prop :=
  forall id, valid_id id -> Z.testbit mask (id - 1) = true -> id = self \/ answered ctx first last id l.

(** Somewhere in the run [l] from [n] to [n'] the commit index was [i], and the next
    operation completed a quorum. *)
Definition opened n ctx (l : list operation) n' (i : Z) : Prop :=
  exists l1 o l2 n1 mask, l = l1 ++ o :: l2 /\ steps n l1 n1 /\ steps n1 (o :: l2) n' /\ i = n_Commit n1 /\
    quorumOf n1 mask = true /\ backed ctx (n_Term n) (n_Term n') (n_ID n) mask (l1 ++ [o]).

(** The round [ctx] of [n] after the operations [l]. *)
Record round n ctx (l : list operation) n' : Prop := {
  rn_steps : steps n l n';
  rn_mask : n_readContext n' = ctx -> backed ctx (n_Term n) (n_Term n') (n_ID n) (n_readAckMask n') l;
  rn_ready : n_readContext n' = ctx -> n_readReady n' = true -> opened n ctx l n' (n_readIndex n')
}.

Lemma answered_mono ctx first last last' id l l' :
  answered ctx first last id l -> last <= last' -> l ⊆ l' -> answered ctx first last' id l'.
Proof. intros (m & H1 & H2 & H3 & H4 & H5 & H6) Hl Hs. exists m. split_and!; auto; lia. Qed.

Lemma backed_mono ctx first last last' self mask l l' :
  backed ctx first last self mask l -> last <= last' -> l ⊆ l' -> backed ctx first last' self mask l'.
Proof. intros H Hl Hs id Hid Hb. destruct (H id Hid Hb); [by left|right]. by eapply answered_mono. Qed.

Lemma opened_step n ctx l n' o r n'' i :
  opened n ctx l n' i -> admissible n' o -> perform o n' = Done r n'' -> n_Term n' <= n_Term n'' ->
  opened n ctx (l ++ [o]) n'' i.
Proof.
  intros (l1 & o1 & l2 & n1 & mask & -> & H1 & H2 & Hi & Hq & Hb) Ha E Ht.
  exists l1, o1, (l2 ++ [o]), n1, mask. rewrite <- app_assoc. split_and!; try done.
  - rewrite app_comm_cons. eapply steps_app; [exact H2|]. eapply steps_cons; [done..|constructor].
  - by eapply backed_mono.
Qed.

Lemma testbit_id id id' : valid_id id -> valid_id id' -> Z.testbit (Z.shiftl 1 (id' - 1)) (id - 1) = true -> id = id'.
Proof.
  unfold valid_id. intros H H'. rewrite Z.shiftl_spec by lia.
  destruct (Z.eq_dec (id - 1 - (id' - 1)) 0) as [E|E]; [lia|].
  destruct (Z.lt_ge_cases (id - 1 - (id' - 1)) 0); [by rewrite Z.testbit_neg_r by lia|].
  rewrite (Z.bits_above_log2 1); cbn; [done|lia|lia].
Qed.

Lemma confirms_true n m :
  confirms n m = true -> m_Type m = MsgAppendResponse /\ n_State n = Leader /\ m_Term m = n_Term n /\ m_Reject m = false /\
    m_Context m = n_readContext n /\ isVoterOf n (m_From m) = true.
Proof.
  unfold confirms. intros [[[[[[H1%Z.eqb_eq H2%bool_decide_eq_true_1]%andb_prop H3%Z.eqb_eq]%andb_prop
    H4%negb_true_iff]%andb_prop _]%andb_prop H6%Z.eqb_eq]%andb_prop H7]%andb_prop. done.
Qed.

(** A confirmation continues the round. *)
Lemma round_confirm n ctx l n' m r n'' :
  node_inv n -> round n ctx l n' -> admissible n' (OpStep m) -> perform (OpStep m) n' = Done r n'' ->
  moves n' n'' -> confirms n' m = true -> sinks (confirmed n' m) n'' -> round n ctx (l ++ [OpStep m]) n''.
Proof.
  intros Hinv [Hs Hm Hr] Ha E Hmv Hcf [(Hc & Hk & Hi & Hb) _]. pose proof (mv_term _ _ Hmv) as Ht.
  destruct (confirms_true _ _ Hcf) as (C1 & _ & C2 & C3 & C4 & _).
  pose proof (mv_term _ _ (steps_moves n l n' Hinv Hs)) as Ht0. pose proof (mo_from _ _ (proj1 (proj2 (proj2 (proj2 Ha))))) as Hid.
  set (mask := Z.lor (n_readAckMask n') (Z.shiftl 1 (m_From m - 1))).
  assert (n_readContext n' = ctx -> backed ctx (n_Term n) (n_Term n'') (n_ID n) mask (l ++ [OpStep m])) as Hmask.
  { intros Hx id Hv. unfold mask. rewrite Z.lor_spec, orb_true_iff. intros [Hold|Hnew].
    - eapply (backed_mono _ _ _ _ _ _ _ _ (Hm Hx)); [lia|set_solver|done|done].
    - apply testbit_id in Hnew; [|done..]. right. exists m. split_and!; try done; [set_solver|congruence|lia|lia]. }
  assert (confirmed n' m = readUpd n' mask (if quorumOf n' mask then n_Commit n' else n_readIndex n')
    (quorumOf n' mask || n_readReady n')) as Ec.
  { unfold confirmed. fold mask. destruct (quorumOf n' mask); [done|]. by destruct n'. }
  rewrite Ec in Hc, Hk, Hi, Hb. cbn in Hc, Hk, Hi, Hb. split.
  - eapply steps_app; [exact Hs|]. eapply steps_cons; [done..|constructor].
  - rewrite Hc, Hk. exact Hmask.
  - rewrite Hc, Hi. intros Hx Hy. specialize (Hb Hy). destruct (quorumOf n' mask) eqn:Hq.
    + exists l, (OpStep m), [], n', mask. split_and!; try done; [|by apply Hmask].
      eapply steps_cons; [done..|constructor].
    + eapply opened_step; [by apply Hr|done..].
Qed.

(** An operation continues the round, unless it starts it again. *)
Lemma round_step n ctx l n' o r n'' :
  node_inv n -> round n ctx l n' -> admissible n' o -> o <> OpStartReadIndex ctx -> perform o n' = Done r n'' ->
  round n ctx (l ++ [o]) n''.
Proof.
  intros Hinv [Hs Hm Hr] Ha Ho E. pose proof (steps_moves n l n' Hinv Hs) as Hmv.
  pose proof (perform_moves o n' (mv_inv _ _ Hmv) Ha) as Hmv1. unfold wp in Hmv1. rewrite E in Hmv1.
  pose proof (mv_term _ _ Hmv1) as Ht. pose proof (perform_reads o n' r n'' (mv_inv _ _ Hmv) Ha E) as Hp.
  assert (quiet n' n'' -> round n ctx (l ++ [o]) n'') as Hquiet.
  { intros (Hc & Hk & Hi & Hb). split.
    - eapply steps_app; [exact Hs|]. eapply steps_cons; [done..|constructor].
    - rewrite Hc, Hk. intros Hx. eapply backed_mono; [by apply Hm|lia|set_solver].
    - rewrite Hc, Hi. intros Hx Hy. eapply opened_step; [by apply Hr; auto|done..]. }
  destruct o as [|m| | | | |ctx'| | | |]; try by apply Hquiet.
  - destruct (confirms n' m) eqn:Hcf; [|by apply Hquiet]. by eapply round_confirm.
  - destruct Hp as [Hc| ->]; [|by apply Hquiet, quiet_refl].
    split; [|congruence..]. eapply steps_app; [exact Hs|]. eapply steps_cons; [done..|constructor].
Qed.

Lemma round_steps n ctx l1 n1 l n' :
  node_inv n -> round n ctx l1 n1 -> steps n1 l n' -> OpStartReadIndex ctx ∉ l -> round n ctx (l1 ++ l) n'.
Proof.
  intros Hinv Hr Hs. revert l1 Hr. induction Hs as [n1|n1 o r n2 l n' Ha E Hs IH]; intros l1 Hr Hn.
  - by rewrite app_nil_r.
  - apply not_elem_of_cons in Hn as [Ho Hn]. rewrite cons_middle, app_assoc.
    apply IH; [|done]. eapply round_step; done || congruence.
Qed.

Lemma round_start n ctx n1 :
  node_inv n -> admissible n (OpStartReadIndex ctx) -> perform (OpStartReadIndex ctx) n = Done (Accepted true) n1 ->
  round n ctx [OpStartReadIndex ctx] n1.
Proof.
  intros Hinv Ha E. pose proof Ha as (_ & _ & Hroom & _). pose proof Hinv as ((_ & _ & (Hid & _) & _) & _).
  destruct (wp_Done _ _ _ (StartReadIndex_wp ctx n Hinv (room_le n 189 63 Hroom ltac:(lia)))) as (ok & n' & E1 & Hev & H1).
  cbn [perform] in E. unfold mbind, M_bind in E. rewrite E1 in E. injection E as -> ->.
  destruct H1 as (_ & _ & _ & _ & Hc & Hk & Hrd & Hi).
  assert (steps n [OpStartReadIndex ctx] n1) as Hs.
  { eapply steps_cons; [done| |constructor]. cbn [perform]. unfold mbind, M_bind. by rewrite E1. }
  assert (backed ctx (n_Term n) (n_Term n1) (n_ID n) (n_readAckMask n1) [OpStartReadIndex ctx]) as Hb.
  { intros id Hv. rewrite Hk. intros H%testbit_id; [by left|done..]. }
  split; [done|done|]. intros _ Hy. exists [], (OpStartReadIndex ctx), [], n, (n_readAckMask n1).
  rewrite Hi by done. split_and!; try done; [constructor|congruence].
Qed.

(** C33 Read barriers.  [StartReadIndex] starts a round only on a leader that
    committed an entry of its own term (or is a quorum alone), and refuses without a
    change otherwise; at once only the leader has confirmed.  An append response
    that a voter sent for this round in the leader's term, without rejecting, adds
    the voter, and opens the barrier at the commit index of that moment exactly if
    with it a quorum has confirmed.  Nothing else opens a barrier: whatever
    operations follow an accepted start, in any order, an index that [ReadIndex]
    returns for it is at least the commit index at the start, was the commit index
    when a quorum of the voters then in force was complete, and each member of that
    quorum other than the node itself sent such a response since the start. *)
Theorem read_barrier n ctx :
  node_inv n -> room n 189 ->
  (exists ok n', StartReadIndex ctx n = Done ok n' /\ node_inv n' /\
     if ok then mayRead n /\ n_State n = Leader /\
       ReadIndex n' ctx = (if quorumOf n (Z.shiftl 1 (n_ID n - 1)) then Some (n_Commit n) else None)
     else n' = n) /\
  (forall m n', admissible n (OpStep m) -> confirms n m = true -> Step m n = Done () n' -> n_State n' = Leader ->
     ReadIndex n' (n_readContext n) =
       (if quorumOf n (Z.lor (n_readAckMask n) (Z.shiftl 1 (m_From m - 1))) then Some (n_Commit n)
        else ReadIndex n (n_readContext n))) /\
  (forall n0 l n' i, admissible n (OpStartReadIndex ctx) -> StartReadIndex ctx n = Done true n0 -> steps n0 l n' ->
     OpStartReadIndex ctx ∉ l -> ReadIndex n' ctx = Some i ->
     n_Commit n <= i <= n_Commit n' /\ opened n ctx (OpStartReadIndex ctx :: l) n' i).
Proof.
  intros Hinv Hroom. split; [|split].
  - destruct (wp_Done _ _ _ (StartReadIndex_wp ctx n Hinv (room_le n 189 63 Hroom ltac:(lia)))) as (ok & n' & E & Hev & Hres).
    exists ok, n'. split; [done|]. split; [by eapply evolves_inv|]. destruct ok; [|done].
    destruct Hres as (Hs & Hctx & Hmay & Hs' & Hc & Hack & Hrr & Hri). split; [done|]. split; [done|].
    unfold ReadIndex. rewrite Hs', Hc, Z.eqb_refl, Hrr, Hack. rewrite bool_decide_true by done. cbn [negb orb].
    rewrite Hack in Hrr. destruct (quorumOf n _); [|done]. cbn. by rewrite Hri.
  - intros m n' Ha Hcf E HL. destruct (confirms_true _ _ Hcf) as (_ & HL0 & _).
    pose proof (Step_reads m n Hinv (proj1 (proj2 (proj2 (proj2 Ha))))) as H. unfold wlp in H. rewrite E, Hcf in H.
    destruct H as [(Hc & _ & Hi & _) [[_ Hb]|Hf]]; [|congruence]. unfold confirmed in *. cbn zeta in *.
    unfold ReadIndex. rewrite HL, HL0, !bool_decide_true, Hi, Hb by done.
    destruct (quorumOf n _); cbn in Hc |- *; rewrite Hc, Z.eqb_refl; cbn; done.
  - intros n0 l n' i Ha E Hs Hn Hi.
    assert (round n ctx ([OpStartReadIndex ctx] ++ l) n') as [Hall _ Hr].
    { eapply round_steps; [done| |exact Hs|done]. apply round_start; [done..|]. cbn [perform]. unfold mbind, M_bind. by rewrite E. }
    unfold ReadIndex in Hi. destruct (_ || _ || _) eqn:Eg; [done|]. injection Hi as <-.
    apply orb_false_elim in Eg as [[_ Hc%negb_false_iff%Z.eqb_eq]%orb_false_elim Hy%negb_false_iff].
    pose proof (Hr (eq_sym Hc) Hy) as Ho. split; [|exact Ho].
    destruct Ho as (l1 & o & l2 & n1 & mask & _ & H1 & H2 & -> & _).
    pose proof (steps_moves _ _ _ Hinv H1) as M1. pose proof (steps_moves _ _ _ (mv_inv _ _ M1) H2) as M2.
    split; [apply M1|apply M2].
Qed.

End reads.

Module Demo.

Abbreviation leader2 := RaftSafety.Demo.leader2.

(** Node 2 confirms round 3. *)
Definition ack3 : Message := newMessage MsgAppendResponse 2 1 1 <| m_Match := 1 |> <| m_Context := 3 |>.

(** Round 3 on the leader of three nodes that committed its no-op: it takes a
    command and hears from node 2. *)
Lemma read_barrier_witness :
  exists n0 n', StartReadIndex 3 leader2 = Done true n0 /\ ReadIndex n0 3 = None /\
    steps n0 [OpPropose 7; OpStep ack3] n' /\ ReadIndex n' 3 = Some 1 /\
    opened leader2 3 [OpStartReadIndex 3; OpPropose 7; OpStep ack3] n' 1.
Proof.
  destruct (read_barrier leader2 3) as (_ & _ & H); [exact RaftSafety.Demo.leader2_inv|by apply RaftSafety.Demo.room_concrete|].
  eexists. eexists. split; [vm_compute; reflexivity|]. split; [vm_compute; reflexivity|].
  match goal with |- ?x /\ _ => assert x as Hs end.
  { eapply steps_cons; [|vm_compute; reflexivity|].
    { split; [vm_compute; reflexivity|]. split; [vm_compute; reflexivity|]. split; [vm_compute; discriminate|exact I]. }
    eapply steps_cons; [|vm_compute; reflexivity|constructor].
    split; [vm_compute; reflexivity|]. split; [vm_compute; reflexivity|]. split; [vm_compute; discriminate|].
    split; [|vm_compute; reflexivity]. split; cbn; try done; try (unfold valid_id; lia); try (unfold maxu64; lia). }
  split; [exact Hs|]. split; [vm_compute; reflexivity|].
  eapply (H _ [OpPropose 7; OpStep ack3]); [|vm_compute; reflexivity|exact Hs|set_solver|vm_compute; reflexivity].
  split; [vm_compute; reflexivity|]. split; [vm_compute; reflexivity|]. split; [vm_compute; discriminate|exact I].
Defined.

End Demo.
