(* ===== verification/LogHistory.v ===== *)
(** * The history of a replicated log

    The argument behind log matching, leader completeness and state machine
    safety, on a history of elected logs, candidacies, votes and acknowledgements;
    [RaftLogs] shows that the nodes of [raft/node.go] keep such a history.

    An elected term [T] has a log [g_log !! T], the log of its leader, which only
    grows by entries of term [T].  Node [v] has acknowledged [(v, t, k)] when it
    told the leader of term [t] that it holds that leader's log up to position [k].
    A position is chosen when a quorum acknowledged it, and blocked when a quorum
    has moved on to later terms without acknowledging it. *)

From S2P Require Import Prelude RaftTypes Quorum.

(** ** Logs that share a prefix *)

(** [share k l l']: both logs reach position [k] and agree up to it. *)
Definition share (k : nat) (l l' : list Entry) : Prop :=
  (k < length l)%nat /\ (k < length l')%nat /\ take (S k) l = take (S k) l'.

Definition termOf (l : list Entry) (i : nat) : option Z := e_Term <$> l !! i.

(** Terms never decrease along the log. *)
Definition sorted (l : list Entry) : Prop :=
  forall i j t u, (i <= j)%nat -> termOf l i = Some t -> termOf l j = Some u -> t <= u.

Lemma share_refl k l : (k < length l)%nat -> share k l l.
Proof. done. Qed.

Lemma share_sym k l l' : share k l l' -> share k l' l.
Proof. intros (? & ? & ?). by split_and!. Qed.

Lemma share_trans k l1 l2 l3 : share k l1 l2 -> share k l2 l3 -> share k l1 l3.
Proof. intros (? & ? & E1) (? & ? & E2). split_and!; [done..|]. by rewrite E1. Qed.

Lemma share_le k k' l l' : (k' <= k)%nat -> share k l l' -> share k' l l'.
Proof.
  intros Hle (? & ? & E). split_and!; [lia..|].
  apply (f_equal (take (S k'))) in E. by rewrite !take_take, Nat.min_l in E by lia.
Qed.

Lemma share_lookup k i l l' : share k l l' -> (i <= k)%nat -> l !! i = l' !! i.
Proof.
  intros (? & ? & E) Hi. apply (f_equal (.!! i)) in E. by rewrite !lookup_take_lt in E by lia.
Qed.

Lemma share_term k i l l' : share k l l' -> (i <= k)%nat -> termOf l i = termOf l' i.
Proof. intros H Hi. unfold termOf. by rewrite (share_lookup k i l l'). Qed.

Lemma share_app k l l' es es' : share k l l' -> share k (l ++ es) (l' ++ es').
Proof. intros (? & ? & E). unfold share. rewrite !length_app, !take_app_le by lia. split_and!; [lia..|done]. Qed.

Lemma share_app_inv k l l' es es' :
  (k < length l)%nat -> (k < length l')%nat -> share k (l ++ es) (l' ++ es') -> share k l l'.
Proof. intros ?? (_ & _ & E). rewrite !take_app_le in E by lia. by split_and!. Qed.

Lemma share_take k i l l' : (k <= i)%nat -> share k l l' -> share k (take (S i) l) l'.
Proof.
  intros Hi (? & ? & E). split_and!; [rewrite length_take; lia|done|].
  by rewrite take_take, Nat.min_l by lia.
Qed.

Lemma termOf_lt l i t : termOf l i = Some t -> (i < length l)%nat.
Proof. unfold termOf. intros (e & He & _)%fmap_Some. by apply lookup_lt_Some in He. Qed.

Lemma termOf_some l i : (i < length l)%nat -> exists t, termOf l i = Some t.
Proof. intros H. unfold termOf. destruct (lookup_lt_is_Some_2 l i H) as [e ->]. by eexists. Qed.

Lemma termOf_app l es i : (i < length l)%nat -> termOf (l ++ es) i = termOf l i.
Proof. intros H. unfold termOf. by rewrite lookup_app_l. Qed.

(** ** The history *)

Record history := mkHistory {
  g_log : gmap Z (list Entry);          (* the log of the leader of each elected term *)
  g_by : gmap Z (Z * Z);                (* who was elected, and by which voters *)
  g_cand : gmap (Z * Z) (list Entry);   (* the log of each candidacy (term, node) *)
  g_acks : list (Z * Z * nat);          (* acknowledgements (node, term, position) *)
  g_votes : list (Z * Z * Z)            (* votes (node, term, candidate) *)
}.

Definition emptyHistory : history := mkHistory ∅ ∅ ∅ [] [].

#[export] Instance eta_history : Eta history := fun g =>
  mkHistory (g_log g) (g_by g) (g_cand g) (g_acks g) (g_votes g).

(** Every entry comes from the leader of its term, with all that precedes it. *)
Record okLog (g : history) (l : list Entry) : Prop := {
  ok_zero : l !! 0%nat = Some zeroEntry;
  ok_sorted : sorted l;
  ok_from : forall i e, l !! i = Some e -> (0 < i)%nat ->
    exists l', g_log g !! e_Term e = Some l' /\ share i l l'
}.

Definition termsUpTo (T : Z) (l : list Entry) : Prop := forall i t, termOf l i = Some t -> t <= T.

Definition acked (g : history) (v t : Z) (k : nat) : Prop := exists k', (k <= k')%nat /\ (v, t, k') ∈ g_acks g.

(** Position [k] of term [t] holds an entry of that term. *)
Definition own (g : history) (t : Z) (k : nat) : Prop := exists l, g_log g !! t = Some l /\ termOf l k = Some t.

Definition contains (g : history) (l : list Entry) (t : Z) (k : nat) : Prop :=
  exists l', g_log g !! t = Some l' /\ share k l l'.

(** The leader of term [u] did not have position [k] of term [t]. *)
Definition lacks (g : history) (u t : Z) (k : nat) : Prop :=
  exists l l', g_log g !! u = Some l /\ g_log g !! t = Some l' /\ ~ share k l l'.

(** What [v] acknowledged before term [B] is in [l], or was given up by a leader
    of a term in between, up to [T]. *)
Definition kept (g : history) (v B T : Z) (l : list Entry) : Prop :=
  forall t k, acked g v t k -> own g t k -> t < B -> contains g l t k \/ exists u, t < u <= T /\ lacks g u t k.

Section history.
Context (V : Z).

Definition chosen (g : history) (t : Z) (k : nat) : Prop :=
  own g t k /\ exists mask, majorityMask V mask = true /\ forall b, Z.testbit mask b = true -> acked g (b + 1) t k.

Definition blocked (g : history) (t : Z) (k : nat) : Prop :=
  exists mask, majorityMask V mask = true /\ forall b, Z.testbit mask b = true ->
    ~ acked g (b + 1) t k /\ exists T w, t < T /\ w <> 0 /\ (b + 1, T, w) ∈ g_votes g.

(** [k] is committed in [l], as a node of term [T] can know. *)
Definition committed (g : history) (T : Z) (k : nat) (l : list Entry) : Prop :=
  k = 0%nat \/ exists t k', t <= T /\ (k <= k')%nat /\ chosen g t k' /\ contains g l t k.

Record Hist (g : history) : Prop := mkHist {
  h_pos : forall T l, g_log g !! T = Some l -> 0 < T;
  h_ok : forall T l, g_log g !! T = Some l -> okLog g l;
  h_terms : forall T l, g_log g !! T = Some l -> termsUpTo T l;
  h_len : forall T l, g_log g !! T = Some l -> len l <= maxu64;
  h_by : forall T l, g_log g !! T = Some l -> exists j mask, g_by g !! T = Some (j, mask) /\ j <> 0 /\
    majorityMask V mask = true /\ forall b, Z.testbit mask b = true -> (b + 1, T, j) ∈ g_votes g;
  h_main : forall T l t k, g_log g !! T = Some l -> t < T -> own g t k -> contains g l t k \/ blocked g t k;
  h_vote : forall v T w F, (v, T, w) ∈ g_votes g -> w <> 0 -> g_cand g !! (T, w) = Some F -> kept g v T T F;
  h_ack : forall v t k, (v, t, k) ∈ g_acks g -> exists l, g_log g !! t = Some l /\ (k < length l)%nat;
  h_cand : forall T j F, g_cand g !! (T, j) = Some F -> okLog g F /\ termsUpTo (T - 1) F;
  h_fun : forall v T w w', (v, T, w) ∈ g_votes g -> (v, T, w') ∈ g_votes g -> w <> 0 -> w' <> 0 -> w = w';
  h_req : forall v T w, (v, T, w) ∈ g_votes g -> w <> 0 -> w <> v -> is_Some (g_cand g !! (T, w))
}.

Lemma Hist_empty : Hist emptyHistory.
Proof. split; try done; intros *; cbn; rewrite ?lookup_empty; try done; by intros ?%elem_of_nil. Qed.

(** ** Log matching and completeness *)

Lemma okLog_pos g l i t : okLog g l -> termOf l i = Some t -> t <> 0 -> (0 < i)%nat.
Proof.
  intros Hl Ht Hne. destruct i; [|lia]. unfold termOf in Ht. rewrite (ok_zero _ _ Hl) in Ht.
  cbn in Ht. congruence.
Qed.

Lemma okLog_len g l : okLog g l -> (0 < length l)%nat.
Proof. intros Hl. exact (lookup_lt_Some _ _ _ (ok_zero _ _ Hl)). Qed.

Lemma share_zero g l l' : okLog g l -> okLog g l' -> share 0 l l'.
Proof.
  intros H%ok_zero H'%ok_zero. destruct l as [|e l], l' as [|e' l']; [done..|].
  injection H as ->. injection H' as ->. split_and!; [cbn; lia..|done].
Qed.

Lemma contains_term g l i t :
  okLog g l -> termOf l i = Some t -> (0 < i)%nat -> contains g l t i.
Proof.
  intros Hl (e & He & ->)%fmap_Some Hi. destruct (ok_from _ _ Hl i e He Hi) as (l' & H1 & H2). by exists l'.
Qed.

(** Log matching: logs with entries of one term at one position agree up to it. *)
Lemma log_matching g l l' i t :
  okLog g l -> okLog g l' -> termOf l i = Some t -> termOf l' i = Some t -> share i l l'.
Proof.
  intros Hl Hl' Ht Ht'. destruct i as [|i]; [by eapply share_zero|].
  destruct (contains_term g l (S i) t) as (m & Hm & H1); [done..|lia|].
  destruct (contains_term g l' (S i) t) as (m' & Hm' & H2); [done..|lia|].
  rewrite Hm in Hm'. injection Hm' as <-. by eapply share_trans, share_sym.
Qed.

Lemma own_pos g t k : Hist g -> own g t k -> (0 < k)%nat /\ 0 < t.
Proof.
  intros HH (l & Hl & Ht). pose proof (h_pos _ HH _ _ Hl). split; [|done].
  eapply okLog_pos; [by eapply h_ok|done|lia].
Qed.

(** A quorum that chose a position meets every quorum that is said to block it. *)
Lemma chosen_blocked g t k : is_u64 V -> chosen g t k -> blocked g t k -> False.
Proof.
  intros Hu (_ & mask & Hq & Hm) (mask' & Hq' & Hm').
  destruct (majorityMask_intersect V mask mask') as (b & _ & _ & Hb & Hb'); [assumption..|].
  destruct (Hm' b Hb') as [Hn _]. apply Hn, Hm, Hb.
Qed.

(** Leader completeness: a chosen position is in the log of every later leader. *)
Lemma leader_completeness g T l t k :
  is_u64 V -> Hist g -> g_log g !! T = Some l -> t <= T -> chosen g t k -> contains g l t k.
Proof.
  intros Hu HH Hl Hle Hc. destruct (decide (t = T)) as [->|Hne].
  - destruct Hc as [(l' & Hl' & Ht) _]. exists l'. split; [done|]. rewrite Hl in Hl'. injection Hl' as <-.
    apply share_refl. by eapply termOf_lt.
  - destruct (h_main _ HH T l t k) as [?|Hb]; [assumption|lia|apply Hc|done|]. by destruct (chosen_blocked g t k Hu Hc Hb).
Qed.

Lemma committed_leader g T k l gl :
  is_u64 V -> Hist g -> okLog g l -> g_log g !! T = Some gl -> committed g T k l -> share k l gl.
Proof.
  intros Hu HH Hl Hgl [->|(t & k' & Hle & Hk & Hc & (m & Hm & Hs))].
  { eapply share_zero; [done|by eapply h_ok]. }
  destruct (leader_completeness g T gl t k') as (m' & Hm' & Hs'); [assumption..|].
  rewrite Hm in Hm'. injection Hm' as <-. eapply share_trans; [exact Hs|].
  apply share_sym. by apply (share_le k').
Qed.

(** State machine safety: what two nodes know to be committed agrees. *)
Lemma committed_agree g T1 T2 k1 k2 l1 l2 :
  is_u64 V -> Hist g -> okLog g l1 -> okLog g l2 ->
  committed g T1 k1 l1 -> committed g T2 k2 l2 -> share (Nat.min k1 k2) l1 l2.
Proof.
  intros Hu HH Hl1 Hl2.
  intros [->|(t1 & k1' & H1 & Hk1 & Hc1 & (m1 & Hm1 & Hs1))].
  { intros _. by eapply share_zero. }
  intros [->|(t2 & k2' & H2 & Hk2 & Hc2 & (m2 & Hm2 & Hs2))].
  { rewrite Nat.min_0_r. by eapply share_zero. }
  apply (share_le _ (Nat.min k1 k2)) in Hs1; [|lia]. apply (share_le _ (Nat.min k1 k2)) in Hs2; [|lia].
  eapply share_trans; [exact Hs1|]. eapply share_trans; [|apply share_sym; exact Hs2].
  destruct (Z.le_ge_cases t1 t2).
  - destruct (leader_completeness g t2 m2 t1 k1') as (m & Hm & Hs); [assumption..|].
    rewrite Hm1 in Hm. injection Hm as <-. apply share_sym. apply (share_le k1'); [lia|done].
  - destruct (leader_completeness g t1 m1 t2 k2') as (m & Hm & Hs); [assumption..|lia|assumption|].
    rewrite Hm2 in Hm. injection Hm as <-. apply (share_le k2'); [lia|done].
Qed.

(** ** Growing histories *)

Record grows (g g' : history) : Prop := {
  gr_log : forall T l, g_log g !! T = Some l ->
    exists es, g_log g' !! T = Some (l ++ es) /\ Forall (fun e => e_Term e = T) es;
  gr_by : forall T l, g_log g !! T = Some l -> g_by g' !! T = g_by g !! T;
  gr_cand : g_cand g ⊆ g_cand g';
  gr_acks : g_acks g ⊆ g_acks g';
  gr_votes : g_votes g ⊆ g_votes g'
}.

Lemma grows_refl g : grows g g.
Proof. split; try done. intros T l H. exists []. by rewrite app_nil_r. Qed.

Lemma grows_trans g1 g2 g3 : grows g1 g2 -> grows g2 g3 -> grows g1 g3.
Proof.
  intros [] []. split; [|intros T l H|by etrans..].
  - intros T l H. destruct (gr_log0 T l H) as (es & H1 & H2). destruct (gr_log1 T _ H1) as (es' & H3 & H4).
    exists (es ++ es'). rewrite app_assoc. split; [done|]. by apply Forall_app.
  - destruct (gr_log0 T l H) as (es & H1 & H2). rewrite (gr_by1 T _ H1). by eapply gr_by0.
Qed.

Lemma contains_grows g g' l t k : grows g g' -> contains g l t k -> contains g' l t k.
Proof.
  intros Hg (l' & Hl' & Hs). destruct (gr_log _ _ Hg _ _ Hl') as (es & He & _). exists (l' ++ es). split; [done|].
  rewrite <- (app_nil_r l). by apply share_app.
Qed.

Lemma okLog_grows g g' l : grows g g' -> okLog g l -> okLog g' l.
Proof.
  intros Hg [H1 H2 H3]. split; [done..|]. intros i e He Hi. apply (contains_grows g g'); [done|]. by apply H3.
Qed.

Lemma own_grows g g' t k : grows g g' -> own g t k -> own g' t k.
Proof.
  intros Hg (l & Hl & Ht). destruct (gr_log _ _ Hg _ _ Hl) as (es & He & _). exists (l ++ es). split; [done|].
  rewrite termOf_app; [done|by eapply termOf_lt].
Qed.

Lemma acked_grows g g' v t k : grows g g' -> acked g v t k -> acked g' v t k.
Proof. intros Hg (k' & Hk & Hin). exists k'. split; [done|]. by apply (gr_acks _ _ Hg). Qed.

(** A position within the old log was already owned. *)
Lemma own_back g g' l t k : grows g g' -> g_log g !! t = Some l -> (k < length l)%nat -> own g' t k -> own g t k.
Proof.
  intros Hg Hl Hk (l' & Hl' & Ht). destruct (gr_log _ _ Hg _ _ Hl) as (es & He & _).
  rewrite Hl' in He. injection He as ->. exists l. split; [done|]. by rewrite termOf_app in Ht.
Qed.

Lemma acked_log g v t k : Hist g -> acked g v t k -> exists l, g_log g !! t = Some l /\ (k < length l)%nat.
Proof.
  intros HH (k' & Hk & Hin). destruct (h_ack _ HH _ _ _ Hin) as (l & Hl & Hk'). exists l. split; [done|lia].
Qed.

(** A leader that lacks a position never gets it: it only adds entries of its own
    later term. *)
Lemma lacks_grows g g' u t k :
  Hist g -> grows g g' -> t < u -> own g t k -> lacks g u t k -> lacks g' u t k.
Proof.
  intros HH Hg Htu (l0 & Hl0 & Ht) (l & l' & Hl & Hl' & Hn). rewrite Hl0 in Hl'. injection Hl' as ->.
  destruct (gr_log _ _ Hg _ _ Hl) as (es & He & Hes). destruct (gr_log _ _ Hg _ _ Hl0) as (es' & He' & _).
  exists (l ++ es), (l' ++ es'). split_and!; [done..|]. intros Hs. apply Hn. clear Hn.
  apply termOf_lt in Ht as Hk.
  destruct (Nat.lt_ge_cases k (length l)) as [Hlt|Hge]; [by eapply share_app_inv|].
  pose proof Hs as (Hk' & _ & _). rewrite length_app in Hk'.
  assert (is_Some (es !! 0%nat)) as [e Hee] by (apply lookup_lt_is_Some; lia).
  pose proof (share_term k (length l) _ _ Hs Hge) as E. unfold termOf in E at 1.
  rewrite lookup_app_r, Nat.sub_diag, Hee in E by lia. cbn in E.
  rewrite termOf_app in E by lia. rewrite Forall_lookup in Hes. rewrite (Hes _ _ Hee) in E.
  pose proof (h_terms _ HH _ _ Hl0 _ _ (eq_sym E)). lia.
Qed.

Lemma kept_grows g g' v B T l :
  Hist g -> grows g g' -> kept g v B T l ->
  (forall t k, acked g' v t k -> t < B -> acked g v t k) -> kept g' v B T l.
Proof.
  intros HH Hg Hk Hback t k Ha Ho Hlt. specialize (Hback t k Ha Hlt).
  destruct (acked_log g v t k HH Hback) as (m & Hm & Hkm).
  assert (own g t k) as Ho' by by eapply own_back.
  destruct (Hk t k Hback Ho' Hlt) as [Hc|(u & Hu & Hl)].
  - left. by eapply contains_grows.
  - right. exists u. split; [done|]. eapply lacks_grows; [done..|lia|done|done].
Qed.

Lemma chosen_grows g g' t k : grows g g' -> chosen g t k -> chosen g' t k.
Proof.
  intros Hg (Ho & mask & Hq & Hm). split; [by eapply own_grows|]. exists mask. split; [done|].
  intros b Hb. by eapply acked_grows, Hm.
Qed.

Lemma committed_grows g g' T T' k l :
  grows g g' -> T <= T' -> committed g T k l -> committed g' T' k l.
Proof.
  intros Hg HT [->|(t & k' & H1 & H2 & H3 & H4)]; [by left|]. right. exists t, k'.
  split_and!; [lia|done|by eapply chosen_grows|by eapply contains_grows].
Qed.

Lemma blocked_grows g g' t k :
  grows g g' -> blocked g t k ->
  (forall v T w, acked g' v t k -> ~ acked g v t k -> (v, T, w) ∈ g_votes g -> w <> 0 -> t < T -> False) ->
  blocked g' t k.
Proof.
  intros Hg (mask & Hq & Hm) Hback. exists mask. split; [done|]. intros b Hb.
  destruct (Hm b Hb) as (Hn & T & w & HT & Hw & Hin). split.
  - intros Ha. by eapply Hback.
  - exists T, w. split_and!; [done..|]. by apply (gr_votes _ _ Hg).
Qed.

(** ** The steps of a history *)

(** The leader of [T], whose log is [l], appends [e]. *)
Definition addEntry (T : Z) (l : list Entry) (e : Entry) (g : history) : history :=
  g <| g_log := <[T := l ++ [e]]> (g_log g) |>.

Lemma addEntry_grows T l e g : g_log g !! T = Some l -> e_Term e = T -> grows g (addEntry T l e g).
Proof.
  intros Hl He. split; try done. cbn. intros T' l' H. destruct (decide (T' = T)) as [->|Hne].
  - rewrite lookup_insert_eq. rewrite Hl in H. injection H as <-. exists [e]. split; [done|by apply Forall_singleton].
  - rewrite lookup_insert_ne by done. exists []. by rewrite app_nil_r.
Qed.

Lemma okLog_snoc g T l e :
  Hist g -> g_log g !! T = Some l -> e_Term e = T -> okLog (addEntry T l e g) (l ++ [e]).
Proof.
  intros HH Hl He. pose proof (h_ok _ HH _ _ Hl) as Hok. pose proof (okLog_len _ _ Hok).
  assert (forall i x, (l ++ [e]) !! i = Some x -> l !! i = Some x \/ i = length l /\ x = e) as Hcase.
  { intros i x [Hx|[Hi Hx]]%lookup_app_Some; [by left|]. apply list_lookup_singleton_Some in Hx as [? <-].
    right. split; [lia|done]. }
  split.
  - rewrite lookup_app_l by done. apply Hok.
  - intros i j t u Hij (x & Hx & ->)%fmap_Some (y & Hy & ->)%fmap_Some.
    destruct (Hcase _ _ Hx) as [Hx'|[-> ->]], (Hcase _ _ Hy) as [Hy'|[-> ->]]; [| | |done].
    + apply (ok_sorted _ _ Hok i j); [done|unfold termOf; by rewrite Hx'|unfold termOf; by rewrite Hy'].
    + rewrite He. apply (h_terms _ HH _ _ Hl i). unfold termOf. by rewrite Hx'.
    + apply lookup_lt_Some in Hy'. lia.
  - intros i x Hx Hi. destruct (Hcase _ _ Hx) as [Hx'|[-> ->]].
    + apply (contains_grows g); [by apply addEntry_grows|]. destruct (ok_from _ _ Hok i x Hx' Hi) as (l' & H1 & H2).
      exists l'. split; [done|]. rewrite <- (app_nil_r l'). by apply share_app.
    + exists (l ++ [e]). cbn. rewrite He, lookup_insert_eq. split; [done|]. apply share_refl.
      rewrite length_app. cbn. lia.
Qed.

Lemma addEntry_hist T l e g :
  Hist g -> g_log g !! T = Some l -> e_Term e = T -> len l < maxu64 -> Hist (addEntry T l e g).
Proof.
  intros HH Hl He Hlen. pose proof (addEntry_grows T l e g Hl He) as Hg.
  assert (forall T' l', g_log (addEntry T l e g) !! T' = Some l' ->
    T' = T /\ l' = l ++ [e] \/ g_log g !! T' = Some l') as Hcase.
  { cbn. intros T' l' [[<- <-]|[_ H]]%lookup_insert_Some; auto. }
  split.
  - intros T' l' [[-> ->]|H]%Hcase; by eapply h_pos.
  - intros T' l' [[-> ->]|H]%Hcase; [by apply okLog_snoc|]. eapply okLog_grows; [done|by eapply h_ok].
  - intros T' l' [[-> ->]|H]%Hcase; [|by eapply h_terms].
    intros i t (x & [Hx|[_ Hx]]%lookup_app_Some & ->)%fmap_Some.
    + apply (h_terms _ HH _ _ Hl i). unfold termOf. by rewrite Hx.
    + apply list_lookup_singleton_Some in Hx as [_ <-]. lia.
  - intros T' l' [[-> ->]|H]%Hcase; [|by eapply h_len]. unfold len in *. rewrite length_app. cbn. lia.
  - intros T' l' [[-> ->]|H]%Hcase; by eapply (h_by _ HH).
  - intros T' l' t k H Hlt Ho.
    assert (exists es l0, g_log g !! T' = Some l0 /\ l' = l0 ++ es) as (es & l0 & Hl0 & ->).
    { destruct (Hcase _ _ H) as [[-> ->]|?]; [by exists [e], l|]. exists [], l'. by rewrite app_nil_r. }
    assert (own g t k \/ t = T /\ (length l <= k)%nat) as [Ho'|[-> Hk]].
    { destruct Ho as (m & [[-> ->]|Hm]%Hcase & Ht); [|by left; exists m].
      destruct (Nat.lt_ge_cases k (length l)); [|by right]. left. exists l. split; [done|].
      by rewrite termOf_app in Ht. }
    + destruct (h_main _ HH T' l0 t k Hl0 Hlt Ho') as [Hc|Hb]; [left|right].
      * apply (contains_grows g); [done|]. destruct Hc as (m & Hm & Hs). exists m. split; [done|].
        rewrite <- (app_nil_r m). by apply share_app.
      * by eapply blocked_grows.
    + right. destruct (h_by _ HH _ _ Hl0) as (j & mask & _ & Hj & Hq & Hm). exists mask. split; [done|].
      intros b Hb. split; [|by exists T', j; auto]. intros Ha.
      destruct (acked_log g (b + 1) T k HH Ha) as (m & Hm' & Hk'). rewrite Hl in Hm'. injection Hm' as <-. lia.
  - intros v T' w F Hin Hw HF. eapply kept_grows; [done..|by eapply (h_vote _ HH)|done].
  - intros v t k (m & Hm & Hk)%(h_ack _ HH). destruct (gr_log _ _ Hg _ _ Hm) as (es & He' & _).
    exists (m ++ es). split; [done|]. rewrite length_app. lia.
  - intros T' j F (H1 & H2)%(h_cand _ HH). split; [by eapply okLog_grows|done].
  - apply HH.
  - apply HH.
Qed.

(** Node [v] acknowledges position [k] of term [t]. *)
Definition addAck (v t : Z) (k : nat) (g : history) : history := g <| g_acks := (v, t, k) :: g_acks g |>.

Lemma addAck_grows v t k g : grows g (addAck v t k g).
Proof. split; try done; [|cbn; by apply list_subseteq_cons]. intros T l H. exists []. by rewrite app_nil_r. Qed.

Lemma acked_addAck g v t k v' t' k' :
  acked (addAck v t k g) v' t' k' -> acked g v' t' k' \/ v' = v /\ t' = t /\ (k' <= k)%nat.
Proof.
  intros (i & Hi & [[= -> -> ->]|Hin]%elem_of_cons); [by right|]. left. by exists i.
Qed.

Lemma addAck_hist v t k l g :
  Hist g -> g_log g !! t = Some l -> (k < length l)%nat ->
  (forall T w, (v, T, w) ∈ g_votes g -> w <> 0 -> T <= t) -> Hist (addAck v t k g).
Proof.
  intros HH Hl Hk Hv. pose proof (addAck_grows v t k g) as Hg. split; try apply HH.
  - intros T' l' H. by eapply okLog_grows, h_ok.
  - intros T' l' t' k' H Hlt Ho. destruct (h_main _ HH T' l' t' k' H Hlt Ho) as [Hc|Hb]; [by left|right].
    eapply blocked_grows; [done..|]. intros v' T w [?|(-> & -> & _)]%acked_addAck Hn Hin Hw HT; [done|].
    specialize (Hv T w Hin Hw). lia.
  - intros v' T' w F Hin Hw HF. eapply kept_grows; [done..|by eapply (h_vote _ HH)|].
    intros t' k' [?|(-> & -> & _)]%acked_addAck Hlt; [done|]. specialize (Hv T' w Hin Hw). lia.
  - intros v' t' k' [[= -> -> ->]|Hin]%elem_of_cons; [by exists l|by eapply (h_ack _ HH)].
  - intros T' j F (H1 & H2)%(h_cand _ HH). split; [by eapply okLog_grows|done].
Qed.

(** Node [v] votes for [w] in term [T]. *)
Definition addVote (v T w : Z) (g : history) : history := g <| g_votes := (v, T, w) :: g_votes g |>.

(** A vote of [v] for [w] in term [T]: [w] is a candidate whose log has what [v]
    acknowledged, or [v] itself. *)
Definition voteFine (g : history) (v T w : Z) : Prop :=
  w <> 0 -> (w <> v -> is_Some (g_cand g !! (T, w))) /\ forall F, g_cand g !! (T, w) = Some F -> kept g v T T F.

Lemma addVote_grows v T w g : grows g (addVote v T w g).
Proof. split; try done; [|cbn; by apply list_subseteq_cons]. intros T' l H. exists []. by rewrite app_nil_r. Qed.

Lemma addVote_hist v T w g :
  Hist g -> voteFine g v T w -> (forall w', (v, T, w') ∈ g_votes g -> w' <> 0 -> w <> 0 -> w' = w) ->
  Hist (addVote v T w g).
Proof.
  intros HH Hk Hfun. pose proof (addVote_grows v T w g) as Hg. split; try apply HH.
  - intros T' l' H. by eapply okLog_grows, h_ok.
  - intros T' l' (j & mask & H1 & H2 & H3 & H4)%(h_by _ HH). exists j, mask. split_and!; [done..|].
    intros b Hb. right. by apply H4.
  - intros T' l' t' k' H Hlt Ho. destruct (h_main _ HH T' l' t' k' H Hlt Ho) as [Hc|Hb]; [by left|right].
    by eapply blocked_grows.
  - intros v' T' w' F [[= -> -> ->]|Hin]%elem_of_cons Hw HF;
      (eapply kept_grows; [done..| |done]); [by apply Hk|by eapply (h_vote _ HH)].
  - intros T' j F (H1 & H2)%(h_cand _ HH). split; [by eapply okLog_grows|done].
  - intros v' T' w1 w2 [E1|H1]%elem_of_cons [E2|H2]%elem_of_cons ??.
    + congruence.
    + injection E1 as -> -> ->. symmetry. by apply Hfun.
    + injection E2 as -> -> ->. by apply Hfun.
    + by eapply (h_fun _ HH).
  - intros v' T' w' [[= -> -> ->]|H1]%elem_of_cons ??; [by apply Hk|by eapply (h_req _ HH)].
Qed.

(** Node [j] stands for election in term [T] with the log [F]. *)
Definition addCand (T j : Z) (F : list Entry) (g : history) : history :=
  g <| g_cand := <[(T, j) := F]> (g_cand g) |>.

Lemma addCand_grows T j F g : g_cand g !! (T, j) = None -> grows g (addCand T j F g).
Proof. intros H. split; try done; [|by apply insert_subseteq]. intros T' l Hl. exists []. by rewrite app_nil_r. Qed.

Lemma addCand_hist T j F g :
  Hist g -> g_cand g !! (T, j) = None -> okLog g F -> termsUpTo (T - 1) F ->
  (forall v, (v, T, j) ∈ g_votes g -> kept g v T T F) -> Hist (addCand T j F g).
Proof.
  intros HH Hn HF Ht Hv. pose proof (addCand_grows T j F g Hn) as Hg. split; try apply HH.
  - intros T' l' H. by eapply okLog_grows, h_ok.
  - cbn. intros v' T' w F' Hin Hw [[[= <- <-] <-]|[_ HF']]%lookup_insert_Some;
      (eapply kept_grows; [done..| |done]); [by apply Hv|by eapply (h_vote _ HH)].
  - cbn. intros T' j' F' [[[= <- <-] <-]|[_ HF']]%lookup_insert_Some; [by split; [eapply okLog_grows|]|].
    destruct (h_cand _ HH _ _ _ HF') as (H1 & H2). split; [by eapply okLog_grows|done].
  - intros v' T' w Hin Hw Hwv. destruct (h_req _ HH _ _ _ Hin Hw Hwv) as [F' HF'].
    exists F'. by apply (lookup_weaken _ _ _ _ HF'), Hg.
Qed.

(** Node [j] wins term [T] with the votes in [mask]; its log is that of its
    candidacy. *)
Definition elect (T j mask : Z) (F : list Entry) (g : history) : history :=
  g <| g_log := <[T := F]> (g_log g) |> <| g_by := <[T := (j, mask)]> (g_by g) |>.

Lemma elect_grows T j mask F g : g_log g !! T = None -> grows g (elect T j mask F g).
Proof.
  intros Hn. split; try done; cbn; intros T' l Hl; (rewrite lookup_insert_ne by congruence); [|done].
  exists []. by rewrite app_nil_r.
Qed.

Lemma own_not_new T F : termsUpTo (T - 1) F -> forall k, termOf F k <> Some T.
Proof. intros HF k Hk. specialize (HF k T Hk). lia. Qed.

(** Whether a voter of [mask] acknowledged a position is decidable. *)
Lemma mask_acked_dec g mask t k :
  0 <= mask ->
  (exists b, Z.testbit mask b = true /\ acked g (b + 1) t k) \/
  (forall b, Z.testbit mask b = true -> ~ acked g (b + 1) t k).
Proof.
  intros Hm. set (N := Z.to_nat (Z.log2 mask + 1)).
  destruct (decide (Exists (fun i => Z.testbit mask (Z.of_nat i) = true /\
    bool_decide (Exists (fun x => x.1 = (Z.of_nat i + 1, t) /\ (k <= x.2)%nat) (g_acks g)) = true) (seq 0 N))) as [H|H].
  - left. apply Exists_exists in H as (i & _ & Hb & Ha%bool_decide_eq_true_1). exists (Z.of_nat i). split; [done|].
    apply Exists_exists in Ha as ([[v' t'] k'] & Hin & [= -> ->] & Hk). by exists k'.
  - right. intros b Hb (k' & Hk & Hin). apply H. apply Exists_exists.
    assert (0 <= b) by (destruct (decide (0 <= b)); [done|]; by rewrite Z.testbit_neg_r in Hb by lia).
    assert (b <= Z.log2 mask).
    { destruct (decide (b <= Z.log2 mask)); [done|]. by rewrite Z.bits_above_log2 in Hb by lia. }
    exists (Z.to_nat b). rewrite Z2Nat.id by done. split; [apply elem_of_seq; lia|]. split; [done|].
    apply bool_decide_eq_true_2, Exists_exists. by exists (b + 1, t, k').
Qed.

Lemma elect_hist T j mask F g :
  Hist g -> 0 <= mask -> g_log g !! T = None -> 0 < T -> j <> 0 -> g_cand g !! (T, j) = Some F -> len F <= maxu64 ->
  majorityMask V mask = true -> (forall b, Z.testbit mask b = true -> (b + 1, T, j) ∈ g_votes g) ->
  Hist (elect T j mask F g).
Proof.
  intros HH Hm0 Hn HT Hj HF Hlen Hq Hm. pose proof (elect_grows T j mask F g Hn) as Hg.
  destruct (h_cand _ HH _ _ _ HF) as [Hok Hterms].
  assert (forall T' l', g_log (elect T j mask F g) !! T' = Some l' ->
    T' = T /\ l' = F \/ T' <> T /\ g_log g !! T' = Some l') as Hcase.
  { cbn. intros T' l' [[<- <-]|[? H]]%lookup_insert_Some; auto. }
  assert (forall t k, own (elect T j mask F g) t k -> own g t k) as Hown.
  { intros t k (l & [[-> ->]|[_ Hl]]%Hcase & Ht); [by destruct (own_not_new T F Hterms k)|by exists l]. }
  assert (forall t k, blocked g t k -> blocked (elect T j mask F g) t k) as Hbl.
  { intros t k Hb. by eapply blocked_grows. }
  split.
  - intros T' l' [[-> ->]|[_ H]]%Hcase; [done|by eapply h_pos].
  - intros T' l' [[-> ->]|[_ H]]%Hcase; eapply okLog_grows; [done|done|done|by eapply h_ok].
  - intros T' l' [[-> ->]|[_ H]]%Hcase; [|by eapply h_terms]. intros i t Ht. specialize (Hterms i t Ht). lia.
  - intros T' l' [[-> ->]|[_ H]]%Hcase; [done|by eapply h_len].
  - intros T' l' [[-> ->]|[Hne H]]%Hcase; cbn.
    + exists j, mask. by rewrite lookup_insert_eq.
    + rewrite lookup_insert_ne by done. by apply (h_by _ HH _ _ H).
  - intros T' l' t k H Hlt Ho%Hown. destruct (Hcase _ _ H) as [[-> ->]|[_ H']].
    + destruct (mask_acked_dec g mask t k Hm0) as [(b & Hb & Ha)|Hnone].
      * destruct (h_vote _ HH (b + 1) T j F (Hm b Hb) Hj HF t k Ha Ho Hlt) as [Hc|(u & Hu & Hl)].
        { left. by eapply contains_grows. }
        destruct Hl as (lu & lt & Hlu & Hlt' & Hns). assert (u <> T) by congruence.
        destruct (h_main _ HH u lu t k Hlu ltac:(lia) Ho) as [(m & Hm' & Hs)|Hb']; [|right; by apply Hbl].
        rewrite Hlt' in Hm'. injection Hm' as <-. done.
      * right. apply Hbl. exists mask. split; [done|]. intros b Hb. split; [by apply Hnone|].
        exists T, j. split_and!; [done..|by apply Hm].
    + destruct (h_main _ HH T' l' t k H' Hlt Ho) as [Hc|Hb]; [left; by eapply contains_grows|right; by apply Hbl].
  - intros v T' w F' Hin Hw HF'. eapply kept_grows; [done..|by eapply (h_vote _ HH)|done].
  - intros v t k (m & Hm' & Hk)%(h_ack _ HH). destruct (gr_log _ _ Hg _ _ Hm') as (es & He' & _).
    exists (m ++ es). split; [done|]. rewrite length_app. lia.
  - intros T' j' F' (H1 & H2)%(h_cand _ HH). split; [by eapply okLog_grows|done].
  - apply HH.
  - apply HH.
Qed.

(** ** Following a leader *)

(** The log of a follower after the leader with log [gl] made it hold position
    [i]: unchanged where it has the leader's entry, else cut and replaced. *)
Definition follow (i : nat) (l gl : list Entry) : list Entry :=
  if bool_decide (termOf l i = termOf gl i) then l else take (S i) gl.

Lemma follow_cases g i l gl T :
  Hist g -> okLog g l -> g_log g !! T = Some gl -> (i < length gl)%nat ->
  share i l gl /\ follow i l gl = l \/ ~ share i l gl /\ follow i l gl = take (S i) gl.
Proof.
  intros HH Hl Hgl Hi. unfold follow. case_bool_decide as E; [left|right]; (split; [|done]).
  - destruct (termOf_some gl i Hi) as [t Ht]. rewrite Ht in E.
    by eapply log_matching; [|eapply h_ok| |].
  - intros Hs. apply E. by apply (share_term i).
Qed.

Lemma follow_share g i l gl T :
  Hist g -> okLog g l -> g_log g !! T = Some gl -> (i < length gl)%nat -> share i (follow i l gl) gl.
Proof.
  intros HH Hl Hgl Hi. destruct (follow_cases g i l gl T HH Hl Hgl Hi) as [[Hs ->]|[_ ->]]; [done|].
  apply share_take; [lia|by apply share_refl].
Qed.

Lemma okLog_take g l i : okLog g l -> okLog g (take (S i) l).
Proof.
  intros [H1 H2 H3]. split.
  - by rewrite lookup_take_lt by lia.
  - intros a b t u Hab Ht Hu. apply termOf_lt in Ht as Ha'. apply termOf_lt in Hu as Hb'.
    rewrite length_take in Ha', Hb'. unfold termOf in *. rewrite lookup_take_lt in Ht, Hu by lia.
    by apply (H2 a b).
  - intros a e He Ha. apply lookup_lt_Some in He as Hlt. rewrite length_take in Hlt.
    rewrite lookup_take_lt in He by lia. destruct (H3 a e He Ha) as (l' & Hl' & Hs). exists l'. split; [done|].
    apply share_take; [lia|done].
Qed.

Lemma okLog_follow g i l gl T :
  Hist g -> okLog g l -> g_log g !! T = Some gl -> (i < length gl)%nat -> okLog g (follow i l gl).
Proof.
  intros HH Hl Hgl Hi. destruct (follow_cases g i l gl T HH Hl Hgl Hi) as [[_ ->]|[_ ->]]; [done|].
  apply okLog_take. by eapply h_ok.
Qed.

Lemma terms_follow g i l gl T :
  Hist g -> okLog g l -> g_log g !! T = Some gl -> (i < length gl)%nat -> termsUpTo T l ->
  termsUpTo T (follow i l gl).
Proof.
  intros HH Hl Hgl Hi Hb. destruct (follow_cases g i l gl T HH Hl Hgl Hi) as [[_ ->]|[_ ->]]; [done|].
  intros a t Ht. apply termOf_lt in Ht as Hlt. rewrite length_take in Hlt. unfold termOf in Ht.
  rewrite lookup_take_lt in Ht by lia. by apply (h_terms _ HH _ _ Hgl a).
Qed.

(** Following keeps what was acknowledged, or the leader itself gave it up. *)
Lemma kept_follow g v i l gl T :
  Hist g -> okLog g l -> g_log g !! T = Some gl -> (i < length gl)%nat ->
  kept g v (T + 1) T l -> kept g v (T + 1) T (follow i l gl).
Proof.
  intros HH Hl Hgl Hi Hk t k Ha Ho Hlt. destruct (Hk t k Ha Ho Hlt) as [(m & Hm & Hs)|Hu]; [|by right].
  destruct (follow_cases g i l gl T HH Hl Hgl Hi) as [[_ ->]|[Hns ->]]; [left; by exists m|].
  assert (share k l gl -> (k < i)%nat) as Hki.
  { intros Hsk. destruct (Nat.lt_ge_cases k i) as [|Hge]; [done|]. by destruct Hns; apply (share_le k). }
  destruct (decide (take (S k) gl = take (S k) m)) as [E|E].
  - left. exists m. split; [done|]. pose proof Hs as (H1 & H2 & E2).
    assert (k < length gl)%nat as Hkg.
    { apply (f_equal length) in E. rewrite !length_take in E. lia. }
    assert (share k l gl) as Hsl by (split_and!; [done..|congruence]). specialize (Hki Hsl).
    apply share_take; [lia|]. by split_and!.
  - right. exists T. split; [|exists gl, m; split_and!; [done..|]; by intros (_ & _ & ?)].
    split; [|lia]. destruct (decide (t = T)) as [->|]; [|lia]. rewrite Hgl in Hm. injection Hm as <-. done.
Qed.

Lemma committed_follow g k i l gl T :
  is_u64 V -> Hist g -> okLog g l -> g_log g !! T = Some gl -> (i < length gl)%nat ->
  committed g T k l -> committed g T k (follow i l gl) /\ (k < length (follow i l gl))%nat.
Proof.
  intros Hu HH Hl Hgl Hi Hc. pose proof (committed_leader g T k l gl Hu HH Hl Hgl Hc) as Hs.
  assert (share k (follow i l gl) gl) as Hs'.
  { destruct (follow_cases g i l gl T HH Hl Hgl Hi) as [[_ ->]|[Hns ->]]; [done|].
    apply share_take; [|apply share_refl; apply Hs].
    destruct (Nat.lt_ge_cases i k) as [|Hge]; [|done]. destruct Hns. apply (share_le k); [lia|done]. }
  split; [|apply Hs']. destruct Hc as [->|(t & k' & H1 & H2 & H3 & (m & Hm & Hsm))]; [by left|].
  right. exists t, k'. split_and!; [done..|]. exists m. split; [done|].
  eapply share_trans; [exact Hs'|]. eapply share_trans; [apply share_sym; exact Hs|exact Hsm].
Qed.

(** What a leader of term [T] announces as committed is committed in a log that
    follows it. *)
Definition announced (g : history) (T : Z) (k : nat) : Prop :=
  k = 0%nat \/ exists t k', t <= T /\ (k <= k')%nat /\ chosen g t k'.

Lemma announced_grows g g' T T' k : grows g g' -> T <= T' -> announced g T k -> announced g' T' k.
Proof.
  intros Hg HT [->|(t & k' & H1 & H2 & H3)]; [by left|]. right. exists t, k'.
  split_and!; [lia|done|by eapply chosen_grows].
Qed.

Lemma committed_announced g T k l : committed g T k l -> announced g T k.
Proof. intros [->|(t & k' & H1 & H2 & H3 & _)]; [by left|right; by exists t, k']. Qed.

Lemma announced_committed g T k c l gl :
  is_u64 V -> Hist g -> g_log g !! T = Some gl -> share k l gl -> (c <= k)%nat -> announced g T c ->
  committed g T c l.
Proof.
  intros Hu HH Hgl Hs Hck [->|(t & k' & H1 & H2 & H3)]; [by left|]. right. exists t, k'.
  split_and!; [done..|]. destruct (leader_completeness g T gl t k') as (m & Hm & Hsm); [assumption..|].
  exists m. split; [done|]. eapply share_trans; [by apply (share_le k)|by apply (share_le k')].
Qed.

(** ** Voting *)

(** A voter's acknowledgements are in the log of every candidate whose log is at
    least as up to date. *)
Lemma kept_vote g v T l F lt ft :
  Hist g -> okLog g l -> okLog g F -> termsUpTo (T - 1) F -> kept g v (T + 1) T l ->
  termOf l (length l - 1) = Some lt -> termOf F (length F - 1) = Some ft ->
  lt < ft \/ ft = lt /\ (length l <= length F)%nat -> kept g v T T F.
Proof.
  intros HH Hl HF Hterms Hk Hlt Hft Hup t k Ha Ho HtT.
  destruct (Hk t k Ha Ho ltac:(lia)) as [(m & Hm & Hs)|Hu]; [|by right].
  pose proof (own_pos g t k HH Ho) as [Hk0 Ht0]. destruct Ho as (m' & Hm' & Htk).
  rewrite Hm in Hm'. injection Hm' as <-.
  assert (termOf l k = Some t) as Hlk by by rewrite (share_term k k l m).
  pose proof Hs as (Hkl & _ & _). pose proof (okLog_len _ _ HF).
  assert (t <= lt) as Hle by (apply (ok_sorted _ _ Hl k (length l - 1)%nat); [lia|done|done]).
  assert (0 < length F - 1)%nat as Hpos by (eapply okLog_pos; [exact HF|exact Hft|lia]).
  destruct (contains_term g F (length F - 1)%nat ft HF Hft Hpos) as (gc & Hgc & Hsc).
  destruct (decide (ft = t)) as [->|Hne].
  - left. exists m. split; [done|]. rewrite Hm in Hgc. injection Hgc as <-.
    apply (share_le (length F - 1)%nat); [lia|done].
  - destruct (decide (k < length gc /\ take (S k) gc = take (S k) m)%nat) as [[H1 H2]|Hn].
    + left. exists m. split; [done|]. assert (share k gc m) as Hgm by (split_and!; [done|apply Hs|done]).
      eapply share_trans; [|exact Hgm]. apply (share_le (length F - 1)%nat); [|done].
      destruct (Nat.lt_ge_cases (length F - 1) k) as [Hlt'|]; [|done].
      assert (ft <= t); [|lia]. apply (ok_sorted _ _ (h_ok _ HH _ _ Hgc) (length F - 1)%nat k); [lia| |].
      * by rewrite <- (share_term (length F - 1)%nat (length F - 1)%nat F gc).
      * by rewrite (share_term k k gc m).
    + right. exists ft. specialize (Hterms _ _ Hft). split; [lia|]. exists gc, m. split_and!; [done..|].
      intros (H1 & _ & H2). by apply Hn.
Qed.

End history.
