(* ===== verification/RaftLogs.v ===== *)
(** * What the operations of a node do to its log

    The node-local part of log safety: relative to a history ([LogHistory]), every
    operation of [raft/node.go] keeps the log of a node, on disk and in memory, an
    honest one, sends only messages the history backs, and acknowledges, votes and
    commits only what the history allows.  As in [RaftVotes] these are partial
    statements ([wlp]) for a cluster of fixed membership [V]. *)

From S2P Require Import Prelude RaftTypes Quorum RaftNode RaftInv RaftStep RaftClient RaftVotes LogHistory.

(** ** The log a restart recovers

    [image s] is the base index and the log that reopening [s] yields, [None] when
    it cannot be reopened.  The first entry of the log stands for the base: only
    its term counts. *)

Definition baseEntry (term : Z) : Entry := zeroEntry <| e_Term := term |>.

(** The log after a snapshot: what follows it, if the log has the entry the
    snapshot ends with. *)
Definition cutAt (idx term b : Z) (l : list Entry) : list Entry :=
  match l !! Z.to_nat (idx - b) with
  | Some e => if e_Term e =? term then drop (Z.to_nat (idx - b)) l else [baseEntry term]
  | None => [baseEntry term]
  end.

Class DurableLog (S : Type) `{!StableStore S} := {
  image : S -> option (Z * list Entry);
  image_save h s s' r x : SaveHardState h s = (s', r) -> image s' = Some x -> image s = Some x;
  image_append i e s s' r b l' :
    Append i e s = (s', r) -> image s' = Some (b, l') ->
    exists l, image s = Some (b, l) /\
      (b < i <= b + len l -> l' = take (Z.to_nat (i - b)) l ++ [e] \/ r <> None /\ l' = l);
  image_snapshot ops snap s s' r b' l' :
    AsSnapshotStore = Some ops -> SaveSnapshot ops snap s = (s', r) -> image s' = Some (b', l') ->
    exists b l, image s = Some (b, l) /\
      (0 <= b < s_LastIndex snap -> b + len l <= maxu64 ->
       (b', l') = (b, l) \/ (b', l') = (s_LastIndex snap, cutAt (s_LastIndex snap) (s_LastTerm snap) b l));
  image_compact ops snap s s1 s2 r b' l' :
    AsSnapshotStore = Some ops -> SaveSnapshot ops snap s = (s1, None) ->
    CompactLog ops (s_LastIndex snap) s1 = (s2, r) -> image s2 = Some (b', l') ->
    exists b l, image s = Some (b, l) /\
      (0 <= b < s_LastIndex snap -> b + len l <= maxu64 ->
       r <> None /\ (b', l') = (b, l) \/
       (b', l') = (s_LastIndex snap, cutAt (s_LastIndex snap) (s_LastTerm snap) b l))
}.

(** A store that is never reopened. *)
Definition volatile (S : Type) `{!StableStore S} : DurableLog S.
Proof. by refine {| image := fun _ => None |}. Defined.

(** [F] is the whole log of which [l] is the part from index [b] on. *)
Record represents (F : list Entry) (b : Z) (l : list Entry) : Prop := {
  rp_base : 0 <= b;
  rp_ne : (0 < length l)%nat;
  rp_len : length F = (Z.to_nat b + length l)%nat;
  rp_head : termOf F (Z.to_nat b) = termOf l 0;
  rp_tail : forall i, (0 < i)%nat -> F !! (Z.to_nat b + i)%nat = l !! i
}.

Lemma rp_lookup F b l i : represents F b l -> b < i -> F !! Z.to_nat i = l !! Z.to_nat (i - b).
Proof.
  intros H Hi. pose proof (rp_base _ _ _ H). rewrite <- (rp_tail _ _ _ H) by lia. f_equal. lia.
Qed.

Lemma rp_term F b l i :
  represents F b l -> b <= i -> termOf F (Z.to_nat i) = termOf l (Z.to_nat (i - b)).
Proof.
  intros H Hi. destruct (decide (i = b)) as [->|Hne].
  - rewrite Z.sub_diag. apply H.
  - unfold termOf. by rewrite (rp_lookup F b l i H) by lia.
Qed.

Lemma rp_take F b l m :
  represents F b l -> (0 < m <= length l)%nat -> represents (take (Z.to_nat b + m) F) b (take m l).
Proof.
  intros [] Hm. split; [done|rewrite length_take; lia|rewrite !length_take; lia|..].
  - unfold termOf in *. by rewrite !lookup_take_lt by lia.
  - intros i Hi. destruct (Nat.lt_ge_cases i m).
    + rewrite !lookup_take_lt by lia. by apply rp_tail0.
    + by rewrite !lookup_take_ge by lia.
Qed.

Lemma rp_snoc F b l e : represents F b l -> represents (F ++ [e]) b (l ++ [e]).
Proof.
  intros []. split; [done|rewrite length_app; lia|rewrite !length_app; lia|..].
  - unfold termOf in *. by rewrite !lookup_app_l by lia.
  - intros i Hi. destruct (Nat.lt_ge_cases i (length l)).
    + rewrite !lookup_app_l by lia. by apply rp_tail0.
    + rewrite !lookup_app_r by lia. f_equal. lia.
Qed.

Lemma rp_drop F b l m : represents F b l -> (m < length l)%nat -> represents F (b + Z.of_nat m) (drop m l).
Proof.
  intros H Hm. pose proof (rp_term F b l (b + Z.of_nat m) H ltac:(lia)) as Ht. destruct H. split.
  - lia.
  - rewrite length_drop. lia.
  - rewrite length_drop. lia.
  - rewrite Ht. unfold termOf. rewrite lookup_drop. f_equal. f_equal. lia.
  - intros i Hi. rewrite lookup_drop. rewrite <- rp_tail0 by lia. f_equal. lia.
Qed.

Lemma rp_single F b t :
  0 <= b -> length F = S (Z.to_nat b) -> termOf F (Z.to_nat b) = Some t -> represents F b [baseEntry t].
Proof.
  intros Hb Hl Ht. split; [done|cbn; lia|cbn; lia|done|]. intros i Hi.
  rewrite lookup_ge_None_2 by lia. destruct i; [lia|done].
Qed.

(** The log the store has after a snapshot is the one a follower has. *)
Lemma rp_cut F b l idx gl t :
  represents F b l -> b < idx -> termOf gl (Z.to_nat idx) = Some t -> represents (follow (Z.to_nat idx) F gl) idx (cutAt idx t b l).
Proof.
  intros H Hb Ht. pose proof (rp_base _ _ _ H) as Hb0. apply termOf_lt in Ht as Hlt.
  pose proof (rp_lookup F b l idx H Hb) as E. unfold cutAt. rewrite <- E. unfold follow.
  case_bool_decide as Es.
  - rewrite Ht in Es. apply fmap_Some in Es as (e & He & ->). rewrite He, Z.eqb_refl.
    rewrite E in He. apply lookup_lt_Some in He.
    replace idx with (b + Z.of_nat (Z.to_nat (idx - b))) at 1 by lia. by apply rp_drop.
  - assert (represents (take (S (Z.to_nat idx)) gl) idx [baseEntry t]) as Hr.
    { apply rp_single; [lia|rewrite length_take; lia|]. unfold termOf. by rewrite lookup_take_lt by lia. }
    destruct (F !! Z.to_nat idx) as [e|] eqn:He; [|done]. destruct (Z.eqb_spec (e_Term e) t) as [Et|]; [|done].
    destruct Es. unfold termOf at 1. rewrite He, Ht. by rewrite <- Et.
Qed.

(** Update of fields of a node an invariant does not mention. *)
Ltac lg_upd H :=
  destruct H; split; try assumption;
  try (match goal with Hs : sound _ _ |- sound _ _ =>
         destruct Hs as [[] ? ? ? ?]; split; try assumption; split; assumption end).

(** ** Nodes and messages backed by a history *)

Section logs.
Context {St : Type} `{!StableStore St} `{!DurableVotes St} `{!DurableLog St} (V : Z).
Implicit Types n : Node St.

(** What a message claims is true. *)
Record backedMsg (g : history) (m : Message) : Prop := {
  bm_append : m_Type m = MsgAppend -> exists gl k,
    g_log g !! m_Term m = Some gl /\ m_LogIndex m = Z.of_nat k /\ termOf gl k = Some (m_LogTerm m) /\
    (m_HasEntry m = true -> gl !! S k = Some (m_Entry m)) /\ announced V g (m_Term m) (Z.to_nat (m_Commit m));
  bm_install : m_Type m = MsgInstallSnapshot -> exists gl k,
    g_log g !! m_Term m = Some gl /\ m_SnapshotIndex m = Z.of_nat k /\ termOf gl k = Some (m_SnapshotTerm m) /\
    announced V g (m_Term m) k;
  bm_ack : m_Type m = MsgAppendResponse \/ m_Type m = MsgInstallSnapshotResponse -> m_Reject m = false ->
    acked g (m_From m) (m_Term m) (Z.to_nat (m_Match m));
  bm_request : m_Type m = MsgRequestVote -> exists F,
    g_cand g !! (m_Term m, m_From m) = Some F /\ m_LogIndex m = len F - 1 /\
    termOf F (length F - 1) = Some (m_LogTerm m)
}.

(** The hard state a restart would read. *)
Definition hardOf n : HardState := durable (n_store n).

Record logged (g : history) (j : Z) n (F D : list Entry) : Prop := mkLogged {
  lg_id : n_ID n = j;
  lg_sound : sound V n;
  lg_mem : represents F (n_BaseIndex n) (n_Log n);
  lg_ok : okLog g F;
  lg_terms : termsUpTo (n_Term n) F;
  lg_len : len F <= maxu64;
  lg_base : n_BaseIndex n <= n_Commit n;
  lg_applied : n_BaseIndex n <= n_Applied n <= n_Commit n;
  lg_commit : committed V g (n_Term n) (Z.to_nat (n_Commit n)) F;
  lg_snap : s_LastIndex (n_snapshot n) = n_BaseIndex n /\ s_LastTerm (n_snapshot n) = n_BaseTerm n /\
    termOf F (Z.to_nat (n_BaseIndex n)) = Some (s_LastTerm (n_snapshot n));
  lg_dok : okLog g D;
  lg_dterms : termsUpTo (h_Term (hardOf n)) D;
  lg_dlen : len D <= maxu64;
  lg_dcommit : committed V g (h_Term (hardOf n)) (Z.to_nat (h_Commit (hardOf n))) D;
  lg_dpos : 0 <= h_Commit (hardOf n);
  lg_image : forall b l, image (n_store n) = Some (b, l) ->
    represents D b l /\ committed V g (h_Term (hardOf n)) (Z.to_nat b) D;
  lg_same : n_Faulted n = false ->
    D = F /\ forall b l, image (n_store n) = Some (b, l) -> b = n_BaseIndex n;
  lg_kept : kept g j (h_Term (hardOf n) + 1) (h_Term (hardOf n)) D;
  lg_acks : forall t k, (j, t, k) ∈ g_acks g -> t <= n_Term n;
  lg_leader : n_State n = Leader -> g_log g !! n_Term n = Some F /\ exists mask, g_by g !! n_Term n = Some (j, mask);
  lg_cand : n_State n = Candidate -> g_cand g !! (n_Term n, j) = Some F /\
    forall l mask, g_log g !! n_Term n = Some l -> g_by g !! n_Term n = Some (j, mask) -> False;
  lg_cands : forall T F', g_cand g !! (T, j) = Some F' -> T <= n_Term n;
  lg_vote : voteFine g j (n_Term n) (n_VotedFor n);
  lg_dvote : voteFine g j (h_Term (hardOf n)) (h_VotedFor (hardOf n));
  lg_voted : forall T w, (j, T, w) ∈ g_votes g -> w <> 0 -> T < n_Term n \/ T = n_Term n /\ n_VotedFor n = w;
  lg_out : forall m, m ∈ n_outbound n -> backedMsg g m
}.

(** The match indexes of a leader are acknowledged. *)
Definition matched (g : history) n : Prop :=
  n_State n = Leader -> forall p k, p ∈ n_Peers n -> n_match n !! p = Some k -> 0 < k ->
    acked g p (n_Term n) (Z.to_nat k).

Lemma lg_wf_log g j n F D : logged g j n F D -> wf_log n.
Proof.
  intros []. destruct lg_mem0. split_and!; [|done|unfold len in *; lia].
  intros E. rewrite E in rp_ne0. cbn in rp_ne0. lia.
Qed.

Lemma lg_top g j n F D : logged g j n F D -> top n = len F.
Proof. intros []. destruct lg_mem0. unfold top, len. lia. Qed.

Lemma lg_last g j n F D : logged g j n F D -> lastIndex n = len F - 1.
Proof.
  intros H. rewrite lastIndex_wf by by eapply lg_wf_log. pose proof (lg_top _ _ _ _ _ H). unfold top in *. lia.
Qed.

Lemma lg_next g j n F D : logged g j n F D -> w64 (lastIndex n + 1) = len F.
Proof. intros H. rewrite nextIndex_wf by by eapply lg_wf_log. by apply lg_top in H. Qed.

(** What the node reads at an index is what its whole log has there. *)
Lemma lg_offset g j n F D i off :
  logged g j n F D -> offset n i = Some off ->
  n_BaseIndex n <= i < len F /\ off = i - n_BaseIndex n /\ termOf F (Z.to_nat i) = Some (e_Term (logAt n off)) /\
  (n_BaseIndex n < i -> F !! Z.to_nat i = Some (logAt n off)).
Proof.
  intros H Hoff. pose proof (lg_top _ _ _ _ _ H) as Ht. unfold top in Ht.
  rewrite offset_wf in Hoff by by eapply lg_wf_log. case_decide as Hr; [|done]. injection Hoff as <-.
  assert (n_Log n !! Z.to_nat (i - n_BaseIndex n) = Some (logAt n (i - n_BaseIndex n))) as E.
  { apply logAt_lookup; lia. }
  split; [lia|]. split; [done|]. split.
  - rewrite (rp_term _ _ _ _ (lg_mem _ _ _ _ _ H)) by lia. unfold termOf. by rewrite E.
  - intros Hi. by rewrite (rp_lookup _ _ _ _ (lg_mem _ _ _ _ _ H)).
Qed.

Lemma lg_termAt g j n F D i t :
  logged g j n F D -> termAt n i = Some t -> n_BaseIndex n <= i < len F /\ termOf F (Z.to_nat i) = Some t.
Proof.
  intros H. unfold termAt. destruct (offset n i) as [off|] eqn:E; [|done]. intros [= <-].
  by destruct (lg_offset _ _ _ _ _ _ _ H E) as (? & _ & ? & _).
Qed.

(** ** Other nodes do not notice *)

(** From [g] to [g'] nothing was added on behalf of node [i]. *)
Record spares (i : Z) (g g' : history) : Prop := {
  sp_acks : forall t k, (i, t, k) ∈ g_acks g' -> (i, t, k) ∈ g_acks g;
  sp_cand : forall T F, g_cand g' !! (T, i) = Some F -> g_cand g !! (T, i) = Some F;
  sp_votes : forall T w, (i, T, w) ∈ g_votes g' -> (i, T, w) ∈ g_votes g;
  sp_by : forall T mask, g_by g' !! T = Some (i, mask) -> g_by g !! T = Some (i, mask) /\ g_log g' !! T = g_log g !! T
}.

Lemma spares_refl i g : spares i g g.
Proof. by split. Qed.

Lemma spares_trans i g1 g2 g3 : spares i g1 g2 -> spares i g2 g3 -> spares i g1 g3.
Proof.
  intros H1 H2. split.
  - intros t k H%H2. by apply H1.
  - intros T F H%H2. by apply H1.
  - intros T w H%H2. by apply H1.
  - intros T mask (H & E)%H2. apply H1 in H as (H & E'). split; [done|congruence].
Qed.

Lemma backedMsg_grows g g' m : grows g g' -> backedMsg g m -> backedMsg g' m.
Proof.
  intros Hg [H1 H2 H3 H4]. split.
  - intros Hty. destruct (H1 Hty) as (gl & k & Hl & Hi & Ht & He & Ha).
    destruct (gr_log _ _ Hg _ _ Hl) as (es & Hl' & _). exists (gl ++ es), k. split_and!; [done..| | |].
    + rewrite termOf_app; [done|by eapply termOf_lt].
    + intros Hh. by apply lookup_app_l_Some, He.
    + eapply announced_grows; [done| |done]. lia.
  - intros Hty. destruct (H2 Hty) as (gl & k & Hl & Hi & Ht & Ha).
    destruct (gr_log _ _ Hg _ _ Hl) as (es & Hl' & _). exists (gl ++ es), k. split_and!; [done..| |].
    + rewrite termOf_app; [done|by eapply termOf_lt].
    + eapply announced_grows; [done| |done]. lia.
  - intros Hty Hr. eapply acked_grows; [done|auto].
  - intros Hty. destruct (H4 Hty) as (F & HF & Hi & Ht). exists F. split; [|done].
    eapply lookup_weaken; [done|apply Hg].
Qed.

Lemma acked_spares g g' i t k : spares i g g' -> acked g' i t k -> acked g i t k.
Proof. intros Hs (k' & Hk & Hin). exists k'. split; [done|]. by apply Hs. Qed.

Lemma voteFine_grows g g' i T w :
  Hist V g -> grows g g' -> (forall t k, (i, t, k) ∈ g_acks g' -> t < T -> (i, t, k) ∈ g_acks g) ->
  (forall T' F, g_cand g' !! (T', i) = Some F -> T' <= T -> g_cand g !! (T', i) = Some F) ->
  voteFine g i T w -> voteFine g' i T w.
Proof.
  intros HH Hg Ha Hc Hv Hw. destruct (Hv Hw) as [H1 H2]. split.
  - intros Hwi. destruct (H1 Hwi) as [F HF]. exists F. eapply lookup_weaken; [done|apply Hg].
  - intros F HF. eapply kept_grows; [done..| |].
    + apply H2. destruct (decide (w = i)) as [->|Hne]; [apply Hc; [done|lia]|]. destruct (H1 Hne) as [F' HF'].
      rewrite (lookup_weaken _ _ _ _ HF' (gr_cand _ _ Hg)) in HF. by injection HF as <-.
    + intros t k (k' & Hk & Hin) Ht. exists k'. split; [done|]. by apply Ha.
Qed.

Lemma matched_grows g g' n n' :
  grows g g' -> n_Term n' = n_Term n -> n_Peers n' = n_Peers n -> n_match n' = n_match n ->
  (n_State n' = n_State n \/ n_State n' = Follower) -> matched g n -> matched g' n'.
Proof.
  intros Hg Ht Hp Hm Hst H Hl p k. rewrite Hp, Hm, Ht. intros Hin Hk Hk0.
  destruct Hst as [Hst|Hst]; [|congruence]. eapply acked_grows; [done|]. eapply H; [congruence|done..].
Qed.

(** ** Updates of a node *)

Lemma logged_out g j n F D m :
  logged g j n F D -> backedMsg g m -> logged g j (n <| n_outbound := n_outbound n ++ [m] |>) F D.
Proof.
  intros H Hm. lg_upd H. cbn. intros m' [?| ->%list_elem_of_singleton]%elem_of_app; auto.
Qed.

Lemma logged_commit g j n F D c :
  logged g j n F D -> n_Commit n <= c -> committed V g (n_Term n) (Z.to_nat c) F ->
  logged g j (n <| n_Commit := c |>) F D.
Proof. intros H Hc Hcm. lg_upd H; nsimp; lia. Qed.

(** What the disk must have; [T] is the term on disk. *)
Record onDisk (g : history) (j : Z) (s : St) (D : list Entry) : Prop := {
  od_ok : okLog g D;
  od_terms : termsUpTo (h_Term (durable s)) D;
  od_len : len D <= maxu64;
  od_commit : committed V g (h_Term (durable s)) (Z.to_nat (h_Commit (durable s))) D;
  od_pos : 0 <= h_Commit (durable s);
  od_image : forall b l, image s = Some (b, l) ->
    represents D b l /\ committed V g (h_Term (durable s)) (Z.to_nat b) D;
  od_kept : kept g j (h_Term (durable s) + 1) (h_Term (durable s)) D;
  od_vote : voteFine g j (h_Term (durable s)) (h_VotedFor (durable s))
}.

Lemma lg_onDisk g j n F D : logged g j n F D -> onDisk g j (n_store n) D.
Proof. by intros []. Qed.

(** Stopping on a storage failure: only the disk may have changed. *)
Lemma logged_fault g j n F D D' s e :
  logged g j n F D -> onDisk g j s D' -> ahead (faultUpd n s e) -> logged g j (faultUpd n s e) F D'.
Proof.
  intros H [] Ha. destruct H. split; try assumption; try done.
  - destruct lg_sound0 as [[] ? ? ? ?]. split; try done.
  - nsimp. set_solver.
Qed.

Lemma kept_mono g v B B' T T' l :
  (forall t k, acked g v t k -> t < B) -> T <= T' -> kept g v B T l -> kept g v B' T' l.
Proof.
  intros Hb HT Hk t k Ha Ho _. destruct (Hk t k Ha Ho (Hb t k Ha)) as [?|(u & Hu & Hl)]; [by left|].
  right. exists u. split; [lia|done].
Qed.

Lemma lg_acked g j n F D t k : logged g j n F D -> acked g j t k -> t <= n_Term n.
Proof. intros H (k' & _ & Hin). by eapply lg_acks. Qed.

(** Saving a hard state: the disk has the old one or the new one. *)
Lemma onDisk_save g j n F D h s r :
  logged g j n F D -> n_Faulted n = false -> SaveHardState h (n_store n) = (s, r) ->
  n_Term n <= h_Term h -> n_Commit n <= h_Commit h -> committed V g (h_Term h) (Z.to_nat (h_Commit h)) F ->
  voteFine g j (h_Term h) (h_VotedFor h) -> onDisk g j s D /\ (r = None -> durable s = h).
Proof.
  intros H Hf HS HT Hle Hc Hv. pose proof (lg_onDisk _ _ _ _ _ H) as Hd.
  pose proof (lg_base _ _ _ _ _ H) as Hb. pose proof (rp_base _ _ _ (lg_mem _ _ _ _ _ H)) as Hb0.
  destruct (lg_same _ _ _ _ _ H Hf) as [E _].
  assert (h_Term (durable (n_store n)) = n_Term n) as Et by (by apply (so_synced _ _ (lg_sound _ _ _ _ _ H))).
  assert (durable s = h -> onDisk g j s D) as Hnew.
  { intros Es. destruct Hd. rewrite Et in *. split; rewrite ?Es; try done.
    - intros i t Ht. specialize (od_terms0 i t Ht). lia.
    - by rewrite E.
    - lia.
    - intros b l Hi. destruct (od_image0 b l) as [H1 H2]; [by eapply image_save|]. split; [done|].
      by eapply committed_grows; [apply grows_refl| |].
    - eapply kept_mono; [|exact HT|done]. intros t k Ha. pose proof (lg_acked _ _ _ _ _ _ _ H Ha). lia. }
  destruct r as [e|].
  - split; [|done]. apply durable_save_err in HS as Hes. destruct Hes as [Es|Es]; [|by apply Hnew].
    destruct Hd. split; rewrite ?Es; try done. intros b l Hi. apply od_image0. by eapply image_save.
  - apply durable_save in HS as Es. auto.
Qed.

(** ** Functions that leave the log alone *)

Lemma send_wlp m n : wlp (send m) (fun _ n' => n' = n <| n_outbound := n_outbound n ++ [m] |>) n.
Proof. unfold send. wlp_pures. by destruct (_ =? _); wlp_pures. Qed.

(** Without configuration entries, applying and rebuilding configurations only
    touches the pending marker. *)
Definition pendUpd n (pc : Z) : Node St := n <| n_pendingConfig := pc |>.

Lemma static_pend n pc : static V n -> static V (pendUpd n pc).
Proof. intros []. by split. Qed.

Lemma logged_pend g j n F D pc : logged g j n F D -> logged g j (pendUpd n pc) F D.
Proof. intros H. lg_upd H. Qed.

Lemma pendUpd_self n : pendUpd n (n_pendingConfig n) = n.
Proof. by destruct n. Qed.

Lemma applyConfigurations_wlp first last n :
  static V n -> wlp (applyCommittedConfigurations first last) (fun _ n' => exists pc, n' = pendUpd n pc) n.
Proof.
  intros Hs. unfold applyCommittedConfigurations. wlp_pures.
  apply (wlp_forM_ (fun n' => exists pc, n' = pendUpd n pc)).
  { exists (n_pendingConfig n). by rewrite pendUpd_self. }
  intros i n1 _ [pc ->]. wlp_pures. eapply wlp_mono; [apply (entryAt_static V), static_pend, Hs|].
  intros e n1 [-> [-> ->]%cfgfree_kind]. wlp_pures. destruct (_ =? _); wlp_pures; by eexists.
Qed.

Lemma rebuildPendingConfig_wlp n :
  static V n -> wlp rebuildPendingConfig (fun _ n' => n' = pendUpd n 0) n.
Proof.
  intros Hs. unfold rebuildPendingConfig. wlp_pures.
  apply (wlp_forM_ (fun n' => n' = pendUpd n 0)); [done|].
  intros i n1 _ ->. wlp_pures. eapply wlp_mono; [apply (entryAt_static V), static_pend, Hs|].
  intros e n1 [-> [-> ->]%cfgfree_kind]. by wlp_pures.
Qed.

Lemma canCommitIndex_wlp idx acks n :
  static V n -> wlp (canCommitIndex idx acks) (fun q n' => n' = n /\ q = majorityMask V acks) n.
Proof.
  intros Hs. unfold canCommitIndex. wlp_pures.
  eapply wlp_mono; [apply (wlp_foldM (fun p n' => n' = n /\ p = (V, 0)))|].
  - split; [done|]. apply Hs.
  - intros [o w] i n1 _ [-> [= -> ->]]. wlp_pures. eapply wlp_mono; [by apply (entryAt_static V)|].
    intros e n1 [-> [-> _]%cfgfree_kind]. by wlp_pures.
  - intros [o w] n1 [-> [= -> ->]]. wlp_pures. split; [done|]. unfold quorum.
    by rewrite orb_true_l, andb_true_r.
Qed.

(** The bits of an acknowledgement mask are the node and peers that matched. *)
Lemma ackedMask_wlp idx n :
  wlp (ackedMask idx) (fun acks n' => n' = n /\ forall b, Z.testbit acks b = true ->
    b + 1 = n_ID n \/ exists k, b + 1 ∈ n_Peers n /\ n_match n !! (b + 1) = Some k /\ idx <= k \/ idx <= 0) n.
Proof.
  unfold ackedMask. wlp_pures. wlp_call bitOf_wlp. intros bit n1 [-> Hbit].
  apply (wlp_foldM (fun acks n' => n' = n /\ forall b, Z.testbit acks b = true ->
    b + 1 = n_ID n \/ exists k, b + 1 ∈ n_Peers n /\ n_match n !! (b + 1) = Some k /\ idx <= k \/ idx <= 0)).
  { split; [done|]. intros b Hb%Hbit. left. lia. }
  intros acks p n1 Hp [-> IH]. destruct (Z.leb_spec idx (mapGet (n_match n) p)) as [Hle|]; wlp_pures; [|done].
  wlp_call bitOf_wlp. intros pb n1 [-> Hpb]. wlp_pures. split; [done|].
  intros b Hb. rewrite Z.lor_spec in Hb. apply orb_prop in Hb as [Hb|Hb%Hpb]; [by apply IH|]. right.
  unfold mapGet in Hle. replace (b + 1) with p by lia. destruct (n_match n !! p) as [k|]; cbn in Hle.
  - exists k. by left.
  - exists 0. by right.
Qed.

Lemma isVoter_wlp id n : static V n -> wlp (isVoter id) (fun _ n' => n' = n) n.
Proof. intros Hs. eapply wlp_mono; [by apply (isVoter_read V)|]. by intros ? ? [-> _]. Qed.

(** ** What a leader sends *)

Lemma committed_le g T k k' l : committed V g T k l -> (k' <= k)%nat -> committed V g T k' l.
Proof.
  intros [->|(t & i & H1 & H2 & H3 & (m & Hm & Hs))] Hk; [left; lia|]. right. exists t, i.
  split_and!; [done|lia|done|]. exists m. split; [done|by apply (share_le k)].
Qed.

Lemma backed_other g m :
  m_Type m <> MsgAppend -> m_Type m <> MsgInstallSnapshot -> m_Type m <> MsgRequestVote ->
  (m_Type m = MsgAppendResponse \/ m_Type m = MsgInstallSnapshotResponse -> m_Reject m = true) -> backedMsg g m.
Proof. intros ??? Ha. split; try done. intros Hty Hr. specialize (Ha Hty). congruence. Qed.

Lemma logged_rep g j n F D nx : logged g j n F D -> logged g j (n <| n_next := nx |>) F D.
Proof. intros H. lg_upd H. Qed.

(** A node that only sent messages. *)
Definition sent g j n F D n' : Prop := logged g j n' F D /\ exists nx out, n' = repUpd n nx out.

Lemma repUpd_self n : repUpd n (n_next n) (n_outbound n) = n.
Proof. by destruct n. Qed.

Lemma sent_refl g j n F D : logged g j n F D -> sent g j n F D n.
Proof. intros H. split; [done|]. exists (n_next n), (n_outbound n). by rewrite repUpd_self. Qed.

Lemma send_sent g j n F D n1 m :
  sent g j n F D n1 -> backedMsg g m -> wlp (send m) (fun _ n' => sent g j n F D n') n1.
Proof.
  intros [H1 (nx & out & ->)] Hm. wlp_call send_wlp. intros _ n' ->. split; [by apply logged_out|].
  by exists nx, (out ++ [m]).
Qed.

Lemma lead_append g j n F D :
  logged g j n F D -> n_State n = Leader -> g_log g !! n_Term n = Some F /\ announced V g (n_Term n) (Z.to_nat (n_Commit n)).
Proof. intros H Hst. split; [by apply (lg_leader _ _ _ _ _ H)|]. eapply committed_announced, lg_commit, H. Qed.

Lemma snapshot_backed g j n F D p :
  logged g j n F D -> n_State n = Leader ->
  backedMsg g (newMessage MsgInstallSnapshot (n_ID n) p (n_Term n)
    <| m_SnapshotIndex := s_LastIndex (n_snapshot n) |> <| m_SnapshotTerm := s_LastTerm (n_snapshot n) |>
    <| m_Snapshot := s_State (n_snapshot n) |> <| m_SnapshotOld := s_OldVoters (n_snapshot n) |>
    <| m_SnapshotNew := s_NewVoters (n_snapshot n) |>).
Proof.
  intros H Hst. destruct (lead_append _ _ _ _ _ H Hst) as [HF _]. destruct (lg_snap _ _ _ _ _ H) as (Hi & _ & Ht).
  pose proof (rp_base _ _ _ (lg_mem _ _ _ _ _ H)) as Hb.
  split; try done; [|by intros [? | ?]]. intros _. exists F, (Z.to_nat (n_BaseIndex n)). cbn. split_and!; [done| |done|].
  - lia.
  - eapply committed_announced, committed_le; [apply (lg_commit _ _ _ _ _ H)|].
    pose proof (lg_base _ _ _ _ _ H). lia.
Qed.

Lemma append_backed g j n F D p ctx k t (he : bool) e :
  logged g j n F D -> n_State n = Leader -> termOf F k = Some t -> (he = true -> F !! S k = Some e) ->
  backedMsg g (newMessage MsgAppend (n_ID n) p (n_Term n) <| m_LogIndex := Z.of_nat k |> <| m_LogTerm := t |>
    <| m_Commit := n_Commit n |> <| m_Context := ctx |> <| m_Entry := e |> <| m_HasEntry := he |>).
Proof.
  intros H Hst Ht He. destruct (lead_append _ _ _ _ _ H Hst) as [HF Ha].
  split; try done; [|by intros [? | ?]]. intros _. exists F, k. cbn. by split_and!.
Qed.

Lemma appendToContext_log g j n n1 F D p ctx :
  sent g j n F D n1 -> n_State n = Leader -> wlp (appendToContext p ctx) (fun _ n' => sent g j n F D n') n1.
Proof.
  intros Hs1 Hst. unfold appendToContext. wlp_pures.
  destruct (Z.leb_spec (mapGet (n_next n1) p) (n_BaseIndex n1)) as [Hle|Hgt].
  { apply send_sent; [done|]. destruct Hs1 as [H1 (nx & out & ->)]. by eapply (snapshot_backed g j (repUpd n nx out) F D). }
  assert (0 <= n_BaseIndex n1) as Hb by (eapply rp_base, lg_mem, Hs1).
  assert (len F <= maxu64) as Hlen by (eapply lg_len, Hs1). rewrite (lg_next _ _ _ _ _ (proj1 Hs1)).
  wlp_pures. apply (wlp_mono _ (fun next n2 => sent g j n F D n2 /\ n_BaseIndex n2 < next <= len F)).
  { destruct (Z.ltb_spec (len F) (mapGet (n_next n1) p)) as [Hlt|Hge]; wlp_pures; [|done].
    destruct Hs1 as [H1 (nx & out & ->)]. split; [|nsimp; pose proof (lg_top _ _ _ _ _ H1); pose proof (rp_ne _ _ _ (lg_mem _ _ _ _ _ H1)); unfold top, len in *; nsimp_all; lia].
    split; [by apply logged_rep|]. by eexists _, out. }
  intros next n2 [Hs2 Hnext].
  assert (n_BaseIndex n2 = n_BaseIndex n1) as Eb.
  { destruct Hs1 as [_ (? & ? & ->)], Hs2 as [_ (? & ? & ->)]. done. }
  assert ((if next =? 0 then 1 else next) = next) as -> by (destruct (Z.eqb_spec next 0); lia).
  rewrite w64_small by (unfold is_u64, maxu64 in *; lia). wlp_pures.
  unfold termAtMust. wlp_pures. destruct (termAt n2 (next - 1)) as [t|] eqn:Et; wlp_pures.
  destruct (lg_termAt _ _ _ _ _ _ _ (proj1 Hs2) Et) as [Hr Ht].
  assert (lastIndex n1 = lastIndex n2) as Elast.
  { by rewrite (lg_last _ _ _ _ _ (proj1 Hs1)), (lg_last _ _ _ _ _ (proj1 Hs2)). }
  replace (next - 1) with (Z.of_nat (Z.to_nat (next - 1))) by lia.
  destruct (next <? len F); wlp_pures.
  - unfold entryAt. wlp_pures. destruct (offset n2 next) as [off|] eqn:Eo; wlp_pures.
    destruct (lg_offset _ _ _ _ _ _ _ (proj1 Hs2) Eo) as (_ & _ & _ & He). specialize (He ltac:(lia)).
    apply send_sent; [done|].
    destruct Hs1 as [H1 (nx & out & ->)].
    eapply (append_backed g j (repUpd n nx out) F D p ctx (Z.to_nat (next - 1)) t true); [done..|].
    intros _. rewrite <- He. f_equal. lia.
  - apply send_sent; [done|]. destruct Hs1 as [H1 (nx & out & ->)].
    eapply (append_backed g j (repUpd n nx out) F D p ctx (Z.to_nat (next - 1)) t false zeroEntry); [done..|by intros ?].
Qed.

Lemma broadcastAppend_log g j n n1 F D :
  sent g j n F D n1 -> n_State n = Leader -> wlp broadcastAppend (fun _ n' => sent g j n F D n') n1.
Proof.
  intros Hs1 Hst. unfold broadcastAppend. wlp_pures. apply (wlp_forM_ (fun n' => sent g j n F D n')); [done|].
  intros p n2 _ Hs2. wlp_pures. wlp_call isVoter_wlp; [apply (lg_sound _ _ _ _ _ (proj1 Hs2))|].
  intros v n2' ->. destruct v; wlp_pures; [|done]. by apply appendToContext_log.
Qed.

(** ** Growing the history *)

Record extends (j : Z) (g g' : history) : Prop := {
  ex_hist : Hist V g';
  ex_grows : grows g g';
  ex_spares : forall i, i <> j -> spares i g g'
}.

Lemma extends_refl j g : Hist V g -> extends j g g.
Proof. intros H. split; [done|apply grows_refl|intros; apply spares_refl]. Qed.

Lemma extends_trans j g1 g2 g3 : extends j g1 g2 -> extends j g2 g3 -> extends j g1 g3.
Proof.
  intros [] []. split; [done|by eapply grows_trans|]. intros i Hi. eapply spares_trans; eauto.
Qed.

Lemma lg_synced g j n F D :
  logged g j n F D -> n_Faulted n = false ->
  h_Term (hardOf n) = n_Term n /\ h_VotedFor (hardOf n) = n_VotedFor n.
Proof. intros H Hf. by apply (so_synced _ _ (lg_sound _ _ _ _ _ H)). Qed.

(** Saving the current term and vote with another commit index. *)
Lemma persist_log g j n F D h :
  logged g j n F D -> n_Faulted n = false -> h_Term h = n_Term n -> h_VotedFor h = n_VotedFor n ->
  n_Commit n <= h_Commit h -> committed V g (n_Term n) (Z.to_nat (h_Commit h)) F ->
  wlp (persistHardState h) (fun (ok : bool) n' => logged g j n' F D /\
    exists s, if ok then n' = n <| n_store := s |> else exists e, n' = faultUpd n s (Some e)) n.
Proof.
  intros H Hf Ht Hv Hle Hc. eapply wlp_mono; [apply wp_wlp, persistHardState_wp|]. intros ok n' (s & Hs).
  destruct (lg_synced _ _ _ _ _ H Hf) as [Et Ev].
  assert (forall r, SaveHardState h (n_store n) = (s, r) -> onDisk g j s D /\ (r = None -> durable s = h)) as Hd.
  { intros r Hr. eapply onDisk_save; [done..|lia|done|by rewrite Ht|]. rewrite Ht, Hv. apply (lg_vote _ _ _ _ _ H). }
  destruct ok.
  - destruct Hs as [Hs ->]. destruct (Hd _ Hs) as [[] E]. specialize (E eq_refl).
    split; [|by exists s]. destruct H. split; try assumption.
    + destruct lg_sound0 as [[] ? ? ? ?]. split; try assumption; [by split|..]; unfold ahead, synced; nsimp; rewrite E, Ht, Hv; auto.
    + intros Hf'. destruct (lg_same0 Hf') as [E1 E2]. split; [done|]. intros b l Hi. eapply E2. by eapply image_save.
  - destruct Hs as (e & Hs & ->). destruct (Hd _ Hs) as [Hd' _]. split; [|by exists s, e].
    eapply logged_fault; [done..|]. apply durable_save_err in Hs.
    unfold ahead, hardOf in *. nsimp. destruct Hs as [-> | ->]; right; [split; [done|by left]|]. rewrite Ht, Hv. auto.
Qed.

(** What the acting node must recheck when the history grows. *)
Record ownPart (g : history) (j : Z) n (F D : list Entry) : Prop := {
  op_kept : kept g j (h_Term (hardOf n) + 1) (h_Term (hardOf n)) D;
  op_acks : forall t k, (j, t, k) ∈ g_acks g -> t <= n_Term n;
  op_leader : n_State n = Leader -> g_log g !! n_Term n = Some F /\ exists mask, g_by g !! n_Term n = Some (j, mask);
  op_cand : n_State n = Candidate -> g_cand g !! (n_Term n, j) = Some F /\
    forall l mask, g_log g !! n_Term n = Some l -> g_by g !! n_Term n = Some (j, mask) -> False;
  op_cands : forall T F', g_cand g !! (T, j) = Some F' -> T <= n_Term n;
  op_vote : voteFine g j (n_Term n) (n_VotedFor n);
  op_dvote : voteFine g j (h_Term (hardOf n)) (h_VotedFor (hardOf n));
  op_voted : forall T w, (j, T, w) ∈ g_votes g -> w <> 0 -> T < n_Term n \/ T = n_Term n /\ n_VotedFor n = w
}.

Lemma logged_own g g' j n F D : grows g g' -> logged g j n F D -> ownPart g' j n F D -> logged g' j n F D.
Proof.
  intros Hg H []. destruct H. split; try assumption.
  - by eapply okLog_grows.
  - by eapply committed_grows; [|reflexivity|].
  - by eapply okLog_grows.
  - by eapply committed_grows; [|reflexivity|].
  - intros b l Hi. destruct (lg_image0 b l Hi). split; [done|]. by eapply committed_grows; [|reflexivity|].
  - intros m Hm. eapply backedMsg_grows; [done|by apply lg_out0].
Qed.

Lemma logged_grows g g' i n F D :
  Hist V g -> grows g g' -> spares i g g' -> logged g i n F D -> logged g' i n F D.
Proof.
  intros HH Hg Hs H. eapply logged_own; [done..|]. destruct H. split.
  - eapply kept_grows; [done..|]. intros. by eapply acked_spares.
  - intros t k Hin%Hs. by eapply lg_acks0.
  - intros Hst. destruct (lg_leader0 Hst) as (H1 & mask & H2).
    pose proof (gr_by _ _ Hg _ _ H1) as E. rewrite H2 in E. destruct (sp_by _ _ _ Hs _ _ E) as [_ E'].
    rewrite E'. split; [done|by exists mask].
  - intros Hst. destruct (lg_cand0 Hst) as [H1 H2]. split; [eapply lookup_weaken; [done|apply Hg]|].
    intros l mask Hl Hm. apply (sp_by _ _ _ Hs) in Hm as [Hm E]. rewrite E in Hl. by eapply H2.
  - intros T F' HF%Hs. by eapply lg_cands0.
  - eapply voteFine_grows; [done..| | |done]; intros; by apply Hs.
  - eapply voteFine_grows; [done..| | |done]; intros; by apply Hs.
  - intros T w Hin%Hs. by apply lg_voted0.
Qed.

(** A node tells the leader of its term what it holds of its log. *)
Lemma logged_ack g j n F D gl k :
  Hist V g -> logged g j n F D -> n_Faulted n = false -> g_log g !! n_Term n = Some gl -> share k F gl ->
  extends j g (addAck j (n_Term n) k g) /\ logged (addAck j (n_Term n) k g) j n F D.
Proof.
  intros HH H Hf Hgl Hs. destruct (lg_synced _ _ _ _ _ H Hf) as [Et Ev]. destruct (lg_same _ _ _ _ _ H Hf) as [-> Him].
  assert (Hist V (addAck j (n_Term n) k g)) as HH'.
  { eapply addAck_hist; [done..|apply Hs|]. intros T w Hin Hw.
    destruct (lg_voted _ _ _ _ _ H T w Hin Hw) as [?|[? _]]; lia. }
  pose proof (addAck_grows j (n_Term n) k g) as Hg.
  assert (forall t i, (j, t, i) ∈ g_acks (addAck j (n_Term n) k g) -> t < n_Term n -> (j, t, i) ∈ g_acks g) as Hback.
  { intros t i [[= -> ->]|Hin]%elem_of_cons Hlt; [lia|done]. }
  assert (kept (addAck j (n_Term n) k g) j (n_Term n + 1) (n_Term n) F) as Hk.
  { intros t i [Ha|(_ & -> & Hi)]%acked_addAck Ho Hlt.
    - pose proof (lg_kept _ _ _ _ _ H) as Hk. unfold hardOf in *. rewrite Et in Hk.
      destruct (Hk t i Ha Ho Hlt) as [Hc|(u & Hu & Hl)]; [by left|right; by exists u].
    - left. exists gl. split; [done|]. by apply (share_le k). }
  split.
  - split; [done..|]. intros i Hi. split; try done. intros t i'. cbn. intros [[= ? ? ?]|Hin]%elem_of_cons; [done|done].
  - eapply logged_own; [done..|]. destruct H. unfold hardOf in *.
    split; try assumption; unfold hardOf; rewrite ?Et, ?Ev in *; try assumption.
    + intros t i [[= -> ->]|Hin]%elem_of_cons; [lia|by eapply lg_acks0].
    + apply (voteFine_grows g); [done|done|exact Hback|by intros|done].
    + apply (voteFine_grows g); [done|done|exact Hback|by intros|done].
Qed.

(** ** Changing the log *)

(** [n'] differs from [n] at most in its log, its store and its role. *)
Record sameButLog n n' : Prop := {
  sb_id : n_ID n' = n_ID n;
  sb_term : n_Term n' = n_Term n;
  sb_vote : n_VotedFor n' = n_VotedFor n;
  sb_base : n_BaseIndex n' = n_BaseIndex n;
  sb_bterm : n_BaseTerm n' = n_BaseTerm n;
  sb_commit : n_Commit n' = n_Commit n;
  sb_applied : n_Applied n' = n_Applied n;
  sb_snap : n_snapshot n' = n_snapshot n;
  sb_durable : hardOf n' = hardOf n;
  sb_out : n_outbound n' ⊆ n_outbound n
}.

(** What a change of log must keep. *)
Record keepsLog (g : history) (T : Z) (F F' : list Entry) : Prop := {
  kl_ok : okLog g F';
  kl_terms : termsUpTo T F';
  kl_len : len F' <= maxu64;
  kl_commit : forall k, committed V g T k F -> committed V g T k F'
}.

Lemma keepsLog_self g j n F D : logged g j n F D -> keepsLog g (n_Term n) F F.
Proof. intros H. by split; [apply H..|]. Qed.

Lemma lg_kept_now g j n F D :
  logged g j n F D -> n_Faulted n = false -> kept g j (n_Term n + 1) (n_Term n) F.
Proof.
  intros H Hf. destruct (lg_synced _ _ _ _ _ H Hf) as [<- _]. destruct (lg_same _ _ _ _ _ H Hf) as [<- _]. apply H.
Qed.

Lemma logged_change g j n F D n' F' D' :
  logged g j n F D -> n_Faulted n = false -> sameButLog n n' -> sound V n' ->
  represents F' (n_BaseIndex n) (n_Log n') -> keepsLog g (n_Term n) F F' ->
  termOf F' (Z.to_nat (n_BaseIndex n)) = termOf F (Z.to_nat (n_BaseIndex n)) ->
  keepsLog g (n_Term n) F D' -> kept g j (n_Term n + 1) (n_Term n) D' ->
  (forall b l, image (n_store n') = Some (b, l) -> b = n_BaseIndex n /\ represents D' b l) ->
  (n_Faulted n' = false -> D' = F') ->
  (n_State n' = Leader -> g_log g !! n_Term n = Some F' /\ exists mask, g_by g !! n_Term n = Some (j, mask)) ->
  (n_State n' = Candidate -> n_State n = Candidate /\ F' = F) -> logged g j n' F' D'.
Proof.
  intros H Hf [] Hs Hr HF Hb HD Hk Hi Hsame Hl Hc. destruct (lg_synced _ _ _ _ _ H Hf) as [Et Ev].
  destruct (lg_same _ _ _ _ _ H Hf) as [-> _]. destruct H, HF, HD.
  split; rewrite ?sb_id0, ?sb_term0, ?sb_vote0, ?sb_base0, ?sb_bterm0, ?sb_commit0, ?sb_applied0, ?sb_snap0, ?sb_durable0,
    ?Et, ?Ev, ?Hb in *; try assumption; auto.
  - intros b l Hi'. destruct (Hi b l Hi') as [-> Hr']. split; [done|]. apply kl_commit1.
    eapply committed_le; [exact lg_commit0|]. lia.
  - intros Hf'. split; [auto|]. intros b l Hi'. by apply (Hi b l).
  - intros Hst. destruct (Hc Hst) as [Hst' ->]. auto.
Qed.

(** What the store has after an append, whether or not it reported an error. *)
Lemma store_append g j n F D i e s r :
  logged g j n F D -> n_Faulted n = false -> n_BaseIndex n < i <= len F ->
  Append i e (n_store n) = (s, r) ->
  durable s = durable (n_store n) /\
  ((forall b l, image s = Some (b, l) -> b = n_BaseIndex n /\ represents (take (Z.to_nat i) F ++ [e]) b l) \/
   r <> None /\ forall b l, image s = Some (b, l) -> b = n_BaseIndex n /\ represents F b l).
Proof.
  intros H Hf Hi HA. destruct (lg_same _ _ _ _ _ H Hf) as [-> Hb]. split.
  { pose proof (durable_append i e (n_store n)) as E. by rewrite HA in E. }
  destruct (image s) as [[b0 l0]|] eqn:Em; [|by left].
  destruct (image_append _ _ _ _ _ _ _ HA Em) as (l1 & Hl1 & Hcase).
  specialize (Hb b0 l1 Hl1). subst b0. destruct (lg_image _ _ _ _ _ H _ _ Hl1) as [Hr _].
  pose proof (rp_len _ _ _ Hr) as Hlen. pose proof (rp_base _ _ _ Hr). unfold len in *.
  destruct (Hcase ltac:(lia)) as [->|[Hne ->]].
  - left. intros b l [= <- <-]. split; [done|]. apply rp_snoc.
    replace (Z.to_nat i) with (Z.to_nat (n_BaseIndex n) + Z.to_nat (i - n_BaseIndex n))%nat by lia.
    apply rp_take; [done|lia].
  - right. split; [done|]. by intros b l [= <- <-].
Qed.

Lemma keepsLog_follow g j n F D gl i :
  is_u64 V -> Hist V g -> logged g j n F D -> g_log g !! n_Term n = Some gl -> (i < length gl)%nat ->
  keepsLog g (n_Term n) F (follow i F gl).
Proof.
  intros Hu HH H Hgl Hi. pose proof (lg_ok _ _ _ _ _ H) as Hok. split.
  - by eapply okLog_follow.
  - eapply terms_follow; [done..|apply H].
  - destruct (follow_cases V g i F gl _ HH Hok Hgl Hi) as [[_ ->]|[_ ->]]; [apply H|].
    pose proof (h_len _ _ HH _ _ Hgl). unfold len in *. rewrite length_take. lia.
  - intros k Hc. by eapply committed_follow.
Qed.

(** Cutting off what conflicts with the leader keeps what is committed. *)
Lemma keepsLog_cut g j n F D gl k :
  is_u64 V -> Hist V g -> logged g j n F D -> g_log g !! n_Term n = Some gl -> ~ share (S k) F gl ->
  keepsLog g (n_Term n) F (take (S k) F).
Proof.
  intros Hu HH H Hgl Hn. pose proof (lg_ok _ _ _ _ _ H) as Hok. split.
  - by apply okLog_take.
  - intros i t Ht. apply termOf_lt in Ht as Hlt. rewrite length_take in Hlt. unfold termOf in Ht.
    rewrite lookup_take_lt in Ht by lia. by apply (lg_terms _ _ _ _ _ H i).
  - pose proof (lg_len _ _ _ _ _ H). unfold len in *. rewrite length_take. lia.
  - intros c Hc. pose proof (committed_leader V g _ c F gl Hu HH Hok Hgl Hc) as Hs.
    assert (c <= k)%nat as Hck.
    { destruct (Nat.lt_ge_cases k c) as [|]; [|done]. destruct Hn. by apply (share_le c). }
    destruct Hc as [->|(t & k' & H1 & H2 & H3 & (l & Hl & Hsl))]; [by left|]. right. exists t, k'.
    split_and!; [done..|]. exists l. split; [done|]. by apply share_take.
Qed.

(** ** Replication, follower side *)

Lemma sound_log n l pc :
  sound V n -> Forall (fun e => cfgfree e = true) l -> sound V (n <| n_Log := l |> <| n_pendingConfig := pc |>).
Proof. intros [[] ? ? ? ?] Hl. split; try assumption. by split. Qed.

Lemma sound_store n s : sound V n -> durable s = hardOf n -> sound V (n <| n_store := s |>).
Proof.
  intros [[] Ha Hs ? ?] Es. unfold hardOf in *. split; try assumption; [by split|..]; unfold ahead, synced in *; nsimp; by rewrite Es.
Qed.

Lemma sound_fault n s e : sound V n -> durable s = hardOf n -> sound V (faultUpd n s e).
Proof.
  intros [[] Ha Hs ? ?] Es. unfold hardOf in *. split; try done. unfold ahead in *. nsimp. by rewrite Es.
Qed.

Lemma take_snoc_leader F gl k e :
  share k F gl -> gl !! S k = Some e -> take (S k) F ++ [e] = take (S (S k)) gl.
Proof. intros (_ & _ & ->) He. symmetry. by apply take_S_r. Qed.

(** What an append leaves behind. *)
Definition followed g j n F gl (i : nat) (ok : bool) n' : Prop :=
  exists F' D', logged g j n' F' D' /\ sameButLog n n' /\ (n_State n' = n_State n \/ n_State n' = Follower) /\
    (ok = true -> n_Faulted n' = false /\ F' = follow i F gl).

Lemma storeAppend_log g j n F D gl k e l1 pc :
  is_u64 V -> Hist V g -> logged g j n F D -> n_Faulted n = false -> n_State n = Follower ->
  g_log g !! n_Term n = Some gl -> share k F gl -> ~ share (S k) F gl -> gl !! S k = Some e -> cfgfree e = true ->
  n_BaseIndex n <= Z.of_nat k ->
  represents (take (S k) F) (n_BaseIndex n) l1 -> Forall (fun e => cfgfree e = true) l1 ->
  let n1 := n <| n_Log := l1 |> <| n_pendingConfig := pc |> in
  wlp (err ← storeOp (Append (Z.of_nat (S k)) e);
       match err with
       | Some err => failStorageWith err ;; mret false
       | None => modify (fun n => n <| n_Log := n_Log n ++ [e] |>) ;; mret () ;; mret true
       end) (fun ok n' => followed g j n F gl (S k) ok n') n1.
Proof.
  intros Hu HH H Hf Hst Hgl Hs Hns He Hcf Hb Hr Hl1 n1. subst n1. wlp_pures. unfold storeOp. unfold wlp at 1.
  pose proof (lg_ok _ _ _ _ _ H) as Hok. pose proof Hs as (HkF & _ & _).
  apply lookup_lt_Some in He as HkG.
  nsimp. destruct (Append _ e (n_store n)) as [s r] eqn:HA.
  destruct (store_append _ _ _ _ _ (Z.of_nat (S k)) _ _ _ H Hf ltac:(unfold len; lia) HA) as [Ed Him].
  rewrite Nat2Z.id, (take_snoc_leader F gl k e Hs He) in Him.
  assert (follow (S k) F gl = take (S (S k)) gl) as Efol.
  { by destruct (follow_cases V g (S k) F gl _ HH Hok Hgl HkG) as [[? _]|[_ ->]]. }
  pose proof (keepsLog_follow _ _ _ _ _ _ _ Hu HH H Hgl HkG) as Hkl. rewrite Efol in Hkl.
  pose proof (kept_follow V g j (S k) F gl _ HH Hok Hgl HkG (lg_kept_now _ _ _ _ _ H Hf)) as Hkp. rewrite Efol in Hkp.
  pose proof (keepsLog_cut _ _ _ _ _ _ _ Hu HH H Hgl Hns) as Hcut.
  assert (termOf (take (S k) F) (Z.to_nat (n_BaseIndex n)) = termOf F (Z.to_nat (n_BaseIndex n))) as Eb1.
  { unfold termOf. by rewrite lookup_take_lt by lia. }
  assert (termOf (take (S (S k)) gl) (Z.to_nat (n_BaseIndex n)) = termOf F (Z.to_nat (n_BaseIndex n))) as Eb2.
  { rewrite (share_term k (Z.to_nat (n_BaseIndex n)) F gl Hs) by lia. unfold termOf. by rewrite lookup_take_lt by lia. }
  destruct r as [err|].
  - assert (exists D', keepsLog g (n_Term n) F D' /\ kept g j (n_Term n + 1) (n_Term n) D' /\
      forall b l, image s = Some (b, l) -> b = n_BaseIndex n /\ represents D' b l) as (D' & Hd1 & Hd2 & Hd3).
    { destruct Him as [Him|[_ Him]]; [by exists (take (S (S k)) gl)|]. exists F.
      split; [by eapply keepsLog_self|]. split; [by eapply lg_kept_now|done]. }
    wlp_pures. eapply wlp_mono; [apply wp_wlp, failStorageWith_wp|]. intros _ n' ->. wlp_pures.
    exists (take (S k) F), D'. split; [|split; [split; try done; nsimp; set_solver|split; [by right|done]]].
    eapply logged_change; try done; nsimp.
    + split; try done; nsimp; set_solver.
    + apply (sound_fault (n <| n_Log := l1 |> <| n_pendingConfig := pc |>)); [apply sound_log; [apply H|done]|done].
  - destruct Him as [Him|[? _]]; [|done]. wlp_pures.
    exists (take (S (S k)) gl), (take (S (S k)) gl). split; [|split; [by split|split; [by left|by rewrite Efol]]].
    eapply logged_change; try done; nsimp.
    + assert (sound V (n <| n_store := s |> <| n_Log := l1 ++ [e] |> <| n_pendingConfig := pc |>)) as Hsd.
      { apply sound_log; [apply sound_store; [apply H|done]|].
        apply Forall_app. split; [done|by apply Forall_singleton]. }
      exact Hsd.
    + rewrite <- (take_snoc_leader F gl k e Hs He). by apply rp_snoc.
    + by rewrite Hst.
    + by rewrite Hst.
Qed.

Lemma sameButLog_refl n : sameButLog n n.
Proof. by split. Qed.

Lemma appendEntry_log g j n F D gl k m :
  is_u64 V -> Hist V g -> logged g j n F D -> n_Faulted n = false -> n_State n = Follower ->
  g_log g !! n_Term n = Some gl -> share k F gl -> m_LogIndex m = Z.of_nat k -> n_BaseIndex n <= Z.of_nat k ->
  gl !! S k = Some (m_Entry m) -> cfgfree (m_Entry m) = true ->
  wlp (appendEntry m) (fun ok n' => followed g j n F gl (S k) ok n') n.
Proof.
  intros Hu HH H Hf Hst Hgl Hs Hm Hb He Hcf. pose proof (lg_ok _ _ _ _ _ H) as Hok.
  apply lookup_lt_Some in He as HkG. pose proof Hs as (HkF & _ & _).
  pose proof (h_len _ _ HH _ _ Hgl) as Hmax. unfold appendEntry. wlp_pures.
  rewrite Hm, w64_small by (unfold is_u64, maxu64, len in *; lia).
  replace (Z.of_nat k + 1) with (Z.of_nat (S k)) by lia.
  destruct (cfgfree_kind _ Hcf) as [-> ->]. cbn [orb].
  pose proof (lg_mem _ _ _ _ _ H) as Hr. pose proof (rp_base _ _ _ Hr) as Hb0. pose proof (rp_len _ _ _ Hr) as HlenF.
  assert (termOf gl (S k) = Some (e_Term (m_Entry m))) as Htg by (unfold termOf; by rewrite He).
  pose proof (st_log _ _ (so_static _ _ (lg_sound _ _ _ _ _ H))) as Hcfl.
  destruct (offset n (Z.of_nat (S k))) as [off|] eqn:Eo.
  - destruct (lg_offset _ _ _ _ _ _ _ H Eo) as (Hrange & -> & Hterm & _). rewrite Nat2Z.id in Hterm.
    destruct (Z.eqb_spec (e_Term (logAt n (Z.of_nat (S k) - n_BaseIndex n))) (e_Term (m_Entry m))) as [Et|Et];
      cbn [negb].
    + wlp_pures. rewrite (lg_next _ _ _ _ _ H). destruct (Z.eqb_spec (Z.of_nat (S k)) (len F)); [lia|]. wlp_pures.
      exists F, D. split; [done|]. split; [apply sameButLog_refl|]. split; [by left|]. intros _. split; [done|].
      unfold follow. rewrite bool_decide_true; [done|]. congruence.
    + assert (~ share (S k) F gl) as Hns.
      { intros Hs'. pose proof (share_term (S k) (S k) F gl Hs' ltac:(lia)) as E. congruence. }
      set (off := Z.to_nat (Z.of_nat (S k) - n_BaseIndex n)).
      set (n1 := n <| n_Log := take off (n_Log n) |>).
      assert (represents (take (S k) F) (n_BaseIndex n) (take off (n_Log n))) as Hr1.
      { replace (S k) with (Z.to_nat (n_BaseIndex n) + off)%nat by lia. apply rp_take; [done|lia]. }
      assert (static V n1) as Hst1.
      { destruct (so_static _ _ (lg_sound _ _ _ _ _ H)). split; try assumption. by apply Forall_take. }
      assert (wf_log (pendUpd n1 0)) as Hw.
      { pose proof (lg_wf_log _ _ _ _ _ H) as (_ & _ & Hmx). pose proof (rp_ne _ _ _ Hr1) as Hne.
        split_and!; unfold pendUpd, n1; nsimp; [|done|].
        - intros E. rewrite E in Hne. cbn in Hne. lia.
        - unfold len in *. rewrite length_take. lia. }
      wlp_pures. eapply wlp_mono; [by apply rebuildPendingConfig_wlp|]. intros _ n2 ->. wlp_pures.
      fold n1. rewrite (nextIndex_wf _ Hw). unfold pendUpd, n1. nsimp.
      destruct (Z.eqb_spec (Z.of_nat (S k)) (n_BaseIndex n + len (take off (n_Log n)))) as [_|Hne].
      2: { destruct Hne. unfold len in *. rewrite length_take. lia. }
      eapply (storeAppend_log g j n F D gl k (m_Entry m) (take off (n_Log n)) 0); try done.
      by apply Forall_take.
  - rewrite offset_wf in Eo by (by eapply lg_wf_log). case_decide as Hno; [done|].
    pose proof (lg_top _ _ _ _ _ H) as Htop. unfold top in Htop.
    assert (len F = Z.of_nat (S k)) as Elen by (unfold len in *; lia).
    wlp_pures. rewrite (lg_next _ _ _ _ _ H), Elen, Z.eqb_refl.
    assert (take (S k) F = F) as EF by (apply take_ge; unfold len in *; lia).
    assert (n = n <| n_Log := n_Log n |> <| n_pendingConfig := n_pendingConfig n |>) as En by by destruct n.
    pose proof (storeAppend_log g j n F D gl k (m_Entry m) (n_Log n) (n_pendingConfig n)) as HS.
    cbn zeta in HS. rewrite <- En, EF in HS. apply HS; try done. intros (Hc & _). unfold len in *. lia.
Qed.

Lemma announced_le g T k k' : announced V g T k -> (k' <= k)%nat -> announced V g T k'.
Proof. intros [->|(t & i & H1 & H2 & H3)] Hk; [left; lia|]. right. exists t, i. split_and!; [done|lia|done]. Qed.

(** Raising the commit index, once it is saved. *)
Lemma raiseCommit_log g j n F D c first :
  logged g j n F D -> n_Faulted n = false -> n_Commit n <= c -> committed V g (n_Term n) (Z.to_nat c) F ->
  wlp (ok ← persistHardState (mkHardState (n_Term n) (n_VotedFor n) c);
       if ok : bool then
         modify (fun n => n <| n_Commit := c |>) ;; applyCommittedConfigurations first c ;; mret true
       else mret false)
    (fun ok n' => logged g j n' F D /\ exists s,
       if ok : bool then exists pc, n' = pendUpd (n <| n_store := s |> <| n_Commit := c |>) pc
       else exists e, n' = faultUpd n s (Some e)) n.
Proof.
  intros H Hf Hc Hcm. wlp_pures. eapply wlp_mono; [by eapply persist_log|]. intros ok n1 (H1 & s & Hn1).
  destruct ok; wlp_pures; [|by split; [|exists s]]. subst n1.
  assert (logged g j (n <| n_store := s |> <| n_Commit := c |>) F D) as H2 by by apply logged_commit.
  eapply wlp_mono; [apply applyConfigurations_wlp, (lg_sound _ _ _ _ _ H2)|]. intros _ n2 [pc ->]. wlp_pures.
  split; [by apply logged_pend|]. by exists s, pc.
Qed.

Lemma appendCommit_log g j n F D gl q m :
  is_u64 V -> Hist V g -> logged g j n F D -> n_Faulted n = false -> g_log g !! n_Term n = Some gl ->
  share q F gl -> Z.of_nat q = matchedIndex m -> (m_HasEntry m = true -> w64 (m_LogIndex m + 1) = m_LogIndex m + 1) ->
  announced V g (n_Term n) (Z.to_nat (m_Commit m)) ->
  wlp (appendCommit m) (fun ok n' => logged g j n' F D /\ n_Term n' = n_Term n /\
    (n_State n' = n_State n \/ n_State n' = Follower) /\ (ok = true -> n_Faulted n' = false)) n.
Proof.
  intros Hu HH H Hf Hgl Hs Hq Hw Ha. unfold appendCommit. wlp_pures.
  destruct (_ && _) eqn:Ec; [|wlp_pures; by auto].
  apply andb_prop in Ec as [E1%Z.ltb_lt E2]. unfold matchedIndex in Hq.
  set (matched := if m_HasEntry m then w64 (m_LogIndex m + 1) else m_LogIndex m).
  assert (matched = Z.of_nat q) as Em.
  { unfold matched. destruct (m_HasEntry m); [by rewrite Hw|done]. }
  assert (n_Commit n < matched) as Hlt.
  { unfold matched. apply orb_prop in E2 as [E2%Z.ltb_lt|[E2 E3%Z.ltb_lt]%andb_prop].
    - destruct (m_HasEntry m); [|done]. rewrite Hw by done. lia.
    - by rewrite E2. }
  eapply wlp_mono.
  - apply (raiseCommit_log g j n F D (Z.min (m_Commit m) matched)); [done..|lia|].
    eapply announced_committed; [done..| |]; [|eapply announced_le; [exact Ha|]]; lia.
  - cbn beta. intros ok n' (H' & s & Hn'). split; [done|]. destruct ok.
    + destruct Hn' as [pc ->]. nsimp. auto.
    + destruct Hn' as [e ->]. nsimp. split; [done|]. by split; [right|].
Qed.

(** What an operation of node [j] does: the history grows on behalf of [j] only,
    and backs the node again. *)
Definition moved j g n n' : Prop :=
  exists g' F' D', extends j g g' /\ logged g' j n' F' D' /\ (matched g n -> matched g' n').

Lemma moved_same j g n n' F D :
  Hist V g -> logged g j n' F D -> (matched g n -> matched g n') -> moved j g n n'.
Proof. intros HH H Hm. exists g, F, D. split; [by apply extends_refl|done]. Qed.

Lemma moved_trans j g g1 n n1 n2 F D :
  extends j g g1 -> logged g1 j n1 F D -> (matched g n -> matched g1 n1) -> moved j g1 n1 n2 -> moved j g n n2.
Proof.
  intros He H Hm (g2 & F2 & D2 & He2 & H2 & Hm2). exists g2, F2, D2. split; [by eapply extends_trans|]. auto.
Qed.

Lemma matched_follower g n : n_State n = Follower -> matched g n.
Proof. intros E Hl. congruence. Qed.

Lemma logged_follower g j n F D ld el :
  logged g j n F D -> logged g j (n <| n_State := Follower |> <| n_Leader := ld |> <| n_elapsed := el |>) F D.
Proof.
  intros H. destruct H. split; try assumption; try done.
  destruct lg_sound0 as [[] ? ? ? ?]. split; try assumption; [by split|done].
Qed.

(** Answering the leader that position [q] is held. *)
Lemma ack_send g j n F D gl q ty to ctx :
  Hist V g -> logged g j n F D -> n_Faulted n = false -> g_log g !! n_Term n = Some gl -> share q F gl ->
  ty = MsgAppendResponse \/ ty = MsgInstallSnapshotResponse ->
  wlp (send (newMessage ty (n_ID n) to (n_Term n)
    <| m_Reject := false |> <| m_Match := Z.of_nat q |> <| m_Context := ctx |>)) (fun _ n' => moved j g n n') n.
Proof.
  intros HH H Hf Hgl Hs Hty. destruct (logged_ack _ _ _ _ _ _ _ HH H Hf Hgl Hs) as [He H'].
  eapply wlp_mono; [apply send_wlp|]. intros _ n' ->. exists (addAck j (n_Term n) q g), F, D. split; [done|]. split.
  - apply logged_out; [done|]. split; try (by destruct Hty as [-> | ->]). cbn. intros _ _.
    exists q. rewrite Nat2Z.id. split; [done|]. rewrite (lg_id _ _ _ _ _ H). by left.
  - apply matched_grows; try done; [apply He|by left].
Qed.

Lemma onAppend_log g j n F D m :
  is_u64 V -> Hist V g -> logged g j n F D -> n_Faulted n = false -> m_Term m <= n_Term n ->
  m_Type m = MsgAppend -> backedMsg g m -> cfgfree (m_Entry m) = true ->
  wlp (onAppend m) (fun _ n' => moved j g n n') n.
Proof.
  intros Hu HH H Hf Hmt Hty Hbm Hcf. unfold onAppend. wlp_pures.
  destruct (appendRejected n m) eqn:Er; wlp_pures.
  { eapply wlp_mono; [apply send_wlp|]. intros _ n' ->. eapply moved_same; [done| |done].
    apply logged_out; [done|]. by apply backed_other. }
  destruct (bm_append _ _ Hbm Hty) as (gl & k & Hgl & Hidx & Hterm & Hentry & Hann).
  destruct (appendRejected_false n m (lg_wf_log _ _ _ _ _ H) Er) as (Hge & Hrange & Ht & _).
  assert (m_Term m = n_Term n) as Em by lia. rewrite Em in Hgl, Hann.
  assert (termAt n (m_LogIndex m) = Some (m_LogTerm m)) as Hta.
  { rewrite termAt_wf; [by rewrite Ht|by eapply lg_wf_log|unfold top in *; lia]. }
  destruct (lg_termAt _ _ _ _ _ _ _ H Hta) as [Hr HtF]. rewrite Hidx, Nat2Z.id in HtF.
  assert (share k F gl) as Hs.
  { eapply log_matching; [apply H|by eapply h_ok|done|done]. }
  pose proof (h_len _ _ HH _ _ Hgl) as Hmax.
  set (n1 := n <| n_State := Follower |> <| n_Leader := m_From m |> <| n_elapsed := 0 |>).
  assert (logged g j n1 F D) as H1 by by apply logged_follower.
  set (q := if m_HasEntry m then S k else k).
  assert (m_HasEntry m = true -> w64 (m_LogIndex m + 1) = m_LogIndex m + 1) as Hw.
  { intros He. specialize (Hentry He). apply lookup_lt_Some in Hentry. apply w64_small.
    unfold is_u64, maxu64, len in *. lia. }
  (* the answer *)
  assert (forall (ok : bool) n2 F2 D2, logged g j n2 F2 D2 -> n_Term n2 = n_Term n -> n_State n2 = Follower ->
    (ok = true -> n_Faulted n2 = false /\ share q F2 gl) ->
    wlp (if ok then n ← get;
           let matched := if m_HasEntry m then w64 (m_LogIndex m + 1) else m_LogIndex m in
           send (newMessage MsgAppendResponse (n_ID n) (m_From m) (n_Term n)
                   <| m_Reject := false |> <| m_Match := matched |> <| m_Context := m_Context m |>)
         else mret ()) (fun _ n' => moved j g n n') n2) as Hans.
  { intros ok n2 F2 D2 H2 Ht2 Hst2 Hok2. destruct ok; wlp_pures.
    2: { eapply moved_same; [done|done|]. intros _. by apply matched_follower. }
    destruct (Hok2 eq_refl) as [Hf2 Hs2].
    assert ((if m_HasEntry m then w64 (m_LogIndex m + 1) else m_LogIndex m) = Z.of_nat q) as ->.
    { unfold q. destruct (m_HasEntry m); [rewrite Hw by done|]; lia. }
    eapply wlp_mono; [eapply (ack_send g j n2 F2 D2 gl q); try done; [by rewrite Ht2|by left]|].
    cbn beta. intros _ n' Hm. eapply moved_trans; [by apply extends_refl|exact H2| |exact Hm].
    intros _. by apply matched_follower. }
  destruct (m_HasEntry m) eqn:He.
  - specialize (Hentry eq_refl). eapply wlp_mono.
    { eapply (appendEntry_log g j n1 F D gl k m); try done. unfold n1; nsimp; lia. }
    intros ok n2 (F2 & D2 & H2 & Hsb & Hst2' & Hok2).
    assert (n_State n2 = Follower) as Hst2 by (by destruct Hst2' as [-> | ->]).
    destruct ok; wlp_pures; [|by eapply (Hans false); [done|apply (sb_term _ _ Hsb)|..]].
    destruct (Hok2 eq_refl) as (Hf2 & EF2). apply lookup_lt_Some in Hentry as Hkg.
    assert (share (S k) F2 gl) as Hs2 by (rewrite EF2; eapply follow_share; [done|apply H|done|done]).
    eapply wlp_mono.
    { eapply (appendCommit_log g j n2 F2 D2 gl (S k) m); try done; rewrite ?(sb_term _ _ Hsb); try done.
      - unfold matchedIndex. rewrite He. lia.
      - intros _. by apply Hw. }
    cbn beta. intros ok n3 (H3 & Ht3 & Hst3 & Hf3). apply (Hans ok n3 F2 D2); [done| |..].
    + by rewrite Ht3, (sb_term _ _ Hsb).
    + by destruct Hst3 as [-> | ->].
    + intros E. auto.
  - wlp_pures. eapply wlp_mono.
    { eapply (appendCommit_log g j n1 F D gl k m); try done.
      - unfold matchedIndex. by rewrite He.
      - congruence. }
    cbn beta. intros ok n3 (H3 & Ht3 & Hst3 & Hf3). apply (Hans ok n3 F D); [done|done| |].
    + by destruct Hst3 as [-> | ->].
    + intros E. auto.
Qed.

End logs.
