(* ===== verification/RaftLead.v ===== *)
(** * Leaders, candidates and snapshots

    The rest of the node-local part of log safety ([RaftLogs]): what a leader
    appends and commits, elections, compaction and snapshots. *)

From S2P Require Import Prelude RaftTypes Quorum RaftNode RaftInv RaftStep RaftClient RaftVotes LogHistory RaftLogs.

Section lead.
Context {St : Type} `{!StableStore St} `{!DurableVotes St} `{!DurableLog St} (V : Z).
Implicit Types n : Node St.

(** ** What a leader commits *)

Lemma logged_lower g j n F D c :
  logged V g j n F D -> n_BaseIndex n <= c -> n_Applied n <= c -> c <= n_Commit n ->
  logged V g j (n <| n_Commit := c |>) F D.
Proof.
  intros H Hb Ha Hc. lg_upd H; nsimp; try lia. eapply committed_le; [done|lia].
Qed.

(** A leader that counts a majority for an entry of its term, itself included, has
    the entry committed. *)
Lemma leader_chosen g j n F D k acks :
  Hist V g -> logged V g j n F D -> n_State n = Leader -> n_Faulted n = false ->
  termOf F k = Some (n_Term n) -> majorityMask V acks = true ->
  (forall b, Z.testbit acks b = true -> b + 1 = j \/ acked g (b + 1) (n_Term n) k) ->
  exists g', extends V j g g' /\ logged V g' j n F D /\ committed V g' (n_Term n) k F.
Proof.
  intros HH H Hst Hf Ht Hq Hb. destruct (lg_leader _ _ _ _ _ _ H Hst) as [HF _].
  apply termOf_lt in Ht as Hk. pose proof (share_refl k F Hk) as Hs.
  destruct (logged_ack V g j n F D F k HH H Hf HF Hs) as [He H'].
  exists (addAck j (n_Term n) k g). split; [done|]. split; [done|]. right. exists (n_Term n), k.
  split; [done|]. split; [done|]. split; [split|].
  - by exists F.
  - exists acks. split; [assumption|]. intros b Hbit. destruct (Hb b Hbit) as [->|Ha].
    + exists k. split; [done|]. by left.
    + eapply acked_grows; [apply He|done].
  - by exists F.
Qed.

Lemma commit_lt g j n F D : logged V g j n F D -> n_Commit n < len F.
Proof.
  intros H. pose proof (rp_len _ _ _ (lg_mem _ _ _ _ _ _ H)). pose proof (rp_ne _ _ _ (lg_mem _ _ _ _ _ _ H)).
  unfold len. destruct (lg_commit _ _ _ _ _ _ H) as [E|(t & k & _ & _ & _ & l & _ & (Hk & _))]; lia.
Qed.

Lemma commitLoop_log g j n F D l :
  Hist V g -> logged V g j n F D -> matched g n -> n_State n = Leader -> n_Faulted n = false ->
  (forall idx, idx ∈ l -> n_Commit n < idx) -> wlp (commitLoop l) (fun _ n' => moved V j g n n') n.
Proof.
  intros HH H Hm Hst Hf Hl.
  assert (0 <= n_Commit n) as Hc0.
  { pose proof (lg_base _ _ _ _ _ _ H). pose proof (rp_base _ _ _ (lg_mem _ _ _ _ _ _ H)). lia. }
  induction l as [|idx l IH].
  { cbn. wlp_pures. by eapply moved_same. }
  specialize (IH (fun i Hi => Hl i (proj2 (elem_of_cons l i idx) (or_intror Hi)))).
  specialize (Hl idx (proj2 (elem_of_cons l idx idx) (or_introl eq_refl))).
  cbn [commitLoop]. wlp_pures. unfold termAtMust. wlp_pures. destruct (termAt n idx) as [t|] eqn:Et; wlp_pures.
  destruct (Z.eqb_spec t (n_Term n)) as [->|]; cbn [negb]; [|done]. wlp_pures.
  destruct (lg_termAt V g j n F D idx _ H Et) as [_ Ht].
  wlp_call ackedMask_wlp. intros acks n1 [-> Hacks]. wlp_pures.
  eapply wlp_mono; [apply (canCommitIndex_wlp V), (lg_sound _ _ _ _ _ _ H)|]. intros q n1 [-> Hq].
  destruct q; wlp_pures; [|done]. symmetry in Hq.
  destruct (leader_chosen g j n F D (Z.to_nat idx) acks HH H Hst Hf Ht Hq) as (g' & He & H' & Hcm).
  { intros b Hb. rewrite (lg_id _ _ _ _ _ _ H) in Hacks.
    destruct (Hacks b Hb) as [?|(k & [(Hp & Hk & Hle)|?])]; [by left| |lia]. right.
    destruct (Hm Hst (b + 1) k Hp Hk ltac:(lia)) as (k' & Hk' & Hin). exists k'. split; [lia|done]. }
  assert (forall n', n_Term n' = n_Term n -> n_Peers n' = n_Peers n -> n_match n' = n_match n ->
    (n_State n' = n_State n \/ n_State n' = Follower) -> matched g n -> matched g' n') as Hmt.
  { intros. eapply matched_grows; [apply He|done..]. }
  eapply wlp_mono; [eapply (persist_log V g' j n F D); try done; cbn; lia|]. intros ok n1 (H1 & s & Hn1).
  destruct ok; wlp_pures.
  2: { destruct Hn1 as [e ->]. exists g', F, D. split; [done|]. split; [done|]. apply Hmt; try done. by right. }
  subst n1.
  assert (logged V g' j (n <| n_store := s |> <| n_Commit := idx |>) F D) as H2.
  { apply logged_commit; [done|nsimp; lia|done]. }
  eapply wlp_mono; [apply (applyConfigurations_wlp V), (lg_sound _ _ _ _ _ _ H2)|]. intros _ n2 [pc ->].
  apply (logged_pend V _ _ _ _ _ pc) in H2 as H3. wlp_pures. rewrite decide_True by done.
  eapply wlp_mono; [by eapply (broadcastAppend_log V g' j _ _ F D (sent_refl V g' j _ F D H3))|].
  intros _ n3 (H4 & nx & out & ->). wlp_pures. exists g', F, D. split; [done|]. split; [done|].
  apply Hmt; try done. by left.
Qed.

Lemma moved_sent j g g' n n1 n' F D :
  extends V j g g' -> (matched g n -> matched g' n1) -> sent V g' j n1 F D n' -> moved V j g n n'.
Proof.
  intros He Hm (H & nx & out & ->). exists g', F, D. split; [done|]. split; [done|]. intros Hg.
  eapply (matched_grows g' g' n1); try done; [apply grows_refl|by left|by apply Hm].
Qed.

Lemma appendTo_moved j g g' n n1 F D p :
  extends V j g g' -> logged V g' j n1 F D -> (matched g n -> matched g' n1) -> n_State n1 = Leader ->
  wlp (appendTo p) (fun _ n' => moved V j g n n') n1.
Proof.
  intros He H Hm Hst. eapply wlp_mono; [by apply (appendToContext_log V g' j n1 n1 F D), Hst; apply sent_refl|].
  cbn beta. intros _ n' Hs. by eapply moved_sent.
Qed.

(** Recording what a follower acknowledged. *)
Lemma matched_insert g n p k nx :
  matched g n -> acked g p (n_Term n) (Z.to_nat k) ->
  matched g (n <| n_match := <[p := k]> (n_match n) |> <| n_next := nx |>).
Proof.
  intros Hm Ha Hst q i Hq. nsimp. destruct (decide (q = p)) as [->|Hne].
  - rewrite lookup_insert_eq. by intros [= <-].
  - rewrite lookup_insert_ne by done. by apply Hm.
Qed.

Lemma logged_match g j n F D mt nx :
  logged V g j n F D -> logged V g j (n <| n_match := mt |> <| n_next := nx |>) F D.
Proof. intros H. lg_upd H. Qed.

Lemma onAppendResponse_log g j n F D m :
  Hist V g -> logged V g j n F D -> matched g n -> n_Faulted n = false ->
  m_Type m = MsgAppendResponse -> backedMsg V g m -> wlp (onAppendResponse m) (fun _ n' => moved V j g n n') n.
Proof.
  intros HH H Hm Hf Hty Hbm. unfold onAppendResponse. wlp_pures.
  set (Q := fun (_ : ()) n1 => logged V g j n1 F D /\ (matched g n1) /\ n_Faulted n1 = false).
  eapply (wlp_mono _ Q).
  { destruct (_ && _); wlp_pures; [|done]. wlp_call isVoter_wlp; [apply H|]. intros v n1 ->.
    destruct v; wlp_pures; [|done]. wlp_call bitOf_wlp. intros bit n1 [-> _]. wlp_pures.
    set (n1 := n <| n_readAckMask := _ |>). assert (logged V g j n1 F D) as H1 by lg_upd H.
    eapply wlp_mono; [apply (quorumMask_static V), (lg_sound _ _ _ _ _ _ H1)|]. intros q n2 [-> _].
    destruct q; wlp_pures; [|done]. split; [lg_upd H1|done]. }
  intros [] n1 (H1 & Hm1 & Hf1). wlp_pures.
  assert (forall F' n', logged V g j n' F' D -> matched g n' -> moved V j g n n') as Hdone.
  { intros F' n' ? ?. by eapply moved_same. }
  destruct (negb _ || negb _ || _) eqn:Eg; wlp_pures; [by eapply Hdone|].
  apply orb_false_elim in Eg as [[Hst%negb_false_iff%bool_decide_eq_true_1 Ht%negb_false_iff%Z.eqb_eq]%orb_false_elim _].
  destruct (m_Reject m) eqn:Hrej; wlp_pures.
  - eapply (wlp_mono _ (fun _ n2 => logged V g j n2 F D /\ matched g n2 /\ n_State n2 = Leader)).
    { destruct (_ <? _); wlp_pures; [|done]. split; [by apply logged_rep|done]. }
    intros [] n2 (H2 & Hm2 & Hst2). by eapply appendTo_moved; [apply extends_refl| | |].
  - pose proof (bm_ack _ _ _ Hbm (or_introl Hty) Hrej) as Ha. rewrite Ht in Ha.
    set (n2 := n1 <| n_match := _ |> <| n_next := _ |>).
    assert (logged V g j n2 F D) as H2 by by apply logged_match.
    assert (matched g n2) as Hm2 by by apply matched_insert.
    eapply wlp_mono.
    { eapply (commitLoop_log g j n2 F D); try done. intros idx Hin.
      apply elem_of_reverse, elem_of_seqZ in Hin. nsimp. lia. }
    cbn beta. intros r n3 (g' & F' & D' & He & H3 & Hm3). wlp_pures.
    destruct (r || _) eqn:Er; wlp_pures.
    + exists g', F', D'. split; [done|]. split; [done|auto].
    + apply orb_false_elim in Er as [_ Hst3%negb_false_iff%bool_decide_eq_true_1].
      destruct (_ <? _); wlp_pures; [|by exists g', F', D'; auto].
      eapply appendTo_moved; [done..| |done]. auto.
Qed.

(** ** What a leader appends *)

Lemma contains_snoc g l t k es : contains g l t k -> contains g (l ++ es) t k.
Proof.
  intros (m & Hm & Hs). exists m. split; [done|]. rewrite <- (app_nil_r m). by apply share_app.
Qed.

(** A new entry of the leader of a term, before it is stored. *)
Lemma logged_entry g j n F D e :
  Hist V g -> logged V g j n F D -> n_State n = Leader -> e_Term e = n_Term n -> len F < maxu64 ->
  let g' := addEntry (n_Term n) F e g in
  extends V j g g' /\ logged V g' j (n <| n_State := Follower |> <| n_Leader := 0 |> <| n_elapsed := 0 |>) F D /\
  g_log g' !! n_Term n = Some (F ++ [e]) /\ (exists mask, g_by g' !! n_Term n = Some (j, mask)).
Proof.
  intros HH H Hst He Hlen g'. destruct (lg_leader _ _ _ _ _ _ H Hst) as (HF & mask & Hby).
  pose proof (addEntry_grows _ _ e _ HF He) as Hg.
  assert (Hist V g') as HH' by by apply addEntry_hist.
  split_and!.
  - split; [done..|]. intros i Hi. split; try done. cbn. intros T mask' HT. split; [done|].
    apply lookup_insert_ne. intros <-. rewrite Hby in HT. congruence.
  - apply (logged_follower V _ _ _ _ _ 0 0) in H as H0. eapply logged_own; [done..|]. destruct H0. split; try done.
    + eapply kept_grows; [exact HH|exact Hg|exact lg_kept|done].
    + by apply (voteFine_grows V g).
    + by apply (voteFine_grows V g).
  - cbn. by rewrite lookup_insert_eq.
  - by exists mask.
Qed.

(** The log with the new entry keeps what the node had. *)
Lemma keepsLog_entry g j n F D e :
  Hist V g -> logged V g j n F D -> n_State n = Leader -> n_Faulted n = false -> e_Term e = n_Term n ->
  len F < maxu64 -> let g' := addEntry (n_Term n) F e g in
  keepsLog V g' (n_Term n) F (F ++ [e]) /\ kept g' j (n_Term n + 1) (n_Term n) (F ++ [e]).
Proof.
  intros HH H Hst Hf He Hlen g'. destruct (lg_leader _ _ _ _ _ _ H Hst) as (HF & _ & _). split.
  - split.
    + by eapply okLog_snoc.
    + intros i t (x & [Hx|[_ Hx]]%lookup_app_Some & ->)%fmap_Some.
      * apply (lg_terms _ _ _ _ _ _ H i). unfold termOf. by rewrite Hx.
      * apply list_lookup_singleton_Some in Hx as [_ <-]. lia.
    + unfold len in *. rewrite length_app. cbn. lia.
    + intros k [->|(t & k' & H1 & H2 & H3 & H4)]; [by left|]. right. exists t, k'.
      split_and!; [done..|]. by apply contains_snoc.
  - destruct (logged_entry _ _ _ _ _ _ HH H Hst He Hlen) as (_ & H' & _).
    intros t k Ha Ho Ht. destruct (lg_kept_now V _ _ _ _ _ H' Hf t k Ha Ho Ht) as [?|?]; [|by right].
    left. by apply contains_snoc.
Qed.

(** What appending an entry of its own leaves of a leader. *)
Definition appended j g n (ok : bool) n' : Prop :=
  exists g' F' D', extends V j g g' /\ logged V g' j n' F' D' /\
    n_Term n' = n_Term n /\ n_Peers n' = n_Peers n /\ n_match n' = n_match n /\ n_voteMask n' = n_voteMask n /\
    n_State n' = if ok then n_State n else Follower.

Lemma storeEntry_log g j n F D e s r :
  Hist V g -> logged V g j n F D -> n_State n = Leader -> n_Faulted n = false -> e_Term e = n_Term n ->
  cfgfree e = true -> len F < maxu64 -> Append (len F) e (n_store n) = (s, r) ->
  let g' := addEntry (n_Term n) F e g in
  extends V j g g' /\
  match r with
  | Some err => exists D', logged V g' j (faultUpd n s (Some err)) F D'
  | None => logged V g' j (n <| n_store := s |> <| n_Log := n_Log n ++ [e] |>) (F ++ [e]) (F ++ [e])
  end.
Proof.
  intros HH H Hst Hf He Hcf Hlen HA g'.
  destruct (logged_entry _ _ _ _ _ _ HH H Hst He Hlen) as (Hx & H0 & HF' & Hby).
  destruct (keepsLog_entry _ _ _ _ _ _ HH H Hst Hf He Hlen) as [Hkl Hkp]. fold g' in Hx, H0, HF', Hby, Hkl, Hkp.
  split; [done|].
  pose proof (lg_mem _ _ _ _ _ _ H) as Hr. pose proof (rp_base _ _ _ Hr). pose proof (rp_len _ _ _ Hr).
  pose proof (rp_ne _ _ _ Hr).
  destruct (store_append V g j n F D (len F) e s r H Hf ltac:(unfold len in *; lia) HA) as [Ed Him].
  assert (take (Z.to_nat (len F)) F = F) as Et by (apply take_ge; unfold len; lia). rewrite Et in Him.
  destruct r as [err|].
  - assert (exists D', keepsLog V g' (n_Term n) F D' /\ kept g' j (n_Term n + 1) (n_Term n) D' /\
      forall b l, image s = Some (b, l) -> b = n_BaseIndex n /\ represents D' b l) as (D' & Hd1 & Hd2 & Hd3).
    { destruct Him as [Him|[_ Him]]; [by exists (F ++ [e])|]. exists F.
      split; [by apply (keepsLog_self V _ _ _ _ _ H0)|]. split; [by apply (lg_kept_now V _ _ _ _ _ H0)|done]. }
    exists D'. eapply (logged_change V g' j _ F D); try done; nsimp.
    + split; try done; nsimp. set_solver.
    + apply sound_fault; [apply H|done].
    + apply (keepsLog_self V _ _ _ _ _ H0).
  - destruct Him as [Him|[? _]]; [|done]. eapply (logged_change V g' j _ F D); try done; nsimp.
    + assert (sound V (n <| n_store := s |> <| n_Log := n_Log n ++ [e] |> <| n_pendingConfig := n_pendingConfig n |>)) as Hsd.
      { apply sound_log; [apply sound_store; [apply H|done]|]. apply Forall_app.
        split; [apply H|by apply Forall_singleton]. }
      destruct Hsd as [[] ? ? ? ?]. split; try assumption. by split.
    + by apply rp_snoc.
    + apply termOf_app. unfold len in *. lia.
    + by rewrite Hst.
Qed.

(** Committing at once, when the leader is a majority of its own. *)
Lemma commitOwn_log g j n F D e previous :
  Hist V g -> logged V g j n (F ++ [e]) D -> n_State n = Leader -> n_Faulted n = false -> e_Term e = n_Term n ->
  n_Commit n = previous ->
  wlp (bit ← bitOf (n_ID n);
       q ← quorumMask bit;
       if q : bool then
         modify (fun n => n <| n_Commit := lastIndex n |>) ;;
         n ← get;
         ok ← persistHardState (mkHardState (n_Term n) (n_VotedFor n) (n_Commit n));
         if ok : bool then
           applyCommittedConfigurations (w64 (previous + 1)) (n_Commit n) ;; mret true
         else modify (fun n => n <| n_Commit := previous |>) ;; mret false
       else mret true) (fun ok n' => appended j g n ok n') n.
Proof.
  intros HH H Hst Hf He Hprev. wlp_pures. wlp_call bitOf_wlp. intros bit n1 [-> Hbit]. wlp_pures.
  eapply wlp_mono; [apply (quorumMask_static V), (lg_sound _ _ _ _ _ _ H)|]. intros q n1 [-> Hq].
  destruct q; wlp_pures.
  2: { exists g, (F ++ [e]), D. split; [by apply extends_refl|]. by split_and!. }
  destruct (leader_chosen g j n (F ++ [e]) D (length F) bit HH H Hst Hf) as (g' & Hx & H' & Hcm).
  { unfold termOf. rewrite lookup_app_r, Nat.sub_diag by done. cbn. by rewrite He. }
  { rewrite Hq. unfold quorum. by rewrite orb_true_l, andb_true_r. }
  { intros b Hb%Hbit. rewrite (lg_id _ _ _ _ _ _ H) in Hb. left. lia. }
  assert (lastIndex n = len F) as Elast.
  { rewrite (lg_last _ _ _ _ _ _ H). unfold len. rewrite length_app. cbn. lia. }
  assert (n_Commit n <= len F) as Hle.
  { pose proof (commit_lt _ _ _ _ _ H) as Hlt. unfold len in *. rewrite length_app in Hlt. cbn in Hlt. lia. }
  rewrite Elast.
  assert (logged V g' j (n <| n_Commit := len F |>) (F ++ [e]) D) as H2.
  { apply logged_commit; [done..|]. unfold len. by rewrite Nat2Z.id. }
  eapply wlp_mono.
  { eapply (persist_log V g' j _ (F ++ [e]) D); [exact H2|done..|].
    cbn. unfold len. by rewrite Nat2Z.id. }
  intros ok n1 (H3 & s & Hn1). destruct ok; wlp_pures.
  - subst n1. eapply wlp_mono; [apply (applyConfigurations_wlp V), (lg_sound _ _ _ _ _ _ H3)|].
    intros _ n2 [pc ->]. wlp_pures. exists g', (F ++ [e]), D. split; [done|]. split; [by apply logged_pend|].
    by split_and!.
  - destruct Hn1 as [err ->]. exists g', (F ++ [e]), D. split; [exact Hx|]. split.
    { apply logged_lower; [exact H3|nsimp..]; subst previous; [apply H|apply H|exact Hle]. }
    by do 4 (split; [reflexivity|]).
Qed.

Lemma appendLocal_log g j n F D e :
  Hist V g -> logged V g j n F D -> n_State n = Leader -> n_Faulted n = false -> e_Term e = n_Term n ->
  cfgfree e = true -> len F < maxu64 -> wlp (appendLocal e) (fun ok n' => appended j g n ok n') n.
Proof.
  intros HH H Hst Hf He Hcf Hlen. unfold appendLocal. wlp_pures. rewrite (lg_next _ _ _ _ _ _ H).
  unfold storeOp. unfold wlp at 1. destruct (Append _ e (n_store n)) as [s r] eqn:HA.
  destruct (storeEntry_log _ _ _ _ _ _ _ _ HH H Hst Hf He Hcf Hlen HA) as [Hx Hn].
  set (g' := addEntry _ _ _ _) in Hx, Hn. destruct r as [err|].
  - destruct Hn as (D' & H'). wlp_pures. eapply wlp_mono; [apply wp_wlp, failStorageWith_wp|].
    intros _ n' ->. wlp_pures. exists g', F, D'. split; [done|]. split; [done|]. by split_and!.
  - do 4 wlp_pure. set (n1 := n <| n_store := s |> <| n_Log := n_Log n ++ [e] |>) in *.
    eapply wlp_mono; [by apply (commitOwn_log g' j n1 F (F ++ [e]) e (n_Commit n)); [apply Hx|..]|].
    cbn beta. intros ok n' (g2 & F2 & D2 & Hx2 & H2 & Ht & Hp & Hm & Hvm & Hs).
    exists g2, F2, D2. split; [by eapply extends_trans|]. by split_and!.
Qed.

Lemma appended_matched j g n ok n' : appended j g n ok n' -> moved V j g n n'.
Proof.
  intros (g' & F' & D' & Hx & H & Ht & Hp & Hm & _ & Hs). exists g', F', D'. split; [done|]. split; [done|].
  apply matched_grows; [apply Hx|done..|]. destruct ok; auto.
Qed.

(** ** Elections *)

Lemma quorum_majority mask : quorum V 0 mask = majorityMask V mask.
Proof. unfold quorum. by rewrite orb_true_l, andb_true_r. Qed.

#[local] Transparent majorityMask.

Lemma majorityMask_land mask : majorityMask V (Z.land V mask) = majorityMask V mask.
Proof. unfold majorityMask. by rewrite Z.land_assoc, Z.land_diag. Qed.

#[local] Opaque majorityMask.

(** A candidate with the votes of a majority is the first leader of its term. *)
Lemma no_leader g j n F D mask :
  is_u64 V -> Hist V g -> logged V g j n F D -> n_State n = Candidate -> j <> 0 ->
  majorityMask V mask = true -> (forall b, Z.testbit mask b = true -> (b + 1, n_Term n, j) ∈ g_votes g) ->
  g_log g !! n_Term n = None.
Proof.
  intros Hu HH H Hst Hj Hq Hv. destruct (g_log g !! n_Term n) as [l|] eqn:E; [|done]. exfalso.
  destruct (h_by _ _ HH _ _ E) as (i & mask' & Hby & Hi & Hq' & Hv').
  destruct (majorityMask_intersect V mask mask') as (b & _ & _ & B1 & B2); [assumption..|].
  pose proof (h_fun _ _ HH _ _ _ _ (Hv b B1) (Hv' b B2) Hj Hi) as <-.
  by apply (proj2 (lg_cand _ _ _ _ _ _ H Hst) l mask').
Qed.

Lemma logged_elect g j n F D :
  is_u64 V -> Hist V g -> logged V g j n F D -> n_State n = Candidate -> j <> 0 -> 0 < n_Term n ->
  majorityMask V (n_voteMask n) = true ->
  (forall b, Z.testbit (n_voteMask n) b = true -> (b + 1, n_Term n, j) ∈ g_votes g) ->
  exists g', extends V j g g' /\ logged V g' j (leaderUpd n) F D.
Proof.
  intros Hu HH H Hst Hj HT Hq Hv. pose proof (no_leader _ _ _ _ _ _ Hu HH H Hst Hj Hq Hv) as Hno.
  set (mask := Z.land V (n_voteMask n)). set (g' := elect (n_Term n) j mask F g).
  pose proof (elect_grows (n_Term n) j mask F g Hno) as Hg. fold g' in Hg.
  assert (Hist V g') as HH'.
  { refine (elect_hist V _ _ _ _ _ HH _ Hno HT Hj _ _ _ _).
    - apply Z.land_nonneg. left. apply Hu.
    - by apply (lg_cand _ _ _ _ _ _ H).
    - apply (lg_len _ _ _ _ _ _ H).
    - unfold mask. rewrite majorityMask_land. assumption.
    - intros b. unfold mask. rewrite Z.land_spec. intros [_ Hb]%andb_prop. by apply Hv. }
  exists g'. split.
  - split; [done..|]. intros i Hi. split; try done. cbn. intros T m.
    destruct (decide (T = n_Term n)) as [->|Hne].
    + rewrite !lookup_insert_eq. congruence.
    + by rewrite !lookup_insert_ne.
  - apply (logged_follower V _ _ _ _ _ (n_ID n) 0) in H as H0.
    assert (logged V g' j (n <| n_State := Follower |> <| n_Leader := n_ID n |> <| n_elapsed := 0 |>) F D) as H1.
    { eapply logged_own; [done..|]. destruct H0. split; try done.
      + eapply kept_grows; [exact HH|exact Hg|exact lg_kept|done].
      + by apply (voteFine_grows V g).
      + by apply (voteFine_grows V g). }
    destruct H1. split; try assumption; try done.
    + destruct lg_sound as [[] Ha Hsy Hfa Ht0]. split; try assumption; [by split|]. intros Hft.
      pose proof (so_fault _ _ (RaftLogs.lg_sound _ _ _ _ _ _ H) Hft). congruence.
    + intros _. cbn. split; [by rewrite lookup_insert_eq|]. exists mask. by rewrite lookup_insert_eq.
Qed.

(** The peers of a new leader have acknowledged nothing yet. *)
Lemma resetPeers_wlp (ps : list Z) last n :
  wlp (E := Panic) (forM_ ps (fun p => modify (fun n : Node St => n <| n_next := <[p := last]> (n_next n) |>
                                                <| n_match := <[p := 0]> (n_match n) |>)))
    (fun _ n' => exists mt nx, n' = n <| n_match := mt |> <| n_next := nx |> /\
       forall p, p ∈ ps \/ n_match n !! p = Some 0 -> mt !! p = Some 0) n.
Proof.
  revert n. induction ps as [|p ps IH]; intros n.
  { cbn. wlp_pures. exists (n_match n), (n_next n). split; [by destruct n|]. by intros p [[]%elem_of_nil|?]. }
  cbn. wlp_pures. eapply wlp_mono; [apply IH|]. cbn beta. intros _ n' (mt & nx & -> & Hmt). exists mt, nx.
  split; [done|]. intros q Hq. apply Hmt. nsimp. destruct (decide (q = p)) as [->|Hne].
  - right. by rewrite lookup_insert_eq.
  - rewrite lookup_insert_ne by done. destruct Hq as [[?|?]%elem_of_cons|?]; [done|auto..].
Qed.

Lemma becomeLeader_log g j n F D :
  is_u64 V -> Hist V g -> logged V g j n F D -> n_State n = Candidate -> n_Faulted n = false -> j <> 0 ->
  0 < n_Term n -> len F < maxu64 -> majorityMask V (n_voteMask n) = true ->
  (forall b, Z.testbit (n_voteMask n) b = true -> (b + 1, n_Term n, j) ∈ g_votes g) ->
  wlp becomeLeader (fun _ n' => moved V j g n n') n.
Proof.
  intros Hu HH H Hst Hf Hj HT Hlen Hq Hv.
  destruct (logged_elect g j n F D Hu HH H Hst Hj HT Hq Hv) as (g1 & Hx1 & H1).
  unfold becomeLeader. do 4 wlp_pure. apply wlp_bind. eapply wlp_mono.
  { apply (appendLocal_log g1 j (leaderUpd n) F D); try done. apply Hx1. }
  cbn beta. intros ok n2 (g2 & F2 & D2 & Hx2 & H2 & Ht2 & Hp2 & _ & _ & Hs2).
  assert (extends V j g g2) as Hx by by eapply extends_trans.
  destruct ok; wlp_pures.
  2: { exists g2, F2, D2. split; [done|]. split; [done|]. intros _. by apply matched_follower. }
  eapply wlp_mono; [apply resetPeers_wlp|]. cbn beta. intros _ n3 (mt & nx & -> & Hmt).
  apply (logged_match _ _ _ _ _ mt nx) in H2 as H3.
  eapply wlp_mono; [by apply (broadcastAppend_log V g2 j _ _ F2 D2 (sent_refl V g2 j _ F2 D2 H3))|].
  cbn beta. intros _ n4 Hs4. eapply moved_sent; [done| |done].
  intros _ _ p k Hp Hk Hk0. nsimp_all. rewrite (Hmt p) in Hk by by left. injection Hk as <-. lia.
Qed.

(** Entering a new term, once it is saved. *)
Definition termUpd n (s : St) (h : HardState) : Node St :=
  n <| n_store := s |> <| n_State := Follower |> <| n_Term := h_Term h |> <| n_VotedFor := h_VotedFor h |>.

Lemma logged_term g j n F D h s :
  logged V g j n F D -> n_Faulted n = false -> SaveHardState h (n_store n) = (s, None) ->
  n_Term n < h_Term h -> h_Commit h = n_Commit n -> voteFine g j (h_Term h) (h_VotedFor h) ->
  logged V g j (termUpd n s h) F D.
Proof.
  intros H Hf HS HT Hc Hv.
  assert (committed V g (h_Term h) (Z.to_nat (h_Commit h)) F) as Hcm.
  { rewrite Hc. eapply committed_grows; [apply grows_refl| |apply H]. lia. }
  destruct (onDisk_save V _ _ _ _ _ _ _ _ H Hf HS ltac:(lia) ltac:(lia) Hcm Hv) as [[] E]. specialize (E eq_refl).
  rewrite Hc in Hcm. destruct H. split; try assumption; try done.
  - destruct lg_sound as [[] Ha Hs Hfa Ht0]. split; [by split|..]; unfold ahead, synced, termUpd; nsimp; rewrite ?E; [|done|done|lia].
    right. split; [done|]. by left.
  - intros i t Hi. cbn. specialize (lg_terms i t Hi). lia.
  - intros Hf'. destruct (lg_same Hf') as [E1 E2]. split; [done|]. intros b l Hi. eapply E2. by eapply image_save.
  - intros t k Hin. cbn. specialize (lg_acks t k Hin). lia.
  - intros T F' HF. cbn. specialize (lg_cands T F' HF). lia.
  - intros T w Hin Hw. cbn. destruct (lg_voted T w Hin Hw) as [?|[? _]]; left; lia.
Qed.

Lemma fault_save g j n F D h s err :
  logged V g j n F D -> n_Faulted n = false -> SaveHardState h (n_store n) = (s, Some err) ->
  n_Term n <= h_Term h -> (n_Term n = h_Term h -> n_VotedFor n = 0 \/ n_VotedFor n = h_VotedFor h) ->
  h_Commit h = n_Commit n -> voteFine g j (h_Term h) (h_VotedFor h) ->
  logged V g j (faultUpd n s (Some err)) F D.
Proof.
  intros H Hf HS HT Hvt Hc Hv.
  assert (committed V g (h_Term h) (Z.to_nat (h_Commit h)) F) as Hcm.
  { rewrite Hc. eapply committed_grows; [apply grows_refl| |apply H]. lia. }
  destruct (onDisk_save V _ _ _ _ _ _ _ _ H Hf HS HT ltac:(lia) Hcm Hv) as [Hd _].
  eapply logged_fault; [done..|]. apply durable_save_err in HS.
  destruct (lg_synced V _ _ _ _ _ H Hf) as [E1 E2]. unfold ahead, hardOf in *. nsimp.
  destruct HS as [-> | ->]; [by right; auto|].
  destruct (Z.eq_dec (n_Term n) (h_Term h)) as [E|]; [|left; lia]. right. split; [done|]. destruct (Hvt E); auto.
Qed.

Lemma logged_candidate g j n F D h s :
  is_u64 V -> Hist V g -> logged V g j n F D -> n_Faulted n = false -> j <> 0 -> SaveHardState h (n_store n) = (s, None) ->
  n_Term n < h_Term h -> h_VotedFor h = j -> h_Commit h = n_Commit n ->
  exists g', extends V j g g' /\ logged V g' j (termUpd n s h <| n_State := Candidate |>) F D /\
    (j, h_Term h, j) ∈ g_votes g'.
Proof.
  intros Hu HH H Hf Hj HS HT Hvf Hc. set (T := h_Term h) in *.
  assert (g_cand g !! (T, j) = None) as Hnc.
  { destruct (g_cand g !! (T, j)) eqn:E; [|done]. apply (lg_cands _ _ _ _ _ _ H) in E. lia. }
  assert (forall v, (v, T, j) ∈ g_votes g -> False) as Hnv.
  { intros v Hin. destruct (decide (j = v)) as [<-|Hne].
    - destruct (lg_voted _ _ _ _ _ _ H _ _ Hin Hj) as [?|[? _]]; lia.
    - destruct (h_req _ _ HH _ _ _ Hin Hj Hne) as [F' HF']. congruence. }
  assert (logged V g j (termUpd n s h) F D) as H0.
  { eapply logged_term; try done. rewrite Hvf. intros _. split; [done|]. intros F'. fold T. by rewrite Hnc. }
  assert (kept g j T T F) as HkF.
  { apply (kept_mono g j (n_Term n + 1) T (n_Term n) T); [|lia|by apply (lg_kept_now V g j n F D)].
    intros t k Ha%(lg_acked V g j n F D t k H). lia. }
  set (g1 := addCand T j F g). set (g2 := addVote j T j g1).
  pose proof (addCand_grows T j F g Hnc) as Hg1. fold g1 in Hg1. pose proof (addVote_grows j T j g1) as Hg2. fold g2 in Hg2.
  assert (grows g g2) as Hg by by eapply grows_trans.
  assert (Hist V g1) as HH1.
  { apply addCand_hist; try done; [apply H|..].
    - intros i t Hi. pose proof (lg_terms _ _ _ _ _ _ H i t Hi). lia.
    - intros v Hv. by destruct (Hnv v). }
  assert (voteFine g1 j T j) as Hvf1.
  { intros _. split; [done|]. intros F'. cbn. rewrite lookup_insert_eq. intros [= <-].
    by apply (kept_grows V g). }
  assert (Hist V g2) as HH2.
  { apply addVote_hist; [done..|]. intros w' Hin Hw' _.
    destruct (lg_voted _ _ _ _ _ _ H _ _ Hin Hw') as [?|[? _]]; lia. }
  assert (voteFine g2 j T j) as Hvf2.
  { eapply (voteFine_grows V g1); try done. }
  exists g2. split; [|split; [|by left]].
  - split; [done..|]. intros i Hi. split; try done.
    + cbn. intros T' F'. rewrite lookup_insert_ne; [done|congruence].
    + cbn. by intros T' w [[= -> _ _]|?]%elem_of_cons.
  - assert (logged V g2 j (termUpd n s h) F D) as H2.
    { eapply logged_own; [exact Hg|exact H0|]. destruct H0. split; try done.
      - cbn. intros T' F' [[[= <-] _]|[_ HF']]%lookup_insert_Some; [done|by eapply lg_cands].
      - cbn. by rewrite Hvf.
      - assert (h_Term (hardOf (termUpd n s h)) = T /\ h_VotedFor (hardOf (termUpd n s h)) = j) as [-> ->]; [|done].
        unfold hardOf, termUpd. nsimp. by rewrite (durable_save _ _ _ HS).
      - cbn. intros T' w [[= -> ->]|Hin]%elem_of_cons Hw; [by right|]. by apply lg_voted. }
    destruct H2. split; try assumption; try done.
    + destruct lg_sound as [[] ? ? Hfa ?]. split; try assumption; [by split|]. cbn. congruence.
    + intros _. cbn. fold T. split; [by rewrite lookup_insert_eq|]. intros l mask Hl Hby.
      destruct (h_by _ _ HH _ _ Hl) as (i & m & Hby' & Hi & Hq & Hv).
      assert (i = j) as -> by congruence.
      destruct (majorityMask_intersect V m m) as (b & _ & _ & Hb & _); [assumption..|]. by eapply Hnv, Hv.
Qed.

Lemma matched_other g n : n_State n <> Leader -> matched g n.
Proof. by intros Hst Hl. Qed.

Lemma termAt_rep n nx out i : termAt (repUpd n nx out) i = termAt n i.
Proof. reflexivity. Qed.

Lemma request_backed g j n F D p t :
  logged V g j n F D -> n_State n = Candidate -> termAt n (lastIndex n) = Some t ->
  backedMsg V g (newMessage MsgRequestVote (n_ID n) p (n_Term n) <| m_LogIndex := lastIndex n |> <| m_LogTerm := t |>).
Proof.
  intros H Hst Ht. destruct (lg_termAt V _ _ _ _ _ _ _ H Ht) as [_ HtF].
  split; try done; [by intros [? | ?]|]. intros _. exists F. cbn. rewrite (lg_last V _ _ _ _ _ H) in *.
  rewrite (lg_id _ _ _ _ _ _ H). split; [by apply (lg_cand _ _ _ _ _ _ H)|]. split; [done|].
  rewrite <- HtF. f_equal. unfold len. lia.
Qed.

Lemma startElection_log g j n F D :
  is_u64 V -> Hist V g -> logged V g j n F D -> n_Faulted n = false -> j <> 0 -> n_Term n < maxu64 ->
  len F < maxu64 -> wlp startElection (fun _ n' => moved V j g n n') n.
Proof.
  intros Hu HH H Hf Hj HT Hlen. pose proof (so_term _ _ (lg_sound _ _ _ _ _ _ H)) as Ht0.
  unfold startElection. wlp_pures. rewrite w64_small by (unfold is_u64, maxu64 in *; lia).
  set (h := mkHardState (n_Term n + 1) (n_ID n) (n_Commit n)).
  eapply wlp_mono; [apply wp_wlp, persistHardState_wp|]. intros ok n1 (s & Hs). destruct ok; wlp_pures.
  2: { destruct Hs as (err & Hs & ->). eapply moved_same; [done| |by intros; apply matched_follower].
       eapply fault_save; try done; cbn; try lia. rewrite (lg_id _ _ _ _ _ _ H). intros _. split; [done|].
       intros F' HF'%(lg_cands _ _ _ _ _ _ H). lia. }
  destruct Hs as [Hs ->]. wlp_call bitOf_wlp. intros bit n1 [-> Hbit]. wlp_pures. cbn [n_ID] in Hbit.
  destruct (logged_candidate g j n F D h s Hu HH H Hf Hj Hs) as (g' & Hx & H1 & Hvt);
    [cbn; lia|apply H|done|].
  set (n2 := n <| n_store := s |> <| n_State := Candidate |> <| n_Term := n_Term n + 1 |> <| n_VotedFor := n_ID n |>
    <| n_elapsed := 0 |> <| n_voteMask := bit |> <| n_preVoteMask := 0 |>).
  assert (logged V g' j n2 F D) as H2 by lg_upd H1.
  eapply wlp_mono.
  { apply (wlp_forM_ (fun n' => sent V g' j n2 F D n')); [by apply sent_refl|]. intros p n3 _ Hs3. wlp_pures.
    unfold termAtMust. wlp_pures. destruct (termAt n3 _) as [t|] eqn:Et; wlp_pures. apply send_sent; [done|].
    apply (request_backed g' j n2 F D); [done..|].
    destruct Hs3 as [H3 (nx & out & ->)]. rewrite termAt_rep in Et. exact Et. }
  cbn beta. intros _ n3 (H3 & nx & out & ->). wlp_pures.
  eapply wlp_mono; [apply (quorumMask_static V), (lg_sound _ _ _ _ _ _ H3)|]. intros q n4 [-> Hq].
  destruct q; wlp_pures.
  - eapply wlp_mono.
    { refine (becomeLeader_log g' j (repUpd n2 nx out) F D Hu (ex_hist _ _ _ _ Hx) H3 eq_refl Hf Hj _ Hlen _ _).
      - cbn. lia.
      - by rewrite quorum_majority in Hq.
      - intros b Hb%Hbit. cbn in Hb. rewrite (lg_id _ _ _ _ _ _ H) in Hb. by replace (b + 1) with j by lia. }
    cbn beta. intros _ n' Hm. eapply moved_trans; [done..| |done]. intros _. by apply matched_other.
  - exists g', F, D. split; [done|]. split; [done|]. intros _. by apply matched_other.
Qed.

Lemma moved_from j g n n1 n' F D :
  Hist V g -> logged V g j n1 F D -> (matched g n -> matched g n1) -> moved V j g n1 n' -> moved V j g n n'.
Proof. intros HH H Hm. eapply moved_trans; [by apply extends_refl|done..]. Qed.

Lemma sent_matched g j n n' F D : sent V g j n F D n' -> matched g n -> matched g n'.
Proof. intros (_ & nx & out & ->). apply matched_grows; try done; [apply grows_refl|by left]. Qed.

Lemma startPreVote_log g j n F D :
  is_u64 V -> Hist V g -> logged V g j n F D -> n_Faulted n = false -> j <> 0 -> n_Term n < maxu64 ->
  len F < maxu64 -> wlp startPreVote (fun _ n' => moved V j g n n') n.
Proof.
  intros Hu HH H Hf Hj HT Hlen. unfold startPreVote. wlp_pures. wlp_call bitOf_wlp. intros bit n1 [-> _]. wlp_pures.
  set (n1 := n <| n_elapsed := 0 |> <| n_preVoteTerm := _ |> <| n_Leader := 0 |> <| n_preVoteMask := bit |>).
  assert (logged V g j n1 F D) as H1 by lg_upd H.
  eapply wlp_mono.
  { apply (wlp_forM_ (fun n' => sent V g j n1 F D n')); [by apply sent_refl|]. intros p n3 _ Hs3. wlp_pures.
    unfold termAtMust. wlp_pures. destruct (termAt n3 _) as [t|]; wlp_pures. apply send_sent; [done|].
    apply backed_other; cbn; [done..|]. by intros [? | ?]. }
  cbn beta. intros _ n2 Hs2. wlp_pures. pose proof (proj1 Hs2) as H2.
  assert (matched g n -> matched g n2) as Hm2 by (intros Hm; by apply (sent_matched g j n1 n2 F D)).
  eapply wlp_mono; [apply (quorumMask_static V), (lg_sound _ _ _ _ _ _ H2)|]. intros q n4 [-> _].
  destruct q; wlp_pures; [|by eapply moved_same].
  destruct Hs2 as (_ & nx & out & ->).
  eapply wlp_mono; [by eapply (startElection_log g j (repUpd n1 nx out) F D)|].
  cbn beta. intros _ n' Hm. by eapply moved_from.
Qed.

Lemma Tick_log g j n F D :
  is_u64 V -> Hist V g -> logged V g j n F D -> j <> 0 -> n_Term n < maxu64 -> len F < maxu64 ->
  wlp Tick (fun _ n' => moved V j g n n') n.
Proof.
  intros Hu HH H Hj HT Hlen. unfold Tick. wlp_pures. destruct (n_Faulted n) eqn:Hf; wlp_pures.
  { by eapply moved_same. }
  set (n1 := n <| n_elapsed := _ |>). assert (logged V g j n1 F D) as H1 by lg_upd H.
  case_decide as Hst; [destruct (3 <=? _)|destruct (_ <=? _)]; wlp_pures; try (by eapply moved_same).
  - set (n2 := n1 <| n_elapsed := 0 |>). assert (logged V g j n2 F D) as H2 by lg_upd H1.
    eapply wlp_mono; [by apply (broadcastAppend_log V g j n2 n2 F D (sent_refl V g j n2 F D H2))|].
    cbn beta. intros _ n' Hs. eapply moved_sent; [by apply extends_refl| |done]. done.
  - eapply wlp_mono; [by eapply (startPreVote_log g j n1 F D)|]. cbn beta. intros _ n' Hm. by eapply moved_from.
Qed.

(** ** Votes *)

Lemma onPreVote_log g j n F D m :
  Hist V g -> logged V g j n F D -> wlp (onPreVote m) (fun _ n' => moved V j g n n') n.
Proof.
  intros HH H. unfold onPreVote. wlp_pures. unfold termAtMust. wlp_pures. destruct (termAt _ _); wlp_pures.
  wlp_call isVoter_wlp; [apply H|]. intros v n1 ->. wlp_pures.
  eapply wlp_mono; [apply send_sent; [by apply sent_refl|]|].
  - apply backed_other; cbn; [done..|]. by intros [? | ?].
  - cbn beta. intros _ n' Hs. by eapply moved_sent; [apply extends_refl| |].
Qed.

Lemma onPreVoteResponse_log g j n F D m :
  is_u64 V -> Hist V g -> logged V g j n F D -> n_Faulted n = false -> j <> 0 -> n_Term n < maxu64 ->
  len F < maxu64 -> wlp (onPreVoteResponse m) (fun _ n' => moved V j g n n') n.
Proof.
  intros Hu HH H Hf Hj HT Hlen. unfold onPreVoteResponse. wlp_pures.
  destruct (bool_decide _); wlp_pures; [by eapply moved_same|].
  wlp_call isVoter_wlp; [apply H|]. intros v n1 ->. destruct (_ && _); wlp_pures; [|by eapply moved_same].
  wlp_call bitOf_wlp. intros bit n1 [-> _]. wlp_pures.
  set (n1 := n <| n_preVoteMask := _ |>). assert (logged V g j n1 F D) as H1 by lg_upd H.
  eapply wlp_mono; [apply (quorumMask_static V), (lg_sound _ _ _ _ _ _ H1)|]. intros q n4 [-> _].
  destruct q; wlp_pures; [|by eapply moved_same].
  eapply wlp_mono; [by eapply (startElection_log g j n1 F D)|]. cbn beta. intros _ n' Hm. by eapply moved_from.
Qed.

Lemma onTimeoutNow_log g j n F D m :
  is_u64 V -> Hist V g -> logged V g j n F D -> n_Faulted n = false -> j <> 0 -> n_Term n < maxu64 ->
  len F < maxu64 -> wlp (onTimeoutNow m) (fun _ n' => moved V j g n n') n.
Proof.
  intros Hu HH H Hf Hj HT Hlen. unfold onTimeoutNow. wlp_pures.
  destruct (_ && _); wlp_pures; [by eapply startElection_log|by eapply moved_same].
Qed.

Lemma logged_vote g j n F D w s :
  logged V g j n F D -> n_Faulted n = false ->
  SaveHardState (mkHardState (n_Term n) w (n_Commit n)) (n_store n) = (s, None) ->
  n_VotedFor n = 0 \/ n_VotedFor n = w -> voteFine g j (n_Term n) w ->
  logged V g j (n <| n_store := s |> <| n_VotedFor := w |>) F D.
Proof.
  intros H Hf HS Hw Hv. set (h := mkHardState (n_Term n) w (n_Commit n)) in *.
  destruct (onDisk_save V _ _ _ _ _ h _ _ H Hf HS ltac:(done) ltac:(done) (lg_commit _ _ _ _ _ _ H) Hv) as [[] E].
  specialize (E eq_refl). destruct H. split; try assumption.
  - destruct lg_sound as [[] ? ? ? ?]. split; try assumption; [by split|..]; unfold ahead, synced; nsimp; rewrite E; cbn; auto.
  - intros Hf'. destruct (lg_same Hf') as [E1 E2]. split; [done|]. intros b l Hi. eapply E2. by eapply image_save.
  - intros T v Hin Hv0. destruct (lg_voted T v Hin Hv0) as [?|[? Ev]]; [by left|]. right. split; [done|]. cbn.
    destruct Hw; congruence.
Qed.

(** Granting a vote: the log of the candidate has what the voter acknowledged. *)
Lemma grant_fine g j n F D m t :
  Hist V g -> logged V g j n F D -> n_Faulted n = false -> m_Type m = MsgRequestVote -> backedMsg V g m ->
  m_Term m = n_Term n -> termAt n (lastIndex n) = Some t -> logUpToDate m (lastIndex n) t = true ->
  voteFine g j (n_Term n) (m_From m).
Proof.
  intros HH H Hf Hty Hbm Ht Hta Hup _. destruct (bm_request _ _ _ Hbm Hty) as (Fc & HFc & Hi & Htc).
  rewrite Ht in HFc. split; [by eauto|]. rewrite HFc. intros F' [= <-].
  destruct (h_cand _ _ HH _ _ _ HFc) as [Hok Hts].
  destruct (lg_termAt V _ _ _ _ _ _ _ H Hta) as [Hr HtF]. rewrite (lg_last V _ _ _ _ _ H) in *.
  apply (kept_vote V g j (n_Term n) F Fc t (m_LogTerm m)); try done.
  - apply H.
  - by apply (lg_kept_now V g j n F D).
  - rewrite <- HtF. f_equal. unfold len. lia.
  - unfold logUpToDate in Hup. apply orb_prop in Hup as [?%Z.ltb_lt|[?%Z.eqb_eq Hl%Z.leb_le]%andb_prop]; [by left|].
    right. split; [done|]. unfold len in *. lia.
Qed.

Lemma onVote_log g j n F D m :
  Hist V g -> logged V g j n F D -> n_Faulted n = false -> m_Type m = MsgRequestVote -> backedMsg V g m ->
  wlp (onVote m) (fun _ n' => moved V j g n n') n.
Proof.
  intros HH H Hf Hty Hbm. unfold onVote. wlp_pures. unfold termAtMust. wlp_pures.
  destruct (termAt n (lastIndex n)) as [t|] eqn:Et; wlp_pures.
  wlp_call isVoter_wlp; [apply H|]. intros v n1 ->. wlp_pures.
  set (grant := v && _ && _ && _). destruct grant eqn:Eg; wlp_pures.
  - unfold grant in Eg. apply andb_prop in Eg as [[[_ Ht%Z.eqb_eq]%andb_prop Hvt]%andb_prop Hup].
    pose proof (grant_fine g j n F D m t HH H Hf Hty Hbm Ht Et Hup) as Hv.
    assert (n_VotedFor n = 0 \/ n_VotedFor n = m_From m) as Hw by (apply orb_prop in Hvt as [?%Z.eqb_eq|?%Z.eqb_eq]; auto).
    eapply wlp_mono; [apply wp_wlp, persistHardState_wp|]. intros ok n1 (s & Hs). destruct ok; wlp_pures.
    + destruct Hs as [Hs ->]. pose proof (logged_vote g j n F D (m_From m) s H Hf Hs Hw Hv) as H1.
      eapply wlp_mono; [apply send_wlp|]. intros _ n' ->. eapply moved_same; [done| |done].
      apply (logged_out V g j (n <| n_store := s |> <| n_VotedFor := m_From m |> <| n_elapsed := 0 |>) F D); [lg_upd H1|].
      apply backed_other; cbn; [done..|]. by intros [? | ?].
    + destruct Hs as (err & Hs & ->). eapply moved_same; [done| |by intros; apply matched_follower].
      by eapply fault_save.
  - eapply wlp_mono; [apply send_sent; [by apply sent_refl|]|].
    + apply backed_other; cbn; [done..|]. by intros [? | ?].
    + cbn beta. intros _ n' Hs. by eapply moved_sent; [apply extends_refl| |].
Qed.

Lemma cand_term g j n F D : Hist V g -> logged V g j n F D -> n_State n = Candidate -> 0 < n_Term n.
Proof.
  intros HH H Hst. destruct (lg_cand _ _ _ _ _ _ H Hst) as [HF _]. destruct (h_cand _ _ HH _ _ _ HF) as [Hok Hts].
  specialize (Hts 0%nat 0). unfold termOf in Hts. rewrite (ok_zero _ _ Hok) in Hts. specialize (Hts eq_refl). lia.
Qed.

(** A candidate counts only votes it was given. *)
Definition polled (g : history) n : Prop :=
  n_State n = Candidate -> forall b, Z.testbit (n_voteMask n) b = true -> (b + 1, n_Term n, n_ID n) ∈ g_votes g.

Lemma onVoteResponse_log g j n F D m :
  is_u64 V -> Hist V g -> logged V g j n F D -> n_Faulted n = false -> j <> 0 -> len F < maxu64 ->
  m_Type m = MsgRequestVoteResponse -> polled g n -> (grant m -> (m_From m, m_Term m, j) ∈ g_votes g) ->
  wlp (onVoteResponse m) (fun _ n' => moved V j g n n') n.
Proof.
  intros Hu HH H Hf Hj Hlen Hty Hpl Hg. unfold onVoteResponse. wlp_pures.
  destruct (bool_decide (n_State n = Candidate)) eqn:Est; cbn [negb]; wlp_pures; [|by eapply moved_same].
  apply bool_decide_eq_true_1 in Est.
  wlp_call isVoter_wlp; [apply H|]. intros v n1 ->. destruct (_ && _) eqn:Eg; wlp_pures; [|by eapply moved_same].
  apply andb_prop in Eg as [[_ Ht%Z.eqb_eq]%andb_prop Hrej%negb_true_iff].
  wlp_call bitOf_wlp. intros bit n1 [-> Hbit]. wlp_pures.
  set (n1 := n <| n_voteMask := _ |>). assert (logged V g j n1 F D) as H1 by lg_upd H.
  eapply wlp_mono; [apply (quorumMask_static V), (lg_sound _ _ _ _ _ _ H1)|]. intros q n4 [-> Hq].
  destruct q; wlp_pures; [|by eapply moved_same].
  eapply wlp_mono.
  { refine (becomeLeader_log g j n1 F D Hu HH H1 Est Hf Hj (cand_term _ _ _ _ _ HH H Est) Hlen _ _).
    - by rewrite quorum_majority in Hq.
    - intros b. cbn. rewrite Z.lor_spec. intros [Hb|Hb%Hbit]%orb_prop.
      + pose proof (Hpl Est b Hb) as Hin. by rewrite (lg_id _ _ _ _ _ _ H) in Hin.
      + rewrite <- Ht. replace (b + 1) with (m_From m) by lia. by apply Hg. }
  cbn beta. intros _ n' Hm. by eapply moved_from.
Qed.

(** ** A new term *)

Lemma stepTerm_log g j n F D m :
  Hist V g -> logged V g j n F D -> n_Faulted n = false ->
  wlp (stepTerm m) (fun ok n' => logged V g j n' F D /\ (matched g n -> matched g n') /\ (polled g n -> polled g n') /\
    n_Faulted n' = negb ok /\ (n_Term n' = n_Term n \/ n_Term n' = m_Term m) /\
    (ok = true -> m_Type m <> MsgPreVote -> m_Type m <> MsgPreVoteResponse -> m_Term m <= n_Term n')) n.
Proof.
  intros HH H Hf. unfold stepTerm. wlp_pures. set (pre := (m_Type m =? MsgPreVote) || _).
  destruct (negb pre && _) eqn:E; wlp_pures.
  2: { split_and!; try done; [by left|]. intros _ H1 H2. apply andb_false_iff in E as [E|E%Z.ltb_ge]; [|done].
       apply negb_false_iff, orb_prop in E as [?%Z.eqb_eq|?%Z.eqb_eq]; done. }
  apply andb_prop in E as [_ Hlt%Z.ltb_lt].
  assert (voteFine g j (m_Term m) 0) as Hv by done.
  eapply wlp_mono; [apply wp_wlp, persistHardState_wp|]. intros ok n1 (s & Hs). destruct ok; wlp_pures.
  - destruct Hs as [Hs ->]. pose proof (logged_term g j n F D _ s H Hf Hs Hlt eq_refl Hv) as H1.
    split; [lg_upd H1|]. split_and!; try done; [by right].
  - destruct Hs as (err & Hs & ->). split; [|split_and!; try done; by left].
    eapply fault_save; try done; cbn; lia.
Qed.

(** ** Snapshots *)

Lemma onInstallSnapshotResponse_log g j n F D m :
  Hist V g -> logged V g j n F D -> m_Type m = MsgInstallSnapshotResponse -> backedMsg V g m ->
  wlp (onInstallSnapshotResponse m) (fun _ n' => moved V j g n n') n.
Proof.
  intros HH H Hty Hbm. unfold onInstallSnapshotResponse. wlp_pures.
  destruct (negb _ || negb _ || _) eqn:Eg; wlp_pures; [by eapply moved_same|].
  apply orb_false_elim in Eg as
    [[Hst%negb_false_iff%bool_decide_eq_true_1 Ht%negb_false_iff%Z.eqb_eq]%orb_false_elim Hrej].
  pose proof (bm_ack _ _ _ Hbm (or_intror Hty) Hrej) as Ha. rewrite Ht in Ha.
  wlp_call isVoter_wlp; [apply H|]. intros v n1 ->. destruct v; wlp_pures; [|by eapply moved_same].
  eapply (wlp_mono _ (fun _ n1 => logged V g j n1 F D /\ n_State n1 = Leader /\ (matched g n -> matched g n1))).
  { destruct (_ <? _); wlp_pures; [|done]. split; [by apply logged_match|]. split; [done|].
    intros Hm. by apply matched_insert. }
  intros [] n1 (H1 & Hst1 & Hm1). wlp_pures. destruct (_ <=? _); wlp_pures; [|by eapply moved_same].
  by eapply appendTo_moved; [apply extends_refl| | |].
Qed.

Lemma lg_fits g j n F b l : logged V g j n F F -> represents F b l -> b + len l <= maxu64.
Proof.
  intros H Hr. pose proof (lg_len _ _ _ _ _ _ H). pose proof (rp_len _ _ _ Hr). pose proof (rp_base _ _ _ Hr).
  unfold len in *. lia.
Qed.

(** The disk while a snapshot up to [idx] is taken: still the old log, or the one
    that remains. *)
Definition between (s : St) (b idx : Z) (F F' D' : list Entry) : Prop :=
  (D' = F /\ forall b' l, image s = Some (b', l) -> b' = b /\ represents F b' l) \/
  (D' = F' /\ forall b' l, image s = Some (b', l) -> b' = idx /\ represents F' b' l).

Section snapshot.
Variables (g : history) (j : Z) (n : Node St) (F D gl : list Entry) (ops : SnapshotStore St) (snap : Snapshot).
Let idx := s_LastIndex snap.
Let F' := follow (Z.to_nat idx) F gl.
Hypothesis Hops : AsSnapshotStore = Some ops.
Hypothesis H : logged V g j n F D.
Hypothesis Hf : n_Faulted n = false.
Hypothesis Hlt : n_BaseIndex n < idx.
Hypothesis Ht : termOf gl (Z.to_nat idx) = Some (s_LastTerm snap).

Lemma save_between s r :
  SaveSnapshot ops snap (n_store n) = (s, r) ->
  durable s = hardOf n /\ exists D', between s (n_BaseIndex n) idx F F' D'.
Proof.
  intros HS. destruct (lg_same _ _ _ _ _ _ H Hf) as [E Hb]. subst D. split.
  { pose proof (durable_snapshot ops snap (n_store n) Hops) as E. by rewrite HS in E. }
  destruct (image s) as [[b' l']|] eqn:Ei; [|exists F; left; split; [done|]; intros ? ?; by rewrite Ei].
  destruct (image_snapshot _ _ _ _ _ _ _ Hops HS Ei) as (b & l & Hi & Hc).
  destruct (lg_image _ _ _ _ _ _ H _ _ Hi) as [Hr _]. specialize (Hb b l Hi). subst b.
  destruct Hc as [[= -> ->]|[= -> ->]]; [by split; [apply Hr|]|by eapply lg_fits|..].
  - exists F. left. split; [done|]. intros ? ?. rewrite Ei. by intros [= <- <-].
  - exists F'. right. split; [done|]. intros ? ?. rewrite Ei. intros [= <- <-]. split; [done|]. by apply rp_cut.
Qed.

Lemma compact_between s1 s r :
  SaveSnapshot ops snap (n_store n) = (s1, None) -> CompactLog ops idx s1 = (s, r) ->
  durable s = hardOf n /\ exists D', between s (n_BaseIndex n) idx F F' D' /\
    (r = None -> forall b l, image s = Some (b, l) -> b = idx /\ represents F' b l).
Proof.
  intros HS HC. destruct (lg_same _ _ _ _ _ _ H Hf) as [E Hb]. subst D. split.
  { pose proof (durable_snapshot ops snap (n_store n) Hops) as E1. rewrite HS in E1.
    pose proof (durable_compact ops idx s1 Hops) as E2. rewrite HC in E2. unfold hardOf. cbn in *. congruence. }
  destruct (image s) as [[b' l']|] eqn:Ei.
  2: { exists F. split; [left; split; [done|]|done]. intros ? ?. by rewrite Ei. }
  destruct (image_compact _ _ _ _ _ _ _ _ Hops HS HC Ei) as (b & l & Hi & Hc).
  destruct (lg_image _ _ _ _ _ _ H _ _ Hi) as [Hr _]. specialize (Hb b l Hi). subst b.
  destruct Hc as [[Hne [= -> ->]]|[= -> ->]]; [by split; [apply Hr|]|by eapply lg_fits|..].
  - exists F. split; [|done]. left. split; [done|]. intros ? ?. rewrite Ei. by intros [= <- <-].
  - assert (forall b l0, image s = Some (b, l0) -> b = idx /\ represents F' b l0) as Hi'.
    { intros ? ?. rewrite Ei. intros [= <- <-]. split; [done|]. by apply rp_cut. }
    exists F'. split; [right; by split|]. intros _. rewrite Ei in Hi'. exact Hi'.
Qed.

Hypothesis Hkl : keepsLog V g (n_Term n) F F'.
Hypothesis Hkp : kept g j (n_Term n + 1) (n_Term n) F'.
Hypothesis Hcm : committed V g (n_Term n) (Z.to_nat idx) F'.

Lemma between_disk s D' : durable s = hardOf n -> between s (n_BaseIndex n) idx F F' D' -> onDisk V g j s D'.
Proof.
  intros Es Hb. destruct (lg_synced V _ _ _ _ _ H Hf) as [Et Ev]. destruct (lg_same _ _ _ _ _ _ H Hf) as [E _].
  pose proof (lg_onDisk V _ _ _ _ _ H) as Hd. subst D. unfold hardOf in *.
  assert (forall k, committed V g (n_Term n) k F -> committed V g (n_Term n) k D') as Hc.
  { destruct Hb as [[-> _]|[-> _]]; [done|apply Hkl]. }
  assert (committed V g (n_Term n) (Z.to_nat (n_BaseIndex n)) F) as Hbc.
  { eapply committed_le; [apply H|]. pose proof (lg_base _ _ _ _ _ _ H). lia. }
  destruct Hd. rewrite Et in od_terms, od_commit, od_kept, od_vote.
  split; rewrite ?Es, ?Et; auto; destruct Hb as [[-> Hi]|[-> Hi]]; try assumption; try apply Hkl.
  - intros b l Hil. destruct (Hi b l Hil) as [-> Hr]. auto.
  - intros b l Hil. destruct (Hi b l Hil) as [-> Hr]. auto.
Qed.

Lemma takeSnapshot_log (k : MN St bool) (Q : bool -> Node St -> Prop) :
  (forall s err D', logged V g j (faultUpd n s (Some err)) F D' -> Q false (faultUpd n s (Some err))) ->
  (forall s, durable s = hardOf n -> (forall b l, image s = Some (b, l) -> b = idx /\ represents F' b l) ->
     wlp k Q (n <| n_store := s |>)) ->
  wlp (err ← storeOp (SaveSnapshot ops snap);
       match err with
       | Some err => failStorageWith err ;; mret false
       | None =>
           err ← storeOp (CompactLog ops idx);
           match err with
           | Some err => failStorageWith err ;; mret false
           | None => k
           end
       end) Q n.
Proof.
  intros Hfail Hok. wlp_pures. unfold storeOp at 1. unfold wlp at 1.
  assert (forall s err, durable s = hardOf n -> (exists D', between s (n_BaseIndex n) idx F F' D') ->
    Q false (faultUpd n s (Some err))) as Hq.
  { intros s err Es [D' Hb]. apply (Hfail s err D'). eapply logged_fault; [done|by apply between_disk|].
    pose proof (so_ahead _ _ (lg_sound _ _ _ _ _ _ H)) as Ha. unfold ahead in *. nsimp. by rewrite Es. }
  destruct (SaveSnapshot ops snap (n_store n)) as [s1 r] eqn:HS.
  destruct (save_between _ _ HS) as [Es1 Hb1]. destruct r as [err|].
  - wlp_pures. eapply wlp_mono; [apply wp_wlp, failStorageWith_wp|]. intros _ n' ->. wlp_pures. by apply Hq.
  - wlp_pures. unfold storeOp at 1. unfold wlp at 1. nsimp. destruct (CompactLog ops idx s1) as [s r] eqn:HC.
    destruct (compact_between _ _ _ HS HC) as (Es & D' & Hb & Hi). destruct r as [err|].
    + wlp_pures. eapply wlp_mono; [apply wp_wlp, failStorageWith_wp|]. intros _ n' ->. wlp_pures. apply Hq; eauto.
    + apply Hok; auto.
Qed.

End snapshot.

(** [n'] is [n] with a newer snapshot. *)
Record snapshotted n n' (F' : list Entry) : Prop := {
  ss_id : n_ID n' = n_ID n;
  ss_term : n_Term n' = n_Term n;
  ss_vote : n_VotedFor n' = n_VotedFor n;
  ss_durable : hardOf n' = hardOf n;
  ss_out : n_outbound n' = n_outbound n;
  ss_sound : sound V n';
  ss_mem : represents F' (n_BaseIndex n') (n_Log n');
  ss_image : forall b l, image (n_store n') = Some (b, l) -> b = n_BaseIndex n' /\ represents F' b l;
  ss_snap : s_LastIndex (n_snapshot n') = n_BaseIndex n' /\ s_LastTerm (n_snapshot n') = n_BaseTerm n' /\
    termOf F' (Z.to_nat (n_BaseIndex n')) = Some (s_LastTerm (n_snapshot n'));
  ss_base : n_BaseIndex n' <= n_Commit n';
  ss_applied : n_BaseIndex n' <= n_Applied n' <= n_Commit n'
}.

Lemma logged_snapshotted g j n F D n' F' :
  logged V g j n F D -> n_Faulted n = false -> snapshotted n n' F' ->
  keepsLog V g (n_Term n) F F' -> kept g j (n_Term n + 1) (n_Term n) F' ->
  committed V g (n_Term n) (Z.to_nat (n_Commit n')) F' ->
  (n_State n' = n_State n /\ F' = F \/ n_State n' = Follower) -> logged V g j n' F' F'.
Proof.
  intros H Hf [] [] Hk Hc Hst. destruct (lg_synced V _ _ _ _ _ H Hf) as [Et Ev].
  destruct (lg_same _ _ _ _ _ _ H Hf) as [-> _]. destruct H.
  rewrite Et in lg_dterms, lg_dcommit, lg_kept, lg_dvote.
  split; rewrite ?ss_id0, ?ss_term0, ?ss_vote0, ?ss_durable0, ?ss_out0, ?Et; try assumption; try (by auto).
  - intros b l Hi. destruct (ss_image0 b l Hi) as [-> Hr]. split; [done|]. eapply committed_le; [done|]. lia.
  - intros _. split; [done|]. intros b l Hi. by apply (ss_image0 b l).
  - intros Hl. destruct Hst as [[Es ->]|?]; [|congruence]. apply lg_leader. congruence.
  - intros Hl. destruct Hst as [[Es ->]|?]; [|congruence]. apply lg_cand. congruence.
Qed.

Lemma follow_self i (l : list Entry) : follow i l l = l.
Proof. unfold follow. by rewrite bool_decide_true. Qed.

Lemma logged_unsupported g j n F D : logged V g j n F D -> wlp failStorage (fun _ n' => logged V g j n' F D /\ n_State n' = Follower) n.
Proof.
  intros H. eapply wlp_mono; [apply wp_wlp, failStorage_wp|]. intros _ n' (e & _ & ->). split; [|done].
  eapply logged_fault; [done|by apply lg_onDisk in H|]. apply (lg_sound _ _ _ _ _ _ H).
Qed.

(** A store that cannot be reopened may be compacted even when the node has stopped. *)
Lemma image_lost ops snap s s1 s2 r1 r2 :
  AsSnapshotStore = Some ops -> image s = None -> SaveSnapshot ops snap s = (s1, r1) -> image s1 = None /\
  (r1 = None -> CompactLog ops (s_LastIndex snap) s1 = (s2, r2) -> image s2 = None).
Proof.
  intros Hops Hi HS. split.
  - destruct (image s1) as [[b l]|] eqn:E; [|done].
    destruct (image_snapshot _ _ _ _ _ _ _ Hops HS E) as (b0 & l0 & Hi0 & _). congruence.
  - intros -> HC. destruct (image s2) as [[b l]|] eqn:E; [|done].
    destruct (image_compact _ _ _ _ _ _ _ _ Hops HS HC E) as (b0 & l0 & Hi0 & _). congruence.
Qed.

Lemma onDisk_lost g j s s' D : onDisk V g j s D -> durable s' = durable s -> image s' = None -> onDisk V g j s' D.
Proof. intros [] E Hi. split; rewrite ?E; try assumption. by rewrite Hi. Qed.

Lemma logged_resnap g j n F D n' :
  logged V g j n F D -> snapshotted n n' F -> image (n_store n') = None -> n_Commit n' = n_Commit n ->
  n_State n' = n_State n -> n_Faulted n' = n_Faulted n -> logged V g j n' F D.
Proof.
  intros H [] Hi Hc Hst Hf. destruct H.
  split; rewrite ?ss_id0, ?ss_term0, ?ss_vote0, ?ss_durable0, ?ss_out0, ?Hst, ?Hf, ?Hi, ?Hc in *; try assumption; try done.
  intros Hf'. by destruct (lg_same Hf').
Qed.

Lemma snapshotted_compact g j n F D index t state s :
  logged V g j n F D -> n_BaseIndex n < index < len F -> index <= n_Applied n -> termOf F (Z.to_nat index) = Some t ->
  durable s = hardOf n -> (forall b l, image s = Some (b, l) -> b = index /\ represents F b l) ->
  snapshotted n (n <| n_store := s |> <| n_Log := drop (Z.to_nat (index - n_BaseIndex n)) (n_Log n) |>
    <| n_BaseIndex := index |> <| n_BaseTerm := t |>
    <| n_snapshot := mkSnapshot index t state (n_votersOld n) (n_votersNew n) |>) F.
Proof.
  intros H Hr Ha Ht Es Hi. pose proof (lg_applied _ _ _ _ _ _ H) as Hap. pose proof (lg_mem _ _ _ _ _ _ H) as Hmem.
  pose proof (rp_base _ _ _ Hmem) as Hb0. pose proof (rp_len _ _ _ Hmem) as Hl.
  split; nsimp; try done; try lia.
  - destruct (lg_sound _ _ _ _ _ _ H) as [[] Hah Hsy Hfa Ht0]. unfold hardOf in *. injection st_voters as Eov Enw.
    split; try assumption; unfold ahead, synced in *; nsimp; rewrite ?Es; try assumption.
    split; nsimp; [by unfold VoterMasks; rewrite <- Eov, <- Enw|by apply Forall_drop|]. by right.
  - replace index with (n_BaseIndex n + Z.of_nat (Z.to_nat (index - n_BaseIndex n))) at 1 by lia.
    apply rp_drop; [done|]. unfold len in *. lia.
Qed.

Lemma Compact_log g j n F D index state :
  Hist V g -> logged V g j n F D -> n_Faulted n = false -> wlp (Compact index state) (fun _ n' => moved V j g n n') n.
Proof.
  intros HH H Hf. unfold Compact. wlp_pures. destruct (_ || _) eqn:Eg; wlp_pures; [by eapply moved_same|].
  apply orb_false_elim in Eg as [Hlo%Z.leb_gt Hhi%Z.ltb_ge].
  destruct (termAt n index) as [t|] eqn:Et; [|wlp_pures; by eapply moved_same].
  destruct (offset n index) as [off|] eqn:Eo; [|wlp_pures; by eapply moved_same].
  destruct AsSnapshotStore as [ops|] eqn:Eops.
  2: { wlp_pures. eapply wlp_mono; [by eapply logged_unsupported|]. cbn beta. intros _ n' [H' Hst]. wlp_pures.
       eapply moved_same; [done..|]. intros _. by apply matched_follower. }
  destruct (lg_termAt V _ _ _ _ _ _ _ H Et) as [Hr HtF].
  destruct (lg_offset V _ _ _ _ _ _ _ H Eo) as (_ & -> & _).
  pose proof (lg_applied _ _ _ _ _ _ H) as Ha.
  assert (keepsLog V g (n_Term n) F F) as Hkl by by apply (keepsLog_self V g j n F D).
  assert (kept g j (n_Term n + 1) (n_Term n) F) as Hkp by by apply (lg_kept_now V g j n F D).
  apply (takeSnapshot_log g j n F D F ops); cbn; rewrite ?follow_self; try done.
  - eapply committed_le; [apply H|]. lia.
  - intros s err D' H'. eapply moved_same; [done..|]. intros _. by apply matched_follower.
  - intros s Es Hi. wlp_pures. eapply moved_same; [done| |done].
    eapply (logged_snapshotted g j n F D _ F); [done|done| |done|done|apply H|by left].
    apply (snapshotted_compact g j n F D); try done. lia.
Qed.

Lemma Compact_lost g j n F D index state :
  Hist V g -> logged V g j n F D -> image (n_store n) = None -> wlp (Compact index state) (fun _ n' => moved V j g n n') n.
Proof.
  intros HH H Him. unfold Compact. wlp_pures. destruct (_ || _) eqn:Eg; wlp_pures; [by eapply moved_same|].
  apply orb_false_elim in Eg as [Hlo%Z.leb_gt Hhi%Z.ltb_ge].
  destruct (termAt n index) as [t|] eqn:Et; [|wlp_pures; by eapply moved_same].
  destruct (offset n index) as [off|] eqn:Eo; [|wlp_pures; by eapply moved_same].
  destruct AsSnapshotStore as [ops|] eqn:Eops.
  2: { wlp_pures. eapply wlp_mono; [by eapply logged_unsupported|]. cbn beta. intros _ n' [H' Hst]. wlp_pures.
       eapply moved_same; [done..|]. intros _. by apply matched_follower. }
  destruct (lg_termAt V _ _ _ _ _ _ _ H Et) as [Hr HtF]. destruct (lg_offset V _ _ _ _ _ _ _ H Eo) as (_ & -> & _).
  assert (forall s err, durable s = hardOf n -> image s = None -> moved V j g n (faultUpd n s (Some err))) as Hq.
  { intros s err Es Hi. apply (moved_same V _ _ _ _ F D); [done| |intros _; by apply matched_follower].
    eapply logged_fault; [done|eapply onDisk_lost; [by apply lg_onDisk in H|done..]|].
    pose proof (so_ahead _ _ (lg_sound _ _ _ _ _ _ H)) as Hah. unfold ahead in *. nsimp. by rewrite Es. }
  set (snap := mkSnapshot index t state (n_votersOld n) (n_votersNew n)). wlp_pures. unfold storeOp at 1. unfold wlp at 1.
  pose proof (durable_snapshot ops snap (n_store n) Eops) as Ed1.
  destruct (SaveSnapshot ops snap (n_store n)) as [s1 r1] eqn:HS. cbn in Ed1.
  destruct r1 as [err|].
  { wlp_pures. eapply wlp_mono; [apply wp_wlp, failStorageWith_wp|]. intros _ n' ->. wlp_pures.
    apply Hq; [done|]. exact (proj1 (image_lost ops snap _ s1 s1 _ None Eops Him HS)). }
  wlp_pures. unfold storeOp at 1. unfold wlp at 1. nsimp. pose proof (durable_compact ops index s1 Eops) as Ed2.
  destruct (CompactLog ops index s1) as [s r] eqn:HC. cbn in Ed2.
  pose proof (proj2 (image_lost ops snap _ s1 s _ r Eops Him HS) eq_refl HC) as Hlost.
  assert (durable s = hardOf n) as Es by (unfold hardOf; congruence).
  destruct r as [err|]; wlp_pures.
  - eapply wlp_mono; [apply wp_wlp, failStorageWith_wp|]. intros _ n' ->. wlp_pures. by apply Hq.
  - apply (moved_same V _ _ _ _ F D); [done| |done]. eapply (logged_resnap g j n F D); try done.
    apply (snapshotted_compact g j n F D); try done; [lia|]. by rewrite Hlost.
Qed.

(** The log [installSnapshot] keeps. *)
Lemma keptSuffix g j n F D idx t :
  logged V g j n F D -> n_BaseIndex n < idx ->
  match offset n idx with
  | Some off => if e_Term (logAt n off) =? t then drop (Z.to_nat off) (n_Log n) else [baseEntry t]
  | None => [baseEntry t]
  end = cutAt idx t (n_BaseIndex n) (n_Log n).
Proof.
  intros H Hlt. unfold cutAt. pose proof (rp_base _ _ _ (lg_mem _ _ _ _ _ _ H)).
  rewrite offset_wf by by eapply lg_wf_log. case_decide as Hr.
  - by rewrite (logAt_lookup n idx) by lia.
  - rewrite lookup_ge_None_2; [done|]. unfold len in *. lia.
Qed.

Lemma installSnapshot_log g j n F D gl k m :
  is_u64 V -> Hist V g -> logged V g j n F D -> n_Faulted n = false -> g_log g !! n_Term n = Some gl ->
  m_SnapshotIndex m = Z.of_nat k -> termOf gl k = Some (m_SnapshotTerm m) -> announced V g (n_Term n) k ->
  n_BaseIndex n < Z.of_nat k -> staticMsg V m -> m_SnapshotOld m <> 0 ->
  wlp (installSnapshot m) (fun ok n' => if ok : bool
    then logged V g j (n' <| n_State := Follower |>) (follow k F gl) (follow k F gl) /\ n_Term n' = n_Term n /\
      n_Faulted n' = false /\ n_BaseIndex n' = Z.of_nat k
    else exists D', logged V g j n' F D' /\ n_State n' = Follower) n.
Proof.
  intros Hu HH H Hf Hgl Hi Ht Han Hlt [_ Hmask] Hold. unfold installSnapshot.
  destruct AsSnapshotStore as [ops|] eqn:Eops.
  2: { wlp_pures. eapply wlp_mono; [by eapply logged_unsupported|]. cbn beta. intros _ n' [H' Hst]. wlp_pures. eauto. }
  apply termOf_lt in Ht as Hk. pose proof (lg_ok _ _ _ _ _ _ H) as Hok.
  assert (Z.to_nat (m_SnapshotIndex m) = k) as Ek by lia.
  pose proof (keepsLog_follow V g j n F D gl k Hu HH H Hgl Hk) as Hkl.
  pose proof (kept_follow V g j k F gl _ HH Hok Hgl Hk (lg_kept_now V g j n F D H Hf)) as Hkp.
  pose proof (follow_share V g k F gl _ HH Hok Hgl Hk) as Hsh.
  assert (committed V g (n_Term n) k (follow k F gl)) as Hcm by (by eapply announced_committed).
  assert (termOf (follow k F gl) k = Some (m_SnapshotTerm m)) as Ht' by by rewrite (share_term k k _ gl).
  apply (takeSnapshot_log g j n F D gl ops); cbn; rewrite ?Ek; try done; [lia|by intros s err D' ?; exists D'|].
  intros s Es Him. wlp_pures. split; [|done].
  set (log := match offset _ _ with Some _ => _ | None => _ end).
  assert (log = cutAt (Z.of_nat k) (m_SnapshotTerm m) (n_BaseIndex n) (n_Log n)) as ->.
  { rewrite <- (keptSuffix g j n F D) by done. unfold log. by rewrite <- Hi. }
  eapply (logged_snapshotted g j n F D _ (follow k F gl)); try done.
  - split; nsimp; try done.
    + destruct (lg_sound _ _ _ _ _ _ H) as [[] Hah Hsy Hfa Ht0]. destruct Hmask as [?|[Eo Ew]]; [done|].
      unfold hardOf in *. split; unfold ahead, synced in *; nsimp; rewrite ?Es; try done.
      split; nsimp; [by unfold VoterMasks; cbn; rewrite Eo, Ew| |by right].
      unfold cutAt. destruct (n_Log n !! _); [|by apply Forall_singleton].
      destruct (_ =? _); [by apply Forall_drop|by apply Forall_singleton].
    + rewrite Hi. rewrite <- (Nat2Z.id k) at 1. apply rp_cut; rewrite ?Nat2Z.id; [apply H|done..].
    + by rewrite Ek.
    + lia.
    + pose proof (lg_applied _ _ _ _ _ _ H). lia.
  - nsimp. rewrite Hi. destruct (Z.max_spec (n_Commit n) (Z.of_nat k)) as [[_ ->]|[_ ->]].
    + by rewrite Nat2Z.id.
    + apply Hkl, H.
  - by right.
Qed.

Lemma onInstallSnapshot_log g j n F D m :
  is_u64 V -> Hist V g -> logged V g j n F D -> n_Faulted n = false -> m_Term m <= n_Term n ->
  m_Type m = MsgInstallSnapshot -> backedMsg V g m -> staticMsg V m ->
  wlp (onInstallSnapshot m) (fun _ n' => moved V j g n n') n.
Proof.
  intros Hu HH H Hf Hmt Hty Hbm Hsm. unfold onInstallSnapshot. wlp_pures. set (reject := _ || _ || _ || _).
  destruct reject eqn:Er; cbn [negb andb]; wlp_pures.
  { eapply wlp_mono; [apply send_sent; [by apply sent_refl|by apply backed_other]|].
    cbn beta. intros _ n' Hs. by eapply moved_sent; [apply extends_refl| |]. }
  unfold reject in Er. clear reject.
  apply orb_false_elim in Er as [[[H1%Z.ltb_ge H2%Z.ltb_ge]%orb_false_elim H3%Z.eqb_neq]%orb_false_elim H4].
  destruct (bm_install _ _ _ Hbm Hty) as (gl & k & Hgl & Hi & Ht & Han).
  assert (m_Term m = n_Term n) as Em by lia. rewrite Em in Hgl, Han.
  assert (forall n1 F1 D1, logged V g j (n1 <| n_State := Follower |>) F1 D1 -> n_Faulted n1 = false ->
    n_Term n1 = n_Term n -> n_BaseIndex n1 = Z.of_nat k -> share k F1 gl ->
    let n2 := n1 <| n_State := Follower |> <| n_Leader := m_From m |> <| n_elapsed := 0 |> in
    wlp (send (newMessage MsgInstallSnapshotResponse (n_ID n2) (m_From m) (n_Term n2)
                 <| m_Reject := false |> <| m_Match := n_BaseIndex n2 |>)) (fun _ n' => moved V j g n n') n2) as Hans.
  { intros n1 F1 D1 Hl Hf1 Ht1 Hb1 Hs n2. assert (logged V g j n2 F1 D1) as Hl2 by lg_upd Hl.
    assert (n_BaseIndex n2 = Z.of_nat k) as -> by done.
    eapply wlp_mono.
    { eapply (ack_send V g j n2 F1 D1 gl k MsgInstallSnapshotResponse (m_From m) 0); try done; [by cbn; rewrite Ht1|].
      by right. }
    cbn beta. intros _ n' Hm. eapply moved_from; [done..| |done]. intros _. by apply matched_follower. }
  destruct (Z.ltb_spec (n_BaseIndex n) (m_SnapshotIndex m)) as [Hlt|Hge].
  - eapply wlp_mono; [eapply (installSnapshot_log g j n F D gl k m); try done; lia|].
    cbn beta. intros ok n1 Hpost. destruct ok; wlp_pures.
    + destruct Hpost as (Hl & Ht1 & Hf1 & Hb1). eapply Hans; try done.
      eapply follow_share; [done|apply H|done|]. by apply termOf_lt in Ht.
    + destruct Hpost as (D' & Hl & Hst). eapply moved_same; [done..|]. intros _. by apply matched_follower.
  - wlp_pures. assert (m_SnapshotIndex m = n_BaseIndex n) as Eb by lia. rewrite Eb, Z.eqb_refl in H4.
    cbn [andb] in H4. apply negb_false_iff, Z.eqb_eq in H4. destruct (lg_snap _ _ _ _ _ _ H) as (_ & E1 & E2).
    apply (Hans n F D); [|done|done|lia|].
    + apply (logged_follower V _ _ _ _ _ (n_Leader n) (n_elapsed n)) in H as H0. lg_upd H0.
    + eapply log_matching; [apply H|by eapply h_ok|..|exact Ht]. rewrite H4, <- E1, <- E2. f_equal. lia.
Qed.

(** ** Messages *)

Lemma Step_log g j n F D m :
  is_u64 V -> Hist V g -> logged V g j n F D -> matched g n -> polled g n -> j <> 0 -> n_Term n < maxu64 ->
  m_Term m < maxu64 -> len F < maxu64 -> backedMsg V g m -> staticMsg V m ->
  (grant m -> (m_From m, m_Term m, j) ∈ g_votes g) -> wlp (Step m) (fun _ n' => moved V j g n n') n.
Proof.
  intros Hu HH H Hm Hp Hj HT HmT Hlen Hbm Hsm Hg. unfold Step. wlp_pures.
  destruct (n_Faulted n) eqn:Hf; wlp_pures; [by eapply moved_same|].
  eapply wlp_mono; [by eapply stepTerm_log|]. cbn beta. intros ok n1 (H1 & Hm1 & Hp1 & Hf1 & Ht1 & Hge).
  destruct ok; wlp_pures; [|by eapply moved_same]. specialize (Hge eq_refl).
  eapply (wlp_mono _ (fun _ n' => moved V j g n1 n')); [|intros _ n' Hn'; by eapply moved_from].
  assert (n_Term n1 < maxu64) as HT1 by (destruct Ht1; lia). cbn in Hf1. unfold dispatch.
  repeat (match goal with |- wlp (if ?a =? ?b then _ else _) _ _ => destruct (Z.eqb_spec a b) as [Hty|?] end).
  - by eapply onPreVote_log.
  - by eapply onPreVoteResponse_log.
  - by eapply onVote_log.
  - eapply onVoteResponse_log; eauto.
  - eapply onAppend_log; eauto. apply Hsm.
  - eapply onAppendResponse_log; eauto.
  - eapply onInstallSnapshot_log; eauto.
  - by eapply onInstallSnapshotResponse_log.
  - by eapply onTimeoutNow_log.
  - wlp_pures. by eapply moved_same.
Qed.

(** ** Client calls *)

(** Appending a command and telling the peers. *)
Lemma propose_log g j n F D e :
  Hist V g -> logged V g j n F D -> n_State n = Leader -> n_Faulted n = false -> e_Term e = n_Term n ->
  cfgfree e = true -> len F < maxu64 ->
  wlp (ok ← appendLocal e; if ok : bool then broadcastAppend ;; mret true else mret false)
    (fun _ n' => moved V j g n n') n.
Proof.
  intros HH H Hst Hf He Hcf Hlen. apply wlp_bind. eapply wlp_mono; [by eapply appendLocal_log|].
  cbn beta. intros ok n1 Ha. pose proof (appended_matched _ _ _ _ _ Ha) as Hm1.
  destruct Ha as (g1 & F1 & D1 & Hx & H1 & Ht & Hp & Hmt & _ & Hs).
  destruct ok; wlp_pures; [|done].
  eapply wlp_mono; [by apply (broadcastAppend_log V g1 j n1 n1 F1 D1 (sent_refl V g1 j n1 F1 D1 H1)); rewrite Hs|].
  cbn beta. intros _ n2 Hs2. wlp_pures. eapply moved_sent; [done| |done].
  apply matched_grows; [apply Hx|done..|]. by left.
Qed.

Lemma Propose_log g j n F D command :
  Hist V g -> logged V g j n F D -> len F < maxu64 -> wlp (Propose command) (fun _ n' => moved V j g n n') n.
Proof.
  intros HH H Hlen. unfold Propose. do 2 wlp_pure. destruct (_ || _) eqn:E; [wlp_pures; by eapply moved_same|].
  apply orb_false_elim in E as [Hst%negb_false_iff%bool_decide_eq_true_1 Hf]. by eapply propose_log.
Qed.

Lemma ProposeRequest_log g j n F D operation cid rid key value :
  Hist V g -> logged V g j n F D -> len F < maxu64 ->
  wlp (ProposeRequest operation cid rid key value) (fun _ n' => moved V j g n n') n.
Proof.
  intros HH H Hlen. unfold ProposeRequest. do 2 wlp_pure.
  destruct (negb _ || _ || _ || _ || _) eqn:E; [wlp_pures; by eapply moved_same|].
  do 3 apply orb_false_elim in E as [E _].
  apply orb_false_elim in E as [Hst%negb_false_iff%bool_decide_eq_true_1 Hf]. by eapply propose_log.
Qed.

Lemma StartReadIndex_log g j n F D context :
  Hist V g -> logged V g j n F D -> wlp (StartReadIndex context) (fun _ n' => moved V j g n n') n.
Proof.
  intros HH H. unfold StartReadIndex. wlp_pures.
  destruct (negb _ || _ || _ || _) eqn:E; wlp_pures; [by eapply moved_same|].
  do 3 apply orb_false_elim in E as [E _]. apply negb_false_iff, bool_decide_eq_true_1 in E.
  unfold termAtMust. wlp_pures. destruct (termAt n _); wlp_pures. wlp_call bitOf_wlp. intros bit n1 [-> _]. wlp_pures.
  eapply (wlp_mono _ (fun _ n1 => n1 = n)).
  { destruct (_ =? _); wlp_pures; [done|].
    eapply wlp_mono; [apply (quorumMask_static V), (lg_sound _ _ _ _ _ _ H)|]. by intros q n1 [-> _]. }
  cbn beta. intros allowed n1 ->. destruct allowed; wlp_pures; [|by eapply moved_same].
  set (n1 := n <| n_readContext := context |> <| n_readAckMask := bit |>).
  assert (logged V g j n1 F D) as H1 by lg_upd H.
  eapply wlp_mono; [apply (quorumMask_static V), (lg_sound _ _ _ _ _ _ H1)|]. intros q n2 [-> _]. wlp_pures.
  set (n2 := n1 <| n_readReady := q |>). assert (logged V g j n2 F D) as H2 by lg_upd H1.
  eapply (wlp_mono _ (fun _ n3 => logged V g j n3 F D /\ n_State n3 = Leader /\ (matched g n -> matched g n3))).
  { destruct q; wlp_pures; [|done]. split; [lg_upd H2|done]. }
  cbn beta. intros _ n3 (H3 & Hst3 & Hm3). wlp_pures.
  eapply wlp_mono.
  { apply (wlp_forM_ (fun n' => sent V g j n3 F D n')); [by apply sent_refl|]. intros p n4 _ Hs4.
    by apply appendToContext_log. }
  cbn beta. intros _ n4 Hs4. wlp_pures. by eapply moved_sent; [apply extends_refl| |].
Qed.

Lemma TransferLeadership_log g j n F D target :
  Hist V g -> logged V g j n F D -> wlp (TransferLeadership target) (fun _ n' => moved V j g n n') n.
Proof.
  intros HH H. unfold TransferLeadership. wlp_pures. destruct (negb _ || _) eqn:E; wlp_pures; [by eapply moved_same|].
  apply orb_false_elim in E as [Hst%negb_false_iff%bool_decide_eq_true_1 _].
  wlp_call isVoter_wlp; [apply H|]. intros v n1 ->. destruct v; wlp_pures; [|by eapply moved_same].
  destruct (_ <? _); wlp_pures.
  - eapply wlp_mono; [by eapply appendTo_moved; [apply extends_refl| | |]|]. cbn beta. intros _ n' Hm. by wlp_pures.
  - eapply wlp_mono; [apply send_sent; [by apply sent_refl|]|].
    + apply backed_other; cbn; [done..|]. by intros [? | ?].
    + cbn beta. intros _ n' Hs. wlp_pures. by eapply moved_sent; [apply extends_refl| |].
Qed.

Lemma applyLoop_log g j n F D (l : list Z) dst :
  logged V g j n F D -> n_Applied n + Z.of_nat (length l) <= n_Commit n ->
  wlp (foldM (fun dst (_ : Z) =>
      modify (fun n => n <| n_Applied := w64 (n_Applied n + 1) |>) ;;
      n ← get;
      entry ← entryAt (n_Applied n);
      mret (if e_Kind entry =? EntryNormal then dst ++ [entry] else dst)) dst l)
    (fun _ n' => logged V g j n' F D /\ exists a, n' = n <| n_Applied := a |>) n.
Proof.
  revert n dst. induction l as [|x l IH]; intros n dst H Hc; cbn; wlp_pures.
  { split; [done|]. exists (n_Applied n). by destruct n. }
  cbn [length] in Hc. pose proof (lg_applied _ _ _ _ _ _ H) as Ha. pose proof (rp_base _ _ _ (lg_mem _ _ _ _ _ _ H)) as Hb.
  assert (n_Commit n < len F) as Hlt by (by eapply commit_lt). pose proof (lg_len _ _ _ _ _ _ H) as Hmax.
  rewrite w64_small by (unfold is_u64, maxu64 in *; lia).
  set (n1 := n <| n_Applied := n_Applied n + 1 |>).
  assert (logged V g j n1 F D) as H1 by (lg_upd H; cbn; lia).
  eapply wlp_mono; [apply (entryAt_static V), (lg_sound _ _ _ _ _ _ H1)|]. intros e n2 [-> _]. wlp_pures.
  eapply wlp_mono; [apply IH; [done|cbn; lia]|]. cbn beta. intros _ n3 (H3 & a & ->). split; [done|]. by exists a.
Qed.

Lemma ApplyEntries_log g j n F D dst :
  Hist V g -> logged V g j n F D -> wlp (ApplyEntries dst) (fun _ n' => moved V j g n n') n.
Proof.
  intros HH H. unfold ApplyEntries. wlp_pures. pose proof (lg_applied _ _ _ _ _ _ H).
  eapply wlp_mono; [eapply (applyLoop_log g j n F D); [done|rewrite length_seqZ; lia]|].
  cbn beta. intros _ n' (H' & a & ->). by eapply moved_same.
Qed.

Lemma Drain_log g j n F D dst :
  Hist V g -> logged V g j n F D -> wlp (Drain dst) (fun _ n' => moved V j g n n') n.
Proof.
  intros HH H. unfold Drain. wlp_pures. apply (moved_same V _ _ _ _ F D); [done| |done]. lg_upd H. cbn. set_solver.
Qed.

(** ** Restarts *)

Lemma logged_peers g j n F D ps nx mt : logged V g j n F D -> logged V g j (peerUpd n ps nx mt) F D.
Proof. intros H. lg_upd H. Qed.

Lemma restoreLoop_log g j F D (l : list Z) p n :
  logged V g j n F D ->
  wlp (restoreConfigurationState_loop l V 0 p)
    (fun r n' => logged V g j n' F D /\ (exists ps nx mt, n' = peerUpd n ps nx mt) /\
       match r with Some (o, w, _) => (o, w) = (V, 0) | None => True end) n.
Proof.
  assert (forall n', exists ps nx mt, n' = peerUpd n' ps nx mt) as Hself.
  { intros n'. exists (n_Peers n'), (n_next n'), (n_match n'). by destruct n'. }
  revert p n. induction l as [|i l IH]; intros p n H; cbn [restoreConfigurationState_loop].
  { by wlp_pures. }
  wlp_pures. eapply wlp_mono; [apply (entryAt_static V), (lg_sound _ _ _ _ _ _ H)|].
  intros e n1 [-> [E1 E2]%cfgfree_kind]. wlp_pures. rewrite E1, E2.
  assert (wlp (ensurePeers (Z.lor (e_OldVoters e) (e_NewVoters e)) ;; restoreConfigurationState_loop l V 0 p)
    (fun r n' => logged V g j n' F D /\ (exists ps nx mt, n' = peerUpd n ps nx mt) /\
       match r with Some (o, w, _) => (o, w) = (V, 0) | None => True end) n) as Hgo.
  { wlp_pures. wlp_call ensurePeers_wlp. intros _ n1 (ps & nx & mt & ->).
    eapply wlp_mono; [by apply IH, logged_peers|]. cbn beta. intros r n2 (H2 & (ps2 & nx2 & mt2 & ->) & Hr).
    split; [done|]. split; [|done]. by exists ps2, nx2, mt2. }
  destruct (e_Kind e =? EntryNormal).
  { destruct (_ || _); [by wlp_pures|done]. }
  destruct (e_Kind e =? EntryNoop); [|by wlp_pures]. by destruct (_ || _); [wlp_pures|].
Qed.

Lemma recoverTail_log g j F D n :
  logged V g j n F D -> n_State n = Follower ->
  wlp recoverTail (fun _ n' => logged V g j n' F D /\ n_State n' = Follower) n.
Proof.
  intros H Hst. unfold recoverTail. wlp_pures. destruct (_ <? _); [by eapply logged_unsupported|].
  unfold restoreConfigurationState. wlp_pures.
  pose proof (st_voters _ _ (so_static _ _ (lg_sound _ _ _ _ _ _ H))) as [= -> ->].
  eapply wlp_mono; [by apply restoreLoop_log|]. intros [[[o w] p]|] n1 (H1 & (ps & nx & mt & ->) & Hr); wlp_pures.
  - injection Hr as -> ->. split; [|done]. destruct H1. split; try assumption.
    destruct lg_sound as [[] ? ? ? ?]. split; try assumption. by split.
  - by eapply logged_unsupported.
Qed.

(** A node set up from what the disk of [n] holds. *)
Lemma logged_boot g j n F D n' :
  logged V g j n F D -> n_ID n' = j -> n_State n' = Follower -> n_Faulted n' = false -> n_outbound n' = [] ->
  sound V n' -> hardOf n' = hardOf n -> n_Term n' = h_Term (hardOf n) -> n_VotedFor n' = h_VotedFor (hardOf n) ->
  represents D (n_BaseIndex n') (n_Log n') -> image (n_store n') = image (n_store n) ->
  (forall b l, image (n_store n') = Some (b, l) -> b = n_BaseIndex n') ->
  n_Commit n' = Z.max (h_Commit (hardOf n)) (n_BaseIndex n') -> n_Applied n' = n_BaseIndex n' ->
  committed V g (h_Term (hardOf n)) (Z.to_nat (n_BaseIndex n')) D ->
  s_LastIndex (n_snapshot n') = n_BaseIndex n' -> s_LastTerm (n_snapshot n') = n_BaseTerm n' ->
  termOf D (Z.to_nat (n_BaseIndex n')) = Some (n_BaseTerm n') -> logged V g j n' D D.
Proof.
  intros H Hid Hst Hf Hout Hs Hh Ht Hv Hr Hi Hib Hc Ha Hcb Hs1 Hs2 Hs3.
  pose proof (so_ahead _ _ (lg_sound _ _ _ _ _ _ H)) as Hah. unfold ahead in Hah. fold (hardOf n) in Hah.
  destruct H. split; rewrite ?Hh, ?Ht, ?Hv, ?Hi, ?Hout, ?Hs1, ?Hs2, ?Hc, ?Ha; try assumption; try done.
  - lia.
  - lia.
  - destruct (Z.max_spec (h_Commit (hardOf n)) (n_BaseIndex n')) as [[_ ->]|[_ ->]]; done.
  - intros _. split; [done|]. rewrite <- Hi. exact Hib.
  - intros t k Hin. specialize (lg_acks t k Hin). lia.
  - by rewrite Hst.
  - by rewrite Hst.
  - intros T F' HF. specialize (lg_cands T F' HF). lia.
  - intros T w Hin Hw. destruct (lg_voted T w Hin Hw) as [?|[-> Ev]]; [left; lia|].
    destruct Hah as [?|[E [E'|E']]]; [left; lia|right; split; congruence|congruence].
  - set_solver.
Qed.

Lemma NewRecoveredNode_log g j n F D peers timeout store log f n' :
  logged V g j n F D -> NewNodeWithStore j peers timeout store = inr f -> n_votersOld f = V ->
  durable store = hardOf n -> Forall (fun e => cfgfree e = true) log ->
  image store = image (n_store n) -> image store = Some (0, if decide (log = []) then [zeroEntry] else log) ->
  NewRecoveredNode j peers timeout store (durable store) log = Done () n' ->
  exists F' D', logged V g j n' F' D' /\ n_State n' = Follower.
Proof.
  intros H Hnew HV Hd Hlog Hi1 Hi2 E. unfold NewRecoveredNode, onNew in E. rewrite Hnew in E.
  apply NewNodeWithStore_fields in Hnew. rewrite HV in Hnew. clear HV. subst f. rewrite Hd in E.
  set (n0 := recoverInit (hardOf n) log (freshNode j peers timeout store V)).
  change (recoverTail n0 = Done () n') in E.
  rewrite Hi1 in Hi2. destruct (lg_image _ _ _ _ _ _ H _ _ Hi2) as [Hr Hcm].
  pose proof (so_ahead _ _ (lg_sound _ _ _ _ _ _ H)) as Hah. pose proof (so_term _ _ (lg_sound _ _ _ _ _ _ H)) as Ht0.
  unfold ahead in Hah. fold (hardOf n) in Hah. pose proof (lg_dpos _ _ _ _ _ _ H) as Hpos.
  assert (logged V g j n0 D D) as H0.
  { eapply (logged_boot g j n F D); try done; cbn.
    - apply sound_boot; try done; cbn; [|by unfold synced; cbn; rewrite Hd|lia].
      split; [done| |by left]. cbn. by case_decide; [apply Forall_singleton|].
    - intros b l. rewrite Hi1, Hi2. by intros [= <- _].
    - lia.
    - change (Z.to_nat 0) with 0%nat. unfold termOf. by rewrite (ok_zero _ _ (lg_dok _ _ _ _ _ _ H)). }
  exists D, D. apply (wlp_Done recoverTail _ n0 () n' (recoverTail_log g j D D n0 H0 eq_refl) E).
Qed.

Lemma NewRecoveredNodeWithSnapshot_log g j n F D peers timeout store snap x suffix f n' :
  V <> 0 -> logged V g j n F D -> NewNodeWithStore j peers timeout store = inr f ->
  s_OldVoters snap = V -> s_NewVoters snap = 0 ->
  durable store = hardOf n -> Forall (fun e => cfgfree e = true) suffix ->
  image store = image (n_store n) -> image store = Some (s_LastIndex snap, x :: suffix) -> e_Term x = s_LastTerm snap ->
  NewRecoveredNodeWithSnapshot j peers timeout store (durable store) snap suffix = Done () n' ->
  exists F' D', logged V g j n' F' D' /\ n_State n' = Follower.
Proof.
  intros HV H Hnew Ho Hw Hd Hlog Hi1 Hi2 Hx E. unfold NewRecoveredNodeWithSnapshot, onNew in E. rewrite Hnew in E.
  apply NewNodeWithStore_fields in Hnew. set (v := n_votersOld f) in *. clearbody v. subst f. rewrite Hd in E.
  set (n0 := snapshotInit (hardOf n) snap suffix (freshNode j peers timeout store v)).
  rewrite Hi1 in Hi2. destruct (lg_image _ _ _ _ _ _ H _ _ Hi2) as [Hr Hcm].
  pose proof (so_ahead _ _ (lg_sound _ _ _ _ _ _ H)) as Hah. pose proof (so_term _ _ (lg_sound _ _ _ _ _ _ H)) as Ht0.
  unfold ahead in Hah. fold (hardOf n) in Hah.
  assert (termOf D (Z.to_nat (s_LastIndex snap)) = Some (s_LastTerm snap)) as Htm.
  { rewrite (rp_head _ _ _ Hr), <- Hx. done. }
  assert (logged V g j n0 D D) as H0.
  { eapply (logged_boot g j n F D); try done; cbn.
    - apply sound_boot; try done; cbn; [|by unfold synced; cbn; rewrite Hd|lia].
      split; [|by constructor|by right]. unfold VoterMasks. cbn. by rewrite Ho, Hw.
    - destruct Hr as [Hb Hne Hln Hhd Htl]. split; cbn in *; try done.
      intros [|i] Hi; [lia|]. by apply (Htl (S i)).
    - intros b l. rewrite Hi1, Hi2. by intros [= <- _]. }
  exists D, D.
  match type of E with ?m ?s = _ =>
    apply (wlp_Done m (fun _ n' => logged V g j n' D D /\ n_State n' = Follower) s () n'); [|exact E] end.
  clear E. wlp_pures. rewrite (proj2 (Z.eqb_neq (s_OldVoters snap) 0)) by congruence. wlp_pures.
  wlp_call ensurePeers_wlp. intros _ n1 (ps & nx & mt & ->). wlp_pures.
  match goal with |- wlp _ _ ?x =>
    assert (x = peerUpd n0 ps nx mt) as -> by (unfold n0, snapshotInit; nrefl) end.
  by apply recoverTail_log; [apply logged_peers|].
Qed.

End lead.
