(* ===== verification/Bytes.v ===== *)
(** * Bytes, little-endian integers and CRC-32C

    What the codecs of the repository use of [encoding/binary] and [hash/crc32]:
    byte slices as lists of integers below 256, [copy]/[Put] into a fixed buffer,
    slice expressions, little-endian integers of 1 to 8 bytes, and the Castagnoli
    checksum.  The main results are the round trip of little-endian integers and
    that a changed byte always changes the checksum. *)

From S2P Require Import Prelude.

Definition byte (b : Z) : Prop := 0 <= b < 256.
Abbreviation bytes := (list Z).

(** ** Little-endian integers *)

(** [binary.LittleEndian.PutUint<8n>]. *)
Fixpoint le (n : nat) (z : Z) : bytes :=
  match n with
  | O => []
  | S n => z mod 256 :: le n (z / 256)
  end.

(** [binary.LittleEndian.Uint<8n>] of a slice of that length. *)
Fixpoint leGet (bs : bytes) : Z :=
  match bs with
  | [] => 0
  | b :: bs => b + 256 * leGet bs
  end.

Lemma length_le n z : length (le n z) = n.
Proof. revert z. induction n as [|n IH]; intros z; cbn; [done|]. by rewrite IH. Qed.

Lemma le_bytes n z : Forall byte (le n z).
Proof.
  revert z. induction n as [|n IH]; intros z; cbn; constructor; [|apply IH].
  unfold byte. pose proof (Z.mod_pos_bound z 256). lia.
Qed.

Lemma leGet_le n z : 0 <= z < 256 ^ Z.of_nat n -> leGet (le n z) = z.
Proof.
  revert z. induction n as [|n IH]; intros z Hz; cbn [le leGet].
  - cbn in Hz. lia.
  - rewrite Nat2Z.inj_succ, Z.pow_succ_r in Hz by lia. rewrite IH.
    + pose proof (Z.div_mod z 256). lia.
    + split; [apply Z.div_pos; lia|]. apply Z.div_lt_upper_bound; lia.
Qed.

Lemma leGet_range bs : Forall byte bs -> 0 <= leGet bs < 256 ^ Z.of_nat (length bs).
Proof.
  induction 1 as [|b bs Hb Hbs IH]; cbn [leGet length]; [lia|].
  rewrite Nat2Z.inj_succ, Z.pow_succ_r by lia. unfold byte in Hb. lia.
Qed.

Lemma le_leGet bs : Forall byte bs -> le (length bs) (leGet bs) = bs.
Proof.
  induction 1 as [|b bs Hb Hbs IH]; cbn [leGet length le]; [done|].
  rewrite (Z.mul_comm 256), Z.mod_add, Z.div_add, Z.mod_small, Z.div_small by (unfold byte in *; lia).
  by rewrite Z.add_0_l, IH.
Qed.

(** Different slices of one length are different integers. *)
Lemma leGet_inj bs bs' :
  Forall byte bs -> Forall byte bs' -> length bs = length bs' -> leGet bs = leGet bs' -> bs = bs'.
Proof. intros H1 H2 Hl E. rewrite <- (le_leGet bs), <- (le_leGet bs') by done. by rewrite Hl, E. Qed.

(** ** Slices *)

(** [src[a:b]]. *)
Definition sub (a b : nat) (l : bytes) : bytes := take (b - a) (drop a l).

(** [copy(dst[off:], bs)] where [bs] fits. *)
Definition put (off : nat) (bs : bytes) (dst : bytes) : bytes :=
  take off dst ++ bs ++ drop (off + length bs) dst.

Lemma sub_skip a b (x l : bytes) :
  (length x <= a)%nat -> sub a b (x ++ l) = sub (a - length x) (b - length x) l.
Proof.
  intros Ha. unfold sub. rewrite drop_app_ge by done. f_equal. lia.
Qed.

Lemma sub_head n (x l : bytes) : length x = n -> sub 0 n (x ++ l) = x.
Proof. intros <-. unfold sub. rewrite drop_0, Nat.sub_0_r. by rewrite take_app_length. Qed.

(** Slicing the [k]-th of several fields laid out one after the other. *)
Lemma sub_field (l : list bytes) (k : nat) (x tl : bytes) (a b : nat) :
  l !! k = Some x -> length (concat (take k l)) = a -> (a + length x)%nat = b ->
  sub a b (concat l ++ tl) = x.
Proof.
  intros Hk Ha Hb. rewrite <- (take_drop_middle l k x Hk) at 1. rewrite concat_app. cbn [concat].
  rewrite <- !app_assoc. rewrite sub_skip by lia. rewrite Ha, Nat.sub_diag. apply sub_head. lia.
Qed.

Lemma sub_insert_out a b i x (l : bytes) :
  (i < a \/ b <= i)%nat -> (b <= length l)%nat -> sub a b (<[i := x]> l) = sub a b l.
Proof.
  intros Hi Hb. unfold sub. destruct (Nat.le_gt_cases b i) as [Hge|Hlt].
  - apply list_eq. intros j. destruct (Nat.lt_ge_cases j (b - a)).
    + rewrite !lookup_take_lt, !lookup_drop by done. rewrite list_lookup_insert_ne by lia. done.
    + by rewrite !lookup_take_ge by done.
  - rewrite drop_insert_lt by lia. done.
Qed.

Lemma sub_insert_in a b i x (l : bytes) :
  (a <= i < b)%nat -> sub a b (<[i := x]> l) = <[(i - a)%nat := x]> (sub a b l).
Proof.
  intros Hi. unfold sub. rewrite drop_insert_ge by lia. by rewrite take_insert_lt by lia.
Qed.

Lemma length_sub a b l : (b <= length l)%nat -> length (sub a b l) = (b - a)%nat.
Proof. intros Hb. unfold sub. rewrite length_take, length_drop. lia. Qed.

(** Writing at the end of what is already written. *)
Lemma put_next off (P bs dst : bytes) :
  length P = off -> (off + length bs <= length dst)%nat ->
  put off bs (P ++ drop off dst) = (P ++ bs) ++ drop (off + length bs) dst.
Proof.
  intros HP Hd. unfold put. rewrite take_app_ge, HP, Nat.sub_diag, app_nil_r by lia.
  rewrite drop_app_ge by lia. rewrite HP, drop_drop, <- app_assoc. do 3 f_equal. lia.
Qed.

Lemma length_put off bs dst :
  (off + length bs <= length dst)%nat -> length (put off bs dst) = length dst.
Proof. intros H. unfold put. rewrite !length_app, length_take, length_drop. lia. Qed.

(** ** CRC-32C *)

(** The reversed Castagnoli polynomial. *)
Definition castagnoli : Z := 0x82F63B78.

(** One bit of the register. *)
Definition crcBit (c : Z) : Z :=
  if Z.testbit c 0 then Z.lxor (Z.shiftr c 1) castagnoli else Z.shiftr c 1.

(** One byte of input: eight bits. *)
Definition crcByte (c b : Z) : Z :=
  crcBit (crcBit (crcBit (crcBit (crcBit (crcBit (crcBit (crcBit (Z.lxor c b)))))))).

Definition ones32 : Z := 2 ^ 32 - 1.

(** [crc32.Update]: the register is inverted before and after. *)
Definition crcUpdate (crc : Z) (p : bytes) : Z :=
  Z.lxor (foldl crcByte (Z.lxor crc ones32) p) ones32.

(** [crc32.Checksum(p, castagnoliTable)]. *)
Definition crc32c (p : bytes) : Z := crcUpdate 0 p.

Lemma u32_of_bits z : 0 <= z -> (forall i, 32 <= i -> Z.testbit z i = false) -> is_u32 z.
Proof.
  intros Hz Hb. split; [done|].
  assert (z = z mod 2 ^ 32) as ->; [|apply Z.mod_pos_bound; lia].
  apply Z.bits_inj'. intros i Hi. destruct (Z.lt_ge_cases i 32).
  - by rewrite Z.mod_pow2_bits_low.
  - rewrite Z.mod_pow2_bits_high by lia. by rewrite Hb.
Qed.

Lemma testbit_ge32 z i : is_u32 z -> 32 <= i -> Z.testbit z i = false.
Proof.
  intros [H1 H2] Hi. destruct (Z.eq_dec z 0) as [->|]; [apply Z.bits_0|].
  apply Z.bits_above_log2; [done|]. apply Z.log2_lt_pow2; [lia|].
  eapply Z.lt_le_trans; [done|]. by apply Z.pow_le_mono_r.
Qed.

Lemma lxor_u32 a b : is_u32 a -> is_u32 b -> is_u32 (Z.lxor a b).
Proof.
  intros Ha Hb. apply u32_of_bits; [apply Z.lxor_nonneg; unfold is_u32 in *; tauto|].
  intros i Hi. by rewrite Z.lxor_spec, !testbit_ge32.
Qed.

Lemma shiftr1_u32 c : is_u32 c -> is_u32 (Z.shiftr c 1) /\ Z.testbit (Z.shiftr c 1) 31 = false.
Proof.
  intros Hc. split.
  - apply u32_of_bits; [apply Z.shiftr_nonneg; unfold is_u32 in *; tauto|].
    intros i Hi. rewrite Z.shiftr_spec by lia. apply testbit_ge32; [done|lia].
  - rewrite Z.shiftr_spec by lia. by apply testbit_ge32.
Qed.

Lemma crcBit_u32 c : is_u32 c -> is_u32 (crcBit c).
Proof.
  intros Hc. unfold crcBit. destruct (shiftr1_u32 c Hc) as [Hs _].
  destruct (Z.testbit c 0); [|done]. apply lxor_u32; [done|]. by split.
Qed.

(** The top bit of the result is the bit shifted out, so the step can be undone. *)
Lemma crcBit_top c : is_u32 c -> Z.testbit (crcBit c) 31 = Z.testbit c 0.
Proof.
  intros Hc. unfold crcBit. destruct (shiftr1_u32 c Hc) as [_ Hs].
  destruct (Z.testbit c 0); [|done]. by rewrite Z.lxor_spec, Hs.
Qed.

Lemma crcBit_inj c c' : is_u32 c -> is_u32 c' -> crcBit c = crcBit c' -> c = c'.
Proof.
  intros Hc Hc' E. assert (Z.testbit c 0 = Z.testbit c' 0) as E0.
  { rewrite <- !crcBit_top by done. by rewrite E. }
  assert (Z.shiftr c 1 = Z.shiftr c' 1) as Es.
  { unfold crcBit in E. rewrite <- E0 in E. destruct (Z.testbit c 0); [|done].
    apply (f_equal (fun x => Z.lxor x castagnoli)) in E.
    by rewrite !Z.lxor_assoc, Z.lxor_nilpotent, !Z.lxor_0_r in E. }
  apply Z.bits_inj'. intros i Hi. destruct (Z.eq_dec i 0) as [->|Hne]; [done|].
  apply (f_equal (fun x => Z.testbit x (i - 1))) in Es. rewrite !Z.shiftr_spec in Es by lia.
  by replace (i - 1 + 1) with i in Es by lia.
Qed.

Lemma lxor_inj_r a b c : Z.lxor a c = Z.lxor b c -> a = b.
Proof.
  intros E. apply (f_equal (fun x => Z.lxor x c)) in E.
  by rewrite !Z.lxor_assoc, Z.lxor_nilpotent, !Z.lxor_0_r in E.
Qed.

Lemma lxor_inj_l a b c : Z.lxor c a = Z.lxor c b -> a = b.
Proof. rewrite !(Z.lxor_comm c). apply lxor_inj_r. Qed.

Lemma byte_u32 b : byte b -> is_u32 b.
Proof. unfold byte, is_u32. lia. Qed.

Create HintDb crc discriminated.
#[global] Hint Resolve crcBit_u32 lxor_u32 byte_u32 : crc.

Lemma crcByte_u32 c b : is_u32 c -> byte b -> is_u32 (crcByte c b).
Proof. intros. unfold crcByte. auto 12 with crc. Qed.
#[global] Hint Resolve crcByte_u32 : crc.

(** The register after a byte determines the register before it (for the same
    byte) and the byte (for the same register). *)
Lemma crcByte_inj c c' b b' :
  is_u32 c -> is_u32 c' -> byte b -> byte b' -> crcByte c b = crcByte c' b' -> Z.lxor c b = Z.lxor c' b'.
Proof.
  intros Hc Hc' Hb Hb' E. unfold crcByte in E.
  do 8 (apply crcBit_inj in E; [|by auto 12 with crc..]). done.
Qed.

Lemma foldl_crc_u32 c p : is_u32 c -> Forall byte p -> is_u32 (foldl crcByte c p).
Proof. intros Hc Hp. revert c Hc. induction Hp; intros c Hc; cbn; auto with crc. Qed.

Lemma foldl_crc_inj c c' p :
  is_u32 c -> is_u32 c' -> Forall byte p -> foldl crcByte c p = foldl crcByte c' p -> c = c'.
Proof.
  intros Hc Hc' Hp. revert c c' Hc Hc'. induction Hp as [|b p Hb Hp IH]; intros c c' Hc Hc' E; [done|].
  cbn in E. apply IH in E; [|by auto with crc..].
  apply crcByte_inj in E; [|done..]. by apply lxor_inj_r in E.
Qed.

Lemma ones32_u32 : is_u32 ones32.
Proof. by split. Qed.

Lemma crc32c_u32 p : Forall byte p -> is_u32 (crc32c p).
Proof.
  intros Hp. apply lxor_u32; [|apply ones32_u32]. apply foldl_crc_u32; [|done]. apply ones32_u32.
Qed.

(** Changing one byte changes the checksum. *)
Lemma crc32c_change p1 b b' p2 :
  Forall byte p1 -> byte b -> byte b' -> Forall byte p2 -> b <> b' ->
  crc32c (p1 ++ b :: p2) <> crc32c (p1 ++ b' :: p2).
Proof.
  intros H1 Hb Hb' H2 Hne E. apply lxor_inj_r in E. rewrite !foldl_app in E. cbn [foldl] in E.
  set (c := foldl crcByte _ p1) in E.
  assert (is_u32 c) as Hc by (apply foldl_crc_u32; [apply ones32_u32|done]).
  apply foldl_crc_inj in E; [|by auto with crc..|done]. apply crcByte_inj in E; [|done..].
  by apply lxor_inj_l in E.
Qed.

Lemma crc32c_insert p i b :
  Forall byte p -> byte b -> (i < length p)%nat -> p !! i <> Some b ->
  crc32c (<[i := b]> p) <> crc32c p.
Proof.
  intros Hp Hb Hi Hne. destruct (lookup_lt_is_Some_2 p i Hi) as [b0 Hb0].
  assert (byte b0) as Hb0' by (by eapply Forall_lookup_1 in Hp).
  rewrite insert_take_drop by done. rewrite <- (take_drop_middle p i b0 Hb0) at 3.
  apply crc32c_change; [by apply Forall_take|done|done|by apply Forall_drop|congruence].
Qed.

(** Writing a slice after another is one checksum of their concatenation. *)
Lemma crcUpdate_app crc p q : crcUpdate (crcUpdate crc p) q = crcUpdate crc (p ++ q).
Proof.
  unfold crcUpdate. by rewrite foldl_app, (Z.lxor_assoc _ ones32), Z.lxor_nilpotent, Z.lxor_0_r.
Qed.

(** A list followed by its checksum, with one byte changed, no longer matches. *)
Lemma sealed_changed (L : bytes) (i : nat) b :
  Forall byte L -> (i < length L + 4)%nat -> byte b -> (L ++ le 4 (crc32c L)) !! i <> Some b ->
  crc32c (take (length L) (<[i := b]> (L ++ le 4 (crc32c L)))) <>
  leGet (drop (length L) (<[i := b]> (L ++ le 4 (crc32c L)))).
Proof.
  intros HL Hi Hb Hne. assert (leGet (le 4 (crc32c L)) = crc32c L) as Hc by apply leGet_le, crc32c_u32, HL.
  destruct (Nat.lt_ge_cases i (length L)) as [Hlt|Hge].
  - rewrite insert_app_l by done. rewrite take_app_length', drop_app_length' by (by rewrite length_insert).
    rewrite Hc. apply crc32c_insert; [done|done|done|]. by rewrite lookup_app_l in Hne.
  - rewrite insert_app_r_alt by done. rewrite take_app_length, drop_app_length. rewrite <- Hc at 1.
    intros E. apply leGet_inj in E; [|apply le_bytes|by apply Forall_insert; [apply le_bytes|]|by rewrite length_insert].
    rewrite lookup_app_r, E in Hne by done.
    rewrite list_lookup_insert_eq in Hne by (rewrite length_le; lia). exact (Hne eq_refl).
Qed.
