(* ===== verification/Wal.v ===== *)
(** * The write-ahead log

    [storage/storage.go] and [storage/wal]: the fixed-size checksummed record,
    the device interface with its in-memory implementation, and [Log].  Results:
    a record decodes to what was encoded; a record with one changed byte is
    rejected; recovery returns exactly the records that were written, whatever
    part of an unfinished record is left behind by a crash. *)

From S2P Require Import Prelude Bytes.

(** ** storage/storage.go *)

Module Storage.

Record Entry := mkEntry {
  Index : Z;
  Term : Z;
  Command : Z;
  Kind : Z;
  OldVoters : Z;
  NewVoters : Z;
  Operation : Z;
  ClientID : Z;
  RequestID : Z;
  Key : Z;
  Value : Z
}.

Definition zero : Entry := mkEntry 0 0 0 0 0 0 0 0 0 0 0.

#[global] Instance eta_Entry : Eta Entry := fun e =>
  mkEntry (Index e) (Term e) (Command e) (Kind e) (OldVoters e) (NewVoters e)
    (Operation e) (ClientID e) (RequestID e) (Key e) (Value e).

(** The field values fit their Go types. *)
Definition wf (e : Entry) : Prop :=
  is_u64 (Index e) /\ is_u64 (Term e) /\ is_u64 (Command e) /\ is_u8 (Kind e) /\
  is_u64 (OldVoters e) /\ is_u64 (NewVoters e) /\ is_u8 (Operation e) /\
  is_u64 (ClientID e) /\ is_u64 (RequestID e) /\ is_u64 (Key e) /\ is_u64 (Value e).

End Storage.

(** ** storage/wal/format.go *)

Definition RecordSize : nat := 112.
Definition version : Z := 3.

(** HYPWAL03 *)
Definition magic : bytes := [72; 89; 80; 87; 65; 76; 48; 51].

Definition ErrChecksum : error := "wal: checksum mismatch".
Definition ErrFormat : error := "wal: invalid record format".
Definition ErrSequence : error := "wal: non-contiguous sequence".
Definition ErrInvalidTear : error := "wal: invalid torn-write length".

Record Record := mkRecord { r_Sequence : Z; r_Entry : Storage.Entry }.

(** The writes of [Encode] before the checksum, in order, into the buffer. *)
Definition encodeBody (dst : bytes) (r : Record) : bytes :=
  let e := r_Entry r in
  let dst := put 0 magic dst in
  let dst := put 8 (le 2 version) dst in
  let dst := put 10 (le 2 0) dst in
  let dst := put 12 (le 8 (r_Sequence r)) dst in
  let dst := put 20 (le 8 (Storage.Index e)) dst in
  let dst := put 28 (le 8 (Storage.Term e)) dst in
  let dst := put 36 (le 8 (Storage.Command e)) dst in
  let dst := put 44 (le 2 (Storage.Kind e)) dst in
  let dst := put 46 (replicate 6 0) dst in
  let dst := put 52 (le 8 (Storage.OldVoters e)) dst in
  let dst := put 60 (le 8 (Storage.NewVoters e)) dst in
  let dst := put 68 (le 2 (Storage.Operation e)) dst in
  let dst := put 70 (replicate 2 0) dst in
  let dst := put 72 (le 8 (Storage.ClientID e)) dst in
  let dst := put 80 (le 8 (Storage.RequestID e)) dst in
  let dst := put 88 (le 8 (Storage.Key e)) dst in
  let dst := put 96 (le 8 (Storage.Value e)) dst in
  put 104 (replicate 4 0) dst.

Definition Encode (dst : bytes) (r : Record) : bytes :=
  let dst := encodeBody dst r in
  put 108 (le 4 (crc32c (sub 0 108 dst))) dst.

Definition Decode (src : bytes) : error + Record :=
  if negb (bool_decide (length src = RecordSize)) || negb (bool_decide (sub 0 8 src = magic)) ||
     negb (leGet (sub 8 10 src) =? version)
  then inl ErrFormat else
  let want := leGet (sub 108 112 src) in
  if negb (crc32c (sub 0 108 src) =? want) then inl ErrChecksum else
  inr (mkRecord (leGet (sub 12 20 src)) {|
    Storage.Index := leGet (sub 20 28 src);
    Storage.Term := leGet (sub 28 36 src);
    Storage.Command := leGet (sub 36 44 src);
    Storage.Kind := w8 (leGet (sub 44 46 src));
    Storage.OldVoters := leGet (sub 52 60 src);
    Storage.NewVoters := leGet (sub 60 68 src);
    Storage.Operation := w8 (leGet (sub 68 70 src));
    Storage.ClientID := leGet (sub 72 80 src);
    Storage.RequestID := leGet (sub 80 88 src);
    Storage.Key := leGet (sub 88 96 src);
    Storage.Value := leGet (sub 96 104 src) |}).

Definition wf_record (r : Record) : Prop := is_u64 (r_Sequence r) /\ Storage.wf (r_Entry r).

(** *** The encoded record as one list *)

Definition fields (r : Record) : list bytes :=
  let e := r_Entry r in
  [magic; le 2 version; le 2 0; le 8 (r_Sequence r); le 8 (Storage.Index e); le 8 (Storage.Term e);
   le 8 (Storage.Command e); le 2 (Storage.Kind e); replicate 6 0; le 8 (Storage.OldVoters e);
   le 8 (Storage.NewVoters e); le 2 (Storage.Operation e); replicate 2 0; le 8 (Storage.ClientID e);
   le 8 (Storage.RequestID e); le 8 (Storage.Key e); le 8 (Storage.Value e); replicate 4 0].

Definition body (r : Record) : bytes := concat (fields r).

Lemma length_body r : length (body r) = 108%nat.
Proof. unfold body, fields. cbn [concat]. rewrite !length_app, !length_le. reflexivity. Qed.

Lemma body_bytes r : Forall byte (body r).
Proof.
  unfold body, fields. cbn [concat]. rewrite !Forall_app.
  split_and!; try apply le_bytes; repeat constructor; unfold byte; lia.
Qed.

(** Every byte of the buffer is overwritten. *)
Lemma encodeBody_eq dst r :
  length dst = RecordSize -> encodeBody dst r = body r ++ drop 108 dst.
Proof.
  intros Hd. unfold encodeBody. rewrite <- (drop_0 dst) at 1.
  change (drop 0 dst) with ([] ++ drop 0 dst).
  repeat (rewrite put_next;
    [|rewrite ?length_app, ?length_le, ?length_replicate; reflexivity
     |rewrite ?length_le, ?length_replicate, Hd; unfold RecordSize; cbn; lia];
    rewrite ?length_le, ?length_replicate; cbn [Nat.add length magic]).
  unfold body, fields. cbn [concat]. by rewrite ?app_nil_r, <- !app_assoc.
Qed.

Lemma Encode_eq dst r :
  length dst = RecordSize -> Encode dst r = body r ++ le 4 (crc32c (body r)).
Proof.
  intros Hd. unfold Encode. rewrite encodeBody_eq by done. cbn zeta.
  rewrite sub_head by apply length_body.
  rewrite put_next; [|apply length_body|rewrite length_le, Hd; unfold RecordSize; lia].
  rewrite length_le, drop_ge by (rewrite Hd; unfold RecordSize; lia). apply app_nil_r.
Qed.

Lemma length_Encode dst r : length dst = RecordSize -> length (Encode dst r) = RecordSize.
Proof. intros Hd. rewrite Encode_eq, length_app, length_body, length_le by done. done. Qed.

Lemma Encode_bytes dst r : length dst = RecordSize -> Forall byte (Encode dst r).
Proof. intros Hd. rewrite Encode_eq by done. apply Forall_app. split; [apply body_bytes|apply le_bytes]. Qed.

(** The [k]-th field of an encoded record. *)
Ltac field k a b :=
  erewrite (sub_field _ k _ _ a b);
  [|reflexivity|cbn [take concat fields]; rewrite ?length_app, ?length_le; reflexivity
   |rewrite ?length_le; reflexivity].

Lemma w8_small z : is_u8 z -> w8 z = z.
Proof. intros Hz. apply Z.mod_small. done. Qed.

Lemma sub_crc r : sub 108 112 (body r ++ le 4 (crc32c (body r))) = le 4 (crc32c (body r)).
Proof.
  rewrite sub_skip by (rewrite length_body; lia). rewrite length_body. cbn [Nat.sub].
  rewrite <- (app_nil_r (le 4 _)) at 1. apply sub_head. apply length_le.
Qed.

Lemma Decode_body r :
  wf_record r -> Decode (body r ++ le 4 (crc32c (body r))) = inr r.
Proof.
  intros (Hseq & (H1 & H2 & H3 & H4 & H5 & H6 & H7 & H8 & H9 & H10 & H11)). unfold Decode.
  rewrite sub_crc. rewrite (sub_head 108) by apply length_body.
  rewrite (leGet_le 4) by (apply crc32c_u32, body_bytes). rewrite Z.eqb_refl.
  rewrite bool_decide_true by (rewrite length_app, length_body, length_le; done).
  unfold body.
  assert (forall z, is_u8 z -> 0 <= z < 256 ^ Z.of_nat 2) as Hu8 by (unfold is_u8; cbn; lia).
  field 0%nat 0%nat 8%nat. rewrite bool_decide_true by done.
  rewrite Z.eqb_refl. cbn [negb orb].
  field 3%nat 12%nat 20%nat. field 4%nat 20%nat 28%nat. field 5%nat 28%nat 36%nat.
  field 6%nat 36%nat 44%nat. field 7%nat 44%nat 46%nat. field 9%nat 52%nat 60%nat.
  field 10%nat 60%nat 68%nat. field 11%nat 68%nat 70%nat. field 13%nat 72%nat 80%nat.
  field 14%nat 80%nat 88%nat. field 15%nat 88%nat 96%nat. field 16%nat 96%nat 104%nat.
  rewrite !leGet_le by auto. rewrite !w8_small by done. by destruct r as [seq []].
Qed.

(** A record is decoded to exactly what was encoded, whatever the scratch
    buffer held before: every one of the 112 bytes is written, and [Decode] reads
    each field back at its offset. *)
Theorem wal_record_roundtrip dst r :
  length dst = RecordSize -> wf_record r ->
  length (Encode dst r) = RecordSize /\ Decode (Encode dst r) = inr r.
Proof.
  intros Hd Hr. split; [by apply length_Encode|]. rewrite Encode_eq by done. by apply Decode_body.
Qed.

(** *** Corruption *)

(** The encoded record, and its recognisers. *)
Definition encoded (r : Record) : bytes := body r ++ le 4 (crc32c (body r)).

Lemma length_encoded r : length (encoded r) = RecordSize.
Proof. unfold encoded. by rewrite length_app, length_body, length_le. Qed.

Lemma encoded_bytes r : Forall byte (encoded r).
Proof. apply Forall_app. split; [apply body_bytes|apply le_bytes]. Qed.

(** What [Decode] accepts carries the checksum of its first 108 bytes. *)
Lemma Decode_checked src r :
  Decode src = inr r -> length src = RecordSize /\ crc32c (sub 0 108 src) = leGet (sub 108 112 src).
Proof.
  unfold Decode. intros H. destruct (bool_decide_reflect (length src = RecordSize)) as [Hl|]; [|done].
  destruct (negb true || _ || _); [done|]. split; [done|].
  destruct (Z.eqb_spec (crc32c (sub 0 108 src)) (leGet (sub 108 112 src))); [done|]. done.
Qed.

Lemma split108 (src : bytes) :
  length src = RecordSize -> src = sub 0 108 src ++ sub 108 112 src.
Proof.
  intros Hl. unfold sub. rewrite drop_0, (take_ge (drop 108 src)).
  - symmetry. apply take_drop.
  - rewrite length_drop, Hl. unfold RecordSize. lia.
Qed.

(** One changed byte never passes for a record. *)
Lemma Decode_changed r i b :
  (i < RecordSize)%nat -> byte b -> encoded r !! i <> Some b ->
  exists e, Decode (<[i := b]> (encoded r)) = inl e.
Proof.
  intros Hi Hb Hne. destruct (Decode _) as [e|r'] eqn:HD; [by exists e|exfalso].
  apply Decode_checked in HD as [_ HD].
  assert (sub 0 108 (encoded r) = body r) as E1
    by (unfold encoded; apply sub_head, length_body).
  assert (sub 108 112 (encoded r) = le 4 (crc32c (body r))) as E2
    by (unfold encoded; apply sub_crc).
  pose proof (length_encoded r) as Hl. unfold RecordSize in *.
  assert (Hcrc : leGet (le 4 (crc32c (body r))) = crc32c (body r)).
  { apply leGet_le. apply crc32c_u32, body_bytes. }
  rewrite (split108 (encoded r)), E1, E2 in Hne by done.
  destruct (Nat.lt_ge_cases i 108) as [Hlt|Hge].
  - rewrite sub_insert_in in HD by lia. rewrite sub_insert_out in HD by lia.
    rewrite E1, E2, Nat.sub_0_r, Hcrc in HD. revert HD. apply crc32c_insert; [apply body_bytes|done| |].
    + by rewrite length_body.
    + rewrite lookup_app_l in Hne by (rewrite length_body; lia). exact Hne.
  - rewrite (sub_insert_out 0) in HD by lia. rewrite sub_insert_in in HD by lia.
    rewrite E1, E2 in HD. rewrite <- Hcrc in HD at 1. apply leGet_inj in HD.
    + rewrite lookup_app_r, length_body, HD in Hne by (rewrite length_body; lia).
      rewrite list_lookup_insert_eq in Hne by (rewrite length_le; lia). exact (Hne eq_refl).
    + apply le_bytes.
    + apply Forall_insert; [apply le_bytes|exact Hb].
    + symmetry. apply length_insert.
Qed.

(** ** Recovery of an image *)

(** The loop of [Recover] with [todo] records left, at record [i]. *)
Fixpoint recoverLoop (image : bytes) (todo i : nat) (records : list Record) :
    list Record * nat * option error :=
  match todo with
  | O => (records, (i * RecordSize)%nat, None)
  | S todo =>
      match Decode (sub (i * RecordSize) ((i + 1) * RecordSize) image) with
      | inl e => ([], (i * RecordSize)%nat, Some e)
      | inr record =>
          if negb (r_Sequence record =? w64 (Z.of_nat (i + 1)))
          then ([], (i * RecordSize)%nat, Some ErrSequence)
          else recoverLoop image todo (S i) (records ++ [record])
      end
  end.

Definition Recover (image : bytes) : list Record * nat * option error :=
  recoverLoop image (length image / RecordSize) 0 [].

(** The records and the bytes of a log holding the entries [es] after [k]
    earlier ones. *)
Definition recordsFrom (k : nat) (es : list Storage.Entry) : list Record :=
  imap (fun i e => mkRecord (Z.of_nat (k + i) + 1) e) es.

Definition imageFrom (k : nat) (es : list Storage.Entry) : bytes := concat (encoded <$> recordsFrom k es).

Abbreviation records := (recordsFrom 0).
Abbreviation image := (imageFrom 0).

Lemma recordsFrom_cons k e es :
  recordsFrom k (e :: es) = mkRecord (Z.of_nat k + 1) e :: recordsFrom (S k) es.
Proof.
  unfold recordsFrom. cbn [imap]. rewrite Nat.add_0_r. f_equal. apply imap_ext. intros i x _. cbn.
  do 2 f_equal. lia.
Qed.

Lemma recordsFrom_app k es es' :
  recordsFrom k (es ++ es') = recordsFrom k es ++ recordsFrom (k + length es) es'.
Proof.
  unfold recordsFrom. rewrite imap_app. f_equal. apply imap_ext. intros i x _. cbn. do 2 f_equal. lia.
Qed.

Lemma length_recordsFrom k es : length (recordsFrom k es) = length es.
Proof. apply length_imap. Qed.

Lemma imageFrom_cons k e es :
  imageFrom k (e :: es) = encoded (mkRecord (Z.of_nat k + 1) e) ++ imageFrom (S k) es.
Proof. unfold imageFrom. by rewrite recordsFrom_cons. Qed.

Lemma imageFrom_app k es es' : imageFrom k (es ++ es') = imageFrom k es ++ imageFrom (k + length es) es'.
Proof. unfold imageFrom. by rewrite recordsFrom_app, fmap_app, concat_app. Qed.

Lemma length_imageFrom k es : length (imageFrom k es) = (length es * RecordSize)%nat.
Proof.
  revert k. induction es as [|e es IH]; intros k; [done|].
  rewrite imageFrom_cons, length_app, length_encoded, IH. cbn [length]. lia.
Qed.

Lemma imageFrom_bytes k es : Forall byte (imageFrom k es).
Proof.
  revert k. induction es as [|e es IH]; intros k; [constructor|].
  rewrite imageFrom_cons. apply Forall_app. split; [apply encoded_bytes|apply IH].
Qed.

(** A prefix of the bytes is a prefix of the records and an unfinished one. *)
Lemma take_image k es n :
  take n (imageFrom k es) =
  imageFrom k (take (n / RecordSize) es) ++
  take (n mod RecordSize) (imageFrom (k + n / RecordSize) (drop (n / RecordSize) es)).
Proof.
  assert (RecordSize <> 0)%nat as Hz by done.
  pose proof (Nat.div_mod n RecordSize Hz) as Hn. set (q := (n / RecordSize)%nat) in *.
  rewrite <- (take_drop q es) at 1. rewrite imageFrom_app, take_app.
  rewrite take_ge by (rewrite length_imageFrom, length_take; nia). f_equal.
  rewrite length_imageFrom, length_take.
  destruct (Nat.le_ge_cases q (length es)) as [Hle|Hge].
  - rewrite Nat.min_l by done. f_equal. lia.
  - rewrite (drop_ge es q) by done. unfold imageFrom. cbn [recordsFrom imap fmap list_fmap concat].
    by rewrite !take_nil.
Qed.

Lemma sub_record (i : nat) (P x l : bytes) :
  length P = (i * RecordSize)%nat -> length x = RecordSize ->
  sub (i * RecordSize) ((i + 1) * RecordSize) (P ++ x ++ l) = x.
Proof.
  intros HP Hx. rewrite sub_skip by lia. rewrite HP, Nat.sub_diag.
  replace ((i + 1) * RecordSize - i * RecordSize)%nat with RecordSize by lia. by apply sub_head.
Qed.

Lemma recoverLoop_image es todo :
  forall k acc tail P, length P = (k * RecordSize)%nat -> Forall Storage.wf es ->
  Z.of_nat (k + length es) < 2 ^ 64 ->
  recoverLoop (P ++ imageFrom k es ++ tail) (length es + todo) k acc =
  recoverLoop (P ++ imageFrom k es ++ tail) todo (k + length es) (acc ++ recordsFrom k es).
Proof.
  induction es as [|e es IH]; intros k acc tail P HP Hwf Hb.
  - cbn [length imageFrom recordsFrom imap]. by rewrite Nat.add_0_r, app_nil_r.
  - cbn [length Nat.add recoverLoop] in *. rewrite imageFrom_cons, <- app_assoc.
    rewrite sub_record by (done || apply length_encoded).
    apply Forall_cons_1 in Hwf as [He Hes].
    unfold encoded at 1. rewrite Decode_body by (split; [unfold is_u64; cbn; lia|done]).
    cbn [r_Sequence]. unfold w64. rewrite Z.mod_small by lia.
    replace (Z.of_nat k + 1 =? Z.of_nat (k + 1)) with true by (symmetry; apply Z.eqb_eq; lia).
    cbn [negb]. rewrite (app_assoc P). rewrite (IH (S k));
      [|rewrite length_app, length_encoded; lia|done|lia].
    rewrite recordsFrom_cons, <- (app_assoc acc). cbn [app]. f_equal. lia.
Qed.

Lemma recoverLoop_start es todo tail :
  Forall Storage.wf es -> Z.of_nat (length es) < 2 ^ 64 ->
  recoverLoop (image es ++ tail) (length es + todo) 0 [] =
  recoverLoop (image es ++ tail) todo (length es) (records es).
Proof. intros Hwf Hb. by apply (recoverLoop_image es todo 0 [] tail []). Qed.

Definition fits (es : list Storage.Entry) : Prop :=
  Forall Storage.wf es /\ Z.of_nat (length es) < 2 ^ 64 - 1.

Lemma Recover_image es tail :
  fits es -> (length tail < RecordSize)%nat ->
  Recover (image es ++ tail) = (records es, (length es * RecordSize)%nat, None).
Proof.
  intros [Hwf Hb] Ht. unfold Recover. rewrite length_app, length_imageFrom.
  rewrite Nat.div_add_l, (Nat.div_small (length tail)) by done.
  by rewrite recoverLoop_start by (done || lia).
Qed.

(** A complete record that does not decode, or decodes to the wrong sequence
    number, stops recovery after the records before it. *)
Lemma Recover_bad es x tail :
  fits es -> length x = RecordSize ->
  (forall r, Decode x = inr r -> r_Sequence r <> Z.of_nat (length es) + 1) ->
  exists e, Recover (image es ++ x ++ tail) = ([], (length es * RecordSize)%nat, Some e).
Proof.
  intros [Hwf Hb] Hx Hbad. unfold Recover. rewrite !length_app, length_imageFrom, Hx.
  replace (length es * RecordSize + (RecordSize + length tail))%nat
    with ((length es + 1) * RecordSize + length tail)%nat by lia.
  rewrite Nat.div_add_l, <- Nat.add_assoc by done.
  rewrite recoverLoop_start by (done || lia). cbn [Nat.add recoverLoop]. rewrite (sub_record (length es) (image es)) by
    (done || apply length_imageFrom).
  destruct (Decode x) as [e|r] eqn:HD; [by exists e|]. specialize (Hbad r eq_refl).
  destruct (Z.eqb_spec (r_Sequence r) (w64 (Z.of_nat (length es + 1)))) as [E|_]; [|by eexists].
  unfold w64 in E. rewrite Z.mod_small in E by lia. lia.
Qed.

Lemma insert_middle (i : nat) (b : Z) (P x l : bytes) :
  (length P <= i < length P + length x)%nat ->
  <[i := b]> (P ++ x ++ l) = P ++ <[(i - length P)%nat := b]> x ++ l.
Proof. intros Hi. rewrite insert_app_r_alt by lia. by rewrite insert_app_l by lia. Qed.

Lemma fits_prefix es n : fits es -> fits (take n es).
Proof. intros [H1 H2]. split; [by apply Forall_take|rewrite length_take; lia]. Qed.

Lemma fits_app es es' : fits (es ++ es') -> fits es.
Proof. intros [H1 H2]. apply Forall_app in H1 as [? _]. rewrite length_app in H2. split; [done|lia]. Qed.

(** An image is its records before the [q]-th, the [q]-th, and those after. *)
Lemma image_split es q e :
  es !! q = Some e ->
  image es = image (take q es) ++ encoded (mkRecord (Z.of_nat q + 1) e) ++ imageFrom (S q) (drop (S q) es).
Proof.
  intros Hq. pose proof (lookup_lt_Some _ _ _ Hq). rewrite <- (take_drop_middle es q e Hq) at 1.
  rewrite imageFrom_app, length_take, Nat.min_l by lia. by rewrite imageFrom_cons.
Qed.

(** Recovery ignores an unfinished final record and returns exactly the
    records written, but a single changed byte anywhere in the complete records
    is fatal: no record is returned, and the reported length is that of the
    verified prefix before the damaged record. *)
Theorem wal_recover_spec es tail i b :
  fits es -> (length tail < RecordSize)%nat ->
  Recover (image es ++ tail) = (records es, (length es * RecordSize)%nat, None) /\
  ((i < length es * RecordSize)%nat -> byte b -> image es !! i <> Some b ->
   exists e, Recover (<[i := b]> (image es) ++ tail) =
             ([], (i / RecordSize * RecordSize)%nat, Some e)).
Proof.
  intros Hf Ht. split; [by apply Recover_image|]. intros Hi Hb Hne.
  assert (RecordSize <> 0)%nat as Hz by done.
  pose proof (Nat.div_mod i RecordSize Hz) as Hdm. pose proof (Nat.mod_upper_bound i RecordSize Hz) as Hm.
  set (q := (i / RecordSize)%nat) in *. assert (q < length es)%nat as Hq by nia.
  destruct (lookup_lt_is_Some_2 es q Hq) as [e He].
  pose proof (length_imageFrom 0 (take q es)) as HP. rewrite length_take, Nat.min_l in HP by lia.
  rewrite (image_split es q e He) in *.
  rewrite insert_middle by (rewrite HP, length_encoded; lia).
  rewrite HP. replace (i - q * RecordSize)%nat with (i mod RecordSize)%nat by lia.
  assert (encoded (mkRecord (Z.of_nat q + 1) e) !! (i mod RecordSize)%nat <> Some b) as Hne'.
  { rewrite lookup_app_r, lookup_app_l in Hne by (rewrite HP, ?length_encoded; lia).
    rewrite HP in Hne. by replace (i - q * RecordSize)%nat with (i mod RecordSize)%nat in Hne by lia. }
  destruct (Decode_changed _ _ _ Hm Hb Hne') as [e' HD].
  destruct (Recover_bad (take q es) (<[(i mod RecordSize)%nat := b]> (encoded (mkRecord (Z.of_nat q + 1) e)))
              (imageFrom (S q) (drop (S q) es) ++ tail)) as [err HR].
  - by apply fits_prefix.
  - by rewrite length_insert, length_encoded.
  - intros r Hr. congruence.
  - exists err. rewrite length_take, Nat.min_l in HR by lia. by rewrite <- !app_assoc, HR.
Qed.

(** ** storage/wal/device.go *)

(** The [Device] interface.  [DurableBytes] may change the device: an
    implementation is allowed to sync before reading. *)
Class Device (D : Type) := {
  dev_Append : bytes -> D -> D * option error;
  dev_Sync : D -> D * option error;
  DurableBytes : D -> D * bytes;
  TruncateDurable : Z -> D -> D * option error
}.

(** What [Log] relies on, after the comments of the interface: [stable] is what
    would survive a crash, [staged] what was appended since the last [Sync], for a
    device in a state of its invariant [usable]. *)
Class DeviceSpec (D : Type) `{!Device D} := {
  usable : D -> Prop;
  stable : D -> bytes;
  staged : D -> bytes;
  dev_append_spec p d d' :
    usable d -> dev_Append p d = (d', None) -> usable d' /\ stable d' = stable d /\ staged d' = staged d ++ p;
  dev_sync_spec d d' :
    usable d -> dev_Sync d = (d', None) -> usable d' /\ stable d' = stable d ++ staged d /\ staged d' = [];
  dev_durable_spec d d' bs :
    usable d -> staged d = [] -> DurableBytes d = (d', bs) ->
    usable d' /\ bs = stable d /\ stable d' = stable d /\ staged d' = [];
  dev_truncate_spec n d d' :
    usable d -> staged d = [] -> TruncateDurable n d = (d', None) ->
    usable d' /\ 0 <= n <= len (stable d) /\ stable d' = take (Z.to_nat n) (stable d) /\ staged d' = []
}.

Module MemoryDevice.

Record t := mk { durable : bytes; pending : bytes }.

Definition New (durable : bytes) : t := mk durable [].
Definition Append (p : bytes) (d : t) : t * option error := (mk (durable d) (pending d ++ p), None).
Definition Sync (d : t) : t * option error := (mk (durable d ++ pending d) [], None).
Definition Durable (d : t) : t * bytes := (d, durable d).

Definition Truncate (size : Z) (d : t) : t * option error :=
  if (size <? 0) || (len (durable d) <? size) then (d, Some ErrInvalidTear)
  else (mk (take (Z.to_nat size) (durable d)) (pending d), None).

(** [Crash]: the rebooted medium, with the first [tornBytes] pending bytes. *)
Definition Crash (tornBytes : Z) (d : t) : error + t :=
  if (tornBytes <? 0) || (len (pending d) <? tornBytes) then inl ErrInvalidTear
  else inr (New (durable d ++ take (Z.to_nat tornBytes) (pending d))).

#[global] Instance device : Device t := {
  dev_Append := Append;
  dev_Sync := Sync;
  DurableBytes := Durable;
  TruncateDurable := Truncate
}.

#[global] Instance spec : DeviceSpec t.
Proof.
  refine {| usable := fun _ => True; stable := durable; staged := pending |}; cbn.
  - by intros p d d' _ [= <-].
  - by intros d d' _ [= <-].
  - by intros d d' bs _ Hp [= <- <-].
  - intros n d d' _ Hp. unfold Truncate. destruct (Z.ltb_spec n 0), (Z.ltb_spec (len (durable d)) n); try done.
    intros [= <-]. cbn. split; [done|]. split; [lia|done].
Defined.

End MemoryDevice.

(** ** storage/wal/wal.go *)

Module Log.
Section log.
Context {D : Type} `{!Device D}.

Record t := mk { device : D; nextSeq : Z; scratch : bytes }.

#[global] Instance eta_log : Eta t := fun l => mk (device l) (nextSeq l) (scratch l).

(** The log, the recovered records and the error.  A log that is not returned
    leaves only the device behind. *)
Inductive opened := Opened (l : t) (records : list Record) | Failed (d : D) (records : list Record) (e : error).

Definition newLog (d : D) (records : list Record) : t :=
  let next := match last records with Some r => w64 (r_Sequence r + 1) | None => 1 end in
  mk d next (replicate RecordSize 0).

Definition Open (d : D) : opened :=
  let (d, image) := DurableBytes d in
  match Recover image with
  | (_, _, Some e) => Failed d [] e
  | (records, validBytes, None) =>
      let (d, again) := DurableBytes d in
      if negb (bool_decide (validBytes = length again)) then
        match TruncateDurable (Z.of_nat validBytes) d with
        | (d, Some e) => Failed d records e
        | (d, None) => Opened (newLog d records) records
        end
      else Opened (newLog d records) records
  end.

(** [ctx i] is what [ctx.Err()] returns at the [i]-th poll. *)
Fixpoint appendFrom (i : nat) (ctx : nat -> option error) (entries : list Storage.Entry) (l : t) :
    t * option error :=
  match entries with
  | [] => (l, None)
  | entry :: entries =>
      match ctx i with
      | Some e => (l, Some e)
      | None =>
          let l := l <| scratch := Encode (scratch l) (mkRecord (nextSeq l) entry) |> in
          let (d, err) := dev_Append (scratch l) (device l) in
          let l := l <| device := d |> in
          match err with
          | Some e => (l, Some e)
          | None => appendFrom (S i) ctx entries (l <| nextSeq := w64 (nextSeq l + 1) |>)
          end
      end
  end.

Definition Append : (nat -> option error) -> list Storage.Entry -> t -> t * option error := appendFrom 0.

Definition Sync (ctx : option error) (l : t) : t * option error :=
  match ctx with
  | Some e => (l, Some e)
  | None => let (d, err) := dev_Sync (device l) in (l <| device := d |>, err)
  end.

End log.
Arguments t : clear implicits.
Arguments opened : clear implicits.
End Log.

(** ** The log over a device that keeps its contract *)

Section log_spec.
Context {D : Type} `{!Device D} `{!DeviceSpec D}.
Implicit Types l : Log.t D.

(** [holds l es k]: the log holds the entries [es], the first [k] of them
    durably. *)
Record holds l (es : list Storage.Entry) (k : nat) : Prop := {
  holds_fits : fits es;
  holds_le : (k <= length es)%nat;
  holds_usable : usable (Log.device l);
  holds_stable : stable (Log.device l) = image (take k es);
  holds_staged : staged (Log.device l) = imageFrom k (drop k es);
  holds_next : Log.nextSeq l = Z.of_nat (length es) + 1;
  holds_scratch : length (Log.scratch l) = RecordSize
}.

Lemma append_holds i ctx entries l l' es k :
  holds l es k -> fits (es ++ entries) ->
  Log.appendFrom i ctx entries l = (l', None) -> holds l' (es ++ entries) k.
Proof.
  revert i l es. induction entries as [|e entries IH]; intros i l es Hl Hf.
  - intros [= <-]. by rewrite app_nil_r.
  - cbn [Log.appendFrom]. destruct (ctx i); [done|]. cbn.
    destruct (dev_Append _ _) as [d [err|]] eqn:HA; [done|].
    destruct Hl as [Hfit Hle Hu Hst Hsg Hn Hsc]. apply dev_append_spec in HA as (H0 & H1 & H2); [|done]. intros HR.
    rewrite (app_assoc es [e] entries : es ++ e :: entries = _) in Hf |- *.
    eapply IH; [|done|exact HR]. split; cbn.
    + by eapply fits_app.
    + rewrite length_app. lia.
    + done.
    + by rewrite H1, Hst, take_app_le by done.
    + rewrite H2, Hsg, drop_app_le by done. rewrite imageFrom_app, length_drop. f_equal.
      rewrite imageFrom_cons, Encode_eq by done. rewrite app_nil_r, Hn. unfold encoded.
      by replace (k + (length es - k))%nat with (length es) by lia.
    + destruct Hf as [_ Hf]. rewrite !length_app in *. cbn [length] in *. unfold w64.
      rewrite Hn, Z.mod_small by lia. lia.
    + by rewrite length_Encode.
Qed.

Lemma sync_holds l l' es k :
  holds l es k -> Log.Sync None l = (l', None) -> holds l' es (length es).
Proof.
  intros [Hfit Hle Hu Hst Hsg Hn Hsc]. unfold Log.Sync. destruct (dev_Sync _) as [d err] eqn:HS.
  intros [= <- ->]. apply dev_sync_spec in HS as (H0 & H1 & H2); [|done]. split; cbn; try done.
  - rewrite H1, Hst, Hsg, (take_ge es (length es)) by done.
    pose proof (imageFrom_app 0 (take k es) (drop k es)) as E.
    rewrite take_drop, length_take, Nat.min_l in E by done. by rewrite E.
  - by rewrite H2, drop_all.
Qed.

Lemma last_records es :
  match last (records es) with Some r => w64 (r_Sequence r + 1) | None => 1 end =
  if es is [] then 1 else w64 (Z.of_nat (length es) + 1).
Proof.
  destruct es as [|e es _] using rev_ind; [done|]. rewrite recordsFrom_app, recordsFrom_cons.
  change (recordsFrom _ []) with (@nil Record). rewrite last_snoc.
  destruct (es ++ [e]) eqn:E; [by destruct es|]. rewrite <- E, length_app. cbn. f_equal. lia.
Qed.

Lemma newLog_holds d es :
  fits es -> usable d -> stable d = image es -> staged d = [] ->
  holds (Log.newLog d (records es)) es (length es).
Proof.
  intros Hf Hu Hst Hsg. unfold Log.newLog. rewrite last_records. split; cbn; try done.
  - by rewrite take_ge.
  - by rewrite drop_all.
  - destruct Hf as [_ Hf]. destruct es; [done|]. unfold w64. rewrite Z.mod_small; lia.
Qed.

(** Opening a device whose bytes are the records of [es] and an unfinished one:
    the log then holds exactly [es]; the only failure is a failing truncation. *)
Lemma open_holds d es tail :
  usable d -> fits es -> (length tail < RecordSize)%nat -> stable d = image es ++ tail -> staged d = [] ->
  match Log.Open d with
  | Log.Opened l rs => rs = records es /\ holds l es (length es)
  | Log.Failed d' rs e =>
      tail <> [] /\ exists d0, usable d0 /\ staged d0 = [] /\ stable d0 = stable d /\
        TruncateDurable (Z.of_nat (length es * RecordSize)) d0 = (d', Some e)
  end.
Proof.
  intros Hu Hf Ht Hst Hsg. unfold Log.Open.
  destruct (DurableBytes d) as [d1 b1] eqn:H1. apply dev_durable_spec in H1 as (Hu1 & -> & H1 & Hs1); [|done..].
  rewrite Hst, Recover_image by done.
  destruct (DurableBytes d1) as [d2 b2] eqn:H2. apply dev_durable_spec in H2 as (Hu2 & -> & H2 & Hs2); [|done..].
  rewrite H1 in H2 |- *. rewrite Hst, length_app, length_imageFrom.
  case_bool_decide as Htl; cbn [negb].
  - assert (tail = []) as -> by (apply length_zero_iff_nil; lia). split; [done|].
    apply newLog_holds; [done|done|by rewrite H2, Hst, app_nil_r|done].
  - destruct (TruncateDurable _ d2) as [d3 [e|]] eqn:HT; [split; [by intros ->; rewrite Nat.add_0_r in Htl|by exists d2; rewrite H2]|].
    apply dev_truncate_spec in HT as (Hu3 & _ & H3 & Hs3); [|done..]. split; [done|].
    apply newLog_holds; [done|done| |done].
    rewrite H3, H2, Hst, Nat2Z.id, <- (length_imageFrom 0). apply take_app_length.
Qed.

End log_spec.

(** The bytes of [k] entries and a part of the rest are those of some entries and
    an unfinished one. *)
Lemma torn_image es k n :
  (k <= length es)%nat -> (n <= (length es - k) * RecordSize)%nat ->
  exists m tail, (k <= m <= length es)%nat /\ (length tail < RecordSize)%nat /\
    image (take k es) ++ take n (imageFrom k (drop k es)) = image (take m es) ++ tail.
Proof.
  intros Hle Hin. assert (RecordSize <> 0)%nat as Hz by done. set (q := (n / RecordSize)%nat).
  pose proof (Nat.div_mod n RecordSize Hz) as Hn. pose proof (Nat.mod_upper_bound n RecordSize Hz) as Hm.
  fold q in Hn. assert (k + q <= length es)%nat as Hq by nia.
  exists (k + q)%nat, (take (n mod RecordSize) (imageFrom (k + q) (drop q (drop k es)))).
  split; [lia|]. split; [rewrite length_take; lia|].
  assert (take (k + q) es = take k es ++ take q (drop k es)) as Hcat by by rewrite take_take_drop.
  rewrite (take_image k), Hcat, imageFrom_app, length_take, Nat.min_l by lia. by rewrite <- app_assoc.
Qed.

(** ** Crashes of the in-memory device *)

(** [context.Background()] is never cancelled. *)
Definition Background : nat -> option error := fun _ => None.

Lemma memory_append i entries (l : Log.t MemoryDevice.t) :
  exists l', Log.appendFrom i Background entries l = (l', None).
Proof. revert i l. induction entries as [|e entries IH]; intros i l; [by eexists|]. apply IH. Qed.

Lemma memory_sync (l : Log.t MemoryDevice.t) : exists l', Log.Sync None l = (l', None).
Proof. by eexists. Qed.

(** The in-memory device always truncates within its bytes, so [Open] succeeds. *)
Lemma memory_open d es tail :
  fits es -> (length tail < RecordSize)%nat -> stable d = image es ++ tail -> staged d = [] ->
  exists l, Log.Open (D := MemoryDevice.t) d = Log.Opened l (records es) /\ holds l es (length es).
Proof.
  intros Hf Ht Hst Hsg. pose proof (open_holds d es tail I Hf Ht Hst Hsg) as H.
  destruct (Log.Open d) as [l rs|d' rs e]; [destruct H as [-> H]; by exists l|].
  destruct H as (_ & d0 & _ & _ & Hd0 & HT). exfalso. revert HT. cbn in *. unfold MemoryDevice.Truncate.
  destruct (Z.ltb_spec (Z.of_nat (length es * RecordSize)) 0); [lia|]. cbn [orb].
  destruct (Z.ltb_spec (len (MemoryDevice.durable d0)) (Z.of_nat (length es * RecordSize))) as [Hlt|]; [|done].
  unfold len in Hlt. rewrite Hd0, Hst, length_app, length_imageFrom in Hlt. lia.
Qed.

Lemma memory_crash (l : Log.t MemoryDevice.t) es k torn d :
  holds l es k -> MemoryDevice.Crash torn (Log.device l) = inr d ->
  exists m l', (k <= m <= length es)%nat /\
    Log.Open d = Log.Opened l' (records (take m es)) /\ holds l' (take m es) m.
Proof.
  intros [Hf Hle _ Hst Hsg _ _]. unfold MemoryDevice.Crash. cbn in Hst, Hsg.
  destruct (Z.ltb_spec torn 0) as [|Hnn]; [done|]. cbn [orb].
  destruct (Z.ltb_spec (len (MemoryDevice.pending (Log.device l))) torn) as [|Hin]; [done|].
  intros [= <-]. unfold len in Hin. rewrite Hsg, length_imageFrom, length_drop in Hin.
  destruct (torn_image es k (Z.to_nat torn) Hle ltac:(lia)) as (m & tail & Hm & Ht & E).
  destruct (memory_open (MemoryDevice.New (MemoryDevice.durable (Log.device l) ++
      take (Z.to_nat torn) (MemoryDevice.pending (Log.device l)))) (take m es) tail) as (l' & HO & HH);
    [by apply fits_prefix|done|cbn; by rewrite Hst, Hsg|done|].
  rewrite length_take, Nat.min_l in HH by lia. by exists m, l'.
Qed.

Lemma wal_crash_prepare (l : Log.t MemoryDevice.t) es k entries :
  holds l es k -> fits (es ++ entries) ->
  exists l1 l2, Log.Append Background entries l = (l1, None) /\ holds l1 (es ++ entries) k /\
    Log.Sync None l1 = (l2, None) /\ holds l2 (es ++ entries) (length (es ++ entries)).
Proof.
  intros Hl Hf. destruct (memory_append 0 entries l) as [l1 HA]. destruct (memory_sync l1) as [l2 HS].
  assert (holds l1 (es ++ entries) k) as H1 by by eapply append_holds.
  exists l1, l2. split_and!; [done|done|done|by eapply sync_holds].
Qed.

(** C18 Crash consistency of the log.  Appending always succeeds; whatever number
    of pending bytes reached the medium before a crash, reopening it succeeds and
    yields a log that holds exactly a prefix of the appended entries which
    contains every entry synced before; after [Sync] nothing can be lost. *)
Theorem wal_crash_recovery (l : Log.t MemoryDevice.t) es k entries :
  holds l es k -> fits (es ++ entries) ->
  exists l1 l2, Log.Append Background entries l = (l1, None) /\ holds l1 (es ++ entries) k /\
    Log.Sync None l1 = (l2, None) /\ holds l2 (es ++ entries) (length (es ++ entries)) /\
    forall torn d, MemoryDevice.Crash torn (Log.device l1) = inr d ->
      exists m l3, (k <= m <= length (es ++ entries))%nat /\
        Log.Open d = Log.Opened l3 (records (take m (es ++ entries))) /\
        holds l3 (take m (es ++ entries)) m.
Proof.
  intros Hl Hf. destruct (wal_crash_prepare l es k entries Hl Hf) as (l1 & l2 & HA & H1 & HS & H2).
  exists l1, l2. split_and!; [done|done|done|done|]. intros torn d. by apply memory_crash.
Qed.

Module WalDemo.

Definition e1 : Storage.Entry := Storage.mkEntry 1 7 42 1 0 0 1 9 3 5 6.
Definition e2 : Storage.Entry := Storage.mkEntry 2 7 43 1 0 0 2 9 4 5 0.
Definition empty : Log.t MemoryDevice.t := Log.newLog (MemoryDevice.New []) [].

Lemma demo_fits : fits [e1; e2].
Proof. split; [|done]. repeat constructor; unfold is_u64, is_u8; cbn; lia. Defined.

Lemma demo_empty : holds empty [] 0.
Proof. split; try done. Defined.

Lemma wal_record_roundtrip_witness :
  Decode (Encode (replicate RecordSize 255) (mkRecord 1 e1)) = inr (mkRecord 1 e1).
Proof.
  apply (wal_record_roundtrip (replicate RecordSize 255) (mkRecord 1 e1)); [reflexivity|].
  split; [done|]. repeat split; cbn; lia.
Defined.

Lemma wal_recover_spec_witness :
  exists e, Recover (<[150%nat := 7]> (image [e1; e2]) ++ [1; 2; 3]) = ([], 112%nat, Some e).
Proof.
  apply (wal_recover_spec [e1; e2] [1; 2; 3] 150 7 demo_fits);
    [unfold RecordSize; cbn; lia|unfold RecordSize; cbn; lia|done|].
  vm_compute. discriminate.
Defined.

Lemma wal_crash_recovery_witness :
  exists l1, Log.Append Background [e1; e2] empty = (l1, None) /\
    forall d, MemoryDevice.Crash 150 (Log.device l1) = inr d ->
      exists m l3, (0 <= m <= 2)%nat /\ Log.Open d = Log.Opened l3 (records (take m [e1; e2])).
Proof.
  destruct (wal_crash_recovery empty [] 0 [e1; e2] demo_empty demo_fits)
    as (l1 & l2 & HA & _ & _ & _ & HC).
  exists l1. split; [exact HA|]. intros d Hd. destruct (HC 150 d Hd) as (m & l3 & Hm & HO & _).
  exists m, l3. split; [exact Hm|exact HO].
Defined.

End WalDemo.
