(* ===== verification/Backup.v ===== *)
(** * Backups

    [backup/backup.go]: copying the files of a stopped node into a directory with a
    manifest of their sizes and hashes, and restoring them from there.  A directory
    is the map of its files; every system call can fail, and a write that fails may
    leave a part of its data.  Results: a backup that was created is restored to
    the same files, and nothing else is touched; a restore that succeeds has checked
    every file against the manifest. *)

From S2P Require Import Prelude Bytes.

Module Backup.

Definition FormatVersion : Z := 1.

Record File := mkFile { Name : string; Size : Z; SHA256 : bytes }.
Record Manifest := mkManifest { Version : Z; Files : list File }.

Definition ErrExist : error := "file exists".
Definition ErrNotExist : error := "file does not exist".
Definition ErrNoData : error := "backup: no node data found".
Definition ErrNotEmpty : error := "backup: restore destination is not empty".
Definition ErrManifest : error := "backup: unsupported manifest".
Definition ErrName : error := "backup: invalid file name".
Definition ErrChecksum : error := "backup: checksum mismatch".

Abbreviation dir := (gmap string bytes).

(** The directories, and the number of system calls made. *)
Record World := mkWorld { dirs : gmap string dir; clock : nat }.

Definition fileIn (d name : string) (w : World) : option bytes := dirs w !! d ≫= fun files => files !! name.

Definition setDir (d : string) (files : dir) (w : World) : World := mkWorld (<[d := files]> (dirs w)) (clock w).

(** Computations on the file system that return a result or an error. *)
Definition io (A : Type) : Type := World -> World * (error + A).

#[export] Instance io_ret : MRet io := fun A a w => (w, inr a).
#[export] Instance io_bind : MBind io := fun A B k m w =>
  match m w with (w, inl e) => (w, inl e) | (w, inr a) => k a w end.

Definition fail {A} (e : error) : io A := fun w => (w, inl e).

Section backup.
(** Whether a system call fails, and how much a failed write leaves. *)
Context (fault : nat -> option error) (cut : nat -> nat).
Context (Marshal : Manifest -> bytes) (Unmarshal : bytes -> option Manifest) (sha256 : bytes -> bytes).

(** A system call that has no effect when it fails. *)
Definition syscall {A} (f : World -> World * (error + A)) : io A := fun w =>
  let w' := mkWorld (dirs w) (S (clock w)) in
  match fault (clock w) with Some e => (w', inl e) | None => f w' end.

Definition Mkdir (d : string) : io () := syscall (fun w =>
  match dirs w !! d with Some _ => (w, inl ErrExist) | None => (setDir d ∅ w, inr ()) end).

Definition MkdirAll (d : string) : io () := syscall (fun w =>
  match dirs w !! d with Some _ => (w, inr ()) | None => (setDir d ∅ w, inr ()) end).

(** [os.Stat]: whether the file is there. *)
Definition Stat (d name : string) : io bool := syscall (fun w => (w, inr (if fileIn d name w is Some _ then true else false))).

(** [os.ReadDir]: the number of entries, if the directory is there. *)
Definition ReadDir (d : string) : io (option nat) := syscall (fun w => (w, inr (size <$> dirs w !! d))).

Definition ReadFile (d name : string) : io bytes := syscall (fun w =>
  match fileIn d name w with Some b => (w, inr b) | None => (w, inl ErrNotExist) end).

(** The bytes of a write, or as many as a failed one leaves. *)
Definition writeData (d name : string) (data : bytes) : io () := fun w =>
  match dirs w !! d with
  | None => (mkWorld (dirs w) (S (clock w)), inl ErrNotExist)
  | Some files =>
      match fault (clock w) with
      | Some e => (mkWorld (<[d := <[name := take (cut (clock w)) data]> files]> (dirs w)) (S (clock w)), inl e)
      | None => (mkWorld (<[d := <[name := data]> files]> (dirs w)) (S (clock w)), inr ())
      end
  end.

(** [os.OpenFile] with [O_CREATE|O_EXCL]. *)
Definition OpenExclusive (d name : string) : io () := syscall (fun w =>
  match dirs w !! d with
  | None => (w, inl ErrNotExist)
  | Some files =>
      match files !! name with
      | Some _ => (w, inl ErrExist)
      | None => (setDir d (<[name := []]> files) w, inr ())
      end
  end).

(** [Sync] and [Close] of the copy. *)
Definition Sync : io () := syscall (fun w => (w, inr ())).
Definition CloseFile : io () := syscall (fun w => (w, inr ())).

(** The error of a call, as a value. *)
Definition try_ {A} (m : io A) : io (option error) := fun w =>
  let (w, r) := m w in (w, inr (if r is inl e then Some e else None)).

(** [copyVerified] from one directory to another, under one name. *)
Definition copyVerified (from to name : string) : io File :=
  data ← ReadFile from name;
  OpenExclusive to name ;;
  copyErr ← try_ (writeData to name data);
  syncErr ← try_ Sync;
  closeErr ← try_ CloseFile;
  match copyErr, syncErr, closeErr with
  | Some e, _, _ | None, Some e, _ | None, None, Some e => fail e
  | None, None, None => mret (mkFile "" (len data) (sha256 data))
  end.

Definition names : list string := ["raft.wal"; "snapshot.bin"]%string.

(** The loop of [Create]. *)
Fixpoint copyAll (from to : string) (l : list string) : io (list File) :=
  match l with
  | [] => mret []
  | name :: l =>
      present ← Stat from name;
      if negb present then copyAll from to l else
      entry ← copyVerified from to name;
      files ← copyAll from to l;
      mret (mkFile name (Size entry) (SHA256 entry) :: files)
  end.

Definition Create (dataDir destination : string) : io () :=
  Mkdir destination ;;
  files ← copyAll dataDir destination names;
  if (length files =? 0)%nat then fail ErrNoData
  else writeData destination "manifest.json" (Marshal (mkManifest FormatVersion files) ++ [10]).

(** The loop of [Restore]. *)
Fixpoint restoreAll (from to : string) (l : list File) : io () :=
  match l with
  | [] => mret ()
  | entry :: l =>
      if negb (bool_decide (Name entry ∈ names)) then fail ErrName else
      copied ← copyVerified from to (Name entry);
      if negb (Size copied =? Size entry) || negb (bool_decide (SHA256 copied = SHA256 entry)) then fail ErrChecksum
      else restoreAll from to l
  end.

(** [Restore] from the bytes of the manifest on. *)
Definition checkManifest (source dataDir : string) (data : bytes) : io () :=
  match Unmarshal data with
  | Some manifest =>
      if negb (Version manifest =? FormatVersion) then fail ErrManifest else
      MkdirAll dataDir ;;
      restoreAll source dataDir (Files manifest)
  | None => fail ErrManifest
  end.

Definition Restore (source dataDir : string) : io () :=
  entries ← ReadDir dataDir;
  match entries with
  | Some (S _) => fail ErrNotEmpty
  | _ => data ← ReadFile source "manifest.json"; checkManifest source dataDir data
  end.

(** ** What the calls do *)

Lemma io_bind_ok {A B} (m : io A) (k : A -> io B) w w' b :
  (m ≫= k) w = (w', inr b) -> exists w1 a, m w = (w1, inr a) /\ k a w1 = (w', inr b).
Proof. unfold mbind, io_bind. destruct (m w) as [w1 [e|a]]; [done|]. eauto. Qed.

(** What is not in the directory [d] stays as it is. *)
Definition outside (d : string) (w w' : World) : Prop := forall d', d' <> d -> dirs w' !! d' = dirs w !! d'.

Lemma outside_trans d w1 w2 w3 : outside d w1 w2 -> outside d w2 w3 -> outside d w1 w3.
Proof. intros H1 H2 d' Hd. by rewrite H2, H1. Qed.

Lemma outside_file d d' name w w' : outside d w w' -> d' <> d -> fileIn d' name w' = fileIn d' name w.
Proof. intros H Hd. unfold fileIn. by rewrite H. Qed.

Lemma copyVerified_ok from to name w w' f :
  copyVerified from to name w = (w', inr f) ->
  exists data files, fileIn from name w = Some data /\ dirs w !! to = Some files /\ files !! name = None /\
    dirs w' = <[to := <[name := data]> files]> (dirs w) /\ Size f = len data /\ SHA256 f = sha256 data.
Proof.
  unfold copyVerified, ReadFile, OpenExclusive, Sync, CloseFile, try_, syscall.
  intros (w1 & data & H1 & H2)%io_bind_ok. destruct (fault (clock w)); [done|]. cbn in H1.
  change (fileIn from name (mkWorld (dirs w) (S (clock w)))) with (fileIn from name w) in H1.
  destruct (fileIn from name w) as [data'|]; [|done]. injection H1 as <- <-.
  apply io_bind_ok in H2 as (w2 & [] & H2 & H3). cbn in H2. destruct (fault _); [done|].
  destruct (dirs w !! to) as [files|] eqn:Ed; [|done]. destruct (files !! name) eqn:En; [done|]. injection H2 as <-.
  apply io_bind_ok in H3 as (w3 & c & H3 & H4). unfold writeData in H3. cbn in H3. rewrite lookup_insert_eq in H3.
  assert (c = None /\ dirs w3 = <[to := <[name := data']> files]> (dirs w)) as [-> Hd].
  { apply io_bind_ok in H4 as (w4 & s & H4 & (w5 & k & H5 & H6)%io_bind_ok).
    destruct c; [destruct s, k; done|]. split; [done|]. destruct (fault _); [done|]. injection H3 as <-. cbn.
    by rewrite insert_insert_eq, insert_insert_eq. }
  apply io_bind_ok in H4 as (w4 & s & H4 & (w5 & k & H5 & H6)%io_bind_ok).
  exists data', files. split; [done|]. split; [done|]. split; [done|].
  assert (dirs w4 = dirs w3) as E4 by (destruct (fault (clock w3)); cbn in H4; by injection H4 as <- _).
  assert (dirs w5 = dirs w4) as E5 by (destruct (fault (clock w4)); cbn in H5; by injection H5 as <- _).
  destruct s; [done|]. destruct k; [done|]. injection H6 as <- <-. by rewrite E5, E4, Hd.
Qed.

Lemma copy_outside to name (data : bytes) files w w' :
  dirs w' = <[to := <[name := data]> files]> (dirs w) -> outside to w w'.
Proof. intros E d Hd. by rewrite E, lookup_insert_ne by done. Qed.

Lemma copy_file to name (data : bytes) files w w' x :
  dirs w !! to = Some files -> dirs w' = <[to := <[name := data]> files]> (dirs w) ->
  fileIn to x w' = if decide (x = name) then Some data else fileIn to x w.
Proof.
  intros Ht E. unfold fileIn. rewrite E, lookup_insert_eq, Ht. cbn. case_decide as Hx.
  - subst. by rewrite lookup_insert_eq.
  - by rewrite lookup_insert_ne by done.
Qed.

Definition entryOf (name : string) (data : bytes) : File := mkFile name (len data) (sha256 data).

Lemma Stat_ok d name w w' b : Stat d name w = (w', inr b) -> dirs w' = dirs w /\ b = bool_decide (is_Some (fileIn d name w)).
Proof.
  unfold Stat, syscall. destruct (fault _); [done|]. intros [= <- <-]. split; [done|].
  change (fileIn d name (mkWorld (dirs w) (S (clock w)))) with (fileIn d name w).
  destruct (fileIn d name w); [by rewrite bool_decide_true by by eexists|]. rewrite bool_decide_false; [done|]. by intros [].
Qed.

(** The loop of [Create]: the files that are there are copied and listed. *)
Lemma copyAll_ok from to l : forall w w' fs,
  from <> to -> NoDup l -> is_Some (dirs w !! to) -> copyAll from to l w = (w', inr fs) ->
  outside to w w' /\ is_Some (dirs w' !! to) /\
  fs = omap (fun name => entryOf name <$> fileIn from name w) l /\
  forall x, fileIn to x w' = if decide (x ∈ l /\ is_Some (fileIn from x w)) then fileIn from x w else fileIn to x w.
Proof.
  induction l as [|name l IH]; intros w w' fs Hne Hd Hto; cbn [copyAll omap list_omap].
  { intros [= <- <-]. split; [by intros d|]. split; [done|]. split; [done|]. intros x. rewrite decide_False; [done|].
    by intros [[]%elem_of_nil _]. }
  apply NoDup_cons in Hd as [Hn Hd]. intros (w1 & b & [E1 ->]%Stat_ok & H2)%io_bind_ok.
  assert (forall d x, fileIn d x w1 = fileIn d x w) as Hf1 by (intros; unfold fileIn; by rewrite E1).
  assert (is_Some (dirs w1 !! to)) as Hto1 by by rewrite E1.
  case_bool_decide as Hp; cbn [negb] in H2.
  - apply io_bind_ok in H2 as (w2 & f & Hc & (w3 & fs' & H3 & H4)%io_bind_ok). injection H4 as <- <-.
    apply copyVerified_ok in Hc as (data & files & Hdata & Hfiles & Hnone & Hdirs & Hsz & Hsh).
    pose proof (copy_outside _ _ _ _ _ _ Hdirs) as Ho2. rewrite Hf1 in Hdata.
    destruct (IH w2 w3 fs' Hne Hd) as (Ho3 & Hs3 & -> & Hf3); [by rewrite Hdirs, lookup_insert_eq|done|].
    assert (forall x, fileIn from x w2 = fileIn from x w) as Hfrom.
    { intros x. rewrite (outside_file _ _ _ _ _ Ho2) by done. apply Hf1. }
    split; [|split; [done|split]].
    + eapply outside_trans; [|exact Ho3]. intros d Hdd. by rewrite Ho2, E1.
    + rewrite Hdata. cbn. unfold entryOf at 1. rewrite Hsz, Hsh. f_equal. apply list_omap_ext.
      clear -Hfrom. induction l; constructor; [by rewrite Hfrom|done].
    + intros x. rewrite Hf3, Hfrom, (copy_file _ _ _ _ _ _ x Hfiles Hdirs), Hf1.
      destruct (decide (x = name)) as [->|Hx].
      * rewrite decide_False by tauto. rewrite decide_True; [done|]. split; [apply list_elem_of_here|done].
      * apply decide_ext. rewrite elem_of_cons. tauto.
  - destruct (IH w1 w' fs Hne Hd Hto1 H2) as (Ho & Hs & -> & Hf). apply eq_None_not_Some in Hp.
    split; [intros d Hdd; by rewrite Ho, E1|]. split; [done|]. split.
    + rewrite Hp. cbn. apply list_omap_ext. clear -Hf1. induction l; constructor; [by rewrite Hf1|done].
    + intros x. rewrite Hf, !Hf1. destruct (decide (x = name)) as [->|Hx].
      * rewrite !decide_False; [done|..]; rewrite Hp; intros [_ []]; done.
      * apply decide_ext. rewrite elem_of_cons. tauto.
Qed.

(** The file of the directory [d] is the one an entry describes. *)
Definition describes (d : string) (w : World) (f : File) : Prop :=
  exists data, fileIn d (Name f) w = Some data /\ Size f = len data /\ SHA256 f = sha256 data.

(** The loop of [Restore]: every entry was checked and copied. *)
Lemma restoreAll_ok from to l : forall w w',
  from <> to -> restoreAll from to l w = (w', inr ()) ->
  outside to w w' /\ Forall (describes from w) l /\
  forall x, fileIn to x w' = if decide (x ∈ Name <$> l) then fileIn from x w else fileIn to x w.
Proof.
  induction l as [|f l IH]; intros w w' Hne; cbn [restoreAll].
  { intros [= <-]. split; [by intros d|]. split; [constructor|]. intros x. by rewrite decide_False by apply not_elem_of_nil. }
  destruct (negb (bool_decide (Name f ∈ names))); [done|]. intros (w1 & c & Hc & H2)%io_bind_ok.
  destruct (negb (Size c =? Size f) || _) eqn:Hck; [done|]. apply orb_false_iff in Hck as [Hsz Hsh].
  apply negb_false_iff, Z.eqb_eq in Hsz. apply negb_false_iff, bool_decide_eq_true_1 in Hsh.
  apply copyVerified_ok in Hc as (data & files & Hdata & Hfiles & Hnone & Hdirs & Hcs & Hch).
  pose proof (copy_outside _ _ _ _ _ _ Hdirs) as Ho1.
  assert (forall x, fileIn from x w1 = fileIn from x w) as Hfrom by (intros; by apply (outside_file _ _ _ _ _ Ho1)).
  destruct (IH w1 w' Hne H2) as (Ho & Hl & Hf). split; [by eapply outside_trans|]. split.
  - constructor; [exists data; split; [done|]; by rewrite <- Hsz, <- Hsh|].
    eapply Forall_impl; [exact Hl|]. intros g (b & Hb & ?). exists b. by rewrite Hfrom in Hb.
  - intros x. rewrite Hf, Hfrom, (copy_file _ _ _ _ _ _ x Hfiles Hdirs), fmap_cons.
    destruct (decide (x = Name f)) as [->|Hx].
    + rewrite (decide_True _ _ (proj2 (elem_of_cons _ _ _) (or_introl eq_refl))). case_decide; [done|]. done.
    + apply decide_ext. rewrite elem_of_cons. tauto.
Qed.

(** Without faults a file that is not there yet is copied. *)
Lemma copyVerified_runs from to name w data files :
  (forall k, fault k = None) -> fileIn from name w = Some data -> dirs w !! to = Some files -> files !! name = None ->
  exists w', copyVerified from to name w = (w', inr (entryOf "" data)) /\
    dirs w' = <[to := <[name := data]> files]> (dirs w).
Proof.
  intros Hk Hd Ht Hn. unfold copyVerified, ReadFile, OpenExclusive, Sync, CloseFile, try_, syscall, writeData, mbind, io_bind.
  rewrite Hk. cbn. change (fileIn from name (mkWorld (dirs w) (S (clock w)))) with (fileIn from name w). rewrite Hd. cbn.
  rewrite Hk, Ht. cbn. rewrite Hn. cbn. rewrite lookup_insert_eq, Hk. cbn. rewrite !Hk. cbn. eexists. split; [done|]. cbn.
  by rewrite !insert_insert_eq.
Qed.

Lemma restoreAll_runs from to l : forall w files,
  (forall k, fault k = None) -> from <> to -> dirs w !! to = Some files -> NoDup (Name <$> l) ->
  Forall (fun f => Name f ∈ names /\ describes from w f /\ files !! Name f = None) l ->
  exists w', restoreAll from to l w = (w', inr ()).
Proof.
  induction l as [|f l IH]; intros w files Hk Hne Ht Hd Hl; cbn [restoreAll]; [by eexists|].
  apply Forall_cons in Hl as [(Hin & (data & Hdata & Hsz & Hsh) & Hnone) Hl]. rewrite fmap_cons in Hd. apply NoDup_cons in Hd as [Hn Hd].
  rewrite bool_decide_true by done. cbn [negb].
  destruct (copyVerified_runs from to (Name f) w data files Hk Hdata Ht Hnone) as (w1 & HC & Hdirs).
  unfold mbind, io_bind. rewrite HC. cbn [Size SHA256 entryOf]. rewrite Hsz, Hsh, Z.eqb_refl, bool_decide_true by done. cbn [negb orb].
  pose proof (copy_outside _ _ _ _ _ _ Hdirs) as Ho.
  apply (IH w1 (<[Name f := data]> files)); [done|done|by rewrite Hdirs, lookup_insert_eq|done|].
  apply Forall_forall. intros g Hg. rewrite Forall_forall in Hl. destruct (Hl g Hg) as (H1 & (b & Hb & H2) & H3).
  split; [done|]. split; [exists b; by rewrite (outside_file _ _ _ _ _ Ho) by done|].
  rewrite lookup_insert_ne; [done|]. intros E. apply Hn. rewrite E. by apply list_elem_of_fmap_2.
Qed.

Definition manifestOf (d : string) (w : World) : Manifest :=
  mkManifest FormatVersion (omap (fun name => entryOf name <$> fileIn d name w) names).

Lemma Create_ok dataDir backup w w' :
  dataDir <> backup -> Create dataDir backup w = (w', inr ()) ->
  outside backup w w' /\
  fileIn backup "manifest.json" w' = Some (Marshal (manifestOf dataDir w) ++ [10]) /\
  forall name, name ∈ names -> fileIn backup name w' = fileIn dataDir name w.
Proof.
  intros Hne (w1 & [] & H1 & (w2 & fs & H2 & H3)%io_bind_ok)%io_bind_ok. unfold Mkdir, syscall in H1.
  destruct (fault _); [done|]. cbn in H1. destruct (dirs w !! backup) eqn:Eb; [done|]. injection H1 as <-.
  set (w1 := setDir _ _ _) in H2.
  assert (outside backup w w1) as Ho1 by (intros d Hd; cbn; by rewrite lookup_insert_ne by done).
  assert (NoDup names) as Hnd by (refine (bool_decide_eq_true_1 (NoDup names) _); done).
  destruct (copyAll_ok dataDir backup names w1 w2 fs Hne Hnd) as (Ho2 & [files Hs2] & Efs & Hf2); [by cbn; rewrite lookup_insert_eq|done|].
  assert (forall x, fileIn dataDir x w1 = fileIn dataDir x w) as Hd1 by (intros; by apply (outside_file _ _ _ _ _ Ho1)).
  assert (mkManifest FormatVersion fs = manifestOf dataDir w) as Em.
  { unfold manifestOf. f_equal. rewrite Efs. cbn [names omap list_omap]. by rewrite !Hd1. }
  rewrite Em in H3. destruct (_ =? 0)%nat; [done|]. unfold writeData in H3. rewrite Hs2 in H3. destruct (fault _); [done|].
  injection H3 as <-. split; [|split].
  - intros d Hd. cbn. by rewrite lookup_insert_ne, Ho2, Ho1 by done.
  - unfold fileIn. cbn. rewrite lookup_insert_eq. cbn. by rewrite lookup_insert_eq.
  - intros name Hin. unfold fileIn at 1. cbn. rewrite lookup_insert_eq. cbn. rewrite lookup_insert_ne.
    + specialize (Hf2 name). unfold fileIn at 1 in Hf2. rewrite Hs2 in Hf2. cbn in Hf2. rewrite Hf2, Hd1. clear Hf2.
      case_decide as Hc; [done|]. assert (fileIn dataDir name w = None) as ->.
      { apply eq_None_not_Some. intros Hs. by apply Hc. }
      unfold fileIn. cbn. by rewrite lookup_insert_eq.
    + intros <-. revert Hin. apply (bool_decide_eq_false_1 ("manifest.json"%string ∈ names)). done.
Qed.

Lemma MkdirAll_ok d w w' : MkdirAll d w = (w', inr ()) ->
  outside d w w' /\ forall x, fileIn d x w' = fileIn d x w.
Proof.
  unfold MkdirAll, syscall. destruct (fault _); [done|]. cbn. destruct (dirs w !! d) eqn:E; intros [= <-].
  - split; [by intros d'|done].
  - split; [intros d' Hd; cbn; by rewrite lookup_insert_ne by done|]. intros x. unfold fileIn. cbn. by rewrite lookup_insert_eq, E.
Qed.

(** A restore that succeeds found a manifest, checked the files against it and
    wrote these files and no others. *)
Lemma Restore_ok backup target w w' :
  backup <> target -> Restore backup target w = (w', inr ()) ->
  exists data m, fileIn backup "manifest.json" w = Some data /\ Unmarshal data = Some m /\ Version m = FormatVersion /\
    outside target w w' /\ Forall (describes backup w) (Files m) /\
    forall x, fileIn target x w' = if decide (x ∈ Name <$> Files m) then fileIn backup x w else None.
Proof.
  intros Hne (w1 & es & H1 & H2)%io_bind_ok. unfold ReadDir, syscall in H1. destruct (fault _); [done|]. injection H1 as <- <-.
  cbn [dirs] in H2. assert (forall x, fileIn target x w = None) as Hempty.
  { intros x. unfold fileIn. destruct (dirs w !! target) as [files|]; [|done]. cbn in H2 |- *.
    destruct (size files) eqn:Es; [|done]. apply map_size_empty_inv in Es. by rewrite Es. }
  assert (exists w1, dirs w1 = dirs w /\
    (data ← ReadFile backup "manifest.json"; checkManifest backup target data) w1 = (w', inr ())) as (w1 & E1 & H3).
  { exists (mkWorld (dirs w) (S (clock w))). split; [done|]. by destruct (size <$> dirs w !! target) as [[]|]. }
  clear H2. apply io_bind_ok in H3 as (w2 & data & H2 & H3). unfold ReadFile, syscall in H2. destruct (fault _); [done|].
  change (fileIn backup "manifest.json" (mkWorld (dirs w1) (S (clock w1)))) with (fileIn backup "manifest.json" w1) in H2.
  assert (fileIn backup "manifest.json" w1 = fileIn backup "manifest.json" w) as Em by (unfold fileIn; by rewrite E1).
  rewrite Em in H2. destruct (fileIn backup "manifest.json" w) as [data'|]; [|done]. injection H2 as <- <-.
  unfold checkManifest in H3. destruct (Unmarshal data') as [m|] eqn:Eu; [|done].
  destruct (Version m =? FormatVersion) eqn:Ev; [|done]. cbn [negb] in H3.
  apply io_bind_ok in H3 as (w3 & [] & H3 & H4). apply MkdirAll_ok in H3 as (Ho3 & Hf3). cbn [dirs] in *.
  assert (outside target w w3) as Ho by (intros d Hd; by rewrite Ho3, <- E1).
  destruct (restoreAll_ok _ _ _ _ _ Hne H4) as (Ho4 & Hl & Hf).
  assert (forall x, fileIn backup x w3 = fileIn backup x w) as Hb by (intros; by apply (outside_file _ _ _ _ _ Ho)).
  exists data', m. split; [done|]. split; [done|]. split; [by apply Z.eqb_eq|]. split; [by eapply outside_trans|]. split.
  - eapply Forall_impl; [exact Hl|]. intros f (b & Hd & ?). exists b. by rewrite Hb in Hd.
  - intros x. rewrite Hf, Hb, Hf3. case_decide; [done|]. rewrite <- (Hempty x). unfold fileIn. cbn. by rewrite E1.
Qed.

(** Without faults a manifest that describes the files of the backup is restored
    into a directory that is missing or empty. *)
Lemma Restore_runs backup target w data m :
  (forall k, fault k = None) -> backup <> target -> default ∅ (dirs w !! target) = ∅ ->
  fileIn backup "manifest.json" w = Some data -> Unmarshal data = Some m -> Version m = FormatVersion ->
  NoDup (Name <$> Files m) -> Forall (fun f => Name f ∈ names /\ describes backup w f) (Files m) ->
  exists w', Restore backup target w = (w', inr ()).
Proof.
  intros Hk Hne He Hd Hu Hv Hnd Hl. unfold Restore, ReadDir, ReadFile, syscall, mbind, io_bind. rewrite Hk. cbn [dirs].
  assert (match size <$> dirs w !! target with Some (S _) => False | _ => True end) as Hsz.
  { destruct (dirs w !! target); cbn in *; [subst; by rewrite map_size_empty|done]. }
  set (w1 := mkWorld (dirs w) (S (S (clock w)))).
  assert (exists w', checkManifest backup target data w1 = (w', inr ())) as [w' HC].
  { unfold checkManifest. rewrite Hu, Hv, Z.eqb_refl. cbn [negb]. unfold MkdirAll, syscall, mbind, io_bind. rewrite Hk. cbn [dirs w1].
    destruct (dirs w !! target) as [files|] eqn:Et; cbn in He.
    - subst files. apply (restoreAll_runs _ _ _ _ ∅); [done|done|done|done|].
      eapply Forall_impl; [exact Hl|]. intros f [? ?]. by rewrite lookup_empty.
    - apply (restoreAll_runs _ _ _ _ ∅); [done|done|by cbn; rewrite lookup_insert_eq|done|].
      eapply Forall_impl; [exact Hl|]. intros f [Hf (b & Hb & ?)]. split; [done|]. split; [|by rewrite lookup_empty].
      exists b. split; [|done]. rewrite <- Hb. unfold fileIn. cbn. by rewrite lookup_insert_ne. }
  exists w'. destruct (size <$> dirs w !! target) as [[]|]; [|done|]; rewrite Hk;
    change (fileIn backup "manifest.json" _) with (fileIn backup "manifest.json" w); rewrite Hd; exact HC.
Qed.

Lemma manifestOf_names d w :
  Name <$> Files (manifestOf d w) = filter (fun name => is_Some (fileIn d name w)) names.
Proof.
  unfold manifestOf. cbn [Files]. generalize names. intros l. induction l as [|name l IH]; [done|].
  rewrite filter_cons. cbn [omap list_omap]. destruct (fileIn d name w) eqn:E; cbn [fmap option_fmap option_map].
  - rewrite decide_True by by eexists. rewrite fmap_cons. by f_equal.
  - rewrite decide_False by by intros []. exact IH.
Qed.

Lemma manifestOf_describes d d' w w' :
  (forall name, name ∈ names -> fileIn d' name w' = fileIn d name w) ->
  Forall (fun f => Name f ∈ names /\ describes d' w' f) (Files (manifestOf d w)).
Proof.
  intros Hf. apply Forall_forall. intros f. unfold manifestOf. cbn [Files]. rewrite list_elem_of_omap.
  intros (name & Hin & Hn). destruct (fileIn d name w) as [data|] eqn:E; [|done]. injection Hn as <-.
  split; [done|]. exists data. cbn. by rewrite Hf.
Qed.

(** A manifest of the two files of a node. *)
Definition listing (m : Manifest) : Prop :=
  Forall (fun f => Name f ∈ names /\ exists data, Size f = len data /\ SHA256 f = sha256 data) (Files m).

Lemma manifestOf_listing d w : listing (manifestOf d w).
Proof. eapply Forall_impl; [by apply (manifestOf_describes d d w w)|]. intros f [? (data & _ & ?)]. eauto. Qed.

End backup.

(** C37 A backup that was created is restored to what was backed up.  When [Create]
    has returned no error, only the backup directory has changed.  As long as the
    backup stays as it is, whatever happens to the node's directory, a [Restore]
    into a missing or empty directory that returns no error leaves exactly the
    files that were backed up in it and changes nothing else, whichever system
    calls failed on the way, and when none fails it returns no error.  A backup in
    which a file no longer has the hash it was created with is never restored
    without an error. *)
Theorem backup_roundtrip Marshal Unmarshal sha256 fault cut fault' cut' dataDir backup w w1 :
  (forall m, listing sha256 m -> Unmarshal (Marshal m ++ [10]) = Some m) ->
  dataDir <> backup -> Create fault cut Marshal sha256 dataDir backup w = (w1, inr ()) ->
  outside backup w w1 /\
  (forall w2 target, target <> backup -> dirs w2 !! backup = dirs w1 !! backup -> default ∅ (dirs w2 !! target) = ∅ ->
    (forall w3, Restore fault' cut' Unmarshal sha256 backup target w2 = (w3, inr ()) -> outside target w2 w3 /\
      forall name, fileIn target name w3 = if decide (name ∈ names) then fileIn dataDir name w else None) /\
    ((forall k, fault' k = None) -> exists w3, Restore fault' cut' Unmarshal sha256 backup target w2 = (w3, inr ()))) /\
  (forall w2 w3 target name data data', target <> backup -> name ∈ names ->
    fileIn backup "manifest.json" w2 = fileIn backup "manifest.json" w1 ->
    fileIn dataDir name w = Some data -> fileIn backup name w2 = Some data' -> sha256 data' <> sha256 data ->
    Restore fault' cut' Unmarshal sha256 backup target w2 <> (w3, inr ())).
Proof.
  intros HU Hne HC. destruct (Create_ok fault cut Marshal Unmarshal sha256 _ _ _ _ Hne HC) as (Ho & Hm & Hf).
  specialize (HU _ (manifestOf_listing sha256 dataDir w)). split; [done|]. split.
  - intros w2 target Ht Hsame He. assert (forall x, fileIn backup x w2 = fileIn backup x w1) as Hb by (intros; unfold fileIn; by rewrite Hsame).
    split.
    + intros w3 (data & m & Hd & Hum & _ & Ho3 & _ & Hf3)%Restore_ok; [|done]. split; [done|]. intros name.
      rewrite Hb, Hm in Hd. injection Hd as <-. rewrite HU in Hum. injection Hum as <-.
      rewrite Hf3, manifestOf_names. destruct (decide (name ∈ names)) as [Hin|Hin].
      * rewrite Hb, Hf by done. case_decide as Hc; [done|]. symmetry. apply eq_None_not_Some.
        intros Hs. apply Hc. by apply list_elem_of_filter.
      * rewrite decide_False; [done|]. by intros [_ ?]%list_elem_of_filter.
    + intros Hk. eapply Restore_runs; [done|done|done|by rewrite Hb|exact HU|done|..].
      * rewrite manifestOf_names. apply NoDup_filter. by apply (bool_decide_eq_true_1 (NoDup names)).
      * apply manifestOf_describes. intros. by rewrite Hb, Hf.
  - intros w2 w3 target name data data' Ht Hin Hsame Hd Hd' Hh (b & m & Hb & Hum & _ & _ & Hl & _)%Restore_ok; [|done].
    rewrite Hsame, Hm in Hb. injection Hb as <-. rewrite HU in Hum. injection Hum as <-.
    rewrite Forall_forall in Hl. destruct (Hl (entryOf sha256 name data)) as (x & Hx & _ & Hsh).
    { cbn [Files manifestOf]. apply list_elem_of_omap. exists name. by rewrite Hd. }
    cbn in Hx, Hsh. congruence.
Qed.

(** ** A node with a log and no snapshot *)

Module Demo.

(** A stand-in for the encoding of the manifest: the bits of its number. *)
Fixpoint bits (p : positive) : bytes :=
  match p with xH => [] | xO p => 0 :: bits p | xI p => 1 :: bits p end.

Fixpoint unbits (b : bytes) : option positive :=
  match b with
  | [] => None
  | [_] => Some xH
  | x :: b => (if x =? 0 then xO else xI) <$> unbits b
  end.

Definition flat (m : Manifest) : Z * list (string * Z * bytes) := (Version m, (fun f => (Name f, Size f, SHA256 f)) <$> Files m).
Definition unflat (m : Z * list (string * Z * bytes)) : Manifest :=
  mkManifest m.1 ((fun f => mkFile f.1.1 f.1.2 f.2) <$> m.2).

Definition marshal (m : Manifest) : bytes := bits (encode (flat m)).
Definition unmarshal (b : bytes) : option Manifest := unflat <$> (unbits b ≫= decode).

Lemma unbits_bits p : unbits (bits p ++ [10]) = Some p.
Proof.
  assert (forall b x, unbits (x :: b ++ [10]) = (if x =? 0 then xO else xI) <$> unbits (b ++ [10])) as E by (by intros [] x).
  induction p as [p IH|p IH|]; [| |done]; cbn [bits app]; by rewrite E, IH.
Qed.

Lemma unmarshal_marshal m : unmarshal (marshal m ++ [10]) = Some m.
Proof.
  unfold unmarshal, marshal. rewrite unbits_bits. cbn [mbind option_bind]. rewrite decode_encode. cbn. f_equal.
  destruct m as [v l]. unfold unflat, flat. cbn. f_equal. rewrite <- list_fmap_compose.
  induction l as [|[] l IH]; [done|]. rewrite fmap_cons. by f_equal.
Qed.

Definition none : nat -> option error := fun _ => None.
Definition hash (b : bytes) : bytes := [w64 (foldr Z.add 7 b)].

(** A node with a log and no snapshot, and its log after the backup. *)
Definition before : World := mkWorld {[ "data"%string := {[ "raft.wal"%string := [1; 2; 3] ]} ]} 0.
Definition saved : World := (Create none (fun _ => O) marshal hash "data" "backup" before).1.
Definition lost : World := mkWorld (<["data"%string := {[ "raft.wal"%string := [9] ]}]> (dirs saved)) (clock saved).

Lemma backup_roundtrip_witness :
  exists w3, Restore none (fun _ => O) unmarshal hash "backup" "new" lost = (w3, inr ()) /\
    fileIn "new" "raft.wal" w3 = Some [1; 2; 3] /\ fileIn "new" "snapshot.bin" w3 = None /\
    fileIn "data" "raft.wal" w3 = Some [9].
Proof.
  destruct (backup_roundtrip marshal unmarshal hash none (fun _ => O) none (fun _ => O) "data" "backup" before saved) as (_ & HR & _).
  - intros m _. apply unmarshal_marshal.
  - discriminate.
  - vm_compute. reflexivity.
  - destruct (HR lost "new"%string) as [Hok Hrun]; [discriminate|vm_compute; reflexivity|vm_compute; reflexivity|].
    destruct Hrun as [w3 H3]; [reflexivity|]. exists w3. destruct (Hok w3 H3) as [Ho Hf]. split; [exact H3|].
    split; [rewrite Hf; vm_compute; reflexivity|]. split; [rewrite Hf; vm_compute; reflexivity|].
    unfold fileIn. rewrite Ho; [vm_compute; reflexivity|discriminate].
Defined.

End Demo.

End Backup.
