(* ===== verification/RaftWal.v ===== *)
(** * The Raft log over the write-ahead log

    [storage/raftwal/store.go]: hard state, entries, compaction and reset fences
    as records of the checksummed log, replayed by [Open].  Results: a completed
    operation survives every crash, an operation cut short by a crash is either
    fully there or fully absent after the restart, and the store keeps the
    contract on votes the election proof relies on. *)

From S2P Require Import Prelude Bytes Wal RaftTypes RaftVotes.

Module RaftWal.

Definition hardStateIndex : Z := 0.
Definition compactIndex : Z := maxu64.
Definition resetIndex : Z := maxu64 - 1.

Definition ErrReset : error := "raftwal: reset index regression".
Definition ErrCompact : error := "raftwal: invalid compaction index".
Definition ErrHard : error := "raftwal: hard-state regression".
Definition ErrGap : error := "raftwal: log index gap".
Definition ErrIndex : error := "raftwal: invalid log index".

(** The fields of [Store] that [Open] rebuilds from the records; [data] starts
    with the compacted-base sentinel. *)
Record view := mkView { hard : HardState; data : list Entry; base : Z }.

#[global] Instance eta_view : Eta view := fun v => mkView (hard v) (data v) (base v).

Definition emptyView : view := mkView (mkHardState 0 0 0) [zeroEntry] 0.

(** [s.base+uint64(len(s.data))-1]. *)
Definition lastIndex (v : view) : Z := w64 (base v + len (data v) - 1).

Definition regression (term votedFor commit : Z) (h : HardState) : bool :=
  (term <? h_Term h) || (commit <? h_Commit h) ||
  ((term =? h_Term h) && negb (h_VotedFor h =? 0) && negb (votedFor =? h_VotedFor h)).

(** [if offset < len(s.data) { s.data = s.data[:offset] }; append(s.data, entry)]. *)
Definition store1 (offset : Z) (entry : Entry) (data : list Entry) : list Entry :=
  (if offset <? len data then take (Z.to_nat offset) data else data) ++ [entry].

Definition entryOf (e : Storage.Entry) : Entry :=
  mkEntry (Storage.Term e) (Storage.Command e) (Storage.Kind e) (Storage.OldVoters e)
    (Storage.NewVoters e) (Storage.Operation e) (Storage.ClientID e) (Storage.RequestID e)
    (Storage.Key e) (Storage.Value e).

(** The body of the replay loop of [Open]. *)
Definition replay (v : view) (e : Storage.Entry) : error + view :=
  if Storage.Index e =? resetIndex then
    if Storage.Term e <? base v then inl ErrReset
    else inr (mkView (hard v) [zeroEntry <| e_Term := Storage.Command e |>] (Storage.Term e))
  else if Storage.Index e =? compactIndex then
    if (Storage.Term e <? base v) || (lastIndex v <? Storage.Term e) then inl ErrCompact
    else inr (mkView (hard v) (drop (Z.to_nat (Storage.Term e - base v)) (data v)) (Storage.Term e))
  else if Storage.Index e =? hardStateIndex then
    if regression (Storage.Term e) (w32 (Storage.Command e)) (Storage.OldVoters e) (hard v)
    then inl ErrHard
    else inr (v <| hard := mkHardState (Storage.Term e) (w32 (Storage.Command e)) (Storage.OldVoters e) |>)
  else if Storage.Index e <=? base v then inr v
  else
    let offset := Storage.Index e - base v in
    if len (data v) <? offset then inl ErrGap
    else inr (v <| data := store1 offset (entryOf e) (data v) |>).

Fixpoint replayAll (v : view) (es : list Storage.Entry) : error + view :=
  match es with
  | [] => inr v
  | e :: es => match replay v e with inl err => inl err | inr v => replayAll v es end
  end.

Section store.
Context {D : Type} `{!Device D}.

Record Store := mkStore { log : Log.t D; mem : view }.

#[global] Instance eta_Store : Eta Store := fun s => mkStore (log s) (mem s).

Definition Open (d : D) : error + Store :=
  match Log.Open d with
  | Log.Failed _ _ e => inl e
  | Log.Opened l records =>
      match replayAll emptyView (r_Entry <$> records) with
      | inl e => inl e
      | inr v => inr (mkStore l v)
      end
  end.

(** [s.append]: one record, made durable before returning. *)
Definition append (entry : Storage.Entry) (s : Store) : Store * option error :=
  let (l, err) := Log.Append Background [entry] (log s) in
  match err with
  | Some e => (s <| log := l |>, Some e)
  | None => let (l, err) := Log.Sync None l in (s <| log := l |>, err)
  end.

Definition hardRecord (h : HardState) : Storage.Entry :=
  Storage.zero <| Storage.Index := hardStateIndex |> <| Storage.Term := h_Term h |>
    <| Storage.Command := h_VotedFor h |> <| Storage.OldVoters := h_Commit h |>.

Definition SaveHardState (h : HardState) (s : Store) : Store * option error :=
  if regression (h_Term h) (h_VotedFor h) (h_Commit h) (hard (mem s)) then (s, Some ErrHard) else
  let (s, err) := append (hardRecord h) s in
  match err with
  | Some e => (s, Some e)
  | None => (s <| mem := mem s <| hard := h |> |>, None)
  end.

Definition entryRecord (index : Z) (entry : Entry) : Storage.Entry :=
  Storage.mkEntry index (e_Term entry) (e_Command entry) (e_Kind entry) (e_OldVoters entry)
    (e_NewVoters entry) (e_Operation entry) (e_ClientID entry) (e_RequestID entry)
    (e_Key entry) (e_Value entry).

Definition Append (index : Z) (entry : Entry) (s : Store) : Store * option error :=
  if (index <=? base (mem s)) || (w64 (base (mem s) + len (data (mem s))) <? index)
  then (s, Some ErrIndex) else
  let (s, err) := append (entryRecord index entry) s in
  match err with
  | Some e => (s, Some e)
  | None =>
      let offset := index - base (mem s) in
      (s <| mem := mem s <| data := store1 offset entry (data (mem s)) |> |>, None)
  end.

Definition State (s : Store) : HardState * list Entry := (hard (mem s), data (mem s)).

Definition StateWithBase (s : Store) : HardState * Z * list Entry :=
  (hard (mem s), base (mem s), data (mem s)).

Definition Term (index : Z) (s : Store) : option Z :=
  if (index <? base (mem s)) || (lastIndex (mem s) <? index) then None
  else e_Term <$> data (mem s) !! Z.to_nat (index - base (mem s)).

Definition resetRecord (index term : Z) : Storage.Entry :=
  Storage.zero <| Storage.Index := resetIndex |> <| Storage.Term := index |> <| Storage.Command := term |>.

Definition ResetBase (index term : Z) (s : Store) : Store * option error :=
  if index <? base (mem s) then (s, Some ErrReset) else
  let (s, err) := append (resetRecord index term) s in
  match err with
  | Some e => (s, Some e)
  | None => (s <| mem := mkView (hard (mem s)) [zeroEntry <| e_Term := term |>] index |>, None)
  end.

Definition compactRecord (index term : Z) : Storage.Entry :=
  Storage.zero <| Storage.Index := compactIndex |> <| Storage.Term := index |> <| Storage.Command := term |>.

Definition CompactLog (index : Z) (s : Store) : Store * option error :=
  if (index <=? base (mem s)) || (lastIndex (mem s) <? index) then (s, Some ErrCompact) else
  let offset := index - base (mem s) in
  let term := default 0 (e_Term <$> data (mem s) !! Z.to_nat offset) in
  let (s, err) := append (compactRecord index term) s in
  match err with
  | Some e => (s, Some e)
  | None => (s <| mem := mkView (hard (mem s)) (drop (Z.to_nat offset) (data (mem s))) index |>, None)
  end.

End store.
Arguments Store : clear implicits.

(** ** Replay follows the operations *)

(** The operations that write, as data. *)
Inductive request :=
| ReqHard (h : HardState)
| ReqAppend (index : Z) (entry : Entry)
| ReqReset (index term : Z)
| ReqCompact (index : Z).

Definition perform {D} `{!Device D} (r : request) (s : Store D) : Store D * option error :=
  match r with
  | ReqHard h => SaveHardState h s
  | ReqAppend index entry => Append index entry s
  | ReqReset index term => ResetBase index term s
  | ReqCompact index => CompactLog index s
  end.

(** The check an operation makes before writing, the record it writes, and the
    in-memory state it leaves. *)
Definition check (r : request) (v : view) : option error :=
  match r with
  | ReqHard h => if regression (h_Term h) (h_VotedFor h) (h_Commit h) (hard v) then Some ErrHard else None
  | ReqAppend index _ =>
      if (index <=? base v) || (w64 (base v + len (data v)) <? index) then Some ErrIndex else None
  | ReqReset index _ => if index <? base v then Some ErrReset else None
  | ReqCompact index =>
      if (index <=? base v) || (lastIndex v <? index) then Some ErrCompact else None
  end.

Definition recordOf (r : request) (v : view) : Storage.Entry :=
  match r with
  | ReqHard h => hardRecord h
  | ReqAppend index entry => entryRecord index entry
  | ReqReset index term => resetRecord index term
  | ReqCompact index =>
      compactRecord index (default 0 (e_Term <$> data v !! Z.to_nat (index - base v)))
  end.

Definition effect (r : request) (v : view) : view :=
  match r with
  | ReqHard h => v <| hard := h |>
  | ReqAppend index entry => v <| data := store1 (index - base v) entry (data v) |>
  | ReqReset index term => mkView (hard v) [zeroEntry <| e_Term := term |>] index
  | ReqCompact index => mkView (hard v) (drop (Z.to_nat (index - base v)) (data v)) index
  end.

Definition wf_entry (e : Entry) : Prop :=
  is_u64 (e_Term e) /\ is_u64 (e_Command e) /\ is_u8 (e_Kind e) /\ is_u64 (e_OldVoters e) /\
  is_u64 (e_NewVoters e) /\ is_u8 (e_Operation e) /\ is_u64 (e_ClientID e) /\
  is_u64 (e_RequestID e) /\ is_u64 (e_Key e) /\ is_u64 (e_Value e).

(** The arguments fit their Go types, and the indices stay clear of the three
    reserved values. *)
Definition wf_request (r : request) : Prop :=
  match r with
  | ReqHard h => is_u64 (h_Term h) /\ is_u32 (h_VotedFor h) /\ is_u64 (h_Commit h)
  | ReqAppend index entry => 0 <= index < resetIndex - 1 /\ wf_entry entry
  | ReqReset index term => 0 <= index < resetIndex - 1 /\ is_u64 term
  | ReqCompact index => 0 <= index < resetIndex - 1
  end.

Record wf_view (v : view) : Prop := {
  wfv_base : 0 <= base v;
  wfv_data : data v <> [];
  wfv_room : base v + len (data v) <= resetIndex - 1;
  wfv_terms : Forall (fun e => is_u64 (e_Term e)) (data v)
}.

Lemma emptyView_wf : wf_view emptyView.
Proof. split; cbn; [done|done|done|]. constructor; [|constructor]. by split. Qed.

Lemma wfv_last v : wf_view v -> lastIndex v = base v + len (data v) - 1 /\ w64 (base v + len (data v)) = base v + len (data v).
Proof.
  intros [H1 H2 H3 _]. unfold lastIndex, w64. assert (1 <= len (data v)).
  { destruct (data v); [done|]. unfold len. cbn [length]. lia. }
  unfold resetIndex, maxu64 in *. rewrite !Z.mod_small by lia. done.
Qed.

Lemma len_store1 o e d : 0 < o <= len d -> len (store1 o e d) = o + 1.
Proof.
  intros Ho. unfold store1, len in *. rewrite length_app. cbn [length].
  destruct (Z.ltb_spec o (Z.of_nat (length d))); [rewrite length_take|]; lia.
Qed.

Lemma check_wf r v :
  wf_view v -> wf_request r -> check r v = None -> wf_view (effect r v) /\ Storage.wf (recordOf r v).
Proof.
  intros Hv Hr Hc. destruct (wfv_last v Hv) as [Hl Hw]. destruct Hv as [H1 H2 H3 H4].
  destruct r as [h|index e|index term|index]; cbn [check wf_request recordOf effect] in *.
  - destruct Hr as (Ht & Hvf & Hcm). split; [by split|].
    unfold is_u64, is_u32 in *. repeat split; cbn; unfold hardStateIndex; lia.
  - rewrite Hw in Hc. destruct (Z.leb_spec index (base v)), (Z.ltb_spec (base v + len (data v)) index); try done.
    destruct Hr as [Hi He]. split; [split; cbn|].
    + done.
    + unfold store1. intros E. by apply app_eq_nil in E as [_ E].
    + rewrite len_store1 by lia. lia.
    + unfold store1. apply Forall_app. split; [destruct (_ <? _); [by apply Forall_take|done]|].
      constructor; [apply He|constructor].
    + split; [|exact He]. unfold is_u64. cbn. unfold resetIndex, maxu64 in Hi. lia.
  - destruct (Z.ltb_spec index (base v)); [done|]. destruct Hr as [Hi Ht].
    split; [split; [cbn; lia|done|unfold len; cbn; lia|constructor; [exact Ht|constructor]]|].
    unfold is_u64, resetIndex, maxu64 in *. repeat split; cbn; unfold resetIndex, maxu64; lia.
  - rewrite Hl in Hc. destruct (Z.leb_spec index (base v)), (Z.ltb_spec (base v + len (data v) - 1) index); try done.
    assert (0 <= index - base v < len (data v)) as Ho by lia. unfold len in *.
    destruct (lookup_lt_is_Some_2 (data v) (Z.to_nat (index - base v))) as [x Hx]; [lia|].
    rewrite Hx. cbn [fmap option_fmap option_map default].
    assert (is_u64 (e_Term x)) as Htx by (eapply Forall_lookup_1 in H4; [exact H4|exact Hx]).
    split; [split; cbn; unfold len|].
    + lia.
    + intros E. apply (f_equal length) in E. rewrite length_drop in E. cbn in E. lia.
    + rewrite length_drop. lia.
    + by apply Forall_drop.
    + unfold is_u64, resetIndex, maxu64 in *. repeat split; cbn; unfold compactIndex, maxu64; lia.
Qed.

(** Replaying the record of an accepted operation does what the operation did. *)
Lemma replay_follows r v :
  wf_view v -> wf_request r -> check r v = None -> replay v (recordOf r v) = inr (effect r v).
Proof.
  intros Hv Hr Hc. destruct (wfv_last v Hv) as [Hl Hw]. unfold replay.
  destruct r as [h|index e|index term|index]; cbn [check wf_request recordOf effect] in *.
  - destruct Hr as (Ht & Hvf & Hcm). change (Storage.Command (hardRecord h)) with (h_VotedFor h).
    assert (w32 (h_VotedFor h) = h_VotedFor h) as -> by (by apply Z.mod_small). cbn.
    destruct (regression _ _ _ _); [done|]. by destruct h.
  - rewrite Hw in Hc. destruct Hr as [Hi _]. cbn.
    destruct (Z.leb_spec index (base v)), (Z.ltb_spec (base v + len (data v)) index); try done.
    destruct (Z.eqb_spec index resetIndex); [lia|].
    destruct (Z.eqb_spec index compactIndex); [unfold compactIndex, resetIndex in *; lia|].
    destruct Hv as [H1 _ _ _]. unfold hardStateIndex. destruct (Z.eqb_spec index 0); [lia|].
    destruct (Z.ltb_spec (len (data v)) (index - base v)); [lia|]. by destruct e.
  - cbn. by destruct (Z.ltb_spec index (base v)).
  - rewrite Hl in *. cbn.
    destruct (Z.leb_spec index (base v)), (Z.ltb_spec (base v + len (data v) - 1) index); try done.
    by destruct (Z.ltb_spec index (base v)); [lia|].
Qed.

Lemma perform_unfold {D} `{!Device D} r (s : Store D) :
  perform r s =
  match check r (mem s) with
  | Some e => (s, Some e)
  | None =>
      let (s', err) := append (recordOf r (mem s)) s in
      match err with Some e => (s', Some e) | None => (s' <| mem := effect r (mem s') |>, None) end
  end.
Proof.
  destruct r as [h|index e|index term|index]; cbn [perform check recordOf effect];
    unfold SaveHardState, Append, ResetBase, CompactLog.
  - by destruct (regression _ _ _ _).
  - by destruct (_ || _).
  - by destruct (_ <? _).
  - destruct (_ || _); [done|]. unfold append. cbn. destruct (dev_Append _ _) as [d [err|]]; [done|].
    cbn. by destruct (dev_Sync _) as [d' [err|]].
Qed.

Lemma replayAll_app v es es' :
  replayAll v (es ++ es') =
  match replayAll v es with inl e => inl e | inr v' => replayAll v' es' end.
Proof.
  revert v. induction es as [|e es IH]; intros v; cbn; [done|]. destruct (replay v e); [done|apply IH].
Qed.

Lemma entries_records k es : r_Entry <$> recordsFrom k es = es.
Proof.
  revert k. induction es as [|e es IH]; intros k; [done|]. rewrite recordsFrom_cons. cbn. by rewrite IH.
Qed.

(** ** Crashes *)

Abbreviation store := (Store MemoryDevice.t).

(** The in-memory state of the store is what replaying its durable records
    gives. *)
Record rinv (s : store) (es : list Storage.Entry) : Prop := {
  ri_holds : holds (log s) es (length es);
  ri_replay : replayAll emptyView es = inr (mem s);
  ri_wf : wf_view (mem s)
}.

Definition room (es : list Storage.Entry) : Prop := Z.of_nat (length es) < 2 ^ 64 - 2.

Lemma room_fits es e l k : room es -> holds (D := MemoryDevice.t) l es k -> Storage.wf e -> fits (es ++ [e]).
Proof.
  intros Hr [[Hwf _] _ _ _ _ _] He. split; [apply Forall_app; split; [done|by apply Forall_singleton]|].
  rewrite length_app. cbn [length]. unfold room in Hr. lia.
Qed.

Lemma append_rinv s es r :
  rinv s es -> room es -> wf_request r -> check r (mem s) = None ->
  exists s', append (recordOf r (mem s)) s = (s', None) /\ mem s' = mem s /\
    holds (log s') (es ++ [recordOf r (mem s)]) (length (es ++ [recordOf r (mem s)])).
Proof.
  intros [Hh Hr Hv] Hroom Hreq Hc. destruct (check_wf r (mem s) Hv Hreq Hc) as [_ He].
  pose proof (room_fits _ _ _ _ Hroom Hh He) as Hf.
  destruct (wal_crash_prepare (log s) es (length es) [recordOf r (mem s)] Hh Hf)
    as (l1 & l2 & HA & _ & HS & H2).
  exists (s <| log := l2 |>). unfold append. rewrite HA, HS. by cbn.
Qed.

Lemma effect_rinv s s' es r :
  rinv s es -> wf_request r -> check r (mem s) = None ->
  holds (log s') (es ++ [recordOf r (mem s)]) (length (es ++ [recordOf r (mem s)])) ->
  mem s' = effect r (mem s) -> rinv s' (es ++ [recordOf r (mem s)]).
Proof.
  intros [Hh Hr Hv] Hreq Hc Hh' Hm. split; [done| |].
  - rewrite replayAll_app, Hr. cbn [replayAll]. by rewrite replay_follows, Hm.
  - rewrite Hm. by apply check_wf.
Qed.

(** An accepted operation succeeds, and a rejected one changes nothing. *)
Lemma perform_rinv s es r :
  rinv s es -> room es -> wf_request r ->
  match check r (mem s) with
  | Some e => perform r s = (s, Some e)
  | None => exists s', perform r s = (s', None) /\ mem s' = effect r (mem s) /\
              rinv s' (es ++ [recordOf r (mem s)])
  end.
Proof.
  intros Hs Hroom Hreq. rewrite perform_unfold. destruct (check r (mem s)) as [e|] eqn:Hc; [done|].
  destruct (append_rinv s es r Hs Hroom Hreq Hc) as (s' & -> & Hm & Hh).
  exists (s' <| mem := effect r (mem s') |>). split; [done|]. cbn. rewrite Hm. split; [done|].
  by eapply effect_rinv.
Qed.

Lemma open_rinv d (l : Log.t MemoryDevice.t) es v :
  Log.Open d = Log.Opened l (records es) -> replayAll emptyView es = inr v ->
  Open d = inr (mkStore l v).
Proof. intros HO Hr. unfold Open. by rewrite HO, entries_records, Hr. Qed.

Lemma crash_rinv s es torn d :
  rinv s es -> MemoryDevice.Crash torn (Log.device (log s)) = inr d ->
  exists s2, Open d = inr s2 /\ mem s2 = mem s /\ rinv s2 es.
Proof.
  intros [Hh Hr Hv] Hc. destruct (memory_crash _ _ _ _ _ Hh Hc) as (m & l & Hm & HO & Hl).
  assert (m = length es) as -> by lia. rewrite take_ge in HO, Hl by done.
  exists (mkStore l (mem s)). split; [by eapply open_rinv|]. split; [done|]. by split.
Qed.

(** A crash before the record of [r] was synced. *)
Lemma torn_rinv s es r l torn d :
  rinv s es -> room es -> wf_request r -> check r (mem s) = None ->
  Log.Append Background [recordOf r (mem s)] (log s) = (l, None) ->
  MemoryDevice.Crash torn (Log.device l) = inr d ->
  exists s2, Open d = inr s2 /\
    (mem s2 = mem s /\ rinv s2 es \/ mem s2 = effect r (mem s) /\ rinv s2 (es ++ [recordOf r (mem s)])).
Proof.
  intros Hs Hroom Hreq Hc HA Hd. pose proof (perform_rinv s es r Hs Hroom Hreq) as H. rewrite Hc in H.
  destruct H as (s1 & _ & Hm1 & [_ Hr1 Hv1]). destruct Hs as [Hh Hr Hv]. destruct (check_wf r (mem s) Hv Hreq Hc) as [_ He].
  pose proof (append_holds _ _ _ _ _ _ _ Hh (room_fits _ _ _ _ Hroom Hh He) HA) as Hl.
  destruct (memory_crash _ _ _ _ _ Hl Hd) as (m & l2 & Hm' & HO & Hl2).
  rewrite length_app in Hm'. cbn [length] in Hm'. destruct (decide (m = length es)) as [->|Hne].
  - rewrite take_app_length in HO, Hl2. exists (mkStore l2 (mem s)). split; [by eapply open_rinv|]. left. by split.
  - assert (m = length (es ++ [recordOf r (mem s)])) as -> by (rewrite length_app; cbn [length]; lia).
    rewrite take_ge in HO, Hl2 by done. exists (mkStore l2 (mem s1)). split; [by eapply open_rinv|].
    right. split; [exact Hm1|]. by split.
Qed.

(** C17 Atomic and durable operations.  Once an operation of the Raft store has
    returned without error, a restart after any crash rebuilds exactly the state
    the operation left; a crash after its record was handed to the device but
    before it was synced rebuilds either the state before or the state after the
    operation, whatever part of the record reached the medium. *)
Theorem raftwal_crash_atomic (s s' : store) es r :
  rinv s es -> room es -> wf_request r -> perform r s = (s', None) ->
  rinv s' (es ++ [recordOf r (mem s)]) /\
  (forall torn d, MemoryDevice.Crash torn (Log.device (log s')) = inr d ->
     exists s2, Open d = inr s2 /\ StateWithBase s2 = StateWithBase s') /\
  (forall l torn d, Log.Append Background [recordOf r (mem s)] (log s) = (l, None) ->
     MemoryDevice.Crash torn (Log.device l) = inr d ->
     exists s2, Open d = inr s2 /\
       (StateWithBase s2 = StateWithBase s \/ StateWithBase s2 = StateWithBase s')).
Proof.
  intros Hs Hroom Hreq HP. pose proof (perform_rinv s es r Hs Hroom Hreq) as H.
  destruct (check r (mem s)) as [e|] eqn:Hc; [congruence|].
  destruct H as (s1 & HP1 & Hm & Hs1). rewrite HP in HP1. injection HP1 as <-.
  split; [done|]. split.
  - intros torn d Hd. destruct (crash_rinv _ _ _ _ Hs1 Hd) as (s2 & HO & Hm2 & _).
    exists s2. split; [done|]. unfold StateWithBase. by rewrite Hm2.
  - intros l torn d HA Hd. destruct (torn_rinv s es r l torn d Hs Hroom Hreq Hc HA Hd) as (s2 & HO & H2).
    exists s2. split; [done|]. unfold StateWithBase. rewrite Hm. destruct H2 as [[-> _]|[-> _]]; [by left|by right].
Qed.

(** ** Runs of operations *)

(** The store opened on an empty medium, and a sequence of calls whose errors the
    caller ignores. *)
Definition fresh : store := mkStore (Log.newLog (MemoryDevice.New []) []) emptyView.

Definition runAll (rs : list request) (s : store) : store := foldl (fun s r => (perform r s).1) s rs.

Lemma fresh_opened : Open (MemoryDevice.New []) = inr fresh.
Proof. done. Qed.

Lemma fresh_rinv : rinv fresh [].
Proof. split; [|done|apply emptyView_wf]. split; done. Qed.

Lemma runAll_rinv rs s es :
  rinv s es -> Forall wf_request rs -> Z.of_nat (length es + length rs) < 2 ^ 64 - 1 ->
  exists es', rinv (runAll rs s) es' /\ (length es' <= length es + length rs)%nat.
Proof.
  revert s es. induction rs as [|r rs IH]; intros s es Hs Hrs Hlen; [exists es; split; [done|lia]|].
  apply Forall_cons in Hrs as [Hr Hrs]. cbn [runAll foldl length] in *.
  assert (room es) as Hroom by (unfold room; lia).
  pose proof (perform_rinv s es r Hs Hroom Hr) as H. destruct (check r (mem s)).
  - rewrite H. destruct (IH s es Hs Hrs) as (es' & ? & ?); [lia|]. exists es'. split; [done|lia].
  - destruct H as (s' & -> & _ & Hs'). destruct (IH s' _ Hs' Hrs) as (es' & ? & Hl).
    { rewrite length_app. cbn. lia. }
    exists es'. split; [done|]. rewrite length_app in Hl. cbn in Hl. lia.
Qed.

(** Durability of whole histories.  After any sequence of well-typed calls on
    a store opened on an empty medium, accepted or rejected, a crash and reopen
    gives back the hard state, the compaction base and the log of the store at
    that point; in particular no sequence of calls produces a medium that [Open]
    refuses. *)
Theorem raftwal_durable rs torn d :
  Forall wf_request rs -> len rs < 2 ^ 64 - 1 ->
  MemoryDevice.Crash torn (Log.device (log (runAll rs fresh))) = inr d ->
  exists s, Open d = inr s /\ StateWithBase s = StateWithBase (runAll rs fresh).
Proof.
  intros Hrs Hlen Hd. destruct (runAll_rinv rs fresh [] fresh_rinv Hrs) as (es & Hes & _).
  { unfold len in Hlen. cbn. lia. }
  destruct (crash_rinv _ _ _ _ Hes Hd) as (s & HO & Hm & _). exists s. split; [done|].
  unfold StateWithBase. by rewrite Hm.
Qed.

(** ** The interfaces of the Raft node *)

(** [raftwal.Store] has no [SaveSnapshot], so the type assertion to
    [SnapshotStore] fails. *)
#[global] Instance stable_store {D} `{!Device D} : StableStore (Store D) := {
  RaftTypes.SaveHardState := SaveHardState;
  RaftTypes.Append := Append;
  AsSnapshotStore := None
}.

Lemma append_mem {D} `{!Device D} e (s : Store D) : mem (append e s).1 = mem s.
Proof.
  unfold append. destruct (Log.Append _ _ _) as [l [err|]]; [done|]. by destruct (Log.Sync _ _).
Qed.

(** The hard state a restart reads is the one in memory, by the two theorems on
    crashes above. *)
#[global] Instance votes : DurableVotes store.
Proof.
  refine {| durable := fun s : store => hard (mem s) |}; [| | |done|done].
  - intros h s s'. cbn. unfold SaveHardState. destruct (regression _ _ _ _); [done|].
    destruct (append _ _) as [s1 [err|]]; [done|]. by intros [= <-].
  - intros h s s' e. cbn. unfold SaveHardState. destruct (regression _ _ _ _); [intros [= <- _]; by left|].
    pose proof (append_mem (hardRecord h) s) as Hm. destruct (append _ _) as [s1 [err|]]; [|done].
    intros [= <- _]. left. cbn in Hm. by rewrite Hm.
  - intros i e s. cbn. unfold Append. destruct (_ || _); [done|].
    pose proof (append_mem (entryRecord i e) s) as Hm. destruct (append _ _) as [s1 [err|]]; cbn in *; by rewrite Hm.
Defined.

Module Demo.

Definition put1 : Entry := mkEntry 1 0 0 0 0 1 5 1 10 20.
Definition calls : list request :=
  [ReqHard (mkHardState 1 2 0); ReqAppend 1 put1; ReqAppend 2 put1; ReqAppend 2 put1;
   ReqAppend 9 put1; ReqCompact 1; ReqReset 7 3; ReqHard (mkHardState 1 3 0)].

Lemma calls_wf : Forall wf_request calls.
Proof. repeat (apply Forall_cons; split); [..|by apply Forall_nil]; repeat split; cbn; unfold resetIndex, maxu64; lia. Defined.

Lemma put1_wf : wf_request (ReqAppend 1 put1).
Proof. repeat split; cbn; unfold resetIndex, maxu64; lia. Defined.

Lemma raftwal_crash_atomic_witness :
  exists s, perform (ReqAppend 1 put1) fresh = (s, None) /\
    forall d, MemoryDevice.Crash 0 (Log.device (log s)) = inr d ->
      exists s2, Open d = inr s2 /\ StateWithBase s2 = (mkHardState 0 0 0, 0, [zeroEntry; put1]).
Proof.
  eexists. split; [reflexivity|].
  destruct (raftwal_crash_atomic fresh _ [] (ReqAppend 1 put1) fresh_rinv eq_refl put1_wf eq_refl)
    as (_ & HC & _).
  intros d Hd. destruct (HC 0 d Hd) as (s2 & HO & HS). exists s2. split; [exact HO|exact HS].
Defined.

Lemma raftwal_durable_witness :
  exists d s, MemoryDevice.Crash 0 (Log.device (log (runAll calls fresh))) = inr d /\ Open d = inr s /\
    StateWithBase s = (mkHardState 1 2 0, 7, [zeroEntry <| e_Term := 3 |>]).
Proof.
  destruct (MemoryDevice.Crash 0 (Log.device (log (runAll calls fresh)))) as [e|d] eqn:Hd;
    [vm_compute in Hd; discriminate|].
  destruct (raftwal_durable calls 0 d calls_wf eq_refl Hd) as (s & HO & HS).
  exists d, s. split; [reflexivity|]. split; [exact HO|]. rewrite HS. vm_compute. reflexivity.
Defined.

End Demo.
End RaftWal.
