(* ===== verification/Widths.v ===== *)
(** * Machine widths

    The source keeps terms and indexes in [uint64], node numbers in [uint32] and
    enumerations in [uint8]; the model keeps them in [Z].  This file shows that the
    steps, ticks, client calls and the recovery of a node ([raft/node.go],
    [raft/recover.go]) stay within these types: started with fields and arguments of their Go types, they leave every
    field, every message and everything they hand to the store within them.

    The store enters through a predicate [I] that its operations keep when their
    arguments are within their types.  When a cluster is [fixed], its members do not
    change and no snapshots are taken; then the nodes also keep their peers, and
    their logs hold no configurations. *)

From S2P Require Import Prelude RaftTypes Quorum RaftNode RaftInv RaftStep RaftClient Bytes Wal RaftWal.

Abbreviation wf_entry := RaftWal.wf_entry.

Definition wf_hard (h : HardState) : Prop := is_u64 (h_Term h) /\ is_u32 (h_VotedFor h) /\ is_u64 (h_Commit h).

(** An entry without a configuration. *)
Definition plain (e : Entry) : Prop := e_OldVoters e = 0 /\ e_NewVoters e = 0 /\ isConfig e = false.

Definition fits (fixed : Prop) (e : Entry) : Prop := wf_entry e /\ (fixed -> plain e).

(** What the operations of a store keep. *)
Class TypedStore (S : Type) `{!StableStore S} (fixed : Prop) (I : S -> Prop) : Prop := {
  ts_save h s : wf_hard h -> I s -> I (SaveHardState h s).1;
  ts_append i e s : is_u64 i -> fits fixed e -> I s -> I (Append i e s).1;
  ts_snapshot ops snap s : AsSnapshotStore = Some ops -> is_u64 (s_LastIndex snap) -> I s -> I (SaveSnapshot ops snap s).1;
  ts_compact ops i s : AsSnapshotStore = Some ops -> ~ fixed -> is_u64 i -> I s -> I (CompactLog ops i s).1
}.

Create HintDb width discriminated.

Lemma u64_zero : is_u64 0. Proof. done. Qed.
Lemma u32_zero : is_u32 0. Proof. done. Qed.

Lemma u64_min a b : is_u64 a -> is_u64 b -> is_u64 (Z.min a b).
Proof. unfold is_u64. lia. Qed.
Lemma u64_max a b : is_u64 a -> is_u64 b -> is_u64 (Z.max a b).
Proof. unfold is_u64. lia. Qed.

Lemma u64_if (b : bool) x y : is_u64 x -> is_u64 y -> is_u64 (if b then x else y).
Proof. by destruct b. Qed.

(** Go's maps from node numbers to indexes. *)
Definition wf_indexes (m : gmap Z Z) : Prop := map_Forall (fun k v => is_u32 k /\ is_u64 v) m.

Lemma wf_indexes_insert m k v : wf_indexes m -> is_u32 k -> is_u64 v -> wf_indexes (<[k := v]> m).
Proof. intros Hm Hk Hv. by apply map_Forall_insert_2. Qed.

Lemma mapGet_u64 m k : wf_indexes m -> is_u64 (mapGet m k).
Proof. intros Hm. unfold mapGet. destruct (m !! k) as [v|] eqn:E; [apply (Hm _ _ E)|done]. Qed.

Lemma lastIndex_u64 {S} (n : Node S) : is_u64 (lastIndex n).
Proof. apply w64_range. Qed.

Lemma wf_zeroEntry : wf_entry zeroEntry.
Proof. unfold RaftWal.wf_entry, is_u64, is_u8. cbn. lia. Qed.

#[export] Hint Resolve u64_if u64_zero u32_zero u64_min u64_max w64_range lor_u64 mapGet_u64 wf_indexes_insert lastIndex_u64 wf_zeroEntry : width.

Section widths.
Context {S : Type} `{!StableStore S} (fixed : Prop) (peers0 : list Z) (I : S -> Prop) `{HI : !TypedStore S fixed I}.
Implicit Types n : Node S.

(** The index of a snapshot; without snapshots it is 0. *)
Definition base i : Prop := is_u64 i /\ (fixed -> i = 0).

Record wf_message (m : Message) : Prop := {
  wm_type : is_u8 (m_Type m);
  wm_from : is_u32 (m_From m);
  wm_to : is_u32 (m_To m);
  wm_term : is_u64 (m_Term m);
  wm_logIndex : is_u64 (m_LogIndex m);
  wm_logTerm : is_u64 (m_LogTerm m);
  wm_entry : fits fixed (m_Entry m);
  wm_commit : is_u64 (m_Commit m);
  wm_match : is_u64 (m_Match m);
  wm_context : is_u64 (m_Context m);
  wm_index : base (m_SnapshotIndex m);
  wm_snapTerm : is_u64 (m_SnapshotTerm m);
  wm_old : is_u64 (m_SnapshotOld m);
  wm_new : is_u64 (m_SnapshotNew m)
}.

Record wf_snapshot (s : Snapshot) : Prop := {
  ws_index : base (s_LastIndex s);
  ws_term : is_u64 (s_LastTerm s);
  ws_old : is_u64 (s_OldVoters s);
  ws_new : is_u64 (s_NewVoters s)
}.

Record typed n : Prop := {
  ty_ID : is_u32 (n_ID n);
  ty_Peers : Forall is_u32 (n_Peers n) /\ (fixed -> n_Peers n = peers0);
  ty_Term : is_u64 (n_Term n);
  ty_VotedFor : is_u32 (n_VotedFor n);
  ty_Leader : is_u32 (n_Leader n);
  ty_Log : Forall (fits fixed) (n_Log n);
  ty_BaseIndex : base (n_BaseIndex n);
  ty_BaseTerm : is_u64 (n_BaseTerm n);
  ty_Commit : is_u64 (n_Commit n);
  ty_Applied : is_u64 (n_Applied n);
  ty_timeout : is_u64 (n_timeout n);
  ty_elapsed : is_u64 (n_elapsed n);
  ty_voteMask : is_u64 (n_voteMask n);
  ty_preVoteMask : is_u64 (n_preVoteMask n);
  ty_preVoteTerm : is_u64 (n_preVoteTerm n);
  ty_next : wf_indexes (n_next n);
  ty_match : wf_indexes (n_match n);
  ty_outbound : Forall wf_message (n_outbound n);
  ty_store : I (n_store n);
  ty_readContext : is_u64 (n_readContext n);
  ty_readAckMask : is_u64 (n_readAckMask n);
  ty_readIndex : is_u64 (n_readIndex n);
  ty_snapshot : wf_snapshot (n_snapshot n);
  ty_votersOld : is_u64 (n_votersOld n);
  ty_votersNew : is_u64 (n_votersNew n);
  ty_pendingConfig : is_u64 (n_pendingConfig n)
}.

(** [op] keeps the types, and its result satisfies [P]. *)
Definition types {A} (op : MN S A) (P : A -> Prop) : Prop :=
  forall n, typed n -> wlp op (fun a n' => typed n' /\ P a) n.

(** [op] only reads. *)
Definition reads {A} (op : MN S A) (P : A -> Prop) : Prop :=
  forall n, typed n -> wlp op (fun a n' => n' = n /\ P a) n.

Abbreviation any := (fun _ => True).

Lemma reads_types {A} (op : MN S A) P : reads op P -> types op P.
Proof. intros H n Hn. eapply wlp_mono; [by apply H|]. by intros a n' [-> ?]. Qed.

Lemma types_call {A} (op : MN S A) P (Q : A -> Node S -> Prop) n :
  types op P -> typed n -> (forall a n', typed n' -> P a -> Q a n') -> wlp op Q n.
Proof. intros Hop Hn HQ. eapply wlp_mono; [by apply Hop|]. intros a n' [??]. auto. Qed.

Lemma modify_typed n f (Q : () -> Node S -> Prop) :
  typed (f n) -> (forall n', typed n' -> Q () n') -> wlp (E := Panic) (modify f) Q n.
Proof. intros Hn HQ. apply wlp_modify. auto. Qed.

Lemma base_zero : base 0.
Proof. done. Qed.
Lemma base_u64 i : base i -> is_u64 i.
Proof. by intros []. Qed.

Lemma base_lt b i : base b -> base i -> b < i -> ~ fixed.
Proof. intros [_ Hb] [_ Hi] Hlt Hf. specialize (Hb Hf). specialize (Hi Hf). lia. Qed.

Lemma fits_zeroEntry : fits fixed zeroEntry.
Proof. split; [apply wf_zeroEntry|done]. Qed.

#[local] Hint Resolve base_zero base_u64 fits_zeroEntry wm_type wm_from wm_to wm_term wm_logIndex wm_logTerm wm_entry wm_commit wm_match wm_context
  wm_index wm_snapTerm wm_old wm_new ws_index ws_term ws_old ws_new : width.
#[local] Hint Extern 1 (is_u64 _) => progress cbn : width.
#[local] Hint Resolve ty_ID ty_Peers ty_Term ty_VotedFor ty_Leader ty_Log ty_BaseIndex ty_BaseTerm ty_Commit ty_Applied ty_timeout
  ty_elapsed ty_voteMask ty_preVoteMask ty_preVoteTerm ty_next ty_match ty_outbound ty_store ty_readContext ty_readAckMask
  ty_readIndex ty_snapshot ty_votersOld ty_votersNew ty_pendingConfig : width.

Create HintDb types discriminated.

Ltac ty_upd :=
  lazymatch goal with
  | |- typed _ => split; cbn; try (assumption || eauto 8 with width)
  | |- wf_message _ => split; cbn; try (assumption || done || eauto 8 with width)
  end.

(** One step of a proof that a piece of code keeps the types. *)
Ltac ty_step :=
  lazymatch goal with
  | |- forall _, _ => cbn beta; intros
  | |- wlp (mbind _ _) _ _ => wlp_pure
  | |- wlp get _ _ => wlp_pure
  | |- wlp (mret _) _ _ => wlp_pure
  | |- wlp (panic _) _ _ => wlp_pure
  | |- wlp (modify _) _ _ => apply modify_typed; [ty_upd|cbn beta; intros]
  | |- wlp (match ?x with _ => _ end) _ _ => destruct x eqn:?
  | |- wlp (forM_ _ _) _ _ => eapply wlp_mono; [apply (wlp_forM_ typed); [assumption|intros]|cbn beta; intros]
  | |- wlp _ _ _ => eapply types_call; [solve [eauto 10 with types width]|eassumption|cbn beta; intros]
  | |- typed _ /\ _ => split; [assumption|try done]
  | |- typed _ => assumption
  end.
Ltac ty_auto := repeat ty_step.

(** ** Reading *)

Lemma logAt_typed n off : typed n -> fits fixed (logAt n off).
Proof.
  intros Hn. unfold logAt. destruct (n_Log n !! Z.to_nat off) as [e|] eqn:E; [|apply fits_zeroEntry].
  by apply (Forall_lookup_1 _ _ _ _ (ty_Log n Hn) E).
Qed.

Lemma bitOf_types id : is_u32 id -> types (bitOf id) is_u64.
Proof.
  intros Hid n Hn. unfold bitOf. destruct (nodeBit id) as [b|] eqn:E; [|by ty_auto]. wlp_pures. split; [done|].
  destruct (nodeBit_Some id b ltac:(unfold is_u32 in Hid; lia) E) as [Hr ->]. apply bit_u64. lia.
Qed.

Lemma entryAt_types i : types (entryAt i) (fits fixed).
Proof. intros n Hn. unfold entryAt. ty_auto. by apply logAt_typed. Qed.

Lemma termAtMust_types i : types (termAtMust i) is_u64.
Proof.
  intros n Hn. unfold termAtMust. ty_auto. unfold termAt in *. destruct (offset n i); [|done].
  simplify_eq. by apply logAt_typed.
Qed.
#[local] Hint Resolve bitOf_types entryAt_types termAtMust_types : types.

(** The loops that look for the configuration in force. *)
Lemma votersLoop_types l p : is_u64 p.1 -> is_u64 p.2 ->
  types (foldM (fun '(o, w) index =>
      entry ← entryAt index;
      mret (if e_Kind entry =? EntryJointConfig then (e_OldVoters entry, e_NewVoters entry) else (o, w))) p l)
    (fun p => is_u64 p.1 /\ is_u64 p.2).
Proof.
  intros H1 H2 n Hn. apply (wlp_foldM (fun p n' => typed n' /\ is_u64 p.1 /\ is_u64 p.2)); [done|].
  intros [o w] i n' _ (Hn' & Ho & Hw). ty_auto. unfold fits, RaftWal.wf_entry in *. destruct (_ =? _); naive_solver.
Qed.

Lemma effectiveVoters_types : types effectiveVoters (fun p => is_u64 p.1 /\ is_u64 p.2).
Proof. intros n Hn. unfold effectiveVoters. wlp_pures. apply votersLoop_types; cbn; eauto 8 with width. Qed.

Lemma quorumMask_types mask : types (quorumMask mask) any.
Proof. intros n Hn. unfold quorumMask. wlp_pures. eapply types_call; [apply effectiveVoters_types|done|]. by ty_auto. Qed.

Lemma isVoter_types id : is_u32 id -> types (isVoter id) any.
Proof. intros Hid n Hn. unfold isVoter. wlp_pures. eapply types_call; [apply effectiveVoters_types|done|]. by ty_auto. Qed.

Lemma canCommitIndex_types i acked : types (canCommitIndex i acked) any.
Proof.
  intros n Hn. unfold canCommitIndex. wlp_pures. eapply types_call; [apply votersLoop_types; cbn; eauto 8 with width|done|]. by ty_auto.
Qed.
#[local] Hint Resolve quorumMask_types isVoter_types canCommitIndex_types : types.

(** ** Writing *)

Lemma send_types m : wf_message m -> types (send m) any.
Proof.
  intros Hm n Hn. unfold send. ty_auto. cbn. apply Forall_app. split; [eauto 8 with width|by constructor].
Qed.

Lemma failStorage_types : types failStorage any.
Proof. intros n Hn. unfold failStorage. by ty_auto. Qed.

Lemma failStorageWith_types err : types (failStorageWith err) any.
Proof. intros n Hn. unfold failStorageWith. ty_auto. by apply failStorage_types. Qed.
#[local] Hint Resolve send_types failStorage_types failStorageWith_types : types.

Lemma storeOp_types op : (forall s, I s -> I (op s).1) -> types (storeOp op) any.
Proof.
  intros Hop n Hn. unfold wlp, storeOp. pose proof (Hop _ (ty_store n Hn)) as Hs. destruct (op (n_store n)) as [s err].
  split; [|done]. ty_upd.
Qed.

Lemma append_types i e : is_u64 i -> fits fixed e -> types (storeOp (Append i e)) any.
Proof. intros Hi He. apply storeOp_types. intros s. by apply ts_append. Qed.
#[local] Hint Resolve append_types : types.

Lemma persistHardState_types h : wf_hard h -> types (persistHardState h) any.
Proof.
  intros Hh n Hn. unfold persistHardState. wlp_pures. eapply types_call; [apply storeOp_types|done|by ty_auto].
  intros s. by apply ts_save.
Qed.

Lemma wf_mkHard t v c : is_u64 t -> is_u32 v -> is_u64 c -> wf_hard (mkHardState t v c).
Proof. done. Qed.
#[local] Hint Resolve wf_mkHard : width.
#[local] Hint Resolve persistHardState_types : types.

Lemma seqZ_u64 a b i : is_u64 a -> is_u64 b -> i ∈ seqZ a (b - a + 1) -> is_u64 i.
Proof. unfold is_u64. rewrite elem_of_seqZ. lia. Qed.

(** [ty_step] for messages that are written out. *)
Ltac ty_send := eapply types_call; [apply send_types; ty_upd|eassumption|cbn beta; intros].
Ltac ty_auto ::= repeat (ty_step || (lazymatch goal with |- wlp (send _) _ _ => ty_send end)).

(** ** Configurations *)

Lemma ensurePeers_types mask : (fixed -> mask = 0) -> types (ensurePeers mask) any.
Proof.
  intros Hmask n Hn. unfold ensurePeers. eapply wlp_mono; [apply (wlp_forM_ typed); [done|]|by ty_auto].
  intros id n1 Hid H1. apply elem_of_seqZ in Hid. assert (is_u32 id) as Hu by (unfold is_u32; lia). ty_auto.
  cbn. split.
  - apply Forall_app. split; [apply ty_Peers; assumption|by constructor].
  - intros Hfix. specialize (Hmask Hfix) as ->. by rewrite Z.land_0_l, Z.eqb_refl, orb_true_r in *.
Qed.

Lemma fits_voters e : fits fixed e ->
  is_u64 (e_OldVoters e) /\ is_u64 (e_NewVoters e) /\ (fixed -> Z.lor (e_OldVoters e) (e_NewVoters e) = 0).
Proof. intros [Hw Hp]. unfold RaftWal.wf_entry in Hw. split_and!; [tauto..|]. intros Hf. by destruct (Hp Hf) as (-> & -> & _). Qed.

Lemma ensureEntry_types e : fits fixed e -> types (ensurePeers (Z.lor (e_OldVoters e) (e_NewVoters e))) any.
Proof. intros (_ & _ & He)%fits_voters. by apply ensurePeers_types. Qed.
#[local] Hint Resolve ensureEntry_types : types.

Lemma applyCommittedConfigurations_types first last : types (applyCommittedConfigurations first last) any.
Proof.
  intros n Hn. unfold applyCommittedConfigurations. wlp_pures.
  eapply wlp_mono; [apply (wlp_forM_ typed); [done|]|by ty_auto]. intros i n1 _ H1. wlp_pures.
  eapply types_call; [apply entryAt_types|done|]. intros e n2 H2 He. pose proof (fits_voters e He) as (Ho & Hw & _). by ty_auto.
Qed.

Lemma rebuildPendingConfig_types : types rebuildPendingConfig any.
Proof.
  intros n Hn. unfold rebuildPendingConfig. wlp_pures. set (n0 := n <| n_pendingConfig := 0 |>).
  assert (typed n0) as H0 by ty_upd.
  eapply wlp_mono; [apply (wlp_forM_ typed); [done|]|by ty_auto]. intros i n1 Hi H1.
  eapply seqZ_u64 in Hi; [|eauto 8 with width..]. by ty_auto.
Qed.
#[local] Hint Resolve applyCommittedConfigurations_types rebuildPendingConfig_types : types.

Lemma restoreLoop_types l : forall o w p,
  Forall is_u64 l -> is_u64 o -> is_u64 w -> is_u64 p ->
  types (restoreConfigurationState_loop l o w p)
    (fun r => match r with Some (o, w, p) => is_u64 o /\ is_u64 w /\ is_u64 p | None => True end).
Proof.
  induction l as [|i l IH]; intros o w p Hl Ho Hw Hp n Hn; cbn [restoreConfigurationState_loop]; [by ty_auto|].
  apply Forall_cons in Hl as [Hi Hl]. wlp_pures. eapply types_call; [apply entryAt_types|done|].
  intros e n1 H1 He. pose proof (fits_voters e He) as (Heo & Hew & _). wlp_pures. cbn zeta. set (next := if _ =? EntryNormal then _ else _).
  assert (match next with Some (o, w, p) => is_u64 o /\ is_u64 w /\ is_u64 p | None => True end) as Hnext.
  { subst next. repeat case_match; simplify_eq; done. }
  destruct next as [[[o' w'] p']|]; [|by ty_auto]. destruct Hnext as (Ho' & Hw' & Hp'). wlp_pures.
  eapply types_call; [by apply ensureEntry_types|done|]. intros _ n2 H2 _. by apply IH.
Qed.

Lemma restoreConfigurationState_types : types restoreConfigurationState any.
Proof.
  intros n Hn. unfold restoreConfigurationState. wlp_pures.
  eapply types_call; [apply restoreLoop_types|done|]; [|eauto 8 with width..|].
  - apply Forall_forall. intros i Hi. eapply seqZ_u64; [| |exact Hi]; eauto 8 with width.
  - intros [[[o w] p]|] n1 H1 Hr; [|by ty_auto]. destruct Hr as (Ho & Hw & Hp). by ty_auto.
Qed.

(** ** Replication *)

Lemma wf_newMessage ty from to term :
  is_u8 ty -> is_u32 from -> is_u32 to -> is_u64 term -> wf_message (newMessage ty from to term).
Proof. intros. ty_upd. Qed.

Lemma appendToContext_types p ctx : is_u32 p -> is_u64 ctx -> types (appendToContext p ctx) any.
Proof.
  intros Hp Hc n Hn. unfold appendToContext. wlp_pures. pose proof (ty_snapshot n Hn) as Hs. destruct (_ <=? _).
  { apply send_types; [|done]. ty_upd. }
  wlp_pures. apply (wlp_mono _ (fun next n' => typed n' /\ is_u64 next)).
  { ty_auto; eauto 8 with width. }
  intros next n1 [H1 Hnext]. wlp_pures. cbn zeta. eapply types_call; [apply termAtMust_types|done|]. intros t n2 H2 Ht.
  by ty_auto.
Qed.
#[local] Hint Resolve appendToContext_types : types.

Lemma appendTo_types p : is_u32 p -> types (appendTo p) any.
Proof. intros Hp. by apply appendToContext_types. Qed.
#[local] Hint Resolve appendTo_types : types.

Lemma peer_u32 n p : typed n -> p ∈ n_Peers n -> is_u32 p.
Proof. intros Hn. destruct (ty_Peers n Hn) as [Hp _]. by apply Forall_forall. Qed.
#[local] Hint Resolve peer_u32 : width.

Lemma broadcastAppend_types : types broadcastAppend any.
Proof. intros n Hn. unfold broadcastAppend. by ty_auto. Qed.
#[local] Hint Resolve broadcastAppend_types : types.

Lemma log_snoc n e : typed n -> fits fixed e -> Forall (fits fixed) (n_Log n ++ [e]).
Proof. intros Hn He. apply Forall_app. split; [eauto 8 with width|by constructor]. Qed.
#[local] Hint Resolve log_snoc : width.

Lemma appendLocal_types e : fits fixed e -> types (appendLocal e) any.
Proof. intros He n Hn. unfold appendLocal. by ty_auto. Qed.
#[local] Hint Resolve appendLocal_types : types.

Ltac fit_fields := split; [unfold RaftWal.wf_entry; cbn; split_and!; try done; eauto 8 with width|try done].

Lemma fits_noop t : is_u64 t -> fits fixed (zeroEntry <| e_Term := t |> <| e_Kind := EntryNoop |>).
Proof. intros Ht. fit_fields. Qed.

Lemma becomeLeader_types : types becomeLeader any.
Proof.
  intros n Hn. unfold becomeLeader. ty_auto. eapply types_call; [apply appendLocal_types, fits_noop; by apply ty_Term|done|]. by ty_auto.
Qed.
#[local] Hint Resolve becomeLeader_types : types.

(** ** Elections *)

Lemma startElection_types : types startElection any.
Proof. intros n Hn. unfold startElection. by ty_auto. Qed.
#[local] Hint Resolve startElection_types : types.

Lemma startPreVote_types : types startPreVote any.
Proof. intros n Hn. unfold startPreVote. by ty_auto. Qed.
#[local] Hint Resolve startPreVote_types : types.

Lemma Tick_types : types Tick any.
Proof. intros n Hn. unfold Tick. by ty_auto. Qed.

Lemma onPreVote_types m : wf_message m -> types (onPreVote m) any.
Proof. intros Hm n Hn. unfold onPreVote. by ty_auto. Qed.

Lemma onVote_types m : wf_message m -> types (onVote m) any.
Proof. intros Hm n Hn. unfold onVote. by ty_auto. Qed.

(** ** Followers *)

Lemma appendEntry_types m : wf_message m -> types (appendEntry m) any.
Proof.
  intros Hm n Hn. unfold appendEntry. wlp_pures. apply (wlp_mono _ (fun _ n' => typed n')).
  { ty_auto. cbn. apply Forall_take. eauto 8 with width. }
  by ty_auto.
Qed.

Lemma appendCommit_types m : wf_message m -> types (appendCommit m) any.
Proof. intros Hm n Hn. unfold appendCommit. by ty_auto. Qed.
#[local] Hint Resolve onPreVote_types onVote_types appendEntry_types appendCommit_types : types.

Lemma onAppend_types m : wf_message m -> types (onAppend m) any.
Proof.
  intros Hm n Hn. unfold onAppend. wlp_pures. apply (wlp_mono _ (fun _ n' => typed n')); [by ty_auto|]. by ty_auto.
Qed.
#[local] Hint Resolve onAppend_types : types.

(** ** Leaders *)

Lemma ackedMask_types i : types (ackedMask i) is_u64.
Proof.
  intros n Hn. unfold ackedMask. wlp_pures. eapply types_call; [apply bitOf_types, ty_ID, Hn|done|]. intros self n1 H1 Hs.
  apply (wlp_foldM (fun a n' => typed n' /\ is_u64 a)); [done|]. intros a p n2 Hp [H2 Ha].
  apply (peer_u32 n) in Hp; [|done]. ty_auto. eauto 8 with width.
Qed.
#[local] Hint Resolve ackedMask_types : types.

Lemma commitLoop_types l : Forall is_u64 l -> types (commitLoop l) any.
Proof.
  induction 1 as [|i l Hi Hl IH]; intros n Hn; cbn [commitLoop]; [by ty_auto|]. by ty_auto.
Qed.

Lemma onAppendResponse_types m : wf_message m -> types (onAppendResponse m) any.
Proof.
  intros Hm n Hn. unfold onAppendResponse. wlp_pures. apply (wlp_mono _ (fun _ n' => typed n')); [by ty_auto|].
  intros _ n1 H1. wlp_pures. destruct (_ || _); [by ty_auto|]. destruct (m_Reject m).
  { wlp_pures. apply (wlp_mono _ (fun _ n' => typed n')); [|by ty_auto].
    destruct (Z.ltb_spec 1 (mapGet (n_next n1) (m_From m))); [|by ty_auto]. ty_auto. cbn.
    pose proof (mapGet_u64 _ (m_From m) (ty_next _ H1)) as Hu. apply wf_indexes_insert; [eauto 8 with width..|].
    unfold is_u64 in *. lia. }
  wlp_pures. apply modify_typed; [ty_upd|]. intros n2 H2. wlp_pures.
  eapply types_call; [apply commitLoop_types|done|by ty_auto].
  apply Forall_forall. intros i Hi%elem_of_reverse%elem_of_seqZ.
  pose proof (lastIndex_u64 n2). pose proof (ty_Commit _ H2). unfold is_u64 in *. lia.
Qed.

(** ** Snapshots *)

Lemma installSnapshot_types m n :
  wf_message m -> n_BaseIndex n < m_SnapshotIndex m -> typed n -> wlp (installSnapshot m) (fun _ n' => typed n') n.
Proof.
  intros Hm Hlt Hn. unfold installSnapshot. destruct AsSnapshotStore as [ops|] eqn:Eo; [|by ty_auto]. wlp_pures. cbn zeta.
  pose proof (base_lt _ _ (ty_BaseIndex n Hn) (wm_index m Hm) Hlt) as Hf.
  eapply types_call; [apply storeOp_types; intros s; apply ts_snapshot; eauto 8 with width|done|].
  intros [err|] n1 H1 _; [by ty_auto|]. wlp_pures.
  eapply types_call; [apply storeOp_types; intros s; apply (ts_compact ops); eauto 8 with width|done|].
  intros [err|] n2 H2 _; [by ty_auto|]. ty_auto; cbn; try (eauto 8 with width); [|split; cbn; eauto 8 with width].
  assert (fits fixed (zeroEntry <| e_Term := m_SnapshotTerm m |>)) as He by fit_fields.
  destruct (offset _ _); [destruct (_ =? _); [apply Forall_drop; eauto 8 with width|]|]; by constructor.
Qed.

Lemma onInstallSnapshot_types m : wf_message m -> types (onInstallSnapshot m) any.
Proof.
  intros Hm n Hn. unfold onInstallSnapshot. wlp_pures. apply (wlp_mono _ (fun _ n' => typed n')); [|by ty_auto].
  destruct (negb _); [|by ty_auto]. cbn [andb]. destruct (Z.ltb_spec (n_BaseIndex n) (m_SnapshotIndex m)); [|by ty_auto].
  by apply installSnapshot_types.
Qed.

Lemma onInstallSnapshotResponse_types m : wf_message m -> types (onInstallSnapshotResponse m) any.
Proof. intros Hm n Hn. unfold onInstallSnapshotResponse. by ty_auto. Qed.

(** ** Clients *)

Lemma StartReadIndex_types ctx : is_u64 ctx -> types (StartReadIndex ctx) any.
Proof. intros Hc n Hn. unfold StartReadIndex. by ty_auto. Qed.

Lemma TransferLeadership_types target : is_u32 target -> types (TransferLeadership target) any.
Proof. intros Ht n Hn. unfold TransferLeadership. by ty_auto. Qed.

Lemma Propose_types command : is_u64 command -> types (Propose command) any.
Proof.
  intros Hc n Hn. unfold Propose. ty_auto. eapply types_call; [apply appendLocal_types; fit_fields|done|by ty_auto].
Qed.

Lemma ProposeRequest_types operation clientID requestID key value :
  is_u8 operation -> is_u64 clientID -> is_u64 requestID -> is_u64 key -> is_u64 value ->
  types (ProposeRequest operation clientID requestID key value) any.
Proof.
  intros Ho Hc Hr Hk Hv n Hn. unfold ProposeRequest. ty_auto. eapply types_call; [apply appendLocal_types; fit_fields|done|by ty_auto].
Qed.

(** ** Messages *)

Lemma stepTerm_types m : wf_message m -> types (stepTerm m) any.
Proof. intros Hm n Hn. unfold stepTerm. by ty_auto. Qed.

Lemma onPreVoteResponse_types m : wf_message m -> types (onPreVoteResponse m) any.
Proof. intros Hm n Hn. unfold onPreVoteResponse. by ty_auto. Qed.

Lemma onVoteResponse_types m : wf_message m -> types (onVoteResponse m) any.
Proof. intros Hm n Hn. unfold onVoteResponse. by ty_auto. Qed.

Lemma onTimeoutNow_types m : types (onTimeoutNow m) any.
Proof. intros n Hn. unfold onTimeoutNow. by ty_auto. Qed.
#[local] Hint Resolve stepTerm_types onPreVoteResponse_types onVoteResponse_types onTimeoutNow_types onInstallSnapshot_types
  onInstallSnapshotResponse_types onAppendResponse_types : types.

Lemma Step_types m : wf_message m -> types (Step m) any.
Proof. intros Hm n Hn. unfold Step, dispatch. by ty_auto. Qed.

Lemma Drain_types dst : Forall wf_message dst -> types (Drain dst) (Forall wf_message).
Proof. intros Hd n Hn. unfold Drain. ty_auto. apply Forall_app. split; [done|eauto 8 with width]. Qed.

Lemma ApplyEntries_types dst : Forall (fits fixed) dst -> types (ApplyEntries dst) (Forall (fits fixed)).
Proof.
  intros Hd n Hn. unfold ApplyEntries. wlp_pures. apply (wlp_foldM (fun d n' => typed n' /\ Forall (fits fixed) d)); [done|].
  intros d i n1 _ [H1 Hd1]. ty_auto. destruct (_ =? _); [|done]. apply Forall_app. split; [done|by constructor].
Qed.

(** ** Construction and recovery *)

Lemma newNode_voters_u64 peers : forall seen v,
  Forall is_u32 peers -> is_u64 seen -> newNode_voters seen peers = inr v -> is_u64 v.
Proof.
  induction peers as [|p peers IH]; intros seen v Hp Hs; cbn [newNode_voters]; [by intros [= <-]|].
  apply Forall_cons in Hp as [Hp Hps]. destruct (nodeBit p) as [b|] eqn:E; [|done]. destruct (negb _); [done|].
  apply IH; [done|]. destruct (nodeBit_Some p b ltac:(unfold is_u32 in Hp; lia) E) as [Hr ->]. apply lor_u64; [done|].
  apply bit_u64. lia.
Qed.

Lemma NewNodeWithStore_typed id peers timeout store n :
  is_u32 id -> Forall is_u32 peers -> (fixed -> peers = peers0) -> is_u64 timeout -> I store ->
  NewNodeWithStore id peers timeout store = inr n -> typed n.
Proof.
  intros Hid Hp Hf Ht Hs. unfold NewNodeWithStore. destruct (nodeBit id) as [b|] eqn:E; [|done].
  destruct (newNode_voters b peers) as [|v] eqn:Ev; [done|]. intros [= <-].
  destruct (nodeBit_Some id b ltac:(unfold is_u32 in Hid; lia) E) as [Hr ->].
  eapply newNode_voters_u64 in Ev; [|done|apply bit_u64; lia].
  split; cbn; try (done || eauto 8 with width); split; cbn; eauto 8 with width.
Qed.

Lemma recoverTail_types : types recoverTail any.
Proof.
  intros n Hn. unfold recoverTail. ty_auto. eapply types_call; [apply restoreConfigurationState_types|done|by ty_auto].
Qed.

Lemma NewRecoveredNode_typed id peers timeout store hard log n :
  is_u32 id -> Forall is_u32 peers -> (fixed -> peers = peers0) -> is_u64 timeout -> I store -> wf_hard hard ->
  Forall (fits fixed) log ->
  NewRecoveredNode id peers timeout store hard log = Done () n -> typed n.
Proof.
  intros Hid Hp Hf Ht Hs (H1 & H2 & H3) Hl. unfold NewRecoveredNode, onNew.
  destruct (NewNodeWithStore id peers timeout store) as [|n0] eqn:E; [done|]. apply NewNodeWithStore_typed in E; [|done..].
  intros HD. refine (wlp_Done _ (fun _ n' => typed n') n0 () n _ HD). apply wlp_bind, wlp_modify. eapply wlp_mono; [apply recoverTail_types|].
  - ty_upd. case_decide; [eauto 8 with width|done].
  - by intros _ n' [? _].
Qed.

End widths.
