(* ===== verification/Snapshot.v ===== *)
(** * Snapshot images and their store

    [storage/snapshot]: the checksummed image format and the store that publishes
    an image by writing a temporary file, syncing it, renaming it over the old
    one and syncing the directory.  Results: images decode to what was encoded, a
    changed byte of the checked part is always rejected, and a power loss or an
    error at any system call leaves either the previous or the new image. *)

From S2P Require Import Prelude Bytes.

Module Snap.

(** ** storage/snapshot/snapshot.go *)

Definition HeaderSize : nat := 52.

(** HYPSNAP2 *)
Definition imageMagic : bytes := [72; 89; 80; 83; 78; 65; 80; 50].

Definition ErrFormat : error := "snapshot: invalid image".
Definition ErrChecksum : error := "snapshot: checksum mismatch".

Record Image := mkImage {
  LastIndex : Z;
  LastTerm : Z;
  State : bytes;
  OldVoters : Z;
  NewVoters : Z
}.

Definition zeroImage : Image := mkImage 0 0 [] 0 0.

(** The checksum skips its own four bytes. *)
Definition imageChecksum (data : bytes) : Z :=
  crcUpdate (crcUpdate 0 (sub 0 48 data)) (drop HeaderSize data).

Definition Encode (image : Image) : bytes :=
  let out := replicate (HeaderSize + length (State image)) 0 in
  let out := put 0 imageMagic out in
  let out := put 8 (le 8 (LastIndex image)) out in
  let out := put 16 (le 8 (LastTerm image)) out in
  let out := put 24 (le 8 (OldVoters image)) out in
  let out := put 32 (le 8 (NewVoters image)) out in
  let out := put 40 (le 8 (w64 (len (State image)))) out in
  let out := put HeaderSize (State image) out in
  put 48 (le 4 (imageChecksum out)) out.

Definition Decode (data : bytes) : error + Image :=
  if (length data <? HeaderSize)%nat || negb (bool_decide (take 8 data = imageMagic))
  then inl ErrFormat else
  let length' := leGet (sub 40 48 data) in
  if (w64 (len data - Z.of_nat HeaderSize) <? length') ||
     negb (w64 (len data) =? w64 (Z.of_nat HeaderSize + length'))
  then inl ErrFormat else
  if negb (imageChecksum data =? leGet (sub 48 52 data)) then inl ErrChecksum else
  inr {| LastIndex := leGet (sub 8 16 data);
         LastTerm := leGet (sub 16 24 data);
         OldVoters := leGet (sub 24 32 data);
         NewVoters := leGet (sub 32 40 data);
         State := drop HeaderSize data |}.

(** The fields fit their Go types, and the image its 64-bit length. *)
Definition wf_image (i : Image) : Prop :=
  is_u64 (LastIndex i) /\ is_u64 (LastTerm i) /\ is_u64 (OldVoters i) /\ is_u64 (NewVoters i) /\
  Forall byte (State i) /\ len (State i) < 2 ^ 63.

Definition fields (i : Image) : list bytes :=
  [imageMagic; le 8 (LastIndex i); le 8 (LastTerm i); le 8 (OldVoters i); le 8 (NewVoters i);
   le 8 (w64 (len (State i)))].

Definition header (i : Image) : bytes := concat (fields i).

Lemma length_header i : length (header i) = 48%nat.
Proof. unfold header, fields. cbn [concat]. rewrite !length_app, !length_le. reflexivity. Qed.

Lemma header_bytes i : Forall byte (header i).
Proof.
  unfold header, fields. cbn [concat]. rewrite !Forall_app.
  split_and!; try apply le_bytes; repeat constructor; unfold byte; lia.
Qed.

Definition sum (i : Image) : Z := crc32c (header i ++ State i).

Lemma put_gap n off (P bs dst : bytes) :
  length P = n -> (n <= off)%nat -> (off + length bs = length dst)%nat ->
  put off bs (P ++ drop n dst) = P ++ sub n off dst ++ bs.
Proof.
  intros <- HP Hd. unfold put, sub. rewrite take_app_ge by done. rewrite drop_app_ge by lia.
  rewrite drop_drop, (drop_ge dst (length P + (off + length bs - length P))) by lia.
  by rewrite app_nil_r, <- app_assoc.
Qed.

Lemma put_mid off (P X R bs : bytes) :
  length P = off -> length X = length bs -> put off bs (P ++ X ++ R) = P ++ bs ++ R.
Proof.
  intros HP HX. unfold put. rewrite take_app_ge, HP, Nat.sub_diag, app_nil_r by lia.
  rewrite (app_assoc P X R), drop_app_ge by (rewrite length_app; lia).
  by rewrite length_app, HP, HX, Nat.sub_diag.
Qed.

Lemma imageChecksum_parts (h c s : bytes) :
  length h = 48%nat -> length c = 4%nat -> imageChecksum (h ++ c ++ s) = crc32c (h ++ s).
Proof.
  intros Hh Hc. unfold imageChecksum. rewrite sub_head by done. rewrite crcUpdate_app.
  unfold HeaderSize. rewrite drop_app_ge by lia. rewrite Hh, drop_app_ge by lia.
  rewrite Hc. by rewrite drop_0.
Qed.

(** The buffer before the checksum is filled in. *)
Definition filled (i : Image) (out : bytes) : bytes :=
  put HeaderSize (State i) (put 40 (le 8 (w64 (len (State i)))) (put 32 (le 8 (NewVoters i))
    (put 24 (le 8 (OldVoters i)) (put 16 (le 8 (LastTerm i))
      (put 8 (le 8 (LastIndex i)) (put 0 imageMagic out)))))).

Lemma filled_eq i out :
  length out = (52 + length (State i))%nat -> filled i out = header i ++ sub 48 52 out ++ State i.
Proof.
  intros Hout. unfold filled. rewrite <- (drop_0 out) at 1. change (drop 0 out) with ([] ++ drop 0 out).
  do 6 (rewrite put_next;
    [|rewrite ?length_app, ?length_le; reflexivity|rewrite ?length_le, Hout; cbn; lia];
    rewrite ?length_le; cbn [Nat.add length imageMagic]).
  match goal with |- put HeaderSize _ (?h ++ _) = _ => assert (h = header i) as -> end.
  { unfold header, fields. cbn [concat]. by rewrite app_nil_r, <- !app_assoc. }
  by rewrite (put_gap 48) by (rewrite ?Hout, ?length_header; unfold HeaderSize; lia).
Qed.

Lemma image_Encode_eq i : Encode i = header i ++ le 4 (sum i) ++ State i.
Proof.
  unfold Encode. set (out := replicate _ _). cbv zeta. fold (filled i out).
  assert (length out = 52 + length (State i))%nat as Hout by (unfold out; apply length_replicate).
  rewrite filled_eq by done. assert (length (sub 48 52 out) = 4%nat) as Hg.
  { rewrite length_sub; [done|]. rewrite Hout. lia. }
  rewrite put_mid by (rewrite ?length_le, ?length_header; done).
  by rewrite imageChecksum_parts by (done || apply length_header).
Qed.

(** The image as one list of parts. *)
Ltac part k a b :=
  erewrite (sub_field (fields _) k _ _ a b);
  [|reflexivity|cbn [take concat fields]; rewrite ?length_app, ?length_le; reflexivity
   |rewrite ?length_le; reflexivity].

Lemma sum_u32 i : Forall byte (State i) -> is_u32 (sum i).
Proof. intros Hs. apply crc32c_u32, Forall_app. split; [apply header_bytes|done]. Qed.

Lemma snapshot_decodes i : wf_image i -> Decode (Encode i) = inr i.
Proof.
  intros (H1 & H2 & H3 & H4 & Hb & Hlen). rewrite image_Encode_eq. unfold Decode.
  pose proof (length_header i) as Hh. pose proof (length_le 4 (sum i)) as Hc.
  assert (len (header i ++ le 4 (sum i) ++ State i) = 52 + len (State i)) as Hl.
  { unfold len. rewrite !length_app, Hh, Hc. lia. }
  rewrite (proj2 (Nat.ltb_ge _ _)) by (rewrite !length_app, Hh, Hc; unfold HeaderSize; lia).
  rewrite bool_decide_true; [|reflexivity]. cbn [negb orb].
  rewrite imageChecksum_parts by done.
  assert (sub 48 52 (header i ++ le 4 (sum i) ++ State i) = le 4 (sum i)) as ->.
  { rewrite sub_skip, Hh by lia. by apply sub_head. }
  assert (drop HeaderSize (header i ++ le 4 (sum i) ++ State i) = State i) as ->.
  { rewrite drop_app_ge, Hh by (rewrite Hh; unfold HeaderSize; lia).
    rewrite drop_app_ge by (rewrite Hc; unfold HeaderSize; lia). by rewrite Hc. }
  rewrite Hl. unfold header. part 5%nat 40%nat 48%nat.
  part 1%nat 8%nat 16%nat. part 2%nat 16%nat 24%nat. part 3%nat 24%nat 32%nat. part 4%nat 32%nat 40%nat.
  assert (0 <= len (State i)) by (unfold len; lia).
  assert (w64 (len (State i)) = len (State i)) as -> by (apply Z.mod_small; lia).
  rewrite !(leGet_le 8), (leGet_le 4) by (done || apply sum_u32, Hb || lia).
  change (Z.of_nat HeaderSize) with 52. replace (52 + len (State i) - 52) with (len (State i)) by lia.
  assert (w64 (len (State i)) = len (State i)) as -> by (apply Z.mod_small; lia).
  rewrite Z.ltb_irrefl, Z.eqb_refl. cbn [negb orb]. fold (header i).
  fold (sum i). rewrite Z.eqb_refl. by destruct i.
Qed.

Lemma imageChecksum_crc data : imageChecksum data = crc32c (sub 0 48 data ++ drop 52 data).
Proof. apply crcUpdate_app. Qed.

Lemma image_Decode_checked data i :
  Decode data = inr i -> imageChecksum data = leGet (sub 48 52 data).
Proof.
  unfold Decode. destruct (_ || _); [done|]. cbn zeta. destruct (_ || _); [done|].
  by destruct (Z.eqb_spec (imageChecksum data) (leGet (sub 48 52 data))).
Qed.

Lemma checked_insert_out data k b :
  (48 <= k < 52)%nat -> (52 <= length data)%nat ->
  imageChecksum (<[k := b]> data) = imageChecksum data.
Proof.
  intros Hk Hd. rewrite !imageChecksum_crc, sub_insert_out by lia. by rewrite drop_insert_lt by lia.
Qed.

Lemma checked_insert_in data k b :
  (k < 48 \/ 52 <= k)%nat -> (k < length data)%nat -> (52 <= length data)%nat ->
  Forall byte data -> byte b -> data !! k <> Some b ->
  imageChecksum (<[k := b]> data) <> imageChecksum data.
Proof.
  intros Hk Hkd Hd Hdata Hb Hne. rewrite !imageChecksum_crc.
  assert (length (sub 0 48 data) = 48%nat) as Hl by (rewrite length_sub; lia).
  assert (Forall byte (sub 0 48 data ++ drop 52 data)) as Hby.
  { apply Forall_app. split; [apply Forall_take, Forall_drop, Hdata|by apply Forall_drop]. }
  destruct Hk as [Hk|Hk].
  - rewrite sub_insert_in, drop_insert_lt, Nat.sub_0_r by lia. rewrite <- insert_app_l by lia.
    apply crc32c_insert; [done|done|rewrite length_app; lia|].
    rewrite lookup_app_l by lia. unfold sub. rewrite lookup_take_lt, lookup_drop by lia. done.
  - rewrite sub_insert_out, drop_insert_ge by lia.
    replace (k - 52)%nat with (k - 4 - length (sub 0 48 data))%nat by lia.
    rewrite <- insert_app_r_alt by lia.
    apply crc32c_insert; [done|done|rewrite length_app, length_drop; lia|].
    rewrite lookup_app_r, lookup_drop by lia.
    by replace (52 + (k - 4 - length (sub 0 48 data)))%nat with k by lia.
Qed.

Lemma image_bytes i : Forall byte (State i) -> Forall byte (Encode i).
Proof.
  intros Hs. rewrite image_Encode_eq, !Forall_app. split_and!; [apply header_bytes|apply le_bytes|done].
Qed.

Lemma image_length i : length (Encode i) = (52 + length (State i))%nat.
Proof. rewrite image_Encode_eq, !length_app, length_header, length_le. lia. Qed.

(** An image with one changed byte, wherever it is, is never decoded. *)
Lemma Decode_corrupted i k b :
  wf_image i -> (k < length (Encode i))%nat -> byte b -> Encode i !! k <> Some b ->
  exists e, Decode (<[k := b]> (Encode i)) = inl e.
Proof.
  intros Hi Hk Hb Hne. destruct (Decode _) as [e|j] eqn:HD; [by exists e|exfalso].
  apply image_Decode_checked in HD. pose proof (snapshot_decodes i Hi) as H0. apply image_Decode_checked in H0.
  assert (Forall byte (Encode i)) as Hby by apply image_bytes, Hi.
  pose proof (image_length i) as Hl.
  destruct (decide (48 <= k < 52)%nat) as [Hin|Hout].
  - rewrite checked_insert_out in HD by lia. rewrite H0, sub_insert_in in HD by lia.
    assert (Forall byte (sub 48 52 (Encode i))) as Hs by apply Forall_take, Forall_drop, Hby.
    apply leGet_inj in HD; [|done|by apply Forall_insert|by rewrite length_insert].
    apply (f_equal (.!! (k - 48)%nat)) in HD.
    rewrite list_lookup_insert_eq in HD by (rewrite length_sub; lia).
    unfold sub in HD. rewrite lookup_take_lt, lookup_drop in HD by lia.
    by replace (48 + (k - 48))%nat with k in HD by lia.
  - rewrite sub_insert_out, <- H0 in HD by lia. revert HD. apply checked_insert_in; try done; lia.
Qed.

(** The image format.  An image is decoded to exactly what was encoded, and with
    any one byte changed, wherever it is, it is never decoded. *)
Theorem snapshot_codec i k b :
  wf_image i ->
  Decode (Encode i) = inr i /\
  ((k < length (Encode i))%nat -> byte b -> Encode i !! k <> Some b ->
   exists e, Decode (<[k := b]> (Encode i)) = inl e).
Proof. intros Hi. split; [by apply snapshot_decodes|by apply Decode_corrupted]. Qed.

(** ** storage/snapshot/store.go

    The part of the operating system the store uses.  [visible] is the content of
    the snapshot path as the running process sees it, [tmp] that of the temporary
    file and whether it was synced, and [media] the contents the path may have
    after a power loss. *)

Record fs := mkFs {
  visible : option bytes;
  tmp : option (bytes * bool);
  media : list (option bytes)
}.

#[global] Instance eta_fs : Eta fs := fun f => mkFs (visible f) (tmp f) (media f).

Definition prefixes (bs : bytes) : list bytes := (fun n => take n bs) <$> seq 0 (S (length bs)).

(** [os.CreateTemp], [File.Write], [File.Sync], [os.Rename], a directory sync and
    [os.Remove].  Renaming a file that was not synced may expose any prefix. *)
Definition osCreate (f : fs) : fs := f <| tmp := Some ([], false) |>.
Definition osWrite (bs : bytes) (f : fs) : fs :=
  f <| tmp := (fun '(c, _) => (c ++ bs, false)) <$> tmp f |>.
Definition osSync (f : fs) : fs := f <| tmp := (fun '(c, _) => (c, true)) <$> tmp f |>.
Definition osRename (f : fs) : fs :=
  match tmp f with
  | Some (c, synced) =>
      mkFs (Some c) None (media f ++ if synced : bool then [Some c] else Some <$> prefixes c)
  | None => f
  end.
Definition osSyncDir (f : fs) : fs := f <| media := [visible f] |>.
Definition osRemove (f : fs) : fs := f <| tmp := None |>.

(** What the environment does to the [n]-th system call: let it succeed, fail it
    after part of its effect, or cut the power after part of its effect. *)
Inductive reply := Ok | Error (part : nat) (e : error) | PowerLoss (part : nat).

Record world := mkWorld { disk : fs; calls : nat }.
#[global] Instance eta_world : Eta world := fun w => mkWorld (disk w) (calls w).

Definition ErrRegression : error := "snapshot: index regression".

Record Store := mkStore { last : Z }.

Section os.
Variable env : nat -> reply.

(** A call with effect [f], and [part n] when it is interrupted. *)
Definition syscall (f : fs -> fs) (part : nat -> fs -> fs) : M world fs (option error) :=
  w ← get;
  match env (calls w) with
  | Ok => modify (fun w => mkWorld (f (disk w)) (S (calls w))) ;; mret None
  | Error n e => modify (fun w => mkWorld (part n (disk w)) (S (calls w))) ;; mret (Some e)
  | PowerLoss n => panic (part n (disk w))
  end.

(** A call with no partial effect, and one with no effect on the snapshot. *)
Definition atomic (f : fs -> fs) : M world fs (option error) := syscall f (fun _ d => d).
Definition idle : M world fs (option error) := atomic (fun d => d).

(** [if err == nil { err = m }]. *)
Definition andThen (err : option error) (m : M world fs (option error)) : M world fs (option error) :=
  match err with None => m | Some e => mret (Some e) end.

Definition syncDirectory : M world fs (option error) :=
  err ← idle;
  match err with
  | Some e => mret (Some e)
  | None =>
      err ← atomic osSyncDir;
      match err with Some e => idle ;; mret (Some e) | None => idle end
  end.

(** The deferred calls; their errors are ignored. *)
Definition cleanup (ok : bool) : M world fs () :=
  idle ;; if ok then mret () else (atomic osRemove ;; mret ()).

Definition Save (image : Image) (s : Store) : M world fs (Store * option error) :=
  if LastIndex image <? last s then mret (s, Some ErrRegression) else
  err ← idle;
  match err with
  | Some e => mret (s, Some e)
  | None =>
  err ← atomic osCreate;
  match err with
  | Some e => mret (s, Some e)
  | None =>
  err ← idle;
  err ← andThen err (syscall (osWrite (Encode image)) (fun n => osWrite (take n (Encode image))));
  err ← andThen err (atomic osSync);
  closeErr ← idle;
  let err := match err with None => closeErr | Some e => Some e end in
  err ← andThen err (atomic osRename);
  match err with
  | Some e => cleanup false ;; mret (s, Some e)
  | None =>
  err ← syncDirectory;
  match err with
  | Some e => cleanup false ;; mret (s, Some e)
  | None => cleanup true ;; mret (mkStore (LastIndex image), None)
  end end end end.

(** [os.ReadFile] of the snapshot path, which can fail. *)
Definition OpenStore (readErr : option error) (f : fs) : error + Store * Image :=
  match readErr with
  | Some e => inl e
  | None =>
      match visible f with
      | None => inr (mkStore 0, zeroImage)
      | Some data =>
          match Decode data with
          | inl e => inl e
          | inr image => inr (mkStore (LastIndex image), image)
          end
      end
  end.

End os.

(** *** Atomic replacement *)

Section atomicity.
Variable env : nat -> reply.

Lemma syscall_wpx f part (Q : option error -> world -> Prop) (R : fs -> Prop) w :
  Q None (mkWorld (f (disk w)) (S (calls w))) ->
  (forall n e, Q (Some e) (mkWorld (part n (disk w)) (S (calls w)))) ->
  (forall n, R (part n (disk w))) ->
  wpx (syscall env f part) Q R w.
Proof.
  intros H1 H2 H3. unfold syscall, wpx, mbind, M_bind, get. cbn.
  destruct (env (calls w)); cbn; [apply H1|apply H2|apply H3].
Qed.

(** A predicate on the disk that interrupted and completed calls keep. *)
Lemma syscall_keeps (I : fs -> Prop) f part w :
  I (f (disk w)) -> (forall n, I (part n (disk w))) ->
  wpx (syscall env f part) (fun err w' => I (disk w') /\ (err = None -> disk w' = f (disk w))) I w.
Proof. intros Hf Hp. apply syscall_wpx; cbn; [done|intros n e; by split|done]. Qed.

Lemma idle_keeps (I : fs -> Prop) w :
  I (disk w) -> wpx (idle env) (fun _ w' => I (disk w') /\ disk w' = disk w) I w.
Proof. intros HI. by apply syscall_wpx; cbn. Qed.

Lemma cleanup_keeps (I : fs -> Prop) ok w :
  I (disk w) -> I (osRemove (disk w)) -> wpx (cleanup env ok) (fun _ w' => I (disk w')) I w.
Proof.
  intros H1 H2. unfold cleanup. apply wpx_bind. eapply wpx_mono; [by apply (idle_keeps I)|].
  intros _ w1 [_ E]. destruct ok; [by rewrite <- E in H1|].
  apply wpx_bind, syscall_wpx; cbn; rewrite ?E; done.
Qed.

Variables (image : Image) (d0 : fs).

(** Only the temporary file changed since [d0]. *)
Definition calm (d : fs) : Prop := visible d = visible d0 /\ media d = media d0.

(** Every content of the path, now or after a power loss, is one it had in [d0]
    or the complete new image. *)
Definition replaced (d : fs) : Prop :=
  Forall (fun c => c ∈ visible d0 :: media d0 \/ c = Some (Encode image)) (visible d :: media d).

Lemma calm_replaced d : calm d -> replaced d.
Proof. intros [E1 E2]. unfold replaced. rewrite E1, E2. apply Forall_forall. auto. Qed.

Definition published (d : fs) : Prop :=
  visible d = Some (Encode image) /\ (media d = media d0 ++ [Some (Encode image)] \/ media d = [Some (Encode image)]).

Lemma published_replaced d : published d -> replaced d.
Proof.
  intros [E1 E2]. unfold replaced. rewrite E1. constructor; [by right|].
  destruct E2 as [-> | ->]; [apply Forall_app; split|]; [|by repeat constructor; right..].
  apply Forall_forall. intros c Hc. left. by apply elem_of_cons; right.
Qed.

Lemma rename_published d : calm d -> tmp d = Some (Encode image, true) -> published (osRename d).
Proof. intros [E1 E2] Et. unfold osRename. rewrite Et. split; [reflexivity|]. left. cbn [media]. by rewrite E2. Qed.

(** The calls up to the close of the temporary file. *)
Lemma write_calm w :
  calm (disk w) -> tmp (disk w) = Some ([], false) ->
  wpx ((idle env ≫=
          fun err => andThen err (syscall env (osWrite (Encode image)) (fun n => osWrite (take n (Encode image)))))
       ≫= fun err => andThen err (atomic env osSync))
    (fun err w' => calm (disk w') /\ (err = None -> tmp (disk w') = Some (Encode image, true))) calm w.
Proof.
  intros Hc Ht. apply wpx_bind, wpx_bind. eapply wpx_mono; [by apply (idle_keeps calm)|].
  intros [e|] w1 [H1 E1]; [by split|]. cbn [andThen].
  eapply wpx_mono; [by apply (syscall_keeps calm)|]. intros [e|] w2 [H2 E2]; [by split|]. cbn [andThen].
  eapply wpx_mono; [by apply (syscall_keeps calm)|]. intros err w3 [H3 E3]. split; [done|].
  intros He. rewrite (E3 He), (E2 eq_refl), E1. unfold osSync, osWrite. cbn. by rewrite Ht.
Qed.

Lemma syncDirectory_published w :
  published (disk w) ->
  wpx (syncDirectory env)
    (fun err w' => published (disk w') /\ (err = None -> media (disk w') = [Some (Encode image)])) published w.
Proof.
  intros Hp. unfold syncDirectory. apply wpx_bind. eapply wpx_mono; [by apply (idle_keeps published)|].
  intros [e|] w1 [H1 E1]; [by split|]. apply wpx_bind.
  assert (published (osSyncDir (disk w1))) as H1s by (destruct H1 as [V _]; split; [done|right; cbn; by rewrite V]).
  eapply wpx_mono; [by apply (syscall_keeps published)|]. intros [e|] w2 [H2 E2].
  - apply wpx_bind. eapply wpx_mono; [by apply (idle_keeps published)|]. intros _ w3 [H3 _]. by split.
  - eapply wpx_mono; [by apply (idle_keeps published)|]. intros err w3 [H3 E3]. split; [done|].
    intros _. rewrite E3, (E2 eq_refl). destruct H1 as [V _]. cbn. by rewrite V.
Qed.

Lemma rename_wpx err w :
  calm (disk w) -> (err = None -> tmp (disk w) = Some (Encode image, true)) ->
  wpx (andThen err (atomic env osRename))
    (fun err w' => match err with None => published (disk w') | Some _ => calm (disk w') end) replaced w.
Proof.
  intros Hc Ht. destruct err as [e|]; [done|]. cbn [andThen]. pose proof (rename_published _ Hc (Ht eq_refl)).
  apply syscall_wpx; cbn [disk]; [done|done|]. intros _. by apply calm_replaced.
Qed.

(** The error return of [Save]. *)
Lemma fail_wpx s (e : error) w :
  replaced (disk w) -> replaced (osRemove (disk w)) ->
  wpx (cleanup env false ;; mret (s, Some e))
    (fun '(s', err) w' => replaced (disk w') /\
       match err with
       | None => last s <= LastIndex image /\ s' = mkStore (LastIndex image) /\
                 visible (disk w') = Some (Encode image) /\ media (disk w') = [Some (Encode image)]
       | Some _ => s' = s
       end) replaced w.
Proof.
  intros H1 H2. apply wpx_bind. eapply wpx_mono; [by apply (cleanup_keeps replaced)|].
  cbn beta. by intros _ w' H.
Qed.

Lemma Save_wpx s w :
  disk w = d0 ->
  wpx (Save env image s)
    (fun '(s', err) w' => replaced (disk w') /\
       match err with
       | None => last s <= LastIndex image /\ s' = mkStore (LastIndex image) /\
                 visible (disk w') = Some (Encode image) /\ media (disk w') = [Some (Encode image)]
       | Some _ => s' = s
       end) replaced w.
Proof.
  intros Hd. assert (calm (disk w)) as Hw by by rewrite Hd.
  unfold Save. destruct (Z.ltb_spec (LastIndex image) (last s)) as [|Hge]; [by split; [apply calm_replaced|]|].
  apply wpx_bind. eapply wpx_conseq; [by apply (idle_keeps calm)|apply calm_replaced|].
  intros [e|] w1 [H1 _]; [by split; [apply calm_replaced|]|].
  apply wpx_bind. eapply wpx_conseq; [by apply (syscall_keeps calm)|apply calm_replaced|].
  intros [e|] w2 [H2 E2]; [by split; [apply calm_replaced|]|].
  apply wpx_bind_assoc, wpx_bind_assoc, wpx_bind.
  eapply wpx_conseq; [apply write_calm; [done|by rewrite (E2 eq_refl)]|apply calm_replaced|].
  intros err w3 [H3 T3]. apply wpx_bind.
  eapply wpx_conseq; [by apply (idle_keeps calm)|apply calm_replaced|]. intros closeErr w4 [H4 E4]. cbn zeta.
  apply wpx_bind. eapply wpx_conseq; [apply rename_wpx; [exact H4|]|done|].
  { intros He. rewrite E4. apply T3. by destruct err. }
  intros [e|] w5 H5; [by apply fail_wpx; [apply calm_replaced|apply calm_replaced]|].
  apply wpx_bind. eapply wpx_conseq; [apply syncDirectory_published, H5|apply published_replaced|].
  intros [e|] w6 [H6 M6]; [by apply fail_wpx; apply published_replaced|].
  apply wpx_bind.
  eapply wpx_conseq; [apply (cleanup_keeps (fun d => published d /\ media d = [Some (Encode image)])); auto| |].
  - intros d [Hp _]. by apply published_replaced.
  - cbn beta. intros _ w7 [Hp Hm]. split; [by apply published_replaced|]. split; [done|]. split; [done|].
    split; [apply Hp|done].
Qed.

End atomicity.

(** The medium after a power loss that left content [c] at the path. *)
Definition reboot (c : option bytes) : fs := mkFs c None [c].

(** The path holds image [i]; no file at all stands for the empty image. *)
Definition contains (i : Image) (c : option bytes) : Prop :=
  match c with None => i = zeroImage | Some data => wf_image i /\ data = Encode i end.

Lemma open_contains i c : contains i c -> OpenStore None (reboot c) = inr (mkStore (LastIndex i), i).
Proof.
  unfold OpenStore. destruct c as [data|]; cbn [contains reboot visible].
  - intros [Hi ->]. by rewrite snapshot_decodes.
  - by intros ->.
Qed.

Lemma replaced_open image d0 d old c :
  wf_image image -> Forall (contains old) (visible d0 :: media d0) -> replaced image d0 d ->
  c ∈ media d ->
  OpenStore None (reboot c) = inr (mkStore (LastIndex old), old) \/
  OpenStore None (reboot c) = inr (mkStore (LastIndex image), image).
Proof.
  intros Hi Hold Hr Hc. unfold replaced in Hr. rewrite Forall_forall in Hr, Hold.
  destruct (Hr c) as [Hin| ->]; [by apply elem_of_cons; right|left; by apply open_contains, Hold|].
  right. by apply open_contains.
Qed.

(** C19 Atomic publication.  Saving an image over a path that holds image [old]:
    whatever system call fails or is cut short by a power loss, reopening the
    medium finds [old] or the new image, complete and verified, and the store
    handle keeps its last index; and once [Save] returned no error, every reopen
    finds the new image. *)
Theorem snapshot_save_atomic env image old s w :
  wf_image image -> Forall (contains old) (visible (disk w) :: media (disk w)) ->
  match Save env image s w with
  | Done (s', None) w' =>
      last s <= LastIndex image /\ last s' = LastIndex image /\
      forall c, c ∈ media (disk w') ->
        OpenStore None (reboot c) = inr (mkStore (LastIndex image), image)
  | Done (s', Some _) w' =>
      s' = s /\ forall c, c ∈ media (disk w') ->
        OpenStore None (reboot c) = inr (mkStore (LastIndex old), old) \/
        OpenStore None (reboot c) = inr (mkStore (LastIndex image), image)
  | Panicked d =>
      forall c, c ∈ media d ->
        OpenStore None (reboot c) = inr (mkStore (LastIndex old), old) \/
        OpenStore None (reboot c) = inr (mkStore (LastIndex image), image)
  end.
Proof.
  intros Hi Hold. pose proof (Save_wpx env image (disk w) s w eq_refl) as H. unfold wpx in H.
  destruct (Save env image s w) as [[s' [e|]] w'|d].
  - destruct H as [Hr ->]. split; [done|]. intros c. by apply (replaced_open image (disk w)).
  - destruct H as (_ & Hle & -> & _ & Hm). split; [done|]. split; [done|]. rewrite Hm.
    intros c ->%list_elem_of_singleton. by apply open_contains.
  - intros c. by apply (replaced_open image (disk w)).
Qed.

Module Demo.

Definition im1 : Image := mkImage 3 1 [1; 2; 3] 7 0.
Definition im2 : Image := mkImage 5 2 [9] 7 0.
Definition start : world := mkWorld (reboot (Some (Encode im1))) 0.

Lemma im1_wf : wf_image im1.
Proof. repeat split; cbn; try lia. repeat constructor; lia. Defined.

Lemma im2_wf : wf_image im2.
Proof. repeat split; cbn; try lia. repeat constructor; lia. Defined.

Lemma start_holds : Forall (contains im1) (visible (disk start) :: media (disk start)).
Proof. constructor; [|constructor; [|constructor]]; (split; [exact im1_wf|reflexivity]). Defined.

(** A power loss while the directory is synced. *)
Definition cut : nat -> reply := fun n => if (n =? 8)%nat then PowerLoss 0 else Ok.

Lemma snapshot_codec_witness :
  Decode (Encode im1) = inr im1 /\ exists e, Decode (<[54%nat := 77]> (Encode im1)) = inl e.
Proof.
  destruct (snapshot_codec im1 54 77 im1_wf) as [H1 H2]. split; [exact H1|].
  apply H2; [vm_compute; lia|unfold byte; lia|]. vm_compute. discriminate.
Defined.

Lemma snapshot_save_atomic_witness :
  exists d, Save cut im2 (mkStore 3) start = Panicked d /\
    forall c, c ∈ media d ->
      OpenStore None (reboot c) = inr (mkStore 3, im1) \/ OpenStore None (reboot c) = inr (mkStore 5, im2).
Proof.
  pose proof (snapshot_save_atomic cut im2 im1 (mkStore 3) start im2_wf start_holds) as H.
  destruct (Save cut im2 (mkStore 3) start) as [r w'|d] eqn:E; [vm_compute in E; discriminate|].
  exists d. split; [reflexivity|exact H].
Defined.

End Demo.
End Snap.
