(* ===== verification/RaftStore.v ===== *)
(** * The complete persistence boundary

    [storage/raftstore/store.go]: the write-ahead log and the snapshot store
    composed.  Results: what [Open] recovers from every combination of log and
    snapshot, that a snapshot taken from the log survives a crash at every point
    between publishing it and compacting the log, and that a snapshot installed
    beyond the end of the log does not. *)

From S2P Require Import Prelude Bytes Wal RaftTypes RaftVotes RaftWal Snapshot.

Module RaftStore.

Record Recovery := mkRecovery {
  Hard : HardState;
  Snapshot : RaftTypes.Snapshot;
  Suffix : list Entry
}.

Definition ErrBase : error := "raftstore: WAL base exceeds snapshot".
Definition ErrBeyond : error := "raftstore: snapshot exceeds WAL last index".
Definition ErrMismatch : error := "raftstore: snapshot/WAL base mismatch".
Definition ErrPending : error := "raftstore: no durable snapshot for compaction index".

Definition imageOf (snap : RaftTypes.Snapshot) : Snap.Image :=
  Snap.mkImage (s_LastIndex snap) (s_LastTerm snap) (s_State snap) (s_OldVoters snap) (s_NewVoters snap).

Definition snapshotOf (i : Snap.Image) : RaftTypes.Snapshot :=
  mkSnapshot (Snap.LastIndex i) (Snap.LastTerm i) (Snap.State i) (Snap.OldVoters i) (Snap.NewVoters i).

Section store.
Context {D : Type} `{!Device D}.

(** [os] is the file system the snapshot store writes to. *)
Record Store := mkStore {
  wal : RaftWal.Store D;
  snapshot : Snap.Store;
  os : Snap.world;
  pending : RaftTypes.Snapshot
}.

#[global] Instance eta_Store : Eta Store := fun s => mkStore (wal s) (snapshot s) (os s) (pending s).

(** The compaction that brings the log to the snapshot: a fence when the log has
    the snapshot's last entry, a reset otherwise. *)
Definition fence (index term : Z) (w : RaftWal.Store D) : RaftWal.Store D * option error :=
  match RaftWal.Term index w with
  | Some t => if t =? term then RaftWal.CompactLog index w else RaftWal.ResetBase index term w
  | None => RaftWal.ResetBase index term w
  end.

Definition Open (readErr : option error) (d : D) (f : Snap.fs) : error + Store * Recovery :=
  match Snap.OpenStore readErr f with
  | inl e => inl e
  | inr (snapStore, image) =>
  match RaftWal.Open d with
  | inl e => inl e
  | inr walStore =>
  let '(_, base, entries) := RaftWal.StateWithBase walStore in
  if Snap.LastIndex image <? base then inl ErrBase else
  let completed :=
    if base <? Snap.LastIndex image then
      if w64 (base + len entries - 1) <? Snap.LastIndex image then inl ErrBeyond
      else match fence (Snap.LastIndex image) (Snap.LastTerm image) walStore with
           | (_, Some e) => inl e
           | (walStore, None) => inr walStore
           end
    else inr walStore in
  match completed with
  | inl e => inl e
  | inr walStore =>
  let '(hard, base, entries) := RaftWal.StateWithBase walStore in
  if negb (base =? Snap.LastIndex image) then inl ErrMismatch else
  inr (mkStore walStore snapStore (Snap.mkWorld f 0) zeroSnapshot,
       mkRecovery hard (snapshotOf image) (drop 1 entries))
  end end end.

Definition SaveHardState (h : HardState) (s : Store) : Store * option error :=
  let (w, err) := RaftWal.SaveHardState h (wal s) in (s <| wal := w |>, err).

Definition Append (index : Z) (entry : Entry) (s : Store) : Store * option error :=
  let (w, err) := RaftWal.Append index entry (wal s) in (s <| wal := w |>, err).

(** A power loss during the save leaves only the media. *)
Definition SaveSnapshot (env : nat -> Snap.reply) (snap : RaftTypes.Snapshot) (s : Store) :
    outcome Store Snap.fs (option error) :=
  match Snap.Save env (imageOf snap) (snapshot s) (os s) with
  | Panicked f => Panicked f
  | Done (snapStore, Some e) w => Done (Some e) (s <| snapshot := snapStore |> <| os := w |>)
  | Done (snapStore, None) w =>
      Done None (s <| snapshot := snapStore |> <| os := w |> <| pending := snap |>)
  end.

Definition CompactLog (index : Z) (s : Store) : Store * option error :=
  if negb (s_LastIndex (pending s) =? index) then (s, Some ErrPending) else
  let (w, err) := fence index (s_LastTerm (pending s)) (wal s) in
  match err with
  | Some e => (s <| wal := w |>, Some e)
  | None => (s <| wal := w |> <| pending := zeroSnapshot |>, None)
  end.

End store.
Arguments Store : clear implicits.

(** ** What a restart recovers *)

Abbreviation store := (Store MemoryDevice.t).
Implicit Types v : RaftWal.view.

(** The in-memory log brought to the snapshot with index [index] and term [term]. *)
Definition covers (index term : Z) v : bool :=
  match RaftWal.data v !! Z.to_nat (index - RaftWal.base v) with
  | Some e => e_Term e =? term
  | None => false
  end.

Definition fenced (index term : Z) v : RaftWal.view :=
  if index =? RaftWal.base v then v
  else if covers index term v
  then RaftWal.mkView (RaftWal.hard v) (drop (Z.to_nat (index - RaftWal.base v)) (RaftWal.data v)) index
  else RaftWal.mkView (RaftWal.hard v) [zeroEntry <| e_Term := term |>] index.

(** The request [fence] turns into. *)
Definition fenceReq (index term : Z) v : RaftWal.request :=
  if (RaftWal.base v <=? index) && covers index term v
  then RaftWal.ReqCompact index else RaftWal.ReqReset index term.

Definition lastOf v : Z := RaftWal.base v + len (RaftWal.data v) - 1.

Lemma wfv_len v : RaftWal.wf_view v -> 1 <= len (RaftWal.data v).
Proof. intros [_ H _ _]. unfold len. destruct (RaftWal.data v); [done|]. cbn [length]. lia. Qed.

Lemma covers_range index term v :
  RaftWal.base v <= index -> covers index term v = true -> index <= lastOf v.
Proof.
  intros Hb. unfold covers, lastOf, len. destruct (_ !! _) eqn:E; [|done]. intros _.
  apply lookup_lt_Some in E. lia.
Qed.

Lemma fence_perform index term (w : RaftWal.Store MemoryDevice.t) :
  RaftWal.wf_view (RaftWal.mem w) -> RaftWal.base (RaftWal.mem w) < index ->
  fence index term w = RaftWal.perform (fenceReq index term (RaftWal.mem w)) w.
Proof.
  intros Hv Hb. destruct (RaftWal.wfv_last _ Hv) as [Hl _].
  unfold fence, RaftWal.Term, fenceReq. rewrite Hl.
  rewrite (proj2 (Z.ltb_ge _ _)), (proj2 (Z.leb_le _ _)) by lia. cbn [orb andb].
  destruct (Z.ltb_spec (RaftWal.base (RaftWal.mem w) + len (RaftWal.data (RaftWal.mem w)) - 1) index) as [Hlt|Hge].
  - destruct (covers index term (RaftWal.mem w)) eqn:Hc; [|done].
    apply covers_range in Hc; [unfold lastOf in Hc; lia|lia].
  - unfold covers. destruct (RaftWal.data (RaftWal.mem w) !! _) as [e|] eqn:E; cbn; [|done].
    by destruct (e_Term e =? term).
Qed.

Lemma fenceReq_check index term v :
  RaftWal.wf_view v -> RaftWal.base v < index -> RaftWal.check (fenceReq index term v) v = None.
Proof.
  intros Hv Hb. destruct (RaftWal.wfv_last _ Hv) as [Hl _]. unfold fenceReq.
  destruct (Z.leb_spec (RaftWal.base v) index) as [|Hlt]; [|lia]. cbn [andb].
  destruct (covers index term v) eqn:Hc; cbn [RaftWal.check].
  - apply covers_range in Hc; [|lia]. unfold lastOf in Hc. rewrite Hl.
    destruct (Z.leb_spec index (RaftWal.base v)); [lia|].
    by destruct (Z.ltb_spec (RaftWal.base v + len (RaftWal.data v) - 1) index); [lia|].
  - by destruct (Z.ltb_spec index (RaftWal.base v)); [lia|].
Qed.

Lemma fenceReq_effect index term v :
  RaftWal.base v < index -> RaftWal.effect (fenceReq index term v) v = fenced index term v.
Proof.
  intros Hb. unfold fenceReq, fenced. destruct (Z.leb_spec (RaftWal.base v) index); [|lia].
  destruct (Z.eqb_spec index (RaftWal.base v)); [lia|]. cbn [andb]. by destruct (covers index term v).
Qed.

Lemma fence_spec index term (w : RaftWal.Store MemoryDevice.t) es :
  RaftWal.rinv w es -> RaftWal.room es -> RaftWal.wf_request (RaftWal.ReqReset index term) ->
  RaftWal.base (RaftWal.mem w) < index ->
  exists w', fence index term w = (w', None) /\ RaftWal.mem w' = fenced index term (RaftWal.mem w) /\
    RaftWal.rinv w' (es ++ [RaftWal.recordOf (fenceReq index term (RaftWal.mem w)) (RaftWal.mem w)]).
Proof.
  intros Hw Hroom Hreq Hb. pose proof (RaftWal.ri_wf _ _ Hw) as Hv.
  rewrite fence_perform by done. set (r := fenceReq index term (RaftWal.mem w)).
  assert (RaftWal.wf_request r) as Hr.
  { unfold r, fenceReq. destruct (_ && _); [apply Hreq|done]. }
  pose proof (RaftWal.perform_rinv w es r Hw Hroom Hr) as H.
  unfold r in H |- *. rewrite fenceReq_check in H by done. destruct H as (w' & HP & Hm & Hw').
  exists w'. rewrite fenceReq_effect in Hm by done. done.
Qed.

(** The last index of a snapshot in the file fits the log. *)
Definition consistent (i : Snap.Image) v : Prop :=
  RaftWal.base v <= Snap.LastIndex i <= lastOf v.

Definition wf_snap (i : Snap.Image) : Prop :=
  Snap.wf_image i /\ Snap.LastIndex i < RaftWal.resetIndex - 1.

Definition recovery (i : Snap.Image) v : Recovery :=
  mkRecovery (RaftWal.hard v) (snapshotOf i)
    (drop 1 (RaftWal.data (fenced (Snap.LastIndex i) (Snap.LastTerm i) v))).

(** [Open] on a medium whose log opens as [w]. *)
Lemma open_from (w : RaftWal.Store MemoryDevice.t) es d i c :
  RaftWal.Open d = inr w -> RaftWal.rinv w es -> RaftWal.room es -> wf_snap i -> Snap.contains i c ->
  if decide (consistent i (RaftWal.mem w))
  then exists s es', Open None d (Snap.reboot c) = inr (s, recovery i (RaftWal.mem w)) /\
         RaftWal.rinv (wal s) es' /\
         RaftWal.mem (wal s) = fenced (Snap.LastIndex i) (Snap.LastTerm i) (RaftWal.mem w)
  else exists e, Open None d (Snap.reboot c) = inl e.
Proof.
  intros HO Hw Hroom [Hi Hroom'] Hc. unfold Open. rewrite (Snap.open_contains i c Hc), HO.
  unfold RaftWal.StateWithBase. pose proof (RaftWal.ri_wf _ _ Hw) as Hv.
  destruct (RaftWal.wfv_last _ Hv) as [Hl _]. unfold RaftWal.lastIndex in Hl. rewrite Hl.
  set (v := RaftWal.mem w) in *. unfold consistent, lastOf. pose proof (wfv_len v Hv) as Hlen.
  destruct (Z.ltb_spec (Snap.LastIndex i) (RaftWal.base v)) as [Hlt|Hge].
  { rewrite decide_False by lia. by eexists. }
  destruct (Z.ltb_spec (RaftWal.base v) (Snap.LastIndex i)) as [Hgt|Hle].
  - destruct (Z.ltb_spec (RaftWal.base v + len (RaftWal.data v) - 1) (Snap.LastIndex i)) as [Hout|Hin].
    { rewrite decide_False by lia. by eexists. }
    rewrite decide_True by lia.
    assert (RaftWal.wf_request (RaftWal.ReqReset (Snap.LastIndex i) (Snap.LastTerm i))) as Hr.
    { split; [|apply Hi]. pose proof (RaftWal.wfv_base _ Hv). unfold v in *. lia. }
    destruct (fence_spec (Snap.LastIndex i) (Snap.LastTerm i) w es Hw Hroom Hr) as (w2 & -> & Hm2 & Hw2); [done|].
    rewrite Hm2. fold v. assert (RaftWal.base (fenced (Snap.LastIndex i) (Snap.LastTerm i) v) = Snap.LastIndex i /\
      RaftWal.hard (fenced (Snap.LastIndex i) (Snap.LastTerm i) v) = RaftWal.hard v) as [-> ->].
    { unfold fenced. destruct (Z.eqb_spec (Snap.LastIndex i) (RaftWal.base v)); [lia|]. by destruct (covers _ _ _). }
    rewrite Z.eqb_refl. do 2 eexists. split; [reflexivity|]. split; [exact Hw2|]. cbn. by rewrite Hm2.
  - assert (Snap.LastIndex i = RaftWal.base v) as E by lia.
    rewrite decide_True by lia.
    unfold RaftWal.StateWithBase. fold v. rewrite E, Z.eqb_refl. cbn [negb].
    unfold recovery, fenced. rewrite E, Z.eqb_refl. do 2 eexists. split; [reflexivity|]. by split.
Qed.

Lemma open_spec (w : RaftWal.Store MemoryDevice.t) es torn d i c :
  RaftWal.rinv w es -> RaftWal.room es ->
  MemoryDevice.Crash torn (Log.device (RaftWal.log w)) = inr d ->
  wf_snap i -> Snap.contains i c ->
  if decide (consistent i (RaftWal.mem w))
  then exists s es', Open None d (Snap.reboot c) = inr (s, recovery i (RaftWal.mem w)) /\
         RaftWal.rinv (wal s) es' /\
         RaftWal.mem (wal s) = fenced (Snap.LastIndex i) (Snap.LastTerm i) (RaftWal.mem w)
  else exists e, Open None d (Snap.reboot c) = inl e.
Proof.
  intros Hw Hroom Hd Hi Hc. destruct (RaftWal.crash_rinv _ _ _ _ Hw Hd) as (w1 & HO & <- & Hw1).
  by apply (open_from w1 es).
Qed.

Lemma snapshotOf_imageOf snap : snapshotOf (imageOf snap) = snap.
Proof. by destruct snap. Qed.

(** The entries of the log that follow a snapshot with index [index] and term
    [term]; none of them is kept when the log has another entry there. *)
Definition after (index term : Z) v : list Entry :=
  if (index =? RaftWal.base v) || covers index term v
  then drop (S (Z.to_nat (index - RaftWal.base v))) (RaftWal.data v) else [].

Lemma recovery_after i v :
  recovery i v = mkRecovery (RaftWal.hard v) (snapshotOf i) (after (Snap.LastIndex i) (Snap.LastTerm i) v).
Proof.
  unfold recovery, after, fenced. destruct (Z.eqb_spec (Snap.LastIndex i) (RaftWal.base v)) as [E|_].
  - cbn [orb]. by rewrite E, Z.sub_diag.
  - cbn [orb]. destruct (covers _ _ v); cbn [RaftWal.data]; [|done]. rewrite drop_drop. do 2 f_equal. lia.
Qed.

(** What [Open] recovers.  A log whose operations all completed and a snapshot
    file with image [i] are reopened exactly when the last index of the snapshot
    lies within the log, base included; the recovered hard state is that of the
    log, the snapshot is [i], the base of the log is brought to it, and the
    suffix is the entries after it if the log has the snapshot's last entry, and
    empty otherwise. *)
Theorem raftstore_open_spec (w : RaftWal.Store MemoryDevice.t) es torn d i c :
  RaftWal.rinv w es -> RaftWal.room es ->
  MemoryDevice.Crash torn (Log.device (RaftWal.log w)) = inr d ->
  wf_snap i -> Snap.contains i c ->
  let v := RaftWal.mem w in
  if decide (RaftWal.base v <= Snap.LastIndex i <= RaftWal.base v + len (RaftWal.data v) - 1)
  then exists s, Open None d (Snap.reboot c) =
           inr (s, mkRecovery (RaftWal.hard v) (snapshotOf i) (after (Snap.LastIndex i) (Snap.LastTerm i) v)) /\
         RaftWal.base (RaftWal.mem (wal s)) = Snap.LastIndex i
  else exists e, Open None d (Snap.reboot c) = inl e.
Proof.
  intros Hw Hroom Hd Hi Hc v. pose proof (open_spec w es torn d i c Hw Hroom Hd Hi Hc) as H.
  unfold consistent, lastOf in H. fold v in H. case_decide; [|done].
  destruct H as (s & es' & HO & _ & Hm). exists s. rewrite <- recovery_after. split; [exact HO|].
  rewrite Hm. unfold fenced. destruct (Z.eqb_spec (Snap.LastIndex i) (RaftWal.base v)) as [E|_]; [done|].
  by destruct (covers _ _ v).
Qed.

(** Whatever part of what was not synced survives a crash of the log [l], with
    content [c] at the snapshot path the store opens, and recovers one of the
    snapshots [snaps], the hard state of [v], and every entry of [v] after that
    snapshot. *)
Definition reopens v (l : Log.t MemoryDevice.t) (c : option bytes) (snaps : list RaftTypes.Snapshot) : Prop :=
  forall torn d, MemoryDevice.Crash torn (Log.device l) = inr d ->
    exists s snap, snap ∈ snaps /\
      Open None d (Snap.reboot c) = inr (s, mkRecovery (RaftWal.hard v) snap (after (s_LastIndex snap) (s_LastTerm snap) v)).

Lemma open_recovers (w : RaftWal.Store MemoryDevice.t) es d i c :
  RaftWal.Open d = inr w -> RaftWal.rinv w es -> RaftWal.room es -> wf_snap i -> Snap.contains i c ->
  consistent i (RaftWal.mem w) ->
  exists s, Open None d (Snap.reboot c) = inr (s, mkRecovery (RaftWal.hard (RaftWal.mem w)) (snapshotOf i)
    (after (s_LastIndex (snapshotOf i)) (s_LastTerm (snapshotOf i)) (RaftWal.mem w))).
Proof.
  intros HO Hw Hroom Hi Hc Hcon. pose proof (open_from w es d i c HO Hw Hroom Hi Hc) as H.
  rewrite decide_True in H by done. destruct H as (s2 & _ & HS & _). exists s2. by rewrite recovery_after in HS.
Qed.

Lemma reopens_contains w es i c snaps :
  RaftWal.rinv w es -> RaftWal.room es -> wf_snap i -> Snap.contains i c ->
  consistent i (RaftWal.mem w) -> snapshotOf i ∈ snaps -> reopens (RaftWal.mem w) (RaftWal.log w) c snaps.
Proof.
  intros Hw Hroom Hi Hc Hcon Hin torn d Hd. destruct (RaftWal.crash_rinv _ _ _ _ Hw Hd) as (w1 & HO & Hm & Hw1).
  rewrite <- Hm in Hcon |- *. destruct (open_recovers w1 es d i c) as [s HS]; [done..|]. by exists s, (snapshotOf i).
Qed.

Lemma replaced_reopens (s : store) es old snap d c :
  RaftWal.rinv (wal s) es -> RaftWal.room es -> wf_snap old -> wf_snap (imageOf snap) ->
  Forall (Snap.contains old) (Snap.visible (Snap.disk (os s)) :: Snap.media (Snap.disk (os s))) ->
  consistent old (RaftWal.mem (wal s)) -> consistent (imageOf snap) (RaftWal.mem (wal s)) ->
  Snap.replaced (imageOf snap) (Snap.disk (os s)) d -> c ∈ Snap.media d ->
  reopens (RaftWal.mem (wal s)) (RaftWal.log (wal s)) c [snapshotOf old; snap].
Proof.
  intros Hw Hroom Hold Hsnap Hdisk Hc0 Hc1 Hr Hc. unfold Snap.replaced in Hr.
  rewrite Forall_forall in Hr, Hdisk. destruct (Hr c) as [Hin| ->]; [by apply elem_of_cons; right| |].
  - eapply reopens_contains; [done|done|exact Hold|by apply Hdisk|done|by left].
  - eapply reopens_contains; [done|done|exact Hsnap|by split; [apply Hsnap|]|done|].
    rewrite snapshotOf_imageOf. right. by left.
Qed.

(** What a fenced log recovers is what the whole log does. *)
Lemma fenced_after index term v :
  RaftWal.base v < index -> after index term (fenced index term v) = after index term v /\
    RaftWal.hard (fenced index term v) = RaftWal.hard v.
Proof.
  intros Hb. unfold after, fenced. destruct (Z.eqb_spec index (RaftWal.base v)); [lia|]. cbn [orb].
  destruct (covers index term v); cbn [RaftWal.base RaftWal.data RaftWal.hard]; rewrite Z.eqb_refl, Z.sub_diag; cbn [orb]; split; try done.
  rewrite drop_drop. f_equal. lia.
Qed.

Lemma fenced_base index term v : RaftWal.base v < index -> RaftWal.base (fenced index term v) = index.
Proof.
  intros Hb. unfold fenced. destruct (Z.eqb_spec index (RaftWal.base v)); [lia|]. by destruct (covers _ _ _).
Qed.

(** The log [w] brought to the snapshot, in whole or up to its last record. *)
Lemma fence_crash (w : RaftWal.Store MemoryDevice.t) es snap :
  RaftWal.rinv w es -> Z.of_nat (length es) < 2 ^ 64 - 3 -> wf_snap (imageOf snap) ->
  RaftWal.base (RaftWal.mem w) < s_LastIndex snap <= lastOf (RaftWal.mem w) ->
  let r := fenceReq (s_LastIndex snap) (s_LastTerm snap) (RaftWal.mem w) in
  let c := Some (Snap.Encode (imageOf snap)) in
  exists w', fence (s_LastIndex snap) (s_LastTerm snap) w = (w', None) /\ RaftWal.perform r w = (w', None) /\
    reopens (RaftWal.mem w) (RaftWal.log w') c [snap] /\
    forall l, Log.Append Background [RaftWal.recordOf r (RaftWal.mem w)] (RaftWal.log w) = (l, None) ->
      reopens (RaftWal.mem w) l c [snap].
Proof.
  intros Hw Hlen Hsnap Hin r c. assert (RaftWal.room es) as Hroom by (unfold RaftWal.room; lia).
  pose proof (RaftWal.ri_wf _ _ Hw) as Hv. assert (RaftWal.wf_request (RaftWal.ReqReset (s_LastIndex snap) (s_LastTerm snap))) as Hreq.
  { destruct Hsnap as [(H1 & H2 & _) H3]. split; [split; [apply H1|exact H3]|exact H2]. }
  destruct (fence_spec (s_LastIndex snap) (s_LastTerm snap) w es Hw Hroom Hreq ltac:(lia)) as (w' & HF & Hm & Hw').
  exists w'. split; [exact HF|]. rewrite fence_perform in HF by (done || lia). split; [exact HF|].
  destruct (fenced_after (s_LastIndex snap) (s_LastTerm snap) (RaftWal.mem w) ltac:(lia)) as [Ha Hh].
  assert (RaftWal.room (es ++ [RaftWal.recordOf r (RaftWal.mem w)])) as Hroom'.
  { unfold RaftWal.room. rewrite length_app. cbn [length]. lia. }
  assert (consistent (imageOf snap) (RaftWal.mem w)) as Hc0 by (unfold consistent; cbn; lia).
  assert (consistent (imageOf snap) (RaftWal.mem w')) as Hc1.
  { pose proof (wfv_len _ (RaftWal.ri_wf _ _ Hw')) as Hl. rewrite Hm in *. unfold consistent, lastOf. rewrite fenced_base by lia. cbn. lia. }
  assert (Snap.contains (imageOf snap) c) as Hc by by split; [apply Hsnap|].
  assert (forall d w2 es2, RaftWal.Open d = inr w2 -> RaftWal.rinv w2 es2 -> RaftWal.room es2 ->
    RaftWal.mem w2 = RaftWal.mem w \/ RaftWal.mem w2 = RaftWal.mem w' -> exists s x, x ∈ [snap] /\
      Open None d (Snap.reboot c) = inr (s, mkRecovery (RaftWal.hard (RaftWal.mem w)) x
        (after (s_LastIndex x) (s_LastTerm x) (RaftWal.mem w)))) as Hopen.
  { intros d w2 es2 HO Hw2 Hroom2 Hm2. destruct (open_recovers w2 es2 d (imageOf snap) c) as [s HS]; [done..| |].
    { by destruct Hm2 as [->| ->]. }
    exists s, snap. split; [by left|]. rewrite snapshotOf_imageOf in HS.
    destruct Hm2 as [E|E]; rewrite E in HS; [done|]. by rewrite Hm, Ha, Hh in HS. }
  split.
  - intros torn d Hd. destruct (RaftWal.crash_rinv _ _ _ _ Hw' Hd) as (w2 & HO & Hm2 & Hw2).
    eapply Hopen; [exact HO|exact Hw2|exact Hroom'|by right].
  - intros l HA torn d Hd.
    assert (RaftWal.wf_request r) as Hr by (unfold r, fenceReq; destruct (_ && _); [apply Hreq|done]).
    destruct (RaftWal.torn_rinv w es r l torn d) as (w2 & HO & [[Hm2 Hw2]|[Hm2 Hw2]]); [done..|apply fenceReq_check; [done|lia]|done|done| |].
    + eapply Hopen; [exact HO|exact Hw2|exact Hroom|by left].
    + eapply Hopen; [exact HO|exact Hw2|exact Hroom'|right]. rewrite Hm2, Hm. apply fenceReq_effect. lia.
Qed.

(** C35 Snapshots taken from the log are crash-safe.  Let the snapshot path hold
    the image the log was last compacted to, and save a snapshot whose last index
    is within the log: whichever system call of the save fails or is cut short, each
    content the path may have afterwards reopens, with the unchanged hard state,
    either snapshot, and every entry of the log after that snapshot.  After a save
    without error it is the new snapshot; compaction at that index then succeeds,
    and a crash at any point of it or after it, whatever part of its record reached
    the medium, still reopens with the new snapshot and every entry after it. *)
Theorem raftstore_snapshot_crash (s : store) es env old snap :
  RaftWal.rinv (wal s) es -> Z.of_nat (length es) < 2 ^ 64 - 3 -> wf_snap old -> wf_snap (imageOf snap) ->
  Forall (Snap.contains old) (Snap.visible (Snap.disk (os s)) :: Snap.media (Snap.disk (os s))) ->
  Snap.LastIndex old = RaftWal.base (RaftWal.mem (wal s)) ->
  RaftWal.base (RaftWal.mem (wal s)) < s_LastIndex snap <= lastOf (RaftWal.mem (wal s)) ->
  let v := RaftWal.mem (wal s) in
  match SaveSnapshot env snap s with
  | Panicked f => forall c, c ∈ Snap.media f -> reopens v (RaftWal.log (wal s)) c [snapshotOf old; snap]
  | Done (Some _) s1 =>
      forall c, c ∈ Snap.media (Snap.disk (os s1)) -> reopens v (RaftWal.log (wal s1)) c [snapshotOf old; snap]
  | Done None s1 =>
      (forall c, c ∈ Snap.media (Snap.disk (os s1)) -> reopens v (RaftWal.log (wal s1)) c [snap]) /\
      exists s2, CompactLog (s_LastIndex snap) s1 = (s2, None) /\ os s2 = os s1 /\
        let r := fenceReq (s_LastIndex snap) (s_LastTerm snap) v in
        RaftWal.perform r (wal s1) = (wal s2, None) /\
        forall c, c ∈ Snap.media (Snap.disk (os s2)) ->
          (forall l, Log.Append Background [RaftWal.recordOf r v] (RaftWal.log (wal s1)) = (l, None) -> reopens v l c [snap]) /\
          reopens v (RaftWal.log (wal s2)) c [snap]
  end.
Proof.
  intros Hw Hlen Hold Hsnap Hdisk Hbase Hin v. assert (RaftWal.room es) as Hroom by (unfold RaftWal.room; lia).
  pose proof (Snap.Save_wpx env (imageOf snap) (Snap.disk (os s)) (snapshot s) (os s) eq_refl) as HS.
  unfold wpx in HS. unfold SaveSnapshot.
  assert (consistent old v) as Hc0.
  { pose proof (wfv_len _ (RaftWal.ri_wf _ _ Hw)). unfold consistent, lastOf, v. lia. }
  assert (consistent (imageOf snap) v) as Hc1 by (unfold consistent, v; cbn; lia).
  destruct (Snap.Save _ _ _ _) as [[s' [e|]] w'|f]; cbn [os wal].
  - destruct HS as [Hr _]. intros c Hc. by apply (replaced_reopens s es old snap (Snap.disk w')).
  - destruct HS as (_ & _ & _ & _ & Hm). set (s1 := s <| snapshot := s' |> <| os := w' |> <| pending := snap |>).
    change (Snap.media (Snap.disk (os s1))) with (Snap.media (Snap.disk w')). rewrite Hm. split.
    + intros c ->%list_elem_of_singleton.
      eapply reopens_contains; [done|done|exact Hsnap|by split; [apply Hsnap|]|done|].
      rewrite snapshotOf_imageOf. by left.
    + destruct (fence_crash (wal s) es snap Hw Hlen Hsnap Hin) as (w2 & HF & HP & H1 & H2).
      exists (s1 <| wal := w2 |> <| pending := zeroSnapshot |>). split.
      { unfold CompactLog. change (pending s1) with snap. change (wal s1) with (wal s). by rewrite Z.eqb_refl, HF. }
      split; [done|]. split; [exact HP|]. cbn [os wal].
      intros c Hc. change (Snap.media _) with (Snap.media (Snap.disk w')) in Hc. rewrite Hm in Hc.
      apply list_elem_of_singleton in Hc as ->. split; [exact H2|exact H1].
  - intros c Hc. by apply (replaced_reopens s es old snap f).
Qed.

(** The gap in snapshot installation.  When a snapshot beyond the end of the
    log has been saved but the log not yet reset to it, which is the window
    between the two calls the node makes to install a snapshot, the store cannot
    be reopened. *)
Theorem raftstore_install_gap (s s1 : store) es env snap torn d c :
  RaftWal.rinv (wal s) es -> RaftWal.room es -> wf_snap (imageOf snap) ->
  lastOf (RaftWal.mem (wal s)) < s_LastIndex snap ->
  SaveSnapshot env snap s = Done None s1 ->
  c ∈ Snap.media (Snap.disk (os s1)) ->
  MemoryDevice.Crash torn (Log.device (RaftWal.log (wal s1))) = inr d ->
  exists e, Open None d (Snap.reboot c) = inl e.
Proof.
  intros Hw Hroom Hsnap Hout HS Hc Hd.
  pose proof (Snap.Save_wpx env (imageOf snap) (Snap.disk (os s)) (snapshot s) (os s) eq_refl) as H.
  unfold wpx in H. unfold SaveSnapshot in HS.
  destruct (Snap.Save _ _ _ _) as [[s' [e|]] w'|f]; [done| |done]. injection HS as <-. cbn in Hc, Hd.
  destruct H as (_ & _ & _ & _ & Hm). rewrite Hm in Hc. apply list_elem_of_singleton in Hc as ->.
  pose proof (open_spec (wal s) es torn d (imageOf snap) _ Hw Hroom Hd Hsnap
    (conj (proj1 Hsnap) eq_refl : Snap.contains (imageOf snap) (Some _))) as HO.
  rewrite decide_False in HO by (unfold consistent; cbn; lia). exact HO.
Qed.

(** ** The interfaces of the Raft node

    A process sees its system calls succeed or fail; a power loss ends it. *)

Section interface.
Variable fault : nat -> option error.

Definition answers (n : nat) : Snap.reply :=
  match fault n with None => Snap.Ok | Some e => Snap.Error 0 e end.

Definition saveSnapshot (snap : RaftTypes.Snapshot) (s : store) : store * option error :=
  match SaveSnapshot answers snap s with
  | Done err s' => (s', err)
  | Panicked _ => (s, Some "power loss"%string)
  end.

#[local] Instance stable_store : StableStore store := {
  RaftTypes.SaveHardState := SaveHardState;
  RaftTypes.Append := Append;
  AsSnapshotStore := Some {| RaftTypes.SaveSnapshot := saveSnapshot; RaftTypes.CompactLog := CompactLog |}
}.

Lemma perform_hard r (w : RaftWal.Store MemoryDevice.t) :
  (forall h, r <> RaftWal.ReqHard h) ->
  RaftWal.hard (RaftWal.mem (RaftWal.perform r w).1) = RaftWal.hard (RaftWal.mem w).
Proof.
  intros Hr. rewrite RaftWal.perform_unfold. destruct (RaftWal.check r (RaftWal.mem w)); [done|].
  pose proof (RaftWal.append_mem (RaftWal.recordOf r (RaftWal.mem w)) w) as Hm.
  destruct (RaftWal.append _ w) as [w1 [e|]]; cbn in *; [by rewrite Hm|]. rewrite Hm.
  destruct r; [by destruct (Hr h)|done..].
Qed.

Lemma fence_hard index term (w : RaftWal.Store MemoryDevice.t) :
  RaftWal.hard (RaftWal.mem (fence index term w).1) = RaftWal.hard (RaftWal.mem w).
Proof.
  unfold fence. destruct (RaftWal.Term index w) as [t|]; [destruct (t =? term)|];
    [apply (perform_hard (RaftWal.ReqCompact index))|apply (perform_hard (RaftWal.ReqReset index term))..];
    discriminate.
Qed.

#[local] Instance votes : DurableVotes store.
Proof.
  refine {| durable := fun s : store => durable (wal s) |}.
  - intros h s s'. cbn. unfold SaveHardState. destruct (RaftWal.SaveHardState h (wal s)) as [w err] eqn:E.
    intros [= <- ->]. exact (durable_save h (wal s) w E).
  - intros h s s' e. cbn. unfold SaveHardState. destruct (RaftWal.SaveHardState h (wal s)) as [w err] eqn:E.
    intros [= <- ->]. exact (durable_save_err h (wal s) w e E).
  - intros i e s. cbn. unfold Append. destruct (RaftWal.Append i e (wal s)) as [w err] eqn:E. cbn.
    pose proof (durable_append i e (wal s)) as H. cbn in H. by rewrite E in H.
  - intros ops snap s [= <-]. cbn. unfold saveSnapshot, SaveSnapshot.
    by destruct (Snap.Save _ _ _ _) as [[s' [e|]] w'|f].
  - intros ops i s [= <-]. cbn. unfold CompactLog. destruct (negb _); [done|].
    pose proof (fence_hard i (s_LastTerm (pending s)) (wal s)) as H.
    by destruct (fence _ _ _) as [w [e|]]; cbn in *.
Defined.

End interface.

Module Demo.

Definition entry1 : Entry := mkEntry 1 0 0 0 0 1 5 1 10 20.
Definition calls3 : list RaftWal.request :=
  [RaftWal.ReqAppend 1 entry1; RaftWal.ReqAppend 2 entry1; RaftWal.ReqAppend 3 entry1].
Definition log3 : RaftWal.Store MemoryDevice.t := RaftWal.runAll calls3 RaftWal.fresh.
Definition store3 : store := mkStore log3 (Snap.mkStore 0) (Snap.mkWorld (Snap.reboot None) 0) zeroSnapshot.
Definition snap2 : RaftTypes.Snapshot := mkSnapshot 2 1 [4; 2] 7 0.
Definition snap9 : RaftTypes.Snapshot := mkSnapshot 9 1 [4; 2] 7 0.
Definition medium3 : MemoryDevice.t := MemoryDevice.New (MemoryDevice.durable (Log.device (RaftWal.log log3))).

Lemma log3_inv : exists es, RaftWal.rinv log3 es /\ (length es <= 3)%nat.
Proof.
  apply (RaftWal.runAll_rinv calls3 RaftWal.fresh [] RaftWal.fresh_rinv); [|cbn; lia].
  repeat (apply Forall_cons; split); [..|by apply Forall_nil];
    repeat split; cbn; unfold RaftWal.resetIndex, maxu64; lia.
Qed.

Lemma wf_snap2 : wf_snap (imageOf snap2).
Proof. split; [|done]. repeat split; cbn; try lia. repeat constructor; lia. Defined.

Lemma wf_snap9 : wf_snap (imageOf snap9).
Proof. split; [|done]. repeat split; cbn; try lia. repeat constructor; lia. Defined.

Lemma wf_snap0 : wf_snap Snap.zeroImage.
Proof. split; [|done]. repeat split; cbn; try lia. constructor. Defined.

Lemma disk3 : Forall (Snap.contains Snap.zeroImage)
  (Snap.visible (Snap.disk (os store3)) :: Snap.media (Snap.disk (os store3))).
Proof. constructor; [done|]. constructor; [done|constructor]. Defined.

Lemma raftstore_open_spec_witness :
  exists s rec, Open None medium3 (Snap.reboot (Some (Snap.Encode (imageOf snap2)))) = inr (s, rec) /\
    Snapshot rec = snap2 /\ Suffix rec = [entry1].
Proof.
  destruct log3_inv as (es & Hes & Hlen).
  assert (RaftWal.room es) as Hroom by (unfold RaftWal.room; lia).
  pose proof (raftstore_open_spec log3 es 0 medium3 (imageOf snap2) (Some (Snap.Encode (imageOf snap2)))
    Hes Hroom ltac:(vm_compute; reflexivity) wf_snap2 (conj (proj1 wf_snap2) eq_refl)) as H.
  cbn zeta in H. rewrite decide_True in H by (vm_compute; split; discriminate).
  destruct H as (s & HO & _). eexists s, _. split; [exact HO|]. split; vm_compute; reflexivity.
Defined.

(** A save without a failure, and a compaction that is cut off with ten bytes of its
    record on the medium: the third entry is still there. *)
Definition torn3 : Log.t MemoryDevice.t :=
  (Log.Append Background [RaftWal.recordOf (fenceReq 2 1 (RaftWal.mem log3)) (RaftWal.mem log3)] (RaftWal.log log3)).1.

Lemma raftstore_snapshot_crash_witness :
  exists s1 s2 d s3, SaveSnapshot (fun _ => Snap.Ok) snap2 store3 = Done None s1 /\
    CompactLog 2 s1 = (s2, None) /\ MemoryDevice.Crash 10 (Log.device torn3) = inr d /\
    Open None d (Snap.reboot (Some (Snap.Encode (imageOf snap2)))) =
      inr (s3, mkRecovery (mkHardState 0 0 0) snap2 [entry1]).
Proof.
  destruct log3_inv as (es & Hes & Hlen).
  pose proof (raftstore_snapshot_crash store3 es (fun _ => Snap.Ok) Snap.zeroImage snap2 Hes ltac:(lia) wf_snap0
    wf_snap2 disk3 ltac:(vm_compute; reflexivity) ltac:(vm_compute; split; [reflexivity|discriminate])) as H. cbn zeta in H.
  assert (exists s1, SaveSnapshot (fun _ => Snap.Ok) snap2 store3 = Done None s1 /\ wal s1 = log3 /\
    Some (Snap.Encode (imageOf snap2)) ∈ Snap.media (Snap.disk (os s1))) as (s1 & E & Ew & Em).
  { eexists. split; [vm_compute; reflexivity|]. split; [vm_compute; reflexivity|]. vm_compute. constructor. }
  rewrite E in H. destruct H as (_ & s2 & E2 & Eo & _ & H). rewrite Eo in H. destruct (H _ Em) as [H1 _]. rewrite Ew in H1.
  destruct (MemoryDevice.Crash 10 (Log.device torn3)) as [|d] eqn:Ed; [vm_compute in Ed; discriminate|].
  destruct (H1 torn3 ltac:(vm_compute; reflexivity) 10 d Ed) as (s3 & snap & Hs & HO). apply list_elem_of_singleton in Hs as ->.
  exists s1, s2, d, s3. split; [exact E|]. split; [exact E2|]. split; [reflexivity|]. rewrite HO. vm_compute. reflexivity.
Defined.

Lemma raftstore_install_gap_witness :
  exists e, Open None medium3 (Snap.reboot (Some (Snap.Encode (imageOf snap9)))) = inl e.
Proof.
  destruct log3_inv as (es & Hes & Hlen).
  assert (RaftWal.room es) as Hroom by (unfold RaftWal.room; lia).
  refine (raftstore_install_gap store3 _ es (fun _ => Snap.Ok) snap9 0 medium3 _ Hes Hroom wf_snap9 _ eq_refl _ _);
    [vm_compute; reflexivity|vm_compute; constructor|vm_compute; reflexivity].
Defined.

End Demo.
End RaftStore.
