(* ===== verification/LogStores.v ===== *)
(** * The logs the stores hold

    The contract [DurableLog] of the log-safety proof, for the two persistent
    stores: [storage/raftwal] alone, and [storage/raftstore] with its snapshots. *)

From S2P Require Import Prelude Bytes Wal RaftTypes Quorum RaftNode RaftVotes LogHistory RaftLogs RaftWal Snapshot RaftStore.

Module LogStores.

(** The log of a store, its base index first. *)
Definition logOf {D} (w : RaftWal.Store D) : option (Z * list Entry) :=
  Some (RaftWal.base (RaftWal.mem w), RaftWal.data (RaftWal.mem w)).

Lemma append_logOf i e (w w' : RaftWal.store) r b l' :
  RaftWal.Append i e w = (w', r) -> logOf w' = Some (b, l') ->
  exists l, logOf w = Some (b, l) /\
    (b < i <= b + len l -> l' = take (Z.to_nat (i - b)) l ++ [e] \/ r <> None /\ l' = l).
Proof.
  unfold RaftWal.Append, logOf. destruct (_ || _).
  { intros [= <- <-] [= <- <-]. eexists. split; [reflexivity|]. by right. }
  pose proof (RaftWal.append_mem (RaftWal.entryRecord i e) w) as Hm.
  destruct (RaftWal.append _ w) as [w1 [err|]]; cbn in Hm; intros [= <- <-]; cbn; rewrite Hm; intros [= <- <-];
    eexists; (split; [reflexivity|]); [by right|].
  intros Hi. left. unfold RaftWal.store1. destruct (Z.ltb_spec (i - RaftWal.base (RaftWal.mem w)) (len (RaftWal.data (RaftWal.mem w)))).
  - done.
  - f_equal. rewrite take_ge; [done|]. unfold len in *. lia.
Qed.

Lemma save_logOf h (w w' : RaftWal.store) r : RaftWal.SaveHardState h w = (w', r) -> logOf w' = logOf w.
Proof.
  unfold RaftWal.SaveHardState, logOf. destruct (RaftWal.regression _ _ _ _); [by intros [= <- _]|].
  pose proof (RaftWal.append_mem (RaftWal.hardRecord h) w) as Hm.
  destruct (RaftWal.append _ w) as [w1 [err|]]; cbn in Hm; intros [= <- _]; cbn; by rewrite Hm.
Qed.

#[global] Instance wal_log : DurableLog RaftWal.store.
Proof.
  refine {| image := logOf |}; [| |done|done].
  - intros h s s' r x Hs. by rewrite (save_logOf _ _ _ _ Hs).
  - intros i e s s' r b l'. apply append_logOf.
Defined.

(** Reopening the log after a crash yields the log and the hard state it had. *)
Lemma reopened_logOf (w : RaftWal.store) es torn d :
  RaftWal.rinv w es -> MemoryDevice.Crash torn (Log.device (RaftWal.log w)) = inr d ->
  exists w', RaftWal.Open d = inr w' /\ logOf w' = logOf w /\ durable w' = durable w.
Proof.
  intros Hw Hd. destruct (RaftWal.crash_rinv _ _ _ _ Hw Hd) as (w' & HO & Hm & _). exists w'.
  split; [done|]. unfold logOf, durable. cbn. by rewrite Hm.
Qed.

(** ** Fences *)

Lemma Term_lookup index (w : RaftWal.store) :
  let v := RaftWal.mem w in
  0 <= RaftWal.base v < index -> RaftWal.base v + len (RaftWal.data v) <= maxu64 ->
  RaftWal.Term index w = e_Term <$> RaftWal.data v !! Z.to_nat (index - RaftWal.base v) /\
  (is_Some (RaftWal.Term index w) -> index <= RaftWal.lastIndex v).
Proof.
  intros v Hb Hl. unfold RaftWal.Term. fold v. destruct (Z.ltb_spec index (RaftWal.base v)); [lia|]. cbn [orb].
  destruct (Z.ltb_spec (RaftWal.lastIndex v) index) as [Hlt|Hge]; [|by split].
  split; [|by intros []]. unfold RaftWal.lastIndex, len in *. destruct (RaftWal.data v) as [|x d] eqn:E; [done|].
  rewrite w64_small in Hlt by (unfold is_u64, maxu64 in *; cbn [length] in *; lia).
  rewrite lookup_ge_None_2; [done|]. lia.
Qed.

Lemma perform_ok r (w : RaftWal.store) :
  RaftWal.check r (RaftWal.mem w) = None ->
  let (w', err) := RaftWal.perform r w in
  RaftWal.mem w' = if err is Some _ then RaftWal.mem w else RaftWal.effect r (RaftWal.mem w).
Proof.
  intros Hc. rewrite RaftWal.perform_unfold, Hc.
  pose proof (RaftWal.append_mem (RaftWal.recordOf r (RaftWal.mem w)) w) as Hm.
  destruct (RaftWal.append _ w) as [w1 [e|]]; cbn in *; [done|]. by rewrite Hm.
Qed.

Lemma fence_logOf index term (w w' : RaftWal.store) r :
  let v := RaftWal.mem w in
  0 <= RaftWal.base v < index -> RaftWal.base v + len (RaftWal.data v) <= maxu64 ->
  RaftStore.fence index term w = (w', r) ->
  logOf w' = if r is Some _ then logOf w else Some (index, cutAt index term (RaftWal.base v) (RaftWal.data v)).
Proof.
  intros v Hb Hl. destruct (Term_lookup index w Hb Hl) as [Ht Hin]. unfold RaftStore.fence, cutAt. fold v in Ht, Hin |- *.
  assert (forall req, RaftWal.check req v = None -> RaftWal.perform req w = (w', r) ->
    logOf w' = if r is Some _ then logOf w else Some (RaftWal.base (RaftWal.effect req v), RaftWal.data (RaftWal.effect req v))) as Hp.
  { intros req Hc HP. pose proof (perform_ok req w Hc) as Hm. rewrite HP in Hm. unfold logOf. rewrite Hm. by destruct r. }
  assert (RaftWal.check (RaftWal.ReqReset index term) v = None) as Hreset.
  { cbn. by destruct (Z.ltb_spec index (RaftWal.base v)); [lia|]. }
  rewrite Ht in *. destruct (RaftWal.data v !! _) as [e|]; cbn [fmap option_fmap option_map] in *.
  - destruct (e_Term e =? term).
    + apply (Hp (RaftWal.ReqCompact index)). cbn. specialize (Hin (mk_is_Some _ _ eq_refl)).
      destruct (Z.leb_spec index (RaftWal.base v)); [lia|]. by destruct (Z.ltb_spec (RaftWal.lastIndex v) index); [lia|].
    + by apply (Hp (RaftWal.ReqReset index term)).
  - by apply (Hp (RaftWal.ReqReset index term)).
Qed.

Section raftstore.
Variable fault : nat -> option error.
#[local] Existing Instance RaftStore.stable_store.

#[local] Instance store_log : @DurableLog RaftStore.store (RaftStore.stable_store fault).
Proof.
  refine {| image := fun s : RaftStore.store => logOf (RaftStore.wal s) |}.
  - intros h s s' r x. cbn. unfold RaftStore.SaveHardState.
    destruct (RaftWal.SaveHardState h (RaftStore.wal s)) as [w err] eqn:E. intros [= <- _]. cbn.
    by rewrite (save_logOf _ _ _ _ E).
  - intros i e s s' r b l'. cbn. unfold RaftStore.Append.
    destruct (RaftWal.Append i e (RaftStore.wal s)) as [w err] eqn:E. intros [= <- <-]. cbn. by apply append_logOf.
  - intros ops snap s s' r b' l' [= <-]. cbn. unfold RaftStore.saveSnapshot, RaftStore.SaveSnapshot.
    intros HS Hi. exists b', l'. split; [|by left]. rewrite <- Hi. f_equal.
    by destruct (Snap.Save _ _ _ _) as [[s1 [e|]] w1|f]; injection HS as <- <-.
  - intros ops snap s s1 s2 r b' l' [= <-]. cbn. unfold RaftStore.saveSnapshot, RaftStore.SaveSnapshot, RaftStore.CompactLog.
    intros HS HC Hi. eexists _, _. split; [reflexivity|]. intros Hb Hl.
    assert (RaftStore.wal s1 = RaftStore.wal s /\ RaftStore.pending s1 = snap) as [Ew Ep].
    { by destruct (Snap.Save _ _ _ _) as [[s3 [e|]] w1|f]; injection HS as <-. }
    rewrite Ew, Ep, Z.eqb_refl in HC. cbn [negb] in HC.
    destruct (RaftStore.fence _ _ _) as [w err] eqn:Ef.
    pose proof (fence_logOf _ _ _ _ _ Hb Hl Ef) as Hlog.
    destruct err as [e|]; injection HC as <- <-; cbn in Hi; rewrite Hi in Hlog; injection Hlog as -> ->; [by left|by right].
Defined.

End raftstore.
End LogStores.
