(* ===== verification/LogSafety.v ===== *)
(** * Agreement of the logs

    The cluster of [Election] again, now with the logs.  Executions in which an
    index would leave [uint64] are not considered, a restart recovers the log its
    store holds ([DurableLog]), and a stopped node that may be restarted is not asked
    to compact.

    The theorems: logs that agree on an entry agree on all that precedes it; a
    leader has every entry committed before its term; and two nodes never commit
    different entries at one index, at whatever times they do so. *)

From S2P Require Import Prelude RaftTypes Quorum RaftNode RaftInv RaftStep RaftClient RaftVotes LogHistory RaftLogs RaftLead.
From S2P Require Import Election RaftWal LogStores.

Section safety.
Context {St : Type} `{!StableStore St} `{!DurableVotes St} `{!DurableLog St} (V : Z).
Implicit Types n : Node St.
Implicit Types c : cluster (S := St).

(** ** The executions considered *)

Definition room (j : Z) c : bool :=
  match c_nodes c !! j with Some n => n_BaseIndex n + len (n_Log n) <? maxu64 | None => true end.

(** The store and the log a restart uses are what the old store holds. *)
Definition sameImage (j : Z) (store : St) c : bool :=
  match c_nodes c !! j with Some n => bool_decide (image store = image (n_store n)) | None => false end.

Definition recovers (store : St) (log : list Entry) : bool :=
  bool_decide (image store = Some (0, if decide (log = []) then [zeroEntry] else log)).

Definition recoversSnapshot (store : St) (snap : Snapshot) (log : list Entry) : bool :=
  match image store with
  | Some (b, x :: l) => (b =? s_LastIndex snap) && (e_Term x =? s_LastTerm snap) && bool_decide (l = log)
  | _ => false
  end.

(** The node runs, or its store cannot be reopened anyway. *)
Definition mayCompact (j : Z) c : bool :=
  match c_nodes c !! j with
  | Some n => negb (n_Faulted n) || bool_decide (image (n_store n) = None)
  | None => false
  end.

Definition allowed (a : action (S := St)) c : bool :=
  match a with
  | ADeliver k => match c_net c !! k with Some m => room (m_To m) c | None => false end
  | ATick j | APropose j _ | AProposeRequest j _ _ _ _ _ => room j c
  | ACompact j _ _ => mayCompact j c
  | ARestart j _ _ store log => sameImage j store c && recovers store log
  | ARestartSnapshot j _ _ store snap log => sameImage j store c && recoversSnapshot store snap log
  | AStartReadIndex _ _ | ATransferLeadership _ _ | AApplyEntries _ | ADrain _ => true
  end.

Definition execLog (a : action (S := St)) c : option (cluster (S := St)) :=
  if allowed a c then exec V a c else None.

Definition runLog (l : list (action (S := St))) c : option (cluster (S := St)) :=
  foldl (fun r a => r ≫= execLog a) (Some c) l.

(** Fresh nodes with empty stores. *)
Record initialLog c : Prop := {
  il_initial : initial V c;
  il_commit : forall j n, c_nodes c !! j = Some n -> h_Commit (durable (n_store n)) = 0;
  il_image : forall j n b l, c_nodes c !! j = Some n -> image (n_store n) = Some (b, l) -> b = 0 /\ l = [zeroEntry]
}.

(** ** The invariant *)

Record LInv (g : history) c : Prop := {
  li_hist : Hist V g;
  li_votes : forall v, v ∈ c_votes c -> v ∈ g_votes g;
  li_net : forall m, m ∈ c_net c -> backedMsg V g m;
  li_node : forall j n, c_nodes c !! j = Some n -> (exists F D, logged V g j n F D) /\ matched g n
}.

Lemma runLog_app l1 l2 c : runLog (l1 ++ l2) c = runLog l1 c ≫= runLog l2.
Proof.
  unfold runLog. rewrite foldl_app. destruct (foldl _ (Some c) l1) as [c1|]; [done|]. cbn.
  induction l2 as [|a l2 IH]; [done|]. exact IH.
Qed.

Lemma runLog_cons a l c : runLog (a :: l) c = execLog a c ≫= runLog l.
Proof. exact (runLog_app [a] l c). Qed.

(** The vote a node holds after an operation. *)
Lemma logged_observe g j n F D :
  Hist V g -> logged V g j n F D ->
  let g' := addVote j (n_Term n) (n_VotedFor n) g in extends V j g g' /\ logged V g' j n F D.
Proof.
  intros HH H g'. pose proof (addVote_grows j (n_Term n) (n_VotedFor n) g) as Hg. fold g' in Hg.
  assert (Hist V g') as HH'.
  { apply addVote_hist; [done|apply H|]. intros w' Hin Hw' _.
    destruct (lg_voted _ _ _ _ _ _ H _ _ Hin Hw') as [?|[_ ?]]; [lia|done]. }
  split.
  - split; [done..|]. intros i Hi. split; try done. cbn. by intros T w [[= -> _ _]|?]%elem_of_cons.
  - eapply logged_own; [exact Hg|exact H|]. destruct H. split; try done.
    cbn. intros T w [[= -> ->]|Hin]%elem_of_cons Hw; [by right|auto].
Qed.

Lemma observe_linv g c j n n' :
  LInv g c -> c_nodes c !! j = Some n -> moved V j g n n' -> exists g', grows g g' /\ LInv g' (observe j n' c).
Proof.
  intros HL Hn (g1 & F1 & D1 & Hx1 & H1 & Hm1). destruct (li_node _ _ HL j n Hn) as [_ Hm].
  destruct (logged_observe g1 j n' F1 D1 (ex_hist _ _ _ _ Hx1) H1) as [Hx2 H2]. set (g' := addVote _ _ _ _) in Hx2, H2.
  pose proof (extends_trans V j _ _ _ Hx1 Hx2) as Hx. exists g'. split; [apply Hx|]. split.
  - apply Hx.
  - cbn. intros v [->|Hv]%elem_of_cons; [by left|]. apply (gr_votes _ _ (ex_grows _ _ _ _ Hx)). by apply (li_votes _ _ HL).
  - intros m Hm'. eapply backedMsg_grows; [apply Hx|by apply (li_net _ _ HL)].
  - intros i ni. cbn. destruct (decide (i = j)) as [->|Hne].
    + rewrite lookup_insert_eq. intros [= <-]. split; [by exists F1, D1|].
      apply (matched_grows g1 g' n' n'); try done; [apply Hx2|by left|by apply Hm1].
    + rewrite lookup_insert_ne by done. intros Hi. destruct (li_node _ _ HL i ni Hi) as [(F & D & H) Hmi]. split.
      * exists F, D. eapply logged_grows; [apply HL|apply Hx|by apply Hx|done].
      * apply (matched_grows g g' ni ni); try done; [apply Hx|by left].
Qed.

Lemma runOp_linv {A} (op : MN St A) j c c' g :
  LInv g c -> runOp op j c = Some c' ->
  (forall n F D, c_nodes c !! j = Some n -> logged V g j n F D -> matched g n -> n_Term n < maxu64 ->
     wlp op (fun _ n' => moved V j g n n') n) ->
  exists g', grows g g' /\ LInv g' c'.
Proof.
  intros HL E Hop. unfold runOp in E. destruct (c_nodes c !! j) as [n|] eqn:Hn; [|done]. cbn in E.
  destruct (Z.ltb_spec (n_Term n) maxu64) as [Ht|]; [|done].
  destruct (op n) as [a n'|] eqn:Eop; [|done]. injection E as <-.
  destruct (li_node _ _ HL j n Hn) as [(F & D & H) Hm].
  eapply observe_linv; [done|done|]. exact (wlp_Done op _ n a n' (Hop n F D eq_refl H Hm Ht) Eop).
Qed.

Lemma room_len g c j n F D : room j c = true -> c_nodes c !! j = Some n -> logged V g j n F D -> len F < maxu64.
Proof.
  intros Hr Hn H. unfold room in Hr. rewrite Hn in Hr. apply Z.ltb_lt in Hr.
  pose proof (lg_top _ _ _ _ _ _ H) as Ht. unfold top in Ht. lia.
Qed.

Lemma net_linv g c j n :
  LInv g c -> c_nodes c !! j = Some n -> LInv g (c <| c_net := c_net c ++ n_outbound n |>).
Proof.
  intros HL Hn. pose proof HL as HL'. destruct HL'. split; try assumption. cbn.
  intros m [Hm|Hm]%elem_of_app; [by apply li_net0|].
  destruct (li_node0 j n Hn) as [(F & D & H) _]. by apply (lg_out _ _ _ _ _ _ H).
Qed.

Lemma polled_inv g c j n : Inv V c -> LInv g c -> c_nodes c !! j = Some n -> polled g n.
Proof.
  intros HI HL Hn Hst b Hb. destruct (i_node _ _ HI j n Hn) as (-> & _). apply (li_votes _ _ HL).
  apply (i_mask _ _ HI j n Hn); [congruence|done].
Qed.

Lemma restart_linv g c c' j n (r : outcome (Node St) Panic ()) :
  LInv g c -> c_nodes c !! j = Some n -> restart j r c = Some c' ->
  (forall n' F D, r = Done () n' -> logged V g j n F D -> exists F' D', logged V g j n' F' D' /\ n_State n' = Follower) ->
  exists g', grows g g' /\ LInv g' c'.
Proof.
  intros HL Hn E Hr. unfold restart in E. destruct r as [[] n'|]; [|done]. injection E as <-.
  destruct (li_node _ _ HL j n Hn) as [(F & D & H) _].
  destruct (Hr n' F D eq_refl H) as (F' & D' & H' & Hst).
  eapply observe_linv; [done|done|]. eapply moved_same; [apply HL|done|]. intros _. by apply matched_follower.
Qed.

Lemma deliver_linv g c c' k :
  is_u64 V -> Inv V c -> LInv g c -> execLog (ADeliver k) c = Some c' -> exists g', grows g g' /\ LInv g' c'.
Proof.
  intros Hu HI HL E. unfold execLog in E. cbn in E. destruct (c_net c !! k) as [m|] eqn:Em; [|done]. cbn in E.
  destruct (room (m_To m) c) eqn:Hroom; [|done]. destruct (Z.ltb_spec (m_Term m) maxu64) as [Hmt|]; [|done].
  apply list_elem_of_lookup_2 in Em. destruct (i_net _ _ HI m Em) as [Hst Hg].
  eapply runOp_linv; [done|exact E|]. intros n F D Hn H Hm Ht.
  destruct (i_node _ _ HI _ n Hn) as (_ & Hj & _).
  eapply Step_log; try done; [apply HL|by eapply polled_inv|by eapply room_len|by apply (li_net _ _ HL)|].
  intros Hgr. apply (li_votes _ _ HL). by destruct (Hg Hgr).
Qed.

Lemma exec_linv g a c c' :
  is_u64 V -> V <> 0 -> Inv V c -> LInv g c -> execLog a c = Some c' -> exists g', grows g g' /\ LInv g' c'.
Proof.
  intros Hu HV HI HL E. destruct a; [by eapply deliver_linv|..];
    unfold execLog in E; destruct (allowed _ c) eqn:Hal; try discriminate E; cbn in E, Hal.
  - eapply runOp_linv; [done|exact E|]. intros n F D Hn H Hm Ht. destruct (i_node _ _ HI _ n Hn) as (_ & Hj & _).
    eapply Tick_log; try done; [apply HL|by eapply room_len].
  - eapply runOp_linv; [done|exact E|]. intros n F D Hn H Hm Ht. eapply Propose_log; [apply HL|done|by eapply room_len].
  - eapply runOp_linv; [done|exact E|]. intros n F D Hn H Hm Ht. eapply ProposeRequest_log; [apply HL|done|by eapply room_len].
  - eapply runOp_linv; [done|exact E|]. intros n F D Hn H Hm Ht. eapply StartReadIndex_log; [apply HL|done].
  - eapply runOp_linv; [done|exact E|]. intros n F D Hn H Hm Ht. eapply TransferLeadership_log; [apply HL|done].
  - eapply runOp_linv; [done|exact E|]. intros n F D Hn H Hm Ht. unfold mayCompact in Hal. rewrite Hn in Hal.
    apply orb_prop in Hal as [Hf%negb_true_iff|Hi%bool_decide_eq_true_1].
    + eapply Compact_log; [apply HL|done..].
    + eapply Compact_lost; [apply HL|done..].
  - eapply runOp_linv; [done|exact E|]. intros n F D Hn H Hm Ht. eapply ApplyEntries_log; [apply HL|done].
  - destruct (c_nodes c !! j) as [n|] eqn:Hn; [|done]. cbn in E.
    eapply runOp_linv; [by eapply net_linv|exact E|]. intros n' F D Hn' H Hm Ht. eapply Drain_log; [apply HL|done].
  - destruct (c_nodes c !! j) as [n|] eqn:Hn; [|done]. cbn in E.
    destruct (NewNodeWithStore j peers timeout store) as [|f] eqn:Hf; [done|].
    destruct (mayRestart j n store log && _) eqn:Er; [|done].
    apply andb_prop in Er as [[Hd Hlog]%mayRestart_true Hv%Z.eqb_eq].
    apply andb_prop in Hal as [H1 H2%bool_decide_eq_true_1]. unfold sameImage in H1. rewrite Hn in H1.
    apply bool_decide_eq_true_1 in H1.
    eapply restart_linv; [done|done|exact E|]. intros n' F D Er H. by eapply NewRecoveredNode_log.
  - destruct (c_nodes c !! j) as [n|] eqn:Hn; [|done]. cbn in E.
    destruct (NewNodeWithStore j peers timeout store) as [|f] eqn:Hf; [done|].
    destruct (mayRestart j n store log && _ && _) eqn:Er; [|done].
    apply andb_prop in Er as [[[Hd Hlog]%mayRestart_true Hv%Z.eqb_eq]%andb_prop Hw%Z.eqb_eq].
    apply andb_prop in Hal as [H1 H2]. unfold sameImage in H1. rewrite Hn in H1.
    apply bool_decide_eq_true_1 in H1. unfold recoversSnapshot in H2.
    destruct (image store) as [[b [|x l]]|] eqn:Ei; try discriminate H2.
    apply andb_prop in H2 as [[->%Z.eqb_eq Hx%Z.eqb_eq]%andb_prop ->%bool_decide_eq_true_1].
    eapply restart_linv; [done|done|exact E|]. intros n' F D Er H.
    by eapply (NewRecoveredNodeWithSnapshot_log V g j n F D); [..|exact Er]; try rewrite Ei.
Qed.

Lemma initial_logged j peers timeout (store : St) :
  h_Term (durable store) = 0 -> h_VotedFor (durable store) = 0 -> h_Commit (durable store) = 0 ->
  (forall b l, image store = Some (b, l) -> b = 0 /\ l = [zeroEntry]) ->
  logged V emptyHistory j (freshNode j peers timeout store V) [zeroEntry] [zeroEntry].
Proof.
  intros Ht Hv Hc Hi. set (n := freshNode j peers timeout store V).
  assert (represents [zeroEntry] 0 [zeroEntry]) as Hr by (split; [done|cbn; lia|done|done|]; by intros [|i] ?; [lia|]).
  assert (okLog emptyHistory [zeroEntry]) as Hok.
  { split; [done|..].
    - intros [|i] [|i'] t t'; cbn; try done. by intros _ [= <-] [= <-].
    - intros [|i] e; cbn; [lia|done]. }
  assert (termsUpTo 0 [zeroEntry]) as Hts by (by intros [|i] t; [intros [= <-]|]).
  assert (kept emptyHistory j (0 + 1) 0 [zeroEntry]) as Hk by (intros t k (k' & _ & []%elem_of_nil)).
  assert (hardOf n = durable store) as Eh by done.
  split; rewrite ?Eh, ?Ht, ?Hv, ?Hc; try done.
  - apply sound_boot; try done. split; [done|by apply Forall_singleton|by left].
  - by left.
  - by left.
  - intros b l Hil. destruct (Hi b l Hil) as [-> ->]. split; [done|by left].
  - intros _. split; [done|]. intros b l Hil. by destruct (Hi b l Hil).
  - intros t k []%elem_of_nil.
  - intros T w []%elem_of_nil.
  - intros m []%elem_of_nil.
Qed.

Lemma initial_linv c : initialLog c -> LInv emptyHistory c.
Proof.
  intros [[Hn Hnet Hvt Hld] Hc Hi]. split.
  - apply Hist_empty.
  - rewrite Hvt. by intros v []%elem_of_nil.
  - rewrite Hnet. by intros m []%elem_of_nil.
  - intros j n E. destruct (Hn j n E) as (peers & timeout & store & Hnew & HV & Ht & Hv).
    specialize (Hc j n E). specialize (Hi j n). apply NewNodeWithStore_fields in Hnew. rewrite HV in Hnew. subst n.
    split; [|by apply matched_follower]. exists [zeroEntry], [zeroEntry]. apply initial_logged; try done.
    intros b l. by apply Hi.
Qed.

Lemma execLog_exec a c c' : execLog a c = Some c' -> exec V a c = Some c'.
Proof. unfold execLog. by destruct (allowed a c). Qed.

Lemma runLog_linv l g c c' :
  is_u64 V -> V <> 0 -> Inv V c -> LInv g c -> runLog l c = Some c' ->
  Inv V c' /\ exists g', grows g g' /\ LInv g' c'.
Proof.
  intros Hu HV. revert g c. induction l as [|a l IH]; intros g c HI HL E.
  { injection E as <-. split; [done|]. exists g. split; [apply grows_refl|done]. }
  rewrite runLog_cons in E. destruct (execLog a c) as [c1|] eqn:Ea; [|done]. cbn in E.
  destruct (exec_linv g a c c1 Hu HV HI HL Ea) as (g1 & Hg1 & HL1).
  destruct (IH g1 c1) as (HI' & g' & Hg' & HL'); [|done..|].
  - eapply exec_inv; [done|exact HI|by apply execLog_exec].
  - split; [done|]. exists g'. split; [by eapply grows_trans|done].
Qed.

(** ** What the nodes retain *)

(** Entry [e] is in the log of [n] at index [i], not covered by a snapshot. *)
Definition retains n (i : Z) (e : Entry) : Prop := n_BaseIndex n < i /\ EntryAt n i = Some e.

Lemma lg_EntryAt g j n F D i : logged V g j n F D -> n_BaseIndex n < i -> EntryAt n i = F !! Z.to_nat i.
Proof.
  intros H Hi. unfold EntryAt. destruct (offset n i) as [off|] eqn:E.
  - destruct (lg_offset V _ _ _ _ _ _ _ H E) as (_ & _ & _ & He). cbn. symmetry. by apply He.
  - rewrite offset_wf in E by by eapply lg_wf_log. case_decide as Hr; [done|]. cbn. symmetry.
    apply lookup_ge_None_2. pose proof (lg_top _ _ _ _ _ _ H) as Ht. unfold top, len in *. lia.
Qed.

Lemma retains_log g j n F D i e : logged V g j n F D -> retains n i e -> F !! Z.to_nat i = Some e.
Proof. intros H [Hi He]. by rewrite <- (lg_EntryAt _ _ _ _ _ _ H Hi). Qed.

(** ** Two moments of an execution *)

Section moments.
Hypotheses (Hu : is_u64 V) (HV : V <> 0).
Variables (c0 c1 c2 : cluster (S := St)) (l1 l2 : list (action (S := St))).
Hypotheses (H0 : initialLog c0) (H1 : runLog l1 c0 = Some c1) (H2 : runLog l2 c1 = Some c2).

Lemma moments :
  exists g1 g2, LInv g1 c1 /\ LInv g2 c2 /\ grows g1 g2 /\ Inv V c2.
Proof.
  destruct (runLog_linv l1 emptyHistory c0 c1 Hu HV) as (HI1 & g1 & _ & HL1);
    [by apply initial_inv, H0|by apply initial_linv|done|].
  destruct (runLog_linv l2 g1 c1 c2 Hu HV HI1 HL1 H2) as (HI2 & g2 & Hg & HL2). by exists g1, g2.
Qed.

(** What a node has committed at the first moment, as the second one sees it. *)
Lemma committed_then g1 g2 a na i e :
  LInv g1 c1 -> grows g1 g2 -> c_nodes c1 !! a = Some na -> retains na i e -> i <= n_Commit na ->
  exists F, okLog g2 F /\ F !! Z.to_nat i = Some e /\ (0 < Z.to_nat i)%nat /\ committed V g2 (n_Term na) (Z.to_nat i) F.
Proof.
  intros HL Hg Ha Hr Hc. destruct (li_node _ _ HL a na Ha) as [(F & D & H) _]. exists F. split_and!.
  - eapply okLog_grows; [done|apply H].
  - by eapply retains_log.
  - destruct Hr as [Hr _]. pose proof (rp_base _ _ _ (lg_mem _ _ _ _ _ _ H)). lia.
  - eapply committed_le; [eapply committed_grows; [done|reflexivity|apply H]|]. lia.
Qed.

Lemma leader_has a na b nb i e :
  c_nodes c1 !! a = Some na -> retains na i e -> i <= n_Commit na ->
  c_nodes c2 !! b = Some nb -> n_State nb = Leader -> n_Term na <= n_Term nb ->
  i <= lastIndex nb /\ (n_BaseIndex nb < i -> EntryAt nb i = Some e).
Proof.
  intros Ha Hr Hc Hb Hst HT. destruct moments as (g1 & g2 & HL1 & HL2 & Hg & _).
  destruct (committed_then g1 g2 a na i e HL1 Hg Ha Hr Hc) as (F & Hok & He & Hpos & Hcm).
  destruct (li_node _ _ HL2 b nb Hb) as [(Fb & Db & H) _]. destruct (lg_leader _ _ _ _ _ _ H Hst) as [HF _].
  assert (share (Z.to_nat i) F Fb) as Hs.
  { apply (committed_leader V g2 (n_Term nb)); [exact Hu|apply HL2|done|done|].
    eapply committed_grows; [apply grows_refl|exact HT|done]. }
  split.
  - rewrite (lg_last V _ _ _ _ _ H). destruct Hs as (_ & Hlt & _). unfold len. lia.
  - intros Hi. rewrite (lg_EntryAt _ _ _ _ _ _ H Hi), <- (share_lookup _ _ _ _ Hs); done.
Qed.

Lemma commits_agree a na b nb i ea eb :
  c_nodes c1 !! a = Some na -> retains na i ea -> i <= n_Commit na ->
  c_nodes c2 !! b = Some nb -> retains nb i eb -> i <= n_Commit nb -> ea = eb.
Proof.
  intros Ha Hra Hca Hb Hrb Hcb. destruct moments as (g1 & g2 & HL1 & HL2 & Hg & _).
  destruct (committed_then g1 g2 a na i ea HL1 Hg Ha Hra Hca) as (F & Hok & He & _ & Hcm).
  destruct (li_node _ _ HL2 b nb Hb) as [(Fb & Db & H) _].
  assert (committed V g2 (n_Term nb) (Z.to_nat i) Fb) as Hcm2 by (eapply committed_le; [apply H|lia]).
  pose proof (committed_agree V g2 _ _ _ _ F Fb Hu (li_hist _ _ HL2) Hok (lg_ok _ _ _ _ _ _ H) Hcm Hcm2) as Hs.
  rewrite Nat.min_id in Hs. apply (share_lookup _ (Z.to_nat i)) in Hs; [|done].
  rewrite He, (retains_log _ _ _ _ _ _ _ H Hrb) in Hs. congruence.
Qed.

End moments.

(** What a node has on disk of an entry it acknowledged. *)
Lemma disk_has g j n F0 D0 t k F i e b l :
  is_u64 V -> Hist V g -> logged V g j n F0 D0 -> acked g j t k -> chosen V g t k -> (i <= k)%nat ->
  contains g F t i -> F !! i = Some e -> image (n_store n) = Some (b, l) ->
  Z.of_nat i < b + len l /\ (b < Z.of_nat i -> l !! Z.to_nat (Z.of_nat i - b) = Some e).
Proof.
  intros Hu HH H Hack Hch Hik (gl & Hgl & Hsg) He Hi.
  pose proof (lg_acked V _ _ _ _ _ _ _ H Hack) as Htn.
  assert (n_Term n <= h_Term (hardOf n)) as Hh.
  { pose proof (so_ahead _ _ (lg_sound _ _ _ _ _ _ H)) as Hah. unfold ahead, hardOf in *. lia. }
  assert (contains g D0 t k) as (gl' & Hgl' & HsD).
  { destruct (lg_kept _ _ _ _ _ _ H t k Hack (proj1 Hch) ltac:(lia)) as [?|(u & Hu' & lu & lt & Hlu & Hlt & Hns)]; [done|].
    destruct (leader_completeness V g u lu t k Hu HH Hlu ltac:(lia) Hch) as (lt' & Hlt' & Hs'). congruence. }
  assert (gl' = gl) as -> by congruence.
  assert (share i D0 F) as Hs by (eapply share_trans; [by apply (share_le k)|by apply share_sym]).
  destruct (lg_image _ _ _ _ _ _ H b l Hi) as [Hrp _]. pose proof (rp_len _ _ _ Hrp) as Hl. pose proof (rp_base _ _ _ Hrp).
  split.
  - destruct Hs as (Hlt & _). unfold len. lia.
  - intros Hbi. rewrite <- (rp_lookup _ _ _ _ Hrp Hbi), <- He, Nat2Z.id. by apply (share_lookup i).
Qed.

(** ** The theorems *)

(** C5 Log matching.  In every reachable state, if the logs of two nodes have
    entries of the same term at the same index, then they have the same entries
    at that index and at every earlier one that both retain. *)
Theorem logs_match c0 l c a b na nb i ea eb :
  is_u64 V -> V <> 0 -> initialLog c0 -> runLog l c0 = Some c ->
  c_nodes c !! a = Some na -> c_nodes c !! b = Some nb ->
  retains na i ea -> retains nb i eb -> e_Term ea = e_Term eb ->
  forall k e, k <= i -> n_BaseIndex nb < k -> retains na k e -> retains nb k e.
Proof.
  intros Hu HV H0 Hrun Ha Hb Hea Heb Ht k e Hk Hbk Hek.
  destruct (moments Hu HV c0 c c l [] H0 Hrun eq_refl) as (g & _ & HL & _).
  destruct (li_node _ _ HL a na Ha) as [(Fa & Da & HA) _]. destruct (li_node _ _ HL b nb Hb) as [(Fb & Db & HB) _].
  assert (share (Z.to_nat i) Fa Fb) as Hs.
  { eapply (log_matching g _ _ _ (e_Term ea)); [apply HA|apply HB|..]; unfold termOf.
    - by rewrite (retains_log _ _ _ _ _ _ _ HA Hea).
    - by rewrite (retains_log _ _ _ _ _ _ _ HB Heb), Ht. }
  split; [done|]. rewrite (lg_EntryAt _ _ _ _ _ _ HB Hbk), <- (retains_log _ _ _ _ _ _ _ HA Hek).
  symmetry. eapply share_lookup; [exact Hs|]. lia.
Qed.

(** C3 Leader completeness.  An entry a node has committed at some moment is in
    the log of every node that leads later in the same or a later term, whatever
    happened in between, restarts included. *)
Theorem leaders_complete c0 c1 c2 l1 l2 a b na nb i e :
  is_u64 V -> V <> 0 -> initialLog c0 -> runLog l1 c0 = Some c1 -> runLog l2 c1 = Some c2 ->
  c_nodes c1 !! a = Some na -> retains na i e -> i <= n_Commit na ->
  c_nodes c2 !! b = Some nb -> n_State nb = Leader -> n_Term na <= n_Term nb ->
  i <= lastIndex nb /\ (n_BaseIndex nb < i -> retains nb i e).
Proof.
  intros Hu HV H0 H1 H2 Ha Hr Hc Hb Hst HT.
  destruct (leader_has Hu HV c0 c1 c2 l1 l2 H0 H1 H2 a na b nb i e Ha Hr Hc Hb Hst HT) as [Hl He].
  split; [done|]. intros Hi. split; auto.
Qed.

(** C1 State machine safety.  Whatever the network, the clients, storage
    failures and restarts do: if a node has committed an entry at an index at one
    moment, and a node, the same or another, has committed an entry at that index
    at the same or a later moment, it is the same entry. *)
Theorem state_machine_safety c0 c1 c2 l1 l2 a b na nb i ea eb :
  is_u64 V -> V <> 0 -> initialLog c0 -> runLog l1 c0 = Some c1 -> runLog l2 c1 = Some c2 ->
  c_nodes c1 !! a = Some na -> retains na i ea -> i <= n_Commit na ->
  c_nodes c2 !! b = Some nb -> retains nb i eb -> i <= n_Commit nb -> ea = eb.
Proof. intros Hu HV H0 H1 H2. by apply (commits_agree Hu HV c0 c1 c2 l1 l2). Qed.

(** C4 Durability of committed entries.  For an entry a node has committed at
    some moment there is a majority of the voters such that at that and every
    later moment the store of each node of it holds the entry, or a snapshot that
    covers it: so does every restart from it. *)
Theorem commit_durability c0 c1 l1 a na i e :
  is_u64 V -> V <> 0 -> initialLog c0 -> runLog l1 c0 = Some c1 ->
  c_nodes c1 !! a = Some na -> retains na i e -> i <= n_Commit na ->
  exists mask, majorityMask V mask = true /\ forall l2 c2 j n b l, runLog l2 c1 = Some c2 ->
    Z.testbit mask (j - 1) = true -> c_nodes c2 !! j = Some n -> image (n_store n) = Some (b, l) ->
    i < b + len l /\ (b < i -> l !! Z.to_nat (i - b) = Some e).
Proof.
  intros Hu HV H0 H1 Ha Hr Hc.
  destruct (runLog_linv l1 emptyHistory c0 c1 Hu HV) as (HI1 & g1 & _ & HL1);
    [by apply initial_inv, H0|by apply initial_linv|done|].
  destruct (committed_then c1 g1 g1 a na i e HL1 (grows_refl g1) Ha Hr Hc) as (F & _ & He & Hpos & Hcm).
  destruct Hcm as [?|(t & k & _ & Hik & Hch & Hcon)]; [lia|].
  pose proof Hch as (_ & mask & Hq & Hacks). exists mask. split; [exact Hq|].
  intros l2 c2 j n b l H2 Hbit Hn Hi. specialize (Hacks _ Hbit). replace (j - 1 + 1) with j in Hacks by lia.
  destruct (runLog_linv l2 g1 c1 c2 Hu HV HI1 HL1 H2) as (_ & g2 & Hg & HL2).
  destruct (li_node _ _ HL2 j n Hn) as [(Fj & D & H) _]. rewrite <- (Z2Nat.id i) by lia.
  eapply disk_has; [exact Hu|apply HL2|exact H|by eapply acked_grows|by eapply chosen_grows|exact Hik| |exact He|exact Hi].
  by eapply contains_grows.
Qed.

End safety.

(** ** A concrete execution

    Node 1 is elected in term 1 and commits a command at index 2 with node 2;
    node 2 restarts from its log and is elected in term 2 with the vote of
    node 3. *)

Module Demo.

Definition node (j : Z) (peers : list Z) : Node RaftWal.store := freshNode j peers 2 RaftWal.fresh 7.

Definition start : cluster (S := RaftWal.store) :=
  mkCluster (<[1 := node 1 [2; 3]]> (<[2 := node 2 [1; 3]]> {[3 := node 3 [1; 2]]})) [] [] [].

Definition noop : Entry := zeroEntry <| e_Term := 1 |> <| e_Kind := EntryNoop |>.
Definition command : Entry := zeroEntry <| e_Term := 1 |> <| e_Command := 9 |>.

Definition first : list (action (S := RaftWal.store)) :=
  [ATick 1; ATick 1; ADrain 1; ADeliver 0; ADrain 2; ADeliver 2; ADrain 1; ADeliver 3; ADrain 2;
   ADeliver 5; APropose 1 9; ADrain 1; ADeliver 6; ADrain 2; ADeliver 10; ADrain 1; ADeliver 11;
   ADrain 2; ADeliver 12; ADrain 1; ADeliver 13; ADrain 2; ADeliver 16].

Definition reopened : RaftWal.store :=
  RaftWal.runAll [RaftWal.ReqHard (mkHardState 1 1 1); RaftWal.ReqAppend 1 noop; RaftWal.ReqAppend 2 command]
    RaftWal.fresh.

Definition second : list (action (S := RaftWal.store)) :=
  [ARestart 2 [1; 3] 2 reopened [zeroEntry; noop; command]; ATick 2; ATick 2; ADrain 2; ADeliver 18;
   ADrain 3; ADeliver 19; ADrain 2; ADeliver 21; ADrain 3; ADeliver 22].

Lemma start_initial : initialLog 7 start.
Proof.
  assert (forall j n, c_nodes start !! j = Some n -> exists peers,
    n = node j peers /\ NewNodeWithStore j peers 2 RaftWal.fresh = inr (node j peers)) as Hn.
  { intros j n. unfold start. cbn [c_nodes].
    intros [[<- <-]|[_ [[<- <-]|[_ [<- <-]%lookup_singleton_Some]]%lookup_insert_Some]]%lookup_insert_Some;
      eexists; split; reflexivity. }
  split.
  - split; [|reflexivity..]. intros j n Hj. destruct (Hn j n Hj) as (peers & -> & Hnew).
    exists peers, 2, RaftWal.fresh. split; [exact Hnew|]. split; [reflexivity|]. split; reflexivity.
  - intros j n Hj. by destruct (Hn j n Hj) as (peers & -> & _).
  - intros j n b l Hj. destruct (Hn j n Hj) as (peers & -> & _). vm_compute. by intros [= <- <-].
Qed.

(** The two moments. *)
Definition view (j : Z) (c : cluster (S := RaftWal.store)) :=
  (fun n => (n_State n, n_Term n, n_Commit n, n_BaseIndex n, EntryAt n 1, EntryAt n 2)) <$> c_nodes c !! j.

Lemma first_views :
  view 1 <$> runLog 7 first start = Some (Some (Leader, 1, 2, 0, Some noop, Some command)).
Proof. vm_compute. reflexivity. Qed.

Lemma second_views :
  (fun c => (view 1 c, view 2 c)) <$> (runLog 7 first start ≫= runLog 7 second) =
  Some (Some (Leader, 1, 2, 0, Some noop, Some command), Some (Leader, 2, 1, 0, Some noop, Some command)).
Proof. vm_compute. reflexivity. Qed.

Definition moment1 (c1 : cluster (S := RaftWal.store)) (n1 : Node RaftWal.store) : Prop :=
  runLog 7 first start = Some c1 /\ c_nodes c1 !! 1 = Some n1 /\ n_Term n1 = 1 /\ n_Commit n1 = 2 /\
  retains n1 1 noop /\ retains n1 2 command.

Definition moment2 (c1 c2 : cluster (S := RaftWal.store)) (n1 n2 : Node RaftWal.store) : Prop :=
  runLog 7 second c1 = Some c2 /\ c_nodes c2 !! 1 = Some n1 /\ c_nodes c2 !! 2 = Some n2 /\
  n_State n2 = Leader /\ n_Term n2 = 2 /\ n_Commit n2 = 1 /\ n_BaseIndex n2 = 0 /\
  retains n1 1 noop /\ retains n1 2 command /\ retains n2 1 noop /\ retains n2 2 command.

Lemma demo_moments : exists c1 n1 c2 m1 m2, moment1 c1 n1 /\ moment2 c1 c2 m1 m2.
Proof.
  pose proof first_views as E1. pose proof second_views as E2. unfold view in *.
  destruct (runLog 7 first start) as [c1|] eqn:R1; [|discriminate E1].
  cbn [mbind option_bind fmap option_fmap option_map] in E1, E2.
  destruct (runLog 7 second c1) as [c2|] eqn:R2; [|discriminate E2].
  cbn [mbind option_bind fmap option_fmap option_map] in E2.
  destruct (c_nodes c1 !! 1) as [n1|] eqn:N1; [|discriminate E1].
  destruct (c_nodes c2 !! 1) as [m1|] eqn:M1; [|discriminate E2].
  destruct (c_nodes c2 !! 2) as [m2|] eqn:M2; [|discriminate E2].
  injection E1 as _ Ht1 Hc1 Hb1 Ha1 Ha2. injection E2 as _ _ _ Hb2 He1 He2 Hs2 Ht2 Hc2 Hb3 Hf1 Hf2.
  exists c1, n1, c2, m1, m2. unfold moment1, moment2, retains. rewrite Hb1, Hb2, Hb3. by split_and!.
Qed.

Lemma seven_u64 : is_u64 7.
Proof. unfold is_u64. lia. Qed.

Lemma run_both c1 c2 : runLog 7 first start = Some c1 -> runLog 7 second c1 = Some c2 ->
  runLog 7 (first ++ second) start = Some c2.
Proof. intros H1 H2. rewrite runLog_app, H1. exact H2. Qed.

Lemma logs_match_witness : exists c1 n1 c2 m1 m2, moment1 c1 n1 /\ moment2 c1 c2 m1 m2 /\ retains m2 1 noop.
Proof.
  destruct demo_moments as (c1 & n1 & c2 & m1 & m2 & HM1 & HM2). exists c1, n1, c2, m1, m2.
  split; [exact HM1|]. split; [exact HM2|]. destruct HM1 as (R1 & _).
  destruct HM2 as (R2 & N1 & N2 & _ & _ & _ & Hb & E1 & E2 & _ & F2).
  refine (logs_match 7 start (first ++ second) c2 1 2 m1 m2 2 command command seven_u64 _ start_initial
    (run_both c1 c2 R1 R2) N1 N2 E2 F2 eq_refl 1 noop _ _ E1); [discriminate|discriminate|].
  rewrite Hb. reflexivity.
Defined.

Lemma leaders_complete_witness :
  exists c1 n1 c2 m1 m2, moment1 c1 n1 /\ moment2 c1 c2 m1 m2 /\ 2 <= lastIndex m2 /\ retains m2 2 command.
Proof.
  destruct demo_moments as (c1 & n1 & c2 & m1 & m2 & HM1 & HM2). exists c1, n1, c2, m1, m2.
  split; [exact HM1|]. split; [exact HM2|]. destruct HM1 as (R1 & N1 & T1 & C1 & _ & E1).
  destruct HM2 as (R2 & _ & N2 & L2 & T2 & _ & Hb & _).
  destruct (leaders_complete 7 start c1 c2 first second 1 2 n1 m2 2 command seven_u64 ltac:(discriminate)
    start_initial R1 R2 N1 E1) as [H1 H2]; [lia|exact N2|exact L2|lia|].
  split; [exact H1|]. apply H2. lia.
Defined.

Lemma state_machine_safety_witness :
  exists c1 n1 c2 m1 m2 e, moment1 c1 n1 /\ moment2 c1 c2 m1 m2 /\ retains m2 1 e /\ noop = e.
Proof.
  destruct demo_moments as (c1 & n1 & c2 & m1 & m2 & HM1 & HM2). exists c1, n1, c2, m1, m2, noop.
  split; [exact HM1|]. split; [exact HM2|]. destruct HM1 as (R1 & N1 & T1 & C1 & E1 & _).
  destruct HM2 as (R2 & _ & N2 & _ & _ & C2 & _ & _ & _ & F1 & _). split; [exact F1|].
  apply (state_machine_safety 7 start c1 c2 first second 1 2 n1 m2 1 noop noop seven_u64 ltac:(discriminate)
    start_initial R1 R2 N1 E1); [lia|exact N2|exact F1|lia].
Defined.

Lemma commit_durability_witness :
  exists c1 n1, moment1 c1 n1 /\
    exists mask, majorityMask 7 mask = true /\ forall l2 c2 j n b l, runLog 7 l2 c1 = Some c2 ->
      Z.testbit mask (j - 1) = true -> c_nodes c2 !! j = Some n -> image (n_store n) = Some (b, l) ->
      2 < b + len l /\ (b < 2 -> l !! Z.to_nat (2 - b) = Some command).
Proof.
  destruct demo_moments as (c1 & n1 & c2 & m1 & m2 & HM1 & _). exists c1, n1. split; [exact HM1|].
  destruct HM1 as (R1 & N1 & T1 & C1 & _ & E1).
  apply (commit_durability 7 start c1 first 1 n1 2 command seven_u64 ltac:(discriminate) start_initial R1 N1 E1). lia.
Defined.

End Demo.
