(* ===== verification/FaultDisk.v ===== *)
(** * Deterministic storage corruption

    [storage/faultdisk/device.go]: a device whose [Crash] flips a bit, copies one
    record over another, or serves the bytes of before the last [Sync].  Results:
    the device keeps the contract of the log, and recovery refuses every medium
    with a flipped bit or a misdirected record, while a phantom read passes as an
    older log. *)

From S2P Require Import Prelude Bytes Wal.

Module FaultDisk.

Definition OneMillion : Z := 1000000.

Record Config := mkConfig {
  Seed : Z;
  BitFlipPerMillion : Z;
  MisdirectPerMillion : Z;
  PhantomReadPerMillion : Z
}.

Inductive FaultKind := FaultBitFlip | FaultMisdirect | FaultPhantom.

#[global] Instance FaultKind_eq_dec : EqDecision FaultKind.
Proof. solve_decision. Defined.

Record Fault := mkFault { Kind : FaultKind; Source : Z; Target : Z; Offset : Z }.

#[global] Instance Fault_eq_dec : EqDecision Fault.
Proof. solve_decision. Defined.

Definition ErrProbability : error := "faultdisk: probability outside 0..1000000".
Definition ErrTruncate : error := "faultdisk: invalid truncate".

(** The device, without its lock.  [drawn] counts the draws from the generator;
    [previous] is [None] for a nil slice. *)
Record Device := mkDevice {
  config : Config;
  drawn : nat;
  durable : bytes;
  previous : option bytes;
  pending : bytes;
  faults : list Fault
}.

#[global] Instance eta_Device : Eta Device := fun d =>
  mkDevice (config d) (drawn d) (durable d) (previous d) (pending d) (faults d).

Definition badRate (r : Z) : bool := (r <? 0) || (OneMillion <? r).

Definition New (c : Config) : error + Device :=
  if existsb badRate [BitFlipPerMillion c; MisdirectPerMillion c; PhantomReadPerMillion c]
  then inl ErrProbability else inr (mkDevice c 0 [] None [] []).

Definition Append (data : bytes) (d : Device) : Device * option error :=
  (d <| pending := pending d ++ data |>, None).

(** [append(d.previous[:0], d.durable...)] stays nil while both are empty. *)
Definition Sync (d : Device) : Device * option error :=
  let prev := match previous d, durable d with None, [] => None | _, bs => Some bs end in
  (d <| previous := prev |> <| durable := durable d ++ pending d |> <| pending := [] |>, None).

Definition DurableBytes (d : Device) : Device * bytes := (d, durable d).

Definition TruncateDurable (size : Z) (d : Device) : Device * option error :=
  if (size <? 0) || (len (durable d) <? size) then (d, Some ErrTruncate)
  else (d <| durable := take (Z.to_nat size) (durable d) |>, None).

Definition Faults (d : Device) : list Fault := faults d.

#[global] Instance device : Wal.Device Device := {
  dev_Append := Append;
  dev_Sync := Sync;
  Wal.DurableBytes := DurableBytes;
  Wal.TruncateDurable := TruncateDurable
}.

#[global] Instance spec : DeviceSpec Device.
Proof.
  refine {| usable := fun _ => True; stable := durable; staged := pending |}; cbn.
  - by intros p d d' _ [= <-].
  - by intros d d' _ [= <-].
  - by intros d d' bs _ Hp [= <- <-].
  - intros n d d' _ Hp. unfold TruncateDurable.
    destruct (Z.ltb_spec n 0), (Z.ltb_spec (len (durable d)) n); try done.
    intros [= <-]. cbn. split; [done|]. split; [lia|done].
Defined.

(** ** Crash *)

Section crash.

(** [rand.Rand.Intn]: the generator seeded with [seed], at its [k]-th draw. *)
Variable intn : Z -> nat -> Z -> Z.

Definition draw (c : Config) (n : Z) (k : nat) : Z * nat := (intn (Seed c) k n, S k).

Definition hit (c : Config) (rate : Z) (k : nat) : bool * nat :=
  if rate =? OneMillion then (true, k)
  else if rate =? 0 then (false, k)
  else let (x, k) := draw c OneMillion k in (x <? rate, k).

(** [image[offset] ^= 1 << bit]. *)
Definition flip (image : bytes) (offset bit : Z) : bytes :=
  let o := Z.to_nat offset in
  <[o := Z.lxor (nth o image 0) (w8 (Z.shiftl 1 bit))]> image.

(** [copy(image[target*RecordSize:...], image[source*RecordSize:...])]. *)
Definition misdirect (image : bytes) (source target : nat) : bytes :=
  put (target * RecordSize) (sub (source * RecordSize) ((source + 1) * RecordSize) image) image.

Definition flipFault (c : Config) (image : bytes) (k : nat) : bytes * list Fault * nat :=
  let (h, k) := hit c (BitFlipPerMillion c) k in
  if h && negb (len image =? 0) then
    let (offset, k) := draw c (len image) k in
    let (bit, k) := draw c 8 k in
    (flip image offset bit, [mkFault FaultBitFlip 0 0 offset], k)
  else (image, [], k).

Definition misdirectFault (c : Config) (image : bytes) (k : nat) : bytes * list Fault * nat :=
  let records := (length image / RecordSize)%nat in
  let (h, k) := hit c (MisdirectPerMillion c) k in
  if h && (2 <=? records)%nat then
    let (source, k) := draw c (Z.of_nat records) k in
    let (target, k) := draw c (Z.of_nat records - 1) k in
    let target := if source <=? target then target + 1 else target in
    (misdirect image (Z.to_nat source) (Z.to_nat target), [mkFault FaultMisdirect source target 0], k)
  else (image, [], k).

Definition phantomFault (c : Config) (previous : option bytes) (image : bytes) (k : nat) :
    bytes * list Fault * nat :=
  let (h, k) := hit c (PhantomReadPerMillion c) k in
  match previous with
  | Some old => if h then (old, [mkFault FaultPhantom 0 0 0], k) else (image, [], k)
  | None => (image, [], k)
  end.

Definition Crash (d : Device) : error + Device :=
  let c := config d in
  let '(image, f1, k) := flipFault c (durable d) (drawn d) in
  let '(image, f2, k) := misdirectFault c image k in
  let '(image, f3, k) := phantomFault c (previous d) image k in
  match New c with
  | inl e => inl e
  | inr rebooted => inr (rebooted <| durable := image |> <| faults := f1 ++ f2 ++ f3 |>)
  end.

End crash.

(** ** Slots

    A medium as a list of record-sized slots. *)

Definition aligned (sl : list bytes) : Prop := Forall (fun x => length x = RecordSize) sl.

Definition slots (es : list Storage.Entry) : list bytes := encoded <$> records es.

Lemma slots_aligned es : aligned (slots es).
Proof. apply Forall_fmap, Forall_forall. intros r _. apply length_encoded. Qed.

Lemma length_slots es : length (slots es) = length es.
Proof. unfold slots. by rewrite length_fmap, length_recordsFrom. Qed.

Lemma length_aligned sl : aligned sl -> length (concat sl) = (length sl * RecordSize)%nat.
Proof. induction 1 as [|x sl Hx Hsl IH]; [done|]. cbn [concat length]. rewrite length_app, IH, Hx. lia. Qed.

Lemma lookup_slots es q x :
  slots es !! q = Some x -> exists e, es !! q = Some e /\ x = encoded (mkRecord (Z.of_nat q + 1) e).
Proof.
  unfold slots, recordsFrom. rewrite list_lookup_fmap, list_lookup_imap.
  destruct (es !! q) as [e|]; [|done]. intros [= <-]. by exists e.
Qed.

(** A slot that does not hold the record of its position. *)
Definition bad (q : nat) (x : bytes) : Prop :=
  length x = RecordSize /\ forall r, Decode x = inr r -> r_Sequence r <> Z.of_nat q + 1.

Lemma recover_bad_slot sl :
  forall q x k P acc todo, aligned sl -> length P = (k * RecordSize)%nat -> sl !! q = Some x -> bad (k + q) x ->
  Z.of_nat (k + length sl) < 2 ^ 64 ->
  exists n e, recoverLoop (P ++ concat sl) (length sl + todo) k acc = ([], n, Some e).
Proof.
  induction sl as [|y sl IH]; intros q x k P acc todo Hal HP Hq Hbad Hlen; [done|].
  apply Forall_cons in Hal as [Hy Hal]. cbn [concat length Nat.add recoverLoop] in *.
  rewrite (sub_record k P y (concat sl)) by done.
  destruct (Decode y) as [e|r] eqn:HD; [by do 2 eexists|].
  destruct (Z.eqb_spec (r_Sequence r) (w64 (Z.of_nat (k + 1)))) as [Hseq|]; cbn [negb]; [|by do 2 eexists].
  destruct q as [|q]; cbn in Hq.
  - injection Hq as ->. destruct (proj2 Hbad r HD). rewrite Hseq. unfold w64. rewrite Z.mod_small by lia. lia.
  - rewrite (app_assoc P y). apply (IH q x); [done| |done|by rewrite Nat.add_succ_r in Hbad|lia].
    rewrite length_app, HP, Hy. lia.
Qed.

Lemma Recover_slots sl q x :
  aligned sl -> sl !! q = Some x -> bad q x -> Z.of_nat (length sl) < 2 ^ 64 ->
  exists n e, Recover (concat sl) = ([], n, Some e).
Proof.
  intros Hal Hq Hbad Hlen. unfold Recover. rewrite length_aligned, Nat.div_mul by done.
  destruct (recover_bad_slot sl q x 0 [] [] 0 Hal eq_refl Hq Hbad Hlen) as (n & e & H).
  rewrite Nat.add_0_r in H. by exists n, e.
Qed.

(** Where a byte and where a slot of the medium are. *)
Lemma concat_split (sl : list bytes) (q : nat) x :
  sl !! q = Some x -> concat sl = concat (take q sl) ++ x ++ concat (drop (S q) sl).
Proof. intros Hq. rewrite <- (take_drop_middle sl q x Hq) at 1. by rewrite concat_app. Qed.

Lemma concat_insert (sl : list bytes) (q : nat) x y :
  sl !! q = Some x -> concat (<[q := y]> sl) = concat (take q sl) ++ y ++ concat (drop (S q) sl).
Proof.
  intros Hq. pose proof (lookup_lt_Some _ _ _ Hq).
  rewrite insert_take_drop by done. by rewrite concat_app.
Qed.

Lemma length_prefix (sl : list bytes) q : aligned sl -> (q <= length sl)%nat -> length (concat (take q sl)) = (q * RecordSize)%nat.
Proof. intros Hal Hq. rewrite length_aligned by by apply Forall_take. by rewrite length_take, Nat.min_l. Qed.

Lemma insert_slot (sl : list bytes) (i : nat) b x :
  aligned sl -> sl !! (i / RecordSize)%nat = Some x ->
  <[i := b]> (concat sl) = concat (<[(i / RecordSize)%nat := <[(i mod RecordSize)%nat := b]> x]> sl).
Proof.
  intros Hal Hq. set (q := (i / RecordSize)%nat) in *. pose proof (lookup_lt_Some _ _ _ Hq).
  assert (length x = RecordSize) as Hx by (by eapply (Forall_lookup_1 (fun x => length x = RecordSize))).
  assert (RecordSize <> 0)%nat as Hz by done.
  pose proof (Nat.div_mod i RecordSize Hz) as Hi. pose proof (Nat.mod_upper_bound i RecordSize Hz). fold q in Hi.
  rewrite (concat_insert sl q x), (concat_split sl q x) by done.
  rewrite insert_middle; rewrite length_prefix by (done || lia); [|lia]. do 3 f_equal. lia.
Qed.

Lemma misdirect_slots (sl : list bytes) (s t : nat) x :
  aligned sl -> sl !! s = Some x -> (t < length sl)%nat ->
  misdirect (concat sl) s t = concat (<[t := x]> sl).
Proof.
  intros Hal Hs Ht. pose proof (lookup_lt_Some _ _ _ Hs).
  assert (length x = RecordSize) as Hx by (by eapply (Forall_lookup_1 (fun x => length x = RecordSize))).
  destruct (lookup_lt_is_Some_2 sl t Ht) as [y Hy].
  assert (length y = RecordSize) as Hy' by (by eapply (Forall_lookup_1 (fun x => length x = RecordSize))).
  unfold misdirect. rewrite (concat_split sl s x) at 1 by done.
  rewrite (sub_record s (concat (take s sl)) x) by (done || (apply length_prefix; [done|lia])).
  rewrite (concat_insert sl t y), (concat_split sl t y) by done.
  unfold put. rewrite take_app_ge, length_prefix, Nat.sub_diag, app_nil_r by (rewrite ?length_prefix; done || lia).
  do 2 f_equal. rewrite (app_assoc (concat (take t sl))), drop_app_ge by (rewrite length_app, length_prefix by (done || lia); lia).
  rewrite length_app, length_prefix by (done || lia). by rewrite Hx, Hy', Nat.sub_diag.
Qed.

Lemma flip_byte b bit : byte b -> 0 <= bit < 8 ->
  byte (Z.lxor b (w8 (Z.shiftl 1 bit))) /\ Z.lxor b (w8 (Z.shiftl 1 bit)) <> b.
Proof.
  intros Hb Hbit. rewrite Z.shiftl_1_l. unfold w8.
  assert (0 < 2 ^ bit) by (apply Z.pow_pos_nonneg; lia).
  assert (2 ^ bit < 2 ^ 8) by (apply Z.pow_lt_mono_r; lia). rewrite Z.mod_small by lia.
  split.
  - assert (0 <= Z.lxor b (2 ^ bit)) by (apply Z.lxor_nonneg; unfold byte in *; lia). split; [done|].
    change 256 with (2 ^ 8). destruct (Z.eq_dec (Z.lxor b (2 ^ bit)) 0) as [->|]; [lia|].
    apply Z.log2_lt_pow2; [lia|]. eapply Z.le_lt_trans; [apply Z.log2_lxor; unfold byte in *; lia|].
    apply Z.max_lub_lt; [|rewrite Z.log2_pow2; lia].
    destruct (Z.eq_dec b 0) as [->|]; [cbn; lia|]. apply Z.log2_lt_pow2; unfold byte in *; lia.
  - intros E. apply (f_equal (Z.lxor b)) in E.
    rewrite <- Z.lxor_assoc, Z.lxor_nilpotent, Z.lxor_0_l in E. lia.
Qed.

Lemma flip_slots es o bit :
  0 <= o < len (image es) -> 0 <= bit < 8 ->
  exists q x, flip (image es) o bit = concat (<[q := x]> (slots es)) /\ (q < length es)%nat /\
    length x = RecordSize /\ exists e, Decode x = inl e.
Proof.
  intros Ho Hbit. unfold len in Ho. unfold flip. set (i := Z.to_nat o).
  assert (i < length (image es))%nat as Hi by lia. rewrite length_imageFrom in Hi.
  assert (RecordSize <> 0)%nat as Hz by done. pose proof (Nat.mod_upper_bound i RecordSize Hz) as Hm.
  pose proof (Nat.div_mod i RecordSize Hz) as Hdm.
  assert (i / RecordSize < length es)%nat as Hq by (apply Nat.div_lt_upper_bound; lia).
  destruct (lookup_lt_is_Some_2 (slots es) (i / RecordSize)) as [x Hx]; [by rewrite length_slots|].
  assert (image es = concat (slots es)) as Him by done.
  destruct (lookup_slots es _ x Hx) as (e & He & ->). set (r := mkRecord _ e) in *.
  destruct (lookup_lt_is_Some_2 (encoded r) (i mod RecordSize)) as [b Hb]; [by rewrite length_encoded|].
  assert (image es !! i = Some b) as Hbi.
  { rewrite (image_split es _ e He), lookup_app_r, lookup_app_l; rewrite length_imageFrom, length_take, Nat.min_l by lia.
    - by replace (i - i / RecordSize * RecordSize)%nat with (i mod RecordSize)%nat by lia.
    - rewrite length_encoded. lia.
    - lia. }
  assert (byte b) as Hby by (eapply Forall_lookup_1; [apply encoded_bytes|exact Hb]).
  rewrite (nth_lookup_Some _ _ _ _ Hbi). destruct (flip_byte b bit Hby Hbit) as [Hb' Hne].
  exists (i / RecordSize)%nat, (<[(i mod RecordSize)%nat := Z.lxor b (w8 (Z.shiftl 1 bit))]> (encoded r)).
  split; [by rewrite Him, (insert_slot _ _ _ _ (slots_aligned es) Hx)|].
  split; [done|]. split; [by rewrite length_insert, length_encoded|].
  apply Decode_changed; [done|done|]. rewrite Hb. congruence.
Qed.

Section detect.
Variable intn : Z -> nat -> Z -> Z.
(** The documented range of [Intn]. *)
Hypothesis intn_range : forall seed k n, 0 < n -> 0 <= intn seed k n < n.

(** The media the two corrupting faults produce: the slots of the log, at most
    one of them with undecodable contents. *)
Definition damaged (es : list Storage.Entry) (f : list Fault) (im : bytes) : Prop :=
  f = [] /\ im = concat (slots es) \/
  f <> [] /\ exists q x, im = concat (<[q := x]> (slots es)) /\ (q < length es)%nat /\
    length x = RecordSize /\ exists e, Decode x = inl e.

Lemma flipFault_damaged c es k im f k' :
  flipFault intn c (image es) k = (im, f, k') -> damaged es f im.
Proof.
  unfold flipFault. destruct (hit _ _ _ _) as [h k1].
  destruct h; cbn [andb]; [|intros [= <- <- _]; by left].
  destruct (Z.eqb_spec (len (image es)) 0) as [|Hne]; cbn [negb]; [intros [= <- <- _]; by left|].
  cbn. intros [= <- <- _]. right. split; [done|]. apply flip_slots; apply intn_range; [|lia].
  unfold len in *. lia.
Qed.

Lemma bad_decode q x e : length x = RecordSize -> Decode x = inl e -> bad q x.
Proof. intros Hl HD. split; [done|]. intros r Hr. congruence. Qed.

Lemma bad_record q s e :
  s <> q -> is_u64 (Z.of_nat s + 1) -> Storage.wf e -> bad q (encoded (mkRecord (Z.of_nat s + 1) e)).
Proof.
  intros Hne Hs He. split; [apply length_encoded|]. intros r Hr. unfold encoded in Hr.
  rewrite (Decode_body (mkRecord (Z.of_nat s + 1) e) (conj Hs He)) in Hr. injection Hr as <-. cbn. lia.
Qed.

(** The last fault decides which slot recovery stumbles over. *)
Lemma damaged_recover es f im :
  fits es -> f <> [] -> damaged es f im -> exists n e, Recover im = ([], n, Some e).
Proof.
  intros [_ Hlen] Hf [[-> _]|(_ & q & x & -> & Hq & Hx & e & HD)]; [done|].
  apply (Recover_slots _ q x).
  - apply Forall_insert; [apply slots_aligned|done].
  - apply list_lookup_insert_eq. by rewrite length_slots.
  - by eapply bad_decode.
  - rewrite length_insert, length_slots. lia.
Qed.

Lemma misdirect_recover es f im s t :
  fits es -> damaged es f im -> (s < length es)%nat -> (t < length es)%nat -> s <> t ->
  exists n e, Recover (misdirect im s t) = ([], n, Some e).
Proof.
  intros [Hwf Hlen] Hd Hs Ht Hne.
  assert (exists sl, im = concat sl /\ aligned sl /\ length sl = length es /\
    forall x, sl !! s = Some x -> bad t x) as (sl & -> & Hal & Hl & Hbad).
  { assert (forall x, slots es !! s = Some x -> bad t x) as H0.
    { intros x Hx. destruct (lookup_slots es s x Hx) as (e & He & ->). apply bad_record; [done| |].
      - unfold is_u64. lia.
      - by eapply Forall_lookup_1. }
    destruct Hd as [[_ ->]|(_ & q & y & -> & Hq & Hy & e & HD)].
    - exists (slots es). split; [done|]. split; [apply slots_aligned|]. by rewrite length_slots.
    - exists (<[q := y]> (slots es)). split; [done|]. split; [apply Forall_insert; [apply slots_aligned|done]|].
      rewrite length_insert, length_slots. split; [done|]. intros x Hx.
      apply list_lookup_insert_Some in Hx as [(_ & <- & _)|[_ Hx]]; [by eapply bad_decode|by apply H0]. }
  destruct (lookup_lt_is_Some_2 sl s) as [x Hx]; [lia|].
  rewrite (misdirect_slots sl s t x) by (done || lia). apply (Recover_slots _ t x).
  - apply Forall_insert; [done|]. by eapply Hbad.
  - apply list_lookup_insert_eq. lia.
  - by apply Hbad.
  - rewrite length_insert. lia.
Qed.

Lemma misdirectFault_recover c es f im k im' f' k' :
  fits es -> damaged es f im -> misdirectFault intn c im k = (im', f', k') ->
  f' = [] /\ im' = im \/ f' <> [] /\ exists n e, Recover im' = ([], n, Some e).
Proof.
  intros Hf Hd. unfold misdirectFault. destruct (hit _ _ _ _) as [h k1].
  destruct h; cbn [andb]; [|intros [= <- <- _]; by left].
  assert (length im / RecordSize = length es)%nat as Hn.
  { assert (exists sl, im = concat sl /\ aligned sl /\ length sl = length es) as (sl & -> & Hal & <-).
    { destruct Hd as [[_ ->]|(_ & q & y & -> & _ & Hy & _)].
      - exists (slots es). split; [done|]. split; [apply slots_aligned|apply length_slots].
      - eexists. split; [done|]. rewrite length_insert, length_slots. split; [|done].
        apply Forall_insert; [apply slots_aligned|done]. }
    rewrite length_aligned by done. by apply Nat.div_mul. }
  rewrite Hn. destruct (Nat.leb_spec 2 (length es)) as [H2|]; [|intros [= <- <- _]; by left].
  cbn. intros [= <- <- _]. right. split; [done|].
  pose proof (intn_range (Seed c) k1 (Z.of_nat (length es)) ltac:(lia)) as Hs.
  pose proof (intn_range (Seed c) (S k1) (Z.of_nat (length es) - 1) ltac:(lia)) as Ht.
  eapply misdirect_recover; [done|exact Hd|lia| |];
    destruct (Z.leb_spec (intn (Seed c) k1 (Z.of_nat (length es))) (intn (Seed c) (S k1) (Z.of_nat (length es) - 1))); lia.
Qed.

End detect.

Lemma flipFault_kinds intn c im k im' f k' :
  flipFault intn c im k = (im', f, k') -> mkFault FaultPhantom 0 0 0 ∉ f.
Proof.
  unfold flipFault. destruct (hit _ _ _ _) as [h k1]. destruct (_ && _); cbn; intros [= _ <- _].
  - by intros H%list_elem_of_singleton.
  - apply not_elem_of_nil.
Qed.

Lemma misdirectFault_kinds intn c im k im' f k' :
  misdirectFault intn c im k = (im', f, k') -> mkFault FaultPhantom 0 0 0 ∉ f.
Proof.
  unfold misdirectFault. destruct (hit _ _ _ _) as [h k1]. destruct (_ && _); cbn; intros [= _ <- _].
  - by intros H%list_elem_of_singleton.
  - apply not_elem_of_nil.
Qed.

Lemma phantomFault_cases intn c prev im k im' f k' :
  phantomFault intn c prev im k = (im', f, k') ->
  f = [] /\ im' = im \/ f = [mkFault FaultPhantom 0 0 0] /\ prev = Some im'.
Proof.
  unfold phantomFault. destruct (hit _ _ _ _) as [h k1].
  destruct prev as [old|]; [destruct h|]; intros [= <- <- _]; auto.
Qed.

(** Corruption is detected.  Let the device hold the synced records of a log.
    After [Crash] without a phantom read, recovery of the rebooted medium returns
    exactly those records if no fault was injected, and fails, returning no
    record, if a bit was flipped or a record copied over another or both.  A
    phantom read serves the bytes of before the last sync and nothing else. *)
Theorem faultdisk_detects intn d d' es :
  (forall seed k n, 0 < n -> 0 <= intn seed k n < n) ->
  durable d = image es -> fits es -> Crash intn d = inr d' ->
  if decide (mkFault FaultPhantom 0 0 0 ∈ Faults d')
  then previous d = Some (durable d')
  else (Faults d' = [] /\ Recover (durable d') = (records es, (length es * RecordSize)%nat, None)) \/
       (Faults d' <> [] /\ exists n e, Recover (durable d') = ([], n, Some e)).
Proof.
  intros Hin Hd Hf. unfold Crash. rewrite Hd.
  destruct (flipFault intn (config d) (image es) (drawn d)) as [[im1 f1] k1] eqn:E1.
  pose proof (flipFault_kinds _ _ _ _ _ _ _ E1) as K1. apply (flipFault_damaged intn Hin) in E1.
  destruct (misdirectFault intn (config d) im1 k1) as [[im2 f2] k2] eqn:E2.
  pose proof (misdirectFault_kinds _ _ _ _ _ _ _ E2) as K2.
  apply (misdirectFault_recover intn Hin) with (es := es) (f := f1) in E2; [|done|done].
  destruct (phantomFault intn (config d) (previous d) im2 k2) as [[im3 f3] k3] eqn:E3.
  destruct (New (config d)) as [e|r]; [done|]. intros [= <-]. unfold Faults. cbn.
  apply phantomFault_cases in E3 as [[-> ->]|[-> Hp]].
  - rewrite app_nil_r. rewrite decide_False.
    2: { intros [H|H]%elem_of_app; [by apply K1 in H|by apply K2 in H]. }
    destruct E2 as [[-> ->]|[Hne HR]]; [|right; split; [by destruct f1|done]].
    rewrite app_nil_r. destruct (decide (f1 = [])) as [->|Hne].
    + left. split; [done|]. destruct E1 as [[_ ->]|[]]; [|done].
      rewrite <- (app_nil_r (concat _)). apply Recover_image; [done|]. cbn. unfold RecordSize. lia.
    + right. split; [done|]. by eapply damaged_recover.
  - rewrite decide_True by (rewrite !elem_of_app, list_elem_of_singleton; auto). done.
Qed.

Module Demo.

(** A generator whose every draw is zero. *)
Definition zeros : Z -> nat -> Z -> Z := fun _ _ _ => 0.

Definition disk : Device :=
  mkDevice (mkConfig 1 OneMillion OneMillion 0) 0 (image [WalDemo.e1; WalDemo.e2]) None [] [].

Lemma faultdisk_detects_witness :
  exists d' n e, Crash zeros disk = inr d' /\ length (Faults d') = 2%nat /\
    Recover (durable d') = ([], n, Some e).
Proof.
  destruct (Crash zeros disk) as [e|d'] eqn:E; [vm_compute in E; discriminate|].
  assert (length (Faults d') = 2%nat) as Hl by (vm_compute in E; injection E as <-; vm_compute; reflexivity).
  pose proof (faultdisk_detects zeros disk d' [WalDemo.e1; WalDemo.e2] ltac:(unfold zeros; lia) eq_refl
    WalDemo.demo_fits E) as H.
  rewrite decide_False in H.
  - destruct H as [[H _]|(_ & n & e & H)]; [rewrite H in Hl; discriminate|].
    exists d', n, e. split; [reflexivity|]. split; [exact Hl|exact H].
  - vm_compute in E. injection E as <-. vm_compute. intros X.
    repeat (apply elem_of_cons in X as [X|X]; [discriminate|]). by apply elem_of_nil in X.
Defined.

End Demo.
End FaultDisk.
