(* ===== verification/Devices.v ===== *)
(** * The devices of a running node

    [storage/wal/file_device.go]: the log in an ordinary file.
    [storage/uringwal/device_linux_amd64.go]: the log in aligned blocks, with the
    writer of [storage/uring/writer_linux_amd64.go].  Results: the file device
    keeps the contract of the log as long as reading the file back succeeds, and
    loses the whole log otherwise; what the block device made durable is what it
    reads back. *)

From S2P Require Import Prelude Bytes Wal.

(** ** storage/wal/file_device.go *)

Module FileDevice.

(** The system calls, by the place they are made from. *)
Inductive call := CWrite | CSync | CSyncRead | CRead | CStat | CTruncate | CSyncTruncate.

Definition reply : Type := option (error * nat).

Section device.

(** What the [n]-th call returns: an error, and how much of the data was written
    before it; or no error. *)
Variable env : nat -> call -> reply.

(** The file as the kernel shows it, and what is on the medium.  The position of
    the file is always its end: seeking there cannot fail on a regular file. *)
Record t := mk { contents : bytes; medium : bytes; calls : nat }.

Definition next (d : t) : t := mk (contents d) (medium d) (S (calls d)).

Definition Append (p : bytes) (d : t) : t * option error :=
  match env (calls d) CWrite with
  | None => (next (mk (contents d ++ p) (medium d) (calls d)), None)
  | Some (e, n) => (next (mk (contents d ++ take n p) (medium d) (calls d)), Some e)
  end.

(** [file.Sync] *)
Definition fsync (c : call) (d : t) : t * option error :=
  match env (calls d) c with
  | None => (next (mk (contents d) (contents d) (calls d)), None)
  | Some (e, _) => (next d, Some e)
  end.

Definition Sync : t -> t * option error := fsync CSync.

Definition DurableBytes (d : t) : t * bytes :=
  let (d, err) := fsync CSyncRead d in
  match err with
  | Some _ => (d, [])
  | None =>
      match env (calls d) CRead with
      | Some _ => (next d, [])
      | None => (next d, contents d)
      end
  end.

Definition TruncateDurable (size : Z) (d : t) : t * option error :=
  if size <? 0 then (d, Some ErrInvalidTear) else
  match env (calls d) CStat with
  | Some (e, _) => (next d, Some e)
  | None =>
      let d := next d in
      if len (contents d) <? size then (d, Some ErrInvalidTear) else
      match env (calls d) CTruncate with
      | Some (e, _) => (next d, Some e)
      | None => fsync CSyncTruncate (next (mk (take (Z.to_nat size) (contents d)) (medium d) (calls d)))
      end
  end.

#[export] Instance device : Device t := {
  dev_Append := Append;
  dev_Sync := Sync;
  Wal.DurableBytes := DurableBytes;
  Wal.TruncateDurable := TruncateDurable
}.

(** ** The contract of the log *)

Hypothesis reads_ok : forall n, env n CSyncRead = None /\ env n CRead = None.

Definition unsynced (d : t) : bytes := drop (length (medium d)) (contents d).

Lemma unsynced_eq d : medium d `prefix_of` contents d -> medium d ++ unsynced d = contents d.
Proof. intros [k Hk]. unfold unsynced. by rewrite Hk, drop_app_length. Qed.

#[export] Instance spec : DeviceSpec t.
Proof.
  refine {| usable := fun d => medium d `prefix_of` contents d; stable := medium; staged := unsynced |}; cbn.
  - intros p d d' [k Hk]. unfold Append. destruct (env _ _) as [[e n]|]; [done|]. intros [= <-]. cbn.
    split; [exists (k ++ p); by rewrite Hk, <- app_assoc|]. split; [done|]. unfold unsynced. cbn.
    by rewrite Hk, <- app_assoc, !drop_app_length.
  - intros d d' Hu. unfold Sync, fsync. destruct (env _ _) as [[e n]|]; [done|]. intros [= <-]. cbn.
    split; [done|]. split; [by rewrite unsynced_eq|]. unfold unsynced. cbn. apply drop_all.
  - intros d d' bs Hu Hs. unfold DurableBytes, fsync.
    rewrite (proj1 (reads_ok _)). rewrite (proj2 (reads_ok _)). intros [= <- <-]. cbn.
    pose proof (unsynced_eq d Hu) as E. rewrite Hs, app_nil_r in E. split; [done|]. split; [done|]. split; [done|].
    unfold unsynced. cbn. apply drop_all.
  - intros n d d' Hu Hs. unfold TruncateDurable, fsync. pose proof (unsynced_eq d Hu) as E. rewrite Hs, app_nil_r in E.
    destruct (Z.ltb_spec n 0); [done|]. destruct (env _ CStat) as [[e k]|]; [done|]. cbn.
    destruct (Z.ltb_spec (len (contents d)) n); [done|]. destruct (env _ CTruncate) as [[e k]|]; [done|]. cbn.
    destruct (env _ CSyncTruncate) as [[e k]|]; [done|]. intros [= <-]. cbn. rewrite E. split; [done|]. split; [lia|].
    split; [done|]. unfold unsynced. cbn. apply drop_all.
Defined.

(** After a power loss: the medium and some of what was not synced. *)
Definition crash (torn : nat) (d : t) : t :=
  let bs := medium d ++ take torn (unsynced d) in mk bs bs (calls d).

(** An error of [TruncateDurable] within the file comes from a system call. *)
Lemma truncate_error n d d' e :
  0 <= n <= len (contents d) -> TruncateDurable n d = (d', Some e) -> exists i c k, env i c = Some (e, k).
Proof.
  intros Hn. unfold TruncateDurable, fsync. destruct (Z.ltb_spec n 0); [lia|].
  destruct (env _ CStat) as [[e1 k]|] eqn:E1; [intros [= _ <-]; eauto|]. cbn.
  destruct (Z.ltb_spec (len (contents d)) n); [lia|].
  destruct (env _ CTruncate) as [[e2 k]|] eqn:E2; [intros [= _ <-]; eauto|]. cbn.
  destruct (env _ CSyncTruncate) as [[e3 k]|] eqn:E3; [intros [= _ <-]; eauto|]. done.
Qed.

(** C36 The log in a file survives a power loss.  Appending and syncing without an
    error makes every entry durable.  After a power loss that kept what was synced
    and any part of the rest, reopening the log yields a prefix of the appended
    entries with every synced one, or reports the error of a system call; provided
    that the file can be read back. *)
Theorem file_device_recovery (l : Log.t t) es k :
  holds l es k ->
  (forall entries l1 l2, fits (es ++ entries) -> Log.Append Background entries l = (l1, None) ->
     Log.Sync None l1 = (l2, None) -> holds l2 (es ++ entries) (length (es ++ entries))) /\
  forall torn,
    match Log.Open (crash torn (Log.device l)) with
    | Log.Opened l' rs => exists m, (k <= m <= length es)%nat /\ rs = records (take m es) /\ holds l' (take m es) m
    | Log.Failed _ _ e => exists i c n, env i c = Some (e, n)
    end.
Proof.
  intros Hl. split.
  - intros entries l1 l2 Hf HA HS. eapply sync_holds; [|exact HS]. by eapply append_holds.
  - intros torn. destruct Hl as [Hf Hle Hu Hst Hsg _ _]. cbn in Hu, Hst, Hsg.
    assert (take torn (unsynced (Log.device l)) =
      take (Nat.min torn (length (unsynced (Log.device l)))) (unsynced (Log.device l))) as Emin.
    { destruct (Nat.min_spec torn (length (unsynced (Log.device l)))) as [[_ ->]|[? ->]]; [done|].
      by rewrite !take_ge. }
    destruct (torn_image es k (Nat.min torn (length (unsynced (Log.device l)))) Hle) as (m & tail & Hm & Ht & E).
    { rewrite Hsg, length_imageFrom, length_drop. lia. }
    pose proof (open_holds (crash torn (Log.device l)) (take m es) tail) as H.
    assert (medium (crash torn (Log.device l)) = image (take m es) ++ tail) as Em.
    { cbn. by rewrite Emin, Hst, Hsg, <- E, Hsg. }
    specialize (H (reflexivity _) (fits_prefix _ _ Hf) Ht Em (drop_all _)).
    destruct (Log.Open _) as [l' rs|d' rs e].
    + destruct H as [-> H]. exists m. rewrite length_take, Nat.min_l in H by lia. done.
    + destruct H as (_ & d0 & Hu0 & Hs0 & Hst0 & HT). cbn in Hu0, Hs0, Hst0. eapply truncate_error; [|exact HT].
      pose proof (unsynced_eq d0 Hu0) as E0. rewrite Hs0, app_nil_r in E0. rewrite <- E0, Hst0.
      change (medium (crash torn (Log.device l)) = image (take m es) ++ tail) in Em. cbn in Em. rewrite Em.
      unfold len. rewrite length_app, length_imageFrom. lia.
Qed.

End device.

Module Demo.

Definition healthy (n : nat) (c : call) : reply := None.

Lemma healthy_reads n : healthy n CSyncRead = None /\ healthy n CRead = None.
Proof. done. Qed.

Definition empty : Log.t t := Log.newLog (mk [] [] 0) [].

(** One entry synced, one appended. *)
Definition written : Log.t t :=
  let l := (Log.Append (Device0 := device healthy) Background [WalDemo.e1] empty).1 in
  let l := (Log.Sync (Device0 := device healthy) None l).1 in
  (Log.Append (Device0 := device healthy) Background [WalDemo.e2] l).1.

Lemma file_device_recovery_witness :
  exists m l', (1 <= m <= 2)%nat /\
    Log.Open (Device0 := device healthy) (crash 50 (Log.device written)) = Log.Opened l' (records (take m [WalDemo.e1; WalDemo.e2])).
Proof.
  assert (holds (Device0 := device healthy) (DeviceSpec0 := spec healthy healthy_reads) written [WalDemo.e1; WalDemo.e2] 1) as Hl.
  { split; [exact WalDemo.demo_fits|apply le_S, le_n| | | | |].
    - eexists. vm_compute. reflexivity.
    - vm_compute. reflexivity.
    - vm_compute. reflexivity.
    - reflexivity.
    - vm_compute. reflexivity. }
  destruct (file_device_recovery healthy healthy_reads written [WalDemo.e1; WalDemo.e2] 1 Hl) as [_ H].
  specialize (H 50%nat). destruct (Log.Open _) as [l' rs|d' rs e].
  - destruct H as (m & Hm & -> & _). exists m, l'. split; [exact Hm|reflexivity].
  - destruct H as (i & c & n & H). discriminate H.
Defined.

(** The first attempt to read the file fails, and nothing else does. *)
Definition flaky (n : nat) (c : call) : reply :=
  match n, c with 1%nat, CRead => Some ("input/output error"%string, 0%nat) | _, _ => None end.

(** A read error erases the log.  [DurableBytes] answers an error with no bytes at
    all; so when the file cannot be read once, [Open] finds an empty log, and
    then truncates the file, whose length the second reading reports, to nothing.
    The node comes up without its term, its vote and its log. *)
Theorem file_device_amnesia :
  let d := mk (image [WalDemo.e1; WalDemo.e2]) (image [WalDemo.e1; WalDemo.e2]) 0 in
  exists l, Log.Open (Device0 := device flaky) d = Log.Opened l [] /\ medium (Log.device l) = [].
Proof. cbn zeta. eexists. split; [vm_compute; reflexivity|reflexivity]. Qed.

End Demo.
End FileDevice.

(** ** storage/uringwal/device_linux_amd64.go *)

Module UringDevice.

(** [uring.DefaultAlignment] *)
Definition BlockSize : nat := 4096.

Definition ErrAligned : error := "uringwal: pending length is not record-aligned".
Definition ErrBoundary : error := "uringwal: invalid truncate boundary".
Definition ErrTornBlock : error := "uringwal: physical file has torn block size".
Definition ErrPadding : error := "uringwal: non-zero padding in block".
Definition ErrPayload : error := "uring: payload exceeds block size".

Inductive call := CWriteFixed | CFsync | CTruncate.

(** A record at the start of a cleared block. *)
Definition padded (record : bytes) : bytes := record ++ replicate (BlockSize - length record) 0.

(** A write at an offset; a gap before it reads as zeros. *)
Definition writeAt (off : nat) (p file : bytes) : bytes :=
  take off (file ++ replicate (off - length file) 0) ++ p ++ drop (off + length p) file.

(** [readRecords] on the bytes of the file; [reads] is the error of each read. *)
Fixpoint readLoop (reads : nat -> option error) (file : bytes) (count index : nat) : error + bytes :=
  match count with
  | O => inr []
  | S count =>
      match reads index with
      | Some e => inl e
      | None =>
          let block := sub (index * BlockSize) (index * BlockSize + BlockSize) file in
          if negb (bool_decide (drop RecordSize block = replicate (BlockSize - RecordSize) 0)) then inl ErrPadding else
          match readLoop reads file count (S index) with
          | inl e => inl e
          | inr records => inr (take RecordSize block ++ records)
          end
      end
  end.

Definition readRecords (reads : nat -> option error) (file : bytes) : error + bytes :=
  if negb (length file mod BlockSize =? 0)%nat then inl ErrTornBlock
  else readLoop reads file (length file / BlockSize) 0.

Section device.

(** What the [n]-th call returns: an error, and how much of a block was written
    before it; or no error. *)
Variable env : nat -> call -> option (error * nat).

Record t := mk { file : bytes; durable : bytes; pending : bytes; calls : nat }.

(** [Open], the file having been read and opened for writing. *)
Definition Open (reads : nat -> option error) (f : bytes) : error + t :=
  match readRecords reads f with inl e => inl e | inr bs => inr (mk f bs [] 0) end.

Definition Append (data : bytes) (d : t) : t * option error :=
  (mk (file d) (durable d) (pending d ++ data) (calls d), None).

(** [DurableWriter.AppendDurable]: the block is written, then synced. *)
Definition AppendDurable (block : nat) (payload : bytes) (d : t) : t * option error :=
  if (BlockSize <? length payload)%nat then (d, Some ErrPayload) else
  match env (calls d) CWriteFixed with
  | Some (e, n) =>
      (mk (writeAt (block * BlockSize) (take n (padded payload)) (file d)) (durable d) (pending d) (S (calls d)), Some e)
  | None =>
      let d := mk (writeAt (block * BlockSize) (padded payload) (file d)) (durable d) (pending d) (S (calls d)) in
      match env (calls d) CFsync with
      | Some (e, _) => (mk (file d) (durable d) (pending d) (S (calls d)), Some e)
      | None => (mk (file d) (durable d) (pending d) (S (calls d)), None)
      end
  end.

(** The loop of [Sync]; every iteration takes one record off [pending]. *)
Fixpoint syncLoop (fuel : nat) (d : t) : t * option error :=
  match fuel with
  | O => (d, None)
  | S fuel =>
      match pending d with
      | [] => (d, None)
      | _ =>
          let record := take RecordSize (pending d) in
          let block := (length (durable d) / RecordSize)%nat in
          match AppendDurable block record d with
          | (d, Some e) => (d, Some e)
          | (d, None) =>
              syncLoop fuel (mk (file d) (durable d ++ record) (drop RecordSize (pending d)) (calls d))
          end
      end
  end.

Definition Sync (d : t) : t * option error :=
  if negb (length (pending d) mod RecordSize =? 0)%nat then (d, Some ErrAligned)
  else syncLoop (length (pending d)) d.

Definition DurableBytes (d : t) : t * bytes := (d, durable d).

Definition TruncateDurable (logicalSize : Z) (d : t) : t * option error :=
  if (logicalSize <? 0) || (len (durable d) <? logicalSize) || negb (logicalSize mod Z.of_nat RecordSize =? 0)
  then (d, Some ErrBoundary) else
  let n := Z.to_nat logicalSize in
  match env (calls d) CTruncate with
  | Some (e, _) => (mk (file d) (durable d) (pending d) (S (calls d)), Some e)
  | None =>
      (mk (take (n / RecordSize * BlockSize) (file d)) (take n (durable d)) (pending d) (S (calls d)), None)
  end.

#[export] Instance device : Device t := {
  dev_Append := Append;
  dev_Sync := Sync;
  Wal.DurableBytes := DurableBytes;
  Wal.TruncateDurable := TruncateDurable
}.

(** ** The layout of the file *)

Definition layout (rs : list bytes) : bytes := concat (padded <$> rs).

Definition whole (rs : list bytes) : Prop := Forall (fun r => length r = RecordSize) rs.

Lemma length_padded r : length r = RecordSize -> length (padded r) = BlockSize.
Proof. intros H. unfold padded. rewrite length_app, length_replicate, H. done. Qed.

Lemma length_blocks rs : whole rs -> length (layout rs) = (length rs * BlockSize)%nat.
Proof.
  induction 1 as [|r rs Hr Hrs IH]; [done|]. unfold layout in *. rewrite fmap_cons. cbn [concat].
  rewrite length_app, length_padded, IH by done. cbn [length]. lia.
Qed.

Lemma length_records rs : whole rs -> length (concat rs) = (length rs * RecordSize)%nat.
Proof.
  induction 1 as [|r rs Hr Hrs IH]; [done|]. cbn [concat]. rewrite length_app, Hr, IH. cbn [length]. lia.
Qed.

Lemma layout_snoc rs r : layout (rs ++ [r]) = layout rs ++ padded r.
Proof. unfold layout. rewrite fmap_app, concat_app. cbn. by rewrite app_nil_r. Qed.

Lemma writeAt_end rs r : whole rs -> writeAt (length rs * BlockSize) (padded r) (layout rs) = layout (rs ++ [r]).
Proof.
  intros Hw. unfold writeAt. rewrite <- length_blocks by done. rewrite Nat.sub_diag, app_nil_r, take_ge by done.
  rewrite drop_ge by lia. by rewrite app_nil_r, layout_snoc.
Qed.

Lemma readLoop_layout rs : forall pre,
  whole pre -> whole rs -> readLoop (fun _ => None) (layout (pre ++ rs)) (length rs) (length pre) = inr (concat rs).
Proof.
  induction rs as [|r rs IH]; intros pre Hp Hr; [done|]. apply Forall_cons in Hr as [Hr Hrs]. cbn [length readLoop].
  assert (sub (length pre * BlockSize) (length pre * BlockSize + BlockSize) (layout (pre ++ r :: rs)) = padded r) as ->.
  { unfold sub, layout. rewrite fmap_app, fmap_cons, concat_app. cbn [concat]. fold (layout pre) (layout rs).
    rewrite <- (length_blocks pre), drop_app_length by done.
    replace (length (layout pre) + BlockSize - length (layout pre))%nat with BlockSize by lia.
    rewrite <- (length_padded r Hr). apply take_app_length. }
  assert (drop RecordSize (padded r) = replicate (BlockSize - RecordSize) 0) as ->.
  { unfold padded. by rewrite drop_app_length', Hr. }
  rewrite bool_decide_true by done. cbn [negb].
  replace (S (length pre)) with (length (pre ++ [r])) by (rewrite length_app; cbn; lia).
  replace (pre ++ r :: rs) with ((pre ++ [r]) ++ rs) by by rewrite <- app_assoc.
  rewrite IH; [|apply Forall_app; split; [done|by apply Forall_singleton]|done].
  unfold padded. by rewrite take_app_length'.
Qed.

Lemma readRecords_layout rs : whole rs -> readRecords (fun _ => None) (layout rs) = inr (concat rs).
Proof.
  intros Hw. unfold readRecords. rewrite length_blocks, Nat.Div0.mod_mul, Nat.div_mul by done. cbn [Nat.eqb negb].
  exact (readLoop_layout rs [] (Forall_nil_2 _) Hw).
Qed.

(** ** The contract of the log *)

(** The file holds exactly the durable records, one to a block. *)
Definition aligned (d : t) : Prop := exists rs, whole rs /\ durable d = concat rs /\ file d = layout rs.

Lemma AppendDurable_ok rs record d d' :
  whole rs -> length record = RecordSize -> durable d = concat rs -> file d = layout rs ->
  AppendDurable (length (durable d) / RecordSize) record d = (d', None) ->
  file d' = layout (rs ++ [record]) /\ durable d' = durable d /\ pending d' = pending d.
Proof.
  intros Hw Hr Hd Hf. unfold AppendDurable. rewrite Hd, length_records, Nat.div_mul, Hf, writeAt_end, Hr by done.
  destruct (env _ CWriteFixed) as [[e n]|]; [done|]. cbn [calls].
  destruct (env _ CFsync) as [[e n]|]; [done|]. by intros [= <-].
Qed.

Lemma syncLoop_ok fuel : forall d d',
  aligned d -> (length (pending d) mod RecordSize = 0)%nat -> (length (pending d) <= fuel)%nat ->
  syncLoop fuel d = (d', None) -> aligned d' /\ durable d' = durable d ++ pending d /\ pending d' = [].
Proof.
  induction fuel as [|fuel IH]; intros d d' Ha Hm Hfuel; cbn [syncLoop].
  { intros [= <-]. destruct (pending d); [|cbn in Hfuel; lia]. by rewrite app_nil_r. }
  destruct (pending d) as [|b p] eqn:Ep; [intros [= <-]; by rewrite Ep, app_nil_r|]. rewrite <- Ep in *.
  assert (RecordSize <= length (pending d))%nat as Hge.
  { apply Nat.nlt_ge. intros Hlt. rewrite Nat.mod_small in Hm by done. by rewrite Ep in Hm. }
  destruct Ha as (rs & Hw & Hd & Hf).
  assert (length (take RecordSize (pending d)) = RecordSize) as Hr by (rewrite length_take; lia).
  destruct (AppendDurable _ _ d) as [d1 [e|]] eqn:EA; [done|].
  destruct (AppendDurable_ok rs _ _ _ Hw Hr Hd Hf EA) as (H1 & H2 & H3). intros HS.
  apply IH in HS as (H4 & H5 & H6); cbn [file durable pending].
  - cbn in H5. split; [done|]. split; [|done]. by rewrite H5, H2, H3, <- app_assoc, take_drop.
  - exists (rs ++ [take RecordSize (pending d)]). split; [apply Forall_app; split; [done|by apply Forall_singleton]|].
    cbn. rewrite H2, Hd, concat_app. cbn. by rewrite app_nil_r.
  - rewrite H3, length_drop. apply Nat.Lcm0.mod_divide in Hm as [q ->].
    rewrite <- (Nat.mul_1_l RecordSize) at 2. rewrite <- Nat.mul_sub_distr_r. apply Nat.Div0.mod_mul.
  - rewrite H3, length_drop. unfold RecordSize in *. lia.
Qed.

Lemma truncate_ok n d d' :
  aligned d -> TruncateDurable n d = (d', None) ->
  aligned d' /\ 0 <= n <= len (durable d) /\ durable d' = take (Z.to_nat n) (durable d) /\ pending d' = pending d.
Proof.
  intros (rs & Hw & Hd & Hf). unfold TruncateDurable. destruct (_ || _) eqn:Eg; [done|].
  apply orb_false_iff in Eg as [[E1 E2]%orb_false_iff E3%negb_false_iff]. apply Z.ltb_ge in E1, E2. apply Z.eqb_eq in E3.
  destruct (env _ _) as [[e k]|]; [done|]. intros [= <-]. cbn [durable file pending]. split; [|done].
  set (q := (Z.to_nat n / RecordSize)%nat). assert (Z.to_nat n = q * RecordSize)%nat as Hq.
  { unfold q. apply Z.mod_divide in E3 as [z Hz]; [|done]. unfold RecordSize in *.
    replace (Z.to_nat n) with (Z.to_nat z * 112)%nat by lia. by rewrite Nat.div_mul. }
  assert (q <= length rs)%nat as Hle.
  { unfold len in E2. rewrite Hd, length_records in E2 by done. unfold RecordSize in *. lia. }
  assert (whole (take q rs)) as Hwq by by apply Forall_take.
  exists (take q rs). split; [done|]. cbn [durable file]. rewrite Hd, Hf, Hq.
  pose proof (take_drop q rs) as E. split.
  - rewrite <- E at 1. rewrite concat_app, take_app_length'; [done|]. rewrite length_records, length_take, Nat.min_l by done. done.
  - rewrite <- E at 1. unfold layout at 1. rewrite fmap_app, concat_app. fold (layout (take q rs)).
    rewrite take_app_length'; [done|]. rewrite length_blocks, length_take, Nat.min_l by done.
    change (q * RecordSize / RecordSize * BlockSize = q * BlockSize)%nat. by rewrite Nat.div_mul.
Qed.

#[export] Instance spec : DeviceSpec t.
Proof.
  refine {| usable := aligned; stable := durable; staged := pending |}; cbn.
  - by intros p d d' Ha [= <-].
  - intros d d' Ha. unfold Sync. destruct (Nat.eqb_spec (length (pending d) mod RecordSize) 0); [|done]. cbn [negb].
    by apply syncLoop_ok.
  - by intros d d' bs Ha Hs [= <- <-].
  - intros n d d' Ha Hs HT. apply truncate_ok in HT as (H1 & H2 & H3 & H4); [|done]. by rewrite H4.
Defined.

(** The block device keeps the log.  A log over it holds its entries through
    every append and sync that returned without an error; and whatever was synced
    is read back from the file: opening the device and the log again, without a
    read error, yields exactly the synced entries. *)
Theorem uring_device_reopen (l : Log.t t) es k :
  holds l es k ->
  (forall entries l1 l2, fits (es ++ entries) -> Log.Append Background entries l = (l1, None) ->
     Log.Sync None l1 = (l2, None) -> holds l2 (es ++ entries) (length (es ++ entries))) /\
  exists d l', Open (fun _ => None) (file (Log.device l)) = inr d /\
    Log.Open d = Log.Opened l' (records (take k es)) /\ holds l' (take k es) k.
Proof.
  intros Hl. split.
  - intros entries l1 l2 Hf HA HS. eapply sync_holds; [|exact HS]. by eapply append_holds.
  - destruct Hl as [Hf Hle (rs & Hw & Hd & Hfl) Hst Hsg _ _]. cbn in Hst.
    set (d := mk (file (Log.device l)) (durable (Log.device l)) [] 0).
    assert (Open (fun _ => None) (file (Log.device l)) = inr d) as HO.
    { unfold Open. by rewrite Hfl, readRecords_layout, <- Hfl, <- Hd by done. }
    pose proof (open_holds d (take k es) []) as H.
    specialize (H ltac:(by exists rs) (fits_prefix _ _ Hf) ltac:(by unfold RecordSize; cbn; lia)
      ltac:(cbn; by rewrite app_nil_r) eq_refl). rewrite length_take, Nat.min_l in H by done.
    destruct (Log.Open d) as [l' rs'|d' rs' e] eqn:E.
    + destruct H as [-> H]. by exists d, l'.
    + by destruct H.
Qed.

(** A torn write is refused, not recovered.  When a write stops part of the way into
    a block, the file no longer ends on a block boundary and the device does not
    open again; the log never sees the tail it would cut off. *)
Theorem uring_torn_refused d record e n reads :
  aligned d -> length record = RecordSize -> (0 < n < BlockSize)%nat -> env (calls d) CWriteFixed = Some (e, n) ->
  Open reads (file (AppendDurable (length (durable d) / RecordSize) record d).1) = inl ErrTornBlock.
Proof.
  intros (rs & Hw & Hd & Hf) Hr Hn He. unfold AppendDurable. rewrite Hr, He, Hd, length_records, Nat.div_mul, Hf by done.
  change (BlockSize <? RecordSize)%nat with false. cbn [fst file]. unfold Open, readRecords, writeAt. rewrite <- length_blocks, Nat.sub_diag, app_nil_r, take_ge by done.
  rewrite drop_ge, app_nil_r, length_app, length_take, length_padded, length_blocks, Nat.min_l by (done || lia).
  rewrite Nat.add_comm, Nat.Div0.mod_add, Nat.mod_small by lia. destruct n; [lia|done].
Qed.

End device.

Module Demo.

Definition healthy (n : nat) (c : call) : option (error * nat) := None.

Definition empty : Log.t t := Log.newLog (mk [] [] [] 0) [].

(** One entry synced, one appended. *)
Definition written : Log.t t :=
  let l := (Log.Append (Device0 := device healthy) Background [WalDemo.e1] empty).1 in
  let l := (Log.Sync (Device0 := device healthy) None l).1 in
  (Log.Append (Device0 := device healthy) Background [WalDemo.e2] l).1.

Lemma uring_device_reopen_witness :
  exists d l', Open (fun _ => None) (file (Log.device written)) = inr d /\
    Log.Open (Device0 := device healthy) d = Log.Opened l' (records [WalDemo.e1]).
Proof.
  assert (holds (Device0 := device healthy) (DeviceSpec0 := spec healthy) written [WalDemo.e1; WalDemo.e2] 1) as Hl.
  { split; [exact WalDemo.demo_fits|apply le_S, le_n| | | | |].
    - exists [image [WalDemo.e1]]. split; [repeat constructor|vm_compute; split; reflexivity].
    - vm_compute. reflexivity.
    - vm_compute. reflexivity.
    - reflexivity.
    - vm_compute. reflexivity. }
  destruct (uring_device_reopen healthy written [WalDemo.e1; WalDemo.e2] 1 Hl) as [_ (d & l' & HO & HL & _)].
  exists d, l'. split; [exact HO|exact HL].
Defined.

End Demo.

End UringDevice.
