(* ===== verification/Uring.v ===== *)
(** * The io_uring ring and its writer

    [storage/uring/engine_linux_amd64.go]: publishing one request in the submission
    queue the process shares with the kernel and waiting for its completion, and
    [storage/uring/writer_linux_amd64.go]: a block written and synced through it.
    The kernel is a list of answers to [io_uring_enter]: what it takes from the
    submission queue, what it completes and in which order, and what the call
    returns.  Indexes are 32 bits wide and wrap around.

    Results: the shared memory implements a queue of requests and a queue of
    completions; a block is reported as durable only if this very block was written
    in full and synced afterwards, whatever the kernel does and whatever failed
    before. *)

From S2P Require Import Prelude Bytes.

Module Uring.

Definition ioUringOpFsync : Z := 3.
Definition ioUringOpWriteFixed : Z := 5.
Definition ioSQEFixedFile : Z := 1.

Definition EINTR : Z := 4.
Definition EAGAIN : Z := 11.

(** The fields the repository sets.  An address is an offset in the registered
    memory. *)
Record sqe := mkSqe {
  Opcode : Z; Flags : Z; FD : Z; Offset : Z; Address : Z; Length : Z; UserData : Z; BufferIndex : Z
}.

Record cqe := mkCqe { c_UserData : Z; Result : Z }.

Definition sqe0 : sqe := mkSqe 0 0 0 0 0 0 0 0.
Definition cqe0 : cqe := mkCqe 0 0.

(** The memory shared with the kernel. *)
Record Ring := mkRing {
  sqHead : Z; sqTail : Z; sqMask : Z; sqEntries : Z; sqArray : list Z; sqes : list sqe;
  cqHead : Z; cqTail : Z; cqMask : Z; cqEntries : Z; cqes : list cqe
}.

#[global] Instance eta_Ring : Eta Ring := fun r =>
  mkRing (sqHead r) (sqTail r) (sqMask r) (sqEntries r) (sqArray r) (sqes r) (cqHead r) (cqTail r) (cqMask r) (cqEntries r) (cqes r).

(** What the kernel has done for a request: the bytes it took from the memory, and
    the result it reported. *)
Record execution := mkExecution { request : sqe; data : bytes; outcome : Z }.

(** The ring, the registered memory, the requests the kernel has taken and not
    completed, and what it has executed. *)
Record World := mkWorld { ring : Ring; memory : bytes; inflight : list sqe; executed : list execution }.

#[global] Instance eta_World : Eta World := fun w => mkWorld (ring w) (memory w) (inflight w) (executed w).

(** ** The kernel *)

(** An answer to [io_uring_enter]. *)
Record answer := mkAnswer { takes : bool; completes : list (nat * Z); submitted : Z; errno : Z }.

(** Taking the next request, if there is one. *)
Definition take1 (w : World) : World :=
  let r := ring w in
  if sqHead r =? sqTail r then w else
  let index := nth (Z.to_nat (Z.land (sqHead r) (sqMask r))) (sqArray r) 0 in
  let e := nth (Z.to_nat index) (sqes r) sqe0 in
  w <| ring := r <| sqHead := w32 (sqHead r + 1) |> |> <| inflight := inflight w ++ [e] |>.

(** Completing the [i]-th request in flight, if there is room for the completion. *)
Definition complete1 (w : World) (c : nat * Z) : World :=
  let r := ring w in
  match inflight w !! c.1 with
  | None => w
  | Some e =>
      if cqEntries r <=? w32 (cqTail r - cqHead r) then w else
      let slot := Z.to_nat (Z.land (cqTail r) (cqMask r)) in
      w <| ring := r <| cqes := <[slot := mkCqe (UserData e) c.2]> (cqes r) |> <| cqTail := w32 (cqTail r + 1) |> |>
        <| inflight := delete c.1 (inflight w) |>
        <| executed := executed w ++ [mkExecution e (take (Z.to_nat (Length e)) (drop (Z.to_nat (Address e)) (memory w))) c.2] |>
  end.

(** [io_uring_enter] with the number of requests to submit. *)
Definition enter (toSubmit : bool) (a : answer) (w : World) : World :=
  foldl complete1 (if toSubmit && takes a then take1 w else w) (completes a).

(** ** engine_linux_amd64.go *)

Inductive ringError :=
| EmptyWrite
| QueueFull
| SubmitFailed (errno : Z)
| SubmittedOther (n : Z)
| WaitFailed (errno : Z)
| OtherCompletion (got want : Z)
| CompletionFailed (errno : Z)
| ShortWrite (n want : Z)
| PayloadTooLarge.

(** A call returns, or is still waiting when there are no answers left. *)
Inductive call (A : Type) := Returned (a : A) (w : World) (rest : list answer) | Waiting (w : World).
Arguments Returned {A}.
Arguments Waiting {A}.

(** The loop that submits. *)
Fixpoint submitLoop (answers : list answer) (head : Z) (w : World) : call (option ringError) :=
  match answers with
  | [] => Waiting w
  | a :: answers =>
      let w := enter true a w in
      if (errno a =? EINTR) || (errno a =? EAGAIN) then
        if negb (sqHead (ring w) =? head) then Returned None w answers else submitLoop answers head w
      else if negb (errno a =? 0) then Returned (Some (SubmitFailed (errno a))) w answers
      else if (submitted a =? 1) || negb (sqHead (ring w) =? head) then Returned None w answers
      else Returned (Some (SubmittedOther (submitted a))) w answers
  end.

(** The loop that waits for a completion. *)
Fixpoint waitLoop (answers : list answer) (w : World) : call (option ringError) :=
  if negb (cqHead (ring w) =? cqTail (ring w)) then Returned None w answers else
  match answers with
  | [] => Waiting w
  | a :: answers =>
      let w := enter false a w in
      if errno a =? EINTR then waitLoop answers w
      else if negb (errno a =? 0) then Returned (Some (WaitFailed (errno a))) w answers
      else waitLoop answers w
  end.

(** [int32] of an unsigned number. *)
Definition i32 (z : Z) : Z := if w32 z <? 2 ^ 31 then w32 z else w32 z - 2 ^ 32.

(** Reading the completion at the head. *)
Definition reap (request : sqe) (w : World) : World * option ringError :=
  let r := ring w in
  let completion := nth (Z.to_nat (Z.land (cqHead r) (cqMask r))) (cqes r) cqe0 in
  let w := w <| ring := r <| cqHead := w32 (cqHead r + 1) |> |> in
  (w,
   if negb (c_UserData completion =? UserData request) then Some (OtherCompletion (c_UserData completion) (UserData request))
   else if Result completion <? 0 then Some (CompletionFailed (- Result completion))
   else if (Opcode request =? ioUringOpWriteFixed) && negb (Result completion =? i32 (Length request))
   then Some (ShortWrite (Result completion) (Length request))
   else None).

Definition submitAndWait (request : sqe) (answers : list answer) (w : World) : call (option ringError) :=
  let r := ring w in
  let head := sqHead r in
  let tail := sqTail r in
  if sqEntries r <=? w32 (tail - head) then Returned (Some QueueFull) w answers else
  let index := Z.land tail (sqMask r) in
  let r := r <| sqes := <[Z.to_nat index := request]> (sqes r) |> <| sqArray := <[Z.to_nat index := index]> (sqArray r) |>
             <| sqTail := w32 (tail + 1) |> in
  match submitLoop answers head (w <| ring := r |>) with
  | Waiting w => Waiting w
  | Returned (Some e) w answers => Returned (Some e) w answers
  | Returned None w answers =>
      match waitLoop answers w with
      | Waiting w => Waiting w
      | Returned (Some e) w answers => Returned (Some e) w answers
      | Returned None w answers => let (w, err) := reap request w in Returned err w answers
      end
  end.

Definition WriteFixed (fileIndex offset address length bufferIndex userData : Z) (answers : list answer) (w : World) :
    call (option ringError) :=
  if length =? 0 then Returned (Some EmptyWrite) w answers
  else submitAndWait (mkSqe ioUringOpWriteFixed ioSQEFixedFile fileIndex offset address (w32 length) userData bufferIndex) answers w.

Definition Fsync (fileIndex userData : Z) (answers : list answer) (w : World) : call (option ringError) :=
  submitAndWait (mkSqe ioUringOpFsync ioSQEFixedFile fileIndex 0 0 0 userData 0) answers w.

(** ** writer_linux_amd64.go *)

Record DurableWriter := mkWriter { world : World; blockSize : Z; sequence : Z }.

(** The memory with a payload in a cleared block. *)
Definition fill (slot : Z) (size : Z) (payload mem : bytes) : bytes :=
  let a := Z.to_nat (slot * size) in
  let n := Z.to_nat size in
  take a mem ++ payload ++ replicate (n - length payload) 0 ++ drop (a + n) mem.

Definition AppendDurable (block : Z) (payload : bytes) (answers : list answer) (d : DurableWriter) :
    call (DurableWriter * option ringError) :=
  let size := blockSize d in
  if size <? len payload then Returned (d, Some PayloadTooLarge) (world d) answers else
  let slot := sequence d mod (len (memory (world d)) / size) in
  let w := world d <| memory := fill slot size payload (memory (world d)) |> in
  let sequence := w64 (sequence d + 1) in
  match WriteFixed 0 (w64 (block * size)) (slot * size) size 0 (w64 (Z.shiftl sequence 1)) answers w with
  | Waiting w => Waiting w
  | Returned (Some e) w answers => Returned (mkWriter w size sequence, Some e) w answers
  | Returned None w answers =>
      match Fsync 0 (Z.lor (w64 (Z.shiftl sequence 1)) 1) answers w with
      | Waiting w => Waiting w
      | Returned err w answers => Returned (mkWriter w size sequence, err) w answers
      end
  end.

(** ** Circular buffers *)

(** The slot of an index, in a buffer of [2 ^ k] slots. *)
Definition slot (k : Z) (z : Z) : nat := Z.to_nat (z mod 2 ^ k).

Lemma slot_w32 k z : 0 <= k <= 32 -> slot k (w32 z) = slot k z.
Proof.
  intros Hk. unfold slot, w32. f_equal. replace (2 ^ 32) with (2 ^ k * 2 ^ (32 - k)) by (rewrite <- Z.pow_add_r by lia; f_equal; lia).
  rewrite Z.rem_mul_r by (try apply Z.pow_nonzero; try apply Z.pow_pos_nonneg; lia).
  rewrite Z.mul_comm, Z.mod_add by (apply Z.pow_nonzero; lia). apply Z.mod_mod, Z.pow_nonzero; lia.
Qed.

Lemma slot_mask k z : 0 <= k -> Z.to_nat (Z.land z (2 ^ k - 1)) = slot k z.
Proof. intros Hk. replace (2 ^ k - 1) with (Z.ones k) by (rewrite Z.ones_equiv; lia). by rewrite Z.land_ones by lia. Qed.

Lemma slot_lt k z : 0 <= k -> (slot k z < Z.to_nat (2 ^ k))%nat.
Proof.
  intros Hk. unfold slot. assert (0 < 2 ^ k) by (apply Z.pow_pos_nonneg; lia). pose proof (Z.mod_pos_bound z (2 ^ k)). lia.
Qed.

Lemma slot_inj k h i j : 0 <= k -> 0 <= i < 2 ^ k -> 0 <= j < 2 ^ k -> slot k (h + i) = slot k (h + j) -> i = j.
Proof.
  intros Hk Hi Hj E. assert (0 < 2 ^ k) as Hp by (apply Z.pow_pos_nonneg; lia). unfold slot in E.
  pose proof (Z.mod_pos_bound (h + i) (2 ^ k) Hp). pose proof (Z.mod_pos_bound (h + j) (2 ^ k) Hp).
  assert ((h + i) mod 2 ^ k = (h + j) mod 2 ^ k) as E' by lia.
  assert ((i - j) mod 2 ^ k = 0) as E0.
  { replace (i - j) with ((h + i) - (h + j)) by lia. rewrite Zminus_mod, E', Z.sub_diag. by apply Z.mod_0_l; lia. }
  apply Z.mod_divide in E0 as [q Hq]; [|lia]. assert (q = 0) by nia. lia.
Qed.

(** The [i]-th element of a queue that starts at [h] is described by the slot it is
    in. *)
Definition window {A} (k h : Z) (P : nat -> A -> Prop) (q : list A) : Prop :=
  len q <= 2 ^ k /\ forall i x, q !! i = Some x -> P (slot k (h + Z.of_nat i)) x.

Lemma window_push {A} k h (P P' : nat -> A -> Prop) q x :
  0 <= k -> window k h P q -> len q < 2 ^ k ->
  P' (slot k (h + len q)) x -> (forall j y, j <> slot k (h + len q) -> P j y -> P' j y) -> window k h P' (q ++ [x]).
Proof.
  intros Hk [Hl Hq] Hlt Hx Hkeep. split; [unfold len in *; rewrite length_app; cbn; lia|]. intros i y Hi.
  apply lookup_snoc_Some in Hi as [[Hi Hy]|[-> <-]]; [|done]. apply Hkeep; [|by apply Hq].
  intros E. apply slot_inj in E; unfold len in *; lia.
Qed.

Lemma window_pop {A} k h (P : nat -> A -> Prop) x q : window k h P (x :: q) -> P (slot k h) x /\ window k (h + 1) P q.
Proof.
  intros [Hl Hq]. split; [specialize (Hq 0%nat x eq_refl); by rewrite Z.add_0_r in Hq|].
  split; [unfold len in *; cbn [length] in Hl; lia|]. intros i y Hi. specialize (Hq (S i) y Hi).
  by replace (h + 1 + Z.of_nat i) with (h + Z.of_nat (S i)) by lia.
Qed.

Lemma window_w32 {A} k h (P : nat -> A -> Prop) q : 0 <= k <= 32 -> window k h P q -> window k (w32 h) P q.
Proof.
  intros Hk [Hl Hq]. split; [done|]. intros i x Hi. rewrite <- slot_w32 by done.
  replace (w32 (w32 h + Z.of_nat i)) with (w32 (h + Z.of_nat i)) by (unfold w32; by rewrite Zplus_mod_idemp_l).
  rewrite slot_w32 by done. by apply Hq.
Qed.

Lemma window_mono {A} k h (P P' : nat -> A -> Prop) q : (forall j y, P j y -> P' j y) -> window k h P q -> window k h P' q.
Proof. intros HP [Hl Hq]. split; [done|]. auto. Qed.

(** ** The ring as two queues *)

(** [q]: requests published and not taken; [d]: completions posted and not read. *)
Record queues (ks kc : Z) (w : World) (q : list sqe) (d : list cqe) : Prop := {
  qs_ks : 0 <= ks < 32; qs_kc : 0 <= kc < 32;
  qs_sqMask : sqMask (ring w) = 2 ^ ks - 1; qs_sqEntries : sqEntries (ring w) = 2 ^ ks;
  qs_cqMask : cqMask (ring w) = 2 ^ kc - 1; qs_cqEntries : cqEntries (ring w) = 2 ^ kc;
  qs_sqes : length (sqes (ring w)) = Z.to_nat (2 ^ ks); qs_sqArray : length (sqArray (ring w)) = Z.to_nat (2 ^ ks);
  qs_cqes : length (cqes (ring w)) = Z.to_nat (2 ^ kc);
  qs_sqHead : is_u32 (sqHead (ring w)); qs_cqHead : is_u32 (cqHead (ring w));
  qs_sqTail : sqTail (ring w) = w32 (sqHead (ring w) + len q);
  qs_cqTail : cqTail (ring w) = w32 (cqHead (ring w) + len d);
  qs_sq : window ks (sqHead (ring w)) (fun j e => sqes (ring w) !! j = Some e /\ sqArray (ring w) !! j = Some (Z.of_nat j)) q;
  qs_cq : window kc (cqHead (ring w)) (fun j c => cqes (ring w) !! j = Some c) d
}.

Lemma pow32 k : 0 <= k < 32 -> 0 < 2 ^ k < 2 ^ 32.
Proof. intros Hk. split; [apply Z.pow_pos_nonneg; lia|]. apply Z.pow_lt_mono_r; lia. Qed.

Lemma w32_diff h n : is_u32 h -> 0 <= n < 2 ^ 32 -> w32 (w32 (h + n) - h) = n.
Proof.
  intros Hh Hn. unfold w32. rewrite Zminus_mod_idemp_l. replace (h + n - h) with n by lia. by apply Z.mod_small.
Qed.

Lemma w32_eq h n : is_u32 h -> 0 <= n < 2 ^ 32 -> (h =? w32 (h + n)) = (n =? 0).
Proof.
  intros Hh Hn. destruct (Z.eqb_spec n 0) as [->|Hne].
  - apply Z.eqb_eq. rewrite Z.add_0_r. unfold w32. symmetry. by apply Z.mod_small.
  - apply Z.eqb_neq. intros E. pose proof (w32_diff h n Hh Hn) as D. rewrite <- E, Z.sub_diag in D. unfold w32 in D. rewrite Z.mod_0_l in D by done. lia.
Qed.

Lemma is_u32_w32 z : is_u32 (w32 z).
Proof. unfold is_u32, w32. apply Z.mod_pos_bound. lia. Qed.

(** A world that differs in the queues only through its ring. *)
Definition setRing (r : Ring) (w : World) : World := w <| ring := r |>.

(** The first published request, and the others, with the ring after it is taken. *)
Lemma take1_queues ks kc w q d : queues ks kc w q d ->
  match q with
  | [] => take1 w = w
  | e :: q' =>
      queues ks kc (take1 w) q' d /\ inflight (take1 w) = inflight w ++ [e] /\ memory (take1 w) = memory w /\
      executed (take1 w) = executed w
  end.
Proof.
  intros [Hks Hkc Hm He Hcm Hce Hl Hla Hlc Hh Hch Ht Hct Hsq Hcq]. unfold take1. pose proof (pow32 ks Hks) as Hp.
  assert (0 <= len q < 2 ^ 32) as Hq by (destruct Hsq; unfold len in *; lia).
  rewrite Ht, w32_eq by done. destruct q as [|e q]; [done|].
  rewrite (proj2 (Z.eqb_neq (len (e :: q)) 0)) by (unfold len; cbn [length]; lia).
  apply window_pop in Hsq as [[Hs Ha] Hsq]. rewrite Hm, slot_mask by lia.
  rewrite (nth_lookup_Some _ _ _ _ Ha), Nat2Z.id, (nth_lookup_Some _ _ _ _ Hs).
  split; [|done]. split; cbn; try done; try apply is_u32_w32.
  - rewrite Ht. unfold w32. rewrite Zplus_mod_idemp_l. f_equal. unfold len. cbn [length]. lia.
  - apply window_w32; [lia|done].
Qed.

Lemma complete1_queues ks kc w q d c : queues ks kc w q d ->
  (complete1 w c = w /\ (inflight w !! c.1 = None \/ 2 ^ kc <= len d)) \/
  exists e, inflight w !! c.1 = Some e /\
    queues ks kc (complete1 w c) q (d ++ [mkCqe (UserData e) c.2]) /\
    inflight (complete1 w c) = delete c.1 (inflight w) /\ memory (complete1 w c) = memory w /\
    executed (complete1 w c) = executed w ++ [mkExecution e (take (Z.to_nat (Length e)) (drop (Z.to_nat (Address e)) (memory w))) c.2].
Proof.
  intros [Hks Hkc Hm He Hcm Hce Hl Hla Hlc Hh Hch Ht Hct Hsq Hcq]. unfold complete1. pose proof (pow32 kc Hkc) as Hp.
  assert (0 <= len d < 2 ^ 32) as Hd by (destruct Hcq; unfold len in *; lia).
  destruct (inflight w !! c.1) as [e|]; [|by left; auto]. rewrite Hct, w32_diff, Hce by done.
  destruct (Z.leb_spec (2 ^ kc) (len d)) as [|Hlt]; [by left; auto|]. right. exists e. split; [done|]. rewrite Hcm, slot_mask, slot_w32 by lia.
  split; [|done]. split; cbn; try done.
  - by rewrite length_insert.
  - unfold w32. rewrite Zplus_mod_idemp_l. f_equal. unfold len. rewrite length_app. cbn. lia.
  - eapply window_push; [lia|exact Hcq|done|..].
    + apply list_lookup_insert_eq. rewrite Hlc. apply slot_lt. lia.
    + intros j y Hj Hy. by rewrite list_lookup_insert_ne.
Qed.

(** The ring with a request published. *)
Definition published (request : sqe) (w : World) : World :=
  let r := ring w in
  let index := Z.land (sqTail r) (sqMask r) in
  w <| ring := r <| sqes := <[Z.to_nat index := request]> (sqes r) |> <| sqArray := <[Z.to_nat index := index]> (sqArray r) |>
                 <| sqTail := w32 (sqTail r + 1) |> |>.

Lemma published_queues ks kc w q d request : queues ks kc w q d -> len q < 2 ^ ks -> queues ks kc (published request w) (q ++ [request]) d.
Proof.
  intros [Hks Hkc Hm He Hcm Hce Hl Hla Hlc Hh Hch Ht Hct Hsq Hcq] Hlt. pose proof (pow32 ks Hks) as Hp.
  assert (Z.to_nat (Z.land (sqTail (ring w)) (sqMask (ring w))) = slot ks (sqHead (ring w) + len q)) as Es.
  { by rewrite Hm, slot_mask, Ht, slot_w32 by lia. }
  assert (Z.land (sqTail (ring w)) (sqMask (ring w)) = Z.of_nat (slot ks (sqHead (ring w) + len q))) as Ez.
  { rewrite <- Es, Z2Nat.id; [done|]. apply Z.land_nonneg. right. rewrite Hm. lia. }
  unfold published. rewrite Es, Ez. split; cbn; try done.
  - by rewrite length_insert.
  - by rewrite length_insert.
  - rewrite Ht. unfold w32. rewrite Zplus_mod_idemp_l. f_equal. unfold len. rewrite length_app. cbn. lia.
  - pose proof (slot_lt ks (sqHead (ring w) + len q) ltac:(lia)) as Hlt'. eapply window_push; [lia|exact Hsq|done|..].
    + split; apply list_lookup_insert_eq; lia.
    + intros j y Hj [Hy1 Hy2]. by rewrite !list_lookup_insert_ne by done.
Qed.

Lemma reap_queues ks kc w q c d request : queues ks kc w q (c :: d) ->
  queues ks kc (reap request w).1 q d /\ inflight (reap request w).1 = inflight w /\ memory (reap request w).1 = memory w /\
  executed (reap request w).1 = executed w /\
  ((reap request w).2 = None <-> c_UserData c = UserData request /\ 0 <= Result c /\
     (Opcode request = ioUringOpWriteFixed -> Result c = i32 (Length request))).
Proof.
  intros [Hks Hkc Hm He Hcm Hce Hl Hla Hlc Hh Hch Ht Hct Hsq Hcq]. apply window_pop in Hcq as [Hc Hcq].
  unfold reap. rewrite Hcm, slot_mask, (nth_lookup_Some _ _ _ _ Hc) by lia. cbn [fst snd].
  split; [|split; [done|split; [done|split; [done|]]]].
  - split; cbn; try done; try apply is_u32_w32; [|apply window_w32; [lia|done]].
    rewrite Hct. unfold w32. rewrite Zplus_mod_idemp_l. f_equal. unfold len. cbn [length]. lia.
  - destruct (Z.eqb_spec (c_UserData c) (UserData request)) as [->|]; [|naive_solver]. cbn [negb].
    destruct (Z.ltb_spec (Result c) 0); [naive_solver lia|]. destruct (Z.eqb_spec (Opcode request) ioUringOpWriteFixed) as [->|]; [|naive_solver].
    cbn [andb]. destruct (Z.eqb_spec (Result c) (i32 (Length request))); naive_solver.
Qed.

(** ** One call *)

Definition owned (u : Z) (l : list sqe) : nat := length (filter (fun e => UserData e = u) l).
Definition runsOf (u : Z) (l : list execution) : nat := length (filter (fun x => UserData (request x) = u) l).

Lemma owned_app u l l' : owned u (l ++ l') = (owned u l + owned u l')%nat.
Proof. unfold owned. by rewrite filter_app, length_app. Qed.

Lemma owned_none u l : (forall e, e ∈ l -> UserData e <> u) -> owned u l = 0%nat.
Proof. intros H. unfold owned. by rewrite filter_none. Qed.

(** What the kernel does for a request, reading the memory as it is. *)
Definition run1 (mem : bytes) (e : sqe) (result : Z) : execution :=
  mkExecution e (take (Z.to_nat (Length e)) (drop (Z.to_nat (Address e)) mem)) result.

Lemma owned_Permutation u l l' : l ≡ₚ l' -> owned u l = owned u l'.
Proof. intros HP. unfold owned. by rewrite HP. Qed.

Lemma runsOf_app u l l' : runsOf u (l ++ l') = (runsOf u l + runsOf u l')%nat.
Proof. unfold runsOf. by rewrite filter_app, length_app. Qed.

Lemma runsOf_snoc u l mem e result : runsOf u (l ++ [run1 mem e result]) = (runsOf u l + owned u [e])%nat.
Proof. rewrite runsOf_app. f_equal. unfold runsOf, owned. rewrite !filter_cons. cbn [request run1]. by case_decide. Qed.

Section tracking.
(** A call that publishes [req] when the kernel had executed [L0], while the
    memory is [mem] and user data are below [bound]. *)
Context (ks kc : Z) (req : sqe) (L0 : list execution) (mem : bytes) (bound : Z).

Record tracked (w : World) (q : list sqe) (d : list cqe) (new : list execution) : Prop := {
  tk_queues : queues ks kc w q d;
  tk_memory : memory w = mem;
  tk_executed : executed w = L0 ++ new;
  tk_below : Forall (fun e => UserData e < bound) (q ++ inflight w);
  tk_below_done : Forall (fun c => c_UserData c < bound) d;
  tk_own : forall e, e ∈ q ++ inflight w -> UserData e = UserData req -> e = req;
  tk_done : forall c, c ∈ d -> c_UserData c = UserData req -> run1 mem req (Result c) ∈ new;
  tk_once : (owned (UserData req) (q ++ inflight w) + runsOf (UserData req) new)%nat = 1%nat
}.

Lemma take1_tracked w q d new : tracked w q d new -> exists q', tracked (take1 w) q' d new.
Proof.
  intros [HQ Hm HE Hb Hbd Ho Hd H1]. pose proof (take1_queues _ _ _ _ _ HQ) as HT. destruct q as [|e q]; [rewrite HT; by exists []|].
  destruct HT as (HQ' & Hi & Hm' & He'). exists q.
  assert (q ++ inflight (take1 w) ≡ₚ (e :: q) ++ inflight w) as HP by (rewrite Hi; solve_Permutation).
  split; [done|by rewrite Hm'|by rewrite He'|by rewrite HP|done|by intros x; rewrite HP; apply Ho|done|].
  rewrite <- H1. unfold owned. by rewrite HP.
Qed.

Lemma complete1_tracked w q d new c : tracked w q d new -> exists d' new', tracked (complete1 w c) q d' new'.
Proof.
  intros [HQ Hm HE Hb Hbd Ho Hd H1]. destruct (complete1_queues _ _ _ _ _ c HQ) as [[-> _]|(e & Hi & HQ' & Hi' & Hm' & He')].
  { by exists d, new. }
  rewrite Hm in He'. fold (run1 mem e c.2) in He'. exists (d ++ [mkCqe (UserData e) c.2]), (new ++ [run1 mem e c.2]).
  apply list_elem_of_lookup_2 in Hi as Hin. assert (inflight w ≡ₚ e :: delete c.1 (inflight w)) as HP.
  { rewrite <- (take_drop_middle _ _ _ Hi) at 1. rewrite delete_take_drop. solve_Permutation. }
  assert (q ++ inflight w ≡ₚ e :: (q ++ inflight (complete1 w c))) as HP2 by (rewrite HP, Hi'; solve_Permutation).
  split; [done|by rewrite Hm'|by rewrite He', HE, app_assoc|..].
  - rewrite HP2 in Hb. by apply Forall_cons in Hb as [_ Hb].
  - apply Forall_app. split; [done|]. rewrite HP2 in Hb. apply Forall_cons in Hb as [Hb _]. by constructor.
  - intros x Hx. apply Ho. rewrite HP2. by right.
  - intros x [Hx|Hx]%elem_of_app Hu; [apply elem_of_app; left; by apply Hd|]. apply list_elem_of_singleton in Hx as ->. cbn in Hu.
    assert (e = req) as -> by (apply Ho; [apply elem_of_app; by right|done]). apply elem_of_app. right. by apply list_elem_of_singleton.
  - rewrite <- H1. rewrite (owned_Permutation _ _ _ HP2), runsOf_snoc.
    change (e :: (q ++ inflight (complete1 w c))) with ([e] ++ (q ++ inflight (complete1 w c))). rewrite (owned_app _ [e]). lia.
Qed.

Lemma enter_tracked b a w q d new : tracked w q d new -> exists q' d' new', tracked (enter b a w) q' d' new'.
Proof.
  intros H. unfold enter. assert (exists q', tracked (if b && takes a then take1 w else w) q' d new) as [q' H'].
  { destruct (b && takes a); [by eapply take1_tracked|by exists q]. }
  clear H. revert H'. generalize (if b && takes a then take1 w else w). intros w'. revert w' d new.
  induction (completes a) as [|c l IH]; intros w' d new H; [by exists q', d, new|]. cbn [foldl].
  destruct (complete1_tracked w' q' d new c H) as (d' & new' & H'). by eapply IH.
Qed.

Lemma submitLoop_tracked answers : forall head w q d new, tracked w q d new ->
  match submitLoop answers head w with
  | Returned _ w' _ | Waiting w' => exists q' d' new', tracked w' q' d' new'
  end.
Proof.
  induction answers as [|a answers IH]; intros head w q d new H; cbn [submitLoop]; [by exists q, d, new|].
  destruct (enter_tracked true a w q d new H) as (q' & d' & new' & H').
  destruct (_ || _); [destruct (negb _); [by eauto|by eapply IH]|]. destruct (negb _); [by eauto|]. destruct (_ || _); by eauto.
Qed.

Lemma waitLoop_tracked answers : forall w q d new, tracked w q d new ->
  match waitLoop answers w with
  | Returned r w' _ => exists q' d' new', tracked w' q' d' new' /\ (r = None -> d' <> [])
  | Waiting w' => exists q' d' new', tracked w' q' d' new'
  end.
Proof.
  assert (forall w q d new, tracked w q d new -> negb (cqHead (ring w) =? cqTail (ring w)) = true -> d <> []) as Hd.
  { intros w q d new [HQ _ _ _ _ _ _ _] H. pose proof (pow32 kc (qs_kc _ _ _ _ _ HQ)).
    rewrite (qs_cqTail _ _ _ _ _ HQ), w32_eq in H; [by intros ->|apply HQ|]. destruct (qs_cq _ _ _ _ _ HQ). unfold len in *. lia. }
  induction answers as [|a answers IH]; intros w q d new H; cbn [waitLoop].
  - destruct (negb _) eqn:E; [exists q, d, new; split; [done|intros _; by eapply Hd]|by exists q, d, new].
  - destruct (negb (cqHead _ =? _)) eqn:E; [exists q, d, new; split; [done|intros _; by eapply Hd]|].
    destruct (enter_tracked false a w q d new H) as (q' & d' & new' & H').
    destruct (errno a =? EINTR); [by eapply IH|]. destruct (negb (errno a =? 0)); [by exists q', d', new'|by eapply IH].
Qed.

End tracking.

(** Between calls: whatever is outstanding has user data below [bound]. *)
Definition steady (ks kc bound : Z) (w : World) : Prop :=
  exists q d, queues ks kc w q d /\ Forall (fun e => UserData e < bound) (q ++ inflight w) /\ Forall (fun c => c_UserData c < bound) d.

Lemma tracked_steady ks kc req L0 mem bound w q d new : tracked ks kc req L0 mem bound w q d new -> steady ks kc bound w.
Proof. intros [HQ _ _ Hb Hbd _ _ _]. by exists q, d. Qed.

Lemma steady_mono ks kc b b' w : b <= b' -> steady ks kc b w -> steady ks kc b' w.
Proof.
  intros Hb (q & d & HQ & H1 & H2). exists q, d. split; [done|]. split; (eapply Forall_impl; [done|]); cbn; intros; lia.
Qed.

(** A request with fresh user data, once published, is tracked. *)
Lemma published_tracked ks kc bound w req :
  steady ks kc bound w -> bound <= UserData req -> sqEntries (ring w) <= w32 (sqTail (ring w) - sqHead (ring w)) \/
  exists q d, tracked ks kc req (executed w) (memory w) (UserData req + 1) (published req w) q d [].
Proof.
  intros (q & d & HQ & Hb & Hbd) Hu. pose proof (pow32 ks (qs_ks _ _ _ _ _ HQ)) as Hp.
  assert (0 <= len q <= 2 ^ ks) as Hq by (destruct (qs_sq _ _ _ _ _ HQ); unfold len in *; lia).
  rewrite (qs_sqTail _ _ _ _ _ HQ), w32_diff, (qs_sqEntries _ _ _ _ _ HQ); [|apply HQ|lia].
  destruct (Z.le_gt_cases (2 ^ ks) (len q)) as [|Hlt]; [by left|]. right. exists (q ++ [req]), d.
  assert (forall e, e ∈ q ++ inflight w -> UserData e < bound) as Hold by by apply Forall_forall.
  assert ((q ++ [req]) ++ inflight w ≡ₚ req :: (q ++ inflight w)) as HP by solve_Permutation.
  split; [by apply published_queues; [|lia]|done|by rewrite app_nil_r|..]; cbn [inflight published].
  - change (inflight (published req w)) with (inflight w). rewrite HP. constructor; [lia|]. eapply Forall_impl; [exact Hb|]. cbn. lia.
  - eapply Forall_impl; [exact Hbd|]. cbn. lia.
  - change (inflight (published req w)) with (inflight w). intros e. rewrite HP. intros [->|He]%elem_of_cons E; [done|].
    apply Hold in He. lia.
  - intros c Hc E. rewrite Forall_forall in Hbd. apply Hbd in Hc. lia.
  - change (inflight (published req w)) with (inflight w). rewrite (owned_Permutation _ _ _ HP).
    change (req :: (q ++ inflight w)) with ([req] ++ (q ++ inflight w)). rewrite owned_app, (owned_none _ (q ++ inflight w)).
    + unfold owned. rewrite filter_cons_True by done. done.
    + intros e He E. apply Hold in He. lia.
Qed.

Lemma submitAndWait_spec ks kc bound w req answers r w' rest :
  steady ks kc bound w -> bound <= UserData req -> submitAndWait req answers w = Returned r w' rest ->
  steady ks kc (UserData req + 1) w' /\ memory w' = memory w /\
  exists new, executed w' = executed w ++ new /\
    (r = None -> runsOf (UserData req) new = 1%nat /\
       exists result, run1 (memory w) req result ∈ new /\ 0 <= result /\
         (Opcode req = ioUringOpWriteFixed -> result = i32 (Length req))).
Proof.
  intros Hs Hu H. unfold submitAndWait in H. destruct (Z.leb_spec (sqEntries (ring w)) (w32 (sqTail (ring w) - sqHead (ring w)))) as [|Hroom].
  { injection H as <- <- _. split; [by eapply steady_mono; [|exact Hs]; lia|]. split; [done|]. exists []. by rewrite app_nil_r. }
  destruct (published_tracked ks kc bound w req Hs Hu) as [|(q & d & HT)]; [lia|].
  change (w <| ring := _ |>) with (published req w) in H.
  pose proof (submitLoop_tracked ks kc req _ _ _ answers (sqHead (ring w)) _ _ _ _ HT) as HT1.
  assert (forall w2 q2 d2 new2, tracked ks kc req (executed w) (memory w) (UserData req + 1) w2 q2 d2 new2 ->
    steady ks kc (UserData req + 1) w2 /\ memory w2 = memory w /\ executed w2 = executed w ++ new2) as Hend.
  { intros w2 q2 d2 new2 Ht. split; [by eapply tracked_steady|]. by destruct Ht. }
  destruct (submitLoop answers _ _) as [[e|] w1 rest1|]; [..|done]; destruct HT1 as (q1 & d1 & new1 & HT1).
  { injection H as <- <- _. destruct (Hend _ _ _ _ HT1) as (? & ? & ?). split; [done|]. split; [done|]. by exists new1. }
  pose proof (waitLoop_tracked ks kc req _ _ _ rest1 w1 _ _ _ HT1) as HT2.
  destruct (waitLoop rest1 w1) as [[e|] w2 rest2|]; [..|done]; destruct HT2 as (q2 & d2 & new2 & HT2 & Hd2).
  { injection H as <- <- _. destruct (Hend _ _ _ _ HT2) as (? & ? & ?). split; [done|]. split; [done|]. by exists new2. }
  destruct d2 as [|c d2]; [by destruct (Hd2 eq_refl)|]. destruct HT2 as [HQ Hm HE Hb Hbd Ho Hd H1].
  destruct (reap_queues _ _ _ _ _ _ req HQ) as (HQ' & Hi & Hm' & He' & Hr). destruct (reap req w2) as [w3 err]. cbn [fst snd] in *.
  injection H as <- <- _. apply Forall_cons in Hbd as [_ Hbd].
  split; [exists q2, d2; by rewrite Hi|]. split; [by rewrite Hm'|]. exists new2. split; [by rewrite He'|]. intros ->.
  destruct (proj1 Hr eq_refl) as (Hc & H0 & Hw). pose proof (Hd c (list_elem_of_here _ _) Hc) as Hin. split; [|by exists (Result c)].
  assert (1 <= runsOf (UserData req) new2)%nat; [|lia]. unfold runsOf.
  assert (run1 (memory w) req (Result c) ∈ filter (fun x => UserData (request x) = UserData req) new2) as Hf by by apply list_elem_of_filter.
  destruct (filter _ new2); [by apply elem_of_nil in Hf|cbn; lia].
Qed.

(** Nothing is outstanding. *)
Definition idle (ks kc : Z) (w : World) : Prop := queues ks kc w [] [] /\ inflight w = [].

(** A kernel that takes a request and completes it before the call returns. *)
Definition prompt (result : Z) : answer := mkAnswer true [(0%nat, result)] 1 0.

Lemma submitAndWait_prompt ks kc w req result rest :
  idle ks kc w -> 0 <= result -> (Opcode req = ioUringOpWriteFixed -> result = i32 (Length req)) ->
  exists w', submitAndWait req (prompt result :: rest) w = Returned None w' rest /\ idle ks kc w' /\ memory w' = memory w.
Proof.
  intros [HQ Hi] H0 Hw. pose proof (pow32 ks (qs_ks _ _ _ _ _ HQ)) as Hp. pose proof (pow32 kc (qs_kc _ _ _ _ _ HQ)) as Hpc.
  assert ((sqEntries (ring w) <=? w32 (sqTail (ring w) - sqHead (ring w))) = false) as Er.
  { rewrite (qs_sqTail _ _ _ _ _ HQ), w32_diff, (qs_sqEntries _ _ _ _ _ HQ); [|apply HQ|unfold len; cbn; lia].
    apply Z.leb_gt. unfold len. cbn. lia. }
  unfold submitAndWait. rewrite Er.
  change (w <| ring := _ |>) with (published req w).
  pose proof (published_queues ks kc w [] [] req HQ ltac:(unfold len; cbn; lia)) as HQ1. cbn [submitLoop]. unfold enter, prompt. cbn [takes completes foldl andb].
  destruct (take1_queues _ _ _ _ _ HQ1) as (HQ2 & Hi2 & Hm2 & _). set (w2 := take1 _) in *. clearbody w2.
  change (inflight (published req w)) with (inflight w) in Hi2. rewrite Hi in Hi2. cbn [app] in Hi2.
  destruct (complete1_queues _ _ _ _ _ (0%nat, result) HQ2) as [[_ [E|E]]|(e & He & HQ3 & Hi3 & Hm3 & _)];
    [by rewrite Hi2 in E|unfold len in E; cbn in E; lia|]. rewrite Hi2 in He, Hi3. injection He as <-. cbn [delete list_delete] in Hi3.
  set (w3 := complete1 _ _) in *. clearbody w3. cbn [errno submitted]. change (0 =? EINTR) with false. change (0 =? EAGAIN) with false.
  cbn [orb negb]. change (1 =? 1) with true. change (0 =? 0) with true. cbn [orb negb].
  assert (waitLoop rest w3 = Returned None w3 rest) as ->.
  { assert (negb (cqHead (ring w3) =? cqTail (ring w3)) = true) as E.
    { rewrite (qs_cqTail _ _ _ _ _ HQ3), w32_eq; [done|apply HQ3|unfold len; cbn; lia]. }
    destruct rest; cbn [waitLoop]; by rewrite E. }
  destruct (reap_queues _ _ _ _ _ _ req HQ3) as (HQ4 & Hi4 & Hm4 & _ & Hr). destruct (reap req w3) as [w4 err]. cbn [fst snd] in *.
  exists w4. assert (err = None) as -> by by apply Hr. split; [done|]. split; [split; [done|by rewrite Hi4]|]. by rewrite Hm4, Hm3, Hm2.
Qed.

(** ** The writer *)

Record opened (ks kc depth : Z) (d : DurableWriter) : Prop := {
  op_idle : idle ks kc (world d);
  op_depth : 0 < depth; op_size : 0 < blockSize d < 2 ^ 31;
  op_memory : len (memory (world d)) = depth * blockSize d;
  op_sequence : sequence d = 0
}.

(** The calls that were made; all of them have returned. *)
Fixpoint runs (calls : list (Z * bytes * list answer)) (d : DurableWriter) : option DurableWriter :=
  match calls with
  | [] => Some d
  | (block, payload, answers) :: calls =>
      match AppendDurable block payload answers d with
      | Returned (d, _) _ _ => runs calls d
      | Waiting _ => None
      end
  end.

(** Between calls of the writer. *)
Record ready (ks kc depth size : Z) (d : DurableWriter) : Prop := {
  rd_steady : steady ks kc (2 * sequence d + 2) (world d);
  rd_depth : 0 < depth; rd_size : 0 < size < 2 ^ 31; rd_block : blockSize d = size;
  rd_memory : len (memory (world d)) = depth * size;
  rd_sequence : 0 <= sequence d
}.

Lemma fill_spec k size payload mem depth :
  0 <= k < depth -> 0 < size -> len mem = depth * size -> len payload <= size ->
  len (fill k size payload mem) = depth * size /\
  take (Z.to_nat size) (drop (Z.to_nat (k * size)) (fill k size payload mem)) = payload ++ replicate (Z.to_nat size - length payload) 0.
Proof.
  intros Hk Hs Hm Hp. unfold fill, len in *. assert (k * size + size <= depth * size) by nia. split.
  - rewrite !length_app, length_take, length_replicate, length_drop. lia.
  - rewrite drop_app_length' by (rewrite length_take; nia). rewrite app_assoc, take_app_length'; [done|].
    rewrite length_app, length_replicate. lia.
Qed.

(** The user data of a block and of its sync do not wrap around. *)
Lemma userData_small n : 0 <= n < 2 ^ 62 ->
  w64 (n + 1) = n + 1 /\ w64 (Z.shiftl (n + 1) 1) = 2 * n + 2 /\ Z.lor (w64 (Z.shiftl (n + 1) 1)) 1 = 2 * n + 3.
Proof.
  intros Hn. rewrite Z.shiftl_mul_pow2 by lia. change (2 ^ 1) with 2. unfold w64. rewrite !Z.mod_small by lia.
  split; [done|]. split; [lia|]. pose proof (Z.add_lor_land ((n + 1) * 2) 1) as E.
  assert (Z.land ((n + 1) * 2) 1 = 0) as E0; [|lia]. change 1 with (Z.ones 1) at 2. rewrite Z.land_ones by lia. apply Z_mod_mult.
Qed.

(** What a call that reports success has had the kernel do. *)
Definition durably (block : Z) (payload : bytes) (d : DurableWriter) (w : World) : Prop :=
  let u := 2 * sequence d + 2 in
  exists new1 new2, executed w = executed (world d) ++ new1 ++ new2 /\
    runsOf u new1 = 1%nat /\ runsOf (u + 1) new2 = 1%nat /\
    (exists x, x ∈ new1 /\ UserData (request x) = u /\ Opcode (request x) = ioUringOpWriteFixed /\
       Offset (request x) = w64 (block * blockSize d) /\
       data x = payload ++ replicate (Z.to_nat (blockSize d) - length payload) 0 /\ outcome x = blockSize d) /\
    (exists y, y ∈ new2 /\ UserData (request y) = u + 1 /\ Opcode (request y) = ioUringOpFsync /\ 0 <= outcome y).

Lemma i32_small z : 0 <= z < 2 ^ 31 -> i32 (w32 z) = z.
Proof. intros Hz. unfold i32, w32. rewrite !(Z.mod_small z) by lia. by rewrite (proj2 (Z.ltb_lt z (2 ^ 31))) by lia. Qed.

Lemma AppendDurable_spec ks kc depth size d block payload answers d' err w rest :
  ready ks kc depth size d -> sequence d < 2 ^ 62 -> AppendDurable block payload answers d = Returned (d', err) w rest ->
  ready ks kc depth size d' /\ sequence d' <= sequence d + 1 /\ w = world d' /\ (err = None -> durably block payload d w).
Proof.
  intros [Hs Hd Hz Hb Hm Hn] Hlt. unfold AppendDurable, WriteFixed, Fsync. rewrite Hb.
  destruct (Z.ltb_spec size (len payload)) as [|Hp]; [intros [= <- <- <- _]; split; [by split|]; split; [lia|]; done|].
  rewrite (proj2 (Z.eqb_neq size 0)) by lia.
  destruct (userData_small (sequence d) ltac:(lia)) as (E1 & E2 & E3). rewrite E1, E3, E2.
  assert (len (memory (world d)) / size = depth) as Edepth by (rewrite Hm; apply Z.div_mul; lia). rewrite Edepth.
  set (k := sequence d mod depth). pose proof (Z.mod_pos_bound (sequence d) depth Hd : 0 <= k < depth) as Hk.
  destruct (fill_spec k size payload (memory (world d)) depth Hk ltac:(lia) Hm Hp) as [Hfl Hft].
  set (w0 := world d <| memory := _ |>). set (req := mkSqe ioUringOpWriteFixed _ _ _ _ _ _ _).
  assert (steady ks kc (2 * sequence d + 2) w0) as Hs0.
  { destruct Hs as (q & dd & HQ & H1 & H2). exists q, dd. split; [|done]. by destruct HQ; split. }
  destruct (submitAndWait req answers w0) as [r1 w1 rest1|] eqn:EW; [|done].
  destruct (submitAndWait_spec ks kc _ w0 req answers r1 w1 rest1 Hs0 ltac:(cbn; lia) EW) as (Hs1 & Hm1 & new1 & He1 & Hr1).
  change (UserData req + 1) with (2 * sequence d + 2 + 1) in Hs1.
  destruct r1 as [e|].
  { intros [= <- <- <- _]. split; [|split; [cbn; lia|done]]. split; cbn; try done; try lia; [|by rewrite Hm1].
    eapply steady_mono; [|exact Hs1]. lia. }
  set (req2 := mkSqe ioUringOpFsync _ _ _ _ _ _ _). destruct (submitAndWait req2 rest1 w1) as [r2 w2 rest2|] eqn:EF; [|done].
  destruct (submitAndWait_spec ks kc _ w1 req2 rest1 r2 w2 rest2 Hs1 ltac:(cbn; lia) EF) as (Hs2 & Hm2 & new2 & He2 & Hr2).
  intros [= <- <- <- _]. split; [|split; [cbn; lia|split; [done|]]].
  { split; cbn; try done; try lia; [|by rewrite Hm2, Hm1]. eapply steady_mono; [|exact Hs2]. cbn. lia. }
  intros ->. destruct (Hr1 eq_refl) as (C1 & res1 & In1 & P1 & Q1). destruct (Hr2 eq_refl) as (C2 & res2 & In2 & P2 & _).
  exists new1, new2. rewrite Hb. split; [by rewrite He2, He1, <- app_assoc|]. split; [exact C1|].
  split; [replace (2 * sequence d + 2 + 1) with (2 * sequence d + 3) by lia; exact C2|]. split.
  - eexists. split; [exact In1|]. split; [done|]. split; [done|]. split; [done|]. cbn [data run1 outcome Length Address req].
    split; [|rewrite (Q1 eq_refl); cbn [Length req]; apply i32_small; lia].
    unfold w32. rewrite Z.mod_small by lia. exact Hft.
  - eexists. split; [exact In2|]. split; [cbn; lia|]. by split.
Qed.

Lemma runs_ready ks kc depth size calls : forall d d',
  ready ks kc depth size d -> sequence d + len calls < 2 ^ 62 -> runs calls d = Some d' ->
  ready ks kc depth size d' /\ sequence d' < 2 ^ 62.
Proof.
  induction calls as [|[[block payload] answers] calls IH]; intros d d' Hd Hlt; cbn [runs].
  - intros [= <-]. split; [done|]. unfold len in Hlt. cbn in Hlt. lia.
  - unfold len in Hlt. cbn [length] in Hlt. destruct (AppendDurable block payload answers d) as [[d1 err] w rest|] eqn:E; [|done].
    destruct (AppendDurable_spec _ _ _ _ _ _ _ _ _ _ _ _ Hd ltac:(lia) E) as (Hd1 & Hs1 & _). apply IH; [done|]. unfold len. lia.
Qed.

(** C20 Blocks through the ring.  Let a writer have been opened on an empty ring,
    wherever its indexes start, and let any calls have returned since, with
    whatever errors and requests left behind.  When [AppendDurable] returns no
    error, the kernel has during this call executed the write of this block exactly
    once, with the padded payload and in full, and afterwards, exactly once and
    with success, the sync that belongs to it.  When nothing is outstanding and
    the kernel takes and completes requests at once, the call returns no error and
    leaves nothing outstanding. *)
Theorem durable_append ks kc depth d0 calls d block payload :
  opened ks kc depth d0 -> runs calls d0 = Some d -> len calls < 2 ^ 62 ->
  (forall answers d' w rest, AppendDurable block payload answers d = Returned (d', None) w rest ->
     w = world d' /\ durably block payload d w) /\
  (idle ks kc (world d) -> len payload <= blockSize d -> forall rest,
     exists d', AppendDurable block payload (prompt (blockSize d) :: prompt 0 :: rest) d = Returned (d', None) (world d') rest /\
       idle ks kc (world d')).
Proof.
  intros [Hi Hd Hz Hm Hs] HR Hc.
  assert (ready ks kc depth (blockSize d0) d0) as H0.
  { split; try done; [|lia]. destruct Hi as [HQ Hi]. exists [], []. rewrite Hi. split; [done|]. by split; constructor. }
  destruct (runs_ready ks kc depth (blockSize d0) calls d0 d H0 ltac:(lia) HR) as [Hr Hlt]. split.
  - intros answers d' w rest E. destruct (AppendDurable_spec _ _ _ _ _ _ _ _ _ _ _ _ Hr Hlt E) as (_ & _ & Hw & Hdur). auto.
  - intros Hidle Hp rest. destruct Hr as [_ _ _ Hb Hm' _]. unfold AppendDurable, WriteFixed, Fsync.
    rewrite (proj2 (Z.ltb_ge (blockSize d) (len payload))) by done. rewrite (proj2 (Z.eqb_neq (blockSize d) 0)) by lia.
    set (w0 := world d <| memory := _ |>). set (req := mkSqe ioUringOpWriteFixed _ _ _ _ _ _ _).
    assert (idle ks kc w0) as Hi0 by (destruct Hidle as [HQ Hin]; split; [by destruct HQ; split|done]).
    destruct (submitAndWait_prompt ks kc w0 req (blockSize d) (prompt 0 :: rest) Hi0) as (w1 & -> & Hi1 & _); [lia| |].
    { intros _. cbn [Length req]. symmetry. apply i32_small. lia. }
    set (req2 := mkSqe ioUringOpFsync _ _ _ _ _ _ _).
    destruct (submitAndWait_prompt ks kc w1 req2 0 rest Hi1) as (w2 & -> & Hi2 & _); [lia|done|]. exists (mkWriter w2 (blockSize d) (w64 (sequence d + 1))). split; [reflexivity|exact Hi2].
Qed.

(** ** A ring of one entry, close to the end of its indexes *)

Module Demo.

Definition emptyRing (h : Z) : Ring := mkRing h h 0 1 [0] [sqe0] h h 1 2 [cqe0; cqe0].
Definition start : DurableWriter := mkWriter (mkWorld (emptyRing (2 ^ 32 - 1)) [0; 0; 0; 0] [] []) 4 0.

Lemma start_opened : opened 0 1 1 start.
Proof.
  split; cbn; try lia; [|reflexivity..]. split; [|reflexivity].
  split; cbn; try lia; try reflexivity; try (unfold is_u32; lia); split; try (unfold len; cbn; lia); intros i x Hi; discriminate Hi.
Qed.

(** A wait is interrupted with another error than EINTR; the request stays behind. *)
Definition lost : answer := mkAnswer true [] 1 0.
Definition broken : answer := mkAnswer false [] 0 16.

Lemma durable_append_witness :
  exists d d' rest, runs [(0, [7], [prompt 4; prompt 0])] start = Some d /\
    AppendDurable 1 [8; 9] (prompt 4 :: prompt 0 :: rest) d = Returned (d', None) (world d') rest /\ durably 1 [8; 9] d (world d').
Proof.
  destruct (runs [(0, [7], [prompt 4; prompt 0])] start) as [d|] eqn:E; [|vm_compute in E; discriminate E].
  destruct (durable_append 0 1 1 start _ d 1 [8; 9] start_opened E ltac:(unfold len; cbn; lia)) as [Hdur Hrun].
  assert (idle 0 1 (world d) /\ blockSize d = 4) as [Hi Hb].
  { vm_compute in E. injection E as <-. split; [|reflexivity]. split; [|reflexivity].
    split; cbn; try lia; try reflexivity; try (unfold is_u32; lia); split; try (unfold len; cbn; lia); intros i x Hi; discriminate Hi. }
  rewrite Hb in Hrun. destruct (Hrun Hi ltac:(unfold len; cbn; lia) []) as (d' & HA & _).
  exists d, d', []. split; [reflexivity|]. split; [exact HA|]. exact (proj2 (Hdur _ _ _ _ HA)).
Defined.

(** A request left behind.  The write of block 0 is taken, and waiting for it
    fails.  The block is written again and reported as durable, and so is block 1.
    Then the first request is executed, from the buffer that block 1 has taken
    over: it writes the contents of block 1 into block 0. *)
Theorem stale_write :
  exists d1 w1 d2 w2 d3 w3 x,
    AppendDurable 0 [7] [lost; broken] start = Returned (d1, Some (WaitFailed 16)) w1 [] /\
    AppendDurable 0 [7] [mkAnswer true [(1%nat, 4)] 1 0; mkAnswer true [(1%nat, 0)] 1 0] d1 = Returned (d2, None) w2 [] /\
    AppendDurable 1 [8] [mkAnswer true [(1%nat, 4)] 1 0; mkAnswer true [(1%nat, 0); (0%nat, 4)] 1 0] d2 = Returned (d3, None) w3 [] /\
    last (executed w3) = Some x /\ Opcode (request x) = ioUringOpWriteFixed /\ Offset (request x) = 0 /\ data x = [8; 0; 0; 0].
Proof.
  eexists _, _, _, _, _, _, _. do 3 (split; [vm_compute; reflexivity|]). split; [vm_compute; reflexivity|]. by vm_compute.
Qed.

End Demo.
End Uring.
