(* ===== verification/StateMachine.v ===== *)
(** * The replicated state machine

    [statemachine/machine.go]: a key-value store with client deduplication and a
    checksummed snapshot.  Results: every accepted request takes effect exactly
    once, whatever is retried or replayed; a snapshot does not depend on the order
    in which the maps are iterated and is restored to the same machine; a changed
    byte is rejected. *)

From stdpp Require Import sorting.
From S2P Require Import Prelude Bytes RaftTypes.

Module StateMachine.

Definition ErrStaleRequest : error := "statemachine: stale request".
Definition ErrBadSnapshot : error := "statemachine: invalid snapshot".
Definition ErrUnsupported : error := "statemachine: unsupported operation".

Record Result := mkResult { ClientID : Z; RequestID : Z; Value : Z; Found : bool }.
Definition zeroResult : Result := mkResult 0 0 0 false.

Record clientRecord := mkClient { c_RequestID : Z; c_Value : Z; c_Found : bool }.

Record Machine := mkMachine { values : gmap Z Z; clients : gmap Z clientRecord }.

Definition New : Machine := mkMachine ∅ ∅.

(** The switch on the operation: the new values, the result's value and whether
    it was found. *)
Definition execute (entry : Entry) (m : gmap Z Z) : option (gmap Z Z * Z * bool) :=
  if e_Operation entry =? CommandPut then
    Some (<[e_Key entry := e_Value entry]> m, e_Value entry, true)
  else if e_Operation entry =? CommandDelete then
    Some (delete (e_Key entry) m, default 0 (m !! e_Key entry), bool_decide (is_Some (m !! e_Key entry)))
  else None.

Definition Apply (entry : Entry) (m : Machine) : Machine * (error + Result) :=
  if e_Operation entry =? CommandLegacy then (m, inr zeroResult) else
  let fresh :=
    match execute entry (values m) with
    | None => (m, inl ErrUnsupported)
    | Some (vs, value, found) =>
        (mkMachine vs (<[e_ClientID entry := mkClient (e_RequestID entry) value found]> (clients m)),
         inr (mkResult (e_ClientID entry) (e_RequestID entry) value found))
    end in
  match clients m !! e_ClientID entry with
  | Some previous =>
      if c_RequestID previous =? e_RequestID entry
      then (m, inr (mkResult (e_ClientID entry) (c_RequestID previous) (c_Value previous) (c_Found previous)))
      else if e_RequestID entry <? c_RequestID previous then (m, inl ErrStaleRequest)
      else fresh
  | None => fresh
  end.

Definition Get (key : Z) (m : Machine) : Z * bool :=
  match values m !! key with Some v => (v, true) | None => (0, false) end.

Definition Cached (clientID requestID : Z) (m : Machine) : error + Result * bool :=
  match clients m !! clientID with
  | None => inr (zeroResult, false)
  | Some record =>
      if c_RequestID record <? requestID then inr (zeroResult, false)
      else if requestID <? c_RequestID record then inl ErrStaleRequest
      else inr (mkResult clientID requestID (c_Value record) (c_Found record), true)
  end.

(** ** Snapshots *)

(** HYSM *)
Definition magic : bytes := [72; 89; 83; 77].

(** [sort.Slice(keys, func(i, j int) bool { return keys[i] < keys[j] })]. *)
Definition sortKeys (keys : list Z) : list Z := merge_sort Z.le keys.

(** One iteration of each of the two loops, on the buffer and the offset. *)
Definition putValue (m : Machine) (st : bytes * nat) (key : Z) : bytes * nat :=
  let '(out, offset) := st in
  let out := put offset (le 8 key) out in
  let out := put (offset + 8) (le 8 (default 0 (values m !! key))) out in
  (out, (offset + 16)%nat).

Definition putClient (m : Machine) (st : bytes * nat) (client : Z) : bytes * nat :=
  let '(out, offset) := st in
  let record := default (mkClient 0 0 false) (clients m !! client) in
  let out := put offset (le 8 client) out in
  let out := put (offset + 8) (le 8 (c_RequestID record)) out in
  let out := put (offset + 16) (le 8 (c_Value record)) out in
  let out := if c_Found record then put (offset + 24) [1] out else out in
  (out, (offset + 32)%nat).

(** [keys] and [clients'] are the orders in which Go iterates over the maps. *)
Definition Snapshot (keys clients' : list Z) (m : Machine) : bytes :=
  let keys := sortKeys keys in
  let clients' := sortKeys clients' in
  let size := (20 + length keys * 16 + length clients' * 32)%nat in
  let out := replicate size 0 in
  let out := put 0 magic out in
  let out := put 4 (le 2 1) out in
  let out := put 8 (le 4 (w32 (len keys))) out in
  let out := put 12 (le 4 (w32 (len clients'))) out in
  let st := foldl (putValue m) (out, 16%nat) keys in
  let '(out, _) := foldl (putClient m) st clients' in
  put (length out - 4) (le 4 (crc32c (take (length out - 4) out))) out.

(** The loops of [Restore], with [n] iterations left. *)
Fixpoint getValues (snapshot : bytes) (n offset : nat) (vs : gmap Z Z) : gmap Z Z * nat :=
  match n with
  | O => (vs, offset)
  | S n =>
      let key := leGet (sub offset (offset + 8) snapshot) in
      getValues snapshot n (offset + 16) (<[key := leGet (sub (offset + 8) (offset + 16) snapshot)]> vs)
  end.

Fixpoint getClients (snapshot : bytes) (n offset : nat) (cs : gmap Z clientRecord) : gmap Z clientRecord :=
  match n with
  | O => cs
  | S n =>
      let client := leGet (sub offset (offset + 8) snapshot) in
      let record := mkClient (leGet (sub (offset + 8) (offset + 16) snapshot))
                      (leGet (sub (offset + 16) (offset + 24) snapshot))
                      (nth (offset + 24) snapshot 0 =? 1) in
      getClients snapshot n (offset + 32) (<[client := record]> cs)
  end.

Definition Restore (snapshot : bytes) : error + Machine :=
  let n := length snapshot in
  if (n <? 20)%nat || negb (bool_decide (take 4 snapshot = magic)) || negb (leGet (sub 4 6 snapshot) =? 1)
  then inl ErrBadSnapshot else
  let expected := leGet (drop (n - 4) snapshot) in
  if negb (crc32c (take (n - 4) snapshot) =? expected) then inl ErrBadSnapshot else
  let keyCount := leGet (sub 8 12 snapshot) in
  let clientCount := leGet (sub 12 16 snapshot) in
  if negb (20 + keyCount * 16 + clientCount * 32 =? len snapshot) then inl ErrBadSnapshot else
  let (vs, offset) := getValues snapshot (Z.to_nat keyCount) 16 ∅ in
  inr (mkMachine vs (getClients snapshot (Z.to_nat clientCount) offset ∅)).

(** *** The layout of a snapshot *)

Definition valueRow (m : Machine) (key : Z) : bytes := le 8 key ++ le 8 (default 0 (values m !! key)).

Definition clientRow (m : Machine) (client : Z) : bytes :=
  let r := default (mkClient 0 0 false) (clients m !! client) in
  le 8 client ++ le 8 (c_RequestID r) ++ le 8 (c_Value r) ++
  (if c_Found r then [1] else [0]) ++ replicate 7 0.

Definition head (nk nc : Z) : bytes := magic ++ le 2 1 ++ [0; 0] ++ le 4 (w32 nk) ++ le 4 (w32 nc).

Definition layout (ks cs : list Z) (m : Machine) : bytes :=
  head (len ks) (len cs) ++ concat (valueRow m <$> ks) ++ concat (clientRow m <$> cs).

Lemma length_valueRow m k : length (valueRow m k) = 16%nat.
Proof. unfold valueRow. by rewrite length_app, !length_le. Qed.

Lemma length_clientRow m c : length (clientRow m c) = 32%nat.
Proof. unfold clientRow. cbn zeta. rewrite !length_app, !length_le. by destruct (c_Found _). Qed.

Lemma length_rows {A} (f : A -> bytes) n (l : list A) :
  (forall x, length (f x) = n) -> length (concat (f <$> l)) = (length l * n)%nat.
Proof.
  intros Hf. induction l as [|x l IH]; [done|]. cbn [fmap list_fmap concat length].
  rewrite length_app, Hf. fold (fmap f l). rewrite IH. lia.
Qed.

(** Writing at the end of what is written, into the zeroed rest. *)
Lemma put_zero off n (P bs : bytes) :
  length P = off -> (length bs <= n)%nat ->
  put off bs (P ++ replicate n 0) = (P ++ bs) ++ replicate (n - length bs) 0.
Proof.
  intros HP Hn. pose proof (put_next off P bs (P ++ replicate n 0) HP) as H.
  rewrite drop_app_ge, HP, Nat.sub_diag, drop_0 in H by lia. rewrite H.
  - rewrite drop_app_ge by lia. rewrite drop_replicate. do 3 f_equal. lia.
  - rewrite length_app, length_replicate. lia.
Qed.

Lemma skip_zero k n (P : bytes) :
  (k <= n)%nat -> P ++ replicate n 0 = (P ++ replicate k 0) ++ replicate (n - k) 0.
Proof. intros Hk. rewrite <- app_assoc, <- replicate_add. do 2 f_equal. lia. Qed.

Lemma putValue_row m P n k :
  (16 <= n)%nat ->
  putValue m (P ++ replicate n 0, length P) k =
  ((P ++ valueRow m k) ++ replicate (n - 16) 0, (length (P ++ valueRow m k))%nat).
Proof.
  intros Hn. unfold putValue. rewrite put_zero by (rewrite ?length_le; lia).
  rewrite put_zero by (rewrite ?length_app, ?length_le; lia).
  rewrite !length_app, length_valueRow, !length_le. unfold valueRow. rewrite <- !app_assoc. do 5 f_equal. lia.
Qed.

Lemma putClient_row m P n c :
  (32 <= n)%nat ->
  putClient m (P ++ replicate n 0, length P) c =
  ((P ++ clientRow m c) ++ replicate (n - 32) 0, (length (P ++ clientRow m c))%nat).
Proof.
  intros Hn. unfold putClient. rewrite (length_app P), length_clientRow. unfold clientRow. cbn zeta.
  set (r := default _ _). rewrite put_zero by (rewrite ?length_le; lia).
  rewrite put_zero by (rewrite ?length_app, ?length_le; lia).
  rewrite put_zero by (rewrite ?length_app, ?length_le; lia). rewrite !length_le.
  f_equal. destruct (c_Found r).
  - rewrite put_zero by (rewrite ?length_app, ?length_le; cbn; lia).
    rewrite (skip_zero 7) by (cbn; lia).
    replace (n - 8 - 8 - 8 - length [1%Z] - 7)%nat with (n - 32)%nat by (cbn; lia). by rewrite <- !app_assoc.
  - rewrite (skip_zero 8) by lia. rewrite <- !app_assoc. change ([0] ++ replicate 7 0 ++ ?x) with (replicate 8 0 ++ x).
    by replace (n - 8 - 8 - 8 - 8)%nat with (n - 32)%nat by lia.
Qed.

(** A loop that appends rows of one size. *)
Lemma fold_rows (step : bytes * nat -> Z -> bytes * nat) (row : Z -> bytes) w :
  (forall x, length (row x) = w) ->
  (forall P n x, (w <= n)%nat ->
     step (P ++ replicate n 0, length P) x = ((P ++ row x) ++ replicate (n - w) 0, length (P ++ row x))) ->
  forall l P n, (length l * w <= n)%nat ->
    foldl step (P ++ replicate n 0, length P) l =
    ((P ++ concat (row <$> l)) ++ replicate (n - length l * w) 0, length (P ++ concat (row <$> l))).
Proof.
  intros Hrow Hstep. induction l as [|x l IH]; intros P n Hn; cbn [foldl length] in *.
  - cbn. by rewrite app_nil_r, Nat.sub_0_r.
  - rewrite Hstep by lia. rewrite IH by lia. cbn [fmap list_fmap concat]. rewrite <- !(app_assoc P).
    do 3 f_equal. f_equal. lia.
Qed.

Lemma snapshot_layout ks cs m :
  Snapshot ks cs m =
  layout (sortKeys ks) (sortKeys cs) m ++ le 4 (crc32c (layout (sortKeys ks) (sortKeys cs) m)).
Proof.
  unfold Snapshot. set (K := sortKeys ks). set (C := sortKeys cs). cbn zeta.
  set (size := (20 + length K * 16 + length C * 32)%nat).
  assert (put 12 (le 4 (w32 (len C))) (put 8 (le 4 (w32 (len K))) (put 4 (le 2 1) (put 0 magic (replicate size 0)))) =
          head (len K) (len C) ++ replicate (size - 16) 0) as ->.
  { change (replicate size 0) with ([] ++ replicate size 0).
    rewrite put_zero by (cbn; unfold size; lia).
    rewrite put_zero by (rewrite ?length_le; cbn; unfold size; lia).
    rewrite (skip_zero 2) by (rewrite ?length_le; cbn; unfold size; lia).
    rewrite put_zero by (rewrite ?length_app, ?length_le; cbn; unfold size; lia).
    rewrite put_zero by (rewrite ?length_app, ?length_le; cbn; unfold size; lia).
    rewrite !length_le. unfold head. rewrite <- !app_assoc. do 6 f_equal. }
  assert (length (head (len K) (len C)) = 16%nat) as Hh by (unfold head; by rewrite !length_app, !length_le).
  pose proof (fold_rows _ (valueRow m) 16 (length_valueRow m) (putValue_row m) K
    (head (len K) (len C)) (size - 16) ltac:(unfold size; lia)) as E1. rewrite Hh in E1. rewrite E1.
  rewrite (fold_rows _ (clientRow m) 32 (length_clientRow m) (putClient_row m)) by (unfold size; lia).
  replace (size - 16 - length K * 16 - length C * 32)%nat with 4%nat by (unfold size; lia).
  assert ((head (len K) (len C) ++ concat (valueRow m <$> K)) ++ concat (clientRow m <$> C) = layout K C m) as ->
    by (unfold layout; by rewrite app_assoc).
  set (L := layout K C m).
  rewrite length_app, length_replicate, Nat.add_sub, take_app_length.
  rewrite put_zero by (rewrite ?length_le; done). by rewrite length_le, app_nil_r.
Qed.

(** *** Reading it back *)

Definition wf_client (r : clientRecord) : Prop := is_u64 (c_RequestID r) /\ is_u64 (c_Value r).

(** The machine's data fit their Go types, and the counts 32 bits. *)
Record wf_machine (m : Machine) : Prop := {
  wfm_values : map_Forall (fun k v => is_u64 k /\ is_u64 v) (values m);
  wfm_clients : map_Forall (fun c r => is_u64 c /\ wf_client r) (clients m);
  wfm_counts : Z.of_nat (size (values m)) < 2 ^ 32 /\ Z.of_nat (size (clients m)) < 2 ^ 32
}.

(** [l] is an iteration order of the map. *)
Definition iterates {A} (l : list Z) (m : gmap Z A) : Prop := l ≡ₚ (map_to_list m).*1.

Lemma iterates_elem {A} l (m : gmap Z A) k : iterates l m -> k ∈ l <-> is_Some (m !! k).
Proof.
  intros Hl. rewrite Hl, list_elem_of_fmap. split.
  - intros ([k' v] & -> & H). apply elem_of_map_to_list in H. by exists v.
  - intros [v Hv]. exists (k, v). split; [done|]. by apply elem_of_map_to_list.
Qed.

Lemma iterates_length {A} l (m : gmap Z A) : iterates l m -> length l = size m.
Proof. intros Hl. rewrite Hl, length_fmap. apply length_map_to_list. Qed.

Lemma sort_perm l : sortKeys l ≡ₚ l.
Proof. apply merge_sort_Permutation. Qed.

Lemma iterates_sort {A} l (m : gmap Z A) : iterates l m -> iterates (sortKeys l) m.
Proof. intros Hl. unfold iterates. by rewrite sort_perm. Qed.

(** Three fields of eight bytes, found by their position in a row. *)
Lemma sub_row a b (P x Q : bytes) o :
  length P = o -> (o <= a)%nat -> (b <= o + length x)%nat -> sub a b (P ++ x ++ Q) = sub (a - o) (b - o) x.
Proof.
  intros HP Ha Hb. rewrite sub_skip, HP by lia. unfold sub.
  rewrite drop_app. rewrite take_app_le by (rewrite length_drop; lia). done.
Qed.

Lemma getValues_rows m l :
  (forall k, k ∈ l -> is_u64 k /\ is_u64 (default 0 (values m !! k))) ->
  forall P Q vs, getValues (P ++ concat (valueRow m <$> l) ++ Q) (length l) (length P) vs =
    (foldl (fun vs k => <[k := default 0 (values m !! k)]> vs) vs l, (length P + length l * 16)%nat).
Proof.
  induction l as [|k l IH]; intros Hu P Q vs; cbn [length getValues foldl].
  - by rewrite Nat.add_0_r.
  - destruct (Hu k (list_elem_of_here _ _)) as [Hk Hv].
    cbn [fmap list_fmap concat]. fold (fmap (valueRow m) l). rewrite <- (app_assoc (valueRow m k)).
    set (R := concat (valueRow m <$> l) ++ Q).
    rewrite !(sub_row _ _ P (valueRow m k) R (length P)) by (rewrite ?length_valueRow; lia).
    replace (length P + 8 - length P)%nat with 8%nat by lia. rewrite Nat.sub_diag.
    replace (length P + 16 - length P)%nat with 16%nat by lia.
    assert (sub 0 8 (valueRow m k) = le 8 k) as ->.
    { unfold valueRow. apply sub_head, length_le. }
    assert (sub 8 16 (valueRow m k) = le 8 (default 0 (values m !! k))) as ->.
    { unfold valueRow. rewrite sub_skip, length_le by (rewrite length_le; lia).
      rewrite <- (app_nil_r (le 8 (default _ _))) at 1. apply sub_head, length_le. }
    rewrite !leGet_le by done. unfold R. rewrite (app_assoc P).
    replace (length P + 16)%nat with (length (P ++ valueRow m k)) by (rewrite length_app, length_valueRow; done).
    rewrite IH by (intros x Hx; apply Hu; by apply elem_of_cons; right). f_equal. rewrite length_app, length_valueRow. lia.
Qed.

Lemma getClients_rows m l :
  (forall c, c ∈ l -> is_u64 c /\ wf_client (default (mkClient 0 0 false) (clients m !! c))) ->
  forall P Q cs, getClients (P ++ concat (clientRow m <$> l) ++ Q) (length l) (length P) cs =
    foldl (fun cs c => <[c := default (mkClient 0 0 false) (clients m !! c)]> cs) cs l.
Proof.
  induction l as [|c l IH]; intros Hu P Q cs; cbn [length getClients foldl]; [done|].
  destruct (Hu c (list_elem_of_here _ _)) as [Hc [Hr Hv]].
  cbn [fmap list_fmap concat]. fold (fmap (clientRow m) l). rewrite <- (app_assoc (clientRow m c)).
  set (R := concat (clientRow m <$> l) ++ Q). set (r := default _ (clients m !! c)) in *.
  assert (nth (length P + 24) (P ++ clientRow m c ++ R) 0 = if c_Found r then 1 else 0) as ->.
  { rewrite app_nth2_plus, app_nth1 by (rewrite length_clientRow; lia). unfold clientRow. cbn zeta. fold r.
    rewrite !app_nth2 by (rewrite ?length_le; lia). rewrite !length_le. by destruct (c_Found r). }
  rewrite !(sub_row _ _ P (clientRow m c) R (length P)) by (rewrite ?length_clientRow; lia).
  replace (length P + 8 - length P)%nat with 8%nat by lia. rewrite Nat.sub_diag.
  replace (length P + 16 - length P)%nat with 16%nat by lia.
  replace (length P + 24 - length P)%nat with 24%nat by lia.
  assert (sub 0 8 (clientRow m c) = le 8 c) as -> by (apply sub_head, length_le).
  assert (sub 8 16 (clientRow m c) = le 8 (c_RequestID r)) as ->.
  { unfold clientRow. cbn zeta. fold r. rewrite sub_skip, length_le by (rewrite length_le; lia). apply sub_head, length_le. }
  assert (sub 16 24 (clientRow m c) = le 8 (c_Value r)) as ->.
  { unfold clientRow. cbn zeta. fold r. do 2 (rewrite sub_skip, length_le by (rewrite length_le; lia)).
    apply sub_head, length_le. }
  rewrite !leGet_le by done. unfold R. rewrite (app_assoc P).
  replace (length P + 32)%nat with (length (P ++ clientRow m c)) by (rewrite length_app, length_clientRow; done).
  rewrite IH by (intros x Hx; apply Hu; by apply elem_of_cons; right). f_equal. destruct r as [? ? []]; done.
Qed.

Lemma foldl_restore {A} (f : Z -> A) l (vs : gmap Z A) k :
  foldl (fun vs k => <[k := f k]> vs) vs l !! k = if decide (k ∈ l) then Some (f k) else vs !! k.
Proof.
  revert vs. induction l as [|x l IH]; intros vs; cbn [foldl]; [by rewrite decide_False by apply not_elem_of_nil|].
  rewrite IH. destruct (decide (k ∈ l)) as [H|H].
  - by rewrite decide_True by (by apply elem_of_cons; right).
  - destruct (decide (k = x)) as [->|Hne].
    + rewrite lookup_insert_eq, decide_True; [done|by apply elem_of_cons; left].
    + rewrite lookup_insert_ne, decide_False; [done| |done]. rewrite elem_of_cons. tauto.
Qed.

Lemma restore_map {A} (d : A) l (m : gmap Z A) :
  iterates l m -> foldl (fun vs k => <[k := default d (m !! k)]> vs) ∅ l = m.
Proof.
  intros Hl. apply map_eq. intros k. rewrite (foldl_restore (fun k => default d (m !! k))), lookup_empty.
  case_decide as Hk; rewrite (iterates_elem l m k Hl) in Hk.
  - destruct Hk as [v ->]. done.
  - symmetry. by apply eq_None_not_Some.
Qed.

Lemma layout_bytes K C m : Forall byte (layout K C m).
Proof.
  unfold layout, head. rewrite !Forall_app. split_and!; try apply le_bytes; try (repeat constructor; unfold byte; lia).
  - apply Forall_concat, Forall_fmap, Forall_forall. intros k _.
    unfold compose, valueRow. apply Forall_app. split; apply le_bytes.
  - apply Forall_concat, Forall_fmap, Forall_forall. intros c _.
    unfold compose, clientRow. cbn zeta.
    rewrite !Forall_app. split_and!; try apply le_bytes.
    + destruct (c_Found _); repeat constructor; unfold byte; lia.
    + repeat constructor; unfold byte; lia.
Qed.

Lemma length_head a b : length (head a b) = 16%nat.
Proof. unfold head. by rewrite !length_app, !length_le. Qed.

Lemma length_layout K C m : length (layout K C m) = (16 + length K * 16 + length C * 32)%nat.
Proof.
  unfold layout. rewrite !length_app, length_head, (length_rows _ 16), (length_rows _ 32);
    [lia|apply length_clientRow|apply length_valueRow].
Qed.

(** What [Restore] accepts ends in the checksum of the rest. *)
Lemma restore_checked s m :
  Restore s = inr m -> (20 <= length s)%nat /\ crc32c (take (length s - 4) s) = leGet (drop (length s - 4) s).
Proof.
  unfold Restore. cbn zeta. destruct (Nat.ltb_spec (length s) 20); [done|]. cbn [orb].
  destruct (negb _ || _); [done|].
  destruct (Z.eqb_spec (crc32c (take (length s - 4) s)) (leGet (drop (length s - 4) s))); [|done]. done.
Qed.

Lemma restore_layout K C m :
  wf_machine m -> iterates K (values m) -> iterates C (clients m) ->
  Restore (layout K C m ++ le 4 (crc32c (layout K C m))) = inr m.
Proof.
  intros [Hv Hc [Hn1 Hn2]] HK HC. pose proof (length_layout K C m) as Hl.
  unfold Restore. cbn zeta. set (L := layout K C m) in *. set (s := L ++ le 4 (crc32c L)).
  assert (length s = length L + 4)%nat as Hs by (unfold s; by rewrite length_app, length_le).
  rewrite Hs, Nat.add_sub. assert (take (length L) s = L) as -> by apply take_app_length.
  assert (drop (length L) s = le 4 (crc32c L)) as -> by apply drop_app_length.
  rewrite (leGet_le 4) by apply crc32c_u32, layout_bytes. rewrite (Z.eqb_refl (crc32c L)). cbn [negb].
  assert (s = head (len K) (len C) ++ concat (valueRow m <$> K) ++ concat (clientRow m <$> C) ++ le 4 (crc32c L)) as Es.
  { unfold s, L at 1, layout. by rewrite <- !app_assoc. }
  rewrite (proj2 (Nat.ltb_ge _ _)) by lia. rewrite bool_decide_true by (rewrite Es; reflexivity).
  assert (leGet (sub 4 6 s) = 1) as -> by (rewrite Es; reflexivity). cbn [negb orb Z.eqb Pos.eqb].
  assert (sub 8 12 s = le 4 (w32 (len K))) as -> by (rewrite Es; reflexivity).
  assert (sub 12 16 s = le 4 (w32 (len C))) as -> by (rewrite Es; reflexivity).
  assert (length K = size (values m) /\ length C = size (clients m)) as [HnK HnC]
    by (split; by apply iterates_length).
  assert (w32 (len K) = len K /\ w32 (len C) = len C) as [-> ->].
  { unfold w32, len. rewrite !Z.mod_small by lia. done. }
  rewrite !(leGet_le 4) by (unfold len; cbn; lia).
  assert (20 + len K * 16 + len C * 32 =? len s = true) as -> by (apply Z.eqb_eq; unfold len; rewrite Hs; lia).
  cbn [negb]. unfold len at 1 2. rewrite !Nat2Z.id, Es.
  rewrite <- (length_head (len K) (len C)) at 1. rewrite getValues_rows.
  2: { intros k Hk. apply (iterates_elem K _ k HK) in Hk as [v Hk]. rewrite Hk. by apply Hv. }
  rewrite (restore_map 0 K (values m) HK), (app_assoc (head _ _)).
  replace (length (head (len K) (len C)) + length K * 16)%nat
    with (length (head (len K) (len C) ++ concat (valueRow m <$> K)))
    by (rewrite length_app, (length_rows _ 16); [done|apply length_valueRow]).
  rewrite getClients_rows.
  2: { intros c Hk. apply (iterates_elem C _ c HC) in Hk as [r Hk]. rewrite Hk. by apply Hc. }
  rewrite (restore_map _ C (clients m) HC). by destruct m.
Qed.

Lemma sortKeys_unique l l' : l ≡ₚ l' -> sortKeys l = sortKeys l'.
Proof.
  intros H. apply (Sorted_unique Z.le); [apply Sorted_merge_sort, _..|]. by rewrite !sort_perm.
Qed.

Lemma restore_changed L i b :
  Forall byte L -> (i < length L + 4)%nat -> byte b -> (L ++ le 4 (crc32c L)) !! i <> Some b ->
  Restore (<[i := b]> (L ++ le 4 (crc32c L))) = inl ErrBadSnapshot.
Proof.
  intros HL Hi Hb Hne. destruct (Restore _) as [e|m] eqn:E.
  - revert E. unfold Restore. cbn zeta. destruct (_ || _); [by intros [= <-]|].
    destruct (negb _); [by intros [= <-]|]. destruct (negb _); [by intros [= <-]|].
    by destruct (getValues _ _ _ _).
  - apply restore_checked in E as [_ E]. rewrite length_insert, length_app, length_le, Nat.add_sub in E.
    by apply sealed_changed in E.
Qed.

(** Snapshots of the machine.  Whatever order Go iterates the two maps in, the
    snapshot is the same list of bytes; it is restored to the same machine, with
    every value and every client's last reply; and with any one byte changed it
    is rejected. *)
Theorem machine_snapshot m ks cs :
  wf_machine m -> iterates ks (values m) -> iterates cs (clients m) ->
  Restore (Snapshot ks cs m) = inr m /\
  (forall ks' cs', iterates ks' (values m) -> iterates cs' (clients m) ->
     Snapshot ks' cs' m = Snapshot ks cs m) /\
  (forall i b, (i < length (Snapshot ks cs m))%nat -> byte b -> Snapshot ks cs m !! i <> Some b ->
     Restore (<[i := b]> (Snapshot ks cs m)) = inl ErrBadSnapshot).
Proof.
  intros Hm Hk Hc. split; [|split].
  - rewrite snapshot_layout. by apply restore_layout; [|apply iterates_sort..].
  - intros ks' cs' Hk' Hc'. rewrite !snapshot_layout.
    by rewrite (sortKeys_unique ks' ks), (sortKeys_unique cs' cs) by (unfold iterates in *; by rewrite ?Hk', ?Hc').
  - rewrite snapshot_layout. intros i b Hi. apply restore_changed; [apply layout_bytes|].
    by rewrite length_app, length_le in Hi.
Qed.

(** ** Exactly once *)

(** What a log of entries means: the requests that are accepted, which depends
    only on the request numbers, and their effects on a plain map. *)
Fixpoint accepted (last : gmap Z Z) (es : list Entry) : list Entry :=
  match es with
  | [] => []
  | e :: es =>
      let known := (e_Operation e =? CommandPut) || (e_Operation e =? CommandDelete) in
      let newer := match last !! e_ClientID e with Some r => r <? e_RequestID e | None => true end in
      if known && newer then e :: accepted (<[e_ClientID e := e_RequestID e]> last) es
      else accepted last es
  end.

Definition plain (vs : gmap Z Z) (e : Entry) : gmap Z Z :=
  if e_Operation e =? CommandPut then <[e_Key e := e_Value e]> vs else delete (e_Key e) vs.

Definition applyAll (es : list Entry) (m : Machine) : Machine := foldl (fun m e => (Apply e m).1) m es.

Lemma execute_plain e vs :
  execute e vs =
  if e_Operation e =? CommandPut then Some (plain vs e, e_Value e, true)
  else if e_Operation e =? CommandDelete
  then Some (plain vs e, default 0 (vs !! e_Key e), bool_decide (is_Some (vs !! e_Key e))) else None.
Proof. unfold execute, plain. by destruct (e_Operation e =? CommandPut). Qed.

Lemma Apply_accepted e m :
  let known := (e_Operation e =? CommandPut) || (e_Operation e =? CommandDelete) in
  let newer := match c_RequestID <$> clients m !! e_ClientID e with Some r => r <? e_RequestID e | None => true end in
  values (Apply e m).1 = (if known && newer then plain (values m) e else values m) /\
  c_RequestID <$> clients (Apply e m).1 =
  (if known && newer then <[e_ClientID e := e_RequestID e]> (c_RequestID <$> clients m) else c_RequestID <$> clients m).
Proof.
  cbn zeta. unfold Apply. destruct (Z.eqb_spec (e_Operation e) CommandLegacy) as [->|_]; [done|].
  rewrite execute_plain.
  destruct (clients m !! e_ClientID e) as [r|] eqn:E; cbn.
  - destruct (Z.eqb_spec (c_RequestID r) (e_RequestID e)) as [Heq|Hne].
    { rewrite Heq, Z.ltb_irrefl, andb_false_r. done. }
    destruct (Z.ltb_spec (e_RequestID e) (c_RequestID r)), (Z.ltb_spec (c_RequestID r) (e_RequestID e));
      try lia; rewrite ?andb_false_r, ?andb_true_r; [done|].
    destruct (e_Operation e =? CommandPut), (e_Operation e =? CommandDelete); cbn; rewrite ?fmap_insert; done.
  - rewrite andb_true_r.
    destruct (e_Operation e =? CommandPut), (e_Operation e =? CommandDelete); cbn; rewrite ?fmap_insert; done.
Qed.

Lemma applyAll_accepted es : forall m,
  values (applyAll es m) = foldl plain (values m) (accepted (c_RequestID <$> clients m) es).
Proof.
  induction es as [|e es IH]; intros m; [done|]. cbn [applyAll foldl accepted].
  fold (applyAll es (Apply e m).1). rewrite IH. destruct (Apply_accepted e m) as [Hv Hc]. rewrite Hv, Hc.
  rewrite lookup_fmap. by destruct (_ && _).
Qed.

(** Accepted request numbers exceed those already known for their client. *)
Lemma accepted_newer es : forall last c r e,
  last !! c = Some r -> e ∈ accepted last es -> e_ClientID e = c -> r < e_RequestID e.
Proof.
  induction es as [|x es IH]; intros last c r e Hl He Hc; cbn [accepted] in He; [by apply elem_of_nil in He|].
  destruct (_ || _); cbn [andb] in He; [|by eapply IH].
  destruct (match last !! e_ClientID x with Some r => _ | None => _ end) eqn:Hn; [|by eapply IH].
  apply elem_of_cons in He as [->|He].
  - rewrite Hc, Hl in Hn. by apply Z.ltb_lt in Hn.
  - destruct (decide (e_ClientID x = c)) as [Hx|Hx].
    + rewrite Hx, Hl in Hn. apply Z.ltb_lt in Hn.
      assert (e_RequestID x < e_RequestID e); [|lia]. eapply IH; [|exact He|exact Hc].
      rewrite Hx. apply lookup_insert_eq.
    + eapply IH; [|exact He|exact Hc]. by rewrite lookup_insert_ne.
Qed.

Lemma accepted_nodup es : forall last, NoDup ((fun e => (e_ClientID e, e_RequestID e)) <$> accepted last es).
Proof.
  induction es as [|x es IH]; intros last; cbn [accepted]; [constructor|].
  destruct (_ && _); [|apply IH]. cbn. constructor; [|apply IH].
  intros (y & E & Hy)%list_elem_of_fmap. injection E as E1 E2.
  pose proof (accepted_newer es _ (e_ClientID x) (e_RequestID x) y (lookup_insert_eq _ _ _) Hy (eq_sym E1)). lia.
Qed.

(** The reply stored for a client changes only with a newer request of it. *)
Lemma Apply_clients e m c r :
  clients m !! c = Some r -> (e_ClientID e = c -> e_RequestID e <= c_RequestID r) ->
  clients (Apply e m).1 !! c = Some r.
Proof.
  intros Hc Hle. unfold Apply. destruct (_ =? CommandLegacy); [done|].
  destruct (decide (e_ClientID e = c)) as [Heq|Hne].
  - rewrite Heq, Hc. destruct (Z.eqb_spec (c_RequestID r) (e_RequestID e)); [done|].
    specialize (Hle Heq). by destruct (Z.ltb_spec (e_RequestID e) (c_RequestID r)); [|lia].
  - destruct (clients m !! e_ClientID e) as [r'|]; [destruct (_ =? _); [done|destruct (_ <? _); [done|]]|];
      destruct (execute e (values m)) as [[[vs v] f]|]; cbn; try done; by rewrite lookup_insert_ne.
Qed.

Lemma applyAll_clients es : forall m c r,
  clients m !! c = Some r -> (forall e, e ∈ es -> e_ClientID e = c -> e_RequestID e <= c_RequestID r) ->
  clients (applyAll es m) !! c = Some r.
Proof.
  induction es as [|e es IH]; intros m c r Hc Hle; [done|]. cbn.
  apply (IH (Apply e m).1); [apply Apply_clients; [done|]|]; intros; apply Hle; auto; set_solver.
Qed.

Lemma Apply_reply e m m' res :
  e_Operation e <> CommandLegacy -> Apply e m = (m', inr res) ->
  clients m' !! e_ClientID e = Some (mkClient (e_RequestID e) (Value res) (Found res)) /\
  ClientID res = e_ClientID e /\ RequestID res = e_RequestID e.
Proof.
  intros Hop. unfold Apply. destruct (Z.eqb_spec (e_Operation e) CommandLegacy); [done|].
  destruct (clients m !! e_ClientID e) as [r|] eqn:Hc;
    [destruct (Z.eqb_spec (c_RequestID r) (e_RequestID e)) as [Heq|]; [|destruct (_ <? _); [done|]]|].
  - intros [= <- <-]. rewrite Hc. cbn. rewrite <- Heq. by destruct r.
  - destruct (execute e (values m)) as [[[vs v] f]|]; [|done]. intros [= <- <-]. cbn. by rewrite lookup_insert_eq.
  - destruct (execute e (values m)) as [[[vs v] f]|]; [|done]. intros [= <- <-]. cbn. by rewrite lookup_insert_eq.
Qed.

(** C21 Exactly-once semantics.  The values after applying a log are those of
    running, on a plain map, each accepted request once, where acceptance is
    decided by the request numbers alone and no client request is accepted twice;
    and a request whose reply was given is answered with the same reply, without
    any effect, until the client sends a newer one. *)
Theorem machine_exactly_once es :
  values (applyAll es New) = foldl plain ∅ (accepted ∅ es) /\
  NoDup ((fun e => (e_ClientID e, e_RequestID e)) <$> accepted ∅ es) /\
  (forall pre e post m1 res e',
     es = pre ++ e :: post -> e_Operation e <> CommandLegacy -> e_Operation e' <> CommandLegacy ->
     Apply e (applyAll pre New) = (m1, inr res) ->
     (forall x, x ∈ post -> e_ClientID x = e_ClientID e -> e_RequestID x <= e_RequestID e) ->
     e_ClientID e' = e_ClientID e -> e_RequestID e' = e_RequestID e ->
     Apply e' (applyAll es New) = (applyAll es New, inr res) /\
     Cached (e_ClientID e) (e_RequestID e) (applyAll es New) = inr (res, true)).
Proof.
  split; [|split; [apply accepted_nodup|]].
  - rewrite applyAll_accepted. cbn. by rewrite fmap_empty.
  - intros pre e post m1 res e' -> Hop Hop' HA Hpost HC HR.
    destruct (Apply_reply e _ m1 res Hop HA) as (Hm1 & H1 & H2).
    assert (applyAll (pre ++ e :: post) New = applyAll post m1) as ->.
    { unfold applyAll. rewrite foldl_app. cbn. fold (applyAll pre New). by rewrite HA. }
    pose proof (applyAll_clients post m1 _ _ Hm1 Hpost) as Hc.
    unfold Apply, Cached. destruct (Z.eqb_spec (e_Operation e') CommandLegacy); [done|].
    rewrite HC, Hc, HR. cbn. rewrite Z.eqb_refl, Z.ltb_irrefl. rewrite <- H1, <- H2. by destruct res.
Qed.

Module Demo.

Definition put (c r k v : Z) : Entry := mkEntry 1 0 0 0 0 CommandPut c r k v.
Definition del (c r k : Z) : Entry := mkEntry 1 0 0 0 0 CommandDelete c r k 0.

(** A retried put, a delete by another client, and a stale request. *)
Definition log : list Entry := [put 1 1 10 20; put 1 1 10 20; del 2 1 10; put 1 1 10 20; put 1 2 11 5; put 1 1 12 6].

Definition machine : Machine := applyAll log New.

Lemma machine_wf : wf_machine machine.
Proof.
  split; [| |split; reflexivity].
  - change (values machine) with ({[11 := 5]} : gmap Z Z). intros k v [<- <-]%lookup_singleton_Some. repeat split; lia.
  - change (clients machine) with ({[2 := mkClient 1 20 true; 1 := mkClient 2 5 true]} : gmap Z clientRecord).
    intros c r [[<- <-]|[_ [<- <-]%lookup_singleton_Some]]%lookup_insert_Some; repeat split; cbn; lia.
Defined.

Lemma machine_snapshot_witness :
  Restore (Snapshot [11] [2; 1] machine) = inr machine /\
  Snapshot [11] [1; 2] machine = Snapshot [11] [2; 1] machine.
Proof.
  destruct (machine_snapshot machine [11] [2; 1] machine_wf) as (HR & HD & _).
  - unfold iterates. vm_compute. reflexivity.
  - unfold iterates. vm_compute. first [reflexivity|apply Permutation_swap].
  - split; [exact HR|]. apply HD; unfold iterates; vm_compute; first [reflexivity|apply Permutation_swap].
Defined.

Lemma machine_exactly_once_witness :
  values machine = foldl plain ∅ [put 1 1 10 20; del 2 1 10; put 1 2 11 5] /\
  Apply (put 2 1 99 7) machine = (machine, inr (mkResult 2 1 20 true)).
Proof.
  destruct (machine_exactly_once log) as (HV & _ & HR). split; [exact HV|].
  refine (proj1 (HR [put 1 1 10 20; put 1 1 10 20] (del 2 1 10) [put 1 1 10 20; put 1 2 11 5; put 1 1 12 6]
    _ _ (put 2 1 99 7) eq_refl _ _ eq_refl _ eq_refl eq_refl)); [discriminate|discriminate|].
  intros x Hx. repeat (apply elem_of_cons in Hx as [->|Hx]; [discriminate|]). by apply elem_of_nil in Hx.
Defined.

End Demo.
End StateMachine.
