(* ===== verification/EventHeap.v ===== *)
(** * The schedule of the simulation engine

    The event queue of [dst/engine.go] is a binary heap in a slice.  Results: it
    is a heap after every operation, no event is lost or invented, and [pop]
    returns the event that a linear scan for the earliest one would return. *)

From S2P Require Import Prelude.

Section heap.
Context {M : Type}.

Record event := mkEvent { ev_at : Z; ev_seq : Z; ev_from : Z; ev_to : Z; ev_msg : M }.

Implicit Types q : list event.
Implicit Types a b : event.

Definition earlier a b : bool :=
  (ev_at a <? ev_at b) || ((ev_at a =? ev_at b) && (ev_seq a <? ev_seq b)).

(** [earlier(e.queue[i], e.queue[j])] for indices in range. *)
Definition earlierAt q (i j : nat) : bool :=
  match q !! i, q !! j with Some a, Some b => earlier a b | _, _ => false end.

(** [e.queue[i], e.queue[j] = e.queue[j], e.queue[i]]. *)
Definition swap q (i j : nat) : list event :=
  match q !! i, q !! j with Some a, Some b => <[j := a]> (<[i := b]> q) | _, _ => q end.

(** The loop of [push].  The index shrinks, so the length is enough fuel. *)
Fixpoint siftUp (fuel i : nat) q : list event :=
  match fuel with
  | O => q
  | S fuel =>
      if (i =? 0)%nat then q else
      let parent := ((i - 1) / 2)%nat in
      if negb (earlierAt q i parent) then q else siftUp fuel parent (swap q i parent)
  end.

Definition push (ev : event) q : list event :=
  let q := q ++ [ev] in siftUp (length q) (length q - 1) q.

(** The loop of [siftDown].  The index grows, so the length is enough fuel. *)
Fixpoint siftDownLoop (fuel i : nat) q : list event :=
  match fuel with
  | O => q
  | S fuel =>
      let n := length q in
      let left := (2 * i + 1)%nat in
      let smallest := if (left <? n)%nat && earlierAt q left i then left else i in
      let right := (left + 1)%nat in
      let smallest := if (right <? n)%nat && earlierAt q right smallest then right else smallest in
      if (smallest =? i)%nat then q else siftDownLoop fuel smallest (swap q i smallest)
  end.

Definition siftDown (i : nat) q : list event := siftDownLoop (length q) i q.

(** [None] is the panic of indexing an empty queue. *)
Definition pop q : option (event * list event) :=
  match q !! 0%nat, last q with
  | Some top, Some l => Some (top, siftDown 0 (take (length q - 1) (<[0%nat := l]> q)))
  | _, _ => None
  end.

(** The rebuild of [Isolate] after filtering. *)
Definition rebuild q : list event := foldl (fun q i => siftDown i q) q (rev (seq 0 (length q / 2))).

Definition unrelated (node : Z) (ev : event) : bool := negb ((ev_from ev =? node) || (ev_to ev =? node)).

Definition isolate (node : Z) q : list event * nat :=
  let kept := filter (fun ev => unrelated node ev = true) q in
  (rebuild kept, (length q - length kept)%nat).

(** ** The order *)

Lemma earlier_irrefl a : earlier a a = false.
Proof. unfold earlier. by rewrite !Z.ltb_irrefl, andb_false_r. Qed.

Lemma earlier_lt a b :
  earlier a b = true <-> ev_at a < ev_at b \/ ev_at a = ev_at b /\ ev_seq a < ev_seq b.
Proof. unfold earlier. rewrite orb_true_iff, andb_true_iff, !Z.ltb_lt, Z.eqb_eq. done. Qed.

Lemma earlier_ge a b :
  earlier a b = false <-> ev_at b < ev_at a \/ ev_at a = ev_at b /\ ev_seq b <= ev_seq a.
Proof.
  destruct (earlier a b) eqn:E; [apply earlier_lt in E; split; [done|lia]|].
  split; [|done]. intros _. assert (~ (earlier a b = true)) as H by congruence. rewrite earlier_lt in H. lia.
Qed.

Lemma not_earlier_trans a b (c : event) : earlier b a = false -> earlier c b = false -> earlier c a = false.
Proof. rewrite !earlier_ge. lia. Qed.

Lemma earlier_not a b : earlier a b = true -> earlier b a = false.
Proof. rewrite earlier_lt, earlier_ge. lia. Qed.

(** ** Swaps *)

Lemma lookup_swap q (i j k : nat) a b :
  q !! i = Some a -> q !! j = Some b -> i <> j ->
  swap q i j !! k = if decide (k = i) then Some b else if decide (k = j) then Some a else q !! k.
Proof.
  intros Ha Hb Hij. unfold swap. rewrite Ha, Hb.
  pose proof (lookup_lt_Some _ _ _ Ha). pose proof (lookup_lt_Some _ _ _ Hb).
  destruct (decide (k = i)) as [->|Hi].
  - rewrite list_lookup_insert_ne, list_lookup_insert_eq by (done || lia). done.
  - destruct (decide (k = j)) as [->|Hj].
    + apply list_lookup_insert_eq. by rewrite length_insert.
    + by rewrite !list_lookup_insert_ne by done.
Qed.

Lemma swap_perm q i j : swap q i j ≡ₚ q.
Proof.
  unfold swap. destruct (q !! i) as [a|] eqn:Ha, (q !! j) as [b|] eqn:Hb; try done.
  by apply Permutation_insert_swap.
Qed.

Lemma length_swap q i j : length (swap q i j) = length q.
Proof. by rewrite swap_perm. Qed.

Lemma siftUp_perm fuel i q : siftUp fuel i q ≡ₚ q.
Proof.
  revert i q. induction fuel as [|fuel IH]; intros i q; cbn [siftUp]; [done|].
  destruct (_ =? _)%nat; [done|]. destruct (negb _); [done|]. by rewrite IH, swap_perm.
Qed.

Lemma siftDown_perm fuel i q : siftDownLoop fuel i q ≡ₚ q.
Proof.
  revert i q. induction fuel as [|fuel IH]; intros i q; cbn [siftDownLoop]; [done|].
  destruct (_ =? _)%nat; [done|]. by rewrite IH, swap_perm.
Qed.

(** ** Heaps *)

Definition par (c : nat) : nat := ((c - 1) / 2)%nat.

Lemma par_bounds c : (0 < c)%nat -> (2 * par c + 1 = c \/ 2 * par c + 2 = c)%nat.
Proof. intros Hc. unfold par. pose proof (Nat.div_mod (c - 1) 2). pose proof (Nat.mod_upper_bound (c - 1) 2). lia. Qed.

(** The event at [c] is not earlier than the one at [p]. *)
Definition ord q (p c : nat) : Prop :=
  forall a b, q !! p = Some a -> q !! c = Some b -> earlier b a = false.

(** Ordered below every parent from [k] on. *)
Definition heapFrom (k : nat) q : Prop := forall c, (0 < c)%nat -> (k <= par c)%nat -> ord q (par c) c.

Definition heap q : Prop := heapFrom 0 q.

(** Ordered but for the children of [i], which are ordered below its parent. *)
Definition heapBut (k i : nat) q : Prop :=
  (forall c, (0 < c)%nat -> (k <= par c)%nat -> par c <> i -> ord q (par c) c) /\
  (forall c, (0 < c)%nat -> par c = i -> (0 < i)%nat -> (k <= par i)%nat -> ord q (par i) c).

(** Ordered but for [i] and its parent. *)
Definition heapAbove (i : nat) q : Prop :=
  (forall c, (0 < c)%nat -> c <> i -> ord q (par c) c) /\
  (forall c, (0 < c)%nat -> par c = i -> (0 < i)%nat -> ord q (par i) c).

(** The lookups of an exchange between [i] and one of its children [s]. *)
Lemma siftDown_step k i s q a b :
  heapBut k i q -> (0 < s)%nat -> par s = i -> (k <= i)%nat ->
  q !! i = Some a -> q !! s = Some b -> earlier b a = true ->
  (forall c b', (0 < c)%nat -> par c = i -> q !! c = Some b' -> earlier b' b = false) ->
  heapBut k s (swap q i s).
Proof.
  intros [H1 H2] Hs Hp Hk Ha Hb Hba Hmin. pose proof (par_bounds s Hs) as Bs.
  assert (i <> s) as Hne by lia. split.
  - intros c Hc Hkc Hcs x y. rewrite !(lookup_swap q i s _ a b) by done. pose proof (par_bounds c Hc) as Bc.
    destruct (decide (par c = i)) as [Hpi|Hpi].
    + destruct (decide (c = i)); [lia|]. intros [= <-].
      destruct (decide (c = s)) as [->|Hcs']; [intros [= <-]; by apply earlier_not|]. by apply Hmin.
    + destruct (decide (par c = s)); [done|]. destruct (decide (c = i)) as [->|Hci].
      * intros Hx [= <-]. apply (H2 s Hs Hp Hc Hkc x b Hx Hb).
      * destruct (decide (c = s)) as [->|]; [done|]. by apply H1.
  - intros c Hc Hpc _ Hki x y. rewrite Hp, !(lookup_swap q i s _ a b) by done.
    pose proof (par_bounds c Hc) as Bc. rewrite decide_True by done.
    rewrite !decide_False by lia. intros [= <-] Hy. apply (H1 c Hc); [lia|lia|by rewrite Hpc|done].
Qed.

Lemma siftDown_stop k i q :
  heapBut k i q -> (forall c a b, (0 < c)%nat -> par c = i -> q !! i = Some a -> q !! c = Some b -> earlier b a = false) ->
  heapFrom k q.
Proof.
  intros [H1 _] Hi c Hc Hk. destruct (decide (par c = i)) as [E|]; [|by apply H1].
  intros a b Ha Hb. rewrite E in Ha. by apply (Hi c a b).
Qed.

(** The comparisons of one iteration, read as a choice of the smallest child. *)
Lemma choose q i (left := (2 * i + 1)%nat) (right := (left + 1)%nat)
  (s1 := if (left <? length q)%nat && earlierAt q left i then left else i)
  (s := if (right <? length q)%nat && earlierAt q right s1 then right else s1) :
  (s = i /\ forall c a b, (0 < c)%nat -> par c = i -> q !! i = Some a -> q !! c = Some b -> earlier b a = false) \/
  (par s = i /\ (i < s)%nat /\ exists a b, q !! i = Some a /\ q !! s = Some b /\ earlier b a = true /\
     forall c b', (0 < c)%nat -> par c = i -> q !! c = Some b' -> earlier b' b = false).
Proof.
  assert (forall c, (0 < c)%nat -> par c = i -> c = left \/ c = right) as Hch.
  { intros c Hc Hp. pose proof (par_bounds c Hc). lia. }
  assert (par left = i /\ par right = i) as [Hpl Hpr].
  { pose proof (par_bounds left). pose proof (par_bounds right). lia. }
  assert (forall j k, (j <? length q)%nat && earlierAt q j k = true ->
    exists b a, q !! j = Some b /\ q !! k = Some a /\ earlier b a = true) as Htrue.
  { intros j k. rewrite andb_true_iff. intros [_ H]. unfold earlierAt in H.
    destruct (q !! j) as [b|], (q !! k) as [a|]; try done. by exists b, a. }
  assert (forall j k b a, (j <? length q)%nat && earlierAt q j k = false ->
    q !! j = Some b -> q !! k = Some a -> earlier b a = false) as Hfalse.
  { intros j k b a H Hb Ha. unfold earlierAt in H. rewrite Hb, Ha in H.
    apply lookup_lt_Some in Hb. apply Nat.ltb_lt in Hb. by rewrite Hb in H. }
  destruct ((left <? length q)%nat && earlierAt q left i) eqn:El;
    destruct ((right <? length q)%nat && earlierAt q right s1) eqn:Er; subst s1; cbv beta iota in *; unfold s.
  - right. split; [done|]. split; [lia|]. destruct (Htrue _ _ El) as (bl & a & Hl & Ha & Hla).
    destruct (Htrue _ _ Er) as (br & bl' & Hr & Hl' & Hrl). rewrite Hl in Hl'. injection Hl' as <-.
    exists a, br. split; [done|]. split; [done|]. split.
    { destruct (earlier br a) eqn:E; [done|]. apply earlier_not in Hrl.
      pose proof (not_earlier_trans a br bl E Hrl). congruence. }
    intros c b' Hc Hp Hb'. destruct (Hch c Hc Hp) as [-> | ->].
    + rewrite Hl in Hb'. injection Hb' as <-. by apply earlier_not.
    + rewrite Hr in Hb'. injection Hb' as <-. apply earlier_irrefl.
  - right. split; [done|]. split; [lia|]. destruct (Htrue _ _ El) as (bl & a & Hl & Ha & Hla).
    exists a, bl. split_and!; try done. intros c b' Hc Hp Hb'. destruct (Hch c Hc Hp) as [-> | ->].
    + rewrite Hl in Hb'. injection Hb' as <-. apply earlier_irrefl.
    + by apply (Hfalse right left b' bl).
  - right. split; [done|]. split; [lia|]. destruct (Htrue _ _ Er) as (br & a & Hr & Ha & Hra).
    exists a, br. split_and!; try done. intros c b' Hc Hp Hb'. destruct (Hch c Hc Hp) as [-> | ->].
    + eapply not_earlier_trans; [by apply earlier_not|]. by apply (Hfalse left i b' a).
    + rewrite Hr in Hb'. injection Hb' as <-. apply earlier_irrefl.
  - left. split; [done|]. intros c a b Hc Hp Ha Hb. destruct (Hch c Hc Hp) as [-> | ->].
    + by apply (Hfalse left i).
    + by apply (Hfalse right i).
Qed.

Lemma siftDown_heap fuel : forall k i q,
  (length q <= fuel + i)%nat -> (k <= i)%nat -> heapBut k i q -> heapFrom k (siftDownLoop fuel i q).
Proof.
  induction fuel as [|fuel IH]; intros k i q Hf Hk Hq; cbn [siftDownLoop].
  - eapply siftDown_stop; [done|]. intros c a b _ _ Ha. apply lookup_lt_Some in Ha. lia.
  - pose proof (choose q i) as H. cbv zeta in H. set (s := if _ && _ then _ else _) in *.
    destruct H as [[-> H]|(Hp & Hlt & a & b & Ha & Hb & Hba & Hmin)].
    + rewrite Nat.eqb_refl. by eapply siftDown_stop.
    + rewrite (proj2 (Nat.eqb_neq s i)) by lia. apply IH; [rewrite length_swap; lia|lia|].
      eapply siftDown_step; try done; lia.
Qed.

Lemma siftUp_step i q a b :
  heapAbove i q -> (0 < i)%nat -> q !! i = Some a -> q !! par i = Some b -> earlier a b = true ->
  heapAbove (par i) (swap q i (par i)).
Proof.
  intros [H1 H2] Hi Ha Hb Hab. pose proof (par_bounds i Hi) as Bi. set (p := par i) in *.
  assert (i <> p) as Hne by lia. split.
  - intros c Hc Hcp x y. rewrite !(lookup_swap q i p _ a b) by done. pose proof (par_bounds c Hc) as Bc.
    destruct (decide (c = i)) as [->|Hci].
    + fold p. rewrite decide_False, decide_True by lia. intros [= <-] [= <-]. by apply earlier_not.
    + rewrite (decide_False (P := c = p)) by done. destruct (decide (par c = i)) as [Hpi|Hpi].
      * intros [= <-] Hy. by apply (H2 c Hc Hpi Hi b y).
      * destruct (decide (par c = p)) as [Hpp|]; [|by apply H1].
        intros [= <-] Hy. eapply not_earlier_trans; [by apply earlier_not|].
        apply (H1 c Hc Hci); [by rewrite Hpp|done].
  - intros c Hc Hpc Hp x y. pose proof (par_bounds c Hc) as Bc. pose proof (par_bounds p Hp) as Bp.
    rewrite !(lookup_swap q i p _ a b) by done. rewrite !(decide_False (P := par p = _)) by lia.
    rewrite (decide_False (P := c = p)) by lia. intros Hx.
    pose proof (H1 p Hp (not_eq_sym Hne) x b Hx Hb) as Hbx.
    destruct (decide (c = i)) as [->|Hci]; [by intros [= <-]|]. intros Hy.
    eapply not_earlier_trans; [exact Hbx|]. apply (H1 c Hc Hci); [by rewrite Hpc|done].
Qed.

Lemma siftUp_heap fuel : forall i q,
  (i < length q)%nat -> (i < fuel)%nat -> heapAbove i q -> heap (siftUp fuel i q).
Proof.
  induction fuel as [|fuel IH]; intros i q Hi Hf Hq; cbn [siftUp]; [lia|].
  destruct (Nat.eqb_spec i 0) as [->|Hne].
  { intros c Hc _. apply Hq; lia. }
  fold (par i). pose proof (par_bounds i ltac:(lia)) as Bi.
  destruct (lookup_lt_is_Some_2 q i Hi) as [a Ha].
  destruct (lookup_lt_is_Some_2 q (par i)) as [b Hb]; [lia|].
  unfold earlierAt. rewrite Ha, Hb. destruct (earlier a b) eqn:E; cbn [negb].
  - apply IH; [rewrite length_swap; lia|lia|]. by apply (siftUp_step i q a b); [|lia|..].
  - intros c Hc _. destruct (decide (c = i)) as [->|]; [|by apply Hq].
    intros x y. rewrite Ha, Hb. by intros [= <-] [= <-].
Qed.

Lemma push_heap ev q : heap q -> heap (push ev q) /\ push ev q ≡ₚ ev :: q.
Proof.
  intros Hq. unfold push. split; [|rewrite siftUp_perm; by rewrite Permutation_app_comm].
  rewrite length_app. cbn [length]. rewrite Nat.add_sub. apply siftUp_heap; [rewrite length_app; cbn; lia|lia|].
  split.
  - intros c Hc Hne a b Ha Hb. pose proof (par_bounds c Hc). pose proof (lookup_lt_Some _ _ _ Hb) as Hl.
    rewrite length_app in Hl. cbn in Hl. rewrite lookup_app_l in Ha, Hb by lia. by apply (Hq c Hc ltac:(lia) a b).
  - intros c Hc Hp Hl a b Ha Hb. apply lookup_lt_Some in Hb. rewrite length_app in Hb. cbn in Hb.
    pose proof (par_bounds c Hc). lia.
Qed.

Lemma heap_root q top : heap q -> q !! 0%nat = Some top -> forall b, b ∈ q -> earlier b top = false.
Proof.
  intros Hq H0 b Hb. apply list_elem_of_lookup in Hb as [j Hj]. revert b Hj.
  induction j as [j IH] using lt_wf_ind. intros b Hj. destruct (decide (j = 0)%nat) as [->|Hne].
  - rewrite H0 in Hj. injection Hj as <-. apply earlier_irrefl.
  - pose proof (par_bounds j ltac:(lia)). pose proof (lookup_lt_Some _ _ _ Hj).
    destruct (lookup_lt_is_Some_2 q (par j)) as [a Ha]; [lia|].
    eapply not_earlier_trans; [apply (IH (par j) ltac:(lia) a Ha)|]. by apply (Hq j ltac:(lia) ltac:(lia) a b).
Qed.

Lemma pop_heap q :
  heap q ->
  match pop q with
  | None => q = []
  | Some (top, q') => heap q' /\ top :: q' ≡ₚ q /\ forall b, b ∈ q -> earlier b top = false
  end.
Proof.
  intros Hq. unfold pop. destruct q as [|top q0]; [done|]. cbn [lookup list_lookup].
  destruct (last (top :: q0)) as [l|] eqn:Hl; [|by apply last_None in Hl].
  set (q := top :: q0) in *. apply last_Some in Hl as [m Hm].
  assert (length q - 1 = length m)%nat as Hlen by (rewrite Hm, length_app; cbn; lia).
  rewrite Hlen. set (q1 := take (length m) (<[0%nat := l]> q)).
  assert (forall j, (0 < j)%nat -> (j < length m)%nat -> q1 !! j = q !! j) as Hlk.
  { intros j Hj Hjm. unfold q1. rewrite lookup_take_lt by done. by rewrite list_lookup_insert_ne by lia. }
  assert (length q1 <= length m)%nat as Hl1 by (unfold q1; rewrite length_take; lia).
  split; [|split].
  - apply siftDown_heap; [lia|lia|]. split; [|lia]. intros c Hc _ Hp a b Ha Hb.
    pose proof (par_bounds c Hc). apply lookup_lt_Some in Hb as Hbl.
    rewrite Hlk in Ha, Hb by lia. by apply (Hq c Hc ltac:(lia) a b).
  - unfold siftDown. rewrite siftDown_perm. unfold q1. rewrite Hm. destruct m as [|x m].
    + cbn in Hm |- *. unfold q in Hm. by injection Hm as -> ->.
    + unfold q in Hm. injection Hm as <- ->. cbn. rewrite take_app_length.
      apply Permutation_skip, Permutation_cons_append.
  - by apply heap_root.
Qed.

Lemma rebuild_loop : forall n q,
  heapFrom n q -> heapFrom 0 (foldl (fun q i => siftDown i q) q (rev (seq 0 n))) /\
  foldl (fun q i => siftDown i q) q (rev (seq 0 n)) ≡ₚ q.
Proof.
  induction n as [|n IH]; intros q Hq; [done|].
  rewrite seq_S, rev_app_distr. cbn [rev app foldl Nat.add]. destruct (IH (siftDown n q)) as [H1 H2].
  - apply siftDown_heap; [lia|lia|]. split.
    + intros c Hc Hk Hp. apply Hq; [done|lia].
    + intros c Hc Hp Hn Hk. pose proof (par_bounds n Hn). lia.
  - split; [done|]. rewrite H2. apply siftDown_perm.
Qed.

Lemma rebuild_heap q : heap (rebuild q) /\ rebuild q ≡ₚ q.
Proof.
  apply rebuild_loop. intros c Hc Hk a b Ha Hb. pose proof (par_bounds c Hc). apply lookup_lt_Some in Hb.
  pose proof (Nat.div_mod (length q) 2). pose proof (Nat.mod_upper_bound (length q) 2). lia.
Qed.

(** The queue of the simulation engine is a priority queue.  Starting from a
    heap, [push] adds exactly the new event, [pop] removes exactly one event,
    than which none in the queue is earlier, and panics only when the queue is
    empty, [isolate] keeps exactly the events of the other nodes and counts the
    rest, and each of them leaves a heap. *)
Theorem event_queue_spec q :
  heap q ->
  (forall ev, heap (push ev q) /\ push ev q ≡ₚ ev :: q) /\
  match pop q with
  | None => q = []
  | Some (top, q') => heap q' /\ top :: q' ≡ₚ q /\ forall b, b ∈ q -> earlier b top = false
  end /\
  forall node, let (q', dropped) := isolate node q in
    heap q' /\ q' ≡ₚ filter (fun ev => ev_from ev <> node /\ ev_to ev <> node) q /\
    (length q' + dropped = length q)%nat.
Proof.
  intros Hq. split; [intros ev; by apply push_heap|]. split; [by apply pop_heap|]. intros node. cbn.
  destruct (rebuild_heap (filter (fun ev => unrelated node ev = true) q)) as [H1 H2]. split; [done|].
  assert (filter (fun ev => unrelated node ev = true) q = filter (fun ev => ev_from ev <> node /\ ev_to ev <> node) q) as E.
  { apply filter_ext_in. intros ev _. unfold unrelated. rewrite negb_true_iff, orb_false_iff, !Z.eqb_neq. done. }
  rewrite H2. split; [by rewrite E|].
  pose proof (length_filter (fun ev => unrelated node ev = true) q). lia.
Qed.

(** ** The order of delivery *)

(** The reference: scan for the earliest event and take it out. *)
Fixpoint earliest (ev : event) q : event :=
  match q with
  | [] => ev
  | x :: q => earliest (if earlier x ev then x else ev) q
  end.

Fixpoint remove1 (ev : event) q : list event :=
  match q with
  | [] => []
  | x :: q => if (ev_at x =? ev_at ev) && (ev_seq x =? ev_seq ev) then q else x :: remove1 ev q
  end.

Definition scan q : option (event * list event) :=
  match q with
  | [] => None
  | x :: q' => let ev := earliest x q' in Some (ev, remove1 ev q)
  end.

Definition distinct q : Prop := NoDup (ev_seq <$> q).

Lemma distinct_eq q a b : distinct q -> a ∈ q -> b ∈ q -> ev_seq a = ev_seq b -> a = b.
Proof.
  intros Hd [i Ha]%list_elem_of_lookup [j Hb]%list_elem_of_lookup E.
  assert (i = j) as <-; [|congruence].
  apply (NoDup_lookup _ _ _ (ev_seq a) Hd); rewrite list_lookup_fmap; [by rewrite Ha|by rewrite Hb, E].
Qed.

Lemma earliest_spec q : forall ev,
  earliest ev q ∈ ev :: q /\ forall b, b ∈ ev :: q -> earlier b (earliest ev q) = false.
Proof.
  induction q as [|x q IH]; intros ev; cbn [earliest].
  - split; [apply list_elem_of_here|]. intros b ->%list_elem_of_singleton. apply earlier_irrefl.
  - destruct (IH (if earlier x ev then x else ev)) as [H1 H2]. split.
    + apply elem_of_cons in H1 as [->|H1]; [|by do 2 (apply elem_of_cons; right)].
      destruct (earlier x ev); rewrite !elem_of_cons; auto.
    + intros b Hb. pose proof (H2 _ (list_elem_of_here _ _)) as H0.
      rewrite !elem_of_cons in Hb. destruct Hb as [->|[->|Hb]].
      * destruct (earlier x ev) eqn:E; [|done]. eapply not_earlier_trans; [exact H0|by apply earlier_not].
      * destruct (earlier x ev) eqn:E; [done|]. eapply not_earlier_trans; [exact H0|done].
      * apply H2. by apply elem_of_cons; right.
Qed.

Lemma remove1_perm q ev : distinct q -> ev ∈ q -> ev :: remove1 ev q ≡ₚ q.
Proof.
  induction q as [|x q IH]; intros Hd Hev; [by apply elem_of_nil in Hev|]. cbn [remove1].
  destruct ((ev_at x =? ev_at ev) && (ev_seq x =? ev_seq ev)) eqn:E.
  - apply andb_true_iff in E as [_ E%Z.eqb_eq].
    by rewrite (distinct_eq (x :: q) x ev Hd (list_elem_of_here _ _) Hev E).
  - apply elem_of_cons in Hev as [->|Hev]; [by rewrite !Z.eqb_refl in E|].
    unfold distinct in Hd. cbn in Hd. apply NoDup_cons in Hd as [_ Hd].
    rewrite Permutation_swap. apply Permutation_skip. by apply IH.
Qed.

Lemma scan_spec q :
  distinct q ->
  match scan q with
  | None => q = []
  | Some (ev, q') => ev :: q' ≡ₚ q /\ forall b, b ∈ q -> earlier b ev = false
  end.
Proof.
  intros Hd. destruct q as [|x q]; [done|]. cbn [scan]. destruct (earliest_spec q x) as [H1 H2].
  split; [by apply remove1_perm|done].
Qed.

Lemma distinct_perm q q' : q ≡ₚ q' -> distinct q -> distinct q'.
Proof. intros H Hd. unfold distinct. by rewrite <- H. Qed.

(** The heap and the scan take out the same event. *)
Lemma pop_scan q q' :
  heap q -> q ≡ₚ q' -> distinct q ->
  match pop q, scan q' with
  | None, None => q = []
  | Some (a, r), Some (b, r') => a = b /\ heap r /\ r ≡ₚ r' /\ distinct r /\ a :: r ≡ₚ q
  | _, _ => False
  end.
Proof.
  intros Hq Hp Hd. pose proof (pop_heap q Hq) as H1. pose proof (scan_spec q' (distinct_perm q q' Hp Hd)) as H2.
  destruct (pop q) as [[a r]|].
  - destruct H1 as (Hr & Hpa & Hmin). destruct (scan q') as [[b r']|].
    + destruct H2 as [Hpb Hmin']. assert (a ∈ q) as Ha by (rewrite <- Hpa; apply list_elem_of_here).
      assert (b ∈ q) as Hb by (rewrite Hp, <- Hpb; apply list_elem_of_here).
      assert (a = b) as <-.
      { apply (distinct_eq q); [done..|]. pose proof (Hmin b Hb) as E1. rewrite Hp in Ha.
        pose proof (Hmin' a Ha) as E2. rewrite earlier_ge in E1, E2. lia. }
      split; [done|]. split; [done|]. split.
      { apply (Permutation_cons_inv (a := a)). by rewrite Hpa, Hpb. }
      split; [|done]. apply (distinct_perm _ (a :: r)) in Hd; [|done].
      unfold distinct in *. cbn in Hd. by apply NoDup_cons in Hd as [_ Hd].
    + subst q'. apply Permutation_nil_r in Hp. subst q. by apply Permutation_nil_r in Hpa.
  - subst q. apply Permutation_nil_l in Hp. subst q'. done.
Qed.

End heap.
Arguments event : clear implicits.

Lemma event_queue_spec_witness :
  let ev at_ seq := mkEvent at_ seq 1 2 tt in
  let q := push (ev 3 2) (push (ev 3 1) (push (ev 5 0) [])) in
  exists q', pop q = Some (ev 3 1, q') /\ heap q'.
Proof.
  cbn zeta.
  assert (heap (push (mkEvent 3 2 1 2 tt) (push (mkEvent 3 1 1 2 tt) (push (mkEvent 5 0 1 2 tt) [])))) as Hq.
  { do 3 apply push_heap. intros c Hc _ a b Ha. discriminate. }
  destruct (event_queue_spec _ Hq) as (_ & HP & _).
  destruct (pop _) as [[top q']|] eqn:E; [|vm_compute in E; discriminate].
  vm_compute in E. injection E as <- <-. eexists. split; [reflexivity|exact (proj1 HP)].
Defined.
