(* ===== verification/Engine.v ===== *)
(** * The deterministic simulation engine

    [dst/engine.go], [dst/inject.go] and [dst/invariant.go]: virtual time, seeded
    loss and delay, injected faults, the schedule, and the running trace, over an
    arbitrary cluster.  Results: the engine with its binary heap behaves exactly
    like one that scans a list for the earliest message; faults never shift the
    random draws; a step terminates when the cluster's traffic does. *)

From S2P Require Import Prelude Bytes EventHeap.

(** ** dst/inject.go *)

Record Injector := mkInjector {
  i_Name : string;
  i_Allow : Z -> Z -> Z -> Z -> bool
}.

(** [set[node]] of a [membership] map. *)
Definition membership (nodes : list Z) (node : Z) : bool := bool_decide (node ∈ nodes).

(** The labels that [fmt.Sprintf] builds are parameters of the constructors. *)
Definition Split (label : string) (a b : list Z) : Injector :=
  mkInjector label (fun _ from to _ =>
    negb (membership a from && membership b to) && negb (membership b from && membership a to)).

Definition Isolate (label : string) (nodes : list Z) : Injector :=
  mkInjector label (fun _ from to _ => negb (membership nodes from) && negb (membership nodes to)).

Definition Link (label : string) (from to : Z) : Injector :=
  mkInjector label (fun _ source target _ => negb (source =? from) || negb (target =? to)).

Definition During (label : string) (start stop : Z) (inner : Injector) : Injector :=
  mkInjector label (fun now from to delay =>
    if (now <? start) || (stop <=? now) then true else i_Allow inner now from to delay).

(** ** dst/engine.go *)

(** The cluster and its wire; [None] is a panic of the protocol code. *)
Class Cluster (C M : Type) := {
  Nodes : C -> list Z;
  c_Tick : Z -> C -> option C;
  c_Deliver : Z -> M -> C -> option C;
  c_Drain : Z -> C -> option (C * list M);
  Route : M -> Z * Z;
  Digest : M -> Z * Z
}.

(** The queue behind the schedule, so that two of them can be compared. *)
Record Queue (M : Type) := mkQueue {
  q_push : event M -> list (event M) -> list (event M);
  q_pop : list (event M) -> option (event M * list (event M));
  q_isolate : Z -> list (event M) -> list (event M) * nat
}.
Arguments q_push {M}.
Arguments q_pop {M}.
Arguments q_isolate {M}.

Definition heapQueue (M : Type) : Queue M := mkQueue M push pop isolate.

(** The reference: an unordered list and a linear scan. *)
Definition scanQueue (M : Type) : Queue M :=
  mkQueue M (fun ev q => ev :: q) scan
    (fun node q => let kept := filter (fun ev => unrelated node ev = true) q in
                   (kept, (length q - length kept)%nat)).

(** How a run ends: normally, in a panic with some value, or at a bound of the
    model, which is the fuel of the delivery loop or the last 64-bit sequence
    number. *)
Inductive run (P A : Type) := Ret (a : A) | Panic (p : P) | Limit.
Arguments Ret {P A} a.
Arguments Panic {P A} p.
Arguments Limit {P A}.

#[export] Instance run_ret {P} : MRet (run P) := @Ret P.
#[export] Instance run_bind {P} : MBind (run P) := fun A B f r =>
  match r with Ret a => f a | Panic p => Panic p | Limit => Limit end.

(** A loop over a list with state [A]. *)
Fixpoint each {P A B} (f : B -> A -> run P A) (l : list B) (a : A) : run P A :=
  match l with [] => Ret a | x :: l => a' ← f x a; each f l a' end.

(** Where the engine panics: in a call of the cluster, or on its own, when the
    bound of a random delay overflows.  [AtCall] is a call of the cluster that the
    user of the engine makes. *)
Inductive place (M : Type) :=
| AtTick (id : Z)
| AtDeliver (id : Z) (m : M)
| AtDrain (id : Z)
| AtDelay
| AtCall.
Arguments AtTick {M} id.
Arguments AtDeliver {M} id m.
Arguments AtDrain {M} id.
Arguments AtDelay {M}.
Arguments AtCall {M}.

Section engine.
Context {C M : Type} `{!Cluster C M}.

(** [math/rand]: a generator, seeded by the configuration. *)
Context {R : Type} (Intn Int63n : Z -> R -> Z * R).

(** [crypto/sha256]. *)
Context (sha256 : bytes -> bytes).

Record Engine := mkEngine {
  Now : Z;
  cluster : C;
  rng : R;
  drop_ : Z;
  delay : Z;
  seq_ : Z;
  queue : list (event M);
  trace : bytes;
  injectors : list Injector;
  injected : gmap string Z
}.

#[global] Instance eta_Engine : Eta Engine := fun e =>
  mkEngine (Now e) (cluster e) (rng e) (drop_ e) (delay e) (seq_ e) (queue e) (trace e)
    (injectors e) (injected e).

(** A run of the engine: a panic leaves it where it is. *)
Abbreviation running := (run (place M * Engine)).

Definition New (r : R) (dropPermille maxDelay : Z) (c : C) : Engine :=
  mkEngine 0 c r dropPermille maxDelay 0 [] (replicate 32 0) [] ∅.

Definition Inject (l : list Injector) (e : Engine) : Engine := e <| injectors := injectors e ++ l |>.

Section step.
Variable Q : Queue M.

(** [blockedBy]; the empty string is no injector. *)
Definition blockedBy (from to d : Z) (e : Engine) : string :=
  match find (fun i => negb (i_Allow i (Now e) from to d)) (injectors e) with
  | Some i => i_Name i
  | None => ""
  end.

(** [int64(e.delay + 1)]. *)
Definition delayBound (e : Engine) : Z :=
  let z := w64 (delay e + 1) in if z <? 2 ^ 63 then z else z - 2 ^ 64.

Definition schedule (m : M) (d : Z) (e : Engine) : running Engine :=
  let (from, to) := Route m in
  let blocked := blockedBy from to d e in
  if negb (bool_decide (blocked = ""%string))
  then Ret (e <| injected := <[blocked := default 0 (injected e !! blocked) + 1]> (injected e) |>)
  else if seq_ e =? maxu64 then Limit
  else
    let e := e <| seq_ := seq_ e + 1 |> in
    Ret (e <| queue := q_push Q (mkEvent (w64 (Now e + d)) (seq_ e) from to m) (queue e) |>).

Definition delayMsg (m : M) (e : Engine) : running Engine :=
  if 0 <? delay e then
    if delayBound e <=? 0 then Panic (AtDelay, e) else
    let (x, r) := Int63n (delayBound e) (rng e) in schedule m (w64 x) (e <| rng := r |>)
  else schedule m 0 e.

(** One message of [Collect]: loss, then delay, then the injectors. *)
Definition collectMsg (m : M) (e : Engine) : running Engine :=
  let (lost, e) :=
    if 0 <? drop_ e then let (x, r) := Intn 1000 (rng e) in (x <? drop_ e, e <| rng := r |>)
    else (false, e) in
  if lost : bool then Ret e else delayMsg m e.

Definition collectNode (id : Z) (e : Engine) : running Engine :=
  match c_Drain id (cluster e) with
  | Some (c, scratch) => each collectMsg scratch (e <| cluster := c |>)
  | None => Panic (AtDrain id, e)
  end.

Definition Collect (e : Engine) : running Engine := each collectNode (Nodes (cluster e)) e.

Definition record (ev : event M) (e : Engine) : Engine :=
  let (kind, value) := Digest (ev_msg ev) in
  let b := le 8 (Now e) ++ le 8 (ev_seq ev) ++ le 4 (ev_from ev) ++ le 4 (ev_to ev) ++
           le 1 kind ++ le 8 value ++ trace e in
  e <| trace := sha256 b |>.

Definition lift (at_ : place M) (o : option C) (e : Engine) : running Engine :=
  match o with Some c => Ret (e <| cluster := c |>) | None => Panic (at_, e) end.

(** The delivery loop of [Step].  The head of a non-empty queue is what [pop]
    returns, so looking at it first is taking it out when it is due. *)
Fixpoint deliver (fuel : nat) (e : Engine) : running Engine :=
  match q_pop Q (queue e) with
  | None => Ret e
  | Some (ev, q) =>
      if ev_at ev <=? Now e then
        match fuel with
        | O => Limit
        | S fuel =>
            let e := record ev (e <| queue := q |>) in
            e ← lift (AtDeliver (ev_to ev) (ev_msg ev)) (c_Deliver (ev_to ev) (ev_msg ev) (cluster e)) e;
            e ← Collect e;
            deliver fuel e
        end
      else Ret e
  end.

Definition Step (fuel : nat) (e : Engine) : running Engine :=
  let e := e <| Now := w64 (Now e + 1) |> in
  e ← each (fun id e => lift (AtTick id) (c_Tick id (cluster e)) e) (Nodes (cluster e)) e;
  e ← Collect e;
  deliver fuel e.

Fixpoint Run (fuel steps : nat) (e : Engine) : running Engine :=
  match steps with O => Ret e | S steps => e ← Step fuel e; Run fuel steps e end.

(** [Engine.Isolate]. *)
Definition IsolateNode (node : Z) (e : Engine) : Engine * nat :=
  let (q, dropped) := q_isolate Q node (queue e) in (e <| queue := q |>, dropped).

Definition Pending (e : Engine) : nat := length (queue e).

End step.

(** ** dst/invariant.go *)

Record Invariant := mkInvariant { inv_Name : string; inv_Check : C -> option error }.

Record Violation := mkViolation { v_Invariant : string; v_Step : Z; v_Trace : bytes; v_Err : error }.

(** [CheckInvariants]: the first registered invariant that fails. *)
Fixpoint CheckInvariants (l : list Invariant) (e : Engine) : option Violation :=
  match l with
  | [] => None
  | i :: l =>
      match inv_Check i (cluster e) with
      | Some err => Some (mkViolation (inv_Name i) (Now e) (trace e) err)
      | None => CheckInvariants l e
      end
  end.

Definition StepChecked (Q : Queue M) (fuel : nat) (l : list Invariant) (e : Engine) :
    running (Engine * option Violation) :=
  e ← Step Q fuel e; Ret (e, CheckInvariants l e).

(** [RunChecked]: the engine is left where the first violation was found. *)
Fixpoint RunChecked (Q : Queue M) (fuel steps : nat) (l : list Invariant) (e : Engine) :
    running (Engine * option Violation) :=
  match steps with
  | O => Ret (e, None)
  | S steps =>
      r ← StepChecked Q fuel l e;
      match r.2 with Some v => Ret (r.1, Some v) | None => RunChecked Q fuel steps l r.1 end
  end.

End engine.
Arguments Engine : clear implicits.
Abbreviation running C M R := (run (place M * Engine C M R)).

(** ** The heap against the scan *)

(** Runs that end the same way, in related states. *)
Definition agree {P P' A B} (relP : P -> P' -> Prop) (rel : A -> B -> Prop) (r : run P A) (r' : run P' B) : Prop :=
  match r, r' with
  | Ret a, Ret b => rel a b
  | Panic p, Panic p' => relP p p'
  | Limit, Limit => True
  | _, _ => False
  end.

Lemma agree_bind {P P' A A' B B'} (relP : P -> P' -> Prop) (rel : A -> A' -> Prop) (rel' : B -> B' -> Prop) r r' f f' :
  agree relP rel r r' -> (forall a a', rel a a' -> agree relP rel' (f a) (f' a')) ->
  agree relP rel' (r ≫= f) (r' ≫= f').
Proof. intros Hr Hf. destruct r, r'; try done. by apply Hf. Qed.

Lemma agree_each {P P' A A' B} (relP : P -> P' -> Prop) (rel : A -> A' -> Prop) (f : B -> A -> run P A) f' (l : list B) a a' :
  rel a a' -> (forall x a a', rel a a' -> agree relP rel (f x a) (f' x a')) ->
  agree relP rel (each f l a) (each f' l a').
Proof.
  intros Ha Hf. revert a a' Ha. induction l as [|x l IH]; intros a a' Ha; cbn [each]; [done|].
  eapply agree_bind; [by apply Hf|]. intros. by apply IH.
Qed.

(** A panic at the same place, in related states. *)
Definition stuck {M A B} (rel : A -> B -> Prop) (p : place M * A) (p' : place M * B) : Prop :=
  p.1 = p'.1 /\ rel p.2 p'.2.

Abbreviation agrees rel := (agree (stuck rel) rel).

Section refine.
Context {C M : Type} `{!Cluster C M} {R : Type} (Intn Int63n : Z -> R -> Z * R) (sha256 : bytes -> bytes).
Abbreviation engine := (Engine C M R).
Implicit Types e : engine.

(** The queues hold the same messages, with distinct sequence numbers that were
    handed out before. *)
Definition queues (q q' : list (event M)) (s : Z) : Prop :=
  heap q /\ q ≡ₚ q' /\ distinct q /\ Forall (fun ev => ev_seq ev <= s) q.

Definition sim e e' : Prop := exists q', e' = e <| queue := q' |> /\ queues (queue e) q' (seq_ e).

Lemma queues_push q q' s ev :
  queues q q' s -> ev_seq ev = s + 1 -> queues (push ev q) (ev :: q') (s + 1).
Proof.
  intros (Hh & Hp & Hd & Hs) Hev. destruct (push_heap ev q Hh) as [H1 H2]. split; [done|].
  split; [by rewrite H2, Hp|]. split.
  - apply (distinct_perm (ev :: q)); [done|]. unfold distinct. cbn. constructor; [|done].
    intros (x & E & Hx)%list_elem_of_fmap. rewrite Forall_forall in Hs. specialize (Hs x Hx). cbn in Hs. lia.
  - rewrite H2. constructor; [lia|]. eapply Forall_impl; [exact Hs|]. cbn. lia.
Qed.

Lemma schedule_sim m d e e' :
  sim e e' -> agrees sim (schedule (heapQueue M) m d e) (schedule (scanQueue M) m d e').
Proof.
  intros (q' & -> & Hq). unfold schedule. destruct (Route m) as [from to].
  change (blockedBy from to d (e <| queue := q' |>)) with (blockedBy from to d e).
  case_bool_decide; cbn [negb].
  - cbn. destruct (Z.eqb_spec (seq_ e) maxu64); [done|]. cbn. eexists. split; [reflexivity|].
    cbn. by apply queues_push.
  - cbn. exists q'. by split.
Qed.

Lemma rng_sim r e e' : sim e e' -> sim (e <| rng := r |>) (e' <| rng := r |>).
Proof. intros (q' & -> & Hq). by exists q'. Qed.

Lemma delayMsg_sim m e e' :
  sim e e' -> agrees sim (delayMsg Int63n (heapQueue M) m e) (delayMsg Int63n (scanQueue M) m e').
Proof.
  intros He. unfold delayMsg. pose proof He as (q' & E & _).
  assert (delay e' = delay e /\ rng e' = rng e /\ delayBound e' = delayBound e) as (-> & -> & ->) by by rewrite E.
  destruct (0 <? delay e); [|by apply schedule_sim]. destruct (delayBound e <=? 0); [by split|].
  destruct (Int63n (delayBound e) (rng e)) as [x r]. by apply schedule_sim, rng_sim.
Qed.

Lemma collectMsg_sim m e e' :
  sim e e' -> agrees sim (collectMsg Intn Int63n (heapQueue M) m e) (collectMsg Intn Int63n (scanQueue M) m e').
Proof.
  intros He. unfold collectMsg. pose proof He as (q' & E & _).
  assert (drop_ e' = drop_ e /\ rng e' = rng e) as (-> & ->) by by rewrite E.
  destruct (0 <? drop_ e); [|by apply delayMsg_sim]. destruct (Intn 1000 (rng e)) as [x r].
  destruct (x <? drop_ e); [by apply rng_sim|by apply delayMsg_sim, rng_sim].
Qed.

Lemma Collect_sim e e' :
  sim e e' -> agrees sim (Collect Intn Int63n (heapQueue M) e) (Collect Intn Int63n (scanQueue M) e').
Proof.
  intros He. unfold Collect. assert (cluster e' = cluster e) as -> by by destruct He as (q' & -> & _).
  apply agree_each; [done|]. clear e e' He. intros id e e' (q' & -> & Hq). unfold collectNode. cbn.
  destruct (c_Drain id (cluster e)) as [[c scratch]|]; [|split; [done|by exists q']]. apply agree_each; [by exists q'|].
  intros. by apply collectMsg_sim.
Qed.

Lemma lift_sim at_ o e e' : sim e e' -> agrees sim (lift at_ o e) (lift at_ o e').
Proof. intros He. pose proof He as (q' & -> & Hq). destruct o; [by exists q'|by split]. Qed.

Lemma deliver_sim fuel : forall e e',
  sim e e' -> agrees sim (deliver Intn Int63n sha256 (heapQueue M) fuel e)
                        (deliver Intn Int63n sha256 (scanQueue M) fuel e').
Proof.
  induction fuel as [|fuel IH]; intros e e' (q' & -> & Hq); cbn [deliver]; destruct Hq as (Hh & Hp & Hd & Hs);
    pose proof (pop_scan (queue e) q' Hh Hp Hd) as H; cbn [q_pop heapQueue scanQueue queue];
    destruct (pop (queue e)) as [[ev r]|]; cbn [queue] in *;
    change (queue (e <| queue := q' |>)) with q'; destruct (scan q') as [[ev' r']|]; try done.
  - destruct H as (-> & _). cbn. destruct (_ <=? _); [done|]. exists q'. by split.
  - by exists q'.
  - destruct H as (<- & Hr & Hpr & Hdr & Hev). change (Now (e <| queue := q' |>)) with (Now e).
    destruct (ev_at ev <=? Now e); [|by exists q'].
    assert (sim (record sha256 ev (e <| queue := r |>)) (record sha256 ev (e <| queue := q' |> <| queue := r' |>))) as Hsim.
    { unfold record. destruct (Digest (ev_msg ev)). exists r'. split; [done|]. split_and!; try done. cbn.
      rewrite <- Hev in Hs. by apply Forall_cons in Hs as [_ Hs]. }
    eapply agree_bind; [|intros e1 e1' H1; eapply agree_bind; [by apply Collect_sim|by apply IH]].
    cbn zeta. assert (cluster (record sha256 ev (e <| queue := q' |> <| queue := r' |>)) =
      cluster (record sha256 ev (e <| queue := r |>))) as -> by (unfold record; by destruct (Digest (ev_msg ev))).
    by apply lift_sim.
  - by exists q'.
Qed.

Lemma Step_sim fuel e e' :
  sim e e' -> agrees sim (Step Intn Int63n sha256 (heapQueue M) fuel e) (Step Intn Int63n sha256 (scanQueue M) fuel e').
Proof.
  intros (q' & -> & Hq). unfold Step. cbn zeta.
  eapply (agree_bind _ sim); [apply agree_each|].
  - by exists q'.
  - intros id e1 e1' H1. assert (cluster e1' = cluster e1) as -> by by destruct H1 as (? & -> & _). by apply lift_sim.
  - intros e1 e1' H1. eapply agree_bind; [by apply Collect_sim|]. intros e2 e2' H2. by apply deliver_sim.
Qed.

Lemma Run_sim fuel steps : forall e e',
  sim e e' -> agrees sim (Run Intn Int63n sha256 (heapQueue M) fuel steps e)
                        (Run Intn Int63n sha256 (scanQueue M) fuel steps e').
Proof.
  induction steps as [|steps IH]; intros e e' He; cbn [Run]; [done|].
  eapply agree_bind; [by apply Step_sim|]. intros. by apply IH.
Qed.

Lemma Isolate_sim node e e' :
  sim e e' -> sim (IsolateNode (heapQueue M) node e).1 (IsolateNode (scanQueue M) node e').1 /\
    (IsolateNode (heapQueue M) node e).2 = (IsolateNode (scanQueue M) node e').2.
Proof.
  intros (q' & -> & Hh & Hp & Hd & Hs). unfold IsolateNode. cbn. unfold isolate.
  change (queue (e <| queue := q' |>)) with q'.
  set (f := filter (fun ev => unrelated node ev = true)).
  assert (f (queue e) ≡ₚ f q') as Hf by (unfold f; by rewrite Hp).
  split; [|cbn; by rewrite Hf, Hp]. cbn. destruct (rebuild_heap (f (queue e))) as [H1 H2].
  exists (f q'). split; [done|]. split; [done|]. cbn. split; [by rewrite H2|]. split.
  - eapply distinct_perm; [symmetry; exact H2|]. unfold distinct, f.
    eapply sublist_NoDup; [exact Hd|]. apply fmap_sublist, sublist_filter.
  - rewrite H2. rewrite Forall_forall in Hs |- *. intros ev [_ Hev]%list_elem_of_filter. by apply Hs.
Qed.

(** A new engine, whichever queue it uses. *)
Lemma New_sim r dp md (c : C) : sim (New r dp md c) (New r dp md c).
Proof.
  exists []. split; [done|]. split; [intros k Hk _ a b Ha; discriminate|]. split; [done|].
  split; [constructor|constructor].
Qed.

End refine.

(** What a caller does with an engine: run it, isolate a node, register faults,
    or drive the cluster out of band and collect. *)
Inductive call (C : Type) :=
| CallRun (fuel steps : nat)
| CallIsolate (node : Z)
| CallInject (l : list Injector)
| CallDrive (f : C -> C).
Arguments CallRun {C}.
Arguments CallIsolate {C}.
Arguments CallInject {C}.
Arguments CallDrive {C}.

Definition exec {C M R} `{!Cluster C M} (Intn Int63n : Z -> R -> Z * R) (sha256 : bytes -> bytes) (Q : Queue M)
    (a : call C) (e : Engine C M R) : running C M R (Engine C M R) :=
  match a with
  | CallRun fuel steps => Run Intn Int63n sha256 Q fuel steps e
  | CallIsolate node => Ret (IsolateNode Q node e).1
  | CallInject l => Ret (Inject l e)
  | CallDrive f => Collect Intn Int63n Q (e <| cluster := f (cluster e) |>)
  end.

(** C15 The heap delivers in the order of a linear scan.  Whatever the cluster,
    the generator, the hash, and the sequence of runs, isolations, injected
    faults and out-of-band actions of the caller, the engine with the binary heap
    and the engine that scans an unordered list for the earliest message end the
    same way, by returning or by a panic in the same call, and do so at the same
    time, with the same cluster, generator, counters and trace and the same
    messages in flight. *)
Theorem engine_schedule {C M R} `{!Cluster C M} (Intn Int63n : Z -> R -> Z * R) (sha256 : bytes -> bytes)
    (r : R) (dropPermille maxDelay : Z) (c : C) (calls : list (call C)) :
  match each (exec Intn Int63n sha256 (heapQueue M)) calls (New r dropPermille maxDelay c),
        each (exec Intn Int63n sha256 (scanQueue M)) calls (New r dropPermille maxDelay c) with
  | Ret e, Ret e' => e' = e <| queue := queue e' |> /\ queue e ≡ₚ queue e'
  | Panic (p, e), Panic (p', e') => p = p' /\ e' = e <| queue := queue e' |> /\ queue e ≡ₚ queue e'
  | Limit, Limit => True
  | _, _ => False
  end.
Proof.
  pose proof (agree_each (stuck sim) sim (exec Intn Int63n sha256 (heapQueue M)) (exec Intn Int63n sha256 (scanQueue M)) calls
    _ _ (New_sim r dropPermille maxDelay c)) as H. unfold agree in H.
  assert (forall (x : call C) (e e' : Engine C M R), sim e e' ->
    agrees sim (exec Intn Int63n sha256 (heapQueue M) x e) (exec Intn Int63n sha256 (scanQueue M) x e')) as Hx.
  { intros x e e' He. destruct x as [fuel steps|node|l|f]; cbn [exec].
    - by apply Run_sim.
    - by apply Isolate_sim.
    - destruct He as (q' & -> & Hq). by exists q'.
    - apply Collect_sim. destruct He as (q' & -> & Hq). by exists q'. }
  specialize (H Hx). destruct (each _ _ _) as [e|[p e]|], (each _ _ _) as [e'|[p' e']|]; try done.
  - destruct H as (q' & -> & _ & Hp & _). done.
  - destruct H as (Hp & q' & He & _ & Hq & _). cbn in Hp, He. by subst.
Qed.

(** ** Faults and the random draws *)

(** Two runs that, if both return, return related states. *)
Definition both {P P' A B} (rel : A -> B -> Prop) (r : run P A) (r' : run P' B) : Prop :=
  forall a b, r = Ret a -> r' = Ret b -> rel a b.

Lemma both_bind {P P' A A' B B'} (rel : A -> A' -> Prop) (rel' : B -> B' -> Prop) (r : run P A) (r' : run P' A') f f' :
  both rel r r' -> (forall a a', rel a a' -> both rel' (f a) (f' a')) -> both rel' (r ≫= f) (r' ≫= f').
Proof. intros Hr Hf b b'. destruct r as [a| |], r' as [a'| |]; try done. apply Hf. by apply Hr. Qed.

Lemma both_each {P P' A A' B} (rel : A -> A' -> Prop) (f : B -> A -> run P A) (f' : B -> A' -> run P' A') (l : list B) a a' :
  rel a a' -> (forall x a a', rel a a' -> both rel (f x a) (f' x a')) ->
  both rel (each f l a) (each f' l a').
Proof.
  intros Ha Hf. revert a a' Ha. induction l as [|x l IH]; intros a a' Ha; cbn [each].
  - by intros b b' [= <-] [= <-].
  - eapply (both_bind rel); [by apply Hf|]. intros. by apply IH.
Qed.

Section draws.
Context {C M : Type} `{!Cluster C M} {R : Type} (Intn Int63n : Z -> R -> Z * R) (Q : Queue M).

(** The two engines differ at most in the faults and in what they blocked. *)
Definition sameDraws (e e' : Engine C M R) : Prop :=
  Now e = Now e' /\ cluster e = cluster e' /\ rng e = rng e' /\ drop_ e = drop_ e' /\ delay e = delay e'.

Lemma schedule_draws m d d' e e' :
  sameDraws e e' -> both sameDraws (schedule Q m d e) (schedule Q m d' e').
Proof.
  intros He a b. unfold schedule. destruct (Route m).
  destruct (negb _); [intros [= <-]|destruct (_ =? _); [done|intros [= <-]]];
    (destruct (negb _); [intros [= <-]|destruct (_ =? _); [done|intros [= <-]]]); exact He.
Qed.

Lemma collectMsg_draws m e e' :
  sameDraws e e' -> both sameDraws (collectMsg Intn Int63n Q m e) (collectMsg Intn Int63n Q m e').
Proof.
  intros He. assert (forall e e', sameDraws e e' -> both sameDraws (delayMsg Int63n Q m e) (delayMsg Int63n Q m e')) as Hd.
  { clear e e' He. intros e e' He. pose proof He as (HN & HC & HR & HD & HL). unfold delayMsg, delayBound.
    rewrite <- HL, <- HR. destruct (0 <? delay e); [|by apply schedule_draws].
    destruct (_ <=? 0); [by intros a b|]. destruct (Int63n _ _) as [x r]. apply schedule_draws. split_and!; done. }
  pose proof He as (HN & HC & HR & HD & HL). unfold collectMsg. rewrite <- HD, <- HR.
  destruct (0 <? drop_ e); [|by apply Hd]. destruct (Intn 1000 (rng e)) as [x r].
  destruct (x <? drop_ e); [intros a b [= <-] [= <-]; split_and!; done|]. apply Hd. split_and!; done.
Qed.

Lemma Collect_draws e e' :
  sameDraws e e' -> both sameDraws (Collect Intn Int63n Q e) (Collect Intn Int63n Q e').
Proof.
  intros He. unfold Collect. replace (cluster e') with (cluster e) by apply He.
  apply both_each; [done|]. clear e e' He. intros id e e' (HN & HC & HR & HD & HL). unfold collectNode. rewrite <- HC.
  destruct (c_Drain id (cluster e)) as [[c scratch]|]; [|by intros a b]. apply both_each; [split_and!; done|].
  intros. by apply collectMsg_draws.
Qed.

End draws.

(** A registered fault never shifts the seeded schedule.  Collecting the
    messages of the same cluster with any two sets of injectors makes the same
    random draws: it leaves the same generator, time and cluster. *)
Theorem inject_keeps_draws {C M R} `{!Cluster C M} (Intn Int63n : Z -> R -> Z * R) (Q : Queue M)
    (e e1 e2 : Engine C M R) (l : list Injector) :
  Collect Intn Int63n Q e = Ret e1 -> Collect Intn Int63n Q (Inject l e) = Ret e2 ->
  rng e1 = rng e2 /\ Now e1 = Now e2 /\ cluster e1 = cluster e2.
Proof.
  intros H1 H2. destruct (Collect_draws Intn Int63n Q e (Inject l e)) with (a := e1) (b := e2)
    as (HN & HC & HR & _); [by split_and!|done|done|done].
Qed.

(** A fault without a name has no effect.  An injector that denies every
    message is ignored when its name is the empty string, because the empty
    string is also how [blockedBy] reports that nothing blocked the message. *)
Theorem inject_unnamed {C M R} `{!Cluster C M} (Q : Queue M) (e : Engine C M R) (m : M) (d : Z) :
  injectors e = [mkInjector "" (fun _ _ _ _ => false)] -> seq_ e < maxu64 ->
  exists ev, schedule Q m d e =
    Ret (e <| seq_ := seq_ e + 1 |> <| queue := q_push Q ev (queue e) |>) /\ ev_msg ev = m.
Proof.
  intros Hi Hs. unfold schedule, blockedBy. rewrite Hi. destruct (Route m) as [from to]. cbn.
  destruct (Z.eqb_spec (seq_ e) maxu64); [lia|]. eexists. split; [reflexivity|done].
Qed.

(** ** A two-node cluster for the witnesses *)

Module EngineDemo.

(** Each node sends one message per tick and answers nothing. *)
#[local] Instance pair : Cluster (list (Z * Z)) (Z * Z) := {
  Nodes := fun _ => [1; 2];
  c_Tick := fun id c => Some (c ++ [(id, 3 - id)]);
  c_Deliver := fun _ _ c => Some c;
  c_Drain := fun id c => Some (filter (fun m => m.1 <> id) c, filter (fun m => m.1 = id) c);
  Route := fun m => m;
  Digest := fun m => (0, m.1)
}.

(** A generator that counts. *)
Definition next (n : Z) (r : Z) : Z * Z := (r mod n, r + 1).

Definition start : Engine (list (Z * Z)) (Z * Z) Z :=
  New 7 5 5 [(1, 2); (2, 1)].

Lemma inject_keeps_draws_witness :
  exists e1 e2, Collect next next (heapQueue _) start = Ret e1 /\
    Collect next next (heapQueue _) (Inject [Link "l" 1 2] start) = Ret e2 /\
    length (queue e1) <> length (queue e2) /\ rng e1 = rng e2.
Proof.
  destruct (Collect next next (heapQueue _) start) as [e1| |] eqn:E1; [|vm_compute in E1; discriminate..].
  destruct (Collect next next (heapQueue _) (Inject [Link "l" 1 2] start)) as [e2| |] eqn:E2; [|vm_compute in E2; discriminate..].
  exists e1, e2. split; [reflexivity|]. split; [reflexivity|].
  split; [|exact (proj1 (inject_keeps_draws next next (heapQueue _) start e1 e2 [Link "l" 1 2] E1 E2))].
  vm_compute in E1, E2. injection E1 as <-. injection E2 as <-. vm_compute. discriminate.
Defined.

Lemma inject_unnamed_witness :
  exists ev, schedule (scanQueue _) (1, 2) 0 (Inject [mkInjector "" (fun _ _ _ _ => false)] start) =
    Ret (Inject [mkInjector "" (fun _ _ _ _ => false)] start <| seq_ := 1 |> <| queue := [ev] |>) /\ ev_msg ev = (1, 2).
Proof.
  apply (inject_unnamed (scanQueue _) (Inject [mkInjector "" (fun _ _ _ _ => false)] start) (1, 2) 0);
    [reflexivity|vm_compute; reflexivity].
Defined.

End EngineDemo.
