(* ===== verification/EngineInv.v ===== *)
(** * What holds in every simulated run

    Two rules for the engine of [dst/engine.go], over an arbitrary cluster.  The
    first turns a property of the nodes and the messages in flight that ticks,
    deliveries and losses preserve into a property of every run, checked runs
    included.  The second turns a bound on the messages a delivery can cause into
    the termination of the cascade inside a step. *)

From S2P Require Import Prelude Bytes EventHeap Engine.

(** ** Runs that return *)

Definition always {E A} (P : A -> Prop) (r : run E A) : Prop := forall a, r = Ret a -> P a.

Lemma always_bind {E A B} (P : A -> Prop) (Q : B -> Prop) (r : run E A) f :
  always P r -> (forall a, P a -> always Q (f a)) -> always Q (r ≫= f).
Proof. intros Hr Hf b. destruct r as [a| |]; try done. apply Hf. by apply Hr. Qed.

Lemma always_each {E A B} (P : A -> Prop) (f : B -> A -> run E A) l a :
  P a -> (forall x a, P a -> always P (f x a)) -> always P (each f l a).
Proof.
  intros Ha Hf. revert a Ha. induction l as [|x l IH]; intros a Ha; cbn [each]; [by intros ? [= <-]|].
  eapply always_bind; [by apply Hf|]. intros. by apply IH.
Qed.

Lemma heap_nil {M} : heap (@nil (event M)).
Proof. intros k Hk _ a b Ha. discriminate. Qed.

(** ** The session of a test

    What a test does with an engine: run it, cut a node off, register faults, and
    call operations of the cluster, each followed by [Collect]. *)
Inductive session (D : Type) :=
| SRun (fuel steps : nat)
| SIsolate (id : Z)
| SInject (l : list Injector)
| SDrive (d : D).
Arguments SRun {D} fuel steps.
Arguments SIsolate {D} id.
Arguments SInject {D} l.
Arguments SDrive {D} d.

(** The ticks and calls of a session over [size] nodes. *)
Definition cost {D} (size : nat) (a : session D) : nat :=
  match a with SRun _ steps => steps * size | SDrive _ => 1 | _ => 0 end.

Definition costs {D} (size : nat) (l : list (session D)) : nat := sum_list (cost size <$> l).

Section session.
Context {C M R D : Type} `{!Cluster C M} (Intn Int63n : Z -> R -> Z * R) (sha256 : bytes -> bytes).
Context (drive : D -> C -> option C).

Definition act (a : session D) (e : Engine C M R) : running C M R (Engine C M R) :=
  match a with
  | SRun fuel steps => Run Intn Int63n sha256 (heapQueue M) fuel steps e
  | SIsolate id => Ret (IsolateNode (heapQueue M) id e).1
  | SInject l => Ret (Inject l e)
  | SDrive d => e ← lift AtCall (drive d (cluster e)) e; Collect Intn Int63n (heapQueue M) e
  end.

End session.

(** ** Invariants of runs *)

(** [pool k c ms]: the cluster is [c], the messages in flight or about to be
    scheduled are [ms], and there were at most [k] ticks and calls. *)
Class Pool {C M D : Type} `{!Cluster C M} (drive : D -> C -> option C)
    (pool : nat -> C -> list M -> Prop) (size : nat) : Prop := {
  pool_loss : forall k k' c ms ms', pool k c ms -> (k <= k')%nat -> ms' ⊆+ ms -> pool k' c ms';
  pool_nodes : forall k c ms, pool k c ms -> length (Nodes c) = size;
  pool_tick : forall k c ms id c', pool k c ms -> c_Tick id c = Some c' -> pool (S k) c' ms;
  pool_deliver : forall k c m ms c',
    pool k c (m :: ms) -> c_Deliver (Route m).2 m c = Some c' -> pool k c' ms;
  pool_drain : forall k c ms id c' out,
    pool k c ms -> c_Drain id c = Some (c', out) -> pool k c' (out ++ ms);
  pool_drive : forall k c ms d c', pool k c ms -> drive d c = Some c' -> pool (S k) c' ms
}.

Section simulated.
Context {C M R D : Type} `{!Cluster C M} (Intn Int63n : Z -> R -> Z * R) (sha256 : bytes -> bytes).
Context (drive : D -> C -> option C) (pool : nat -> C -> list M -> Prop) (size : nat).
Context `{!Pool drive pool size}.

(** Every event goes to the destination its message names. *)
Record simulated (k : nat) (rest : list M) (e : Engine C M R) : Prop := {
  sd_pool : pool k (cluster e) (rest ++ (ev_msg <$> queue e));
  sd_to : Forall (fun ev => ev_to ev = (Route (ev_msg ev)).2) (queue e);
  sd_heap : heap (queue e)
}.

Lemma simulated_mono k k' e : simulated k [] e -> (k <= k')%nat -> simulated k' [] e.
Proof. intros [Hp Ht Hh] Hk. split; [|done|done]. by eapply pool_loss. Qed.

Lemma schedule_simulated k m rest d e :
  simulated k (m :: rest) e -> always (simulated k rest) (schedule (heapQueue M) m d e).
Proof.
  intros [Hr Ht Hh] e'. unfold schedule. destruct (Route m) as [from to] eqn:HR. destruct (negb _).
  - intros [= <-]. split; [|done|done]. eapply pool_loss; [exact Hr|done|]. cbn. by apply submseteq_cons.
  - destruct (_ =? _); [done|]. intros [= <-]. cbn. set (ev := mkEvent _ _ _ _ m).
    destruct (push_heap ev (queue e) Hh) as [H1 H2]. split; cbn; [|rewrite H2; constructor; [by cbn; rewrite HR|done]|done].
    eapply pool_loss; [exact Hr|done|]. rewrite H2. cbn. by rewrite Permutation_middle.
Qed.

Lemma collectMsg_simulated k m rest e :
  simulated k (m :: rest) e -> always (simulated k rest) (collectMsg Intn Int63n (heapQueue M) m e).
Proof.
  intros He. assert (forall r, simulated k (m :: rest) (e <| rng := r |>)) as Hr by (intros r; by destruct He; split).
  assert (forall e, simulated k (m :: rest) e -> always (simulated k rest) (delayMsg Int63n (heapQueue M) m e)) as Hd.
  { clear e He Hr. intros e He. unfold delayMsg. destruct (0 <? delay e); [|by apply schedule_simulated].
    destruct (_ <=? 0); [by intros e'|]. destruct (Int63n _ _) as [x r]. apply schedule_simulated.
    by destruct He; split. }
  unfold collectMsg. destruct (0 <? drop_ e); [|by apply Hd]. destruct (Intn 1000 (rng e)) as [x r].
  destruct (x <? drop_ e); [|apply Hd, Hr]. intros e' [= <-]. destruct (Hr r) as [H1 H2 H3].
  split; [|done|done]. eapply pool_loss; [exact H1|done|]. cbn. by apply submseteq_cons.
Qed.

Lemma collectAll_simulated k out : forall e,
  simulated k out e -> always (simulated k []) (each (collectMsg Intn Int63n (heapQueue M)) out e).
Proof.
  induction out as [|m out IH]; intros e He; cbn [each]; [by intros e' [= <-]|].
  eapply always_bind; [by apply collectMsg_simulated|]. apply IH.
Qed.

Lemma Collect_simulated k e :
  simulated k [] e -> always (simulated k []) (Collect Intn Int63n (heapQueue M) e).
Proof.
  intros He. apply always_each; [done|]. clear e He. intros id e [Hr Ht Hh]. unfold collectNode.
  destruct (c_Drain id (cluster e)) as [[c out]|] eqn:E; [|by intros e'].
  apply collectAll_simulated. split; cbn; [|done|done]. by eapply pool_drain.
Qed.

Lemma deliver_simulated k fuel : forall e,
  simulated k [] e -> always (simulated k []) (deliver Intn Int63n sha256 (heapQueue M) fuel e).
Proof.
  induction fuel as [|fuel IH]; intros e [Hr Ht Hh]; cbn [deliver]; pose proof (pop_heap (queue e) Hh) as Hp;
    cbn [q_pop heapQueue]; destruct (pop (queue e)) as [[ev q]|]; try (intros e' [= <-]; by split).
  - destruct (_ <=? _); [by intros e'|intros e' [= <-]; by split].
  - destruct (_ <=? _); [|intros e' [= <-]; by split]. destruct Hp as (Hq & Hperm & _).
    rewrite <- Hperm in Ht. apply Forall_cons in Ht as [Hto Ht]. cbn in Hr.
    eapply (always_bind (simulated k [])); [|intros e1 H1; eapply (always_bind (simulated k []));
      [by apply Collect_simulated|apply IH]].
    intros e'. unfold record. destruct (Digest _) as [kind value]. cbn [lift]. cbn.
    destruct (c_Deliver _ _ _) as [c|] eqn:E; [|done]. intros [= <-]. split; cbn; [|done|done].
    rewrite Hto in E. eapply pool_deliver; [|exact E]. eapply pool_loss; [exact Hr|done|]. by rewrite <- Hperm.
Qed.

Lemma ticks_simulated l : forall k e,
  simulated k [] e ->
  always (simulated (k + length l) []) (each (fun id e => lift (AtTick id) (c_Tick id (cluster e)) e) l e).
Proof.
  induction l as [|id l IH]; intros k e He; cbn [each length].
  - intros e' [= <-]. by rewrite Nat.add_0_r.
  - eapply (always_bind (simulated (S k) [])); [|intros e1 H1; rewrite <- Nat.add_succ_comm; by apply IH].
    destruct He as [Hr Ht Hh]. intros e'. cbn. destruct (c_Tick id (cluster e)) as [c|] eqn:E; [|done].
    intros [= <-]. split; cbn; [|done|done]. by eapply pool_tick.
Qed.

Lemma Step_simulated k fuel e :
  simulated k [] e -> always (simulated (k + size) []) (Step Intn Int63n sha256 (heapQueue M) fuel e).
Proof.
  intros He. unfold Step. eapply (always_bind (simulated (k + size) [])).
  - pose proof (pool_nodes (drive := drive) (pool := pool) (size := size) _ _ _ (sd_pool _ _ _ He)) as Hn.
    rewrite <- Hn. apply ticks_simulated. by destruct He; split.
  - intros e1 H1. eapply (always_bind (simulated (k + size) [])); [by apply Collect_simulated|].
    intros. by apply deliver_simulated.
Qed.

Lemma Run_simulated fuel steps : forall k e,
  simulated k [] e -> always (simulated (k + steps * size) []) (Run Intn Int63n sha256 (heapQueue M) fuel steps e).
Proof.
  induction steps as [|steps IH]; intros k e He; cbn [Run Nat.mul].
  - intros e' [= <-]. by rewrite Nat.add_0_r.
  - eapply (always_bind (simulated (k + size) [])); [by apply Step_simulated|].
    intros e1 H1. rewrite Nat.add_assoc. by apply IH.
Qed.

Lemma Isolate_simulated k id e :
  simulated k [] e -> simulated k [] (IsolateNode (heapQueue M) id e).1.
Proof.
  intros [Hr Ht Hh]. unfold IsolateNode. cbn. unfold isolate. set (q := filter _ _).
  assert (sublist q (queue e)) as Hq by apply sublist_filter.
  destruct (rebuild_heap q) as [H1 H2]. split; cbn; [| |done].
  - eapply pool_loss; [exact Hr|done|]. rewrite H2. cbn. by apply sublist_submseteq, fmap_sublist.
  - rewrite H2. rewrite Forall_forall in Ht |- *. intros x [_ Hx]%list_elem_of_filter. by apply Ht.
Qed.

Lemma act_simulated k a e :
  simulated k [] e -> always (simulated (k + cost size a) []) (act Intn Int63n sha256 drive a e).
Proof.
  intros He. destruct a as [fuel steps|id|l|d]; cbn [act cost]; rewrite ?Nat.add_0_r.
  - by apply Run_simulated.
  - intros e' [= <-]. by apply Isolate_simulated.
  - intros e' [= <-]. by destruct He; split.
  - rewrite Nat.add_1_r. eapply (always_bind (simulated (S k) [])); [|intros; by apply Collect_simulated].
    destruct He as [Hr Ht Hh]. intros e'. destruct (drive d (cluster e)) as [c|] eqn:E; [|done]. intros [= <-].
    split; cbn; [|done|done]. by eapply pool_drive.
Qed.

Lemma acts_simulated acts : forall k e,
  simulated k [] e -> always (simulated (k + costs size acts) []) (each (act Intn Int63n sha256 drive) acts e).
Proof.
  induction acts as [|a acts IH]; intros k e He; cbn [each costs sum_list fmap list_fmap].
  - intros e' [= <-]. by rewrite Nat.add_0_r.
  - eapply always_bind; [by apply act_simulated|]. intros e1 H1. rewrite Nat.add_assoc. by apply IH.
Qed.

Lemma New_simulated k r dropPermille maxDelay c :
  pool k c [] -> simulated k [] (New r dropPermille maxDelay c).
Proof. intros Hp. split; [done|constructor|apply heap_nil]. Qed.

(** The rule: a session that returns leaves a cluster and messages in the pool. *)
Lemma session_pool c r dropPermille maxDelay acts e :
  pool 0 c [] -> each (act Intn Int63n sha256 drive) acts (New r dropPermille maxDelay c) = Ret e -> simulated (costs size acts) [] e.
Proof.
  intros Hp. apply (acts_simulated acts 0). by apply New_simulated.
Qed.

Lemma CheckInvariants_none (l : list Invariant) (e : Engine C M R) :
  Forall (fun i => inv_Check i (cluster e) = None) l -> CheckInvariants l e = None.
Proof. induction 1 as [|i l Hi Hl IH]; cbn [CheckInvariants]; [done|]. by rewrite Hi. Qed.

(** Checks that pass on the pool never report a violation. *)
Lemma RunChecked_pool l fuel steps : forall k e e' v,
  simulated k [] e ->
  (forall k' c ms, (k' <= k + steps * size)%nat -> pool k' c ms -> Forall (fun i => inv_Check i c = None) l) ->
  RunChecked Intn Int63n sha256 (heapQueue M) fuel steps l e = Ret (e', v) -> v = None.
Proof.
  induction steps as [|steps IH]; intros k e e' v He Hl; cbn [RunChecked]; [by intros [= _ <-]|].
  unfold StepChecked. destruct (Step _ _ _ _ fuel e) as [e1| |] eqn:E; cbn [mbind run_bind]; [|done..].
  assert (simulated (k + size) [] e1) as H1 by by eapply Step_simulated.
  rewrite CheckInvariants_none by (eapply Hl; [|apply H1]; cbn; lia). cbn [snd fst].
  apply (IH (k + size)%nat); [done|]. intros k' c ms Hk. apply Hl. cbn. lia.
Qed.

End simulated.

(** ** Termination of a step

    Deliveries inside a step cascade, so [Step] ends only if the cluster's traffic
    does.  [weight m] bounds what delivering [m] can cause, [buffer c] what the
    nodes still hold, and [burst] what one tick adds. *)
Class Quiet {C M : Type} `{!Cluster C M} (ok : C -> Prop) (good : M -> Prop) (weight : M -> nat)
    (buffer : C -> nat) (burst : nat) (ids : list Z) : Prop := {
  quiet_nodes : forall c, ok c -> Nodes c = ids;
  quiet_tick : forall c id, ok c -> id ∈ ids ->
    exists c', c_Tick id c = Some c' /\ ok c' /\ (buffer c' <= buffer c + burst)%nat;
  quiet_deliver : forall c m, ok c -> good m ->
    exists c', c_Deliver (Route m).2 m c = Some c' /\ ok c' /\ (buffer c' <= buffer c + weight m)%nat;
  quiet_drain : forall c id, ok c -> id ∈ ids ->
    exists c' out, c_Drain id c = Some (c', out) /\ ok c' /\ Forall good out /\
      (buffer c' + sum_list ((fun m => S (weight m)) <$> out) <= buffer c)%nat
}.

(** The run returns, in a state with the property. *)
Definition returns {E A} (P : A -> Prop) (r : run E A) : Prop := exists a, r = Ret a /\ P a.

Lemma returns_bind {E A B} (P : A -> Prop) (Q : B -> Prop) (r : run E A) f :
  returns P r -> (forall a, P a -> returns Q (f a)) -> returns Q (r ≫= f).
Proof. intros (a & -> & Ha) Hf. by apply Hf. Qed.

Lemma returns_ret {E A} (P : A -> Prop) a : P a -> returns P (Ret (P := E) a).
Proof. by exists a. Qed.

Section terminates.
Context {C M R : Type} `{!Cluster C M} (Intn Int63n : Z -> R -> Z * R) (sha256 : bytes -> bytes).
Context (ok : C -> Prop) (good : M -> Prop) (weight : M -> nat) (buffer : C -> nat) (burst : nat) (ids : list Z).
Context `{!Quiet ok good weight buffer burst ids}.

Definition load (ms : list M) : nat := sum_list ((fun m => S (weight m)) <$> ms).
Definition weights (q : list (event M)) : nat := sum_list ((fun ev => weight (ev_msg ev)) <$> q).

(** What [deliver] has to do for the messages in [queue], about to be scheduled,
    and in the nodes. *)
Definition work (rest : list M) (e : Engine C M R) : nat :=
  buffer (cluster e) + load rest + load (ev_msg <$> queue e).

(** The sequence numbers those messages can use up. *)
Definition future (rest : list M) (e : Engine C M R) : Z :=
  seq_ e + Z.of_nat (buffer (cluster e) + load rest + weights (queue e)).

Record ready (limit : nat) (top : Z) (rest : list M) (e : Engine C M R) : Prop := {
  rd_ok : ok (cluster e);
  rd_good : Forall good (rest ++ (ev_msg <$> queue e));
  rd_to : Forall (fun ev => ev_to ev = (Route (ev_msg ev)).2) (queue e);
  rd_heap : heap (queue e);
  rd_delay : 0 <= delay e < 2 ^ 63 - 1;
  rd_work : (work rest e <= limit)%nat;
  rd_seq : 0 <= seq_ e /\ future rest e <= top
}.

Lemma load_cons m ms : load (m :: ms) = (S (weight m) + load ms)%nat.
Proof. done. Qed.

Lemma load_app ms ms' : load (ms ++ ms') = (load ms + load ms')%nat.
Proof. induction ms as [|m ms IH]; [done|]. cbn [app]. rewrite !load_cons. lia. Qed.

Lemma weights_cons ev q : weights (ev :: q) = (weight (ev_msg ev) + weights q)%nat.
Proof. done. Qed.

#[local] Instance load_Proper : Proper ((≡ₚ) ==> (=)) load.
Proof. intros ms ms' H. unfold load. by rewrite H. Qed.

#[local] Instance weights_Proper : Proper ((≡ₚ) ==> (=)) weights.
Proof. intros q q' H. unfold weights. by rewrite H. Qed.

Lemma schedule_ready limit top m rest d e :
  top <= maxu64 -> ready limit top (m :: rest) e -> returns (ready limit top rest) (schedule (heapQueue M) m d e).
Proof.
  intros Hmax [Hok Hg Ht Hh Hd Hw Hs]. apply Forall_cons in Hg as [Hgm Hg]. unfold future in Hs. unfold work in Hw.
  rewrite load_cons in Hw, Hs. unfold schedule. destruct (Route m) as [from to] eqn:HR. destruct (negb _).
  - apply returns_ret. split; try done; unfold work, future; cbn -[load weights]; lia.
  - destruct (Z.eqb_spec (seq_ e) maxu64); [lia|]. apply returns_ret. cbn [q_push heapQueue].
    set (ev := mkEvent _ _ _ _ m). destruct (push_heap ev (queue e) Hh) as [H1 H2].
    split; try done; cbn -[load weights]; unfold work, future; cbn -[load weights]; rewrite H2.
    + cbn. by rewrite <- Permutation_middle; constructor.
    + constructor; [by cbn; rewrite HR|done].
    + cbn -[load weights]. rewrite load_cons. lia.
    + rewrite weights_cons. cbn -[load weights]. lia.
Qed.

Lemma collectMsg_ready limit top m rest e :
  top <= maxu64 -> ready limit top (m :: rest) e ->
  returns (ready limit top rest) (collectMsg Intn Int63n (heapQueue M) m e).
Proof.
  intros Hmax He. assert (forall r, ready limit top (m :: rest) (e <| rng := r |>)) as Hr by (intros r; by destruct He; split).
  assert (forall e, ready limit top (m :: rest) e -> returns (ready limit top rest) (delayMsg Int63n (heapQueue M) m e)) as Hd.
  { clear e He Hr. intros e He. unfold delayMsg. destruct (0 <? delay e); [|by apply schedule_ready].
    pose proof (rd_delay _ _ _ _ He) as Hde. unfold delayBound, w64. rewrite Z.mod_small by lia.
    destruct (Z.ltb_spec (delay e + 1) (2 ^ 63)); [|lia]. destruct (Z.leb_spec (delay e + 1) 0); [lia|].
    destruct (Int63n _ _) as [x r]. apply schedule_ready; [done|]. by destruct He; split. }
  unfold collectMsg. destruct (0 <? drop_ e); [|by apply Hd]. destruct (Intn 1000 (rng e)) as [x r].
  destruct (x <? drop_ e); [|apply Hd, Hr]. apply returns_ret. destruct (Hr r) as [Hok Hg Ht Hh Hde Hw Hs].
  apply Forall_cons in Hg as [_ Hg]. unfold work, future in Hw, Hs. rewrite load_cons in Hw, Hs.
  split; try done; unfold work, future; lia.
Qed.

Lemma collectNode_ready limit top id e :
  top <= maxu64 -> id ∈ ids -> ready limit top [] e ->
  returns (ready limit top []) (collectNode Intn Int63n (heapQueue M) id e).
Proof.
  intros Hmax Hid [Hok Hg Ht Hh Hd Hw Hs]. unfold collectNode.
  destruct (quiet_drain (cluster e) id Hok Hid) as (c & out & -> & Hc & Ho & Hb). fold (load out) in Hb.
  assert (ready limit top out (e <| cluster := c |>)) as He.
  { unfold work, future in Hw, Hs. split; try done; [by apply Forall_app|unfold work|unfold future];
      cbn -[load weights] in *; lia. }
  revert He. generalize (e <| cluster := c |>). clear -Hmax Quiet0. induction out as [|m out IH]; intros e He; cbn [each].
  - by apply returns_ret.
  - eapply returns_bind; [by apply collectMsg_ready|]. apply IH.
Qed.

Lemma Collect_ready limit top e :
  top <= maxu64 -> ready limit top [] e -> returns (ready limit top []) (Collect Intn Int63n (heapQueue M) e).
Proof.
  intros Hmax He. unfold Collect. rewrite (quiet_nodes _ (rd_ok _ _ _ _ He)).
  assert (ids ⊆ ids) as Hs by done. revert Hs e He. generalize ids at 1 3. intros l.
  induction l as [|id l IH]; intros Hs e He; cbn [each]; [by apply returns_ret|].
  eapply returns_bind; [apply collectNode_ready; [done|apply Hs; apply list_elem_of_here|done]|].
  apply IH. intros x Hx. apply Hs. by right.
Qed.

Lemma deliver_ready top fuel : forall limit e,
  top <= maxu64 -> (limit <= fuel)%nat -> ready limit top [] e ->
  returns (ready limit top []) (deliver Intn Int63n sha256 (heapQueue M) fuel e).
Proof.
  induction fuel as [|fuel IH]; intros limit e Hmax Hl He; pose proof He as [Hok Hg Ht Hh Hd Hw Hs];
    cbn [deliver]; pose proof (pop_heap (queue e) Hh) as Hp; cbn [q_pop heapQueue];
    destruct (pop (queue e)) as [[ev q]|]; try by apply returns_ret.
  - destruct Hp as (_ & Hperm & _). unfold work in Hw. rewrite <- Hperm in Hw. cbn [fmap list_fmap] in Hw.
    rewrite load_cons in Hw. lia.
  - destruct (_ <=? _); [|by apply returns_ret]. destruct Hp as (Hq & Hperm & _).
    rewrite <- Hperm in Ht, Hg. cbn [app fmap list_fmap] in Hg. apply Forall_cons in Ht as [Hto Ht], Hg as [Hgm Hg].
    unfold work, future in Hw, Hs. rewrite <- Hperm in Hw, Hs. cbn [fmap list_fmap] in Hw.
    rewrite load_cons in Hw. rewrite weights_cons in Hs.
    destruct (quiet_deliver (cluster e) (ev_msg ev) Hok Hgm) as (c & Hc & Hok' & Hb).
    unfold record. destruct (Digest _) as [kind value]. cbn [lift cluster]. rewrite Hto.
    cbn -[load weights Z.le Collect deliver]. rewrite Hc. cbn -[load weights Z.le Collect deliver].
    match goal with |- returns _ (Collect _ _ _ ?x ≫= _) => assert (ready (limit - 1) top [] x) as H1 end.
    { split; try done; unfold work, future; cbn -[load weights] in *; lia. }
    eapply returns_bind; [by apply Collect_ready|]. intros e2 H2.
    destruct (IH (limit - 1)%nat e2 Hmax ltac:(lia) H2) as (e3 & -> & H3). apply returns_ret.
    destruct H3. split; try done. lia.
Qed.

Lemma ticks_ready l : forall limit top e,
  l ⊆ ids -> ready limit top [] e ->
  returns (ready (limit + length l * burst) (top + Z.of_nat (length l * burst)) [])
    (each (fun id e => lift (AtTick id) (c_Tick id (cluster e)) e) l e).
Proof.
  induction l as [|id l IH]; intros limit top e Hl He; cbn [each length].
  - apply returns_ret. destruct He. split; try done; lia.
  - destruct He as [Hok Hg Ht Hh Hd Hw Hs].
    destruct (quiet_tick (cluster e) id Hok ltac:(apply Hl; apply list_elem_of_here)) as (c & Hc & Hok' & Hb).
    rewrite Hc. cbn [lift mbind run_bind].
    assert (ready (limit + burst) (top + Z.of_nat burst) [] (e <| cluster := c |>)) as H1.
    { split; try done; unfold work, future in *; cbn -[load weights] in *; lia. }
    destruct (IH _ _ _ ltac:(intros x Hx; apply Hl; by right) H1) as (e' & -> & [Hok2 Hg2 Ht2 Hh2 Hd2 Hw2 Hs2]).
    apply returns_ret. split; try done; lia.
Qed.

(** A step returns once the fuel covers the work in flight and one burst per
    node. *)
Lemma Step_ready limit top fuel e :
  let ticks := (length ids * burst)%nat in
  ready limit top [] e -> top + Z.of_nat ticks <= maxu64 -> (limit + ticks <= fuel)%nat ->
  returns (ready (limit + ticks) (top + Z.of_nat ticks) []) (Step Intn Int63n sha256 (heapQueue M) fuel e).
Proof.
  intros ticks He Hmax Hf. unfold Step. rewrite (quiet_nodes _ (rd_ok _ _ _ _ He)).
  assert (ready limit top [] (e <| Now := w64 (Now e + 1) |>)) as H0 by by destruct He; split.
  eapply returns_bind; [by apply (ticks_ready ids _ _ _ ltac:(done) H0)|]. fold ticks. intros e1 H1.
  eapply returns_bind; [by apply Collect_ready|]. intros e2 H2. by apply deliver_ready.
Qed.

End terminates.
