(* ===== verification/EngineLog.v ===== *)
(** * The drops of a run

    What [InjectedDrops] of [dst/inject.go] counts.  The log of a run lists, in
    order, every message an injector denied: when, between which nodes, with which
    delay, and by whom.  Result: the counters of the engine are the tallies of that
    log, and each drop of it was denied by the first injector that denies it. *)

From S2P Require Import Prelude Bytes EventHeap Engine EngineInv.

(** A message that was scheduled at [d_now] and blocked. *)
Record denial := mkDenial { d_now : Z; d_from : Z; d_to : Z; d_delay : Z; d_by : string }.

(** The drops of a loop. *)
Fixpoint dropsEach {P A B} (g : B -> A -> list denial) (f : B -> A -> run P A) (l : list B) (a : A) : list denial :=
  match l with
  | [] => []
  | x :: l => g x a ++ match f x a with Ret a' => dropsEach g f l a' | _ => [] end
  end.

Section log.
Context {C M : Type} `{!Cluster C M} {R : Type} (Intn Int63n : Z -> R -> Z * R) (sha256 : bytes -> bytes).
Context (Q : Queue M).
Abbreviation engine := (Engine C M R).
Implicit Types e : engine.

Definition dropsSchedule (m : M) (d : Z) e : list denial :=
  let (from, to) := Route m in
  let by_ := blockedBy from to d e in
  if bool_decide (by_ = ""%string) then [] else [mkDenial (Now e) from to d by_].

Definition dropsDelay (m : M) e : list denial :=
  if 0 <? delay e then
    if delayBound e <=? 0 then [] else
    let (x, r) := Int63n (delayBound e) (rng e) in dropsSchedule m (w64 x) (e <| rng := r |>)
  else dropsSchedule m 0 e.

Definition dropsMsg (m : M) e : list denial :=
  let (lost, e) :=
    if 0 <? drop_ e then let (x, r) := Intn 1000 (rng e) in (x <? drop_ e, e <| rng := r |>)
    else (false, e) in
  if lost : bool then [] else dropsDelay m e.

Definition dropsNode (id : Z) e : list denial :=
  match c_Drain id (cluster e) with
  | Some (c, scratch) => dropsEach dropsMsg (collectMsg Intn Int63n Q) scratch (e <| cluster := c |>)
  | None => []
  end.

Definition dropsCollect e : list denial := dropsEach dropsNode (collectNode Intn Int63n Q) (Nodes (cluster e)) e.

Fixpoint dropsDeliver (fuel : nat) e : list denial :=
  match fuel, q_pop Q (queue e) with
  | S fuel, Some (ev, q) =>
      if ev_at ev <=? Now e then
        let e := record sha256 ev (e <| queue := q |>) in
        match c_Deliver (ev_to ev) (ev_msg ev) (cluster e) with
        | None => []
        | Some c =>
            let e := e <| cluster := c |> in
            dropsCollect e ++ match Collect Intn Int63n Q e with Ret e => dropsDeliver fuel e | _ => [] end
        end
      else []
  | _, _ => []
  end.

Definition dropsStep (fuel : nat) e : list denial :=
  let e := e <| Now := w64 (Now e + 1) |> in
  match each (fun id e => lift (AtTick id) (c_Tick id (cluster e)) e) (Nodes (cluster e)) e with
  | Ret e => dropsCollect e ++ match Collect Intn Int63n Q e with Ret e => dropsDeliver fuel e | _ => [] end
  | _ => []
  end.

(** How often [name] dropped a message. *)
Definition tally (name : string) (l : list denial) : Z := len (filter (fun d => d_by d = name) l).

Lemma tally_app name l l' : tally name (l ++ l') = tally name l + tally name l'.
Proof. unfold tally, len. rewrite filter_app, length_app. lia. Qed.

(** The first injector that denies the message has dropped it. *)
Definition denied (l : list Injector) (d : denial) : Prop :=
  exists i, find (fun i => negb (i_Allow i (d_now d) (d_from d) (d_to d) (d_delay d))) l = Some i /\ i_Name i = d_by d.

(** Between [e] and [e'] the drops were [l]. *)
Definition logs (l : list denial) e e' : Prop :=
  injectors e' = injectors e /\ Forall (denied (injectors e)) l /\
  forall name, default 0 (injected e' !! name) = default 0 (injected e !! name) + tally name l.

Lemma logs_none e e' : injectors e' = injectors e -> injected e' = injected e -> logs [] e e'.
Proof. intros H1 H2. split; [done|]. split; [constructor|]. intros name. rewrite H2. unfold tally, len. cbn. lia. Qed.

Lemma logs_app l l' e e1 e2 : logs l e e1 -> logs l' e1 e2 -> logs (l ++ l') e e2.
Proof.
  intros (I1 & F1 & T1) (I2 & F2 & T2). split; [congruence|]. split; [rewrite Forall_app; split; [done|by rewrite <- I1]|].
  intros name. rewrite T2, T1, tally_app. lia.
Qed.

Lemma each_logs {B} (g : B -> engine -> list denial) (f : B -> engine -> running C M R engine) l : forall e,
  (forall x e, always (logs (g x e) e) (f x e)) -> always (logs (dropsEach g f l e) e) (each f l e).
Proof.
  induction l as [|x l IH]; intros e Hf e'; cbn [each dropsEach]; [intros [= <-]; by apply logs_none|].
  destruct (f x e) as [e1| |] eqn:E; cbn [mbind run_bind]; [|done..]. intros H.
  eapply logs_app; [by apply Hf|]. by apply IH.
Qed.

Lemma schedule_logs m d e : always (logs (dropsSchedule m d e) e) (schedule Q m d e).
Proof.
  intros e'. unfold schedule, dropsSchedule. destruct (Route m) as [from to].
  destruct (bool_decide (blockedBy from to d e = ""%string)) eqn:Eb; cbn [negb].
  - destruct (_ =? _); [done|]. intros [= <-]. by apply logs_none.
  - intros [= <-]. apply bool_decide_eq_false in Eb. split; [done|]. split.
    + apply Forall_singleton. unfold denied, blockedBy in *. cbn. destruct (find _ _) as [i|]; [by exists i|done].
    + intros name. cbn. unfold tally. cbn [filter list_filter d_by].
      destruct (decide (blockedBy from to d e = name)) as [->|H].
      * rewrite lookup_insert_eq. unfold len. cbn. lia.
      * rewrite lookup_insert_ne by done. unfold len. cbn. lia.
Qed.

Lemma collectMsg_logs m e : always (logs (dropsMsg m e) e) (collectMsg Intn Int63n Q m e).
Proof.
  assert (forall e, always (logs (dropsDelay m e) e) (delayMsg Int63n Q m e)) as Hd.
  { clear e. intros e. unfold delayMsg, dropsDelay. destruct (0 <? delay e); [|apply schedule_logs].
    destruct (_ <=? 0); [by intros e'|]. destruct (Int63n _ _) as [x r]. intros e'. by apply (schedule_logs m (w64 x)). }
  unfold collectMsg, dropsMsg. destruct (0 <? drop_ e); [|apply Hd]. destruct (Intn 1000 (rng e)) as [x r].
  destruct (x <? drop_ e); [|intros e'; by apply Hd]. intros e' [= <-]. by apply logs_none.
Qed.

Lemma Collect_logs e : always (logs (dropsCollect e) e) (Collect Intn Int63n Q e).
Proof.
  apply each_logs. clear e. intros id e. unfold collectNode, dropsNode.
  destruct (c_Drain id (cluster e)) as [[c scratch]|]; [|by intros e']. intros e' H.
  apply (each_logs dropsMsg (collectMsg Intn Int63n Q) scratch) in H; [exact H|].
  apply collectMsg_logs.
Qed.

Lemma deliver_logs fuel : forall e, always (logs (dropsDeliver fuel e) e) (deliver Intn Int63n sha256 Q fuel e).
Proof.
  induction fuel as [|fuel IH]; intros e e'; cbn [deliver dropsDeliver]; destruct (q_pop Q (queue e)) as [[ev q]|];
    try (intros [= <-]; by apply logs_none).
  { destruct (_ <=? _); [done|]. intros [= <-]. by apply logs_none. }
  destruct (_ <=? _); [|intros [= <-]; by apply logs_none]. cbn zeta.
  set (e0 := record sha256 ev (e <| queue := q |>)). unfold lift. destruct (c_Deliver _ _ _) as [c|]; cbn [mbind run_bind]; [|done].
  set (e1 := e0 <| cluster := c |>). destruct (Collect Intn Int63n Q e1) as [e2| |] eqn:E; cbn [mbind run_bind]; [|done..].
  intros H. assert (logs [] e e1) as H0.
  { unfold e1, e0, record. destruct (Digest _). by apply logs_none. }
  apply (logs_app [] _ _ _ _ H0). eapply logs_app; [by apply Collect_logs|]. by apply IH.
Qed.

Lemma ticks_logs l : forall e,
  always (logs [] e) (each (fun id e => lift (AtTick id) (c_Tick id (cluster e)) e) l e).
Proof.
  induction l as [|id l IH]; intros e e'; cbn [each]; [intros [= <-]; by apply logs_none|].
  unfold lift at 1. destruct (c_Tick id (cluster e)) as [c|]; cbn [mbind run_bind]; [|done]. intros H.
  apply (logs_app [] [] e (e <| cluster := c |>)); [by apply logs_none|]. by apply IH.
Qed.

Lemma Step_logs fuel e : always (logs (dropsStep fuel e) e) (Step Intn Int63n sha256 Q fuel e).
Proof.
  intros e'. unfold Step, dropsStep. cbn zeta. set (e0 := e <| Now := _ |>). change (logs ?l e e') with (logs l e0 e').
  pose proof (ticks_logs (Nodes (cluster e0)) e0) as Ht. destruct (each _ _ e0) as [e1| |]; cbn [mbind run_bind]; [|done..].
  destruct (Collect Intn Int63n Q e1) as [e2| |] eqn:E; cbn [mbind run_bind]; [|done..]. intros H.
  apply (logs_app [] _ _ e1); [by apply Ht|]. eapply logs_app; [by apply Collect_logs|]. by apply deliver_logs.
Qed.

End log.
