(* ===== verification/EngineSim.v ===== *)
(** * The engine over related clusters

    Two clusters whose operations agree, step by step, up to a relation give runs
    of [dst/engine.go] that agree: the same draws, the same schedule, the same
    faults and the same trace, and the same end, normal or in the same call. *)

From S2P Require Import Prelude Bytes EventHeap Engine EngineInv.

(** Operations that both fail, or both succeed in related states. *)
Definition opAgree {A B} (rel : A -> B -> Prop) (o : option A) (o' : option B) : Prop :=
  match o, o' with Some a, Some b => rel a b | None, None => True | _, _ => False end.

(** [rel] relates the clusters; [good] holds of every message the second sends. *)
Class Simulates {C D M : Type} (IC : Cluster C M) (ID : Cluster D M) (rel : C -> D -> Prop) (good : M -> Prop) : Prop := {
  sim_Route : forall m, @Route C M IC m = @Route D M ID m;
  sim_Digest : forall m, @Digest C M IC m = @Digest D M ID m;
  sim_Nodes : forall c d, rel c d -> @Nodes C M IC c = @Nodes D M ID d;
  sim_Tick : forall c d id, rel c d -> id ∈ @Nodes D M ID d ->
    opAgree rel (@c_Tick C M IC id c) (@c_Tick D M ID id d);
  sim_Tick_Nodes : forall d id d', @c_Tick D M ID id d = Some d' -> @Nodes D M ID d' = @Nodes D M ID d;
  sim_Drain_Nodes : forall d id d' out, @c_Drain D M ID id d = Some (d', out) -> @Nodes D M ID d' = @Nodes D M ID d;
  sim_Deliver_Nodes : forall d id m d', @c_Deliver D M ID id m d = Some d' -> @Nodes D M ID d' = @Nodes D M ID d;
  sim_Deliver : forall c d m, rel c d -> good m ->
    opAgree rel (@c_Deliver C M IC (@Route D M ID m).2 m c) (@c_Deliver D M ID (@Route D M ID m).2 m d);
  sim_Drain : forall c d id, rel c d -> id ∈ @Nodes D M ID d ->
    opAgree (fun x y => rel x.1 y.1 /\ x.2 = y.2 /\ Forall good y.2) (@c_Drain C M IC id c) (@c_Drain D M ID id d)
}.

(** ** Where the engine panics *)

(** The panics of a run satisfy [B]. *)
Definition panics {E A} (B : E -> Prop) (r : run E A) : Prop := forall p, r = Panic p -> B p.

Lemma panics_bind {E A A'} (B : E -> Prop) (r : run E A) (f : A -> run E A') :
  panics B r -> (forall a, panics B (f a)) -> panics B (r ≫= f).
Proof. intros Hr Hf p. destruct r as [a|q|]; [apply Hf|intros [= <-]; by apply Hr|done]. Qed.

Lemma panics_each {E A X} (B : E -> Prop) (f : X -> A -> run E A) l : forall a,
  (forall x a, panics B (f x a)) -> panics B (each f l a).
Proof.
  induction l as [|x l IH]; intros a Hf; cbn [each]; [done|]. apply panics_bind; [apply Hf|]. intros. by apply IH.
Qed.

Section panicking.
Context {C M : Type} `{!Cluster C M} {R : Type} (Intn Int63n : Z -> R -> Z * R) (sha256 : bytes -> bytes) (Q : Queue M).

(** The call at that place panics, or the delay has no bound. *)
Definition broken (p : place M * Engine C M R) : Prop :=
  match p.1 with
  | AtTick id => c_Tick id (cluster p.2) = None
  | AtDeliver id m => c_Deliver id m (cluster p.2) = None
  | AtDrain id => c_Drain id (cluster p.2) = None
  | AtDelay => delayBound p.2 <= 0
  | AtCall => False
  end.

Lemma Collect_panics e : panics broken (Collect Intn Int63n Q e).
Proof.
  apply panics_each. clear e. intros id e. unfold collectNode.
  destruct (c_Drain id (cluster e)) as [[c scratch]|] eqn:E; [|by intros p [= <-]].
  apply panics_each. clear. intros m e. unfold collectMsg.
  assert (forall e, panics broken (delayMsg Int63n Q m e)) as Hd.
  { clear. intros e. assert (forall d e, panics broken (schedule Q m d e)) as Hs.
    { intros d e' p. unfold schedule. destruct (Route m). destruct (negb _); [done|]. by destruct (_ =? _). }
    unfold delayMsg. destruct (0 <? delay e); [|apply Hs]. destruct (Z.leb_spec (delayBound e) 0); [by intros p [= <-]|].
    destruct (Int63n _ _). apply Hs. }
  destruct (0 <? drop_ e); [|apply Hd]. destruct (Intn 1000 (rng e)) as [x r]. destruct (x <? drop_ e); [by intros p|apply Hd].
Qed.

Lemma deliver_panics fuel : forall e, panics broken (deliver Intn Int63n sha256 Q fuel e).
Proof.
  induction fuel as [|fuel IH]; intros e; cbn [deliver]; destruct (q_pop Q (queue e)) as [[ev q]|]; try done;
    (destruct (_ <=? _); [|done]); [done|]. cbn zeta. apply panics_bind.
  - intros p. unfold lift. destruct (c_Deliver _ _ _) eqn:E; [done|]. by intros [= <-].
  - intros e1. apply panics_bind; [apply Collect_panics|apply IH].
Qed.

Lemma Step_panics fuel e : panics broken (Step Intn Int63n sha256 Q fuel e).
Proof.
  unfold Step. cbn zeta. apply panics_bind.
  - apply panics_each. intros id e1 p. unfold lift. destruct (c_Tick _ _) eqn:E; [done|]. by intros [= <-].
  - intros e1. apply panics_bind; [apply Collect_panics|]. intros. apply deliver_panics.
Qed.

End panicking.

(** ** Related clusters *)

Section related.
Context {C D M : Type} {IC : Cluster C M} {ID : Cluster D M} (rel : C -> D -> Prop) (good : M -> Prop).
Context {HS : Simulates IC ID rel good} {R : Type} (Intn Int63n : Z -> R -> Z * R) (sha256 : bytes -> bytes).

(** The same engine over another cluster. *)
Definition over (d : D) (e : Engine C M R) : Engine D M R :=
  mkEngine (Now e) d (rng e) (drop_ e) (delay e) (seq_ e) (queue e) (trace e) (injectors e) (injected e).

(** Engines that differ only in their clusters. *)
Definition twin (ids : list Z) (e : Engine C M R) (f : Engine D M R) : Prop :=
  exists d, f = over d e /\ rel (cluster e) d /\ @Nodes D M ID d = ids /\ heap (queue e) /\
    Forall (fun ev => good (ev_msg ev) /\ ev_to ev = (@Route D M ID (ev_msg ev)).2) (queue e).

Lemma schedule_twin ids m d e f :
  twin ids e f -> good m -> agrees (twin ids) (schedule (heapQueue M) m d e) (schedule (heapQueue M) m d f).
Proof.
  intros (x & -> & Hr & Hn & Hh & Hg) Hm. unfold schedule. rewrite (sim_Route m). destruct (Route m) as [from to] eqn:HR.
  change (blockedBy from to d (over x e)) with (blockedBy from to d e). destruct (negb _); [by exists x|].
  change (seq_ (over x e)) with (seq_ e). destruct (_ =? _); [done|]. cbn. set (ev := mkEvent _ _ _ _ m).
  destruct (push_heap ev (queue e) Hh) as [H1 H2]. exists x. split; [done|]. split; [done|]. split; [done|]. split; [done|].
  cbn. rewrite H2. constructor; [|done]. cbn. by rewrite HR.
Qed.

Lemma rng_twin ids r e f : twin ids e f -> twin ids (e <| rng := r |>) (f <| rng := r |>).
Proof. intros (x & -> & H). by exists x. Qed.

Lemma collectMsg_twin ids m e f :
  twin ids e f -> good m ->
  agrees (twin ids) (collectMsg Intn Int63n (heapQueue M) m e) (collectMsg Intn Int63n (heapQueue M) m f).
Proof.
  intros He Hm.
  assert (forall e f, twin ids e f -> agrees (twin ids) (delayMsg Int63n (heapQueue M) m e) (delayMsg Int63n (heapQueue M) m f)) as Hd.
  { clear e f He. intros e f He. unfold delayMsg. pose proof He as (x & E & _).
    assert (delay f = delay e /\ rng f = rng e /\ delayBound f = delayBound e) as (-> & -> & ->) by by rewrite E.
    destruct (0 <? delay e); [|by apply schedule_twin]. destruct (_ <=? 0); [by split|].
    destruct (Int63n _ _) as [y r]. apply schedule_twin; [by apply rng_twin|done]. }
  unfold collectMsg. pose proof He as (x & E & _). assert (drop_ f = drop_ e /\ rng f = rng e) as (-> & ->) by by rewrite E.
  destruct (0 <? drop_ e); [|by apply Hd]. destruct (Intn 1000 (rng e)) as [y r].
  destruct (y <? drop_ e); [by apply rng_twin|by apply Hd, rng_twin].
Qed.

Lemma collectNode_twin ids id e f :
  twin ids e f -> id ∈ ids ->
  agrees (twin ids) (collectNode Intn Int63n (heapQueue M) id e) (collectNode Intn Int63n (heapQueue M) id f).
Proof.
  intros He Hid. pose proof He as (x & -> & Hr & Hn & Hh & Hg). unfold collectNode. cbn [cluster over].
  pose proof (sim_Drain _ x id Hr ltac:(by rewrite Hn)) as HD. unfold opAgree in HD.
  destruct (c_Drain id (cluster e)) as [[c out]|], (c_Drain id x) as [[d out']|] eqn:E; try done.
  destruct HD as (Hr' & Eo & Ho). cbn in Hr', Eo, Ho. subst out'.
  assert (twin ids (e <| cluster := c |>) (over x e <| cluster := d |>)) as Ht.
  { exists d. split; [done|]. split; [done|]. split; [|done]. rewrite <- Hn. by eapply sim_Drain_Nodes. }
  clear He E. revert Ht. generalize (e <| cluster := c |>) (over x e <| cluster := d |>). clear -Ho HS.
  induction Ho as [|m out Hm Ho IH]; intros e f Ht; cbn [each]; [done|].
  eapply agree_bind; [by apply collectMsg_twin|]. apply IH.
Qed.

(** A loop over nodes of the cluster. *)
Lemma each_twin ids l (g : Z -> Engine C M R -> running C M R (Engine C M R))
    (h : Z -> Engine D M R -> running D M R (Engine D M R)) e f :
  (forall id e f, id ∈ ids -> twin ids e f -> agrees (twin ids) (g id e) (h id f)) ->
  l ⊆ ids -> twin ids e f -> agrees (twin ids) (each g l e) (each h l f).
Proof.
  intros Hgh. revert e f. induction l as [|id l IH]; intros e f Hl He; cbn [each]; [done|].
  eapply agree_bind; [apply Hgh; [apply Hl; apply list_elem_of_here|done]|]. intros e1 f1. apply IH.
  intros y Hy. apply Hl. by right.
Qed.

Lemma twin_Nodes ids e f : twin ids e f -> Nodes (cluster e) = ids /\ Nodes (cluster f) = ids.
Proof. intros (x & -> & Hr & Hn & _). split; [|done]. by rewrite (sim_Nodes _ _ Hr). Qed.

Lemma Collect_twin ids e f :
  twin ids e f -> agrees (twin ids) (Collect Intn Int63n (heapQueue M) e) (Collect Intn Int63n (heapQueue M) f).
Proof.
  intros He. unfold Collect. destruct (twin_Nodes _ _ _ He) as [-> ->].
  apply each_twin with (ids := ids); [|done|done]. intros. by apply collectNode_twin.
Qed.

Lemma lift_twin ids at_ o o' e f :
  twin ids e f -> opAgree rel o o' -> (forall d, o' = Some d -> Nodes d = ids) ->
  agrees (twin ids) (lift at_ o e) (lift at_ o' f).
Proof.
  intros He Ho Hd. pose proof He as (x & -> & Hr & Hn & Hh & Hg).
  destruct o as [c|], o' as [d|]; try done. exists d.
  split; [done|]. split; [done|]. split; [by apply Hd|done].
Qed.

Lemma deliver_twin ids fuel : forall e f,
  twin ids e f ->
  agrees (twin ids) (deliver Intn Int63n sha256 (heapQueue M) fuel e) (deliver Intn Int63n sha256 (heapQueue M) fuel f).
Proof.
  induction fuel as [|fuel IH]; intros e f He; pose proof He as (x & -> & Hr & Hn & Hh & Hg); cbn [deliver];
    pose proof (pop_heap (queue e) Hh) as Hp; cbn [q_pop heapQueue queue over]; destruct (pop (queue e)) as [[ev q]|];
    change (Now (over x e)) with (Now e); try done; (destruct (_ <=? _); [|done]); [done|].
  destruct Hp as (Hq & Hperm & _). rewrite <- Hperm in Hg. apply Forall_cons in Hg as [[Hgm Hto] Hg].
  eapply (agree_bind _ (twin ids)); [|intros e1 f1 H1; eapply (agree_bind _ (twin ids)); [by apply Collect_twin|apply IH]].
  unfold record. rewrite (sim_Digest (ev_msg ev)). destruct (Digest (ev_msg ev)) as [kind value]. cbn [cluster over].
  apply lift_twin.
  - exists x. split; [done|]. split; [done|]. split; [done|]. split; [done|exact Hg].
  - rewrite Hto. by apply sim_Deliver.
  - intros d Hd. rewrite <- Hn. by eapply sim_Deliver_Nodes.
Qed.

Lemma Step_twin ids fuel e f :
  twin ids e f ->
  agrees (twin ids) (Step Intn Int63n sha256 (heapQueue M) fuel e) (Step Intn Int63n sha256 (heapQueue M) fuel f).
Proof.
  intros He. unfold Step. cbn zeta.
  assert (twin ids (e <| Now := w64 (Now e + 1) |>) (f <| Now := w64 (Now f + 1) |>)) as H1.
  { destruct He as (x & -> & H). by exists x. }
  destruct (twin_Nodes _ _ _ H1) as [-> ->].
  eapply (agree_bind _ (twin ids)); [apply each_twin with (ids := ids); [|done|done]|].
  - clear e f He H1. intros id e f Hid He. pose proof He as (x & -> & Hr & Hn & _). apply lift_twin; [done|..].
    + apply sim_Tick; [done|]. cbn. by rewrite Hn.
    + intros d Hd. rewrite <- Hn. by eapply sim_Tick_Nodes.
  - intros e1 f1 H2. eapply (agree_bind _ (twin ids)); [by apply Collect_twin|]. intros. by apply deliver_twin.
Qed.

End related.
