(* ===== verification/GoStrings.v ===== *)
(** * Strings and numbers in text

    What the sources use of Go's [strings] and [strconv]: [strings.TrimSpace], and
    [strconv.ParseInt] with base 0, which takes the base from a prefix.  A string is
    the list of its bytes.  Results: trimming removes space at both ends and nothing
    else; decimal and hexadecimal numbers are read as what they say, and what is
    read fits an [int64]. *)

From S2P Require Import Prelude.

Definition byteOf (c : Ascii.ascii) : Z := Z.of_N (Ascii.N_of_ascii c).

Fixpoint bytesOf (s : string) : list Z :=
  match s with
  | EmptyString => []
  | String c s => byteOf c :: bytesOf s
  end.

(** ** strings.TrimSpace *)

(** The white space of [unicode.IsSpace], by the length of its UTF-8 encoding:
    tab to carriage return and the blank; U+0085 and U+00A0; U+1680, U+2000 to
    U+200A, U+2028, U+2029, U+202F, U+205F and U+3000. *)
Definition space1 (a : Z) : bool := ((9 <=? a) && (a <=? 13)) || (a =? 32).
Definition space2 (a b : Z) : bool := (a =? 194) && ((b =? 133) || (b =? 160)).
Definition space3 (a b c : Z) : bool :=
  ((a =? 225) && (b =? 154) && (c =? 128)) ||
  ((a =? 226) && (b =? 128) &&
    (((128 <=? c) && (c <=? 138)) || (c =? 168) || (c =? 169) || (c =? 175))) ||
  ((a =? 226) && (b =? 129) && (c =? 159)) ||
  ((a =? 227) && (b =? 128) && (c =? 128)).

Section trim.
Variables (p1 : Z -> bool) (p2 : Z -> Z -> bool) (p3 : Z -> Z -> Z -> bool).

Fixpoint trim (l : list Z) : list Z :=
  match l with
  | [] => []
  | a :: l1 =>
      if p1 a then trim l1 else
      match l1 with
      | [] => l
      | b :: l2 =>
          if p2 a b then trim l2 else
          match l2 with
          | [] => l
          | c :: l3 => if p3 a b c then trim l3 else l
          end
      end
  end.

End trim.

Definition trimLeft (l : list Z) : list Z := trim space1 space2 space3 l.

Definition trimRight (l : list Z) : list Z :=
  reverse (trim space1 (fun b a => space2 a b) (fun c b a => space3 a b c) (reverse l)).

Definition TrimSpace (l : list Z) : list Z := trimRight (trimLeft l).

(** [strings.TrimSpace(s) == ""]. *)
Definition blank (s : string) : bool := bool_decide (TrimSpace (bytesOf s) = []).

(** ** strconv.ParseInt with base 0 and 64 bits *)

Definition lower (c : Z) : Z := Z.lor c 32.

Definition digitOf (c : Z) : option Z :=
  if (48 <=? c) && (c <=? 57) then Some (c - 48)
  else if (97 <=? lower c) && (lower c <=? 122) then Some (lower c - 97 + 10)
  else None.

(** The loop over the digits, with the number so far and whether there was an
    underscore.  [None] is a syntax or range error. *)
Fixpoint digits (base : Z) (l : list Z) (n : Z) (underscores : bool) : option (Z * bool) :=
  match l with
  | [] => Some (n, underscores)
  | c :: l =>
      if c =? 95 then digits base l n true else
      d ← digitOf c;
      if base <=? d then None
      else if maxu64 <? n * base + d then None
      else digits base l (n * base + d) underscores
  end.

(** [underscoreOK]: underscores only between digits, or after the base prefix. *)
Inductive seen := SawStart | SawDigit | SawUnderscore | SawOther.

Fixpoint underscoresIn (hex : bool) (l : list Z) (i : seen) : bool :=
  match l with
  | [] => if i is SawUnderscore then false else true
  | c :: l =>
      if ((48 <=? c) && (c <=? 57)) || (hex && (97 <=? lower c) && (lower c <=? 102))
      then underscoresIn hex l SawDigit
      else if c =? 95 then (if i is SawDigit then underscoresIn hex l SawUnderscore else false)
      else if i is SawUnderscore then false
      else underscoresIn hex l SawOther
  end.

(** The base and the digits; the second character tells the base after a 0. *)
Definition splitBase (l : list Z) : Z * list Z :=
  match l with
  | 48 :: x :: _ :: _ =>
      if lower x =? 98 then (2, drop 2 l)
      else if lower x =? 111 then (8, drop 2 l)
      else if lower x =? 120 then (16, drop 2 l)
      else (8, drop 1 l)
  | 48 :: _ => (8, drop 1 l)
  | _ => (10, l)
  end.

Definition underscoreOK (l : list Z) : bool :=
  match l with
  | 48 :: x :: ds =>
      if lower x =? 120 then underscoresIn true ds SawDigit
      else if (lower x =? 98) || (lower x =? 111) then underscoresIn false ds SawDigit
      else underscoresIn false l SawStart
  | _ => underscoresIn false l SawStart
  end.

Definition ParseUint (l : list Z) : option Z :=
  match l with
  | [] => None
  | _ =>
      let (base, ds) := splitBase l in
      '(n, underscores) ← digits base ds 0 false;
      if underscores && negb (underscoreOK l) then None else Some n
  end.

Definition ParseInt (l : list Z) : option Z :=
  match l with
  | [] => None
  | 45 :: l => n ← ParseUint l; if 2 ^ 63 <? n then None else Some (- n)
  | 43 :: l => n ← ParseUint l; if 2 ^ 63 <=? n then None else Some n
  | _ => n ← ParseUint l; if 2 ^ 63 <=? n then None else Some n
  end.

(** ** What is read *)

Lemma ParseUint_range l n : ParseUint l = Some n -> 0 <= n <= maxu64.
Proof.
  assert (forall base l n u n' u', 0 < base -> 0 <= n <= maxu64 -> digits base l n u = Some (n', u') -> 0 <= n' <= maxu64) as Hd.
  { clear. intros base l. induction l as [|c l IH]; intros n u n' u' Hb Hn; cbn [digits]; [by intros [= <- _]|].
    destruct (c =? 95); [by apply IH|]. destruct (digitOf c) as [d|] eqn:E; cbn; [|done].
    destruct (base <=? d); [done|]. destruct (Z.ltb_spec maxu64 (n * base + d)); [done|]. apply IH; [done|].
    assert (0 <= d); [|nia]. unfold digitOf in E. destruct (_ && _) eqn:E1; [injection E; lia|].
    destruct ((97 <=? _) && _) eqn:E2; [injection E; lia|done]. }
  unfold ParseUint. destruct l as [|c l]; [done|]. destruct (splitBase (c :: l)) as [base ds] eqn:E.
  destruct (digits base ds 0 false) as [[m u]|] eqn:E1; cbn; [|done].
  destruct (_ && _); [done|]. intros [= <-]. eapply Hd; [|split; [reflexivity|done]|exact E1].
  unfold splitBase in E. repeat case_match; simplify_eq; lia.
Qed.

Lemma ParseInt_range l z : ParseInt l = Some z -> - 2 ^ 63 <= z < 2 ^ 63.
Proof.
  assert (forall l n, ParseUint l = Some n -> 0 <= n) as Hu by (intros; by eapply ParseUint_range).
  unfold ParseInt. intros H. repeat case_match; try done;
    (destruct (ParseUint _) as [n|] eqn:E; [|done]); apply Hu in E; cbn in H; case_match; simplify_eq; lia.
Qed.

(** The character of a digit. *)
Definition digitChar (d : Z) : Z := if d <? 10 then 48 + d else 87 + d.

Definition valueFrom (base n : Z) (ds : list Z) : Z := foldl (fun n d => n * base + d) n ds.
Definition value (base : Z) (ds : list Z) : Z := valueFrom base 0 ds.

Lemma digitOf_char d : 0 <= d < 36 -> digitOf (digitChar d) = Some d /\ (digitChar d =? 95) = false.
Proof.
  intros Hd. assert (d ∈ seqZ 0 36) as Hin by (apply elem_of_seqZ; lia).
  assert (forallb (fun d => bool_decide (digitOf (digitChar d) = Some d) && negb (digitChar d =? 95)) (seqZ 0 36) = true) as H by done.
  rewrite forallb_forall in H. apply list_elem_of_In, H, andb_prop in Hin as [H1%bool_decide_eq_true_1 H2%negb_true_iff].
  done.
Qed.

Lemma valueFrom_ge base ds : forall n,
  1 <= base -> 0 <= n -> Forall (fun d => 0 <= d < base) ds -> n <= valueFrom base n ds.
Proof.
  unfold valueFrom. induction ds as [|d ds IH]; intros n Hb Hn Hd; cbn [foldl]; [lia|].
  apply Forall_cons in Hd as [Hd Hds]. specialize (IH (n * base + d) Hb ltac:(nia) Hds). nia.
Qed.

Lemma digits_value base ds : forall n u,
  1 <= base <= 36 -> 0 <= n <= maxu64 -> Forall (fun d => 0 <= d < base) ds ->
  digits base (digitChar <$> ds) n u =
    if decide (valueFrom base n ds <= maxu64) then Some (valueFrom base n ds, u) else None.
Proof.
  induction ds as [|d ds IH]; intros n u Hb Hn Hd; cbn [digits fmap list_fmap].
  { by rewrite decide_True by apply Hn. }
  apply Forall_cons in Hd as [Hd Hds]. destruct (digitOf_char d ltac:(lia)) as [E1 E2]. rewrite E1, E2. cbn [mbind option_bind].
  destruct (Z.leb_spec base d); [lia|].
  pose proof (valueFrom_ge base ds (n * base + d) ltac:(lia) ltac:(nia) Hds) as Hge.
  change (valueFrom base n (d :: ds)) with (valueFrom base (n * base + d) ds).
  destruct (Z.ltb_spec maxu64 (n * base + d)) as [Hlt|Hle].
  - by rewrite decide_False by lia.
  - apply IH; [done|nia|done].
Qed.

Definition int64 (n : Z) : option Z := if decide (n < 2 ^ 63) then Some n else None.

Lemma ParseInt_plain c l n :
  c <> 45 -> c <> 43 -> ParseUint (c :: l) = (if decide (n <= maxu64) then Some n else None) ->
  ParseInt (c :: l) = int64 n.
Proof.
  intros H1 H2 HU.
  assert (ParseInt (c :: l) = n ← ParseUint (c :: l); if 2 ^ 63 <=? n then None else Some n) as ->.
  { unfold ParseInt. repeat case_match; done. }
  rewrite HU. unfold int64, maxu64. repeat case_decide; cbn; try lia;
    destruct (Z.leb_spec (2 ^ 63) n); done || lia.
Qed.

Lemma splitBase_plain c l : c <> 48 -> splitBase (c :: l) = (10, c :: l).
Proof. intros H. unfold splitBase. repeat case_match; done. Qed.

Lemma digitChar_decimal d : 0 <= d < 10 -> digitChar d = 48 + d.
Proof. intros Hd. unfold digitChar. by destruct (Z.ltb_spec d 10); [|lia]. Qed.

(** A decimal number without leading zeros. *)
Lemma ParseInt_decimal ds :
  Forall (fun d => 0 <= d < 10) ds -> head ds <> Some 0 -> ds <> [] ->
  ParseInt (digitChar <$> ds) = int64 (value 10 ds).
Proof.
  intros Hd H0 Hn. destruct ds as [|d ds]; [done|]. pose proof Hd as [Hd1 _]%Forall_cons.
  assert (d <> 0) by (intros ->; done). rewrite fmap_cons, digitChar_decimal by done.
  apply ParseInt_plain; [lia..|]. unfold ParseUint. rewrite splitBase_plain by lia.
  rewrite <- digitChar_decimal, <- fmap_cons, digits_value by done. unfold value. by case_decide.
Qed.

(** A hexadecimal number after [0x]. *)
Lemma ParseInt_hex ds :
  Forall (fun d => 0 <= d < 16) ds -> ds <> [] ->
  ParseInt (48 :: 120 :: (digitChar <$> ds)) = int64 (value 16 ds).
Proof.
  intros Hd Hn. apply ParseInt_plain; [done..|]. unfold ParseUint.
  assert (splitBase (48 :: 120 :: (digitChar <$> ds)) = (16, digitChar <$> ds)) as -> by by destruct ds.
  rewrite digits_value by done. unfold value. by case_decide.
Qed.

(** A number after [0] is octal, and without digits it is zero. *)
Lemma ParseInt_octal ds :
  Forall (fun d => 0 <= d < 8) ds -> ParseInt (48 :: (digitChar <$> ds)) = int64 (value 8 ds).
Proof.
  intros Hd. apply ParseInt_plain; [done..|]. unfold ParseUint.
  assert (splitBase (48 :: (digitChar <$> ds)) = (8, digitChar <$> ds)) as ->.
  { destruct ds as [|d [|d' ds]]; [done..|]. apply Forall_cons in Hd as [Hd _]. rewrite !fmap_cons, digitChar_decimal by lia.
    unfold splitBase. assert (d ∈ seqZ 0 8) as Hin by (apply elem_of_seqZ; lia).
    change (seqZ 0 8) with [0;1;2;3;4;5;6;7] in Hin. repeat (apply elem_of_cons in Hin as [->|Hin]; [done|]).
    by apply elem_of_nil in Hin. }
  rewrite digits_value by done. unfold value. by case_decide.
Qed.

(** ** What is trimmed *)

(** A printable ASCII character. *)
Definition visible (c : Z) : Prop := 33 <= c <= 126.

Lemma trim_visible p1 p2 p3 pre c l :
  (forall a, p1 a = space1 a) -> (forall a b, visible a -> p2 a b = false) ->
  (forall a b d, visible a -> p3 a b d = false) ->
  Forall (fun a => space1 a = true) pre -> visible c -> trim p1 p2 p3 (pre ++ c :: l) = c :: l.
Proof.
  intros H1 H2 H3 Hp Hc. induction Hp as [|a pre Ha Hp IH]; cbn [app trim]; rewrite H1.
  - assert (space1 c = false) as -> by (unfold space1, visible in *; lia).
    destruct l as [|b [|d l]]; rewrite ?H2, ?H3 by done; done.
  - by rewrite Ha.
Qed.

(** Blanks around a text that starts and ends with visible characters. *)
Lemma TrimSpace_pad pre l post c d :
  Forall (fun a => space1 a = true) pre -> Forall (fun a => space1 a = true) post ->
  head l = Some c -> last l = Some d -> visible c -> visible d -> TrimSpace (pre ++ l ++ post) = l.
Proof.
  intros H1 H2 Hh Hl Hc Hd. unfold TrimSpace, trimRight, trimLeft.
  assert (forall a b, visible a -> space2 a b = false /\ space2 b a = false) as Hs2
    by (intros a b Ha; unfold space2, visible in *; lia).
  assert (forall a b e, visible a -> space3 a b e = false /\ space3 e b a = false) as Hs3
    by (intros a b e Ha; unfold space3, visible in *; lia).
  assert (trim space1 space2 space3 (pre ++ l ++ post) = l ++ post) as ->.
  { destruct l as [|c' l]; [done|]. injection Hh as ->. apply trim_visible; try done; [intros a b Ha; by destruct (Hs2 a b Ha)|intros a b e Ha; by destruct (Hs3 a b e Ha)]. }
  apply last_Some in Hl as [l' ->]. rewrite !reverse_app. change (reverse [d]) with [d]. cbn [app].
  rewrite trim_visible; try done.
  - by rewrite reverse_cons, reverse_involutive.
  - intros a b Ha; by destruct (Hs2 a b Ha).
  - intros a b e Ha; by destruct (Hs3 a b e Ha).
  - by apply Forall_reverse.
Qed.
