(* ===== verification/DeviceSuite.v ===== *)
(** * The conformance suite for devices

    [storage/storagetest/device.go]: the tests a storage backend has to pass, each as
    a function of a fresh device that tells whether it passes.  A test that checks
    that the returned slice is a copy reduces to reading twice, since values are
    not shared here.

    Results: every device that keeps the contract of the log and does not fail
    passes; the devices of the repository that do. *)

From S2P Require Import Prelude Bytes GoStrings Wal FaultDisk Devices.

Module Storagetest.

Section suite.
Context {D : Type} `{!Device D}.

(** An operation that has to succeed, and what follows. *)
Definition append (p : bytes) (k : D -> bool) (d : D) : bool :=
  match dev_Append p d with (d, None) => k d | (_, Some _) => false end.
Definition sync (k : D -> bool) (d : D) : bool :=
  match dev_Sync d with (d, None) => k d | (_, Some _) => false end.
Definition truncate (size : Z) (k : D -> bool) (d : D) : bool :=
  match TruncateDurable size d with (d, None) => k d | (_, Some _) => false end.

(** A truncation that has to be refused with [ErrInvalidTear]. *)
Definition refused (size : Z) (k : D -> bool) (d : D) : bool :=
  match TruncateDurable size d with
  | (d, Some e) => bool_decide (e = ErrInvalidTear) && k d
  | (_, None) => false
  end.

(** The durable bytes have to be these. *)
Definition holding (want : bytes) (k : D -> bool) (d : D) : bool :=
  let (d, got) := DurableBytes d in bool_decide (got = want) && k d.

Definition pass (d : D) : bool := true.

Definition RunDeviceSuite (factory : D) : list (string * bool) := [
  ("empty device is empty", holding [] pass factory);
  ("append then sync is durable",
     append (bytesOf "promtact durable record") (sync (holding (bytesOf "promtact durable record") pass)) factory);
  ("appends concatenate in order",
     append (bytesOf "aaa") (append (bytesOf "bb") (append (bytesOf "cccc") (sync (holding (bytesOf "aaabbcccc") pass)))) factory);
  ("sync is idempotent", append (bytesOf "once") (sync (sync (sync (holding (bytesOf "once") pass)))) factory);
  ("empty append is harmless", append [] (append [] (sync (holding [] pass))) factory);
  ("durable bytes are a copy", append (bytesOf "original") (sync (holding (bytesOf "original") (holding (bytesOf "original") pass))) factory);
  ("truncate shortens durable state",
     append (bytesOf "keep|discard") (sync (truncate 4 (holding (bytesOf "keep") pass))) factory);
  ("append continues after truncate",
     append (bytesOf "keep|discard") (sync (truncate 4 (append (bytesOf "+more") (sync (holding (bytesOf "keep+more") pass))))) factory);
  ("truncate to zero empties the device", append (bytesOf "everything") (sync (truncate 0 (holding [] pass))) factory);
  ("truncate rejects out of range sizes",
     append (bytesOf "12345") (sync (refused (-1) (refused 6 (holding (bytesOf "12345") pass)))) factory)]%string.

(** A device that keeps the contract, does not fail, and refuses a truncation
    that is out of range as the interface asks it to. *)
Class Conforming `{!DeviceSpec D} : Prop := {
  cf_append d p : usable d -> (dev_Append p d).2 = None;
  cf_sync d : usable d -> (dev_Sync d).2 = None;
  cf_truncate d n : usable d -> staged d = [] -> 0 <= n <= len (stable d) -> (TruncateDurable n d).2 = None;
  cf_refuse d n : usable d -> staged d = [] -> n < 0 \/ len (stable d) < n ->
    exists d', TruncateDurable n d = (d', Some ErrInvalidTear) /\ usable d' /\ stable d' = stable d /\ staged d' = []
}.

Section conforming.
Context `{!DeviceSpec D} {HC : Conforming}.

(** A device with these durable and pending bytes. *)
Definition at_ (s p : bytes) (d : D) : Prop := usable d /\ stable d = s /\ staged d = p.

Lemma append_at s p x k d : at_ s p d -> (forall d, at_ s (p ++ x) d -> k d = true) -> append x k d = true.
Proof.
  intros (Hu & Hs & Hp) Hk. unfold append. pose proof (cf_append d x Hu) as H. destruct (dev_Append x d) as [d' [e|]] eqn:E; [done|].
  destruct (dev_append_spec x d d' Hu E) as (? & ? & ?). apply Hk. unfold at_. by subst.
Qed.

Lemma sync_at s p k d : at_ s p d -> (forall d, at_ (s ++ p) [] d -> k d = true) -> sync k d = true.
Proof.
  intros (Hu & Hs & Hp) Hk. unfold sync. pose proof (cf_sync d Hu) as H. destruct (dev_Sync d) as [d' [e|]] eqn:E; [done|].
  destruct (dev_sync_spec d d' Hu E) as (? & ? & ?). apply Hk. unfold at_. by subst.
Qed.

Lemma truncate_at s n k d : at_ s [] d -> 0 <= n <= len s -> (forall d, at_ (take (Z.to_nat n) s) [] d -> k d = true) -> truncate n k d = true.
Proof.
  intros (Hu & Hs & Hp) Hn Hk. unfold truncate. rewrite <- Hs in Hn. pose proof (cf_truncate d n Hu Hp Hn) as H.
  destruct (TruncateDurable n d) as [d' [e|]] eqn:E; [done|]. destruct (dev_truncate_spec n d d' Hu Hp E) as (? & _ & ? & ?).
  apply Hk. unfold at_. by subst.
Qed.

Lemma refused_at s n k d : at_ s [] d -> n < 0 \/ len s < n -> (forall d, at_ s [] d -> k d = true) -> refused n k d = true.
Proof.
  intros (Hu & Hs & Hp) Hn Hk. unfold refused. rewrite <- Hs in Hn. destruct (cf_refuse d n Hu Hp Hn) as (d' & -> & Hu' & Hs' & Hp').
  rewrite bool_decide_true by done. apply Hk. unfold at_. by rewrite Hs'.
Qed.

Lemma holding_at s want k d : at_ s [] d -> s = want -> (forall d, at_ s [] d -> k d = true) -> holding want k d = true.
Proof.
  intros (Hu & Hs & Hp) <- Hk. unfold holding. destruct (DurableBytes d) as [d' got] eqn:E.
  destruct (dev_durable_spec d d' got Hu Hp E) as (? & -> & ? & ?). rewrite bool_decide_true by done. apply Hk. unfold at_. by subst.
Qed.

End conforming.
End suite.

(** One operation of a test, on a device in a known state. *)
Ltac test_step :=
  match goal with
  | H : at_ _ _ _ |- append _ _ _ = true => eapply append_at; [exact H|]; clear H; intros ? H
  | H : at_ _ _ _ |- sync _ _ = true => eapply sync_at; [exact H|]; clear H; intros ? H
  | H : at_ _ _ _ |- truncate _ _ _ = true => eapply truncate_at; [exact H|vm_compute; split; discriminate|]; clear H; intros ? H
  | H : at_ _ _ _ |- refused _ _ _ = true => eapply refused_at; [exact H|first [left; reflexivity|right; reflexivity]|]; clear H; intros ? H
  | H : at_ _ _ _ |- holding _ _ _ = true => eapply holding_at; [exact H|vm_compute; reflexivity|]; clear H; intros ? H
  | |- pass _ = true => reflexivity
  end.

(** The conformance suite is sound: every device that keeps the contract of the
    log, does not fail and refuses bad truncations passes all of its tests. *)
Theorem device_suite {D} `{!Device D, !DeviceSpec D} {HC : Conforming (D := D)} (d : D) :
  usable d -> stable d = [] -> staged d = [] -> Forall (fun t => t.2 = true) (RunDeviceSuite d).
Proof.
  intros Hu Hs Hp. assert (at_ [] [] d) as H by done. clear Hu Hs Hp.
  unfold RunDeviceSuite. repeat (apply Forall_cons; split; [cbn [snd]|]); [..|constructor].
  all: repeat test_step.
Qed.

#[export] Instance memory_conforming : Conforming (D := MemoryDevice.t).
Proof.
  split; [done|done|..]; cbn; intros d n _ Hp; unfold MemoryDevice.Truncate.
  - intros Hn. by rewrite (proj2 (Z.ltb_ge n 0)), (proj2 (Z.ltb_ge (len (MemoryDevice.durable d)) n)) by lia.
  - intros Hn. exists d. split; [|done]. destruct (Z.ltb_spec n 0), (Z.ltb_spec (len (MemoryDevice.durable d)) n); (done || lia).
Qed.

(** A file on a system where no call fails. *)
Definition reliable (n : nat) (c : FileDevice.call) : FileDevice.reply := None.

Definition file_spec : DeviceSpec (Device0 := FileDevice.device reliable) FileDevice.t :=
  FileDevice.spec reliable (fun _ => conj eq_refl eq_refl).

Lemma file_conforming : Conforming (Device0 := FileDevice.device reliable) (DeviceSpec0 := file_spec).
Proof.
  split; [done|done|..]; cbn; intros d n Hu Hp; unfold FileDevice.TruncateDurable; cbn.
  - pose proof (FileDevice.unsynced_eq d Hu) as E. rewrite Hp, app_nil_r in E. rewrite <- E. intros Hn.
    by rewrite (proj2 (Z.ltb_ge n 0)), (proj2 (Z.ltb_ge _ n)) by lia.
  - pose proof (FileDevice.unsynced_eq d Hu) as E. rewrite Hp, app_nil_r in E. intros Hn.
    destruct (Z.ltb_spec n 0); [by exists d|]. rewrite <- E, (proj2 (Z.ltb_lt _ n)) by lia. eexists. by split.
Qed.

Module Demo.

Lemma device_suite_witness :
  Forall (fun t => t.2 = true) (RunDeviceSuite (MemoryDevice.New [])) /\
  Forall (fun t => t.2 = true) (RunDeviceSuite (Device0 := FileDevice.device reliable) (FileDevice.mk [] [] 0)).
Proof.
  split.
  - apply (device_suite (MemoryDevice.New [])); [exact I|reflexivity|reflexivity].
  - apply (device_suite (Device0 := FileDevice.device reliable) (DeviceSpec0 := file_spec) (HC := file_conforming) (FileDevice.mk [] [] 0));
      [exists []; reflexivity|reflexivity|reflexivity].
Defined.

(** The fault-injecting device passes all tests but the last, for its own error.
    The block device only takes whole records, and fails the tests that sync
    anything else. *)
Theorem suite_failures :
  (RunDeviceSuite (FaultDisk.mkDevice (FaultDisk.mkConfig 1 0 0 0) 0 [] None [] [])).*2 =
    [true; true; true; true; true; true; true; true; true; false] /\
  (RunDeviceSuite (Device0 := UringDevice.device UringDevice.Demo.healthy) (UringDevice.mk [] [] [] 0)).*2 =
    [true; false; false; false; true; false; false; false; false; false].
Proof. split; vm_compute; reflexivity. Qed.

End Demo.
End Storagetest.
