(* ===== verification/Float64.v ===== *)
(** * Binary64

    Go's [float64] as the bit-exact [spec_float] of the standard library, with the
    comparisons, the product and [math.Round] that the repository uses.  The lemmas
    bound a product of a percentage with 100 after rounding. *)

From S2P Require Import Prelude.
From Stdlib Require Import SpecFloat.

Definition float64 : Type := spec_float.

Definition valid64 (x : float64) : bool := valid_binary 53 1024 x.

Definition hundred : float64 := S754_finite false 7036874417766400 (-46).
Definition zero64 : float64 := S754_zero false.

Definition mul64 (x y : float64) : float64 := SFmul 53 1024 x y.

Definition IsNaN (x : float64) : bool := if x is S754_nan then true else false.
Definition IsInf (x : float64) : bool := if x is S754_infinity _ then true else false.

(** [math.Round] of a number that is not negative, as an integer: the nearest
    one, halves up. *)
Definition Round (x : float64) : Z :=
  match x with
  | S754_finite false m e =>
      if 0 <=? e then Zpos m * 2 ^ e else (Zpos m + 2 ^ (- e - 1)) / 2 ^ (- e)
  | _ => 0
  end.

(** ** Shifting out the low bits *)

(** What is left of [M] after [k] places, and whether something was lost. *)
Definition shifted (M : Z) (k : Z) (x : shr_record) : Prop :=
  shr_m x = M / 2 ^ k /\ ((shr_r x || shr_s x)%bool = true -> M mod 2 ^ k <> 0).

Lemma shr_1_shifted M k x : 0 <= M -> 0 <= k -> shifted M k x -> shifted M (k + 1) (shr_1 x).
Proof.
  destruct x as [m r s]. intros HM Hk [Hm Hrs]. cbn [shr_m shr_r shr_s] in *.
  assert (0 < 2 ^ k) as Hp by (apply Z.pow_pos_nonneg; lia).
  assert (0 <= m) as Hm0 by (rewrite Hm; apply Z.div_pos; lia).
  assert (M / 2 ^ (k + 1) = m / 2) as Hd by (rewrite Z.pow_add_r, <- Z.div_div, Hm by lia; done).
  pose proof (Z.div_mod M (2 ^ k) ltac:(lia)) as E. rewrite <- Hm in E.
  pose proof (Z.mod_pos_bound M (2 ^ k) Hp) as Hb.
  assert (forall o : bool, (o = true -> m mod 2 = 1) -> (o || (r || s))%bool = true -> M mod 2 ^ (k + 1) <> 0) as Hlost.
  { intros o Ho Ht Hz. apply Z.mod_divide in Hz as [q Hq]; [|apply Z.pow_nonzero; lia]. rewrite Z.pow_add_r in Hq by lia. change (2 ^ 1) with 2 in Hq.
    destruct o; cbn in Ht.
    - specialize (Ho eq_refl). pose proof (Z.div_mod m 2 ltac:(lia)) as Ed. rewrite Ho in Ed. set (h := m / 2) in Ed. clearbody h.
      assert (2 ^ k * (2 * h + 1 - 2 * q) + M mod 2 ^ k = 0) by (subst m; lia).
      assert (2 * h + 1 - 2 * q <= -1 \/ 1 <= 2 * h + 1 - 2 * q) as [|] by lia; nia.
    - specialize (Hrs Ht). assert (2 ^ k * (m - 2 * q) + M mod 2 ^ k = 0) by lia.
      assert (m - 2 * q <= -1 \/ m - 2 * q = 0 \/ 1 <= m - 2 * q) as [|[|]] by lia; nia. }
  unfold shifted. rewrite Hd. destruct m as [|[p|p|]|p]; cbn [shr_1 shr_m shr_r shr_s]; [| | | |lia].
  - split; [done|]. apply Hlost. done.
  - split; [rewrite Pos2Z.inj_xI; apply Z.div_unique with 1; lia|]. apply Hlost. intros _.
    rewrite Pos2Z.inj_xI. symmetry. apply Z.mod_unique with (Zpos p); lia.
  - split; [rewrite Pos2Z.inj_xO; apply Z.div_unique with 0; lia|]. by apply (Hlost false).
  - split; [done|]. by apply Hlost.
Qed.

Lemma iter_shifted M n : forall k x, 0 <= M -> 0 <= k -> shifted M k x -> shifted M (k + Zpos n) (iter_pos shr_1 n x).
Proof.
  induction n as [n IH|n IH|]; intros k x HM Hk Hx; cbn [iter_pos].
  - replace (k + Zpos n~1) with (k + 1 + Zpos n + Zpos n) by lia. apply IH, IH, shr_1_shifted; try lia. done.
  - replace (k + Zpos n~0) with (k + Zpos n + Zpos n) by lia. apply IH, IH; try lia. done.
  - by apply shr_1_shifted.
Qed.

Lemma Zdigits2_bound m : 0 < m -> 2 ^ (Zdigits2 m - 1) <= m < 2 ^ Zdigits2 m.
Proof.
  destruct m as [|p|]; [lia| |lia]. intros _. cbn [Zdigits2]. induction p as [p IH|p IH|]; cbn [digits2_pos]; [| |done];
    rewrite Pos2Z.inj_succ; replace (Z.succ (Zpos (digits2_pos p)) - 1) with (Z.succ (Zpos (digits2_pos p) - 1)) by lia;
    rewrite !Z.pow_succ_r by lia; lia.
Qed.

(** The first half of rounding a product: the nearest number of the target
    exponent is not above a bound that is a multiple of it. *)
Lemma shr_fexp_bound K M E x e :
  0 < K < 2 ^ 14 -> 0 <= M -> E < 0 -> M <= K * 2 ^ (- E) ->
  shr_fexp 53 1024 M E loc_Exact = (x, e) ->
  e < 0 /\ 0 <= shr_m x /\ 0 <= round_nearest_even (shr_m x) (loc_of_shr_record x) <= K * 2 ^ (- e).
Proof.
  intros HK HM HE HB. unfold shr_fexp, shr. set (n := fexp _ _ _ - E).
  destruct (Z_le_gt_dec n 0) as [Hn|Hn].
  { assert (forall y : shr_record, match n with Zpos p => (iter_pos shr_1 p y, E + n) | _ => (y, E) end = (y, E)) as -> by (by destruct n; [| lia|]).
    intros [= <- <-]. cbn. lia. }
  assert (exists p, n = Zpos p) as [p Hp] by (destruct n as [|p|]; [lia|by exists p|lia]). rewrite Hp. intros [= <- <-]. rewrite <- Hp.
  destruct (iter_shifted M p 0 (shr_record_of_loc M loc_Exact) HM ltac:(lia)) as [Hm Hl].
  { split; cbn; [by rewrite Z.div_1_r|done]. }
  rewrite Z.add_0_l, <- Hp in *. set (y := iter_pos _ _ _) in *. clearbody y.
  assert (E + n < 0) as Hneg.
  { subst n. unfold fexp, emin. replace (E + (Z.max (Zdigits2 M + E - 53) (3 - 1024 - 53) - E)) with (Z.max (Zdigits2 M + E - 53) (3 - 1024 - 53)) by lia.
    destruct (Z_le_gt_dec M 0) as [|H0]; [assert (M = 0) as -> by lia; cbn; lia|].
    pose proof (Zdigits2_bound M ltac:(lia)) as [HD _].
    assert (2 ^ (Zdigits2 M - 1) < 2 ^ (14 + - E)) as Hlt; [rewrite (Z.pow_add_r 2 14) by lia; nia|].
    apply Z.pow_lt_mono_r_iff in Hlt; lia. }
  split; [done|]. assert (0 < 2 ^ n) as H2n by (apply Z.pow_pos_nonneg; lia).
  assert (0 <= shr_m y) as Hy0 by (rewrite Hm; apply Z.div_pos; lia). split; [done|].
  assert (- E = - (E + n) + n) as EE by lia. rewrite EE, Z.pow_add_r in HB by lia.
  set (B := K * 2 ^ (- (E + n))) in *. assert (M <= B * 2 ^ n) as HB' by (subst B; lia).
  assert (M / 2 ^ n <= B) as Hq by (apply Z.div_le_upper_bound; lia).
  pose proof (Z.div_mod M (2 ^ n) ltac:(lia)) as HMd. pose proof (Z.mod_pos_bound M (2 ^ n) H2n).
  assert ((shr_r y || shr_s y)%bool = true -> shr_m y + 1 <= B) as Hup.
  { intros Ht. specialize (Hl Ht). rewrite Hm. destruct (Z.eq_dec (M / 2 ^ n) B) as [Eq|]; [|lia]. nia. }
  destruct y as [m [] []]; cbn in *; try (rewrite Hm in *; lia); try (specialize (Hup eq_refl); try (destruct (Z.even m)); lia).
Qed.

Lemma Round_bound K m e : 0 <= K -> e < 0 -> Zpos m <= K * 2 ^ (- e) -> 0 <= Round (S754_finite false m e) <= K.
Proof.
  intros HK He Hm. cbn [Round]. rewrite (proj2 (Z.leb_gt 0 e)) by lia.
  assert (0 < 2 ^ (- e - 1)) by (apply Z.pow_pos_nonneg; lia).
  replace (2 ^ (- e)) with (2 * 2 ^ (- e - 1)) in * by (rewrite <- Z.pow_succ_r by lia; f_equal; lia).
  split; [apply Z.div_pos; lia|]. apply Z.lt_succ_r, Z.div_lt_upper_bound; lia.
Qed.

(** A product that is not above [K] rounds to an integer that is not above [K]. *)
Lemma binary_round_bound K M E :
  0 < K < 2 ^ 14 -> 0 <= M -> E < 0 -> M <= K * 2 ^ (- E) ->
  0 <= Round (binary_round_aux 53 1024 false M E loc_Exact) <= K.
Proof.
  intros HK HM HE HB. unfold binary_round_aux.
  destruct (shr_fexp 53 1024 M E loc_Exact) as [x e] eqn:E1.
  destruct (shr_fexp_bound K M E x e HK HM HE HB E1) as (He & Hx & Hr0 & Hr).
  destruct (shr_fexp 53 1024 _ e loc_Exact) as [y e2] eqn:E2.
  destruct (shr_fexp_bound K _ e y e2 HK Hr0 He Hr E2) as (He2 & Hy & Hy2).
  assert (shr_m y <= K * 2 ^ (- e2)) as Hle.
  { destruct y as [m [] []]; cbn in *; try destruct (Z.even m); lia. }
  destruct (shr_m y) as [|m|m]; [cbn; lia| |lia]. rewrite (proj2 (Z.leb_le e2 (1024 - 53))) by lia. by apply Round_bound; [lia|..].
Qed.

(** A percentage from 0 to 100 becomes a rate from 0 to 10000. *)
Lemma percentage_rate x :
  valid64 x = true -> IsNaN x = false -> IsInf x = false -> SFltb x zero64 = false -> SFltb hundred x = false ->
  0 <= Round (mul64 x hundred) <= 10000.
Proof.
  destruct x as [s| | |[] m e]; try done. intros Hv _ _ _ Hh.
  unfold mul64, hundred, SFmul. cbn [xorb].
  cbn in Hv. unfold bounded, canonical_mantissa in Hv. apply andb_true_iff in Hv as [Hc _]. apply Z.eqb_eq in Hc.
  unfold fexp, emin in Hc. pose proof (Zdigits2_bound (Zpos m) ltac:(lia)) as [_ HD]. cbn [Zdigits2] in HD.
  assert (e <= -46 /\ Zpos m <= 100 * 2 ^ (- e)) as [He Hm].
  { unfold SFltb, hundred in Hh. cbn [SFcompare] in Hh. destruct (Z.compare_spec (-46) e) as [<-|H|H]; [|done|].
    - change (100 * 2 ^ (- -46)) with 7036874417766400. split; [lia|].
      change (PosDef.Pos.compare_cont Eq 7036874417766400 m) with (Pos.compare 7036874417766400 m) in Hh.
      clear Hc HD. pose proof (Pos.compare_spec 7036874417766400 m) as Hs. revert Hh. destruct Hs as [Hs|Hs|Hs]; [intros _; apply Z.eq_le_incl; by rewrite <- Hs|discriminate|].
      intros _. apply Z.lt_le_incl. exact Hs.
    - split; [lia|]. assert (2 ^ Zpos (digits2_pos m) <= 2 ^ 53) by (apply Z.pow_le_mono_r; lia).
      assert (2 ^ 47 <= 2 ^ (- e)) by (apply Z.pow_le_mono_r; lia). lia. }
  apply binary_round_bound; [lia|lia|lia|]. rewrite Pos2Z.inj_mul.
  replace (- (e + -46)) with (- e + 46) by lia. rewrite Z.pow_add_r by lia. change (2 ^ 46) with 70368744177664. lia.
Qed.

Lemma percentage_ends : Round (mul64 hundred hundred) = 10000 /\ Round (mul64 zero64 hundred) = 0.
Proof. by vm_compute. Qed.
