(* ===== verification/Chaos.v ===== *)
(** * Fault injection in the kernel

    [chaos/policy.go], [chaos/controller.go] and [bpf/promtact_chaos.bpf.c]: the
    policy with its percentages, the bytes it is passed to the kernel in, the
    packet programs that read them, and the controller that sets up a network
    namespace through external commands and removes what it set up.

    Results: the packet programs do what the policy says; the controller only
    removes what it has itself created, whatever the commands answer. *)

From Stdlib Require Import Ascii SpecFloat.
From S2P Require Import Prelude Bytes Float64.

Module Chaos.

(** ** policy.go *)

(** [netip.Addr]: the zero value, an IPv4 address as its four octets, or any other. *)
Inductive Addr := NoAddr | V4 (octets : bytes) | V6.

Record Policy := mkPolicy {
  XDPDropPct : float64; TCDropPct : float64; TCCorruptPct : float64;
  BlockedSrc : Addr; BlockedDst : Addr
}.

Definition policyMapValueSize : nat := 20.

Definition ErrRate (name : string) : error := "chaos: " +:+ name +:+ " percentage outside safety bounds".
Definition ErrAddress (name : string) : error := "chaos: " +:+ name +:+ " must be an IPv4 address".

Definition policyRate (name : string) (percentage : float64) : error + Z :=
  if IsNaN percentage || IsInf percentage || SFltb percentage zero64 || SFltb hundred percentage then inl (ErrRate name)
  else inr (w32 (Round (mul64 percentage hundred))).

Definition validatePolicyAddress (name : string) (address : Addr) : option error :=
  match address with V6 => Some (ErrAddress name) | _ => None end.

Definition validatePolicy (p : Policy) : option error :=
  match policyRate "XDP drop" (XDPDropPct p) with
  | inl e => Some e
  | inr _ =>
      match policyRate "TC drop" (TCDropPct p) with
      | inl e => Some e
      | inr _ =>
          match policyRate "TC corrupt" (TCCorruptPct p) with
          | inl e => Some e
          | inr _ =>
              match validatePolicyAddress "blocked source" (BlockedSrc p) with
              | Some e => Some e
              | None => validatePolicyAddress "blocked destination" (BlockedDst p)
              end
          end
      end
  end.

Definition rateOf (r : error + Z) : Z := match r with inr z => z | inl _ => 0 end.

(** The four bytes [copyPolicyAddress] leaves of a zeroed slice. *)
Definition copyPolicyAddress (address : Addr) : bytes :=
  match address with V4 ip => ip | _ => [0; 0; 0; 0] end.

(** The integers are in the byte order of the machine, which is little-endian. *)
Definition mapValue (p : Policy) : error + bytes :=
  match validatePolicy p with
  | Some e => inl e
  | None =>
      inr (le 4 (rateOf (policyRate "XDP drop" (XDPDropPct p))) ++ le 4 (rateOf (policyRate "TC drop" (TCDropPct p))) ++
           le 4 (rateOf (policyRate "TC corrupt" (TCCorruptPct p))) ++
           copyPolicyAddress (BlockedSrc p) ++ copyPolicyAddress (BlockedDst p))
  end.

(** ** promtact_chaos.bpf.c *)

Record fault_policy := mkFaultPolicy {
  xdp_drop_per_10000 : Z; tc_drop_per_10000 : Z; tc_corrupt_per_10000 : Z; blocked_src : Z; blocked_dst : Z
}.

(** The struct at the address of a map value. *)
Definition fault_policy_at (value : bytes) : fault_policy :=
  let u32 i := leGet (take 4 (drop i value)) in
  mkFaultPolicy (u32 0%nat) (u32 4%nat) (u32 8%nat) (u32 12%nat) (u32 16%nat).

Inductive verdict := PASS | DROP.

(** [parse_ipv4]: the IP header of a frame, if the frame holds one. *)
Definition parse_ipv4 (data : bytes) : option bytes :=
  if (length data <? 14)%nat || negb (bool_decide (take 2 (drop 12 data) = [8; 0])) then None
  else if (length data <? 34)%nat then None
  else Some (drop 14 data).

Section kernel.
(** [bpf_get_prandom_u32] over the state of its generator. *)
Context {R : Type} (prandom_u32 : R -> Z * R).

Definition promtact_xdp (p : option fault_policy) (data : bytes) (r : R) : R * verdict :=
  match p, parse_ipv4 data with
  | Some p, Some ip =>
      let saddr := leGet (take 4 (drop 12 ip)) in
      let daddr := leGet (take 4 (drop 16 ip)) in
      if (negb (blocked_src p =? 0) && (saddr =? blocked_src p)) || (negb (blocked_dst p =? 0) && (daddr =? blocked_dst p))
      then (r, DROP)
      else if xdp_drop_per_10000 p =? 0 then (r, PASS)
      else let (draw, r) := prandom_u32 r in
           (r, if draw mod 10000 <? xdp_drop_per_10000 p then DROP else PASS)
  | _, _ => (r, PASS)
  end.

(** [bpf_skb_store_bytes] of one byte, which fails past the end of the packet. *)
Definition store_byte (at_ : nat) (value : Z) (skb : bytes) : bytes :=
  if (at_ <? length skb)%nat then <[at_ := value]> skb else skb.

Definition promtact_tc (p : option fault_policy) (skb : bytes) (r : R) : R * (verdict * bytes) :=
  match p with
  | None => (r, (PASS, skb))
  | Some p =>
      let '(r, shot) :=
        if tc_drop_per_10000 p =? 0 then (r, false)
        else let (draw, r) := prandom_u32 r in (r, draw mod 10000 <? tc_drop_per_10000 p) in
      if shot : bool then (r, (DROP, skb)) else
      let '(r, corrupt) :=
        if tc_corrupt_per_10000 p =? 0 then (r, false)
        else let (draw, r) := prandom_u32 r in (r, draw mod 10000 <? tc_corrupt_per_10000 p) in
      (r, (PASS, if corrupt : bool then store_byte 34 1 skb else skb))
  end.

End kernel.

(** ** Paths *)

(** The elements of a path between its slashes. *)
Fixpoint segments (s : string) : list string :=
  match s with
  | EmptyString => [""%string]
  | String c s =>
      match segments s with
      | x :: xs => if Ascii.eqb c "/"%char then ""%string :: x :: xs else String c x :: xs
      | [] => []
      end
  end.

(** [path.Clean] on the elements of a rooted path. *)
Fixpoint cleanRooted (l out : list string) : list string :=
  match l with
  | [] => reverse out
  | x :: l =>
      if bool_decide (x = ""%string \/ x = "."%string) then cleanRooted l out
      else if bool_decide (x = ".."%string) then cleanRooted l (tail out)
      else cleanRooted l (x :: out)
  end.

(** [path.Join] of a rooted path and further elements. *)
Definition Join (base : string) (elements : list string) : string :=
  match cleanRooted (segments base ++ (elements ≫= segments)) [] with
  | [] => "/"
  | l => foldr (fun x s => "/" +:+ x +:+ s) "" l
  end.

(** ** controller.go *)

Definition bpfPinBase : string := "/sys/fs/bpf".

Definition nameChar (c : ascii) : bool :=
  let n := N_of_ascii c in
  ((97 <=? n) && (n <=? 122) || (65 <=? n) && (n <=? 90) || (48 <=? n) && (n <=? 57) || (n =? 95) || (n =? 45))%N.

Fixpoint allChars (f : ascii -> bool) (s : string) : bool :=
  match s with EmptyString => true | String c s => f c && allChars f s end.

(** [safeName]: [^promtact-[a-zA-Z0-9_-]{1,32}$]. *)
Definition safeName (s : string) : bool :=
  String.prefix "promtact-" s &&
  let rest := String.substring 9 (String.length s - 9) s in
  allChars nameChar rest && (1 <=? String.length rest)%nat && (String.length rest <=? 32)%nat.

Record Plan := mkPlan {
  Namespace : string; HostVeth : string; PeerVeth : string; HostCIDR : string; PeerCIDR : string;
  BPFObject : string; thePolicy : Policy; Delay : Z; LossPct : float64
}.

#[global] Instance eta_Plan : Eta Plan := fun p =>
  mkPlan (Namespace p) (HostVeth p) (PeerVeth p) (HostCIDR p) (PeerCIDR p) (BPFObject p) (thePolicy p) (Delay p) (LossPct p).

Record pinPaths := mkPins { root : string; programs : string; maps : string; xdp : string; tc : string; policy : string }.

Definition pinsFor (namespace : string) : pinPaths :=
  let root := Join bpfPinBase [namespace] in
  let programs := Join root ["programs"%string] in
  let maps := Join root ["maps"%string] in
  mkPins root programs maps (Join programs ["promtact_xdp"%string]) (Join programs ["promtact_tc"%string]) (Join maps ["policy"%string]).

(** What a step of the set-up claims for the controller. *)
Inductive resource := PinRoot | Netns | Veth.
#[export] Instance resource_eq_dec : EqDecision resource.
Proof. solve_decision. Defined.

Record Controller := mkController {
  plan : Plan; active : bool; ownsPinRoot : bool; ownsNamespace : bool; ownsHostVeth : bool
}.
#[global] Instance eta_Controller : Eta Controller := fun c =>
  mkController (plan c) (active c) (ownsPinRoot c) (ownsNamespace c) (ownsHostVeth c).

(** A command is its name and arguments; a runner executes it. *)
Abbreviation command := (list string).
Class Runner (W : Type) := Run : command -> W -> W * option error.

Inductive failure :=
| AlreadyActive
| BadPolicy (e : error)
| Refused (claim : resource) (e : error)
| Failed (e : error).

Record commandStep := mkStep { arguments : command; claim : option resource }.

(** The [completed] function of a step. *)
Definition completed (s : commandStep) (c : Controller) : Controller :=
  match claim s with
  | Some PinRoot => c <| ownsPinRoot := true |>
  | Some Netns => c <| ownsNamespace := true |>
  | Some Veth => c <| ownsHostVeth := true |>
  | None => c
  end.

Definition hexDigit (n : Z) : ascii := ascii_of_N (Z.to_N (if n <? 10 then 48 + n else 87 + n)).

(** [%02x]. *)
Definition hexByte (octet : Z) : string := String (hexDigit (octet / 16)) (String (hexDigit (octet mod 16)) "").

Definition policyUpdateStep (policyPin : string) (value : bytes) : command :=
  ["bpftool"; "map"; "update"; "pinned"; policyPin; "key"; "hex"; "00"; "00"; "00"; "00"; "value"; "hex"]%string ++
  (hexByte <$> value) ++ ["any"%string].

Section controller.
(** [net.ParseCIDR], [IPNet.Contains] and [IP.Equal]; [Duration.String] and the loss
    rate with three decimals. *)
Context {IP Net : Type} (ParseCIDR : string -> option (IP * Net)) (Contains : Net -> IP -> bool) (Equal : IP -> IP -> bool).
Context (durationString : Z -> string) (formatLoss : float64 -> string).

Definition Validate (p : Plan) : option error :=
  if negb (safeName (Namespace p) && safeName (HostVeth p) && safeName (PeerVeth p))
  then Some "chaos: namespace and interfaces must start with promtact-"
  else if bool_decide (HostVeth p = PeerVeth p) then Some "chaos: host and peer interfaces must be distinct"
  else if bool_decide (BPFObject p = ""%string) then Some "chaos: BPF object is required"
  else
    match ParseCIDR (HostCIDR p) with
    | None => Some "chaos: invalid host CIDR"
    | Some (hostIP, hostNet) =>
        let bad := match ParseCIDR (PeerCIDR p) with
                   | None => true
                   | Some (peerIP, peerNet) => negb (Contains hostNet peerIP) || negb (Contains peerNet hostIP) || Equal hostIP peerIP
                   end in
        if bad then Some "chaos: peer CIDR must be distinct and in the same subnet"
        else if (Delay p <? 0) || (60000000000 <? Delay p) || IsNaN (LossPct p) || IsInf (LossPct p) ||
                SFltb (LossPct p) zero64 || SFltb hundred (LossPct p)
        then Some "chaos: delay/loss outside safety bounds"
        else validatePolicy (thePolicy p)
    end.

(** [New], with a runner. *)
Definition New (p : Plan) : error + Controller :=
  let p := if bool_decide (HostCIDR p = ""%string) then p <| HostCIDR := "192.0.2.1/30" |> else p in
  let p := if bool_decide (PeerCIDR p = ""%string) then p <| PeerCIDR := "192.0.2.2/30" |> else p in
  match Validate p with
  | Some e => inl e
  | None => inr (mkController p false false false false)
  end.

Definition steps (p : Plan) (policyValue : bytes) : list commandStep :=
  let pins := pinsFor (Namespace p) in
  let netnsArg := ("--net=" +:+ Join "/var/run/netns" [Namespace p])%string in
  let plain args := mkStep args None in
  [mkStep ["mkdir"; "--"; root pins] (Some PinRoot);
    plain ["mkdir"; "--"; programs pins; maps pins];
    plain ["bpftool"; "map"; "create"; policy pins; "type"; "array"; "key"; "4"; "value"; "20"; "entries"; "1"; "name"; "policy"];
    plain (policyUpdateStep (policy pins) policyValue);
    plain ["bpftool"; "prog"; "loadall"; BPFObject p; programs pins; "map"; "name"; "policy"; "pinned"; policy pins];
    mkStep ["ip"; "netns"; "add"; Namespace p] (Some Netns);
    mkStep ["ip"; "link"; "add"; HostVeth p; "type"; "veth"; "peer"; "name"; PeerVeth p] (Some Veth);
    plain ["ip"; "link"; "set"; PeerVeth p; "netns"; Namespace p];
    plain ["ip"; "addr"; "add"; HostCIDR p; "dev"; HostVeth p];
    plain ["ip"; "link"; "set"; HostVeth p; "up"];
    plain ["ip"; "netns"; "exec"; Namespace p; "ip"; "link"; "set"; "lo"; "up"];
    plain ["ip"; "netns"; "exec"; Namespace p; "ip"; "addr"; "add"; PeerCIDR p; "dev"; PeerVeth p];
    plain ["ip"; "netns"; "exec"; Namespace p; "ip"; "link"; "set"; PeerVeth p; "up"];
    plain ["nsenter"; netnsArg; "--"; "ip"; "link"; "set"; PeerVeth p; "xdp"; "pinned"; xdp pins];
    plain ["nsenter"; netnsArg; "--"; "tc"; "qdisc"; "add"; "dev"; PeerVeth p; "clsact"];
    plain ["nsenter"; netnsArg; "--"; "tc"; "filter"; "add"; "dev"; PeerVeth p; "egress"; "bpf"; "object-pinned"; tc pins; "direct-action"]]%string ++
  (if (0 <? Delay p) || SFltb zero64 (LossPct p) then
     [plain ["nsenter"; netnsArg; "--"; "tc"; "qdisc"; "add"; "dev"; PeerVeth p; "root"; "netem"; "delay"; durationString (Delay p);
             "loss"; formatLoss (LossPct p) +:+ "%"]]%string
   else []).

Section run.
Context {W : Type} `{!Runner W}.

(** The three parts of [cleanup]. *)
Definition dropNamespace (c : Controller) (w : W) : (Controller * W) * list failure :=
  if ownsNamespace c then
    match Run ["ip"; "netns"; "del"; Namespace (plan c)]%string w with
    | (w, Some e) => ((c, w), [Failed e])
    | (w, None) => ((c <| ownsNamespace := false |>, w), [])
    end
  else ((c, w), []).

Definition dropVeth (hadNamespace : bool) (c : Controller) (w : W) : (Controller * W) * list failure :=
  if ownsHostVeth c then
    match Run ["ip"; "link"; "del"; HostVeth (plan c)]%string w with
    | (w, Some e) =>
        if hadNamespace && negb (ownsNamespace c) then ((c <| ownsHostVeth := false |>, w), [])
        else ((c, w), [Failed e])
    | (w, None) => ((c <| ownsHostVeth := false |>, w), [])
    end
  else ((c, w), []).

Definition dropPins (c : Controller) (w : W) : (Controller * W) * list failure :=
  let pins := pinsFor (Namespace (plan c)) in
  if ownsPinRoot c then
    let '(w, err) := Run ["rm"; "-f"; "--"; xdp pins; tc pins; policy pins]%string w in
    let errs := if err is Some e then [Failed e] else [] in
    match Run ["rmdir"; "--"; programs pins; maps pins; root pins]%string w with
    | (w, Some e) => ((c, w), errs ++ [Failed e])
    | (w, None) => ((c <| ownsPinRoot := false |>, w), errs)
    end
  else ((c, w), []).

Definition cleanup (c : Controller) (w : W) : (Controller * W) * list failure :=
  let hadNamespace := ownsNamespace c in
  let '((c, w), errs1) := dropNamespace c w in
  let '((c, w), errs2) := dropVeth hadNamespace c w in
  let '((c, w), errs3) := dropPins c w in
  ((c, w), errs1 ++ errs2 ++ errs3).

(** The loop over the steps. *)
Fixpoint runSteps (l : list commandStep) (c : Controller) (w : W) : (Controller * W) * list failure :=
  match l with
  | [] => ((c <| active := true |>, w), [])
  | s :: l =>
      match Run (arguments s) w with
      | (w, Some e) =>
          let failure := if claim s is Some r then Refused r e else Failed e in
          let '(cw, errs) := cleanup c w in (cw, failure :: errs)
      | (w, None) => runSteps l (completed s c) w
      end
  end.

Definition Apply (c : Controller) (w : W) : (Controller * W) * list failure :=
  if active c then ((c, w), [AlreadyActive]) else
  match mapValue (thePolicy (plan c)) with
  | inl e => ((c, w), [BadPolicy e])
  | inr policyValue => runSteps (steps (plan c) policyValue) c w
  end.

Definition Close (c : Controller) (w : W) : (Controller * W) * list failure :=
  let '((c, w), errs) := cleanup c w in
  ((if errs is [] then c <| active := false |> else c, w), errs).

End run.
End controller.
(** ** Safe names and the paths made of them *)

Definition notSlash (c : ascii) : bool := negb (Ascii.eqb c "/"%char).

Lemma segments_cons s : exists x l, segments s = x :: l.
Proof. induction s as [|c s (x & l & E)]; [by eexists _, _|]. cbn. rewrite E. destruct (Ascii.eqb c "/"); by eexists _, _. Qed.

Lemma segments_slash a b : allChars notSlash a = true -> segments (a +:+ String "/" b) = a :: segments b.
Proof.
  induction a as [|c a IH]; cbn [allChars]; intros H.
  - change (segments (String "/" b) = ""%string :: segments b). cbn. by destruct (segments_cons b) as (x & l & ->).
  - apply andb_true_iff in H as [Hc Ha]. change (segments (String c (a +:+ String "/" b)) = String c a :: segments b).
    cbn [segments]. rewrite IH by done. unfold notSlash in Hc. by apply negb_true_iff in Hc as ->.
Qed.

Lemma segments_plain a : allChars notSlash a = true -> segments a = [a].
Proof.
  induction a as [|c a IH]; [done|]. cbn [allChars]. intros [Hc Ha]%andb_true_iff. cbn. rewrite IH by done.
  unfold notSlash in Hc. by apply negb_true_iff in Hc as ->.
Qed.

Lemma prefix_split p s : String.prefix p s = true -> s = p +:+ String.substring (String.length p) (String.length s - String.length p) s.
Proof.
  revert s. induction p as [|c p IH]; intros s.
  - intros _. cbn. rewrite Nat.sub_0_r. change (s = String.substring 0 (String.length s) s).
    induction s as [|c s IH]; [done|]. cbn. by f_equal.
  - destruct s as [|c' s]; [done|]. cbn [String.prefix]. destruct (ascii_dec c c') as [<-|]; [|done]. intros H.
    change (String c s = String c (p +:+ String.substring (String.length p) (String.length s - String.length p) s)).
    f_equal. by apply IH.
Qed.

(** A safe name is the prefix and at most 32 plain characters. *)
Lemma safeName_spec s : safeName s = true ->
  exists rest, s = ("promtact-" +:+ rest)%string /\ allChars notSlash s = true /\ (String.length s <= 41)%nat.
Proof.
  unfold safeName. intros [Hp H]%andb_true_iff. apply prefix_split in Hp. cbn [String.length] in Hp.
  set (rest := String.substring 9 _ s) in *. cbn zeta in H. apply andb_true_iff in H as [[Ha _]%andb_true_iff Hl].
  exists rest. split; [done|]. apply Nat.leb_le in Hl. rewrite Hp. clear Hp. clearbody rest. split.
  - change (allChars notSlash rest = true). clear Hl. induction rest as [|c rest IH]; [done|]. cbn in *. apply andb_true_iff in Ha as [Hc Ha]. rewrite IH by done.
    unfold notSlash. destruct (Ascii.eqb_spec c "/"%char) as [->|]; done.
  - change (9 + String.length rest <= 41)%nat. lia.
Qed.

(** An element of a path that [path.Join] keeps as it is. *)
Definition plainElement (x : string) : Prop :=
  allChars notSlash x = true /\ x <> ""%string /\ x <> "."%string /\ x <> ".."%string.

Definition pathOf (l : list string) : string := foldr (fun x s => "/" +:+ x +:+ s) "" l.

Lemma append_nil_r s : s +:+ "" = s.
Proof. induction s as [|c s IH]; [done|]. change (String c (s +:+ "") = String c s). by rewrite IH. Qed.

Lemma cleanRooted_plain l : forall out, Forall plainElement l -> cleanRooted l out = reverse out ++ l.
Proof.
  induction l as [|x l IH]; intros out Hl; cbn [cleanRooted]; [by rewrite app_nil_r|].
  apply Forall_cons in Hl as [(_ & H0 & H1 & H2) Hl]. rewrite !bool_decide_false by naive_solver.
  rewrite IH by done. by rewrite reverse_cons, <- app_assoc.
Qed.

Lemma segments_path x l : Forall plainElement (x :: l) -> segments (x +:+ pathOf l) = x :: l.
Proof.
  revert x. induction l as [|y l IH]; intros x [Hx Hl]%Forall_cons.
  - cbn. rewrite append_nil_r. apply segments_plain, Hx.
  - change (pathOf (y :: l)) with (String "/" (y +:+ pathOf l)). rewrite segments_slash by apply Hx. by rewrite IH.
Qed.

Lemma Join_plain l x : Forall plainElement l -> l <> [] -> plainElement x -> Join (pathOf l) [x] = pathOf (l ++ [x]).
Proof.
  intros Hl Hn Hx. destruct l as [|y l]; [done|]. unfold Join.
  change (pathOf (y :: l)) with (""%string +:+ String "/" (y +:+ pathOf l)). rewrite segments_slash by done.
  rewrite segments_path by done. cbn [mbind list_bind app]. rewrite app_nil_r, segments_plain by apply Hx.
  change (cleanRooted (""%string :: y :: l ++ [x]) []) with (cleanRooted ((y :: l) ++ [x]) []).
  rewrite cleanRooted_plain; [done|]. apply Forall_app. split; [done|]. by constructor.
Qed.

Definition pinDir (ns : string) : string := "/sys/fs/bpf/" +:+ ns.

Lemma pinsFor_safe ns : safeName ns = true ->
  pinsFor ns = mkPins (pinDir ns) (pinDir ns +:+ "/programs") (pinDir ns +:+ "/maps")
    (pinDir ns +:+ "/programs/promtact_xdp") (pinDir ns +:+ "/programs/promtact_tc") (pinDir ns +:+ "/maps/policy").
Proof.
  intros (rest & E & Hs & _)%safeName_spec. assert (plainElement ns) as Hn by (subst; split; [done|repeat split; discriminate]). clear E.
  assert (forall x, x ∈ ["sys"; "fs"; "bpf"; "programs"; "maps"; "promtact_xdp"; "promtact_tc"; "policy"]%string -> plainElement x) as Hp.
  { intros x Hx. repeat (apply elem_of_cons in Hx as [->|Hx]; [by repeat split|]). by apply elem_of_nil in Hx. }
  unfold pinsFor. cbn zeta. change bpfPinBase with (pathOf ["sys"; "fs"; "bpf"]%string).
  assert (Forall plainElement ["sys"; "fs"; "bpf"; ns]%string) as Hb.
  { repeat (apply Forall_cons; split; [first [done|apply Hp; set_solver]|]). constructor. }
  rewrite Join_plain; [|by apply (Forall_app _ ["sys"; "fs"; "bpf"]%string [ns]) in Hb as []|done|done]. cbn [app].
  rewrite !(Join_plain ["sys"; "fs"; "bpf"; ns]%string) by (try done; apply Hp; set_solver). cbn [app].
  assert (forall x, plainElement x -> Forall plainElement ["sys"; "fs"; "bpf"; ns; x]%string) as Hb'.
  { intros x Hx. apply (Forall_app _ ["sys"; "fs"; "bpf"; ns]%string [x]). split; [done|]. by constructor. }
  rewrite !(Join_plain ["sys"; "fs"; "bpf"; ns; "programs"]%string), (Join_plain ["sys"; "fs"; "bpf"; ns; "maps"]%string);
    [|first [done|apply Hb', Hp; set_solver|apply Hp; set_solver]..].
  assert (pathOf ["sys"; "fs"; "bpf"; ns]%string = pinDir ns) as ->; [|reflexivity].
  change ("/sys/fs/bpf/" +:+ (ns +:+ "") = pinDir ns). by rewrite append_nil_r.
Qed.

(** ** Ownership *)

Section ownership.
Context {IP Net : Type} (ParseCIDR : string -> option (IP * Net)) (Contains : Net -> IP -> bool) (Equal : IP -> IP -> bool).
Context (durationString : Z -> string) (formatLoss : float64 -> string).
Context {W : Type} `{!Runner W}.

(** The commands that were run, with whether they succeeded. *)
Abbreviation history := (list (command * bool)).
#[local] Instance recorder : Runner (W * history) := fun cmd '(w, log) =>
  let (w, r) := Run cmd w in ((w, log ++ [(cmd, if r is None then true else false)]), r).

Definition claimOf (p : Plan) (r : resource) : command :=
  match r with
  | PinRoot => ["mkdir"; "--"; root (pinsFor (Namespace p))]
  | Netns => ["ip"; "netns"; "add"; Namespace p]
  | Veth => ["ip"; "link"; "add"; HostVeth p; "type"; "veth"; "peer"; "name"; PeerVeth p]
  end%string.

Definition releaseOf (p : Plan) (r : resource) : command :=
  match r with
  | PinRoot => let pins := pinsFor (Namespace p) in ["rmdir"; "--"; programs pins; maps pins; root pins]
  | Netns => ["ip"; "netns"; "del"; Namespace p]
  | Veth => ["ip"; "link"; "del"; HostVeth p]
  end%string.

(** The commands that remove the resource or a part of it. *)
Definition removals (p : Plan) (r : resource) : list command :=
  releaseOf p r ::
  (if r is PinRoot then let pins := pinsFor (Namespace p) in [["rm"; "-f"; "--"; xdp pins; tc pins; policy pins]%string] else []).

(** Whether the resource was created and not removed since. *)
Definition held (p : Plan) (r : resource) (log : history) : bool :=
  foldl (fun h '(cmd, ok) =>
    if negb ok then h
    else if bool_decide (cmd = claimOf p r) then true
    else if bool_decide (cmd = releaseOf p r) then false
    else h) false log.

Definition owns (c : Controller) (r : resource) : bool :=
  match r with PinRoot => ownsPinRoot c | Netns => ownsNamespace c | Veth => ownsHostVeth c end.

(** Nothing was removed that was not held. *)
Definition lawful (p : Plan) (log : history) : Prop :=
  forall pre cmd ok post, log = pre ++ (cmd, ok) :: post -> forall r, cmd ∈ removals p r -> held p r pre = true.

(** What the controller and the history have in common. *)
Record accounted (c : Controller) (log : history) : Prop := {
  ac_lawful : lawful (plan c) log;
  ac_owns : forall r, owns c r = true -> held (plan c) r log = true;
  ac_exact : forall r, r <> Veth -> held (plan c) r log = owns c r
}.

Lemma held_snoc p r log cmd ok : held p r (log ++ [(cmd, ok)]) =
  if negb ok then held p r log
  else if bool_decide (cmd = claimOf p r) then true
  else if bool_decide (cmd = releaseOf p r) then false
  else held p r log.
Proof. unfold held. by rewrite foldl_app. Qed.

Lemma lawful_snoc p log cmd ok :
  lawful p log -> (forall r, cmd ∈ removals p r -> held p r log = true) -> lawful p (log ++ [(cmd, ok)]).
Proof.
  intros Hl Hc pre cmd' ok' post E r Hr. destruct post as [|x post _] using rev_ind.
  - apply app_inj_tail in E as [-> [= <- <-]]. by apply Hc.
  - rewrite app_comm_cons, app_assoc in E. apply app_inj_tail in E as [-> _]. by eapply Hl.
Qed.

(** A command that neither creates nor removes. *)
Definition neutral (p : Plan) (cmd : command) : Prop :=
  forall r, cmd <> claimOf p r /\ cmd ∉ removals p r.

Lemma neutral_held p cmd r log ok : neutral p cmd -> held p r (log ++ [(cmd, ok)]) = held p r log.
Proof.
  intros Hn. destruct (Hn r) as [H1 H2]. rewrite held_snoc, !bool_decide_false; [by destruct ok|..].
  - intros ->. apply H2. left.
  - done.
Qed.

Lemma neutral_accounted c log cmd ok : neutral (plan c) cmd -> accounted c log -> accounted c (log ++ [(cmd, ok)]).
Proof.
  intros Hn [H1 H2 H3]. split.
  - apply lawful_snoc; [done|]. intros r Hr. by destruct (Hn r).
  - intros r. rewrite neutral_held by done. apply H2.
  - intros r. rewrite neutral_held by done. apply H3.
Qed.

Lemma release_claim p r r' : releaseOf p r <> claimOf p r' /\ (r <> r' -> releaseOf p r <> releaseOf p r').
Proof. by destruct r, r'. Qed.

Lemma claim_removals p r r' : claimOf p r ∉ removals p r'.
Proof. unfold removals. destruct r, r'; rewrite ?not_elem_of_cons; repeat split; try done; apply not_elem_of_nil. Qed.

Ltac solve_neutral :=
  let r := fresh "r" in
  intros r; unfold removals; destruct r; cbn [claimOf releaseOf]; unfold policyUpdateStep; cbn [app];
  (split; [discriminate|]); rewrite ?not_elem_of_cons; repeat (split; [discriminate|]); apply not_elem_of_nil.

Definition steps_of := steps durationString formatLoss.

(** The steps of the set-up claim what they say and remove nothing. *)
Lemma steps_spec p v s : s ∈ steps_of p v ->
  match claim s with Some r => arguments s = claimOf p r | None => neutral p (arguments s) end.
Proof.
  unfold steps_of, steps. rewrite elem_of_app. intros [Hs|Hs].
  - repeat (apply elem_of_cons in Hs as [->|Hs]; [cbn [claim arguments]; first [reflexivity|solve_neutral]|]).
    by apply elem_of_nil in Hs.
  - destruct (_ || _); [|by apply elem_of_nil in Hs]. apply elem_of_cons in Hs as [->|Hs]; [|by apply elem_of_nil in Hs].
    cbn [claim arguments]. solve_neutral.
Qed.

Lemma claim_accounted c log r :
  accounted c log -> accounted (completed (mkStep (claimOf (plan c) r) (Some r)) c) (log ++ [(claimOf (plan c) r, true)]).
Proof.
  intros [H1 H2 H3]. set (c' := completed _ c). assert (plan c' = plan c) as Ep by (by destruct r).
  assert (forall r', owns c' r' = if decide (r' = r) then true else owns c r') as Eo by (by intros []; destruct r).
  assert (forall r', held (plan c) r' (log ++ [(claimOf (plan c) r, true)]) = if decide (r' = r) then true else held (plan c) r' log) as Eh.
  { intros r'. rewrite held_snoc. cbn [negb]. destruct (decide (r' = r)) as [->|Hne]; [by rewrite bool_decide_true|].
    rewrite !bool_decide_false; [done|..].
    - intros E. by destruct (release_claim (plan c) r' r).
    - destruct r, r'; done. }
  split; rewrite Ep.
  - apply lawful_snoc; [done|]. intros r' Hr. by destruct (claim_removals (plan c) r r').
  - intros r'. rewrite Eo, Eh. case_decide; [done|apply H2].
  - intros r' Hv. rewrite Eo, Eh. case_decide; [done|by apply H3].
Qed.

Definition disown (r : resource) (c : Controller) : Controller :=
  match r with
  | PinRoot => c <| ownsPinRoot := false |>
  | Netns => c <| ownsNamespace := false |>
  | Veth => c <| ownsHostVeth := false |>
  end.

(** Removing what is owned; [gone] tells whether the controller takes it for removed. *)
Lemma release_accounted c log r ok gone :
  accounted c log -> owns c r = true -> (ok = true -> gone = true) -> (gone = true -> ok = true \/ r = Veth) ->
  accounted (if gone : bool then disown r c else c) (log ++ [(releaseOf (plan c) r, ok)]).
Proof.
  intros [H1 H2 H3] Ho Hg Hok. set (c' := if gone then _ else c). assert (plan c' = plan c) as Ep by (subst c'; destruct gone, r; done).
  assert (forall r', owns c' r' = if decide (r' = r) then negb gone else owns c r') as Eo.
  { intros r'. subst c'. destruct gone, r, r'; done. }
  assert (forall r', held (plan c) r' (log ++ [(releaseOf (plan c) r, ok)]) =
            if decide (r' = r) then negb ok && held (plan c) r' log else held (plan c) r' log) as Eh.
  { intros r'. rewrite held_snoc. rewrite (bool_decide_false (_ = claimOf _ _)) by apply release_claim.
    destruct (decide (r' = r)) as [->|Hne]; [by rewrite bool_decide_true; destruct ok|].
    rewrite bool_decide_false; [by destruct ok|]. by apply release_claim. }
  split; rewrite Ep.
  - apply lawful_snoc; [done|]. intros r' Hr. destruct (decide (r' = r)) as [->|Hne]; [by apply H2|].
    exfalso. revert Hr. unfold removals. destruct r, r'; rewrite ?elem_of_cons, ?elem_of_nil; cbn [releaseOf]; naive_solver.
  - intros r'. rewrite Eo, Eh. case_decide as E; [|apply H2]. subst r'. destruct gone; [done|]. destruct ok; [naive_solver|].
    intros _. cbn. by apply H2.
  - intros r' Hv. rewrite Eo, Eh. case_decide as E; [|by apply H3]. subst r'. rewrite H3, Ho by done.
    destruct ok, gone; naive_solver.
Qed.

Lemma Run_recorder cmd w log : exists w' r, Run cmd (w, log) = ((w', log ++ [(cmd, if r is None then true else false)]), r).
Proof. unfold Run at 1, recorder. destruct (Run cmd w) as [w' r]. by exists w', r. Qed.

(** A part of clean-up keeps the accounts and touches one resource; without an
    error that resource is not owned any more. *)
Definition drops (r : resource) (c c' : Controller) (log' : history) (errs : list failure) : Prop :=
  accounted c' log' /\ plan c' = plan c /\ active c' = active c /\ (forall r', r' <> r -> owns c' r' = owns c r') /\
  (errs = [] -> owns c' r = false).

Lemma release_drops c log r ok gone (errs : list failure) :
  accounted c log -> owns c r = true -> (ok = true -> gone = true) -> (gone = true -> ok = true \/ r = Veth) ->
  (gone = false -> errs <> []) ->
  drops r c (if gone : bool then disown r c else c) (log ++ [(releaseOf (plan c) r, ok)]) errs.
Proof.
  intros Ha Ho Hg Hok He. split; [by apply release_accounted|]. destruct gone; [|split_and!; [done..|naive_solver]].
  destruct r; (split_and!; [done|done|intros []; done|done]).
Qed.

Lemma dropNamespace_drops c w log c' w' log' errs :
  dropNamespace c (w, log) = ((c', (w', log')), errs) -> accounted c log -> drops Netns c c' log' errs.
Proof.
  unfold dropNamespace. intros H Ha. destruct (ownsNamespace c) eqn:Eo; [|by injection H as <- _ <- <-].
  destruct (Run_recorder ["ip"; "netns"; "del"; Namespace (plan c)]%string w log) as (w1 & [e|] & HR);
    rewrite HR in H; injection H as <- _ <- <-.
  - by apply (release_drops c log Netns false false).
  - by apply (release_drops c log Netns true true); auto.
Qed.

Lemma dropVeth_drops had c w log c' w' log' errs :
  dropVeth had c (w, log) = ((c', (w', log')), errs) -> accounted c log -> drops Veth c c' log' errs.
Proof.
  unfold dropVeth. intros H Ha. destruct (ownsHostVeth c) eqn:Eo; [|by injection H as <- _ <- <-].
  destruct (Run_recorder ["ip"; "link"; "del"; HostVeth (plan c)]%string w log) as (w1 & [e|] & HR); rewrite HR in H.
  - destruct (had && _); injection H as <- _ <- <-.
    + by apply (release_drops c log Veth false true); auto.
    + by apply (release_drops c log Veth false false).
  - injection H as <- _ <- <-. by apply (release_drops c log Veth true true); auto.
Qed.

Lemma rm_accounted c log ok : accounted c log -> ownsPinRoot c = true ->
  let pins := pinsFor (Namespace (plan c)) in
  accounted c (log ++ [(["rm"; "-f"; "--"; xdp pins; tc pins; policy pins]%string, ok)]).
Proof.
  intros [H1 H2 H3] Ho pins. set (cmd := _ : command).
  assert (forall r, held (plan c) r (log ++ [(cmd, ok)]) = held (plan c) r log) as Eh.
  { intros r. rewrite held_snoc, !bool_decide_false; [by destruct ok|..]; by destruct r. }
  split; [|intros r; rewrite Eh; apply H2|intros r; rewrite Eh; apply H3].
  apply lawful_snoc; [done|]. intros r Hr. destruct r; [by apply H2|..]; exfalso; revert Hr; unfold removals;
    rewrite ?elem_of_cons, ?elem_of_nil; cbn [releaseOf]; naive_solver.
Qed.

Lemma dropPins_drops c w log c' w' log' errs :
  dropPins c (w, log) = ((c', (w', log')), errs) -> accounted c log -> drops PinRoot c c' log' errs.
Proof.
  unfold dropPins. intros H Ha. destruct (ownsPinRoot c) eqn:Eo; [|by injection H as <- _ <- <-]. set (pins := pinsFor _) in *.
  destruct (Run_recorder ["rm"; "-f"; "--"; xdp pins; tc pins; policy pins]%string w log) as (w1 & e1 & HR). rewrite HR in H.
  pose proof (rm_accounted c log (if e1 is None then true else false) Ha Eo) as Ha1. cbn zeta in Ha1. fold pins in Ha1.
  set (log1 := log ++ _) in *. clearbody log1.
  destruct (Run_recorder ["rmdir"; "--"; programs pins; maps pins; root pins]%string w1 log1) as (w2 & [e|] & HR2);
    rewrite HR2 in H; injection H as <- _ <- <-.
  - apply (release_drops c log1 PinRoot false false); try done. intros _. by destruct e1.
  - by apply (release_drops c log1 PinRoot true true); auto.
Qed.

(** What clean-up leaves. *)
Lemma cleanup_accounted c w log c' w' log' errs :
  cleanup c (w, log) = ((c', (w', log')), errs) -> accounted c log ->
  accounted c' log' /\ plan c' = plan c /\ active c' = active c /\ (errs = [] -> forall r, owns c' r = false).
Proof.
  unfold cleanup. intros H Ha.
  destruct (dropNamespace c (w, log)) as [[c1 [w1 log1]] e1] eqn:E1.
  destruct (dropNamespace_drops _ _ _ _ _ _ _ E1 Ha) as (Ha1 & Hp1 & Hac1 & Ho1 & Hg1).
  destruct (dropVeth _ c1 (w1, log1)) as [[c2 [w2 log2]] e2] eqn:E2.
  destruct (dropVeth_drops _ _ _ _ _ _ _ _ E2 Ha1) as (Ha2 & Hp2 & Hac2 & Ho2 & Hg2).
  destruct (dropPins c2 (w2, log2)) as [[c3 [w3 log3]] e3] eqn:E3.
  destruct (dropPins_drops _ _ _ _ _ _ _ E3 Ha2) as (Ha3 & Hp3 & Hac3 & Ho3 & Hg3).
  injection H as <- _ <- <-. split; [done|]. split; [congruence|]. split; [congruence|].
  intros He r. apply app_eq_nil in He as [-> [-> ->]%app_eq_nil].
  destruct r; [by apply Hg3|rewrite Ho3, Ho2 by done; by apply Hg1|rewrite Ho3 by done; by apply Hg2].
Qed.

Definition apply_ := Apply durationString formatLoss (W := W * history).
Definition close_ := Close (W := W * history).

(** The result of running steps of the plan. *)
Definition applied (c c' : Controller) (log log' : history) (l : list commandStep) (errs : list failure) : Prop :=
  accounted c' log' /\ plan c' = plan c /\
  (errs = [] -> active c' = true /\ log' = log ++ ((fun s => (arguments s, true)) <$> l) /\
     forall s r, s ∈ l -> claim s = Some r -> owns c' r = true) /\
  (forall e, errs = [e] -> active c' = active c /\ forall r, owns c' r = false).

Lemma completed_owns s c r : owns (completed s c) r = bool_decide (claim s = Some r) || owns c r.
Proof. unfold completed. destruct (claim s) as [[]|], r; done. Qed.

Lemma runSteps_applied l : forall c w log c' w' log' errs,
  (forall s, s ∈ l -> match claim s with Some r => arguments s = claimOf (plan c) r | None => neutral (plan c) (arguments s) end) ->
  accounted c log -> runSteps l c (w, log) = ((c', (w', log')), errs) -> applied c c' log log' l errs /\
  (errs = [] -> forall r, owns c r = true -> owns c' r = true).
Proof.
  induction l as [|s l IH]; intros c w log c' w' log' errs Hl Ha; cbn [runSteps].
  { intros [= <- _ <- <-]. split; [|done]. split; [by destruct Ha as [? ? ?]; split|]. split; [done|]. split; [|done]. intros _.
    split; [done|]. split; [by rewrite app_nil_r|]. intros s r Hs. by apply elem_of_nil in Hs. }
  destruct (Run_recorder (arguments s) w log) as (w1 & r1 & ->). pose proof (Hl s (list_elem_of_here _ _)) as Hs.
  destruct r1 as [e|]; intros H.
  - assert (accounted c (log ++ [(arguments s, false)])) as Ha1.
    { destruct (claim s) as [r|]; [|by apply neutral_accounted]. destruct Ha as [H1 H2 H3]. rewrite Hs. split.
      - apply lawful_snoc; [done|]. intros r' Hr. by destruct (claim_removals (plan c) r r').
      - intros r' Hr'. rewrite held_snoc. by apply H2.
      - intros r' Hr'. rewrite held_snoc. by apply H3. }
    destruct (cleanup c _) as [[c2 [w2 log2]] errs2] eqn:Ec. injection H as <- _ <- <-.
    destruct (cleanup_accounted _ _ _ _ _ _ _ Ec Ha1) as (H1 & H2 & H3 & H4). split; [|done].
    split; [done|]. split; [done|]. split; [done|]. intros e' [= _ ->]. auto.
  - assert (plan (completed s c) = plan c) as Ep by (unfold completed; destruct (claim s) as [[]|]; done).
    assert (active (completed s c) = active c) as Eac by (unfold completed; destruct (claim s) as [[]|]; done).
    assert (accounted (completed s c) (log ++ [(arguments s, true)])) as Ha1.
    { destruct s as [args [r|]]; cbn [claim arguments] in *; [subst args; by apply claim_accounted|by apply neutral_accounted]. }
    apply IH in H as [(H1 & H2 & H3 & H4) H5]; [|intros t Ht; rewrite Ep; apply Hl; by right|done]. rewrite Ep, Eac in *.
    split; [|intros He r Hr; apply H5; [done|]; rewrite completed_owns, Hr; apply orb_true_r].
    split; [done|]. split; [done|]. split; [|done]. intros He. destruct (H3 He) as (Hac & -> & Ho). split; [done|].
    split; [by rewrite fmap_cons, <- app_assoc|]. intros t r [->|Ht]%elem_of_cons Hr; [|by eapply Ho].
    apply H5; [done|]. rewrite completed_owns. by rewrite bool_decide_true.
Qed.

Inductive op := DoApply | DoClose.

Definition exec (s : Controller * (W * history)) (o : op) : Controller * (W * history) :=
  match o with DoApply => (apply_ s.1 s.2).1 | DoClose => (close_ s.1 s.2).1 end.

Lemma Close_accounted c w log c' w' log' errs :
  close_ c (w, log) = ((c', (w', log')), errs) -> accounted c log ->
  accounted c' log' /\ plan c' = plan c /\ (errs = [] -> forall r, owns c' r = false).
Proof.
  unfold close_, Close. destruct (cleanup c (w, log)) as [[c1 [w1 log1]] e] eqn:E. intros [= <- _ <- <-] Ha.
  destruct (cleanup_accounted _ _ _ _ _ _ _ E Ha) as (H1 & H2 & _ & H3).
  destruct e; [|done]. split; [by destruct H1 as [? ? ?]; split|]. split; [done|]. intros _ r. specialize (H3 eq_refl r). by destruct r.
Qed.

Lemma Apply_accounted c w log c' w' log' errs :
  apply_ c (w, log) = ((c', (w', log')), errs) -> accounted c log -> accounted c' log' /\ plan c' = plan c.
Proof.
  unfold apply_, Apply. intros H Ha. destruct (active c); [by injection H as <- _ <- <-|].
  destruct (mapValue _) as [|v]; [by injection H as <- _ <- <-|].
  by apply runSteps_applied in H as [(H1 & H2 & _) _]; [|intros s; apply steps_spec|].
Qed.

Lemma exec_accounted ops : forall c w log,
  accounted c log -> let s := foldl exec (c, (w, log)) ops in accounted s.1 s.2.2 /\ plan s.1 = plan c.
Proof.
  induction ops as [|o ops IH]; intros c w log Ha; [done|]. cbn [foldl].
  destruct (exec (c, (w, log)) o) as [c1 [w1 log1]] eqn:E.
  assert (accounted c1 log1 /\ plan c1 = plan c) as [Ha1 Hp].
  { destruct o; unfold exec in E; cbn [fst snd] in E.
    - destruct (apply_ c (w, log)) as [x errs] eqn:E1. cbn in E. subst x. by eapply Apply_accounted.
    - destruct (close_ c (w, log)) as [x errs] eqn:E1. cbn in E. subst x. by destruct (Close_accounted _ _ _ _ _ _ _ E1 Ha) as (? & ? & _). }
  destruct (IH c1 w1 log1 Ha1) as [H1 H2]. split; [done|]. by rewrite H2.
Qed.

Lemma New_plan p c : New ParseCIDR Contains Equal p = inr c ->
  safeName (Namespace (plan c)) = true /\ active c = false /\ (forall r, owns c r = false).
Proof.
  unfold New. set (p1 := if bool_decide (HostCIDR p = _) then _ else p). set (p2 := if bool_decide _ then _ else p1). clearbody p2.
  destruct (Validate ParseCIDR Contains Equal p2) eqn:E; [done|]. intros [= <-]. split; [|split; [done|by intros []]].
  unfold Validate in E. destruct (safeName (Namespace p2)) eqn:Es; [done|]. by destruct (safeName _).
Qed.

Lemma Close_again c w log : (forall r, owns c r = false) -> (close_ c (w, log)).1.2 = (w, log) /\ (close_ c (w, log)).2 = [].
Proof.
  intros H. pose proof (H PinRoot) as H1. pose proof (H Netns) as H2. pose proof (H Veth) as H3. cbn in H1, H2, H3.
  unfold close_, Close, cleanup, dropNamespace, dropVeth, dropPins. rewrite H2, H3, H1. done.
Qed.

End ownership.

(** C26 What the controller creates and removes.  Whatever the commands answer, and
    however often a plan is applied and closed: a namespace, an interface or a pin
    directory is removed only when the controller has created it and not removed
    it since, and the pins lie in a directory of the controller's own name.  A set-up
    that succeeds has run all its commands, and the controller owns all three; one
    that fails and is cleaned up without a further error owns nothing.  Nothing is
    run while the plan is active.  After a [Close] without an error the namespace
    and the pins are gone, and another one runs no command. *)
Theorem chaos_ownership {IP Net} (ParseCIDR : string -> option (IP * Net)) (Contains : Net -> IP -> bool) (Equal : IP -> IP -> bool)
    (durationString : Z -> string) (formatLoss : float64 -> string) {W} `{!Runner W} p c (w : W) ops c' w' log :
  New ParseCIDR Contains Equal p = inr c ->
  foldl (exec durationString formatLoss) (c, (w, [])) ops = (c', (w', log)) ->
  let pins := pinsFor (Namespace (plan c)) in
  plan c' = plan c /\ lawful (plan c) log /\
  Forall (fun path => exists rest, path = ("/sys/fs/bpf/promtact-" +:+ rest)%string)
    [root pins; programs pins; maps pins; xdp pins; tc pins; policy pins] /\
  (forall c'' w'' log'' errs, apply_ durationString formatLoss c' (w', log) = ((c'', (w'', log'')), errs) ->
     (active c' = true -> errs = [AlreadyActive] /\ log'' = log) /\
     (errs = [] -> active c'' = true /\ (forall r, held (plan c) r log'' = true) /\
        exists value, mapValue (thePolicy (plan c)) = inr value /\
          log'' = log ++ ((fun s => (arguments s, true)) <$> steps durationString formatLoss (plan c) value)) /\
     (forall e, log'' <> log -> errs = [e] -> active c'' = false /\ forall r, owns c'' r = false)) /\
  (forall c'' w'' log'', close_ c' (w', log) = ((c'', (w'', log'')), []) ->
     (forall r, owns c'' r = false) /\ held (plan c) Netns log'' = false /\ held (plan c) PinRoot log'' = false /\
     (close_ c'' (w'', log'')).1.2 = (w'', log'') /\ (close_ c'' (w'', log'')).2 = []).
Proof.
  intros HN HE. destruct (New_plan _ _ _ _ _ HN) as (Hs & _ & Ho). cbn zeta.
  assert (accounted c []) as H0.
  { split; [by intros [] ? ? ? ?|intros r; by rewrite Ho|intros r _; by rewrite Ho]. }
  destruct (exec_accounted durationString formatLoss ops c w [] H0) as [Ha Hp]. rewrite HE in Ha, Hp. cbn [fst snd] in Ha, Hp.
  split; [done|]. split; [rewrite <- Hp; apply Ha|]. split; [|split].
  - rewrite pinsFor_safe by done. destruct (safeName_spec _ Hs) as (rest & -> & _). cbn [root programs maps xdp tc policy].
    repeat (apply Forall_cons; split; [by eexists|]). constructor.
  - intros c'' w'' log'' errs H. unfold apply_, Apply in H. destruct (active c') eqn:Ea; [by injection H as <- _ <- <-|].
    split; [done|]. rewrite Hp in H. destruct (mapValue _) as [e|value]; [by injection H as <- _ <- <-|].
    apply runSteps_applied in H as [(H1 & H2 & H3 & H4) _]; [|intros s; rewrite Hp; apply steps_spec|done]. split.
    + intros He. destruct (H3 He) as (Hac & Hlog & Hall). split; [done|]. split; [|by exists value].
      intros r. rewrite <- Hp, <- H2. apply (ac_owns _ _ H1). destruct r.
      * eapply Hall; [apply list_elem_of_here|done].
      * eapply (Hall (mkStep _ (Some Netns))); [|done]. do 5 right. left.
      * eapply (Hall (mkStep _ (Some Veth))); [|done]. do 6 right. left.
    + intros e _ He. by destruct (H4 e He) as [-> ?].
  - intros c'' w'' log'' H. destruct (Close_accounted _ _ _ _ _ _ _ H Ha) as (H1 & H2 & H3). specialize (H3 eq_refl).
    split; [done|]. rewrite <- Hp, <- H2. rewrite !(ac_exact _ _ H1) by done. split; [apply (H3 Netns)|]. split; [apply (H3 PinRoot)|].
    by apply Close_again.
Qed.

(** ** The policy in the kernel *)

(** The fields hold values of their Go types. *)
Definition addressed (a : Addr) : Prop := match a with V4 ip => length ip = 4%nat /\ Forall byte ip | _ => True end.

Record typed (p : Policy) : Prop := {
  ty_xdp : valid64 (XDPDropPct p) = true; ty_tc : valid64 (TCDropPct p) = true; ty_corrupt : valid64 (TCCorruptPct p) = true;
  ty_src : addressed (BlockedSrc p); ty_dst : addressed (BlockedDst p)
}.

Definition percentage (x : float64) : Prop :=
  IsNaN x = false /\ IsInf x = false /\ SFltb x zero64 = false /\ SFltb hundred x = false.

Lemma policyRate_spec name x : valid64 x = true ->
  match policyRate name x with
  | inl _ => ~ percentage x
  | inr rate => percentage x /\ rate = Round (mul64 x hundred) /\ 0 <= rate <= 10000
  end.
Proof.
  intros Hv. unfold policyRate, percentage. destruct (IsNaN x) eqn:E1; [naive_solver|]. destruct (IsInf x) eqn:E2; [naive_solver|].
  destruct (SFltb x zero64) eqn:E3; [naive_solver|]. destruct (SFltb hundred x) eqn:E4; [naive_solver|]. cbn [orb].
  pose proof (percentage_rate x Hv E1 E2 E3 E4). unfold w32. rewrite Z.mod_small by lia. done.
Qed.

(** A packet is blocked by an address that is not all zeros. *)
Definition blocks (a : Addr) (octets : bytes) : Prop := a = V4 octets /\ octets <> [0; 0; 0; 0].

(** Whether the next draw falls below the rate. *)
Definition hit {R} (prandom_u32 : R -> Z * R) (x : float64) (r : R) : Prop :=
  (prandom_u32 r).1 mod 10000 < Round (mul64 x hundred).

Lemma copyPolicyAddress_typed a : addressed a -> length (copyPolicyAddress a) = 4%nat /\ Forall byte (copyPolicyAddress a).
Proof. destruct a; [|done|]; (split; [done|]); by repeat (constructor; [by unfold byte|]). Qed.

Lemma validatePolicyAddress_spec name a : validatePolicyAddress name a = None <-> a <> V6.
Proof. by destruct a. Qed.

Lemma words5 (a b c d e : bytes) :
  length a = 4%nat -> length b = 4%nat -> length c = 4%nat -> length d = 4%nat -> length e = 4%nat ->
  let l := a ++ b ++ c ++ d ++ e in
  take 4 (drop 0 l) = a /\ take 4 (drop 4 l) = b /\ take 4 (drop 8 l) = c /\ take 4 (drop 12 l) = d /\ take 4 (drop 16 l) = e.
Proof.
  assert (forall l : bytes, length l = 4%nat -> exists w x y z, l = [w; x; y; z]) as H.
  { intros [|w [|x [|y [|z []]]]] Hl; try done. by exists w, x, y, z. }
  intros (? & ? & ? & ? & ->)%H (? & ? & ? & ? & ->)%H (? & ? & ? & ? & ->)%H (? & ? & ? & ? & ->)%H (? & ? & ? & ? & ->)%H. done.
Qed.

(** The policy the kernel reads is the one that was written. *)
Lemma mapValue_spec p : typed p ->
  match mapValue p with
  | inl _ => ~ (percentage (XDPDropPct p) /\ percentage (TCDropPct p) /\ percentage (TCCorruptPct p) /\ BlockedSrc p <> V6 /\ BlockedDst p <> V6)
  | inr value =>
      length value = policyMapValueSize /\
      Forall (fun x => 0 <= Round (mul64 x hundred) <= 10000) [XDPDropPct p; TCDropPct p; TCCorruptPct p] /\
      fault_policy_at value = mkFaultPolicy (Round (mul64 (XDPDropPct p) hundred)) (Round (mul64 (TCDropPct p) hundred))
        (Round (mul64 (TCCorruptPct p) hundred)) (leGet (copyPolicyAddress (BlockedSrc p))) (leGet (copyPolicyAddress (BlockedDst p)))
  end.
Proof.
  intros [H1 H2 H3 H4 H5]. unfold mapValue, validatePolicy.
  pose proof (policyRate_spec "XDP drop" _ H1) as P1. destruct (policyRate "XDP drop" _) as [|r1]; [tauto|].
  pose proof (policyRate_spec "TC drop" _ H2) as P2. destruct (policyRate "TC drop" _) as [|r2]; [tauto|].
  pose proof (policyRate_spec "TC corrupt" _ H3) as P3. destruct (policyRate "TC corrupt" _) as [|r3]; [tauto|].
  destruct (validatePolicyAddress "blocked source" _) eqn:E4; [intros (_ & _ & _ & H & _); by apply (validatePolicyAddress_spec "blocked source") in H; rewrite H in E4|].
  destruct (validatePolicyAddress "blocked destination" _) eqn:E5; [intros (_ & _ & _ & _ & H); by apply (validatePolicyAddress_spec "blocked destination") in H; rewrite H in E5|].
  cbn [rateOf]. destruct P1 as (_ & -> & B1), P2 as (_ & -> & B2), P3 as (_ & -> & B3).
  destruct (copyPolicyAddress_typed _ H4) as [L4 F4]. destruct (copyPolicyAddress_typed _ H5) as [L5 F5].
  split; [by rewrite !length_app, !length_le, L4, L5|]. split; [by repeat (constructor; [done|])|].
  unfold fault_policy_at. cbv beta zeta.
  set (r1 := Round (mul64 (XDPDropPct p) _)) in *. set (r2 := Round (mul64 (TCDropPct p) _)) in *. set (r3 := Round (mul64 (TCCorruptPct p) _)) in *.
  destruct (words5 _ _ _ _ _ (length_le 4 r1) (length_le 4 r2) (length_le 4 r3) L4 L5) as (-> & -> & -> & -> & ->).
  by rewrite !leGet_le by lia.
Qed.

Lemma blocked_spec a octets : addressed a -> length octets = 4%nat -> Forall byte octets ->
  negb (leGet (copyPolicyAddress a) =? 0) && (leGet octets =? leGet (copyPolicyAddress a)) = true <-> blocks a octets.
Proof.
  intros Ha Hl Hb. destruct (copyPolicyAddress_typed a Ha) as [L F]. rewrite andb_true_iff, negb_true_iff, Z.eqb_neq, Z.eqb_eq. split.
  - intros [Hn E]. apply leGet_inj in E; [|done..|by rewrite Hl, L]. rewrite <- E in Hn. destruct a; [by rewrite E in Hn|cbn in E|by rewrite E in Hn].
    subst octets. split; [done|]. by intros ->.
  - intros [-> Hz]. cbn [copyPolicyAddress]. split; [|done]. intros E. apply Hz.
    apply leGet_inj; [done|by repeat (constructor; [by unfold byte|])|done|done].
Qed.

Lemma draw_hit {R} (prandom_u32 : R -> Z * R) x r rate :
  rate = Round (mul64 x hundred) -> 0 <= rate ->
  (if rate =? 0 then false else (prandom_u32 r).1 mod 10000 <? rate) = true <-> hit prandom_u32 x r.
Proof.
  intros -> H0. unfold hit. pose proof (Z.mod_pos_bound (prandom_u32 r).1 10000 ltac:(lia)).
  destruct (Z.eqb_spec (Round (mul64 x hundred)) 0) as [->|]; [|by rewrite Z.ltb_lt]. split; [done|lia].
Qed.

Lemma parse_ipv4_addresses data ip : Forall byte data -> parse_ipv4 data = Some ip ->
  exists a b, take 4 (drop 12 ip) = a /\ take 4 (drop 16 ip) = b /\ length a = 4%nat /\ length b = 4%nat /\ Forall byte a /\ Forall byte b.
Proof.
  intros Hd. unfold parse_ipv4. destruct (_ || _); [done|]. destruct (Nat.ltb_spec (length data) 34) as [|Hl]; [done|]. intros [= <-].
  eexists _, _. split; [done|]. split; [done|]. rewrite !length_take, !length_drop. split; [lia|]. split; [lia|].
  split; by repeat first [apply Forall_take|apply Forall_drop].
Qed.

(** C27 The kernel does what the policy says.  A policy is accepted exactly if its
    three percentages are numbers from 0 to 100 and its addresses are IPv4; it
    fills the map value, and the packet programs that read it behave as follows,
    with rates per ten thousand that are the rounded percentages and never above
    10000.  The ingress program drops a packet exactly if it is IPv4 and comes from
    or goes to a blocked address other than 0.0.0.0, or the draw is below the rate.
    The egress program drops a packet exactly if its draw is below the rate, and
    else overwrites the first byte after a plain IP header exactly if the next draw
    is below the corruption rate. *)
Theorem policy_enforced {R} (prandom_u32 : R -> Z * R) p : typed p ->
  match mapValue p with
  | inl _ => ~ (percentage (XDPDropPct p) /\ percentage (TCDropPct p) /\ percentage (TCCorruptPct p) /\ BlockedSrc p <> V6 /\ BlockedDst p <> V6)
  | inr value =>
      length value = policyMapValueSize /\
      Forall (fun x => 0 <= Round (mul64 x hundred) <= 10000) [XDPDropPct p; TCDropPct p; TCCorruptPct p] /\
      let kernel := Some (fault_policy_at value) in
      (forall data r, Forall byte data ->
         (promtact_xdp prandom_u32 kernel data r).2 = DROP <->
         exists ip, parse_ipv4 data = Some ip /\
           (blocks (BlockedSrc p) (take 4 (drop 12 ip)) \/ blocks (BlockedDst p) (take 4 (drop 16 ip)) \/ hit prandom_u32 (XDPDropPct p) r)) /\
      (forall skb r, let '(v, skb') := (promtact_tc prandom_u32 kernel skb r).2 in
         (v = DROP <-> hit prandom_u32 (TCDropPct p) r) /\
         (v = PASS -> let r' := if tc_drop_per_10000 (fault_policy_at value) =? 0 then r else (prandom_u32 r).2 in
            (hit prandom_u32 (TCCorruptPct p) r' -> skb' = store_byte 34 1 skb) /\
            (~ hit prandom_u32 (TCCorruptPct p) r' -> skb' = skb)))
  end.
Proof.
  intros Ht. pose proof (mapValue_spec p Ht) as H. destruct (mapValue p) as [|value] eqn:E; [done|]. destruct H as (Hl & HB & ->).
  split; [done|]. split; [done|]. apply Forall_cons in HB as [B1 HB]. apply Forall_cons in HB as [B2 HB]. apply Forall_cons in HB as [B3 _].
  cbn zeta. split.
  - intros data r Hd. unfold promtact_xdp. destruct (parse_ipv4 data) as [ip|] eqn:Ei; [|split; [done|by intros (? & ? & _)]].
    match goal with |- ?L <-> _ => enough (L <-> blocks (BlockedSrc p) (take 4 (drop 12 ip)) \/ blocks (BlockedDst p) (take 4 (drop 16 ip)) \/
      hit prandom_u32 (XDPDropPct p) r) as -> by (split; [by exists ip|by intros (? & [= <-] & ?)]) end.
    destruct (parse_ipv4_addresses data ip Hd Ei) as (a & b & -> & -> & La & Lb & Fa & Fb).
    cbn [blocked_src blocked_dst xdp_drop_per_10000].
    rewrite <- (blocked_spec _ a (ty_src _ Ht) La Fa), <- (blocked_spec _ b (ty_dst _ Ht) Lb Fb), <- (draw_hit _ _ _ _ eq_refl (proj1 B1)).
    destruct (negb _ && _); [by split; auto|]. destruct (negb _ && _); [by split; auto|]. cbn [orb].
    destruct (Round _ =? 0); [by split; [|intros [|[]]]|]. destruct (prandom_u32 r) as [draw r']. cbn [fst snd].
    destruct (draw mod 10000 <? _); [by split; auto|]. by split; [|intros [|[]]].
  - intros skb r. unfold promtact_tc. cbn [tc_drop_per_10000 tc_corrupt_per_10000].
    pose proof (draw_hit prandom_u32 (TCDropPct p) r _ eq_refl (proj1 B2)) as H2.
    assert (forall r', (hit prandom_u32 (TCCorruptPct p) r' <-> (if Round (mul64 (TCCorruptPct p) hundred) =? 0 then false else
      (prandom_u32 r').1 mod 10000 <? Round (mul64 (TCCorruptPct p) hundred)) = true)) as H3 by (intros; symmetry; by apply draw_hit; [|lia]).
    destruct (Round (mul64 (TCDropPct p) hundred) =? 0); [|destruct (prandom_u32 r) as [draw r1] eqn:Er; cbn [fst snd] in *;
      destruct (draw mod 10000 <? _); [cbn beta iota delta [snd]; by rewrite <- H2|]].
    all: match goal with |- context [if _ =? 0 then (?x, false) else _] => specialize (H3 x); destruct (Round (mul64 (TCCorruptPct p) hundred) =? 0);
           [|destruct (prandom_u32 x) as [draw2 r2]; cbn [fst snd] in *; destruct (draw2 mod 10000 <? _)] end.
    all: cbn beta iota delta [snd]; rewrite <- H2, H3; (split; [done|]); intros _; by split.
Qed.

(** ** A plan *)

Module Demo.

Definition none : Policy := mkPolicy zero64 zero64 zero64 NoAddr (V4 [198; 51; 100; 20]).
Definition plain : Plan := mkPlan "promtact-test" "promtact-host" "promtact-peer" "" "" "chaos.o" none 0 zero64.

(** Addresses by their text; a runner that fails at the listed calls. *)
Definition parse (s : string) : option (string * string) := Some (s, s).
Definition always (a b : string) : bool := true.
Definition same (a b : string) : bool := bool_decide (a = b).
Definition duration (d : Z) : string := "0s".
Definition loss (x : float64) : string := "0.000".

#[global] Instance failing : Runner (list nat * nat) := fun _ '(bad, k) =>
  ((bad, S k), if bool_decide (k ∈ bad) then Some "failed"%string else None).

Definition new : Controller := match New parse always same plain with inr c => c | inl _ => mkController plain false false false false end.

(** The last byte of a blocked destination address decides. *)
Definition packet (last : Z) : bytes := replicate 12 0 ++ [8; 0] ++ replicate 16 0 ++ [198; 51; 100; last].

Lemma policy_enforced_witness :
  exists value, mapValue none = inr value /\
    (promtact_xdp (fun r : Z => (r, r)) (Some (fault_policy_at value)) (packet 20) 0).2 = DROP /\
    (promtact_xdp (fun r : Z => (r, r)) (Some (fault_policy_at value)) (packet 21) 0).2 <> DROP.
Proof.
  assert (typed none) as Ht.
  { split; try reflexivity. split; [reflexivity|]. repeat (constructor; [unfold byte; lia|]). constructor. }
  pose proof (policy_enforced (fun r : Z => (r, r)) none Ht) as H.
  assert (forall last, 0 <= last < 256 -> Forall byte (packet last)) as Hb.
  { intros last Hl. unfold packet. repeat (constructor; [unfold byte; lia|]). constructor. }
  destruct (mapValue none) as [|value]; [exfalso; apply H; repeat split; discriminate|]. destruct H as (_ & _ & Hx & _).
  exists value. split; [reflexivity|]. split.
  - apply Hx; [apply Hb; lia|]. eexists. split; [vm_compute; reflexivity|]. right. left. split; [vm_compute; reflexivity|vm_compute; discriminate].
  - intros HD. apply Hx in HD; [|apply Hb; lia]. destruct HD as (ip & Hip & HH). vm_compute in Hip. injection Hip as <-.
    destruct HH as [[HH _]|[[HH _]|HH]]; [discriminate HH|vm_compute in HH; discriminate HH|vm_compute in HH; discriminate HH].
Defined.

(** The fourth command fails; the pins are removed and nothing is left. *)
Lemma chaos_ownership_witness :
  exists c w log, foldl (exec duration loss) (new, (([3%nat], 0%nat), [])) [DoApply] = (c, (w, log)) /\ length log = 6%nat /\
    lawful (plan new) log /\ plan c = plan new.
Proof.
  destruct (foldl (exec duration loss) (new, (([3%nat], 0%nat), [])) [DoApply]) as [c [w log]] eqn:E.
  exists c, w, log. split; [reflexivity|]. split.
  - transitivity (length (foldl (exec duration loss) (new, (([3%nat], 0%nat), [])) [DoApply]).2.2); [by rewrite E|vm_compute; reflexivity].
  - destruct (chaos_ownership parse always same duration loss plain new ([3%nat], 0%nat) [DoApply] c w log) as (H1 & H2 & _).
    + vm_compute. reflexivity.
    + exact E.
    + split; [exact H2|exact H1].
Defined.

(** A lost interface: moving the peer into the namespace fails, and so does the
    removal of the interfaces.  The failure to remove them is taken for a
    consequence of the removal of the namespace, which never held them: it is not
    reported, and [Close] does not try again. *)
Theorem veth_leaks :
  exists c w log, apply_ duration loss new (([7%nat; 9%nat], 0%nat), []) = ((c, (w, log)), [Failed "failed"]) /\
    held (plan new) Veth log = true /\ (forall r, owns c r = false) /\
    (close_ c (w, log)).1.2 = (w, log) /\ (close_ c (w, log)).2 = [].
Proof.
  eexists _, _, _. split; [vm_compute; reflexivity|]. split; [vm_compute; reflexivity|]. split; [by intros []|].
  split; vm_compute; reflexivity.
Qed.

End Demo.
End Chaos.
