(* ===== verification/RaftCluster.v ===== *)
(** * The Raft cluster under simulation

    [dst/raftcluster]: Raft nodes over write-ahead logs on in-memory devices, as
    a cluster of the simulation engine, with the invariants the simulator checks.
    The main result puts the parts together: in every simulated run without
    reconfiguration and restarts, none of the three safety checks of the simulator
    ever fails; [Restarts] adds the restarts. *)

From S2P Require Import Prelude Bytes Wal RaftTypes Quorum RaftNode RaftInv RaftClient RaftVotes RaftWal.
From S2P Require Import Election LogHistory RaftLogs RaftLead LogSafety EventHeap Engine EngineInv.

Module RaftCluster.

(** ** dst/raftcluster/store.go *)

Record stableStore := mkStable { wal : RaftWal.store; snapshot : Snapshot }.

Definition SaveHardState (h : HardState) (s : stableStore) : stableStore * option error :=
  let (w, err) := RaftWal.SaveHardState h (wal s) in (mkStable w (snapshot s), err).

Definition Append (index : Z) (entry : Entry) (s : stableStore) : stableStore * option error :=
  let (w, err) := RaftWal.Append index entry (wal s) in (mkStable w (snapshot s), err).

Definition SaveSnapshot (snap : Snapshot) (s : stableStore) : stableStore * option error :=
  (mkStable (wal s) snap, None).

Definition CompactLog (index : Z) (s : stableStore) : stableStore * option error :=
  let (w, err) := RaftWal.CompactLog index (wal s) in (mkStable w (snapshot s), err).

#[global] Instance store : StableStore stableStore := {
  RaftTypes.SaveHardState := SaveHardState;
  RaftTypes.Append := Append;
  AsSnapshotStore := Some {| RaftTypes.SaveSnapshot := SaveSnapshot; RaftTypes.CompactLog := CompactLog |}
}.

#[global] Instance votes : DurableVotes stableStore.
Proof.
  refine {| durable := fun s => durable (wal s) |}.
  - intros h s s'. cbn. unfold SaveHardState. destruct (RaftWal.SaveHardState h (wal s)) as [w err] eqn:E.
    intros [= <- ->]. exact (durable_save h (wal s) w E).
  - intros h s s' e. cbn. unfold SaveHardState. destruct (RaftWal.SaveHardState h (wal s)) as [w err] eqn:E.
    intros [= <- ->]. exact (durable_save_err h (wal s) w e E).
  - intros i e s. cbn. unfold Append. destruct (RaftWal.Append i e (wal s)) as [w err] eqn:E. cbn.
    pose proof (durable_append i e (wal s)) as H. cbn in H. by rewrite E in H.
  - by intros ops snap s [= <-].
  - intros ops i s [= <-]. cbn. unfold CompactLog, RaftWal.CompactLog.
    destruct (_ || _); [done|]. cbn zeta. destruct (RaftWal.append _ _) as [w [err|]] eqn:E; cbn;
      apply (f_equal (fun p => RaftWal.mem p.1)) in E; rewrite RaftWal.append_mem in E; cbn in E; by rewrite <- E.
Defined.

(** ** dst/raftcluster/cluster.go *)

Abbreviation node := (Node stableStore).

(** The maps [stores] and [disks] of the source hold the store of each node and
    the device of its log, which are reached through the node here.  Only after a
    restart that failed do they hold other objects than the node, the rebooted
    ones in [stale]. *)
Record Cluster := mkCluster { ids : list Z; nodes : gmap Z node; stale : gmap Z stableStore }.

Definition storeOf (id : Z) (n : node) (c : Cluster) : stableStore := default (n_store n) (stale c !! id).

Definition disk (s : stableStore) : MemoryDevice.t := Log.device (RaftWal.log (wal s)).

Definition electionTimeout (id : Z) : Z := w64 (8 + w32 (id * 2)).

Definition newStore : stableStore := mkStable RaftWal.fresh zeroSnapshot.

Definition allIds (count : nat) : list Z := (fun i => Z.of_nat i) <$> seq 1 count.

(** [New]; [None] is a panic. *)
Definition New (count : nat) : option Cluster :=
  if (count <? 1)%nat then None else
  foldl (fun acc id =>
    c ← acc;
    let peers := filter (fun j => j <> id) (allIds count) in
    match NewNodeWithStore id peers (electionTimeout id) newStore with
    | inr n => Some (mkCluster (ids c ++ [id]) (<[id := n]> (nodes c)) ∅)
    | inl _ => None
    end) (Some (mkCluster [] ∅ ∅)) (allIds count).

(** The length of the slices of a device; an [int] is at most [maxInt]. *)
Definition diskBytes (s : stableStore) : Z := len (MemoryDevice.durable (disk s)) + len (MemoryDevice.pending (disk s)).

Definition maxInt : Z := 2 ^ 63 - 1.

(** Run an operation of one node.  A node that is not there is a nil pointer, and
    a slice of more than [maxInt] bytes cannot be made; the last term and the last
    index of [uint64] are bounds of the model. *)
Definition onNode {A} (op : MN stableStore A) (id : Z) (c : Cluster) : option (Cluster * A) :=
  n ← nodes c !! id;
  if (n_Term n <? maxu64) && (n_BaseIndex n + len (n_Log n) <? maxu64) then
    match op n with
    | Done a n' =>
        if diskBytes (n_store n') <=? maxInt
        then Some (mkCluster (ids c) (<[id := n']> (nodes c)) (stale c), a) else None
    | Panicked _ => None
    end
  else None.

Definition Tick (id : Z) (c : Cluster) : option Cluster := fst <$> onNode RaftNode.Tick id c.

Definition Deliver (id : Z) (m : Message) (c : Cluster) : option Cluster :=
  if m_Term m <? maxu64 then fst <$> onNode (RaftNode.Step m) id c else None.

Definition Drain (id : Z) (c : Cluster) : option (Cluster * list Message) := onNode (RaftNode.Drain []) id c.

#[global] Instance cluster : Engine.Cluster Cluster Message := {
  Nodes := ids;
  c_Tick := Tick;
  c_Deliver := Deliver;
  c_Drain := Drain;
  Route := fun m => (m_From m, m_To m);
  Digest := fun m => (w8 (m_Type m), m_Term m)
}.

(** The loops of [Propose], [ProposeJoint] and [ProposeFinal]: the first node
    that accepts. *)
Fixpoint tryNodes (op : MN stableStore bool) (l : list Z) (c : Cluster) : option (Cluster * bool) :=
  match l with
  | [] => Some (c, false)
  | id :: l =>
      '(c, ok) ← onNode op id c;
      if ok : bool then Some (c, true) else tryNodes op l c
  end.

Definition Propose (command : Z) (c : Cluster) : option (Cluster * bool) :=
  tryNodes (RaftNode.Propose command) (ids c) c.
Definition ProposeJoint (voters : list Z) (c : Cluster) : option (Cluster * bool) :=
  tryNodes (RaftNode.ProposeJoint voters) (ids c) c.
Definition ProposeFinal (c : Cluster) : option (Cluster * bool) :=
  tryNodes RaftNode.ProposeFinal (ids c) c.

Definition Compact (id : Z) (state : list Z) (c : Cluster) : option (Cluster * bool) :=
  match nodes c !! id with
  | None => Some (c, false)
  | Some n =>
      if n_Applied n <=? n_BaseIndex n then Some (c, false)
      else onNode (RaftNode.Compact (n_Applied n) state) id c
  end.

Definition Leader (c : Cluster) : Z :=
  match find (fun id => bool_decide (n_State <$> nodes c !! id = Some RaftTypes.Leader)) (ids c) with
  | Some id => id
  | None => 0
  end.

Definition ErrUnknown : error := "raftcluster: unknown node".
Definition ErrMismatch : error := "raftcluster: snapshot/WAL base mismatch".

(** [Restart]: the node is rebuilt from its write-ahead log; [None] is a panic. *)
Definition Restart (id : Z) (c : Cluster) : option (Cluster * option error) :=
  match nodes c !! id with
  | None => Some (c, Some ErrUnknown)
  | Some n =>
      let old := storeOf id n c in
      match MemoryDevice.Crash 0 (disk old) with
      | inl e => Some (c, Some e)
      | inr rebooted =>
          match RaftWal.Open rebooted with
          | inl e => Some (c, Some e)
          | inr w =>
              let '(hard, base, entries) := RaftWal.StateWithBase w in
              let stable := mkStable w (snapshot old) in
              let install r :=
                match r with
                | Done () n' => Some (mkCluster (ids c) (<[id := n']> (nodes c)) (delete id (stale c)), None)
                | Panicked _ => None
                end in
              if negb (base =? 0) then
                if negb (s_LastIndex (snapshot stable) =? base)
                then Some (mkCluster (ids c) (nodes c) (<[id := stable]> (stale c)), Some ErrMismatch)
                else install (NewRecoveredNodeWithSnapshot id (n_Peers n) (electionTimeout id) stable
                                hard (snapshot stable) (drop 1 entries))
              else install (NewRecoveredNode id (n_Peers n) (electionTimeout id) stable hard entries)
          end
      end
  end.

(** ** dst/raftcluster/invariants.go

    Each check is the first error it finds.  A missing node is a nil pointer; the
    checks treat it as a failure. *)

Definition ErrNil : error := "nil pointer dereference".
Definition ErrTwoLeaders : error := "two leaders in term".
Definition ErrIndexes : error := "invalid indexes".
Definition ErrDisagree : error := "nodes disagree at committed index".

Fixpoint electionLoop (c : Cluster) (l : list Z) (leaders : gmap Z Z) : option error :=
  match l with
  | [] => None
  | id :: l =>
      match nodes c !! id with
      | None => Some ErrNil
      | Some n =>
          if negb (bool_decide (n_State n = RaftTypes.Leader)) then electionLoop c l leaders else
          match leaders !! n_Term n with
          | Some prior =>
              if negb (prior =? id) then Some ErrTwoLeaders
              else electionLoop c l (<[n_Term n := id]> leaders)
          | None => electionLoop c l (<[n_Term n := id]> leaders)
          end
      end
  end.

Definition checkElectionSafety (c : Cluster) : option error := electionLoop c (ids c) ∅.

Definition badIndexes (n : node) : bool :=
  (n_Commit n <? n_BaseIndex n) || (lastIndex n <? n_Commit n) ||
  (n_Applied n <? n_BaseIndex n) || (n_Commit n <? n_Applied n).

Fixpoint indexLoop (c : Cluster) (l : list Z) : option error :=
  match l with
  | [] => None
  | id :: l =>
      match nodes c !! id with
      | None => Some ErrNil
      | Some n => if badIndexes n then Some ErrIndexes else indexLoop c l
      end
  end.

Definition checkIndexSanity (c : Cluster) : option error := indexLoop c (ids c).

(** The innermost loop of [checkCommittedPrefix], over the shared indices. *)
Definition disagrees (na nb : node) (first index : Z) : bool :=
  match EntryAt na index, EntryAt nb index with
  | Some ea, Some eb =>
      negb (e_Term ea =? e_Term eb) || ((first <? index) && negb (bool_decide (ea = eb)))
  | _, _ => true
  end.

Definition pairCheck (na nb : node) : option error :=
  let first := Z.max (n_BaseIndex na) (n_BaseIndex nb) in
  let limit := Z.min (n_Commit na) (n_Commit nb) in
  if existsb (disagrees na nb first) (seqZ first (limit - first + 1)) then Some ErrDisagree else None.

Fixpoint peersLoop (c : Cluster) (na : node) (l : list Z) : option error :=
  match l with
  | [] => None
  | b :: l =>
      match nodes c !! b with
      | None => Some ErrNil
      | Some nb => match pairCheck na nb with Some e => Some e | None => peersLoop c na l end
      end
  end.

Fixpoint prefixLoop (c : Cluster) (l : list Z) : option error :=
  match l with
  | [] => None
  | a :: l =>
      match nodes c !! a with
      | None => Some ErrNil
      | Some na => match peersLoop c na l with Some e => Some e | None => prefixLoop c l end
      end
  end.

Definition checkCommittedPrefix (c : Cluster) : option error := prefixLoop c (ids c).

Definition SafetyInvariants : list (Invariant (C := Cluster)) :=
  [mkInvariant "election safety" checkElectionSafety;
   mkInvariant "index sanity" checkIndexSanity;
   mkInvariant "committed prefix" checkCommittedPrefix].

(** ** Simulated runs as runs of the abstract cluster *)

Section reach.
Variables (V : Z) (c0 : Election.cluster (S := stableStore)) (size : nat).
Context `{!DurableLog stableStore}.

(** [c] has [size] nodes, and they and the messages in [ms] are those of an
    abstract cluster that [c0] reaches. *)
Definition reach (c : Cluster) (ms : list Message) : Prop :=
  exists l cl, runLog V l c0 = Some cl /\ c_nodes cl = nodes c /\ ms ⊆ c_net cl /\
    length (ids c) = size /\ Forall (fun id => is_Some (nodes c !! id)) (ids c).

Lemma run_snoc l a cl : runLog V l c0 = Some cl -> runLog V (l ++ [a]) c0 = execLog V a cl.
Proof.
  intros H. rewrite runLog_app, H. cbn [mbind option_bind]. rewrite runLog_cons. by destruct (execLog V a cl).
Qed.

Lemma reach_subset c ms ms' : reach c ms -> ms' ⊆ ms -> reach c ms'.
Proof. intros (l & cl & H & Hn & Hm & Hl & Hi) Hs. exists l, cl. split_and!; try done. set_solver. Qed.

Lemma known_insert (c : Cluster) id (n : node) :
  Forall (fun id => is_Some (nodes c !! id)) (ids c) -> Forall (fun j => is_Some (<[id := n]> (nodes c) !! j)) (ids c).
Proof.
  intros Hi. eapply Forall_impl; [exact Hi|]. intros j Hj. cbn. destruct (decide (j = id)) as [->|].
  - by rewrite lookup_insert_eq.
  - by rewrite lookup_insert_ne.
Qed.

(** One action of the abstract cluster. *)
Lemma reach_act {A} (op : MN stableStore A) id c c' r ms ms' :
  reach c ms -> onNode op id c = Some (c', r) ->
  (forall cl n, c_nodes cl = nodes c -> ms ⊆ c_net cl -> room id cl = true -> c_nodes cl !! id = Some n ->
     exists a cl', allowed a cl = true /\ Election.exec V a cl = Election.runOp op id cl' /\
       c_nodes cl' = c_nodes cl /\ ms' ⊆ c_net cl') -> reach c' ms'.
Proof.
  intros (l & cl & Hrun & Hn & Hm & Hl & Hi) HO Ha. unfold onNode in HO.
  destruct (nodes c !! id) as [n|] eqn:E; cbn [mbind option_bind] in HO; [|done].
  destruct (n_Term n <? maxu64) eqn:Ht; [|done]. cbn [andb] in HO.
  destruct (n_BaseIndex n + len (n_Log n) <? maxu64) eqn:Hroom; [|done].
  destruct (op n) as [x n'|] eqn:Hop; [|done]. destruct (_ <=? _); [|done]. injection HO as <- <-.
  destruct (Ha cl n Hn Hm) as (a & cl' & Hal & Hex & Hn' & Hnet); [by unfold room; rewrite Hn, E|by rewrite Hn, E|].
  exists (l ++ [a]). rewrite (run_snoc l a cl Hrun). unfold execLog. rewrite Hal, Hex. unfold Election.runOp.
  rewrite Hn', Hn, E. cbn [mbind option_bind]. rewrite Ht, Hop. eexists. split; [reflexivity|]. cbn.
  split; [by rewrite Hn', Hn|]. split; [done|]. split; [done|]. by apply known_insert.
Qed.

(** An operation the abstract cluster has as an action. *)
Lemma reach_onNode {A} (op : MN stableStore A) (a : Election.action (S := stableStore)) id c c' r ms :
  (forall cl, Election.exec V a cl = Election.runOp op id cl) ->
  (forall cl n, room id cl = true -> c_nodes cl !! id = Some n -> allowed a cl = true) ->
  reach c ms -> onNode op id c = Some (c', r) -> reach c' ms.
Proof.
  intros Ha Hal Hr HO. eapply (reach_act op); [done..|]. intros cl n _ Hms Hroom Hn. exists a, cl.
  split_and!; [by eapply Hal|done..].
Qed.

Lemma reach_tick id c c' ms : reach c ms -> Tick id c = Some c' -> reach c' ms.
Proof.
  intros Hr. unfold Tick. destruct (onNode RaftNode.Tick id c) as [[c1 r]|] eqn:E; [|done].
  intros [= <-]. by eapply (reach_onNode RaftNode.Tick (ATick id)).
Qed.

Lemma reach_deliver id m c c' ms :
  reach c ms -> m ∈ ms -> id = m_To m -> Deliver id m c = Some c' -> reach c' ms.
Proof.
  intros Hr Hm -> HD. unfold Deliver in HD. destruct (m_Term m <? maxu64) eqn:Ht; [|done].
  destruct (onNode (RaftNode.Step m) (m_To m) c) as [[c1 r]|] eqn:E; [|done]. injection HD as <-.
  eapply (reach_act (RaftNode.Step m)); [done..|]. intros cl n _ Hms Hroom Hn. apply Hms in Hm as Hin.
  apply list_elem_of_lookup in Hin as [k Hk]. exists (ADeliver k), cl. cbn. rewrite Hk. cbn. by rewrite Ht.
Qed.

Lemma reach_drain id c c' out ms :
  reach c ms -> Drain id c = Some (c', out) -> reach c' (out ++ ms).
Proof.
  intros Hr HD. assert (exists n, nodes c !! id = Some n /\ out = n_outbound n) as (n0 & Hn0 & ->).
  { unfold Drain, onNode in HD. destruct (nodes c !! id) as [n|]; cbn in HD; [|done].
    destruct (_ && _); [|done]. change (RaftNode.Drain [] n) with (Done (S := node) (E := RaftNode.Panic) (n_outbound n) (n <| n_outbound := [] |>)) in HD.
    cbn iota in HD. destruct (diskBytes _ <=? _); [|done].
    injection HD as _ <-. by exists n. }
  eapply (reach_act (RaftNode.Drain [])); [done..|]. intros cl n Hc Hms _ Hn.
  exists (ADrain id), (cl <| c_net := c_net cl ++ n_outbound n |>). cbn. rewrite Hn. split_and!; [done..|].
  rewrite Hc, Hn0 in Hn. injection Hn as <-. set_solver.
Qed.

Lemma tryNodes_reach op (a : Z -> Election.action (S := stableStore)) l : forall c c' r ms,
  (forall id cl, Election.exec V (a id) cl = Election.runOp op id cl) ->
  (forall id cl, room id cl = true -> allowed (a id) cl = true) ->
  reach c ms -> tryNodes op l c = Some (c', r) -> reach c' ms.
Proof.
  induction l as [|id l IH]; intros c c' r ms Ha Hal Hr; cbn [tryNodes]; [by intros [= <- <-]|].
  destruct (onNode op id c) as [[c1 ok]|] eqn:E; cbn; [|done].
  assert (reach c1 ms) as H1 by (eapply (reach_onNode op (a id)); eauto).
  destruct ok; [by intros [= <- <-]|by apply IH].
Qed.

Lemma Propose_reach command c c' r ms : reach c ms -> Propose command c = Some (c', r) -> reach c' ms.
Proof. intros Hr. by apply (tryNodes_reach (RaftNode.Propose command) (fun j => APropose j command)). Qed.

(** *** The check *)

Lemma electionLoop_ok c : forall l leaders,
  Forall (fun id => is_Some (nodes c !! id)) l ->
  (forall i j ni nj, nodes c !! i = Some ni -> nodes c !! j = Some nj -> n_State ni = RaftTypes.Leader ->
     n_State nj = RaftTypes.Leader -> n_Term ni = n_Term nj -> i = j) ->
  (forall T p, leaders !! T = Some p -> exists n, nodes c !! p = Some n /\ n_State n = RaftTypes.Leader /\ n_Term n = T) ->
  electionLoop c l leaders = None.
Proof.
  induction l as [|id l IH]; intros leaders Hl Hu Hlead; cbn [electionLoop]; [done|].
  apply Forall_cons in Hl as [[n Hn] Hl]. rewrite Hn. case_bool_decide as HL; cbn [negb]; [|by apply IH].
  assert (forall T p, <[n_Term n := id]> leaders !! T = Some p ->
    exists n, nodes c !! p = Some n /\ n_State n = RaftTypes.Leader /\ n_Term n = T) as Hlead'.
  { intros T p [[<- <-]|[_ H]]%lookup_insert_Some; [by exists n|by apply Hlead]. }
  destruct (leaders !! n_Term n) as [prior|] eqn:E; [|by apply IH].
  destruct (Hlead _ _ E) as (n' & Hn' & HL' & HT').
  rewrite (Hu prior id n' n Hn' Hn HL' HL HT'), Z.eqb_refl. by apply IH.
Qed.

Lemma indexLoop_ok c : forall l,
  Forall (fun id => is_Some (nodes c !! id)) l ->
  (forall id n, nodes c !! id = Some n -> badIndexes n = false) -> indexLoop c l = None.
Proof.
  induction l as [|id l IH]; intros Hl Hb; cbn [indexLoop]; [done|].
  apply Forall_cons in Hl as [[n Hn] Hl]. rewrite Hn, (Hb id n Hn). by apply IH.
Qed.

Lemma prefixLoop_ok c : forall l,
  Forall (fun id => is_Some (nodes c !! id)) l ->
  (forall a b na nb, nodes c !! a = Some na -> nodes c !! b = Some nb -> pairCheck na nb = None) ->
  prefixLoop c l = None.
Proof.
  induction l as [|a l IH]; intros Hl Hp; cbn [prefixLoop]; [done|].
  apply Forall_cons in Hl as [[na Hna] Hl]. rewrite Hna. replace (peersLoop c na l) with (@None error); [by apply IH|].
  clear IH. induction l as [|b l IH]; cbn [peersLoop]; [done|]. apply Forall_cons in Hl as [[nb Hnb] Hl].
  rewrite Hnb, (Hp a b na nb Hna Hnb). by apply IH.
Qed.

Lemma logged_indexes g j (n : node) F D : logged V g j n F D -> badIndexes n = false.
Proof.
  intros H. pose proof (commit_lt V _ _ _ _ _ H). pose proof (lg_applied _ _ _ _ _ _ H).
  unfold badIndexes. rewrite (lg_last V _ _ _ _ _ H), !orb_false_iff, !Z.ltb_ge. lia.
Qed.

(** What [EntryAt] reads of a whole log. *)
Lemma logged_read g j (n : node) F D i :
  logged V g j n F D -> n_BaseIndex n <= i <= n_Commit n ->
  exists e, EntryAt n i = Some e /\ termOf F (Z.to_nat i) = Some (e_Term e) /\
    (n_BaseIndex n < i -> F !! Z.to_nat i = Some e).
Proof.
  intros H Hi. pose proof (commit_lt V _ _ _ _ _ H). pose proof (lg_top _ _ _ _ _ _ H) as Ht. unfold top in Ht.
  unfold EntryAt. destruct (offset n i) as [off|] eqn:E.
  - destruct (lg_offset V _ _ _ _ _ _ _ H E) as (_ & _ & H1 & H2). eexists. split; [reflexivity|]. auto.
  - rewrite offset_wf in E by by eapply lg_wf_log. case_decide; [done|]. lia.
Qed.

Lemma logged_pair g i j (na nb : node) Fa Da Fb Db :
  is_u64 V -> Hist V g -> logged V g i na Fa Da -> logged V g j nb Fb Db -> pairCheck na nb = None.
Proof.
  intros Hu HH HA HB. unfold pairCheck. set (first := Z.max _ _). set (limit := Z.min _ _).
  destruct (existsb _ _) eqn:E; [|done]. exfalso. apply existsb_exists in E as (k & Hin & Hd).
  apply list_elem_of_In, elem_of_seqZ in Hin.
  pose proof (committed_agree V g _ _ _ _ Fa Fb Hu HH (lg_ok _ _ _ _ _ _ HA) (lg_ok _ _ _ _ _ _ HB)
    (lg_commit _ _ _ _ _ _ HA) (lg_commit _ _ _ _ _ _ HB)) as Hs.
  assert (Z.to_nat k <= Nat.min (Z.to_nat (n_Commit na)) (Z.to_nat (n_Commit nb)))%nat as Hk by lia.
  destruct (logged_read _ _ _ _ _ k HA ltac:(lia)) as (ea & Ea & Ta & La).
  destruct (logged_read _ _ _ _ _ k HB ltac:(lia)) as (eb & Eb & Tb & Lb).
  unfold disagrees in Hd. rewrite Ea, Eb in Hd. rewrite (share_term _ _ _ _ Hs Hk), Tb in Ta. injection Ta as Et.
  rewrite Et, Z.eqb_refl in Hd. cbn [negb orb] in Hd. apply andb_prop in Hd as [Hlt%Z.ltb_lt Hne%negb_true_iff].
  apply bool_decide_eq_false in Hne. apply Hne.
  pose proof (share_lookup _ _ _ _ Hs Hk) as El. rewrite La, Lb in El by lia. congruence.
Qed.

Lemma reach_safe c ms :
  is_u64 V -> V <> 0 -> initialLog V c0 -> reach c ms ->
  checkElectionSafety c = None /\ checkIndexSanity c = None /\ checkCommittedPrefix c = None.
Proof.
  intros Hu HV H0 (l & cl & Hrun & Hn & _ & _ & Hi).
  destruct (runLog_linv V l emptyHistory c0 cl Hu HV) as (HI & g & _ & HL);
    [by apply initial_inv, H0|by apply initial_linv|done|].
  split; [|split].
  - apply electionLoop_ok; [done| |done]. rewrite <- Hn. intros i j ni nj. by eapply current_leaders_unique.
  - apply indexLoop_ok; [done|]. rewrite <- Hn. intros j n Hj. destruct (li_node _ _ _ HL j n Hj) as [(F & D & H) _].
    by eapply logged_indexes.
  - apply prefixLoop_ok; [done|]. rewrite <- Hn. intros i j ni nj Hni Hnj.
    destruct (li_node _ _ _ HL i ni Hni) as [(Fa & Da & HA) _]. destruct (li_node _ _ _ HL j nj Hnj) as [(Fb & Db & HB) _].
    eapply logged_pair; [exact Hu|apply HL|exact HA|exact HB].
Qed.

End reach.

(** ** What a test does with the cluster

    A test proposes and compacts through the cluster, and calls the nodes it gets
    from [Node]: it applies what they have committed, starts reads, proposes to one
    of them and hands over leadership. *)

Inductive op :=
| OpPropose (command : Z)
| OpCompact (id : Z) (state : list Z)
| OpApply (id : Z)
| OpProposeRequest (id operation clientID requestID key value : Z)
| OpStartReadIndex (id context : Z)
| OpTransferLeadership (id target : Z).

Definition drive (o : op) (c : Cluster) : option Cluster :=
  match o with
  | OpPropose command => fst <$> Propose command c
  | OpCompact id state => fst <$> Compact id state c
  | OpApply id => fst <$> onNode RaftNode.Apply id c
  | OpProposeRequest id operation clientID requestID key value =>
      fst <$> onNode (RaftNode.ProposeRequest operation clientID requestID key value) id c
  | OpStartReadIndex id context => fst <$> onNode (RaftNode.StartReadIndex context) id c
  | OpTransferLeadership id target => fst <$> onNode (RaftNode.TransferLeadership target) id c
  end.

Section drive.
Variables (V : Z) (c0 : Election.cluster (S := stableStore)) (size : nat).

(** These runs have no restarts. *)
#[local] Instance lost : DurableLog stableStore := volatile stableStore.
Abbreviation reach := (reach V c0 size).

Lemma Compact_reach id state c c' r ms : reach c ms -> Compact id state c = Some (c', r) -> reach c' ms.
Proof.
  intros Hr E. unfold Compact in E. destruct (nodes c !! id) as [n|]; [|by injection E as <- <-].
  destruct (_ <=? _); [by injection E as <- <-|].
  eapply (reach_onNode V c0 size (RaftNode.Compact (n_Applied n) state) (ACompact id (n_Applied n) state)); [done| |done..].
  intros cl n1 _ Hn1. cbn. unfold mayCompact. rewrite Hn1. by rewrite orb_true_r.
Qed.

Lemma Apply_reach id c c' r ms : reach c ms -> onNode RaftNode.Apply id c = Some (c', r) -> reach c' ms.
Proof.
  apply (reach_onNode V c0 size RaftNode.Apply (AApplyEntries id)); [|done]. intros cl. cbn. unfold Election.runOp.
  destruct (c_nodes cl !! id) as [n|]; [|done]. cbn [mbind option_bind]. destruct (_ <? _); [|done].
  unfold RaftNode.Apply, mbind, M_bind. by destruct (RaftNode.ApplyEntries [] n).
Qed.

Lemma drive_reach o c c' ms : reach c ms -> drive o c = Some c' -> reach c' ms.
Proof.
  intros Hr. destruct o as [command|id state|id|id operation clientID requestID key value|id context|id target]; cbn [drive];
    match goal with |- context [fst <$> ?x] => destruct x as [[c1 r]|] eqn:E; [|done] end; intros [= <-].
  - by eapply Propose_reach.
  - by eapply Compact_reach.
  - by eapply Apply_reach.
  - by eapply (reach_onNode V c0 size _ (AProposeRequest id operation clientID requestID key value)).
  - by eapply (reach_onNode V c0 size _ (AStartReadIndex id context)).
  - by eapply (reach_onNode V c0 size _ (ATransferLeadership id target)).
Qed.

#[local] Instance reach_pool : Pool drive (fun _ c ms => reach c ms) size.
Proof.
  split.
  - intros k k' c ms ms' Hr _ Hs. eapply reach_subset; [exact Hr|]. intros m Hm. by eapply elem_of_submseteq.
  - by intros k c ms (l & cl & _ & _ & _ & Hl & _).
  - intros k c ms id c'. apply reach_tick.
  - intros k c m ms c' Hr HD. eapply reach_subset; [|by apply list_subseteq_cons].
    eapply reach_deliver; [exact Hr|by apply list_elem_of_here|done|exact HD].
  - intros k c ms id c' out. apply reach_drain.
  - intros k c ms d c'. apply drive_reach.
Qed.

End drive.

(** ** Construction *)

(** The voter mask of a new cluster of [count] nodes. *)
Definition votersOf (count : nat) : Z := 2 ^ Z.of_nat count - 1.

Definition peersOf (count : nat) (id : Z) : list Z := filter (fun j => j <> id) (allIds count).

Definition newNode (count : nat) (id : Z) : node :=
  freshNode id (peersOf count id) (electionTimeout id) newStore (votersOf count).

(** All masks of clusters of up to 64 nodes, by computation. *)
Definition mask_ok (count : nat) (id : Z) : bool :=
  match nodeBit id with
  | Some seen => match newNode_voters seen (peersOf count id) with inr v => v =? votersOf count | inl _ => false end
  | None => false
  end.

Lemma masks_ok : forallb (fun count => forallb (mask_ok count) (allIds count)) (seq 0 65) = true.
Proof. vm_compute. reflexivity. Qed.

Lemma newNode_spec count id :
  (count <= 64)%nat -> id ∈ allIds count ->
  NewNodeWithStore id (peersOf count id) (electionTimeout id) newStore = inr (newNode count id).
Proof.
  intros Hc Hid. pose proof masks_ok as H. rewrite forallb_forall in H.
  specialize (H count). rewrite <- list_elem_of_In, elem_of_seq, forallb_forall in H.
  specialize (H ltac:(lia) id). rewrite <- list_elem_of_In in H. specialize (H Hid). unfold mask_ok in H.
  unfold NewNodeWithStore. destruct (nodeBit id); [|done]. destruct (newNode_voters _ _) as [|v]; [done|].
  apply Z.eqb_eq in H. by subst v.
Qed.

Lemma New_fold count l : forall c,
  (count <= 64)%nat -> l ⊆ allIds count ->
  foldl (fun acc id =>
    c ← acc;
    let peers := filter (fun j => j <> id) (allIds count) in
    match NewNodeWithStore id peers (electionTimeout id) newStore with
    | inr n => Some (mkCluster (ids c ++ [id]) (<[id := n]> (nodes c)) ∅)
    | inl _ => None
    end) (Some c) l =
  Some (if l is [] then c
        else mkCluster (ids c ++ l) (foldl (fun m id => <[id := newNode count id]> m) (nodes c) l) ∅).
Proof.
  induction l as [|id l IH]; intros c Hc Hl; cbn [foldl]; [done|]. cbn [mbind option_bind].
  fold (peersOf count id). rewrite newNode_spec by (done || (apply Hl; apply list_elem_of_here)). cbn zeta.
  rewrite IH; [|done|intros x Hx; apply Hl; by right]. destruct l; [done|]. cbn [ids nodes].
  by rewrite <- app_assoc.
Qed.

Lemma New_spec count c :
  (count <= 64)%nat -> New count = Some c ->
  ids c = allIds count /\ stale c = ∅ /\
  forall id, nodes c !! id = if decide (id ∈ allIds count) then Some (newNode count id) else None.
Proof.
  intros Hc. unfold New. destruct (Nat.ltb_spec count 1) as [|Hge]; [done|].
  rewrite New_fold by done. intros [= <-]. destruct (allIds count) as [|i l] eqn:E.
  { destruct count; [lia|]. done. }
  rewrite <- E. cbn [ids nodes stale app]. split; [done|]. split; [done|]. intros id.
  clear. generalize (newNode count). generalize (allIds count). intros L f.
  cut (forall m : gmap Z node, foldl (fun m id => <[id := f id]> m) m L !! id = if decide (id ∈ L) then Some (f id) else m !! id).
  { intros H. by rewrite H, lookup_empty. }
  induction L as [|x L IH]; intros m; cbn [foldl]; [by rewrite decide_False by apply not_elem_of_nil|].
  rewrite IH. destruct (decide (id ∈ L)) as [H|H].
  - by rewrite decide_True by (by apply elem_of_cons; right).
  - destruct (decide (id = x)) as [->|Hne].
    + rewrite lookup_insert_eq, decide_True; [done|by apply elem_of_cons; left].
    + rewrite lookup_insert_ne, decide_False; [done| |done]. rewrite elem_of_cons. tauto.
Qed.

(** The abstract cluster a new cluster stands for. *)
Definition abstract (c : Cluster) : Election.cluster (S := stableStore) := Election.mkCluster (nodes c) [] [] [].

Lemma New_initial `{!DurableLog stableStore} count c :
  (count <= 64)%nat -> New count = Some c ->
  (forall b l, image newStore = Some (b, l) -> b = 0 /\ l = [zeroEntry]) ->
  initialLog (votersOf count) (abstract c) /\ is_u64 (votersOf count) /\ votersOf count <> 0 /\
  reach (votersOf count) (abstract c) count c [].
Proof.
  intros Hc HN Himg. destruct (New_spec count c Hc HN) as (Hids & _ & Hnodes).
  assert (1 <= count)%nat as H1 by (unfold New in HN; destruct (Nat.ltb_spec count 1); [done|done]).
  assert (is_u64 (votersOf count) /\ votersOf count <> 0) as [Hu HV].
  { unfold votersOf, is_u64. pose proof (Z.pow_le_mono_r 2 1 (Z.of_nat count)).
    pose proof (Z.pow_le_mono_r 2 (Z.of_nat count) 64). lia. }
  split; [|split; [done|split; [done|]]].
  - split; [|by intros j n Hj; cbn in Hj; rewrite Hnodes in Hj; case_decide; [injection Hj as <-|]|].
    2: { intros j n b l Hj. cbn in Hj. rewrite Hnodes in Hj. case_decide; [|done]. injection Hj as <-. apply Himg. }
    split; [|done|done|done]. intros j n Hj. cbn in Hj. rewrite Hnodes in Hj. case_decide as Hin; [|done].
    injection Hj as <-. exists (peersOf count j), (electionTimeout j), newStore.
    split; [by apply newNode_spec|done].
  - exists [], (abstract c). split_and!; [done..| |].
    + rewrite Hids. unfold allIds. by rewrite length_fmap, length_seq.
    + rewrite Hids. apply Forall_forall. intros id Hid. rewrite Hnodes, decide_True by done. by eexists.
Qed.

(** C7 Safety of the simulated stack.  Take the engine with its event heap over
    a new cluster of at most 64 Raft nodes on write-ahead logs, any generator,
    loss and delay, and any sequence of runs, isolations, injected faults,
    proposals, applications of what is committed, compactions, read barriers and
    transfers of leadership: the three checks of the simulator, election safety,
    index sanity and the committed prefix, pass at the end, and a checked run from
    there never reports one of them violated. *)
Theorem simulated_safety {R} (Intn Int63n : Z -> R -> Z * R) sha256 count c r dropPermille maxDelay acts
    (e : Engine Cluster Message R) :
  (count <= 64)%nat -> New count = Some c ->
  each (act Intn Int63n sha256 drive) acts (Engine.New r dropPermille maxDelay c) = Ret e ->
  (checkElectionSafety (Engine.cluster e) = None /\ checkIndexSanity (Engine.cluster e) = None /\
   checkCommittedPrefix (Engine.cluster e) = None) /\
  forall fuel steps e' v,
    RunChecked Intn Int63n sha256 (heapQueue Message) fuel steps SafetyInvariants e = Ret (e', v) -> v = None.
Proof.
  intros Hc HN HE. destruct (New_initial (DurableLog0 := volatile stableStore) count c Hc HN) as (H0 & Hu & HV & Hr); [done|].
  pose proof (fun c' ms => reach_safe (votersOf count) (abstract c) count c' ms Hu HV H0) as Hsafe.
  pose proof (reach_pool (votersOf count) (abstract c) count) as HP.
  pose proof (session_pool Intn Int63n sha256 drive _ count c r dropPermille maxDelay acts e Hr HE) as He.
  split; [exact (Hsafe _ _ (sd_pool _ _ _ _ He))|]. intros fuel steps e' v.
  apply (RunChecked_pool Intn Int63n sha256 drive _ count _ fuel steps _ e e' v He).
  intros k' c' ms _ H. destruct (Hsafe _ _ H) as (H1 & H2 & H3). repeat (constructor; [done|]). constructor.
Qed.

(** A snapshot from leader 1 for index 5, sent to the new node 2 of three. *)
Definition install5 : Message :=
  newMessage MsgInstallSnapshot 1 2 1 <| m_SnapshotIndex := 5 |> <| m_SnapshotTerm := 1 |>
    <| m_Snapshot := [1; 2] |> <| m_SnapshotOld := votersOf 3 |>.

(** The simulated store cannot install a snapshot.  Its [CompactLog] only
    fences entries the log has, so a follower whose log ends before the snapshot
    it is sent saves the snapshot, fails to compact, and stops for good. *)
Theorem simulated_install_faults :
  exists n', RaftNode.Step install5 (newNode 3 2) = Done () n' /\
    n_Faulted n' = true /\ s_LastIndex (snapshot (n_store n')) = 5 /\
    RaftWal.base (RaftWal.mem (wal (n_store n'))) = 0.
Proof. eexists. split; [vm_compute; reflexivity|]. vm_compute. auto. Qed.

(** Node 2 with two entries of term 1, the first one applied. *)
Definition entry1 : Entry := zeroEntry <| e_Term := 1 |> <| e_Command := 7 |>.

Definition stored2 : stableStore := mkStable (RaftWal.runAll [RaftWal.ReqAppend 1 entry1; RaftWal.ReqAppend 2 entry1] RaftWal.fresh) zeroSnapshot.

Definition node2 : node :=
  newNode 3 2 <| n_Log := [zeroEntry; entry1; entry1] |> <| n_Commit := 1 |> <| n_Applied := 1 |> <| n_store := stored2 |>.

(** A node that has stopped still takes snapshots: [Compact] does not look at
    [Faulted], publishes the snapshot and discards the log it covers. *)
Theorem stopped_node_compacts :
  exists n', RaftNode.Compact 1 [5] (node2 <| n_Faulted := true |>) = Done true n' /\ n_Faulted n' = true /\
    s_LastIndex (snapshot (n_store n')) = 1 /\ RaftWal.base (RaftWal.mem (wal (n_store n'))) = 1.
Proof. eexists. split; [vm_compute; reflexivity|]. vm_compute. auto. Qed.

(** A snapshot from leader 1 of term 2 whose last entry, at index 1, is not the
    one node 2 has there. *)
Definition install1 : Message :=
  newMessage MsgInstallSnapshot 1 2 2 <| m_SnapshotIndex := 1 |> <| m_SnapshotTerm := 2 |>
    <| m_Snapshot := [1] |> <| m_SnapshotOld := votersOf 3 |>.

(** The simulated store keeps what the node discards.  A node that installs a
    snapshot its log conflicts with drops its log; the store only fences it, so
    the conflicting entry after the snapshot is back after a restart. *)
Theorem simulated_install_resurrects :
  exists n' c', RaftNode.Step install1 (node2 <| n_Commit := 0 |> <| n_Applied := 0 |>) = Done () n' /\
    n_Log n' = [baseEntry 2] /\
    Restart 2 (mkCluster [2] {[2 := n']} ∅) = Some (c', None) /\
    n_Log <$> nodes c' !! 2 = Some [baseEntry 2; entry1].
Proof.
  eexists. eexists. split; [vm_compute; reflexivity|]. split; [vm_compute; reflexivity|].
  split; [vm_compute; reflexivity|]. vm_compute. reflexivity.
Qed.

Module Demo.

(** Every draw is zero: no loss and no delay. *)
Definition zero (n : Z) (r : unit) : Z * unit := (0, r).
Definition hash (b : bytes) : bytes := take 32 b.

Definition three : Cluster := mkCluster [1; 2; 3] (<[3 := newNode 3 3]> (<[2 := newNode 3 2]> (<[1 := newNode 3 1]> ∅))) ∅.

(** Node 1 is elected while node 3 is cut off, two commands are replicated, and
    node 1 applies and compacts its log; when node 3 is back it is sent the
    snapshot, and stops (see [simulated_install_faults]); at last node 1 hands its
    leadership to node 2. *)
Definition script : list (session op) :=
  [SInject [During "cut" 0 18 (Isolate "isolate[3]" [3])]; SRun 1000 12; SDrive (OpPropose 7); SDrive (OpPropose 8); SRun 1000 5;
   SDrive (OpApply 1); SDrive (OpCompact 1 [5]); SRun 1000 8; SDrive (OpTransferLeadership 1 2); SRun 1000 10].

(** Of each node: whether it stopped, its term, its base and its commit index. *)
Definition summary (e : Engine Cluster Message unit) : list (option (bool * Z * Z * Z)) :=
  (fun id => (fun n => (n_Faulted n, n_Term n, n_BaseIndex n, n_Commit n)) <$> nodes (Engine.cluster e) !! id) <$> [1; 2; 3].

Lemma simulated_safety_witness :
  exists e : Engine Cluster Message unit,
    each (act zero zero hash drive) script (Engine.New tt 0 0 three) = Ret e /\
    Leader (Engine.cluster e) = 2 /\
    summary e = [Some (false, 2, 3, 4); Some (false, 2, 0, 4); Some (true, 1, 0, 0)] /\
    (checkElectionSafety (Engine.cluster e) = None /\ checkIndexSanity (Engine.cluster e) = None /\
     checkCommittedPrefix (Engine.cluster e) = None).
Proof.
  assert (match each (act zero zero hash drive) script (Engine.New tt 0 0 three) with
          | Ret e => Leader (Engine.cluster e) = 2 /\
              summary e = [Some (false, 2, 3, 4); Some (false, 2, 0, 4); Some (true, 1, 0, 0)]
          | _ => False
          end) as H by (vm_compute; split; reflexivity).
  destruct (each (act zero zero hash drive) script (Engine.New tt 0 0 three)) as [e| |] eqn:E; [|destruct H..].
  exists e. split; [reflexivity|]. split; [exact (proj1 H)|]. split; [exact (proj2 H)|].
  apply (simulated_safety zero zero hash 3 three tt 0 0 script e); [lia|vm_compute; reflexivity|exact E].
Defined.

End Demo.
End RaftCluster.
