(* ===== verification/Restarts.v ===== *)
(** * Simulated crashes and restarts

    [Restart] of [dst/raftcluster/cluster.go] in runs that change no members and
    take no snapshots: the write-ahead log of a node always reads back as what the
    node has stored, so a restart succeeds, and the abstract cluster of [LogSafety]
    takes the same step.  Hence runs with restarts never violate the safety checks
    either. *)

From S2P Require Import Prelude Bytes Wal RaftTypes Quorum RaftNode RaftInv RaftClient RaftVotes RaftWal Widths.
From S2P Require Import Election LogHistory RaftLogs RaftLead LogStores LogSafety EventHeap Engine EngineInv RaftCluster.

Module Restarts.

(** ** The size of a log *)

Definition logBytes (w : RaftWal.store) : Z :=
  len (MemoryDevice.durable (Log.device (RaftWal.log w))) + len (MemoryDevice.pending (Log.device (RaftWal.log w))).

Lemma append_bytes e (w : RaftWal.store) : logBytes w <= logBytes (RaftWal.append e w).1.
Proof.
  unfold RaftWal.append, Log.Append, logBytes, len. cbn. rewrite !length_app. cbn. lia.
Qed.

Lemma perform_bytes r (w : RaftWal.store) : logBytes w <= logBytes (RaftWal.perform r w).1.
Proof.
  rewrite RaftWal.perform_unfold. destruct (RaftWal.check r (RaftWal.mem w)); [cbn; lia|].
  pose proof (append_bytes (RaftWal.recordOf r (RaftWal.mem w)) w) as H.
  destruct (RaftWal.append _ w) as [w' [e|]]; exact H.
Qed.

Lemma rinv_size (w : RaftWal.store) es : RaftWal.rinv w es -> logBytes w = Z.of_nat (length es * RecordSize).
Proof.
  intros [Hh _ _].
  assert (MemoryDevice.durable (Log.device (RaftWal.log w)) = imageFrom 0 (take (length es) es)) as Hs by exact (holds_stable _ _ _ Hh).
  assert (MemoryDevice.pending (Log.device (RaftWal.log w)) = imageFrom (length es) (drop (length es) es)) as Hp
    by exact (holds_staged _ _ _ Hh).
  unfold logBytes, len. rewrite Hs, Hp, take_ge, drop_ge, !length_imageFrom by done. cbn [length]. lia.
Qed.

Lemma rinv_bytes (w : RaftWal.store) es : RaftWal.rinv w es -> Z.of_nat (length es) <= logBytes w.
Proof. intros H%rinv_size. rewrite H. unfold RecordSize. lia. Qed.

Lemma replay_length v e v' : RaftWal.replay v e = inr v' -> len (RaftWal.data v') <= Z.max 1 (len (RaftWal.data v) + 1).
Proof.
  unfold RaftWal.replay, len. intros H. repeat case_match; simplify_eq; cbn; try lia.
  - rewrite length_drop. lia.
  - unfold RaftWal.store1. rewrite length_app. cbn [length]. case_match; rewrite ?length_take; lia.
Qed.

Lemma replayAll_length es : forall v v',
  RaftWal.replayAll v es = inr v' -> len (RaftWal.data v') <= len (RaftWal.data v) + Z.of_nat (length es).
Proof.
  induction es as [|e es IH]; intros v v'; cbn [RaftWal.replayAll length]; [intros [= <-]; lia|].
  destruct (RaftWal.replay v e) as [|v1] eqn:E; [done|]. intros H%IH. apply replay_length in E.
  pose proof (Nat2Z.is_nonneg (length (RaftWal.data v))). unfold len in *. lia.
Qed.

(** ** Logs that read back *)

(** The log has been written in order, without snapshots and configurations. *)
Record intact (w : RaftWal.store) : Prop := {
  in_rinv : exists es, RaftWal.rinv w es;
  in_base : RaftWal.base (RaftWal.mem w) = 0;
  in_data : Forall (fits True) (RaftWal.data (RaftWal.mem w));
  in_hard : wf_hard (RaftWal.hard (RaftWal.mem w))
}.

Lemma fresh_intact : intact RaftWal.fresh.
Proof.
  split; [exists []; apply RaftWal.fresh_rinv|done| |done]. apply Forall_singleton, fits_zeroEntry.
Qed.

Definition writes (r : RaftWal.request) : Prop :=
  match r with
  | RaftWal.ReqHard h => wf_hard h
  | RaftWal.ReqAppend i e => is_u64 i /\ fits True e
  | RaftWal.ReqReset _ _ | RaftWal.ReqCompact _ => False
  end.

Lemma effect_intact r (w : RaftWal.store) :
  intact w -> writes r -> RaftWal.base (RaftWal.effect r (RaftWal.mem w)) = 0 /\
  Forall (fits True) (RaftWal.data (RaftWal.effect r (RaftWal.mem w))) /\ wf_hard (RaftWal.hard (RaftWal.effect r (RaftWal.mem w))).
Proof.
  intros [_ Hb Hd Hh] Hr. destruct r as [h|i e|i t|i]; cbn in *; [done| |done|done]. split; [done|]. split; [|done].
  unfold RaftWal.store1. apply Forall_app. split; [destruct (_ <? _); [by apply Forall_take|done]|]. apply Forall_singleton, Hr.
Qed.

Lemma perform_intact r (w : RaftWal.store) :
  intact w -> writes r -> logBytes w <= RaftCluster.maxInt -> intact (RaftWal.perform r w).1.
Proof.
  intros Hw Hr Hb. pose proof Hw as [[es Hes] Hb0 Hd Hh]. pose proof (rinv_bytes w es Hes) as Hlen.
  assert (RaftWal.room es) as Hroom by (unfold RaftWal.room, RaftCluster.maxInt in *; lia).
  pose proof (replayAll_length es _ _ (RaftWal.ri_replay _ _ Hes)) as Hdata.
  change (len (RaftWal.data RaftWal.emptyView)) with 1 in Hdata.
  destruct (RaftWal.check r (RaftWal.mem w)) as [e|] eqn:Hc; [by rewrite RaftWal.perform_unfold, Hc|].
  assert (RaftWal.wf_request r) as Hreq.
  { destruct r as [h|i e|i t|i]; cbn in *; [done| |done|done]. destruct Hr as [Hi He]. split; [|apply He]. rewrite Hb0 in Hc.
    destruct (_ || _) eqn:E; [done|]. apply orb_false_elim in E as [E1%Z.leb_gt E2%Z.ltb_ge].
    rewrite w64_small in E2; unfold is_u64, RaftWal.resetIndex, maxu64, RaftCluster.maxInt in *; [lia|]. unfold len in *. lia. }
  pose proof (RaftWal.perform_rinv w es r Hes Hroom Hreq) as H. rewrite Hc in H. destruct H as (w' & -> & Hm & Hes').
  destruct (effect_intact r w Hw Hr) as (H1 & H2 & H3). split; cbn; rewrite ?Hm; eauto.
Qed.

(** An operation leaves the log intact as long as it fits a slice. *)
Definition kept (w : RaftWal.store) : Prop := logBytes w <= RaftCluster.maxInt -> intact w.

Lemma perform_kept r (w : RaftWal.store) : kept w -> writes r -> kept (RaftWal.perform r w).1.
Proof.
  intros Hw Hr Hb. pose proof (perform_bytes r w). apply perform_intact; [apply Hw|done|]; lia.
Qed.

#[global] Instance kept_store b :
  TypedStore RaftCluster.stableStore True (fun s => b <= logBytes (RaftCluster.wal s) /\ kept (RaftCluster.wal s)).
Proof.
  split.
  - intros h s Hh [Hb Hk]. pose proof (perform_bytes (RaftWal.ReqHard h) (RaftCluster.wal s)) as H1.
    pose proof (perform_kept (RaftWal.ReqHard h) _ Hk Hh) as H2. cbn in *. unfold RaftCluster.SaveHardState.
    destruct (RaftWal.SaveHardState h _) as [w err]. cbn in *. split; [lia|done].
  - intros i e s Hi He [Hb Hk]. pose proof (perform_bytes (RaftWal.ReqAppend i e) (RaftCluster.wal s)) as H1.
    pose proof (perform_kept (RaftWal.ReqAppend i e) _ Hk (conj Hi He)) as H2. cbn in *. unfold RaftCluster.Append.
    destruct (RaftWal.Append i e _) as [w err]. cbn in *. split; [lia|done].
  - by intros ops snap s [= <-] _ Hs.
  - intros ops i s _ Hf. by destruct Hf.
Qed.

(** ** The log a restart recovers *)

(** What a restart reads as long as nothing was compacted. *)
Definition readable (s : RaftCluster.stableStore) : option (Z * list Entry) :=
  match LogStores.logOf (RaftCluster.wal s) with
  | Some (b, l) => if b <=? 0 then Some (b, l) else None
  | None => None
  end.

#[global] Instance readable_log : DurableLog RaftCluster.stableStore.
Proof.
  refine {| image := readable |}.
  - intros h s s' r x. cbn [SaveHardState RaftCluster.store]. unfold RaftCluster.SaveHardState.
    destruct (RaftWal.SaveHardState h (RaftCluster.wal s)) as [w err] eqn:E. intros [= <- _]. unfold readable. cbn [RaftCluster.wal].
    by rewrite (LogStores.save_logOf _ _ _ _ E).
  - intros i e s s' r b l'. cbn [Append RaftCluster.store]. unfold RaftCluster.Append.
    destruct (RaftWal.Append i e (RaftCluster.wal s)) as [w err] eqn:E. intros [= <- <-]. unfold readable. cbn [RaftCluster.wal].
    destruct (LogStores.logOf w) as [[b1 l1]|] eqn:El; [|done]. destruct (b1 <=? 0) eqn:Hb; [|done]. intros [= -> ->].
    destruct (LogStores.append_logOf _ _ _ _ _ _ _ E El) as (l & -> & Hl). exists l. by rewrite Hb.
  - intros ops snap s s' r b' l' [= <-]. cbn. intros [= <- <-] Hi. exists b', l'. split; [exact Hi|by left].
  - intros ops snap s s1 s2 r b' l' [= <-]. cbn. intros [= <-]. unfold RaftCluster.CompactLog. cbn [RaftCluster.wal].
    destruct (RaftWal.CompactLog (s_LastIndex snap) (RaftCluster.wal s)) as [w err] eqn:E. intros [= <- <-].
    pose proof (RaftWal.perform_unfold (RaftWal.ReqCompact (s_LastIndex snap)) (RaftCluster.wal s)) as HP. cbn [RaftWal.perform] in HP.
    rewrite E in HP. set (v := RaftWal.mem (RaftCluster.wal s)) in *.
    destruct (RaftWal.check _ v) as [e|] eqn:Hc.
    { injection HP as -> ->. intros Hi. exists b', l'. split; [exact Hi|]. by left. }
    pose proof (RaftWal.append_mem (RaftWal.recordOf (RaftWal.ReqCompact (s_LastIndex snap)) v) (RaftCluster.wal s)) as Hm.
    destruct (RaftWal.append _ _) as [w1 [e|]]; cbn in Hm; injection HP as -> ->; unfold readable, LogStores.logOf; cbn.
    { rewrite Hm. intros Hi. exists b', l'. split; [exact Hi|]. by left. }
    cbn in Hc. destruct (Z.leb_spec (s_LastIndex snap) (RaftWal.base v)); [done|].
    destruct (Z.leb_spec (s_LastIndex snap) 0); [|done]. intros _. exists (RaftWal.base v), (RaftWal.data v).
    fold v. destruct (Z.leb_spec (RaftWal.base v) 0); [|lia]. split; [done|]. lia.
Defined.

Lemma intact_readable s : intact (RaftCluster.wal s) ->
  image s = Some (0, RaftWal.data (RaftWal.mem (RaftCluster.wal s))).
Proof. intros [_ Hb _ _]. cbn. unfold readable, LogStores.logOf. by rewrite Hb. Qed.

(** ** The pool of a run *)

Lemma NewNode_voters count id timeout (store : RaftCluster.stableStore) :
  (count <= 64)%nat -> id ∈ RaftCluster.allIds count ->
  exists f, NewNodeWithStore id (RaftCluster.peersOf count id) timeout store = inr f /\ n_votersOld f = RaftCluster.votersOf count.
Proof.
  intros Hc Hid. pose proof (RaftCluster.newNode_spec count id Hc Hid) as H. unfold NewNodeWithStore in *.
  destruct (nodeBit id); [|done]. destruct (newNode_voters _ _) as [|v]; [done|]. eexists. split; [reflexivity|].
  by injection H as ->.
Qed.

Lemma typed_store {S} `{!StableStore S} fixed peers (I J : S -> Prop) (n : Node S) :
  typed fixed peers I n -> J (n_store n) -> typed fixed peers J n.
Proof. intros [] HJ. by split. Qed.

Lemma allIds_u32 count id : (count <= 64)%nat -> id ∈ RaftCluster.allIds count -> is_u32 id.
Proof. intros Hc (i & -> & Hi%elem_of_seq)%list_elem_of_fmap_1. unfold is_u32. lia. Qed.

Section pool.
Variables (count : nat) (c0 : Election.cluster (S := RaftCluster.stableStore)).
Hypothesis (Hcount : (count <= 64)%nat).
Abbreviation V := (RaftCluster.votersOf count).

(** The log of a node is intact and fits a slice. *)
Definition sound (s : RaftCluster.stableStore) : Prop :=
  logBytes (RaftCluster.wal s) <= RaftCluster.maxInt /\ intact (RaftCluster.wal s).

Definition healthy (id : Z) (n : RaftCluster.node) : Prop := typed True (RaftCluster.peersOf count id) sound n.

Record ready (c : RaftCluster.Cluster) (ms : list Message) : Prop := {
  rd_reach : RaftCluster.reach V c0 count c ms;
  rd_nodes : forall id n, RaftCluster.nodes c !! id = Some n -> id ∈ RaftCluster.allIds count /\ healthy id n;
  rd_msgs : Forall (wf_message True) ms;
  rd_stale : RaftCluster.stale c = ∅;
  rd_ids : RaftCluster.ids c = RaftCluster.allIds count
}.

(** The nodes stay healthy. *)
Lemma onNode_healthy {A} (op : MN RaftCluster.stableStore A) (P : A -> Prop) id c c' a ms :
  (forall peers I `{!TypedStore RaftCluster.stableStore True I}, types True peers I op P) ->
  ready c ms -> RaftCluster.onNode op id c = Some (c', a) ->
  P a /\ (RaftCluster.stale c' = ∅ /\ RaftCluster.ids c' = RaftCluster.allIds count) /\
  forall j n, RaftCluster.nodes c' !! j = Some n -> j ∈ RaftCluster.allIds count /\ healthy j n.
Proof.
  intros Hop [_ Hn _ Hst Hids]. unfold RaftCluster.onNode. destruct (RaftCluster.nodes c !! id) as [n|] eqn:E; [|done].
  cbn [mbind option_bind]. destruct (_ && _); [|done]. destruct (op n) as [x n'|] eqn:Eop; [|done].
  destruct (Z.leb_spec (RaftCluster.diskBytes (n_store n')) RaftCluster.maxInt) as [Hb|]; [|done]. intros [= <- <-].
  destruct (Hn id n E) as [Hid Hty]. pose proof (ty_store _ _ _ _ Hty) as [_ Hint].
  set (b := logBytes (RaftCluster.wal (n_store n))).
  assert (typed True (RaftCluster.peersOf count id) (fun s => b <= logBytes (RaftCluster.wal s) /\ kept (RaftCluster.wal s)) n) as H0.
  { eapply typed_store; [exact Hty|]. split; [subst b; lia|by intros _]. }
  destruct (wlp_Done _ _ n x n' (Hop _ _ (kept_store b) n H0) Eop) as [H1 HP]. split; [done|]. split; [done|].
  intros j m. cbn. destruct (decide (j = id)) as [->|Hne].
  - rewrite lookup_insert_eq. intros [= <-]. split; [done|]. eapply typed_store; [exact H1|].
    destruct (ty_store _ _ _ _ H1) as [_ Hk]. split; [exact Hb|by apply Hk].
  - rewrite lookup_insert_ne by done. apply Hn.
Qed.

Lemma ready_loss c ms ms' : ready c ms -> ms' ⊆ ms -> ready c ms'.
Proof.
  intros [Hr Hn Hm Hs Hi] Hsub. split; [by eapply RaftCluster.reach_subset|done| |done|done].
  rewrite Forall_forall in *. auto.
Qed.

Lemma Tick_ready id c c' ms : ready c ms -> RaftCluster.Tick id c = Some c' -> ready c' ms.
Proof.
  intros Hr HT. pose proof (RaftCluster.reach_tick V c0 count id c c' ms (rd_reach _ _ Hr) HT) as H1.
  unfold RaftCluster.Tick in HT. destruct (RaftCluster.onNode _ id c) as [[c1 r]|] eqn:E; [|done]. injection HT as <-.
  destruct (onNode_healthy _ (fun _ => True) _ _ _ _ _ (fun peers I HI => Tick_types True peers I) Hr E) as (_ & [Hs Hi] & Hn).
  split; [done..|apply Hr|done|done].
Qed.

Lemma Deliver_ready m c c' ms : ready c (m :: ms) -> RaftCluster.Deliver (m_To m) m c = Some c' -> ready c' ms.
Proof.
  intros Hr HD. eapply (ready_loss _ (m :: ms)); [|by apply list_subseteq_cons].
  pose proof (RaftCluster.reach_deliver V c0 count (m_To m) m c c' _ (rd_reach _ _ Hr) (list_elem_of_here _ _) eq_refl HD) as H1.
  pose proof (rd_msgs _ _ Hr) as Hm. apply Forall_cons in Hm as [Hm _].
  unfold RaftCluster.Deliver in HD. destruct (_ <? _); [|done].
  destruct (RaftCluster.onNode _ _ c) as [[c1 r]|] eqn:E; [|done]. injection HD as <-.
  destruct (onNode_healthy _ (fun _ => True) _ _ _ _ _ (fun peers I HI => Step_types True peers I m Hm) Hr E) as (_ & [Hs Hi] & Hn).
  split; [done..|apply Hr|done|done].
Qed.

Lemma Drain_ready id c c' out ms : ready c ms -> RaftCluster.Drain id c = Some (c', out) -> ready c' (out ++ ms).
Proof.
  intros Hr HD. pose proof (RaftCluster.reach_drain V c0 count id c c' out ms (rd_reach _ _ Hr) HD) as H1.
  destruct (onNode_healthy _ (Forall (wf_message True)) _ _ _ _ _
    (fun peers I HI => Drain_types True peers I [] (List.Forall_nil _)) Hr HD) as (Ho & [Hs Hi] & Hn).
  split; [done..| |done|done]. apply Forall_app. split; [done|apply Hr].
Qed.

Lemma tryNodes_ready op l : forall c c' r ms,
  (forall peers I `{!TypedStore RaftCluster.stableStore True I}, types True peers I op (fun _ => True)) ->
  ready c ms -> (forall c c' r id, RaftCluster.reach V c0 count c ms -> RaftCluster.onNode op id c = Some (c', r) ->
    RaftCluster.reach V c0 count c' ms) ->
  RaftCluster.tryNodes op l c = Some (c', r) -> ready c' ms.
Proof.
  induction l as [|id l IH]; intros c c' r ms Hop Hr Hact; cbn [RaftCluster.tryNodes]; [by intros [= <- <-]|].
  destruct (RaftCluster.onNode op id c) as [[c1 ok]|] eqn:E; cbn; [|done].
  destruct (onNode_healthy op (fun _ => True) _ _ _ _ _ Hop Hr E) as (_ & [Hs Hi] & Hn).
  assert (ready c1 ms) as H1 by (split; [eapply Hact; [apply Hr|exact E]|done|apply Hr|done|done]).
  destruct ok; [by intros [= <- <-]|by apply IH].
Qed.

Lemma Propose_ready command c c' r ms : is_u64 command -> ready c ms -> RaftCluster.Propose command c = Some (c', r) -> ready c' ms.
Proof.
  intros Hc Hr. apply (tryNodes_ready (RaftNode.Propose command)); [intros peers I HI; by apply Propose_types|done|].
  intros c1 c2 r1 id. by apply (RaftCluster.reach_onNode V c0 count _ (APropose id command)).
Qed.

(** The store of a node after a crash. *)
Lemma reopened n : sound (n_store n) ->
  exists d w, MemoryDevice.Crash 0 (RaftCluster.disk (n_store n)) = inr d /\ RaftWal.Open d = inr w /\
    RaftWal.mem w = RaftWal.mem (RaftCluster.wal (n_store n)) /\ forall snap, sound (RaftCluster.mkStable w snap).
Proof.
  intros [Hb [[es Hes] Hb0 Hd Hh]]. unfold RaftCluster.disk. set (d := Log.device _) in *.
  assert (MemoryDevice.Crash 0 d = inr (MemoryDevice.New (MemoryDevice.durable d ++ []))) as Hc.
  { unfold MemoryDevice.Crash. destruct (Z.ltb_spec (len (MemoryDevice.pending d)) 0); [unfold len in *; lia|done]. }
  eexists. destruct (RaftWal.crash_rinv _ _ 0 _ Hes Hc) as (w & HO & Hm & Hw). exists w. split; [exact Hc|]. split; [done|].
  split; [done|]. intros snap. split; cbn.
  - by rewrite (rinv_size _ _ Hw), <- (rinv_size _ _ Hes).
  - split; [by exists es|by rewrite Hm..].
Qed.

(** The abstract cluster takes the same restart. *)
Lemma restart_reach id c ms n n' stable :
  RaftCluster.reach V c0 count c ms -> RaftCluster.nodes c !! id = Some n -> id ∈ RaftCluster.allIds count ->
  n_Peers n = RaftCluster.peersOf count id -> sound (n_store n) -> 
  RaftWal.mem (RaftCluster.wal stable) = RaftWal.mem (RaftCluster.wal (n_store n)) ->
  let v := RaftWal.mem (RaftCluster.wal (n_store n)) in
  NewRecoveredNode id (n_Peers n) (RaftCluster.electionTimeout id) stable (RaftWal.hard v) (RaftWal.data v) = Done () n' ->
  RaftCluster.reach V c0 count (RaftCluster.mkCluster (RaftCluster.ids c) (<[id := n']> (RaftCluster.nodes c)) ∅) ms.
Proof.
  intros (l & cl & Hrun & Hcl & Hms & Hlen & Hids) E Hid Hpeers [_ Hint] Hmem v HN.
  pose proof Hint as [[es Hes] Hb0 Hd Hh]. fold v in Hb0, Hd, Hh.
  assert (image stable = Some (0, RaftWal.data v)) as Himg.
  { cbn. unfold readable, LogStores.logOf. rewrite Hmem. fold v. by rewrite Hb0. }
  assert (RaftWal.data v <> []) as Hne by apply (RaftWal.wfv_data _ (RaftWal.ri_wf _ _ Hes)).
  set (a := ARestart id (n_Peers n) (RaftCluster.electionTimeout id) stable (RaftWal.data v)).
  assert (execLog V a cl = Some (Election.observe id n' cl)) as Hex.
  { unfold execLog, a. cbn [allowed Election.exec]. unfold sameImage, recovers, mayRestart. rewrite Hcl, E.
    rewrite Himg, (intact_readable _ Hint), decide_False by done. fold v. rewrite !bool_decide_eq_true_2 by done. cbn [andb mbind option_bind].
    destruct (NewNode_voters count id (RaftCluster.electionTimeout id) stable Hcount Hid) as (f & Hf & HV). rewrite Hpeers, Hf.
    assert (durable stable = RaftWal.hard v) as Hdur by (cbn; by rewrite Hmem).
    rewrite bool_decide_eq_true_2 by (rewrite Hdur; done). cbn [andb].
    assert (forallb cfgfree (RaftWal.data v) = true) as ->.
    { apply forallb_forall. intros e He%list_elem_of_In. rewrite Forall_forall in Hd. destruct (Hd e He) as [_ Hpl].
      destruct (Hpl Logic.I) as (_ & _ & Hcfg). unfold cfgfree. by rewrite Hcfg. }
    rewrite HV, Z.eqb_refl. cbn [andb]. rewrite Hpeers in HN. unfold Election.restart. by rewrite Hdur, HN. }
  exists (l ++ [a]), (Election.observe id n' cl). split; [by rewrite (RaftCluster.run_snoc V c0 l a cl Hrun)|]. cbn.
  split; [by rewrite Hcl|]. split; [done|]. split; [done|]. by apply RaftCluster.known_insert.
Qed.

(** A restart succeeds. *)
Lemma Restart_ready id c c' err ms :
  is_Some (RaftCluster.nodes c !! id) -> ready c ms -> RaftCluster.Restart id c = Some (c', err) -> err = None /\ ready c' ms.
Proof.
  intros [n E] Hr HR. pose proof Hr as [_ Hn Hm Hst Hi]. destruct (Hn id n E) as [Hid Hty].
  destruct (ty_Peers _ _ _ _ Hty) as [Hp32 Hpeers]. specialize (Hpeers Logic.I). pose proof (ty_store _ _ _ _ Hty) as Hs.
  destruct (reopened n Hs) as (d & w & Hc & HO & Hmem & Hsound). pose proof Hs as [_ [_ Hb0 Hd Hh]].
  unfold RaftCluster.Restart, RaftCluster.storeOf in HR. rewrite E, Hst, lookup_empty in HR. cbn zeta in HR.
  change (default (n_store n) None) with (n_store n) in HR. rewrite Hc, HO in HR. unfold RaftWal.StateWithBase in HR.
  rewrite Hmem, Hb0 in HR. cbn [negb Z.eqb] in HR. set (stable := RaftCluster.mkStable w _) in *.
  destruct (NewRecoveredNode _ _ _ _ _ _) as [[] n'|] eqn:EN; [|done]. injection HR as <- <-. split; [done|].
  rewrite delete_empty. split; [|..|done|done|done].
  - by eapply (restart_reach id c ms n n' stable); [apply Hr|..].
  - intros j m. cbn. destruct (decide (j = id)) as [->|Hne]; [|rewrite lookup_insert_ne by done; apply Hn].
    rewrite lookup_insert_eq. intros [= <-]. split; [done|].
    eapply (NewRecoveredNode_typed True (RaftCluster.peersOf count id) sound); [..|exact EN]; [by eapply allIds_u32|done|done|apply w64_range|apply Hsound|done|done].
Qed.

Lemma call_ready {A} (op : MN RaftCluster.stableStore A) (a : Election.action (S := RaftCluster.stableStore)) P id c c' r ms :
  (forall cl, Election.exec V a cl = Election.runOp op id cl) ->
  (forall cl n, room id cl = true -> c_nodes cl !! id = Some n -> allowed a cl = true) ->
  (forall peers I `{!TypedStore RaftCluster.stableStore True I}, types True peers I op P) ->
  ready c ms -> RaftCluster.onNode op id c = Some (c', r) -> ready c' ms.
Proof.
  intros Ha Hal Hop Hr E. destruct (onNode_healthy op P _ _ _ _ _ Hop Hr E) as (_ & [Hs Hi] & Hn).
  split; [|done|apply Hr|done|done]. eapply (RaftCluster.reach_onNode V c0 count op a); [done..|apply Hr|exact E].
Qed.

(** What a test does: it proposes commands, crashes and restarts nodes, and calls
    the nodes it gets from [Node]. *)
Inductive op :=
| OpPropose (command : Z)
| OpRestart (id : Z)
| OpApplyEntries (id : Z)
| OpProposeRequest (id operation clientID requestID key value : Z)
| OpStartReadIndex (id context : Z)
| OpTransferLeadership (id target : Z).

Definition drive (o : op) (c : RaftCluster.Cluster) : option RaftCluster.Cluster :=
  match o with
  | OpPropose command => fst <$> RaftCluster.Propose (w64 command) c
  | OpRestart id => fst <$> RaftCluster.Restart id c
  | OpApplyEntries id => fst <$> RaftCluster.onNode (RaftNode.ApplyEntries []) id c
  | OpProposeRequest id operation clientID requestID key value =>
      fst <$> RaftCluster.onNode (RaftNode.ProposeRequest (w8 operation) (w64 clientID) (w64 requestID) (w64 key) (w64 value)) id c
  | OpStartReadIndex id context => fst <$> RaftCluster.onNode (RaftNode.StartReadIndex (w64 context)) id c
  | OpTransferLeadership id target => fst <$> RaftCluster.onNode (RaftNode.TransferLeadership (w32 target)) id c
  end.

Lemma drive_ready o c c' ms : ready c ms -> drive o c = Some c' -> ready c' ms.
Proof.
  intros Hr. destruct o as [command|id|id|id operation clientID requestID key value|id context|id target]; cbn [drive];
    match goal with |- context [fst <$> ?x] => destruct x as [[c1 r]|] eqn:E; [|done] end; intros [= <-].
  - eapply Propose_ready; [|exact Hr|exact E]. apply w64_range.
  - destruct (RaftCluster.nodes c !! id) as [n|] eqn:En; [by eapply Restart_ready|].
    unfold RaftCluster.Restart in E. rewrite En in E. by injection E as <- _.
  - eapply (call_ready _ (AApplyEntries id)); [done..| |exact Hr|exact E]. intros peers I HI. by apply ApplyEntries_types.
  - eapply (call_ready _ (AProposeRequest id _ _ _ _ _)); [done..| |exact Hr|exact E].
    intros peers I HI. apply ProposeRequest_types; done || apply w64_range || apply Z.mod_pos_bound; lia.
  - eapply (call_ready _ (AStartReadIndex id _)); [done..| |exact Hr|exact E]. intros peers I HI. apply StartReadIndex_types, w64_range.
  - eapply (call_ready _ (ATransferLeadership id _)); [done..| |exact Hr|exact E].
    intros peers I HI. apply TransferLeadership_types, Z.mod_pos_bound. lia.
Qed.

#[global] Instance ready_pool : Pool drive (fun _ c ms => ready c ms) count.
Proof.
  split.
  - intros k k' c ms ms' Hr _ Hs. eapply ready_loss; [exact Hr|]. intros m Hm. by eapply elem_of_submseteq.
  - intros k c ms Hr. destruct (rd_reach _ _ Hr) as (_ & _ & _ & _ & _ & Hl & _). exact Hl.
  - intros k c ms id c'. apply Tick_ready.
  - intros k c m ms c'. apply Deliver_ready.
  - intros k c ms id c' out. apply Drain_ready.
  - intros k c ms d c'. apply drive_ready.
Qed.

End pool.

(** ** Runs from a new cluster *)

Lemma New_ready count c : (count <= 64)%nat -> RaftCluster.New count = Some c ->
  ready count (RaftCluster.abstract c) c [] /\
  forall c' ms, ready count (RaftCluster.abstract c) c' ms ->
    Forall (fun i => inv_Check i c' = None) RaftCluster.SafetyInvariants.
Proof.
  intros Hc HN. destruct (RaftCluster.New_initial count c Hc HN) as (H0 & Hu & HV & Hr).
  { by intros b l [= <- <-]. }
  split.
  - destruct (RaftCluster.New_spec count c Hc HN) as (Hids & Hst & Hnodes). split; [done| |constructor|done|done].
    intros id n. rewrite Hnodes. case_decide as Hid; [|done]. intros [= <-]. split; [done|].
    eapply (NewNodeWithStore_typed True _ sound); [| |done| | |by apply RaftCluster.newNode_spec].
    + by eapply allIds_u32.
    + apply Forall_forall. intros p [_ Hp]%list_elem_of_filter. by eapply allIds_u32.
    + apply w64_range.
    + split; [by vm_compute|apply fresh_intact].
  - intros c' ms H. destruct (RaftCluster.reach_safe _ _ _ c' ms Hu HV H0 (rd_reach _ _ _ _ H)) as (H1 & H2 & H3).
    repeat (constructor; [done|]). constructor.
Qed.

(** C6 Safety with crashes.  Take the engine over a new cluster of at most 64 Raft
    nodes on write-ahead logs, any generator, loss and delay, and any sequence of
    runs, isolations, injected faults, proposals, applications of what is committed,
    read barriers, transfers of leadership and restarts, each of which discards a node and rebuilds it from the bytes of its log: the three checks of
    the simulator pass at the end, a checked run from there never reports one of
    them violated, and no restart of a node fails. *)
Theorem restart_safety {R} (Intn Int63n : Z -> R -> Z * R) sha256 count c r dropPermille maxDelay acts
    (e : Engine RaftCluster.Cluster Message R) :
  (count <= 64)%nat -> RaftCluster.New count = Some c ->
  each (act Intn Int63n sha256 drive) acts (Engine.New r dropPermille maxDelay c) = Ret e ->
  CheckInvariants RaftCluster.SafetyInvariants e = None /\
  (forall fuel steps e' v,
     RunChecked Intn Int63n sha256 (heapQueue Message) fuel steps RaftCluster.SafetyInvariants e = Ret (e', v) -> v = None) /\
  (forall id c' err, is_Some (RaftCluster.nodes (Engine.cluster e) !! id) ->
     RaftCluster.Restart id (Engine.cluster e) = Some (c', err) -> err = None).
Proof.
  intros Hc HN HE. destruct (New_ready count c Hc HN) as [Hr Hsafe]. pose proof (ready_pool count (RaftCluster.abstract c) Hc) as HP.
  pose proof (session_pool Intn Int63n sha256 drive _ count c r dropPermille maxDelay acts e Hr HE) as He.
  split; [apply CheckInvariants_none; eapply Hsafe, He|]. split.
  - intros fuel steps e' v. apply (RunChecked_pool Intn Int63n sha256 drive _ count _ fuel steps _ e e' v He).
    intros k' c' ms _ H. by eapply Hsafe.
  - intros id c' err Hid HR. by eapply (Restart_ready count _ Hc); [exact Hid|apply He|exact HR].
Qed.

Module Demo.

Abbreviation zero := RaftCluster.Demo.zero.
Abbreviation hash := RaftCluster.Demo.hash.
Abbreviation three := RaftCluster.Demo.three.

(** Node 1 is elected, commits a command, crashes and comes back; a new leader is
    elected and commits another one. *)
Definition script : list (session op) :=
  [SRun 1000 12; SDrive (OpPropose 7); SRun 1000 5; SDrive (OpRestart 1); SIsolate 1; SRun 1000 40; SDrive (OpPropose 8); SRun 1000 5].

Lemma restart_safety_witness :
  exists e : Engine RaftCluster.Cluster Message unit,
    each (act zero zero hash drive) script (Engine.New tt 0 0 three) = Ret e /\
    (RaftCluster.Leader (Engine.cluster e) <> 0 /\
     (fun n => (n_Term n, n_Commit n)) <$> RaftCluster.nodes (Engine.cluster e) !! 1 = Some (2, 4)) /\
    CheckInvariants RaftCluster.SafetyInvariants e = None.
Proof.
  assert (match each (act zero zero hash drive) script (Engine.New tt 0 0 three) with
          | Ret e => RaftCluster.Leader (Engine.cluster e) <> 0 /\
              (fun n => (n_Term n, n_Commit n)) <$> RaftCluster.nodes (Engine.cluster e) !! 1 = Some (2, 4)
          | _ => False
          end) as H by (vm_compute; split; [discriminate|reflexivity]).
  destruct (each (act zero zero hash drive) script (Engine.New tt 0 0 three)) as [e| |] eqn:E; [|destruct H..].
  exists e. split; [reflexivity|]. split; [exact H|].
  apply (restart_safety zero zero hash 3 three tt 0 0 script e); [lia|vm_compute; reflexivity|exact E].
Defined.

End Demo.
End Restarts.
