(* ===== verification/Scenario.v ===== *)
(** * Scenario files

    [dst/scenario/scenario.go]: the declarative description of a simulated run, its
    validation, and the faults built from it; and [internal/cli/simulate.go], the
    command that runs such a file against the Raft cluster.  Results: validation
    accepts exactly the files without a mistake, and the faults of such a file cut
    off exactly the messages it says; running one never reports a violation. *)

From S2P Require Import Prelude Bytes RaftTypes Quorum RaftNode EventHeap Engine EngineInv EngineLog GoStrings RaftCluster Restarts.
From stdpp Require Import pretty.
#[local] Open Scope Z_scope.

Module Scenario.

(** ** dst/scenario/scenario.go *)

Definition MaxNodes : Z := 64.

Record Fault := mkFault {
  f_Type : string;
  A : list Z;
  B : list Z;
  f_Nodes : list Z;
  From : Z;
  To : Z;
  Start : Z;
  End_ : Z
}.

Record Scenario := mkScenario {
  Name : string;
  Seed : string;
  Nodes : Z;
  Steps : Z;
  DropPermille : Z;
  MaxDelay : Z;
  ProposeEvery : Z;
  RestartEvery : Z;
  Faults : list Fault
}.

Record Config := mkConfig { c_Seed : Z; c_DropPermille : Z; c_MaxDelay : Z }.

(** The errors, with what their messages name. *)
Inductive faultProblem :=
| WindowEnd (stop start : Z)
| NoneListed (field : string)
| Outside (field : string) (id nodes : Z)
| NamedTwice (field : string) (id : Z)
| BothSides (id : Z)
| SameEnds (id : Z)
| UnknownType (type : string).

Inductive problem :=
| InvalidSeed (seed : string)
| NodesRange (nodes : Z)
| NoSteps
| DropRange (drop : Z)
| BadFault (i : nat) (e : faultProblem)
| BadJSON
| MoreContent.

Definition ParsedSeed (s : Scenario) : problem + Z :=
  match ParseInt (TrimSpace (bytesOf (Seed s))) with
  | Some seed => inr seed
  | None => inl (InvalidSeed (Seed s))
  end.

Definition EngineConfig (s : Scenario) : problem + Config :=
  match ParsedSeed s with
  | inl e => inl e
  | inr seed => inr (mkConfig seed (DropPermille s) (MaxDelay s))
  end.

(** The labels of [dst/inject.go]; a slice prints as [[1 2 3]]. *)
Fixpoint joined (l : list Z) : string :=
  match l with
  | [] => ""
  | [x] => pretty x
  | x :: l => pretty x +:+ " " +:+ joined l
  end.

Definition slice (l : list Z) : string := "[" +:+ joined l +:+ "]".

Definition splitLabel (a b : list Z) : string := "split" +:+ slice a +:+ "|" +:+ slice b.
Definition isolateLabel (nodes : list Z) : string := "isolate" +:+ slice nodes.
Definition linkLabel (from to : Z) : string := "link" +:+ pretty from +:+ "->" +:+ pretty to.
Definition duringLabel (start stop : Z) (inner : string) : string :=
  inner +:+ "@[" +:+ pretty start +:+ "," +:+ pretty stop +:+ ")".

(** The window of a fault, if it has one. *)
Definition windowed (f : Fault) (i : Injector) : Injector :=
  if negb (End_ f =? 0) then During (duringLabel (Start f) (End_ f) (i_Name i)) (Start f) (End_ f) i else i.

Definition build (f : Fault) : faultProblem + Injector :=
  if bool_decide (f_Type f = "split"%string) then inr (windowed f (Split (splitLabel (A f) (B f)) (A f) (B f)))
  else if bool_decide (f_Type f = "isolate"%string) then inr (windowed f (Isolate (isolateLabel (f_Nodes f)) (f_Nodes f)))
  else if bool_decide (f_Type f = "link"%string) then inr (windowed f (Link (linkLabel (From f) (To f)) (From f) (To f)))
  else inl (UnknownType (f_Type f)).

(** The loop of [Injectors] from fault [i] on. *)
Fixpoint buildAll (i : nat) (l : list Fault) : problem + list Injector :=
  match l with
  | [] => inr []
  | f :: l =>
      match build f with
      | inl e => inl (BadFault i e)
      | inr x => match buildAll (S i) l with inl e => inl e | inr xs => inr (x :: xs) end
      end
  end.

Definition Injectors (s : Scenario) : problem + list Injector := buildAll 0 (Faults s).

(** The loop of [check]. *)
Fixpoint checkIds (field : string) (nodes : Z) (ids : list Z) (seen : gset Z) : option faultProblem :=
  match ids with
  | [] => None
  | id :: ids =>
      if (id <? 1) || (nodes <? id) then Some (Outside field id nodes)
      else if bool_decide (id ∈ seen) then Some (NamedTwice field id)
      else checkIds field nodes ids ({[id]} ∪ seen)
  end.

Definition check (field : string) (nodes : Z) (ids : list Z) : option faultProblem :=
  match ids with [] => Some (NoneListed field) | _ => checkIds field nodes ids ∅ end.

(** The two nested loops over the sides of a split. *)
Definition shared (a b : list Z) : option Z := find (fun id => existsb (Z.eqb id) b) a.

Definition validate (nodes : Z) (f : Fault) : option faultProblem :=
  if negb (End_ f =? 0) && (End_ f <=? Start f) then Some (WindowEnd (End_ f) (Start f))
  else if bool_decide (f_Type f = "split"%string) then
    match check "a" nodes (A f) with
    | Some e => Some e
    | None =>
        match check "b" nodes (B f) with
        | Some e => Some e
        | None => BothSides <$> shared (A f) (B f)
        end
    end
  else if bool_decide (f_Type f = "isolate"%string) then check "nodes" nodes (f_Nodes f)
  else if bool_decide (f_Type f = "link"%string) then
    match check "from" nodes [From f] with
    | Some e => Some e
    | None =>
        match check "to" nodes [To f] with
        | Some e => Some e
        | None => if From f =? To f then Some (SameEnds (From f)) else None
        end
    end
  else Some (UnknownType (f_Type f)).

Fixpoint validateAll (nodes : Z) (i : nat) (l : list Fault) : option problem :=
  match l with
  | [] => None
  | f :: l =>
      match validate nodes f with
      | Some e => Some (BadFault i e)
      | None => validateAll nodes (S i) l
      end
  end.

Definition Validate (s : Scenario) : option problem :=
  match ParsedSeed s with
  | inl e => Some e
  | inr _ =>
      if (Nodes s <? 1) || (MaxNodes <? Nodes s) then Some (NodesRange (Nodes s))
      else if Steps s <? 1 then Some NoSteps
      else if (DropPermille s <? 0) || (1000 <? DropPermille s) then Some (DropRange (DropPermille s))
      else validateAll (Nodes s) 0 (Faults s)
  end.

(** [Read], given what the JSON decoder finds: the first value, if it is a
    scenario, and whether the input ends after it. *)
Definition Read (decoded : option Scenario) (eof : bool) : problem + Scenario :=
  match decoded with
  | None => inl BadJSON
  | Some s =>
      if negb eof then inl MoreContent
      else match Validate s with Some e => inl e | None => inr s end
  end.

(** ** internal/cli/simulate.go *)

Record report := mkReport {
  r_leader : Z;
  r_proposed : Z;
  r_maxCommit : Z;
  r_trace : bytes;
  r_dropped : list (string * Z)
}.

(** How the command ends: exit codes 2, 1, 1 and 0. *)
Inductive ending :=
| Refused (e : problem)
| Violated (v : Violation)
| NotRestarted (id : Z) (e : error)
| Finished (r : report).

Section simulate.
Context {R : Type} (Intn Int63n : Z -> R -> Z * R) (NewSource : Z -> R) (sha256 : bytes -> bytes).
Abbreviation engine := (Engine RaftCluster.Cluster Message R).

(** The end of an iteration, or of the command. *)
Abbreviation running := (Engine.running RaftCluster.Cluster Message R).
Abbreviation step := (running (ending + engine * Z)).

Definition proposeAt (s : Scenario) (tick proposed : Z) (e : engine) : running (engine * Z) :=
  if negb (ProposeEvery s =? 0) && (tick mod ProposeEvery s =? 0) then
    match RaftCluster.Propose tick (cluster e) with
    | None => Panic (AtCall, e)
    | Some (c, ok) =>
        let e := e <| cluster := c |> in
        if ok : bool then e ← Collect Intn Int63n (heapQueue Message) e; Ret (e, w64 (proposed + 1))
        else Ret (e, proposed)
    end
  else Ret (e, proposed).

Definition restartAt (s : Scenario) (tick : Z) (e : engine) : running (ending + engine) :=
  if negb (RestartEvery s =? 0) && (tick mod RestartEvery s =? 0) then
    let id := w32 ((tick / RestartEvery s) mod Nodes s + 1) in
    match RaftCluster.Restart id (cluster e) with
    | None => Panic (AtCall, e)
    | Some (_, Some err) => Ret (inl (NotRestarted id err))
    | Some (c, None) => Ret (inr (IsolateNode (heapQueue Message) id (e <| cluster := c |>)).1)
    end
  else Ret (inr e).

Definition iteration (s : Scenario) (fuel : nat) (tick proposed : Z) (e : engine) : step :=
  '(e, v) ← StepChecked Intn Int63n sha256 (heapQueue Message) fuel RaftCluster.SafetyInvariants e;
  match v with
  | Some v => Ret (inl (Violated v))
  | None =>
      '(e, proposed) ← proposeAt s tick proposed e;
      r ← restartAt s tick e;
      match r with
      | inl x => Ret (inl x)
      | inr e =>
          match CheckInvariants RaftCluster.SafetyInvariants e with
          | Some v => Ret (inl (Violated v))
          | None => Ret (inr (e, proposed))
          end
      end
  end.

(** The loop over the ticks. *)
Fixpoint iterate (s : Scenario) (fuel : nat) (ticks : list Z) (proposed : Z) (e : engine) : step :=
  match ticks with
  | [] => Ret (inr (e, proposed))
  | tick :: ticks =>
      r ← iteration s fuel tick proposed e;
      match r with inl x => Ret (inl x) | inr (e, proposed) => iterate s fuel ticks proposed e end
  end.

Definition maxCommit (c : RaftCluster.Cluster) : Z :=
  foldl (fun m id => Z.max m (from_option n_Commit 0 (RaftCluster.nodes c !! id))) 0 (RaftCluster.ids c).

Definition reportOf (injectors : list Injector) (e : engine) (proposed : Z) : report :=
  mkReport (RaftCluster.Leader (cluster e)) proposed (maxCommit (cluster e)) (trace e)
    ((fun i => (i_Name i, default 0 (injected e !! i_Name i))) <$> injectors).

(** [runSimulate] on a file, after the flags.  The loop of the source does not
    end when [Steps] is the last [uint64]. *)
Definition runSimulate (fuel : nat) (loaded : problem + Scenario) : run () ending :=
  match loaded with
  | inl e => Ret (Refused e)
  | inr s =>
      match EngineConfig s with
      | inl e => Ret (Refused e)
      | inr config =>
          match Injectors s with
          | inl e => Ret (Refused e)
          | inr injectors =>
              match RaftCluster.New (Z.to_nat (Nodes s)) with
              | None => Panic ()
              | Some c =>
                  let e := New (NewSource (c_Seed config)) (c_DropPermille config) (c_MaxDelay config) c in
                  if Steps s =? maxu64 then Limit else
                  match iterate s fuel (seqZ 1 (Steps s)) 0 (Inject injectors e) with
                  | Ret (inl x) => Ret x
                  | Ret (inr (e, proposed)) => Ret (Finished (reportOf injectors e proposed))
                  | Panic _ => Panic ()
                  | Limit => Limit
                  end
              end
          end
      end
  end.

(** *** The drops of a run *)

Definition dropsPropose (s : Scenario) (tick : Z) (e : engine) : list denial :=
  if negb (ProposeEvery s =? 0) && (tick mod ProposeEvery s =? 0) then
    match RaftCluster.Propose tick (cluster e) with
    | Some (c, true) => dropsCollect Intn Int63n (heapQueue Message) (e <| cluster := c |>)
    | _ => []
    end
  else [].

Definition dropsIteration (s : Scenario) (fuel : nat) (tick : Z) (e : engine) : list denial :=
  dropsStep Intn Int63n sha256 (heapQueue Message) fuel e ++
  match StepChecked Intn Int63n sha256 (heapQueue Message) fuel RaftCluster.SafetyInvariants e with
  | Ret (e, None) => dropsPropose s tick e
  | _ => []
  end.

Fixpoint dropsIterate (s : Scenario) (fuel : nat) (ticks : list Z) (proposed : Z) (e : engine) : list denial :=
  match ticks with
  | [] => []
  | tick :: ticks =>
      dropsIteration s fuel tick e ++
      match iteration s fuel tick proposed e with
      | Ret (inr (e, proposed)) => dropsIterate s fuel ticks proposed e
      | _ => []
      end
  end.

(** Every message that [runSimulate] sees dropped by a declared fault. *)
Definition dropsSimulate (fuel : nat) (s : Scenario) : list denial :=
  match EngineConfig s, Injectors s, RaftCluster.New (Z.to_nat (Nodes s)) with
  | inr config, inr injectors, Some c =>
      let e := New (NewSource (c_Seed config)) (c_DropPermille config) (c_MaxDelay config) c in
      dropsIterate s fuel (seqZ 1 (Steps s)) 0 (Inject injectors e)
  | _, _, _ => []
  end.

End simulate.

(** ** What a file means *)

Definition listed (nodes : Z) (ids : list Z) : Prop :=
  ids <> [] /\ NoDup ids /\ Forall (fun id => 1 <= id <= nodes) ids.

(** The fault is declared without a mistake. *)
Definition validFault (nodes : Z) (f : Fault) : Prop :=
  (End_ f = 0 \/ Start f < End_ f) /\
  (f_Type f = "split"%string /\ listed nodes (A f) /\ listed nodes (B f) /\ (forall id, id ∈ A f -> id ∈ B f -> False) \/
   f_Type f = "isolate"%string /\ listed nodes (f_Nodes f) \/
   f_Type f = "link"%string /\ 1 <= From f <= nodes /\ 1 <= To f <= nodes /\ From f <> To f).

Record valid (s : Scenario) : Prop := {
  va_seed : exists seed, ParsedSeed s = inr seed;
  va_nodes : 1 <= Nodes s <= 64;
  va_steps : 1 <= Steps s;
  va_drop : 0 <= DropPermille s <= 1000;
  va_faults : Forall (validFault (Nodes s)) (Faults s)
}.

(** The fault lies between two nodes. *)
Definition separates (f : Fault) (from to : Z) : Prop :=
  f_Type f = "split"%string /\ (from ∈ A f /\ to ∈ B f \/ from ∈ B f /\ to ∈ A f) \/
  f_Type f = "isolate"%string /\ (from ∈ f_Nodes f \/ to ∈ f_Nodes f) \/
  f_Type f = "link"%string /\ from = From f /\ to = To f.

(** The fault cuts off a message sent at time [now]. *)
Definition cuts (now from to : Z) (f : Fault) : Prop :=
  (End_ f = 0 \/ Start f <= now < End_ f) /\ separates f from to.

#[export] Instance cuts_dec now from to f : Decision (cuts now from to f).
Proof. unfold cuts, separates. apply _. Defined.

(** The name under which its drops are counted. *)
Definition label (f : Fault) : string :=
  let inner :=
    if bool_decide (f_Type f = "split"%string) then splitLabel (A f) (B f)
    else if bool_decide (f_Type f = "isolate"%string) then isolateLabel (f_Nodes f)
    else linkLabel (From f) (To f) in
  if End_ f =? 0 then inner else duringLabel (Start f) (End_ f) inner.

(** *** Validation *)

Lemma checkIds_none field nodes ids : forall seen,
  checkIds field nodes ids seen = None <->
  NoDup ids /\ Forall (fun id => 1 <= id <= nodes) ids /\ (forall id, id ∈ ids -> id ∈ seen -> False).
Proof.
  induction ids as [|id ids IH]; intros seen; cbn [checkIds].
  { split; [|done]. intros _. split; [apply NoDup_nil_2|]. split; [constructor|]. by intros id []%elem_of_nil. }
  rewrite NoDup_cons, Forall_cons. destruct (Z.ltb_spec id 1), (Z.ltb_spec nodes id); cbn [orb];
    try (split; [done|]; intros (_ & [? _] & _); lia).
  case_bool_decide as Hin.
  - split; [done|]. intros (_ & _ & H'). destruct (H' id); [apply list_elem_of_here|done].
  - rewrite IH. split.
    + intros (Hn & Hf & Hs). split; [split; [|done]|split; [split; [lia|done]|]].
      * intros Hid. apply (Hs id Hid). set_solver.
      * intros id' [->|Hid']%elem_of_cons; [done|]. intros ?. apply (Hs id' Hid'). set_solver.
    + intros ([Hn Hnd] & [_ Hf] & Hs). split; [done|]. split; [done|]. intros id' Hid' [->%elem_of_singleton|Hs']%elem_of_union; [done|].
      apply (Hs id'); [by right|done].
Qed.

Lemma check_none field nodes ids : check field nodes ids = None <-> listed nodes ids.
Proof.
  unfold check, listed. destruct ids as [|id ids]; [split; [done|by intros [? _]]|].
  rewrite checkIds_none. split; [intros (? & ? & _); done|]. intros (_ & ? & ?). split; [done|]. split; [done|].
  intros id' _ []%elem_of_empty.
Qed.

Lemma listed_singleton nodes id : listed nodes [id] <-> 1 <= id <= nodes.
Proof. unfold listed. rewrite Forall_singleton. split; [tauto|]. intros. split_and!; [done|apply NoDup_singleton|lia..]. Qed.

Lemma shared_none a b : shared a b = None <-> (forall id, id ∈ a -> id ∈ b -> False).
Proof.
  unfold shared. split.
  - intros H id Ha Hb. apply list_elem_of_In in Ha. pose proof (find_none _ _ H id Ha) as E. cbn in E.
    apply not_true_iff_false in E. apply E, existsb_exists. exists id. split; [by apply list_elem_of_In|apply Z.eqb_refl].
  - intros H. destruct (find _ a) as [id|] eqn:E; [|done]. apply find_some in E as [Ha Hb].
    apply existsb_exists in Hb as (id' & Hb & <-%Z.eqb_eq). destruct (H id); by apply list_elem_of_In.
Qed.

Lemma validate_none nodes f : validate nodes f = None <-> validFault nodes f.
Proof.
  unfold validate, validFault. destruct (_ && _) eqn:E.
  { split; [done|]. intros [? _]. lia. }
  assert (End_ f = 0 \/ Start f < End_ f) as Hw by lia. clear E.
  repeat case_bool_decide; try congruence.
  - destruct (check "a" _ _) eqn:Ea; [split; [done|]|destruct (check "b" _ _) eqn:Eb; [split; [done|]|]].
    + intros [_ [(_ & H' & _)|[[? _]|[? _]]]]; try congruence. apply check_none with (field := "a") in H'. congruence.
    + intros [_ [(_ & _ & H' & _)|[[? _]|[? _]]]]; try congruence. apply check_none with (field := "b") in H'. congruence.
    + apply check_none in Ea, Eb. rewrite fmap_None, shared_none. split; [tauto|].
      intros [_ [(_ & _ & _ & H')|[[? _]|[? _]]]]; congruence || done.
  - rewrite check_none. split; [tauto|]. intros [_ [[? _]|[[_ ?]|[? _]]]]; congruence || done.
  - destruct (check "from" _ _) eqn:Ea; [split; [done|]|destruct (check "to" _ _) eqn:Eb; [split; [done|]|]].
    + intros [_ [[? _]|[[? _]|(_ & H' & _)]]]; try congruence.
      apply listed_singleton, check_none with (field := "from") in H'. congruence.
    + intros [_ [[? _]|[[? _]|(_ & _ & H' & _)]]]; try congruence.
      apply listed_singleton, check_none with (field := "to") in H'. congruence.
    + apply check_none, listed_singleton in Ea, Eb. destruct (Z.eqb_spec (From f) (To f)).
      * split; [done|]. intros [_ [[? _]|[[? _]|(_ & _ & _ & ?)]]]; congruence.
      * split; [tauto|done].
  - split; [done|]. intros [_ [[? _]|[[? _]|[? _]]]]; congruence.
Qed.

Lemma validateAll_none nodes l : forall i, validateAll nodes i l = None <-> Forall (validFault nodes) l.
Proof.
  induction l as [|f l IH]; intros i; cbn [validateAll]; [by split|]. rewrite Forall_cons, <- validate_none.
  destruct (validate nodes f); [|rewrite IH; tauto]. split; [done|]. intros [? _]. done.
Qed.

Lemma Validate_none s : Validate s = None <-> valid s.
Proof.
  unfold Validate. destruct (ParsedSeed s) as [e|seed] eqn:E.
  { split; [done|]. intros [(seed & Hs) _ _ _ _]. congruence. }
  destruct (_ || _) eqn:E1. { split; [done|]. intros []. unfold MaxNodes in *. lia. }
  destruct (Z.ltb_spec (Steps s) 1). { split; [done|]. intros []. lia. }
  destruct ((DropPermille s <? 0) || _) eqn:E2. { split; [done|]. intros []. lia. }
  rewrite validateAll_none. unfold MaxNodes in *. split; [|by intros []]. intros Hf. split; [by exists seed|lia..|done].
Qed.

(** *** The faults *)

Lemma membership_in l x : membership l x = true <-> x ∈ l.
Proof. unfold membership. by rewrite bool_decide_eq_true. Qed.

Lemma windowed_allow f i :
  (forall now from to d, i_Allow i now from to d = true <-> ~ separates f from to) ->
  forall now from to d, i_Allow (windowed f i) now from to d = negb (bool_decide (cuts now from to f)).
Proof.
  intros Ha now from to d. specialize (Ha now from to d). unfold windowed, cuts. destruct (Z.eqb_spec (End_ f) 0) as [E|E]; cbn [negb].
  - case_bool_decide; cbn; [apply not_true_iff_false|]; tauto.
  - cbn [i_Allow During]. destruct (_ || _) eqn:E1.
    + rewrite bool_decide_false; [done|]. intros [? _]. lia.
    + assert (Start f <= now < End_ f) as Hn by lia. case_bool_decide; cbn; [apply not_true_iff_false|]; tauto.
Qed.

Lemma separates_split f from to :
  f_Type f = "split"%string -> separates f from to <-> (from ∈ A f /\ to ∈ B f \/ from ∈ B f /\ to ∈ A f).
Proof. intros E. unfold separates. rewrite E. split; [by intros [[_ ?]|[[? _]|[? _]]]|by left]. Qed.

Lemma separates_isolate f from to :
  f_Type f = "isolate"%string -> separates f from to <-> (from ∈ f_Nodes f \/ to ∈ f_Nodes f).
Proof. intros E. unfold separates. rewrite E. split; [by intros [[? _]|[[_ ?]|[? _]]]|by right; left]. Qed.

Lemma separates_link f from to :
  f_Type f = "link"%string -> separates f from to <-> (from = From f /\ to = To f).
Proof. intros E. unfold separates. rewrite E. split; [by intros [[? _]|[[? _]|[_ ?]]]|by right; right]. Qed.

Lemma build_spec nodes f :
  validFault nodes f ->
  exists i, build f = inr i /\ i_Name i = label f /\
    forall now from to d, i_Allow i now from to d = negb (bool_decide (cuts now from to f)).
Proof.
  intros [_ Ht]. unfold build, label.
  assert (forall i, i_Name (windowed f i) = if End_ f =? 0 then i_Name i else duringLabel (Start f) (End_ f) (i_Name i)) as Hn.
  { intros i. unfold windowed. by destruct (_ =? 0). }
  destruct Ht as [(E & _)|[(E & _)|(E & _)]]; rewrite E;
    rewrite ?(bool_decide_true (_ = _)), ?(bool_decide_false (_ = _)) by done;
    eexists; (split; [reflexivity|]); (split; [by rewrite Hn|]); apply windowed_allow; intros now from to d.
  - rewrite separates_split by done. cbn. unfold membership. repeat case_bool_decide; cbn; intuition congruence.
  - rewrite separates_isolate by done. cbn. unfold membership. repeat case_bool_decide; cbn; intuition congruence.
  - rewrite separates_link by done. cbn. destruct (Z.eqb_spec from (From f)), (Z.eqb_spec to (To f)); cbn; intuition congruence.
Qed.

Lemma label_named f : label f <> ""%string.
Proof.
  unfold label. repeat case_bool_decide; destruct (End_ f =? 0); done.
Qed.

(** What blocks a message, by the faults of the file. *)
Lemma buildAll_spec nodes l : forall i,
  Forall (validFault nodes) l ->
  exists xs, buildAll i l = inr xs /\
    forall now from to d,
      match find (fun i => negb (i_Allow i now from to d)) xs with Some i => i_Name i | None => ""%string end =
      match find (fun f => bool_decide (cuts now from to f)) l with Some f => label f | None => ""%string end.
Proof.
  induction l as [|f l IH]; intros i Hl; cbn [buildAll]; [by exists []|]. apply Forall_cons in Hl as [Hf Hl].
  destruct (build_spec nodes f Hf) as (x & -> & Hn & Ha). destruct (IH (S i) Hl) as (xs & -> & Hx).
  exists (x :: xs). split; [done|]. intros now from to d. cbn [find]. rewrite Ha, negb_involutive.
  case_bool_decide; [done|apply Hx].
Qed.

(** C25 Scenario files.  Validation accepts exactly the files that declare a
    readable seed, 1 to 64 nodes, at least one step, a loss rate up to 1000 and
    faults without a mistake: a window that ends after it starts, nodes of the
    cluster listed once, two disjoint sides, two different ends.  Such a file
    configures the engine with a seed that fits an [int64], and its faults block a
    message exactly if one of them, in its window, lies between the two nodes; the
    drop is counted for the first one that does, under a name that is not empty. *)
Theorem scenario_file s :
  (Validate s = None <-> valid s) /\
  (valid s ->
   exists seed l, EngineConfig s = inr (mkConfig seed (DropPermille s) (MaxDelay s)) /\ - 2 ^ 63 <= seed < 2 ^ 63 /\
     Injectors s = inr l /\
     forall C M R `{!Cluster C M} (e : Engine C M R) from to d, injectors e = l ->
       blockedBy from to d e =
         match find (fun f => bool_decide (cuts (Now e) from to f)) (Faults s) with
         | Some f => label f
         | None => ""%string
         end) /\
  forall f, label f <> ""%string.
Proof.
  split; [apply Validate_none|]. split; [|apply label_named]. intros [(seed & Hs) _ _ _ Hf].
  destruct (buildAll_spec _ _ 0 Hf) as (l & Hl & Hb). exists seed, l. split; [unfold EngineConfig; by rewrite Hs|].
  split; [|split; [done|]].
  - unfold ParsedSeed in Hs. destruct (ParseInt _) eqn:E; [|done]. injection Hs as ->. by eapply ParseInt_range.
  - intros C M R HC e from to d <-. apply Hb.
Qed.

(** *** Runs *)

Section runs.
Context {R : Type} (Intn Int63n : Z -> R -> Z * R) (sha256 : bytes -> bytes).
Context (count : nat) (c0 : RaftCluster.Cluster).
Hypothesis (Hcount : (count <= 64)%nat) (HN : RaftCluster.New count = Some c0).
Abbreviation engine := (Engine RaftCluster.Cluster Message R).
Abbreviation pool := (fun _ : nat => Restarts.ready count (RaftCluster.abstract c0)).
Abbreviation inPool := (fun e : engine => exists k, simulated (R := R) pool k [] e).

#[local] Instance run_pool : Pool Restarts.drive pool count := Restarts.ready_pool count (RaftCluster.abstract c0) Hcount.

Lemma checks_pass e : inPool e -> CheckInvariants RaftCluster.SafetyInvariants e = None.
Proof. intros (k & He). apply CheckInvariants_none. eapply (Restarts.New_ready count c0 Hcount HN), He. Qed.

Lemma proposeAt_pool s tick proposed e :
  is_u64 tick -> inPool e -> always (fun r => inPool r.1) (proposeAt Intn Int63n s tick proposed e).
Proof.
  intros Ht (k & He) r. unfold proposeAt. destruct (_ && _); [|intros [= <-]; by exists k].
  destruct (RaftCluster.Propose tick (cluster e)) as [[c ok]|] eqn:E; [|done].
  assert (simulated pool (S k) [] (e <| cluster := c |>)) as H1.
  { destruct He as [Hp Hto Hh]. split; [|done|done]. by eapply Restarts.Propose_ready. }
  destruct ok; [|intros [= <-]; by exists (S k)].
  destruct (Collect _ _ _ _) as [e'| |] eqn:E1; [|done..]. intros [= <-]. exists (S k).
  by eapply (Collect_simulated Intn Int63n Restarts.drive pool count).
Qed.

Lemma restartAt_pool s tick e :
  Z.to_nat (Nodes s) = count -> 1 <= Nodes s -> inPool e ->
  always (fun r => exists e', r = inr e' /\ inPool e') (restartAt s tick e).
Proof.
  intros Hn H1 (k & He) r. unfold restartAt. destruct (_ && _); [|intros [= <-]; exists e; split; [done|by exists k]].
  set (id := w32 _). destruct (RaftCluster.Restart id (cluster e)) as [[c err]|] eqn:E; [|done].
  destruct He as [Hp Hto Hh].
  assert (is_Some (RaftCluster.nodes (cluster e) !! id)) as Hid.
  { destruct (Restarts.rd_reach _ _ _ _ Hp) as (_ & _ & _ & _ & _ & _ & Hall). rewrite Forall_forall in Hall. apply Hall.
    rewrite (Restarts.rd_ids _ _ _ _ Hp). pose proof (Z.mod_pos_bound (tick / RestartEvery s) (Nodes s) ltac:(lia)) as Hm.
    assert (id = (tick / RestartEvery s) mod Nodes s + 1) as -> by (apply Z.mod_small; lia).
    unfold RaftCluster.allIds. apply list_elem_of_fmap. exists (Z.to_nat ((tick / RestartEvery s) mod Nodes s + 1)).
    rewrite elem_of_seq. lia. }
  destruct (Restarts.Restart_ready count _ Hcount id _ _ _ _ Hid Hp E) as [-> Hp'].
  set (e' := (IsolateNode _ id _).1). intros [= <-]. exists e'. split; [done|]. exists k.
  apply (Isolate_simulated Restarts.drive pool count k id (e <| cluster := c |>)). by split.
Qed.

Lemma iteration_pool s fuel tick proposed e :
  is_u64 tick -> Z.to_nat (Nodes s) = count -> 1 <= Nodes s -> inPool e ->
  always (fun r => exists e' p, r = inr (e', p) /\ inPool e') (iteration Intn Int63n sha256 s fuel tick proposed e).
Proof.
  intros Ht Hn Hn1 (k & He) r. unfold iteration, StepChecked.
  destruct (Step _ _ _ _ fuel e) as [e1| |] eqn:E1; cbn [mbind run_bind]; [|done..].
  assert (inPool e1) as H1.
  { exists (k + count)%nat. by eapply (Step_simulated Intn Int63n sha256 Restarts.drive pool count). }
  rewrite (checks_pass e1 H1). destruct (proposeAt _ _ s tick proposed e1) as [[e2 p]| |] eqn:E2; cbn [mbind run_bind]; [|done..].
  pose proof (proposeAt_pool s tick proposed e1 Ht H1 _ E2) as H2. cbn [fst] in H2.
  destruct (restartAt s tick e2) as [r3| |] eqn:E3; cbn [mbind run_bind]; [|done..].
  destruct (restartAt_pool s tick e2 Hn Hn1 H2 _ E3) as (e3 & -> & H3).
  rewrite (checks_pass e3 H3). intros [= <-]. by exists e3, p.
Qed.

Lemma iterate_pool s fuel ticks : forall proposed e,
  Forall is_u64 ticks -> Z.to_nat (Nodes s) = count -> 1 <= Nodes s -> inPool e ->
  always (fun r => exists e' p, r = inr (e', p) /\ inPool e') (iterate Intn Int63n sha256 s fuel ticks proposed e).
Proof.
  induction ticks as [|tick ticks IH]; intros proposed e Ht Hn Hn1 He; cbn [iterate].
  { intros r [= <-]. by exists e, proposed. }
  apply Forall_cons in Ht as [Ht Hts].
  intros r. destruct (iteration _ _ _ s fuel tick proposed e) as [r1| |] eqn:E; cbn [mbind run_bind]; [|done..].
  destruct (iteration_pool s fuel tick proposed e Ht Hn Hn1 He _ E) as (e1 & p & -> & H1). by apply IH.
Qed.

End runs.

Lemma buildAll_names nodes l : forall i xs,
  Forall (validFault nodes) l -> buildAll i l = inr xs -> i_Name <$> xs = label <$> l.
Proof.
  induction l as [|f l IH]; intros i xs Hl; cbn [buildAll]; [by intros [= <-]|]. apply Forall_cons in Hl as [Hf Hl].
  destruct (build_spec nodes f Hf) as (x & -> & Hn & _). destruct (buildAll (S i) l) as [|ys] eqn:E; [done|].
  intros [= <-]. rewrite !fmap_cons, Hn. f_equal. by eapply IH.
Qed.

(** *** The report *)

Section counts.
Context {R : Type} (Intn Int63n : Z -> R -> Z * R) (sha256 : bytes -> bytes).

Lemma proposeAt_logs s tick proposed e :
  always (fun r => logs (dropsPropose Intn Int63n s tick e) e r.1) (proposeAt Intn Int63n s tick proposed e).
Proof.
  intros r. unfold proposeAt, dropsPropose. destruct (_ && _); [|intros [= <-]; by apply logs_none].
  destruct (RaftCluster.Propose tick (cluster e)) as [[c []]|]; [|intros [= <-]; by apply logs_none|done].
  destruct (Collect _ _ _ _) as [e'| |] eqn:E; [|done..]. intros [= <-]. by apply Collect_logs in E.
Qed.

Lemma restartAt_logs s (tick : Z) (e : Engine RaftCluster.Cluster Message R) :
  always (fun r => match r with inr e' => logs [] e e' | inl _ => True end) (restartAt s tick e).
Proof.
  intros r. unfold restartAt. destruct (_ && _); [|intros [= <-]; by apply logs_none].
  destruct (RaftCluster.Restart _ _) as [[c [err|]]|]; [intros [= <-]; done| |done].
  intros [= <-]. unfold IsolateNode. by apply logs_none.
Qed.

Lemma iteration_logs s fuel tick proposed e :
  always (fun r => match r with inr (e', _) => logs (dropsIteration Intn Int63n sha256 s fuel tick e) e e' | inl _ => True end)
    (iteration Intn Int63n sha256 s fuel tick proposed e).
Proof.
  intros r. unfold iteration, dropsIteration, StepChecked.
  destruct (Step _ _ _ _ fuel e) as [e1| |] eqn:E1; cbn [mbind run_bind]; [|done..]. apply Step_logs in E1.
  destruct (CheckInvariants _ e1); [by intros [= <-]|].
  destruct (proposeAt _ _ s tick proposed e1) as [[e2 p]| |] eqn:E2; cbn [mbind run_bind]; [|done..].
  apply proposeAt_logs in E2. destruct (restartAt s tick e2) as [r3| |] eqn:E3; cbn [mbind run_bind]; [|done..].
  apply restartAt_logs in E3. destruct r3 as [x|e3]; [by intros [= <-]|].
  destruct (CheckInvariants _ e3); intros [= <-]; [done|]. eapply logs_app; [exact E1|].
  rewrite <- (app_nil_r (dropsPropose _ _ _ _ _)). by eapply logs_app.
Qed.

Lemma iterate_logs s fuel ticks : forall proposed e,
  always (fun r => match r with
                   | inr (e', _) => logs (dropsIterate Intn Int63n sha256 s fuel ticks proposed e) e e'
                   | inl _ => True
                   end) (iterate Intn Int63n sha256 s fuel ticks proposed e).
Proof.
  induction ticks as [|tick ticks IH]; intros proposed e r; cbn [iterate dropsIterate]; [intros [= <-]; by apply logs_none|].
  destruct (iteration _ _ _ s fuel tick proposed e) as [r1| |] eqn:E; cbn [mbind run_bind]; [|done..].
  apply iteration_logs in E. destruct r1 as [x|[e1 p]]; [by intros [= <-]|]. intros H%IH.
  destruct r as [x|[e2 p2]]; [done|]. by eapply logs_app.
Qed.

End counts.

(** A drop that the declared faults explain: the first of them that cuts the two
    nodes off at that time. *)
Definition explained (faults : list Fault) (d : denial) : Prop :=
  exists f, find (fun f => bool_decide (cuts (d_now d) (d_from d) (d_to d) f)) faults = Some f /\ label f = d_by d.

Lemma denied_explained nodes faults xs d :
  Forall (validFault nodes) faults -> buildAll 0 faults = inr xs -> denied xs d -> d_by d <> ""%string -> explained faults d.
Proof.
  intros Hf Hxs (i & Hi & Hn) Hd. destruct (buildAll_spec _ _ 0 Hf) as (ys & Hys & Hspec).
  rewrite Hxs in Hys. injection Hys as <-. specialize (Hspec (d_now d) (d_from d) (d_to d) (d_delay d)).
  rewrite Hi, Hn in Hspec. unfold explained. destruct (find _ faults) as [f|]; [by exists f|congruence].
Qed.

(** C23 The simulate command.  A file that is refused is reported as such.  The
    run of a file that is accepted, with any generator, ends with a report if it
    returns: no step of it, no proposal, no declared fault and no restart makes one
    of the three safety checks fail, and every restart succeeds.  The report lists
    the declared faults in the order of the file, each with the number of messages
    that were dropped under its name in this run, and every one of those was
    dropped by the first declared fault that, at that time, cuts its sender off
    from its receiver. *)
Theorem simulate_clean {R} (Intn Int63n : Z -> R -> Z * R) NewSource sha256 fuel decoded eof out :
  runSimulate Intn Int63n NewSource sha256 fuel (Read decoded eof) = Ret out ->
  match Read decoded eof with
  | inl e => out = Refused e
  | inr s =>
      is_u64 (Steps s) -> exists r, out = Finished r /\
        let log := dropsSimulate Intn Int63n NewSource sha256 fuel s in
        r_dropped r = (fun f => (label f, tally (label f) log)) <$> Faults s /\ Forall (explained (Faults s)) log
  end.
Proof.
  destruct (Read decoded eof) as [e|s] eqn:E; [by intros [= <-]|]. intros H Hst.
  assert (Validate s = None) as HV.
  { unfold Read in E. destruct decoded as [s'|]; [|done]. destruct (negb eof); [done|].
    destruct (Validate s') eqn:E1; [done|]. congruence. }
  apply Validate_none in HV as [(seed & Hs) Hn _ _ Hf]. cbn [runSimulate] in H. unfold dropsSimulate.
  unfold EngineConfig, Injectors in *. rewrite Hs in *.
  destruct (buildAll_spec _ _ 0 Hf) as (xs & Hxs & _). rewrite Hxs in *.
  destruct (RaftCluster.New (Z.to_nat (Nodes s))) as [c|] eqn:HN; [|done]. destruct (Steps s =? maxu64); [done|].
  cbn zeta in *. destruct (iterate _ _ _ s fuel _ 0 _) as [r| |] eqn:Ei; [|done..].
  assert (Z.to_nat (Nodes s) <= 64)%nat as H64 by lia. pose proof (iterate_logs _ _ _ _ _ _ _ _ _ Ei) as Hlog.
  eapply (iterate_pool Intn Int63n sha256 _ c H64 HN) in Ei as (e' & p & -> & _); [|..|done|lia|].
  - injection H as <-. eexists. split; [reflexivity|]. destruct Hlog as (_ & Hden & Htal). cbn in Hden, Htal.
    split.
    + cbn [reportOf r_dropped].
      trans ((fun name => (name, default 0 (injected e' !! name))) <$> (i_Name <$> xs)); [by rewrite <- list_fmap_compose|].
      rewrite (buildAll_names _ _ _ _ Hf Hxs), <- list_fmap_compose. apply list_fmap_ext. intros _ f _. cbn.
      by rewrite Htal.
    + eapply Forall_impl; [exact Hden|]. intros d Hd. eapply denied_explained; [done..|].
      destruct Hd as (i & Hi & <-). apply find_some in Hi as [Hi _].
      assert (i_Name i ∈ label <$> Faults s) as (f & -> & _)%list_elem_of_fmap; [|apply label_named].
      rewrite <- (buildAll_names _ _ _ _ Hf Hxs). apply list_elem_of_fmap. exists i. split; [done|]. by apply list_elem_of_In.
  - apply Forall_forall. intros t Ht%elem_of_seqZ. unfold is_u64 in *. lia.
  - exists 0%nat. split; [apply (Restarts.New_ready _ c H64 HN)|constructor|apply heap_nil].
Qed.

(** *** Seeds *)

Lemma digitChar_visible d : 0 <= d < 36 -> visible (digitChar d).
Proof. intros Hd. unfold visible, digitChar. destruct (Z.ltb_spec d 10); lia. Qed.

Lemma digits_trim base pre c ds post :
  1 <= base <= 36 -> Forall (fun a => space1 a = true) pre -> Forall (fun a => space1 a = true) post ->
  Forall visible c -> Forall (fun d => 0 <= d < base) ds -> ds <> [] ->
  TrimSpace (pre ++ (c ++ (digitChar <$> ds)) ++ post) = c ++ (digitChar <$> ds).
Proof.
  intros Hb Hpre Hpost Hc Hd Hn.
  assert (Forall visible (c ++ (digitChar <$> ds))) as Hv.
  { apply Forall_app. split; [done|]. apply Forall_fmap. eapply Forall_impl; [exact Hd|]. intros d Hd'. cbn in Hd'.
    apply digitChar_visible. lia. }
  destruct (c ++ (digitChar <$> ds)) as [|x l] eqn:E.
  { apply app_eq_nil in E as [_ E]. by destruct ds. }
  destruct (last (x :: l)) as [y|] eqn:Hl; [|by apply last_None in Hl].
  apply (TrimSpace_pad pre (x :: l) post x y); [done..|by apply Forall_cons in Hv as [? _]|].
  rewrite Forall_forall in Hv. apply Hv. apply last_Some in Hl as [l' ->]. apply elem_of_app. right. apply list_elem_of_here.
Qed.

(** A seed in decimal, or in hexadecimal after [0x], with blanks around it, is
    read as the number it says if that fits an [int64], and refused otherwise. *)
Theorem seed_reading s pre post ds :
  Forall (fun a => space1 a = true) pre -> Forall (fun a => space1 a = true) post -> ds <> [] ->
  (Forall (fun d => 0 <= d < 10) ds -> head ds <> Some 0 -> bytesOf (Seed s) = pre ++ (digitChar <$> ds) ++ post ->
   ParsedSeed s = if decide (value 10 ds < 2 ^ 63) then inr (value 10 ds) else inl (InvalidSeed (Seed s))) /\
  (Forall (fun d => 0 <= d < 16) ds -> bytesOf (Seed s) = pre ++ (bytesOf "0x" ++ (digitChar <$> ds)) ++ post ->
   ParsedSeed s = if decide (value 16 ds < 2 ^ 63) then inr (value 16 ds) else inl (InvalidSeed (Seed s))).
Proof.
  intros Hpre Hpost Hn. split.
  - intros Hd H0 E. unfold ParsedSeed. rewrite E.
    pose proof (digits_trim 10 pre [] ds post ltac:(lia) Hpre Hpost ltac:(constructor) Hd Hn) as HT.
    cbn [app] in HT. rewrite HT.
    rewrite ParseInt_decimal by done. unfold int64. by case_decide.
  - intros Hd E. unfold ParsedSeed. rewrite E.
    rewrite (digits_trim 16 pre (bytesOf "0x") ds post ltac:(lia) Hpre Hpost ltac:(cbv; by repeat constructor) Hd Hn).
    change (bytesOf "0x" ++ (digitChar <$> ds)) with (48 :: 120 :: (digitChar <$> ds)).
    rewrite ParseInt_hex by done. unfold int64. by case_decide.
Qed.

Module Demo.

(** Three nodes; one is cut off from time 20 to 40, a command is proposed every 10
    steps, and a node crashes and restarts every 25. *)
Definition file : Scenario :=
  mkScenario "partition" " 0x4A2C " 3 60 0 0 10 25
    [mkFault "split" [1] [2; 3] [] 0 0 20 40; mkFault "link" [] [] [] 2 3 0 0].

(** A seed with a leading zero is octal: not the decimal number the field is
    said to hold. *)
Theorem seed_octal : ParsedSeed (mkScenario "" "010" 3 60 0 0 10 0 []) = inr 8.
Proof. reflexivity. Qed.

(** Draws that alternate, without loss. *)
Definition draw (n : Z) (r : Z) : Z * Z := (r mod n, r + 1).
Definition hash (b : bytes) : bytes := take 32 b.

(** A fault that starts at time 20 and has no end is in force at time 0. *)
Theorem start_ignored :
  let f := mkFault "isolate" [] [] [1] 0 0 20 0 in validFault 3 f /\ cuts 0 1 2 f.
Proof.
  cbn. split.
  - split; [by left|]. right. left. split; [done|]. by apply listed_singleton.
  - split; [by left|]. right. left. split; [done|]. left. apply list_elem_of_here.
Qed.

(** A delay that the engine cannot draw is accepted. *)
Definition slow : Scenario := mkScenario "" "1" 3 60 0 (2 ^ 63 - 1) 0 0 [].

Theorem slow_panics : Validate slow = None /\ runSimulate draw draw id hash 1000 (Read (Some slow) true) = Panic ().
Proof. split; vm_compute; reflexivity. Qed.

Lemma simulate_clean_witness :
  exists r, runSimulate draw draw id hash 1000 (Read (Some file) true) = Ret (Finished r) /\
    r_leader r <> 0 /\ 0 < r_maxCommit r /\ Forall (fun x => 0 < x.2) (r_dropped r) /\
    r_dropped r = (fun f => (label f, tally (label f) (dropsSimulate draw draw id hash 1000 file))) <$> Faults file.
Proof.
  destruct (runSimulate draw draw id hash 1000 (Read (Some file) true)) as [out| |] eqn:E.
  - pose proof (simulate_clean draw draw id hash 1000 (Some file) true out E) as H.
    assert (Read (Some file) true = inr file) as HR by (vm_compute; reflexivity). rewrite HR in H.
    destruct (H ltac:(unfold is_u64; cbn; lia)) as (r & -> & Hr & _). exists r. split; [reflexivity|].
    assert (match runSimulate draw draw id hash 1000 (Read (Some file) true) with
            | Ret (Finished r) => r_leader r <> 0 /\ 0 < r_maxCommit r /\ Forall (fun x => 0 < x.2) (r_dropped r)
            | _ => False
            end) as H1.
    { vm_compute. split; [discriminate|]. split; [reflexivity|]. repeat (constructor; [reflexivity|]). constructor. }
    rewrite E in H1. destruct H1 as (H1 & H2 & H3). split; [exact H1|]. split; [exact H2|]. split; [exact H3|exact Hr].
  - exfalso. vm_compute in E. discriminate E.
  - exfalso. vm_compute in E. discriminate E.
Defined.

End Demo.
End Scenario.
