(* ===== verification/Paxos.v ===== *)
(** * Single-decree Paxos under simulation

    [examples/paxos]: proposers and acceptors, the cluster the engine drives and
    the invariants it checks.  Results: at most one value is ever chosen and a
    node that believes its proposal was chosen is right, in every simulated run;
    and every step of a simulation returns. *)

From S2P Require Import Prelude Bytes Quorum EventHeap Engine EngineInv.

Module Paxos.

(** ** examples/paxos/paxos.go *)

Inductive Kind := Prepare | Promise | Accept | Accepted.

#[global] Instance Kind_eq_dec : EqDecision Kind.
Proof. solve_decision. Defined.

Record Message := mkMessage {
  m_Kind : Kind;
  m_From : Z;
  m_To : Z;
  m_Num : Z;
  m_Val : Z;
  m_OK : bool;
  m_AcceptedNum : Z;
  m_AcceptedVal : Z;
  m_HasAccepted : bool
}.

#[global] Instance Message_eq_dec : EqDecision Message.
Proof. solve_decision. Defined.

Inductive phase := idle | preparing | accepting | decided.

#[global] Instance phase_eq_dec : EqDecision phase.
Proof. solve_decision. Defined.

Record Acceptance := mkAcceptance { Num : Z; Val : Z }.

#[global] Instance Acceptance_eq_dec : EqDecision Acceptance.
Proof. solve_decision. Defined.

#[global] Instance Acceptance_countable : Countable Acceptance.
Proof.
  apply (inj_countable' (fun a => (Num a, Val a)) (fun p => mkAcceptance p.1 p.2)). by intros [].
Defined.

Record Node := mkNode {
  id : Z;
  size : Z;
  peers : list Z;
  promised : Z;
  acceptedNum : Z;
  acceptedVal : Z;
  hasAccepted : bool;
  accepts : list Acceptance;
  n_phase : phase;
  round : Z;
  myNum : Z;
  myVal : Z;
  promiseMask : Z;
  acceptMask : Z;
  bestNum : Z;
  bestVal : Z;
  hasBest : bool;
  elapsed : Z;
  timeout : Z;
  adopted : Z;
  outbound : list Message
}.

#[global] Instance eta_Node : Eta Node := fun n =>
  mkNode (id n) (size n) (peers n) (promised n) (acceptedNum n) (acceptedVal n) (hasAccepted n)
    (accepts n) (n_phase n) (round n) (myNum n) (myVal n) (promiseMask n) (acceptMask n)
    (bestNum n) (bestVal n) (hasBest n) (elapsed n) (timeout n) (adopted n) (outbound n).

(** The identifiers [1..count] that the loops of [NewNode] and [New] count. *)
Definition allIds (count : nat) : list Z := (fun i => w32 (Z.of_nat i)) <$> seq 1 count.

Definition NewNode (i : Z) (count : nat) (t : Z) : Node :=
  mkNode i (Z.of_nat count) (filter (fun j => j <> i) (allIds count)) 0 0 0 false [] idle
    0 0 0 0 0 0 0 false 0 t 0 [].

Definition quorum (n : Node) : Z := size n / 2 + 1.

Definition Decided (n : Node) : bool := bool_decide (n_phase n = decided).

(** A shift by 64 or more gives zero. *)
Definition bit (i : Z) : Z := let s := w32 (i - 1) in if s <? 64 then Z.shiftl 1 s else 0.

(** The loop that clears the lowest bit is that of [bitsSet]. *)
Definition popcount (mask : Z) : Z := bitsSet mask.

(** What [onPrepare] reports. *)
Record report := mkReport { r_ok : bool; r_num : Z; r_val : Z; r_has : bool }.

Definition onPrepare (num : Z) (n : Node) : report * Node :=
  if num <=? promised n then (mkReport false 0 0 false, n)
  else (mkReport true (acceptedNum n) (acceptedVal n) (hasAccepted n), n <| promised := num |>).

Definition onAccept (num val : Z) (n : Node) : bool * Node :=
  if num <? promised n then (false, n)
  else (true, n <| promised := num |> <| acceptedNum := num |> <| acceptedVal := val |>
                <| hasAccepted := true |> <| accepts := accepts n ++ [mkAcceptance num val] |>).

(** The messages to every peer. *)
Definition send (f : Z -> Message) (n : Node) : Node := n <| outbound := outbound n ++ (f <$> peers n) |>.

Definition prepareTo (n : Node) (peer : Z) : Message :=
  mkMessage Prepare (id n) peer (myNum n) 0 false 0 0 false.

Definition acceptTo (n : Node) (peer : Z) : Message :=
  mkMessage Accept (id n) peer (myNum n) (myVal n) false 0 0 false.

(** The first half of [recordPromise]: the promise and the best value seen. *)
Definition collect (from accNum accVal : Z) (hasAcc : bool) (n : Node) : Node :=
  let n := n <| promiseMask := Z.lor (promiseMask n) (bit from) |> in
  if hasAcc && (negb (hasBest n) || (bestNum n <? accNum))
  then n <| bestNum := accNum |> <| bestVal := accVal |> <| hasBest := true |>
  else n.

Definition adopt (n : Node) : Node :=
  if hasBest n then
    let n := if bestVal n =? myVal n then n else n <| adopted := adopted n + 1 |> in
    n <| myVal := bestVal n |>
  else n.

(** The second half: phase two, entered with a quorum of promises. *)
Definition startAccept (n : Node) : Node :=
  let n := adopt n <| n_phase := accepting |> <| acceptMask := 0 |> in
  let (ok, n) := onAccept (myNum n) (myVal n) n in
  let n := if ok : bool then n <| acceptMask := Z.lor (acceptMask n) (bit (id n)) |> else n in
  if quorum n <=? popcount (acceptMask n) then n <| n_phase := decided |> else send (acceptTo n) n.

Definition recordPromise (from accNum accVal : Z) (hasAcc : bool) (n : Node) : Node :=
  let n := collect from accNum accVal hasAcc n in
  if popcount (promiseMask n) <? quorum n then n else startAccept n.

(** The assignments at the start of [Propose]. *)
Definition startRound (val : Z) (n : Node) : Node :=
  let r := Z.max (w64 (round n + 1)) (w64 (promised n / size n + 1)) in
  n <| round := r |> <| myNum := w64 (w64 (r * size n) + id n) |> <| myVal := val |>
    <| n_phase := preparing |> <| elapsed := 0 |> <| promiseMask := 0 |> <| acceptMask := 0 |>
    <| hasBest := false |>.

Definition Propose (val : Z) (n : Node) : Node :=
  let n := startRound val n in
  let (r, n) := onPrepare (myNum n) n in
  let n := if r_ok r then recordPromise (id n) (r_num r) (r_val r) (r_has r) n else n in
  send (prepareTo n) n.

Definition Tick (n : Node) : Node :=
  if bool_decide (n_phase n <> preparing /\ n_phase n <> accepting) then n else
  let n := n <| elapsed := w64 (elapsed n + 1) |> in
  if timeout n <=? elapsed n then Propose (myVal n) n else n.

Definition Step (m : Message) (n : Node) : Node :=
  match m_Kind m with
  | Prepare =>
      let (r, n) := onPrepare (m_Num m) n in
      n <| outbound := outbound n ++
        [mkMessage Promise (id n) (m_From m) (m_Num m) 0 (r_ok r) (r_num r) (r_val r) (r_has r)] |>
  | Promise =>
      if negb (m_Num m =? myNum n) || bool_decide (n_phase n <> preparing) || negb (m_OK m) then n
      else recordPromise (m_From m) (m_AcceptedNum m) (m_AcceptedVal m) (m_HasAccepted m) n
  | Accept =>
      let (ok, n) := onAccept (m_Num m) (m_Val m) n in
      n <| outbound := outbound n ++ [mkMessage Accepted (id n) (m_From m) (m_Num m) 0 ok 0 0 false] |>
  | Accepted =>
      if negb (m_Num m =? myNum n) || bool_decide (n_phase n <> accepting) || negb (m_OK m) then n
      else
        let n := n <| acceptMask := Z.lor (acceptMask n) (bit (m_From m)) |> in
        if quorum n <=? popcount (acceptMask n) then n <| n_phase := decided |> else n
  end.

Definition Drain (dst : list Message) (n : Node) : list Message * Node :=
  (dst ++ outbound n, n <| outbound := [] |>).

(** ** examples/paxos/cluster.go *)

Record Cluster := mkCluster { ids : list Z; nodes : gmap Z Node }.

(** [New]; [None] is its panic. *)
Definition New (count : nat) : option Cluster :=
  if (count <? 1)%nat then None else
  Some (foldl (fun c i =>
          let j := w32 (Z.of_nat i) in
          mkCluster (ids c ++ [j]) (<[j := NewNode j count (w64 (12 + Z.of_nat i * 3))]> (nodes c)))
        (mkCluster [] ∅) (seq 1 count)).

(** A call on a node; a node that is not there is a nil pointer. *)
Definition onNode (f : Node -> Node) (i : Z) (c : Cluster) : option Cluster :=
  n ← nodes c !! i; Some (mkCluster (ids c) (<[i := f n]> (nodes c))).

Definition drain (i : Z) (c : Cluster) : option (Cluster * list Message) :=
  n ← nodes c !! i;
  let (out, n) := Drain [] n in Some (mkCluster (ids c) (<[i := n]> (nodes c)), out).

Definition kindCode (k : Kind) : Z :=
  match k with Prepare => 0 | Promise => 1 | Accept => 2 | Accepted => 3 end.

#[global] Instance cluster : Engine.Cluster Cluster Message := {
  Nodes := ids;
  c_Tick := onNode Tick;
  c_Deliver := fun i m => onNode (Step m) i;
  c_Drain := drain;
  Route := fun m => (m_From m, m_To m);
  Digest := fun m => (kindCode (m_Kind m), m_Num m)
}.

(** [Cluster.Propose]. *)
Definition propose (p : Z * Z) (c : Cluster) : option Cluster := onNode (Propose p.2) p.1 c.

(** [Acceptances] of every node, in the order of [ids]; [None] is a nil pointer. *)
Definition histories (c : Cluster) : option (list (list Acceptance)) :=
  mapM (fun i => accepts <$> nodes c !! i) (ids c).

Definition countOne (counts : gmap Acceptance Z) (a : Acceptance) : gmap Acceptance Z :=
  <[a := default 0 (counts !! a) + 1]> counts.

Definition seeOne (counts : gmap Acceptance Z) (q : Z) (s : gset Z * list Z) (a : Acceptance) : gset Z * list Z :=
  let (seen, found) := s in
  if (q <=? default 0 (counts !! a)) && negb (bool_decide (Val a ∈ seen))
  then ({[Val a]} ∪ seen, found ++ [Val a]) else (seen, found).

Definition chosenValues (c : Cluster) : option (list Z) :=
  hs ← histories c;
  let counts := foldl countOne ∅ (concat hs) in
  Some (foldl (seeOne counts (len (ids c) / 2 + 1)) (∅, []) (concat hs)).2.

Definition Chosen (c : Cluster) : option (Z * bool) :=
  vs ← chosenValues c; Some (match vs with [] => (0, false) | v :: _ => (v, true) end).

Definition anyDecided (c : Cluster) : bool :=
  existsb (fun i => match nodes c !! i with Some n => Decided n | None => false end) (ids c).

Definition Adoptions (c : Cluster) : Z :=
  foldl (fun total i => total + match nodes c !! i with Some n => adopted n | None => 0 end) 0 (ids c).

(** ** examples/paxos/invariants.go *)

Definition ErrNil : error := "nil pointer dereference".
Definition ErrBoth : error := "values were both chosen".
Definition ErrPromise : error := "node accepted above its promise".
Definition ErrBackwards : error := "node accepted backwards".

Definition checkSingleChoice (c : Cluster) : option error :=
  match chosenValues c with
  | None => Some ErrNil
  | Some vs => if (1 <? length vs)%nat then Some ErrBoth else None
  end.

Fixpoint promiseLoop (c : Cluster) (l : list Z) : option error :=
  match l with
  | [] => None
  | i :: l =>
      match nodes c !! i with
      | None => Some ErrNil
      | Some n => if hasAccepted n && (promised n <? acceptedNum n) then Some ErrPromise else promiseLoop c l
      end
  end.

Definition checkPromiseRespected (c : Cluster) : option error := promiseLoop c (ids c).

Fixpoint backwards (history : list Acceptance) : bool :=
  match history with
  | a :: ((b :: _) as l) => (Num b <? Num a) || backwards l
  | _ => false
  end.

Fixpoint historyLoop (c : Cluster) (l : list Z) : option error :=
  match l with
  | [] => None
  | i :: l =>
      match nodes c !! i with
      | None => Some ErrNil
      | Some n => if backwards (accepts n) then Some ErrBackwards else historyLoop c l
      end
  end.

Definition checkHistoryMonotonic (c : Cluster) : option error := historyLoop c (ids c).

Definition SafetyInvariants : list (Invariant (C := Cluster)) :=
  [mkInvariant "at most one value chosen" checkSingleChoice;
   mkInvariant "acceptor never accepts below its promise" checkPromiseRespected;
   mkInvariant "acceptance history is monotonic" checkHistoryMonotonic].

(** ** The protocol invariant

    The invariant speaks of the nodes [g] and the messages [F] that are in flight
    or in an outbound buffer, for a cluster of [N] nodes after at most [k] rounds
    were started. *)

Section protocol.
Variable N : nat.
Hypothesis N_pos : (1 <= N)%nat.
Hypothesis N_u32 : Z.of_nat N < 2 ^ 32.
Abbreviation ZN := (Z.of_nat N).
Implicit Types (g : gmap Z Node) (F : list Message).

Definition hist g (i : Z) : list Acceptance := match g !! i with Some n => accepts n | None => [] end.
Definition prom g (i : Z) : Z := match g !! i with Some n => promised n | None => 0 end.

Definition voters (mask : Z) : Prop := is_u64 mask /\ forall b, Z.testbit mask b = true -> 0 <= b < ZN.
Definition quorumOf (mask : Z) : Prop := voters mask /\ ZN / 2 + 1 <= popcount mask.

(** Acceptor [i] promised [num], and what it accepted below [num] is at most
    [best]. *)
Definition heard g (i num : Z) (best : option (Z * Z)) : Prop :=
  num <= prom g i /\
  forall a, a ∈ hist g i -> Num a < num -> match best with Some p => Num a <= p.1 | None => False end.

Definition origin g (num : Z) (best : option (Z * Z)) : Prop :=
  match best with Some (k, v) => k < num /\ exists i, mkAcceptance k v ∈ hist g i | None => True end.

Definition bestOf g (mask num : Z) (best : option (Z * Z)) : Prop :=
  (forall b, Z.testbit mask b = true -> heard g (b + 1) num best) /\ origin g num best.

(** A quorum promised [num], and [val] is the value of the highest acceptance it
    reported, if it reported one. *)
Definition SafeAt g (num val : Z) : Prop :=
  exists mask best, quorumOf mask /\ bestOf g mask num best /\ (best = None \/ exists k, best = Some (k, val)).

Definition proposal g F (num val : Z) : Prop :=
  (exists i, mkAcceptance num val ∈ hist g i) \/
  (exists m, m ∈ F /\ m_Kind m = Accept /\ m_Num m = num /\ m_Val m = val).

Definition own g (num val : Z) : Prop :=
  exists j n, g !! j = Some n /\ n_phase n <> idle /\ (exists r, num = r * ZN + j) /\ num <= myNum n /\
    (num = myNum n -> n_phase n <> preparing /\ val = myVal n).

Definition top (k : nat) : Z := (2 * Z.of_nat k + 1) * ZN.

Record local (k : nat) (i : Z) (n : Node) : Prop := {
  lo_id : id n = i;
  lo_size : size n = ZN;
  lo_peers : peers n = filter (fun j => j <> i) (allIds N);
  lo_promised : 0 <= promised n <= top k;
  lo_round : 0 <= round n <= 2 * Z.of_nat k;
  lo_num : n_phase n <> idle -> myNum n = round n * ZN + i
}.

Record acceptor_ok (n : Node) : Prop := {
  ac_le : Forall (fun a => Num a <= promised n) (accepts n);
  ac_mono : backwards (accepts n) = false;
  ac_last : if hasAccepted n
            then mkAcceptance (acceptedNum n) (acceptedVal n) ∈ accepts n /\
                 Forall (fun a => Num a <= acceptedNum n) (accepts n)
            else accepts n = []
}.

Definition best (n : Node) : option (Z * Z) := if hasBest n then Some (bestNum n, bestVal n) else None.

Record proposer_ok g (n : Node) : Prop := {
  pr_prepare : n_phase n = preparing -> voters (promiseMask n) /\ bestOf g (promiseMask n) (myNum n) (best n);
  pr_accept : n_phase n = accepting \/ n_phase n = decided ->
    voters (acceptMask n) /\
    forall b, Z.testbit (acceptMask n) b = true -> mkAcceptance (myNum n) (myVal n) ∈ hist g (b + 1);
  pr_decided : n_phase n = decided -> quorumOf (acceptMask n)
}.

Definition reported (m : Message) : option (Z * Z) :=
  if m_HasAccepted m then Some (m_AcceptedNum m, m_AcceptedVal m) else None.

Record msg_ok (k : nat) g (m : Message) : Prop := {
  mk_from : 1 <= m_From m <= ZN;
  mk_to : 1 <= m_To m <= ZN;
  mk_num : 0 <= m_Num m <= top k;
  mk_promise : m_Kind m = Promise -> m_OK m = true ->
    heard g (m_From m) (m_Num m) (reported m) /\ origin g (m_Num m) (reported m);
  mk_accepted : m_Kind m = Accepted -> m_OK m = true -> exists v, mkAcceptance (m_Num m) v ∈ hist g (m_From m)
}.

(** The proposals an acceptor made or may still make, by number. *)
Definition toward (i : Z) F : list Z := m_Num <$> filter (fun m => m_Kind m = Accept /\ m_To m = i) F.

Record Inv (k : nat) g F : Prop := {
  in_ids : forall i, is_Some (g !! i) <-> 1 <= i <= ZN;
  in_local : forall i n, g !! i = Some n -> local k i n;
  in_acceptor : forall i n, g !! i = Some n -> acceptor_ok n;
  in_proposer : forall i n, g !! i = Some n -> proposer_ok g n;
  in_msg : forall m, m ∈ F -> msg_ok k g m;
  in_safe : forall num val, proposal g F num val -> SafeAt g num val;
  in_own : forall num val, proposal g F num val -> own g num val;
  in_unique : forall num v w, proposal g F num v -> proposal g F num w -> v = w;
  in_once : forall i, NoDup ((Num <$> hist g i) ++ toward i F)
}.

(** *** Quorums *)

Lemma voters_count mask :
  voters mask -> popcount mask = len (filter (fun b => Z.testbit mask b = true) (seqZ 0 ZN)).
Proof.
  intros [Hu Hv]. unfold popcount. rewrite bitsSet_bits by done. unfold len. f_equal. apply Permutation_length.
  apply NoDup_Permutation; [apply NoDup_bits|apply NoDup_filter, NoDup_seqZ|]. intros b.
  rewrite elem_of_bits, list_elem_of_filter, elem_of_seqZ. split.
  - intros [Hb _]. split; [done|]. specialize (Hv b Hb). lia.
  - intros [Hb Hr]. split; [done|]. destruct (Z.lt_ge_cases b 64); [lia|]. by rewrite testbit_ge64 in Hb.
Qed.

(** A quorum of nodes, which the masks cannot represent above 64. *)
Definition crowd (L : list Z) : Prop := NoDup L /\ Forall (fun i => 1 <= i <= ZN) L /\ ZN / 2 + 1 <= len L.

Lemma quorum_meet mask L :
  quorumOf mask -> crowd L -> exists b, Z.testbit mask b = true /\ b + 1 ∈ L.
Proof.
  intros [Ha Hqa] (Hnd & HL & Hq). rewrite voters_count in Hqa by done.
  destruct (filter_overlap (fun b => Z.testbit mask b = true) (fun b => b + 1 ∈ L) (seqZ 0 ZN)) as (b & _ & H); [|eauto].
  assert (length L <= length (filter (fun b : Z => (b + 1)%Z ∈ L) (seqZ 0 ZN)))%nat as Hlen.
  { rewrite <- (length_fmap (fun i => i - 1) L). apply submseteq_length, NoDup_submseteq.
    - apply NoDup_fmap_2; [intros x y; lia|done].
    - intros x (i & -> & Hi)%list_elem_of_fmap. rewrite Forall_forall in HL. specialize (HL i Hi).
      apply list_elem_of_filter. rewrite Z.sub_add, elem_of_seqZ. split; [done|lia]. }
  rewrite length_seqZ. pose proof (Z.div_mod ZN 2). pose proof (Z.mod_pos_bound ZN 2). unfold len in *. lia.
Qed.

Lemma quorum_crowd mask : quorumOf mask -> crowd ((fun b => b + 1) <$> bits mask).
Proof.
  intros [[Hu Hv] Hq]. split; [apply NoDup_fmap_2; [intros x y; lia|apply NoDup_bits]|]. split.
  - apply Forall_forall. intros x (b & -> & [Hb _]%elem_of_bits)%list_elem_of_fmap. specialize (Hv b Hb). lia.
  - unfold popcount in Hq. rewrite bitsSet_bits in Hq by done. unfold len in *. by rewrite length_fmap.
Qed.

Lemma voters_0 : voters 0.
Proof. split; [unfold is_u64; lia|]. intros b. by rewrite Z.bits_0. Qed.

Lemma bit_spec i b : 1 <= i <= ZN -> 0 <= b -> Z.testbit (bit i) b = true -> b = i - 1.
Proof.
  intros Hi Hb. unfold bit, w32. rewrite Z.mod_small by lia. cbn zeta.
  destruct (Z.ltb_spec (i - 1) 64); [|by rewrite Z.bits_0]. rewrite testbit_bit by lia. apply Z.eqb_eq.
Qed.

Lemma voters_lor mask i :
  voters mask -> 1 <= i <= ZN ->
  voters (Z.lor mask (bit i)) /\
  forall b, Z.testbit (Z.lor mask (bit i)) b = true -> Z.testbit mask b = true \/ b + 1 = i.
Proof.
  intros [Hu Hv] Hi.
  assert (forall b, Z.testbit (Z.lor mask (bit i)) b = true -> Z.testbit mask b = true \/ b + 1 = i) as Hb.
  { intros b. destruct (Z.lt_ge_cases b 0); [by rewrite Z.testbit_neg_r|].
    rewrite Z.lor_spec, orb_true_iff. intros [?|?%bit_spec]; [by left|right; lia|done|done]. }
  split; [split|done].
  - apply lor_u64; [done|]. unfold bit, w32. rewrite Z.mod_small by lia. cbn zeta.
    destruct (Z.ltb_spec (i - 1) 64); [apply bit_u64; lia|unfold is_u64; lia].
  - intros b [H|H]%Hb; [by apply Hv|lia].
Qed.

(** *** Acceptors only grow *)

Record grows (n n' : Node) : Prop := {
  gr_prom : promised n <= promised n';
  gr_keep : forall a, a ∈ accepts n -> a ∈ accepts n';
  gr_new : forall a, a ∈ accepts n' -> a ∈ accepts n \/ promised n <= Num a
}.

Lemma grows_same n n' : promised n' = promised n -> accepts n' = accepts n -> grows n n'.
Proof. intros H1 H2. split; rewrite ?H1, ?H2; auto; lia. Qed.

Lemma hist_update g i n' j : hist (<[i := n']> g) j = if decide (j = i) then accepts n' else hist g j.
Proof.
  unfold hist. case_decide as H; [subst; by rewrite lookup_insert_eq|by rewrite lookup_insert_ne].
Qed.

Lemma prom_update g i n' j : prom (<[i := n']> g) j = if decide (j = i) then promised n' else prom g j.
Proof.
  unfold prom. case_decide as H; [subst; by rewrite lookup_insert_eq|by rewrite lookup_insert_ne].
Qed.

Lemma hist_update_eq g i n' : hist (<[i := n']> g) i = accepts n'.
Proof. by rewrite hist_update, decide_True. Qed.

Lemma prom_update_eq g i n' : prom (<[i := n']> g) i = promised n'.
Proof. by rewrite prom_update, decide_True. Qed.

Lemma hist_at g i n : g !! i = Some n -> hist g i = accepts n.
Proof. intros H. unfold hist. by rewrite H. Qed.

Lemma prom_at g i n : g !! i = Some n -> prom g i = promised n.
Proof. intros H. unfold prom. by rewrite H. Qed.

Section update.
Context (g : gmap Z Node) (i : Z) (n n' : Node) (Hn : g !! i = Some n) (Hg : grows n n').
Abbreviation g' := (<[i := n']> g).

Lemma prom_le j : prom g j <= prom g' j.
Proof. rewrite prom_update. case_decide; [subst; rewrite (prom_at g i n Hn); apply Hg|done]. Qed.

Lemma hist_keep j a : a ∈ hist g j -> a ∈ hist g' j.
Proof. rewrite hist_update. case_decide; [subst; rewrite (hist_at g i n Hn); apply Hg|done]. Qed.

Lemma hist_new j a : a ∈ hist g' j -> a ∈ hist g j \/ prom g j <= Num a.
Proof.
  rewrite hist_update. case_decide; [subst; rewrite (hist_at g i n Hn), (prom_at g i n Hn); apply Hg|auto].
Qed.

Lemma heard_stable j num b : heard g j num b -> heard g' j num b.
Proof.
  intros [H1 H2]. pose proof (prom_le j). split; [lia|]. intros a [Ha|Ha]%hist_new Hlt; [by apply H2|lia].
Qed.

Lemma origin_stable num b : origin g num b -> origin g' num b.
Proof.
  destruct b as [[k v]|]; [|done]. intros (H & j & Hj). split; [done|]. exists j. by apply hist_keep.
Qed.

Lemma bestOf_stable mask num b : bestOf g mask num b -> bestOf g' mask num b.
Proof. intros [H1 H2]. split; [|by apply origin_stable]. intros x Hx. by apply heard_stable, H1. Qed.

Lemma SafeAt_stable num val : SafeAt g num val -> SafeAt g' num val.
Proof. intros (mask & b & Hq & Hb & Hv). exists mask, b. split; [done|]. split; [by apply bestOf_stable|done]. Qed.

Lemma msg_stable k k' m : (k <= k')%nat -> msg_ok k g m -> msg_ok k' g' m.
Proof.
  intros Hk [H1 H1' H2 H3 H4]. split; [done|done|unfold top in *; nia| |].
  - intros HK HO. destruct (H3 HK HO). split; [by apply heard_stable|by apply origin_stable].
  - intros HK HO. destruct (H4 HK HO) as [v Hv]. exists v. by apply hist_keep.
Qed.

Lemma proposer_stable x : proposer_ok g x -> proposer_ok g' x.
Proof.
  intros [H1 H2 H3]. split; [| |done].
  - intros H. destruct (H1 H). split; [done|by apply bestOf_stable].
  - intros H. destruct (H2 H) as [Hv Hb]. split; [done|]. intros b Hb'. by apply hist_keep, Hb.
Qed.

End update.

Lemma local_mono k k' i n : (k <= k')%nat -> local k i n -> local k' i n.
Proof. intros Hk [H1 H2 H3 H4 H5 H6]. split; try done; unfold top in *; nia. Qed.

(** What a move may do to the proposer: start a higher round, or go on with the
    current one without taking back a value. *)
Definition advances (n n' : Node) : Prop :=
  n_phase n <> idle ->
  n_phase n' <> idle /\
  (myNum n < myNum n' \/
   myNum n = myNum n' /\ (n_phase n <> preparing -> n_phase n' <> preparing /\ myVal n' = myVal n)).

Lemma own_stable g i n n' num val :
  g !! i = Some n -> advances n n' -> own g num val -> own (<[i := n']> g) num val.
Proof.
  intros Hn Ha (j & x & Hx & Hi & Hr & Hle & Hv). unfold own. destruct (decide (j = i)) as [->|Hne].
  - rewrite Hn in Hx. injection Hx as ->. destruct (Ha Hi) as [Hi' Hm]. exists i, n'. rewrite lookup_insert_eq.
    split; [done|]. split; [done|]. split; [done|]. destruct Hm as [Hlt|[He Hk]]; [split; lia|].
    rewrite <- He. split; [done|]. intros E. destruct (Hv E) as [Hp ->]. destruct (Hk Hp) as [? ->]. done.
  - exists j, x. rewrite lookup_insert_ne by done. auto.
Qed.

(** The proposal of a round that enters phase two. *)
Definition opens (n n' : Node) : Prop :=
  n_phase n = preparing /\ n_phase n' <> preparing /\ n_phase n' <> idle /\ myNum n' = myNum n.

Lemma round_owner (r s i j : Z) : 1 <= i <= ZN -> 1 <= j <= ZN -> r * ZN + i = s * ZN + j -> i = j.
Proof. intros Hi Hj H. assert (r = s) by nia. nia. Qed.

Lemma preparing_none k g F i n w :
  Inv k g F -> g !! i = Some n -> n_phase n = preparing -> ~ proposal g F (myNum n) w.
Proof.
  intros HI Hn Hp (j & x & Hx & Hi & [r Hr] & _ & Hv)%(in_own _ _ _ HI).
  assert (1 <= i <= ZN) as Hgi by (apply (in_ids _ _ _ HI); by eexists).
  assert (1 <= j <= ZN) as Hgj by (apply (in_ids _ _ _ HI); by eexists).
  rewrite (lo_num _ _ _ (in_local _ _ _ HI i n Hn)) in Hr by by rewrite Hp.
  assert (i = j) as <- by by eapply round_owner. rewrite Hn in Hx. injection Hx as <-. by destruct (Hv eq_refl).
Qed.

(** One node moves: what is left to show. *)
Lemma Inv_update k k' g F F' i n n' :
  Inv k g F -> g !! i = Some n -> (k <= k')%nat -> grows n n' ->
  local k' i n' -> acceptor_ok n' -> proposer_ok (<[i := n']> g) n' -> advances n n' ->
  (forall m, m ∈ F' -> m ∈ F \/ msg_ok k' (<[i := n']> g) m) ->
  (forall num val, proposal (<[i := n']> g) F' num val ->
     proposal g F num val \/
     opens n n' /\ num = myNum n' /\ val = myVal n' /\ SafeAt (<[i := n']> g) num val) ->
  (forall j, NoDup ((Num <$> hist (<[i := n']> g) j) ++ toward j F')) ->
  Inv k' (<[i := n']> g) F'.
Proof.
  intros HI Hn Hk Hg Hl Hac Hpr Had Hm Hp Hnd. split; [| | | | | | | |done].
  - intros j. rewrite <- (in_ids _ _ _ HI). destruct (decide (j = i)) as [->|Hne].
    + rewrite lookup_insert_eq, Hn. split; by eexists.
    + by rewrite lookup_insert_ne.
  - intros j x [[<- <-]|[Hne Hx]]%lookup_insert_Some; [done|]. by apply (local_mono k), (in_local _ _ _ HI).
  - intros j x [[<- <-]|[Hne Hx]]%lookup_insert_Some; [done|]. by apply (in_acceptor _ _ _ HI j).
  - intros j x [[<- <-]|[Hne Hx]]%lookup_insert_Some; [done|].
    by apply (proposer_stable g i n n' Hn Hg), (in_proposer _ _ _ HI j).
  - intros m [HmF|?]%Hm; [|done]. by apply (msg_stable g i n n' Hn Hg k), (in_msg _ _ _ HI).
  - intros num val [H|H]%Hp; [|apply H]. by apply (SafeAt_stable g i n n' Hn Hg), (in_safe _ _ _ HI).
  - intros num val [H|(Ho & -> & -> & _)]%Hp; [by apply (own_stable g i n), (in_own _ _ _ HI)|].
    destruct Ho as (_ & Hp1 & Hi1 & _). exists i, n'. rewrite lookup_insert_eq. split; [done|]. split; [done|].
    split; [exists (round n'); by apply Hl|]. split; [done|auto].
  - intros num v w [Hv|(Hv & Ev & -> & _)]%Hp [Hw|(Hw & Ew & -> & _)]%Hp; [by eapply (in_unique _ _ _ HI)|exfalso..|done].
    + destruct Hw as (Hpn & _ & _ & E). rewrite Ew, E in Hv. by eapply preparing_none.
    + destruct Hv as (Hpn & _ & _ & E). rewrite Ev, E in Hw. by eapply preparing_none.
Qed.

(** *** Loss of messages *)

Lemma toward_app j F F' : toward j (F ++ F') = toward j F ++ toward j F'.
Proof. unfold toward. by rewrite filter_app, fmap_app. Qed.

Lemma Inv_loss k k' g F F' : Inv k g F -> (k <= k')%nat -> F' ⊆+ F -> Inv k' g F'.
Proof.
  intros HI Hk Hs. assert (forall m, m ∈ F' -> m ∈ F) as Hin by (intros m Hm; by eapply elem_of_submseteq).
  assert (forall num val, proposal g F' num val -> proposal g F num val) as Hp.
  { intros num val [?|(m & Hm & ?)]; [by left|right; exists m; auto]. }
  split.
  - apply HI.
  - intros i n Hn. by apply (local_mono k), (in_local _ _ _ HI).
  - apply HI.
  - apply HI.
  - intros m Hm%Hin. destruct (in_msg _ _ _ HI m Hm) as [H1 H1' H2 H3 H4]. split; try done. unfold top in *. nia.
  - intros num val H%Hp. by apply (in_safe _ _ _ HI).
  - intros num val H%Hp. by apply (in_own _ _ _ HI).
  - intros num v w Hv%Hp Hw%Hp. by eapply (in_unique _ _ _ HI).
  - intros i. pose proof (in_once _ _ _ HI i) as H. apply submseteq_Permutation in Hs as [L HL].
    unfold toward in *. rewrite HL, filter_app, fmap_app, app_assoc in H. by apply NoDup_app in H as [H _].
Qed.

(** *** Agreement *)

(** Once a quorum accepted [v] at [num], no higher proposal has another value. *)
Lemma chosen_stays k g F L num v :
  Inv k g F -> crowd L -> Forall (fun i => mkAcceptance num v ∈ hist g i) L ->
  forall num' w, num <= num' -> proposal g F num' w -> w = v.
Proof.
  intros HI HL Hv num'. rewrite Forall_forall in Hv.
  induction num' as [num' IH] using (well_founded_induction (Z.lt_wf num)).
  intros w Hle Hw. destruct (in_safe _ _ _ HI _ _ Hw) as (mask & bst & Hq & [Hh Ho] & Hb).
  destruct (quorum_meet mask L Hq HL) as (b & Hb1 & Hb2). specialize (Hv _ Hb2) as Ha.
  destruct (Z.eq_dec num num') as [<-|Hne].
  { eapply (in_unique _ _ _ HI num); [done|]. left. by eexists. }
  pose proof (proj2 (Hh b Hb1) _ Ha ltac:(cbn; lia)) as Hle'.
  destruct Hb as [->|[k' ->]]; [done|]. cbn in Hle', Ho. destruct Ho as (Hlt & j & Hj).
  apply (IH k'); [lia|done|]. left. by exists j.
Qed.

Lemma chosen_unique k g F L L' num num' v w :
  Inv k g F -> crowd L -> Forall (fun i => mkAcceptance num v ∈ hist g i) L ->
  crowd L' -> Forall (fun i => mkAcceptance num' w ∈ hist g i) L' -> v = w.
Proof.
  intros HI HL Hv HL' Hw.
  assert (forall L num v, crowd L -> Forall (fun i => mkAcceptance num v ∈ hist g i) L -> proposal g F num v) as Hp.
  { intros L0 num0 v0 (_ & _ & Hlen) H0. left. destruct L0 as [|i L0].
    - unfold len in Hlen. cbn in Hlen. pose proof (Z.div_pos ZN 2). lia.
    - apply Forall_cons in H0 as [H0 _]. by exists i. }
  destruct (Z.le_ge_cases num num') as [Hle|Hle].
  - symmetry. eapply (chosen_stays k g F L num v HI HL Hv num'); [done|by eapply (Hp L')].
  - eapply (chosen_stays k g F L' num' w HI HL' Hw num); [lia|by eapply (Hp L)].
Qed.

(** *** Moves *)

Lemma proposal_update g F i n n' num val :
  g !! i = Some n -> accepts n' = accepts n -> proposal (<[i := n']> g) F num val -> proposal g F num val.
Proof.
  intros Hn Ha [[j Hj]|H]; [|by right]. left. exists j. rewrite hist_update in Hj.
  case_decide; [subst; by rewrite (hist_at g i n Hn), <- Ha|done].
Qed.

(** A move without acceptances or messages. *)
Lemma Inv_quiet k k' g F i n n' :
  Inv k g F -> g !! i = Some n -> (k <= k')%nat -> promised n <= promised n' -> accepts n' = accepts n ->
  local k' i n' -> acceptor_ok n' -> proposer_ok (<[i := n']> g) n' -> advances n n' ->
  Inv k' (<[i := n']> g) F.
Proof.
  intros HI Hn Hk Hp Ha Hl Hac Hpr Had. apply (Inv_update k k' g F F i n n'); try done.
  - split; [done|by rewrite Ha|]. rewrite Ha. auto.
  - auto.
  - intros num val H. left. by eapply proposal_update.
  - intros j. rewrite hist_update. case_decide; [subst|]; [|apply HI].
    rewrite Ha, <- (hist_at g i n Hn). apply HI.
Qed.

(** What a move leaves alone, field by field. *)
Definition placed (n n' : Node) : Prop :=
  id n' = id n /\ size n' = size n /\ peers n' = peers n /\ round n' = round n /\ myNum n' = myNum n.

Definition acceptorSame (n n' : Node) : Prop :=
  promised n' = promised n /\ acceptedNum n' = acceptedNum n /\ acceptedVal n' = acceptedVal n /\
  hasAccepted n' = hasAccepted n /\ accepts n' = accepts n.

Definition proposerSame (n n' : Node) : Prop :=
  n_phase n' = n_phase n /\ myVal n' = myVal n /\ promiseMask n' = promiseMask n /\
  acceptMask n' = acceptMask n /\ best n' = best n.

Lemma local_placed k i n n' :
  local k i n -> placed n n' -> 0 <= promised n' <= top k -> (n_phase n' <> idle -> n_phase n <> idle) -> local k i n'.
Proof.
  intros [H1 H2 H3 H4 H5 H6] (E1 & E2 & E3 & E4 & E5) Hp Hi. split; rewrite ?E1, ?E2, ?E3, ?E4, ?E5; auto.
Qed.

Lemma acceptor_same n n' : acceptor_ok n -> acceptorSame n n' -> acceptor_ok n' /\ grows n n'.
Proof.
  intros [H1 H2 H3] (E1 & E2 & E3 & E4 & E5).
  split; [split; by rewrite ?E1, ?E2, ?E3, ?E4, ?E5|by apply grows_same].
Qed.

Lemma proposer_same g n n' : proposer_ok g n -> myNum n' = myNum n -> proposerSame n n' -> proposer_ok g n'.
Proof.
  intros [H1 H2 H3] E (E1 & E2 & E3 & E4 & E5). split; rewrite ?E, ?E1, ?E2, ?E3, ?E4, ?E5; auto.
Qed.

Lemma advances_same n n' : myNum n' = myNum n -> proposerSame n n' -> advances n n'.
Proof. intros E (E1 & E2 & _) Hi. rewrite E, E1, E2. auto. Qed.

(** A move of the acceptor's promise or the outbound buffer only. *)
Lemma Inv_promise k g F i n n' :
  Inv k g F -> g !! i = Some n -> placed n n' -> proposerSame n n' -> promised n <= promised n' <= top k ->
  acceptedNum n' = acceptedNum n -> acceptedVal n' = acceptedVal n -> hasAccepted n' = hasAccepted n ->
  accepts n' = accepts n -> Inv k (<[i := n']> g) F.
Proof.
  intros HI Hn Hpl Hps Hp E1 E2 E3 E4. pose proof (in_local _ _ _ HI i n Hn) as Hlo.
  pose proof (lo_promised _ _ _ Hlo). assert (myNum n' = myNum n) as En by apply Hpl.
  apply (Inv_quiet k k g F i n); try done; [lia| | | |].
  - eapply local_placed; [done|done|lia|]. by rewrite (proj1 Hps).
  - destruct (in_acceptor _ _ _ HI i n Hn) as [H1 H2 H3]. split; rewrite ?E1, ?E2, ?E3, ?E4; try done.
    eapply Forall_impl; [exact H1|]. cbn. lia.
  - eapply proposer_stable; [exact Hn|split; rewrite ?E4; auto; lia|].
    by eapply proposer_same; [apply (in_proposer _ _ _ HI i n)|..].
  - by apply advances_same.
Qed.

(** The outbound buffers are no concern of the invariant. *)
Lemma Inv_outbound k g F i n out :
  Inv k g F -> g !! i = Some n -> Inv k (<[i := n <| outbound := out |>]> g) F.
Proof.
  intros HI Hn. pose proof (lo_promised _ _ _ (in_local _ _ _ HI i n Hn)).
  apply (Inv_promise k g F i n); try done; [by repeat split..|]. cbn. lia.
Qed.

Lemma Inv_send k g F new :
  Inv k g F -> Forall (fun m => msg_ok k g m /\ m_Kind m <> Accept) new -> Inv k g (new ++ F).
Proof.
  intros HI Hnew. rewrite Forall_forall in Hnew.
  assert (forall num val, proposal g (new ++ F) num val -> proposal g F num val) as Hp.
  { intros num val [?|(m & [Hm|Hm]%elem_of_app & HK & ?)]; [by left|by destruct (Hnew m Hm)|right; by exists m]. }
  split; try apply HI.
  - intros m [Hm|Hm]%elem_of_app; [by apply Hnew|by apply HI].
  - intros num val H%Hp. by apply (in_safe _ _ _ HI).
  - intros num val H%Hp. by apply (in_own _ _ _ HI).
  - intros num v w Hv%Hp Hw%Hp. by eapply (in_unique _ _ _ HI).
  - intros i. rewrite toward_app. assert (toward i new = []) as ->; [|apply HI].
    unfold toward. rewrite filter_none; [done|]. intros m Hm [? _]. by destruct (Hnew m Hm).
Qed.

(** Phase one at an acceptor: what it reports is right. *)
Lemma onPrepare_Inv k g F i n num r n' :
  Inv k g F -> g !! i = Some n -> 0 <= num <= top k -> onPrepare num n = (r, n') ->
  Inv k (<[i := n']> g) F /\
  (r_ok r = true ->
     let b := if r_has r then Some (r_num r, r_val r) else None in
     heard (<[i := n']> g) i num b /\ origin (<[i := n']> g) num b).
Proof.
  intros HI Hn Hnum. unfold onPrepare. destruct (Z.leb_spec num (promised n)); intros [= <- <-].
  { split; [|done]. by rewrite insert_id. }
  pose proof (in_acceptor _ _ _ HI i n Hn) as [Hle Hmo Hla].
  assert (Inv k (<[i := n <| promised := num |>]> g) F) as HI'.
  { apply (Inv_promise k g F i n); try done; [by repeat split..|]. cbn. lia. }
  split; [done|]. intros _. cbn [r_has r_num r_val]. unfold heard, origin.
  rewrite prom_update_eq, hist_update_eq. cbn.
  rewrite Forall_forall in Hle. destruct (hasAccepted n).
  - destruct Hla as [Hin Hmax]. rewrite Forall_forall in Hmax. split.
    + split; [done|]. intros a Ha _. by apply Hmax.
    + split; [specialize (Hle _ Hin); cbn in Hle; lia|]. exists i. by rewrite hist_update_eq.
  - rewrite Hla. split; [|done]. split; [done|]. intros a Ha. by apply not_elem_of_nil in Ha.
Qed.

Lemma backwards_snoc l a : backwards l = false -> Forall (fun x => Num x <= Num a) l -> backwards (l ++ [a]) = false.
Proof.
  induction l as [|x l IH]; [done|]. intros Hb Hl. apply Forall_cons in Hl as [Hx Hl].
  destruct l as [|y l]; cbn in *.
  - destruct (Z.ltb_spec (Num a) (Num x)); [lia|done].
  - apply orb_false_iff in Hb as [-> Hb]. by apply IH.
Qed.

(** The acceptor after it accepted. *)
Definition acceptorTook (num val : Z) (n n' : Node) : Prop :=
  promised n' = num /\ acceptedNum n' = num /\ acceptedVal n' = val /\
  hasAccepted n' = true /\ accepts n' = accepts n ++ [mkAcceptance num val].

Lemma acceptor_took num val n n' :
  acceptor_ok n -> promised n <= num -> acceptorTook num val n n' -> acceptor_ok n' /\ grows n n'.
Proof.
  intros [Hle Hmo Hla] Hnum (E1 & E2 & E3 & E4 & E5).
  assert (Forall (fun a => Num a <= num) (accepts n)) as Hall by (eapply Forall_impl; [exact Hle|]; cbn; lia).
  assert (Forall (fun a => Num a <= num) (accepts n')) as Hall'.
  { rewrite E5. apply Forall_app. split; [done|]. by apply Forall_singleton. }
  split; split; rewrite ?E1, ?E2, ?E3, ?E4; try done; rewrite E5.
  - by apply backwards_snoc.
  - rewrite <- E5. split; [|done]. rewrite E5. apply elem_of_app. right. by apply list_elem_of_singleton.
  - intros a Ha. apply elem_of_app. by left.
  - intros a [Ha|Ha%list_elem_of_singleton]%elem_of_app; [by left|]. subst a. by right.
Qed.

(** The better of two reports. *)
Definition merge (b b' : option (Z * Z)) : option (Z * Z) :=
  match b, b' with
  | Some p, Some p' => if p.1 <? p'.1 then b' else b
  | None, Some _ => b'
  | _, None => b
  end.

(** A promise is recorded: the best value covers the new acceptor too. *)
Lemma merge_bestOf g mask num b i b' :
  bestOf g mask num b -> heard g i num b' -> origin g num b' ->
  (forall x, Z.testbit mask x = true \/ x + 1 = i -> heard g (x + 1) num (merge b b')) /\
  origin g num (merge b b').
Proof.
  intros [Hh Ho] Hi Ho'.
  assert (forall j, heard g j num b \/ heard g j num b' -> heard g j num (merge b b')) as Hc.
  { unfold merge, heard. destruct b as [[x v]|], b' as [[y w]|]; cbn; [destruct (Z.ltb_spec x y)|..]; cbn;
      intros j [[H1 H2]|[H1 H2]]; (split; [done|]; intros a Ha Hlt; specialize (H2 a Ha Hlt); cbn in H2; lia || done). }
  split.
  - intros x [Hx|<-]; apply Hc; [left; by apply Hh|by right].
  - unfold merge. destruct b as [[x v]|], b' as [[y w]|]; [destruct (_ <? _)|..]; done.
Qed.

Lemma collect_fields from accNum accVal (hasAcc : bool) n :
  let n' := collect from accNum accVal hasAcc n in
  promiseMask n' = Z.lor (promiseMask n) (bit from) /\
  best n' = merge (best n) (if hasAcc then Some (accNum, accVal) else None) /\
  placed n n' /\ acceptorSame n n' /\ n_phase n' = n_phase n /\ outbound n' = outbound n.
Proof.
  unfold collect, best, merge, placed, acceptorSame. destruct hasAcc, (hasBest n) eqn:E; cbn; rewrite ?E; cbn;
    [destruct (_ <? _); cbn; rewrite ?E|..]; by repeat split.
Qed.

Lemma collect_Inv k g F i n from accNum accVal (hasAcc : bool) :
  let b := if hasAcc then Some (accNum, accVal) else None in
  Inv k g F -> g !! i = Some n -> n_phase n = preparing -> 1 <= from <= ZN ->
  heard g from (myNum n) b -> origin g (myNum n) b ->
  Inv k (<[i := collect from accNum accVal hasAcc n]> g) F.
Proof.
  intros b HI Hn Hp Hf Hh Ho. destruct (collect_fields from accNum accVal hasAcc n) as (Hm & Hb & Hpl & Has & Hph & _).
  set (n' := collect _ _ _ _ n) in *. clearbody n'. assert (myNum n' = myNum n) as En by apply Hpl. fold b in Hb.
  destruct (acceptor_same n n' (in_acceptor _ _ _ HI i n Hn) Has) as [Hac Hg].
  pose proof (in_local _ _ _ HI i n Hn) as Hlo. pose proof (lo_promised _ _ _ Hlo).
  apply (Inv_quiet k k g F i n); try done; [apply Hg|apply Has| | |].
  - eapply local_placed; [done|done|by rewrite (proj1 Has)|by rewrite Hph].
  - eapply proposer_stable; [exact Hn|done|]. split; rewrite Hph, Hp; [|by intros [?|?]|done].
    intros _. destruct (pr_prepare _ _ (in_proposer _ _ _ HI i n Hn) Hp) as [Hv Hbest].
    destruct (voters_lor (promiseMask n) from Hv Hf) as [Hv' Hbits]. rewrite Hm, En. split; [done|].
    destruct (merge_bestOf g _ _ _ from b Hbest Hh Ho) as [H1 H2]. rewrite Hb. split; [|done].
    intros x Hx%Hbits. by apply H1.
  - intros _. rewrite Hph, En, Hp. split; [done|]. right. split; [done|]. done.
Qed.

(** The value of phase two, and its messages. *)
Definition pick (n : Node) : Z := match best n with Some p => p.2 | None => myVal n end.

Definition accepts_of (i num val : Z) (l : list Z) : list Message :=
  (fun p => mkMessage Accept i p num val false 0 0 false) <$> l.

Lemma adopt_fields n :
  let n' := adopt n in
  myVal n' = pick n /\ placed n n' /\ acceptorSame n n' /\ outbound n' = outbound n.
Proof.
  unfold adopt, pick, best, placed, acceptorSame. destruct (hasBest n); cbn; [destruct (_ =? _)|]; cbn; by repeat split.
Qed.

Lemma startAccept_fields n :
  let n' := startAccept n in
  placed n n' /\ myVal n' = pick n /\
  (n_phase n' = accepting \/ n_phase n' = decided /\ quorum n <= popcount (acceptMask n')) /\
  (acceptorSame n n' /\ acceptMask n' = 0 \/
   promised n <= myNum n /\ acceptorTook (myNum n) (pick n) n n' /\ acceptMask n' = Z.lor 0 (bit (id n))) /\
  exists new, outbound n' = outbound n ++ new /\
    (new = [] \/ new = accepts_of (id n) (myNum n) (pick n) (peers n)).
Proof.
  destruct (adopt_fields n) as (Hv & (P1 & P2 & P3 & P4 & P5) & (A1 & A2 & A3 & A4 & A5) & Ho).
  unfold startAccept, onAccept, quorum, placed, acceptorSame, acceptorTook. cbn. rewrite P5, A1.
  destruct (Z.ltb_spec (myNum n) (promised n)); cbn; rewrite ?P2;
    match goal with |- context [?a <=? ?b] => destruct (Z.leb_spec a b) end; cbn;
    rewrite ?P1, ?P2, ?P3, ?P4, ?P5, ?Hv, ?A1, ?A2, ?A3, ?A4, ?A5, ?Ho in *.
  all: split_and!; try done; try (by right); try (by left).
  - exists []. rewrite app_nil_r. auto.
  - eexists. split; [done|]. right. unfold acceptTo, accepts_of. cbn. by rewrite P1, P5, Hv.
  - exists []. rewrite app_nil_r. auto.
  - eexists. split; [done|]. right. unfold acceptTo, accepts_of. cbn. by rewrite P1, P5, Hv.
Qed.

Lemma allIds_eq : allIds N = seqZ 1 ZN.
Proof.
  unfold allIds, seqZ. rewrite Nat2Z.id, <- fmap_S_seq, <- list_fmap_compose. apply list_fmap_ext.
  intros i x Hx. apply lookup_seq in Hx as [-> Hlt]. cbn [compose]. unfold compose, w32.
  rewrite Z.mod_small by lia. lia.
Qed.

Lemma elem_of_allIds x : x ∈ allIds N <-> 1 <= x <= ZN.
Proof. rewrite allIds_eq, elem_of_seqZ. lia. Qed.

Lemma NoDup_allIds : NoDup (allIds N).
Proof. rewrite allIds_eq. apply NoDup_seqZ. Qed.

(** The numbers of the Accept messages of one broadcast. *)
Lemma toward_broadcast j l f num :
  NoDup l -> (forall p, m_To (f p) = p) -> (forall p, m_Num (f p) = num) ->
  toward j (f <$> l) ⊆+ (if decide (j ∈ l) then [num] else []).
Proof.
  intros Hl Hto Hnum. induction l as [|p l IH]; [done|]. apply NoDup_cons in Hl as [Hp Hl]. specialize (IH Hl).
  unfold toward in *. rewrite fmap_cons, filter_cons. destruct (decide (j = p)) as [->|Hne].
  - rewrite (decide_True (P := p ∈ p :: l)) by apply list_elem_of_here. rewrite (decide_False (P := p ∈ l)) in IH by done.
    apply submseteq_nil_r in IH. case_decide; rewrite ?fmap_cons, IH; [by rewrite Hnum|by apply submseteq_nil_l].
  - rewrite (decide_False (P := _ /\ _)) by (rewrite Hto; intros [_ E]; by apply Hne).
    destruct (decide (j ∈ l)) as [Hj|Hj].
    + by rewrite decide_True by (by apply elem_of_cons; right).
    + rewrite decide_False; [done|]. intros [?|?]%elem_of_cons; done.
Qed.

Lemma once_proposal g F j x : x ∈ (Num <$> hist g j) ++ toward j F -> exists v, proposal g F x v.
Proof.
  intros [(a & -> & Ha)%list_elem_of_fmap|(m & -> & Hm)%list_elem_of_fmap]%elem_of_app.
  - exists (Val a). left. exists j. by destruct a.
  - apply list_elem_of_filter in Hm as [[HK _] Hm]. exists (m_Val m). right. by exists m.
Qed.

Lemma once_fresh g g' F F' k num j :
  Inv k g F -> (forall w, ~ proposal g F num w) ->
  (Num <$> hist g' j) ++ toward j F' ⊆+ num :: ((Num <$> hist g j) ++ toward j F) ->
  NoDup ((Num <$> hist g' j) ++ toward j F').
Proof.
  intros HI Hno Hs. assert (NoDup (num :: ((Num <$> hist g j) ++ toward j F))) as Hnd.
  { constructor; [|apply HI]. intros [v Hv]%once_proposal. by eapply Hno. }
  apply submseteq_Permutation in Hs as [L HL]. rewrite HL in Hnd. by apply NoDup_app in Hnd as [? _].
Qed.

Lemma toward_accepts i num val j : toward j (accepts_of i num val (filter (fun p => p <> i) (allIds N))) ⊆+
  (if decide (j = i) then [] else [num]).
Proof.
  etrans; [apply (toward_broadcast j _ _ num); [apply NoDup_filter, NoDup_allIds|done|done]|].
  destruct (decide (j = i)) as [->|Hne].
  - rewrite decide_False; [done|]. by intros [? _]%list_elem_of_filter.
  - case_decide; [done|]. by apply submseteq_nil_l.
Qed.

Section phase_two.
Context (k : nat) (g : gmap Z Node) (F : list Message) (i : Z) (n n' : Node) (new : list Message).
Context (HI : Inv k g F) (Hn : g !! i = Some n) (Hp : n_phase n = preparing) (Hq : quorumOf (promiseMask n)).
Context (Hpl : placed n n') (Hv : myVal n' = pick n).
Context (Hph : n_phase n' = accepting \/ n_phase n' = decided /\ quorum n <= popcount (acceptMask n')).
Context (Hac : acceptorSame n n' /\ acceptMask n' = 0 \/
  promised n <= myNum n /\ acceptorTook (myNum n) (pick n) n n' /\ acceptMask n' = Z.lor 0 (bit (id n))).
Context (Hnew : new = [] \/ new = accepts_of (id n) (myNum n) (pick n) (peers n)).

Lemma phase_two_grows : acceptor_ok n' /\ grows n n'.
Proof.
  pose proof (in_acceptor _ _ _ HI i n Hn) as Hok.
  destruct Hac as [[? _]|(Hle & Ht & _)]; [by apply acceptor_same|by eapply acceptor_took].
Qed.

Lemma phase_two_id : 1 <= i <= ZN /\ id n = i /\ 0 <= myNum n <= top k.
Proof.
  assert (1 <= i <= ZN) as Hi by (apply (in_ids _ _ _ HI); by eexists).
  destruct (in_local _ _ _ HI i n Hn) as [Lid Lsz Lpe Lpr Lro Lnu]. split; [done|]. split; [done|].
  rewrite Lnu by by rewrite Hp. unfold top. nia.
Qed.

Lemma phase_two_hist j a :
  a ∈ hist (<[i := n']> g) j -> a ∈ hist g j \/ j = i /\ a = mkAcceptance (myNum n) (pick n).
Proof.
  rewrite hist_update. case_decide as Hj; [subst j|by left]. rewrite (hist_at g i n Hn).
  destruct Hac as [[(_ & _ & _ & _ & ->) _]|(_ & (_ & _ & _ & _ & ->) & _)]; [by left|].
  intros [?|?%list_elem_of_singleton]%elem_of_app; [by left|by right].
Qed.

Lemma phase_two_proposer : proposer_ok (<[i := n']> g) n'.
Proof.
  destruct phase_two_id as (Hi & Lid & _). assert (myNum n' = myNum n) as En by apply Hpl.
  assert (voters (acceptMask n') /\ forall b, Z.testbit (acceptMask n') b = true ->
    b + 1 = i /\ accepts n' = accepts n ++ [mkAcceptance (myNum n) (pick n)]) as [Hvo Hb].
  { destruct Hac as [[_ ->]|(_ & (_ & _ & _ & _ & E) & ->)]; [split; [apply voters_0|intros b; by rewrite Z.bits_0]|].
    rewrite Lid. destruct (voters_lor 0 i voters_0 Hi) as [Hvo Hb]. split; [done|].
    intros b [H0|H0]%Hb; [by rewrite Z.bits_0 in H0|done]. }
  split.
  - intros E. rewrite E in Hph. by destruct Hph as [?|[? _]].
  - intros _. split; [done|]. intros b [<- E]%Hb. rewrite hist_update_eq, E, En, Hv.
    apply elem_of_app. right. by apply list_elem_of_singleton.
  - intros E. split; [done|]. rewrite E in Hph. destruct Hph as [?|[_ Hqu]]; [done|]. unfold quorum in Hqu.
    by rewrite (lo_size _ _ _ (in_local _ _ _ HI i n Hn)) in Hqu.
Qed.

Lemma phase_two_once j : NoDup ((Num <$> hist (<[i := n']> g) j) ++ toward j (new ++ F)).
Proof.
  destruct phase_two_id as (Hi & Lid & _).
  apply (once_fresh g _ F _ k (myNum n)); [done|intros w; by eapply preparing_none|]. rewrite toward_app.
  assert (toward j new ⊆+ if decide (j = i) then [] else [myNum n]) as Ht.
  { destruct Hnew as [->| ->]; [by apply submseteq_nil_l|].
    rewrite (lo_peers _ _ _ (in_local _ _ _ HI i n Hn)), Lid. apply toward_accepts. }
  rewrite hist_update. case_decide as Hj.
  - subst j. apply submseteq_nil_r in Ht. rewrite Ht, (hist_at g i n Hn). cbn [app].
    destruct Hac as [[(_ & _ & _ & _ & ->) _]|(_ & (_ & _ & _ & _ & ->) & _)]; [by apply submseteq_cons|].
    rewrite fmap_app, <- app_assoc. cbn. by rewrite <- Permutation_middle.
  - rewrite (app_assoc (Num <$> hist g j)), (Permutation_app_comm (Num <$> hist g j)), <- app_assoc.
    by apply (submseteq_app _ [myNum n]).
Qed.

Lemma phase_two_Inv : Inv k (<[i := n']> g) (new ++ F).
Proof.
  destruct phase_two_grows as [Hok Hg]. destruct phase_two_id as (Hi & Lid & Hnum).
  assert (myNum n' = myNum n) as En by apply Hpl.
  assert (n_phase n' <> preparing /\ n_phase n' <> idle) as [Hnp Hni] by (destruct Hph as [->|[-> _]]; done).
  apply (Inv_update k k g F _ i n n'); try done.
  - eapply local_placed; [by apply (in_local _ _ _ HI)|done| |by rewrite Hp].
    pose proof (lo_promised _ _ _ (in_local _ _ _ HI i n Hn)).
    by destruct Hac as [[(-> & _) _]|(_ & (-> & _) & _)].
  - apply phase_two_proposer.
  - intros _. rewrite En. split; [done|]. right. split; [done|]. by rewrite Hp.
  - intros m [Hm|Hm]%elem_of_app; [right|by left]. destruct Hnew as [->| ->]; [by apply not_elem_of_nil in Hm|].
    apply list_elem_of_fmap in Hm as (p & -> & Hpe).
    rewrite (lo_peers _ _ _ (in_local _ _ _ HI i n Hn)) in Hpe.
    apply list_elem_of_filter in Hpe as [_ Hpe%elem_of_allIds]. split; cbn; try done; lia.
  - assert (SafeAt (<[i := n']> g) (myNum n) (pick n)) as Hsafe.
    { apply (SafeAt_stable g i n n' Hn Hg). exists (promiseMask n), (best n). split; [done|].
      split; [by apply (pr_prepare _ _ (in_proposer _ _ _ HI i n Hn) Hp)|]. unfold pick.
      destruct (best n) as [[x v]|]; [right; by eexists|by left]. }
    intros num val [[j [Ha|[-> [= -> ->]]]%phase_two_hist]|(m & [Hm|Hm]%elem_of_app & HK & <- & <-)]; rewrite ?En, ?Hv.
    + left. left. by exists j.
    + by right.
    + right. destruct Hnew as [->| ->]; [by apply not_elem_of_nil in Hm|].
      apply list_elem_of_fmap in Hm as (p & -> & Hpe). by cbn.
    + left. right. by exists m.
  - apply phase_two_once.
Qed.

End phase_two.

(** Both halves of [recordPromise]. *)
Lemma recordPromise_Inv k g F i n from accNum accVal (hasAcc : bool) :
  let b := if hasAcc then Some (accNum, accVal) else None in
  Inv k g F -> g !! i = Some n -> n_phase n = preparing -> 1 <= from <= ZN ->
  heard g from (myNum n) b -> origin g (myNum n) b ->
  let n' := recordPromise from accNum accVal hasAcc n in
  n_phase n' <> idle /\ exists new, outbound n' = outbound n ++ new /\ Inv k (<[i := n']> g) (new ++ F).
Proof.
  intros b HI Hn Hp Hf Hh Ho n'. unfold n', recordPromise. clear n'.
  pose proof (collect_Inv k g F i n from accNum accVal hasAcc HI Hn Hp Hf Hh Ho) as HI1.
  destruct (collect_fields from accNum accVal hasAcc n) as (_ & _ & Hpl & _ & Eph & Eo). rewrite Hp in Eph.
  set (n1 := collect _ _ _ _ n) in *. clearbody n1.
  destruct (Z.ltb_spec (popcount (promiseMask n1)) (quorum n1)) as [Hlt|Hge].
  - rewrite Eph. split; [done|]. exists []. by rewrite app_nil_r.
  - assert (<[i := n1]> g !! i = Some n1) as Hn1 by by rewrite lookup_insert_eq.
    assert (quorumOf (promiseMask n1)) as Hq.
    { split; [by apply (pr_prepare _ _ (in_proposer _ _ _ HI1 i n1 Hn1) Eph)|].
      unfold quorum in Hge. by rewrite (lo_size _ _ _ (in_local _ _ _ HI1 i n1 Hn1)) in Hge. }
    destruct (startAccept_fields n1) as (H1 & H2 & H3 & H4 & new & H5 & H6).
    split; [by destruct H3 as [->|[-> _]]|]. exists new. rewrite Eo in H5. split; [done|].
    pose proof (phase_two_Inv k _ F i n1 _ new HI1 Hn1 Eph Hq H1 H2 H3 H4 H6) as H7. by rewrite insert_insert_eq in H7.
Qed.

(** *** Starting a round *)

Lemma startRound_num k i n val :
  local k i n -> 1 <= i <= ZN -> top (S k) < 2 ^ 64 ->
  let n' := startRound val n in
  0 <= round n < round n' /\ round n' <= 2 * Z.of_nat (S k) /\ myNum n' = round n' * ZN + i /\
  promised n < myNum n' <= top (S k).
Proof.
  intros [Lid Lsz Lpe Lpr Lro Lnu] Hi Ht n'. unfold top in Ht, Lpr. unfold n', startRound. cbn -[Z.mul Z.of_nat].
  rewrite Lsz, Lid. pose proof (Z.div_mod (promised n) ZN ltac:(lia)). pose proof (Z.mod_pos_bound (promised n) ZN ltac:(lia)).
  assert (0 <= promised n / ZN <= 2 * Z.of_nat k + 1) by (split; [by apply Z.div_pos; lia|]; apply Z.div_le_upper_bound; nia).
  unfold w64. rewrite (Z.mod_small (round n + 1)) by nia. rewrite (Z.mod_small (promised n / ZN + 1)) by nia.
  set (r := Z.max _ _). assert (0 < r <= 2 * Z.of_nat (S k)) by lia.
  rewrite (Z.mod_small (r * ZN)) by nia. rewrite Z.mod_small by nia. unfold top. split; [lia|]. split; [lia|].
  split; [done|]. split; [|nia]. assert (promised n / ZN + 1 <= r) by lia. nia.
Qed.

Lemma startRound_Inv k g F i n val :
  Inv k g F -> g !! i = Some n -> top (S k) < 2 ^ 64 -> Inv (S k) (<[i := startRound val n]> g) F.
Proof.
  intros HI Hn Ht. pose proof (in_local _ _ _ HI i n Hn) as Hlo.
  assert (1 <= i <= ZN) as Hi by (apply (in_ids _ _ _ HI); by eexists).
  destruct (startRound_num k i n val Hlo Hi Ht) as (Hr & Hr' & Hm & Hp). pose proof Hlo as [Lid Lsz Lpe Lpr Lro Lnu].
  apply (Inv_quiet k (S k) g F i n); try done; [lia| | | |].
  - split; try done; [cbn; unfold top in *; nia|lia].
  - by destruct (in_acceptor _ _ _ HI i n Hn); split.
  - split; [|by intros [?|?]|done]. intros _. split; [apply voters_0|]. split; [|done]. intros b. by rewrite Z.bits_0.
  - intros Hph. split; [done|]. left. rewrite Hm, Lnu by done. nia.
Qed.

Lemma msgs_prepare k g n i :
  local k i n -> 1 <= i <= ZN -> 0 <= myNum n <= top k ->
  Forall (fun m => msg_ok k g m /\ m_Kind m <> Accept) (prepareTo n <$> peers n).
Proof.
  intros [Lid Lsz Lpe Lpr Lro Lnu] Hi Hnum. apply Forall_forall. intros m (p & -> & Hp)%list_elem_of_fmap.
  rewrite Lpe in Hp. apply list_elem_of_filter in Hp as [_ Hp%elem_of_allIds].
  split; [|done]. split; cbn; try done; lia.
Qed.

Lemma onPrepare_fields num n r n' :
  onPrepare num n = (r, n') -> placed n n' /\ n_phase n' = n_phase n /\ outbound n' = outbound n.
Proof. unfold onPrepare. destruct (_ <=? _); intros [= <- <-]; by repeat split. Qed.

Lemma Propose_Inv k g F i n val :
  Inv k g F -> g !! i = Some n -> top (S k) < 2 ^ 64 ->
  exists new, outbound (Propose val n) = outbound n ++ new /\ Inv (S k) (<[i := Propose val n]> g) (new ++ F).
Proof.
  intros HI Hn Ht. assert (1 <= i <= ZN) as Hi by (apply (in_ids _ _ _ HI); by eexists).
  pose proof (startRound_num k i n val (in_local _ _ _ HI i n Hn) Hi Ht) as (_ & _ & _ & Hnum).
  pose proof (startRound_Inv k g F i n val HI Hn Ht) as HI1. unfold Propose.
  assert (outbound (startRound val n) = outbound n /\ n_phase (startRound val n) = preparing) as [Eo Eph] by done.
  set (n1 := startRound val n) in *. clearbody n1.
  destruct (onPrepare (myNum n1) n1) as [r n2] eqn:E2. destruct (onPrepare_fields _ _ _ _ E2) as (Hpl2 & Eph2 & Eo2).
  pose proof (lo_promised _ _ _ (in_local _ _ _ HI i n Hn)).
  destruct (onPrepare_Inv (S k) _ F i n1 (myNum n1) r n2 HI1 ltac:(by rewrite lookup_insert_eq) ltac:(lia) E2) as [HI2 Hr].
  rewrite insert_insert_eq in HI2, Hr. rewrite Eo in Eo2. rewrite Eph in Eph2.
  assert (exists new n3, (if r_ok r then recordPromise (id n2) (r_num r) (r_val r) (r_has r) n2 else n2) = n3 /\
    n_phase n3 <> idle /\ outbound n3 = outbound n ++ new /\ Inv (S k) (<[i := n3]> g) (new ++ F))
    as (new & n3 & -> & Eph3 & Ho3 & HI3).
  { destruct (r_ok r) eqn:Hok; [|exists [], n2; rewrite app_nil_r, Eph2; done].
    destruct (Hr eq_refl) as [Hh Hor]. assert (myNum n2 = myNum n1) as En by apply Hpl2. rewrite <- En in Hh, Hor.
    assert (<[i := n2]> g !! i = Some n2) as Hn2 by by rewrite lookup_insert_eq.
    rewrite (lo_id _ _ _ (in_local _ _ _ HI2 i n2 Hn2)).
    destruct (recordPromise_Inv (S k) _ F i n2 i (r_num r) (r_val r) (r_has r) HI2 Hn2 Eph2 Hi Hh Hor) as (H0 & new & H1 & H2).
    rewrite insert_insert_eq in H2. eexists new, _. split; [done|]. rewrite H1, Eo2. done. }
  assert (<[i := n3]> g !! i = Some n3) as Hn3 by by rewrite lookup_insert_eq.
  pose proof (in_local _ _ _ HI3 i n3 Hn3) as Hl3. exists (new ++ (prepareTo n3 <$> peers n3)).
  unfold send. cbn. rewrite Ho3. split; [by rewrite <- app_assoc|].
  rewrite <- (insert_insert_eq g i _ n3). apply Inv_outbound; [|done].
  apply (Inv_loss (S k) (S k) _ ((prepareTo n3 <$> peers n3) ++ new ++ F)); [|done|by rewrite Permutation_app_swap_app, app_assoc].
  apply Inv_send; [done|]. apply (msgs_prepare (S k) _ n3 i); [done|done|].
  destruct Hl3 as [_ _ _ _ Lro Lnu]. rewrite Lnu by done. unfold top. nia.
Qed.

Lemma Tick_Inv k g F i n :
  Inv k g F -> g !! i = Some n -> top (S k) < 2 ^ 64 ->
  exists new, outbound (Tick n) = outbound n ++ new /\ Inv (S k) (<[i := Tick n]> g) (new ++ F).
Proof.
  intros HI Hn Ht. unfold Tick. case_bool_decide.
  { exists []. rewrite app_nil_r, insert_id by done. split; [done|]. by apply (Inv_loss k _ _ F); [|lia|]. }
  set (n1 := n <| elapsed := _ |>). assert (Inv k (<[i := n1]> g) F) as HI1.
  { pose proof (lo_promised _ _ _ (in_local _ _ _ HI i n Hn)).
    apply (Inv_promise k g F i n); try done; [by repeat split..|]. cbn. lia. }
  destruct (timeout n1 <=? elapsed n1).
  - destruct (Propose_Inv k _ F i n1 (myVal n1) HI1 ltac:(by rewrite lookup_insert_eq) Ht) as (new & H1 & H2).
    exists new. split; [done|]. by rewrite insert_insert_eq in H2.
  - exists []. rewrite app_nil_r. split; [done|]. by apply (Inv_loss k _ _ F); [|lia|].
Qed.

(** *** Handling a message *)

Lemma Prepare_Inv k g F m n :
  Inv k g (m :: F) -> g !! m_To m = Some n -> m_Kind m = Prepare ->
  exists new, outbound (Step m n) = outbound n ++ new /\ Inv k (<[m_To m := Step m n]> g) (new ++ F).
Proof.
  intros HI Hn HK. unfold Step. rewrite HK. destruct (onPrepare (m_Num m) n) as [r n1] eqn:E.
  destruct (in_msg _ _ _ HI m ltac:(apply list_elem_of_here)) as [Hf Hto Hnum _ _].
  apply (Inv_loss k k _ _ F) in HI; [|done|by apply submseteq_cons].
  destruct (onPrepare_fields _ _ _ _ E) as ((Eid & _) & _ & Eo).
  destruct (onPrepare_Inv k g F _ n _ r n1 HI Hn Hnum E) as [HI1 Hr].
  eexists. cbn. rewrite Eo. split; [done|]. rewrite <- (insert_insert_eq g _ _ n1).
  apply Inv_outbound; [|by rewrite lookup_insert_eq]. apply Inv_send; [done|]. apply Forall_singleton.
  split; [|done]. rewrite Eid, (lo_id _ _ _ (in_local _ _ _ HI _ n Hn)). split; cbn; try done.
Qed.

Lemma Promise_Inv k g F m n :
  Inv k g (m :: F) -> g !! m_To m = Some n -> m_Kind m = Promise ->
  exists new, outbound (Step m n) = outbound n ++ new /\ Inv k (<[m_To m := Step m n]> g) (new ++ F).
Proof.
  intros HI Hn HK. unfold Step. rewrite HK.
  destruct (in_msg _ _ _ HI m ltac:(apply list_elem_of_here)) as [Hf Hto Hnum Hpr _].
  apply (Inv_loss k k _ _ F) in HI; [|done|by apply submseteq_cons].
  destruct (Z.eqb_spec (m_Num m) (myNum n)) as [E|]; cbn [negb orb]; [|exists []; by rewrite app_nil_r, insert_id].
  case_bool_decide as Hph; cbn [orb]; [exists []; by rewrite app_nil_r, insert_id|].
  destruct (m_OK m) eqn:HO; cbn [negb]; [|exists []; by rewrite app_nil_r, insert_id].
  destruct (Hpr HK eq_refl) as [Hh Ho]. rewrite E in Hh, Ho.
  assert (n_phase n = preparing) as Hp by (destruct (decide (n_phase n = preparing)); [done|by destruct Hph]).
  apply (recordPromise_Inv k g F _ n (m_From m) (m_AcceptedNum m) (m_AcceptedVal m) (m_HasAccepted m) HI Hn Hp Hf Hh Ho).
Qed.

Lemma Accept_Inv k g F m n :
  Inv k g (m :: F) -> g !! m_To m = Some n -> m_Kind m = Accept ->
  exists new, outbound (Step m n) = outbound n ++ new /\ Inv k (<[m_To m := Step m n]> g) (new ++ F).
Proof.
  intros HI Hn HK. unfold Step. rewrite HK. unfold onAccept. set (i := m_To m) in *.
  destruct (in_msg _ _ _ HI m ltac:(apply list_elem_of_here)) as [Hf Hto Hnum _ _].
  pose proof (in_local _ _ _ HI i n Hn) as Hlo. pose proof (lo_id _ _ _ Hlo) as Lid. fold i in Hto.
  destruct (Z.ltb_spec (m_Num m) (promised n)) as [Hlt|Hge]; cbn; eexists; (split; [done|]); rewrite Lid.
  { apply (Inv_loss k k _ _ F) in HI; [|done|by apply submseteq_cons].
    apply Inv_send; [by apply Inv_outbound|]. apply Forall_singleton. split; [|done]. by split. }
  match goal with |- Inv _ (<[i := ?x]> g) _ => set (n' := x) end.
  assert (placed n n' /\ proposerSame n n' /\ acceptorTook (m_Num m) (m_Val m) n n') as (Hpl & Hps & Ht)
    by (by repeat split).
  clearbody n'. assert (myNum n' = myNum n) as En by apply Hpl.
  destruct (acceptor_took _ _ n n' (in_acceptor _ _ _ HI i n Hn) Hge Ht) as [Hac Hg].
  destruct Ht as (Ep & _ & _ & _ & Ea).
  apply (Inv_update k k g (m :: F) _ i n n'); try done.
  - eapply local_placed; [done|done|by rewrite Ep|]. by rewrite (proj1 Hps).
  - eapply proposer_stable; [exact Hn|done|]. by eapply proposer_same; [apply (in_proposer _ _ _ HI i n)|..].
  - by apply advances_same.
  - intros x [->|Hx]%elem_of_cons; [|left; by right]. right. split; cbn; try done. intros _ _. exists (m_Val m).
    rewrite hist_update_eq, Ea. apply elem_of_app. right. by apply list_elem_of_singleton.
  - intros num val [[j Hj]|(x & [->|Hx]%elem_of_cons & Hk & ? & ?)]; left; [|done|right; exists x; split; [by right|done]].
    rewrite hist_update in Hj. case_decide; [subst j|left; by exists j]. rewrite Ea in Hj.
    apply elem_of_app in Hj as [Hj|[= -> ->]%list_elem_of_singleton].
    + left. exists i. by rewrite (hist_at g i n Hn).
    + right. exists m. split; [apply list_elem_of_here|done].
  - intros j. pose proof (in_once _ _ _ HI j) as Hnd. unfold toward in *. rewrite filter_cons in Hnd. cbn [app].
    rewrite filter_cons, decide_False by (cbn; intros [? _]; done). rewrite hist_update. destruct (decide (j = i)) as [->|Hne].
    + rewrite decide_True in Hnd by done. rewrite Ea, fmap_app, <- app_assoc, <- (hist_at g i n Hn). done.
    + by rewrite decide_False in Hnd by (intros [_ ?]; by apply Hne).
Qed.

Lemma Accepted_Inv k g F m n :
  Inv k g (m :: F) -> g !! m_To m = Some n -> m_Kind m = Accepted ->
  exists new, outbound (Step m n) = outbound n ++ new /\ Inv k (<[m_To m := Step m n]> g) (new ++ F).
Proof.
  intros HI Hn HK. unfold Step. rewrite HK. set (i := m_To m) in *.
  destruct (in_msg _ _ _ HI m ltac:(apply list_elem_of_here)) as [Hf Hto Hnum _ Hacc].
  apply (Inv_loss k k _ _ F) in HI; [|done|by apply submseteq_cons].
  destruct (Z.eqb_spec (m_Num m) (myNum n)) as [E|]; cbn [negb orb]; [|exists []; by rewrite app_nil_r, insert_id].
  case_bool_decide as Hph; cbn [orb]; [exists []; by rewrite app_nil_r, insert_id|].
  destruct (m_OK m) eqn:HO; cbn [negb]; [|exists []; by rewrite app_nil_r, insert_id].
  assert (n_phase n = accepting) as Hp by (destruct (decide (n_phase n = accepting)); [done|by destruct Hph]).
  pose proof (in_local _ _ _ HI i n Hn) as Hlo.
  destruct (pr_accept _ _ (in_proposer _ _ _ HI i n Hn) ltac:(by left)) as [Hv Hb].
  destruct (voters_lor (acceptMask n) (m_From m) Hv Hf) as [Hv' Hbits].
  (* the acceptance reported is of the proposer's own value *)
  assert (mkAcceptance (myNum n) (myVal n) ∈ hist g (m_From m)) as Hin.
  { destruct (Hacc HK eq_refl) as [v Hin]. rewrite E in Hin.
    destruct (in_own _ _ _ HI (myNum n) v ltac:(left; by eexists)) as (j & x & Hx & _ & [r Hr] & _ & Hval).
    assert (1 <= i <= ZN) by done. assert (1 <= j <= ZN) by (apply (in_ids _ _ _ HI); by eexists).
    rewrite (lo_num _ _ _ Hlo) in Hr by by rewrite Hp. assert (i = j) as <- by by eapply round_owner.
    rewrite Hn in Hx. injection Hx as <-. destruct (Hval eq_refl) as [_ ->]. done. }
  set (mask := Z.lor (acceptMask n) (bit (m_From m))) in *.
  assert (forall n', placed n n' -> acceptorSame n n' -> myVal n' = myVal n -> acceptMask n' = mask ->
    n_phase n' = accepting \/ n_phase n' = decided /\ quorum n <= popcount mask -> Inv k (<[i := n']> g) F) as Hdone.
  { intros n' Hpl Has Ev Em Hph'. destruct (acceptor_same n n' (in_acceptor _ _ _ HI i n Hn) Has) as [Hac Hg].
    assert (myNum n' = myNum n) as En by apply Hpl.
    assert (n_phase n' <> preparing /\ n_phase n' <> idle) as [Hnp Hni] by (destruct Hph' as [->|[-> _]]; done).
    apply (Inv_quiet k k g F i n); try done; [apply Hg|apply Has| | |].
    - eapply local_placed; [done|done|rewrite (proj1 Has); by apply Hlo|by rewrite Hp].
    - eapply proposer_stable; [exact Hn|done|]. split; [done| |]; rewrite Em.
      + intros _. split; [done|]. rewrite En, Ev. intros b [Hb'| ->]%Hbits; [by apply Hb|done].
      + intros Hd. split; [done|]. rewrite Hd in Hph'. destruct Hph' as [?|[_ Hq]]; [done|]. unfold quorum in Hq.
        by rewrite (lo_size _ _ _ Hlo) in Hq.
    - intros _. split; [done|]. right. done. }
  exists []. rewrite app_nil_r. cbn [app]. unfold quorum. cbn.
  destruct (Z.leb_spec (size n / 2 + 1) (popcount mask)); (split; [done|]); apply Hdone; try by repeat split.
  - by right.
  - by left.
Qed.

Lemma Step_Inv k g F m n :
  Inv k g (m :: F) -> g !! m_To m = Some n ->
  exists new, outbound (Step m n) = outbound n ++ new /\ Inv k (<[m_To m := Step m n]> g) (new ++ F).
Proof.
  intros HI Hn. destruct (m_Kind m) eqn:HK.
  - by apply Prepare_Inv.
  - by apply Promise_Inv.
  - by apply Accept_Inv.
  - by apply Accepted_Inv.
Qed.

(** *** The checks *)

Section checks.
Context (k : nat) (c : Cluster) (F : list Message) (HI : Inv k (nodes c) F) (Hids : ids c = allIds N).
Abbreviation g := (nodes c).

Lemma all_present : Forall (fun i => is_Some (g !! i)) (ids c).
Proof. rewrite Hids. apply Forall_forall. intros i Hi%elem_of_allIds. by apply (in_ids _ _ _ HI). Qed.

Lemma histories_all : histories c = Some (hist g <$> ids c).
Proof.
  unfold histories. generalize all_present. generalize (ids c). intros l Hl.
  induction Hl as [|i l [n Hn] Hl IH]; [done|]. cbn [mapM fmap list_fmap]. unfold hist at 1. rewrite Hn. cbn.
  fold (mapM (M := option) (fun i => accepts <$> g !! i)). by rewrite IH.
Qed.

Lemma counts_spec l a : forall m : gmap Acceptance Z,
  default 0 (foldl countOne m l !! a) = default 0 (m !! a) + len (filter (fun x => x = a) l).
Proof.
  induction l as [|x l IH]; intros m; cbn [foldl]; [unfold len; rewrite filter_nil; cbn [length]; lia|].
  rewrite IH, filter_cons. unfold countOne.
  destruct (decide (x = a)) as [->|Hne].
  - rewrite lookup_insert_eq. unfold len. cbn -[Z.of_nat Z.add filter]. lia.
  - by rewrite lookup_insert_ne.
Qed.

(** An acceptor accepts a number at most once, so counting acceptances counts
    acceptors. *)
Lemma count_acceptors a l :
  len (filter (fun x => x = a) (concat (hist g <$> l))) = len (filter (fun i => a ∈ hist g i) l).
Proof.
  induction l as [|i l IH]; [done|]. cbn [fmap list_fmap concat]. rewrite filter_app, filter_cons.
  unfold len in *. rewrite length_app, Nat2Z.inj_add, IH.
  assert (NoDup (hist g i)) as Hnd.
  { pose proof (in_once _ _ _ HI i) as H. apply NoDup_app in H as [H _]. by apply NoDup_fmap_1 in H. }
  clear IH. induction Hnd as [|x h Hx Hnd IHh].
  - rewrite decide_False by apply not_elem_of_nil. done.
  - rewrite filter_cons. destruct (decide (x = a)) as [->|Hne].
    + rewrite decide_True by apply list_elem_of_here. rewrite decide_False in IHh by done. cbn. lia.
    + destruct (decide (a ∈ h)) as [Ha|Ha].
      * rewrite decide_True by by right. lia.
      * rewrite decide_False by (intros [?|?]%elem_of_cons; [by symmetry in H|done]). lia.
Qed.

Lemma counted_crowd a :
  len (ids c) / 2 + 1 <= len (filter (fun x => x = a) (concat (hist g <$> ids c))) ->
  exists L, crowd L /\ Forall (fun i => mkAcceptance (Num a) (Val a) ∈ hist g i) L.
Proof.
  rewrite count_acceptors, Hids. intros Hq. exists (filter (fun i => a ∈ hist g i) (allIds N)). split; [split|].
  - apply NoDup_filter, NoDup_allIds.
  - split; [apply Forall_forall; by intros i [_ Hi%elem_of_allIds]%list_elem_of_filter|].
    revert Hq. rewrite allIds_eq at 1. unfold len. by rewrite length_seqZ, Nat2Z.id.
  - apply Forall_forall. intros i [Hi _]%list_elem_of_filter. by destruct a.
Qed.

Lemma found_spec counts q l : forall seen found,
  (forall v, v ∈ seen <-> v ∈ found) -> NoDup found ->
  let found' := (foldl (seeOne counts q) (seen, found) l).2 in
  NoDup found' /\ forall v, v ∈ found' <-> v ∈ found \/ exists a, a ∈ l /\ q <= default 0 (counts !! a) /\ Val a = v.
Proof.
  induction l as [|a l IH]; intros seen found Hs Hnd; cbn [foldl].
  - split; [done|]. intros v. split; [by left|]. intros [?|(a & Ha & _)]; [done|by apply not_elem_of_nil in Ha].
  - unfold seeOne at 2 4. destruct (Z.leb_spec q (default 0 (counts !! a))) as [Hq|Hq]; cbn [andb].
    + case_bool_decide as Hin; cbn [negb].
      * destruct (IH seen found Hs Hnd) as [H1 H2]. split; [done|]. intros v. rewrite H2. split.
        -- intros [?|(b & Hb & H)]; [by left|right; exists b; split; [by right|done]].
        -- intros [?|(b & [->|Hb]%elem_of_cons & Hc & <-)]; [by left|left; by apply Hs|right; by exists b].
      * destruct (IH ({[Val a]} ∪ seen) (found ++ [Val a])) as [H1 H2].
        { intros v. rewrite elem_of_union, elem_of_singleton, elem_of_app, list_elem_of_singleton, Hs. tauto. }
        { apply NoDup_app. split; [done|]. split; [|apply NoDup_singleton].
          intros v Hv ->%list_elem_of_singleton. by apply Hin, Hs. }
        split; [done|]. intros v. rewrite H2, elem_of_app, list_elem_of_singleton. split.
        -- intros [[?| ->]|(b & Hb & H)]; [by left|right; exists a; split; [by left|done]|right; exists b; split; [by right|done]].
        -- intros [?|(b & [->|Hb]%elem_of_cons & Hc & <-)]; [by left; left|by left; right|right; by exists b].
    + destruct (IH seen found Hs Hnd) as [H1 H2]. split; [done|]. intros v. rewrite H2. split.
      * intros [?|(b & Hb & H)]; [by left|right; exists b; split; [by right|done]].
      * intros [?|(b & [->|Hb]%elem_of_cons & Hc & <-)]; [by left|lia|right; by exists b].
Qed.

(** [chosenValues] are the values a quorum of nodes accepted, each once. *)
Lemma chosenValues_spec :
  exists vs, chosenValues c = Some vs /\ NoDup vs /\
    forall v, v ∈ vs <-> exists num L, crowd L /\ Forall (fun i => mkAcceptance num v ∈ hist g i) L.
Proof.
  unfold chosenValues. rewrite histories_all. cbn [mbind option_bind]. eexists. split; [done|].
  set (q := len (ids c) / 2 + 1).
  destruct (found_spec (foldl countOne ∅ (concat (hist g <$> ids c))) q (concat (hist g <$> ids c)) ∅ [])
    as [H1 H2]; [set_solver|constructor|]. split; [done|]. intros v. rewrite H2. split.
  - intros [Hv|(a & _ & Ha & <-)]; [by apply not_elem_of_nil in Hv|]. rewrite counts_spec, lookup_empty in Ha.
    destruct (counted_crowd a) as (L & HL & Hall); [done|]. by exists (Num a), L.
  - intros (num & L & HL & Hall). right. exists (mkAcceptance num v). rewrite counts_spec, lookup_empty. cbn [default].
    pose proof HL as (Hnd & Hr & Hlen). rewrite Forall_forall in Hr, Hall.
    assert (q <= len (filter (fun i => mkAcceptance num v ∈ hist g i) (ids c))) as Hq.
    { unfold q. assert (length L <= length (filter (fun i => mkAcceptance num v ∈ hist g i) (ids c)))%nat as Hle.
      { apply submseteq_length, NoDup_submseteq; [done|]. intros i Hi. apply list_elem_of_filter.
        split; [by apply Hall|]. rewrite Hids. by apply elem_of_allIds, Hr. }
      assert (len (ids c) = ZN) as -> by (rewrite Hids, allIds_eq; unfold len; rewrite length_seqZ; lia).
      unfold len in *. lia. }
    rewrite <- count_acceptors in Hq. split; [|split; [exact Hq|done]].
    destruct (filter (fun x => x = mkAcceptance num v) (concat (hist g <$> ids c))) as [|x l] eqn:E.
    + unfold q, len in Hq. cbn in Hq. pose proof (Z.div_pos (Z.of_nat (length (ids c))) 2). lia.
    + assert (x ∈ x :: l) as Hx by apply list_elem_of_here. rewrite <- E in Hx.
      by apply list_elem_of_filter in Hx as [-> ?].
Qed.

Lemma single_choice : checkSingleChoice c = None.
Proof.
  unfold checkSingleChoice. destruct chosenValues_spec as (vs & -> & Hnd & Hvs).
  destruct (Nat.ltb_spec 1 (length vs)) as [Hlt|]; [exfalso|done]. destruct vs as [|v [|w vs]]; [cbn in Hlt; lia..|].
  destruct (proj1 (Hvs v) ltac:(apply list_elem_of_here)) as (num & L & HL & Hv).
  destruct (proj1 (Hvs w) ltac:(by apply elem_of_cons; right; apply list_elem_of_here)) as (num' & L' & HL' & Hw).
  assert (v = w) as -> by by eapply (chosen_unique k g F L L'). apply NoDup_cons in Hnd as [Hn _].
  apply Hn, list_elem_of_here.
Qed.

Lemma promise_respected : checkPromiseRespected c = None.
Proof.
  unfold checkPromiseRespected. generalize all_present. generalize (ids c). intros l Hl.
  induction Hl as [|i l [n Hn] Hl IH]; cbn [promiseLoop]; [done|]. rewrite Hn.
  destruct (in_acceptor _ _ _ HI i n Hn) as [H1 _ H3]. destruct (hasAccepted n); cbn [andb]; [|done].
  destruct H3 as [Hin _]. rewrite Forall_forall in H1. specialize (H1 _ Hin). cbn in H1.
  destruct (Z.ltb_spec (promised n) (acceptedNum n)); [lia|done].
Qed.

Lemma history_monotonic : checkHistoryMonotonic c = None.
Proof.
  unfold checkHistoryMonotonic. generalize all_present. generalize (ids c). intros l Hl.
  induction Hl as [|i l [n Hn] Hl IH]; cbn [historyLoop]; [done|]. rewrite Hn.
  by rewrite (ac_mono _ (in_acceptor _ _ _ HI i n Hn)).
Qed.

(** A proposer that believes its value chosen is right. *)
Lemma decided_chosen i n : g !! i = Some n -> Decided n = true -> Chosen c = Some (myVal n, true).
Proof.
  intros Hn Hd%bool_decide_eq_true. unfold Chosen. destruct chosenValues_spec as (vs & -> & _ & Hvs). cbn.
  destruct (in_proposer _ _ _ HI i n Hn) as [_ Hacc Hdec].
  destruct (Hacc ltac:(by right)) as [_ Hb]. apply quorum_crowd in Hdec as HL; [|done].
  assert (Forall (fun j => mkAcceptance (myNum n) (myVal n) ∈ hist g j) ((fun b => b + 1) <$> bits (acceptMask n))) as Hall.
  { apply Forall_forall. intros j (b & -> & [Hbit _]%elem_of_bits)%list_elem_of_fmap. by apply Hb. }
  destruct vs as [|v vs].
  - assert (myVal n ∈ []) as H; [|by apply not_elem_of_nil in H]. apply Hvs. by eexists _, _.
  - destruct (proj1 (Hvs v) ltac:(apply list_elem_of_here)) as (num & L & HL' & Hv).
    by rewrite (chosen_unique k g F L _ num (myNum n) v (myVal n) HI HL' Hv HL Hall).
Qed.

End checks.

(** ** The cluster under the engine *)

Definition buffers (g : gmap Z Node) : list Message := concat ((fun p => outbound p.2) <$> map_to_list g).

Lemma buffers_update g i n n' :
  g !! i = Some n ->
  exists rest, buffers g ≡ₚ outbound n ++ rest /\ buffers (<[i := n']> g) ≡ₚ outbound n' ++ rest.
Proof.
  intros Hn. exists (buffers (delete i g)). unfold buffers. split.
  - by rewrite <- (map_to_list_delete g i n Hn).
  - rewrite <- insert_delete_eq, map_to_list_insert by apply lookup_delete_eq. done.
Qed.

(** The invariant, as long as the numbers of the rounds fit. *)
Definition pool (k : nat) (c : Cluster) (ms : list Message) : Prop :=
  ids c = allIds N /\ (top k < 2 ^ 64 -> Inv k (nodes c) (ms ++ buffers (nodes c))).

Lemma top_mono k k' : (k <= k')%nat -> top k <= top k'.
Proof. unfold top. nia. Qed.

(** A call of a node whose messages are those of [new]. *)
Lemma pool_onNode k k' c c' i f ms ms' :
  (forall n, top k' < 2 ^ 64 -> nodes c !! i = Some n -> Inv k (nodes c) (ms ++ buffers (nodes c)) ->
     exists new, outbound (f n) = outbound n ++ new /\ Inv k' (<[i := f n]> (nodes c)) (new ++ ms' ++ buffers (nodes c))) ->
  (k <= k')%nat -> pool k c ms -> onNode f i c = Some c' -> pool k' c' ms'.
Proof.
  intros Hf Hk [Hids HI]. unfold onNode. destruct (nodes c !! i) as [n|] eqn:Hn; cbn; [|done]. intros [= <-].
  split; [done|]. intros Ht. pose proof (top_mono k k' Hk). cbn [nodes].
  destruct (Hf n Ht eq_refl (HI ltac:(lia))) as (new & Ho & HI').
  destruct (buffers_update (nodes c) i n (f n) Hn) as (rest & H1 & H2).
  eapply (Inv_loss k' k' _ _ _ HI'); [done|]. rewrite H1, H2, Ho. rewrite <- (app_assoc (outbound n)).
  rewrite (Permutation_app_swap_app new ms'). apply submseteq_app; [done|].
  by rewrite (Permutation_app_swap_app new (outbound n)).
Qed.

#[local] Instance paxos_pool : Pool propose pool N.
Proof.
  split.
  - intros k k' c ms ms' [Hids HI] Hk Hs. split; [done|]. intros Ht. pose proof (top_mono k k' Hk).
    apply (Inv_loss k k' _ (ms ++ buffers (nodes c))); [apply HI; lia|done|by apply submseteq_app].
  - intros k c ms [Hids _]. cbn. rewrite Hids. unfold allIds. by rewrite length_fmap, length_seq.
  - intros k c ms i c'. apply pool_onNode; [|lia]. intros n Ht Hn HI.
    by apply Tick_Inv.
  - intros k c m ms c'. cbn. apply pool_onNode; [|done]. intros n Ht Hn HI. by apply Step_Inv.
  - intros k c ms i c' out [Hids HI]. cbn. unfold drain. destruct (nodes c !! i) as [n|] eqn:Hn; cbn; [|done].
    intros [= <- <-]. split; [done|]. intros Ht. cbn [nodes].
    destruct (buffers_update (nodes c) i n (n <| outbound := [] |>) Hn) as (rest & H1 & H2).
    apply (Inv_loss k k _ (ms ++ buffers (nodes c))); [by apply Inv_outbound; [apply HI|]|done|].
    rewrite H1, H2. cbn. rewrite app_assoc. by rewrite (Permutation_app_comm ms).
  - intros k c ms [i v] c'. apply pool_onNode; [|lia]. intros n Ht Hn HI. by apply Propose_Inv.
Qed.

Lemma paxos_New_fold t l : forall c,
  foldl (fun c i => let j := w32 (Z.of_nat i) in
     mkCluster (ids c ++ [j]) (<[j := NewNode j N (t i)]> (nodes c))) c l =
  mkCluster (ids c ++ ((fun i => w32 (Z.of_nat i)) <$> l))
    (foldl (fun m i => <[w32 (Z.of_nat i) := NewNode (w32 (Z.of_nat i)) N (t i)]> m) (nodes c) l).
Proof.
  induction l as [|i l IH]; intros c; cbn [foldl fmap list_fmap]; [rewrite app_nil_r; by destruct c|].
  rewrite IH. cbn [ids nodes]. by rewrite <- app_assoc.
Qed.

Lemma New_lookup t l : forall (m : gmap Z Node) j,
  let m' := foldl (fun m i => <[w32 (Z.of_nat i) := NewNode (w32 (Z.of_nat i)) N (t i)]> m) m l in
  (j ∈ (fun i => w32 (Z.of_nat i)) <$> l -> exists x, m' !! j = Some (NewNode j N x)) /\
  (j ∉ (fun i => w32 (Z.of_nat i)) <$> l -> m' !! j = m !! j).
Proof.
  induction l as [|i l IH]; intros m j; cbn [foldl fmap list_fmap].
  - split; [intros H; by apply not_elem_of_nil in H|done].
  - destruct (IH (<[w32 (Z.of_nat i) := NewNode (w32 (Z.of_nat i)) N (t i)]> m) j) as [H1 H2].
    rewrite elem_of_cons. split.
    + intros Hj. destruct (decide (j ∈ (fun i => w32 (Z.of_nat i)) <$> l)) as [Hin|Hin]; [by apply H1|].
      destruct Hj as [->|?]; [|done]. rewrite H2 by done. rewrite lookup_insert_eq. by eexists.
    + intros Hj. rewrite H2 by tauto. apply lookup_insert_ne. intros E. apply Hj. by left.
Qed.

Lemma New_pool c : New N = Some c -> pool 0 c [].
Proof.
  unfold New. destruct (Nat.ltb_spec N 1); [done|]. rewrite paxos_New_fold. intros [= <-]. cbn [ids nodes app].
  set (g := foldl _ _ _).
  assert (forall j n, g !! j = Some n -> 1 <= j <= ZN /\ exists t, n = NewNode j N t) as Hg.
  { intros j n Hj. destruct (New_lookup (fun i => w64 (12 + Z.of_nat i * 3)) (seq 1 N) ∅ j) as [H1 H2].
    destruct (decide (j ∈ allIds N)) as [Hin|Hin].
    - split; [by apply elem_of_allIds|]. destruct (H1 Hin) as [t Ht]. exists t. unfold g in Hj. congruence.
    - unfold g in Hj. rewrite (H2 Hin), lookup_empty in Hj. done. }
  assert (forall j, hist g j = []) as Hh.
  { intros j. unfold hist. destruct (g !! j) as [n|] eqn:Hj; [|done]. by destruct (Hg j n Hj) as (_ & t & ->). }
  assert (buffers g = []) as Hb.
  { unfold buffers. destruct (concat _) as [|m l] eqn:E; [done|exfalso].
    assert (m ∈ m :: l) as Hm by apply list_elem_of_here. rewrite <- E in Hm.
    rewrite list_elem_of_In, in_concat in Hm. destruct Hm as (o & Ho & Hm).
    apply list_elem_of_In in Ho. apply list_elem_of_In in Hm. apply list_elem_of_fmap in Ho as ([j n] & -> & Hj).
    apply elem_of_map_to_list in Hj. destruct (Hg j n Hj) as (_ & t & ->). by apply not_elem_of_nil in Hm. }
  split; [done|]. intros _. cbn [ids nodes app]. fold g. rewrite Hb. assert (forall num v, ~ proposal g [] num v) as Hno.
  { intros num v [[j Hj]|(m & Hm & _)]; [rewrite Hh in Hj|]; by apply not_elem_of_nil in Hj || apply not_elem_of_nil in Hm. }
  split.
  - intros j. split; [intros [n Hn]; by apply (Hg j n)|]. intros Hj.
    destruct (New_lookup (fun i => w64 (12 + Z.of_nat i * 3)) (seq 1 N) ∅ j) as [H1 _].
    destruct (H1 (proj2 (elem_of_allIds j) Hj)) as [t Ht]. by eexists.
  - intros j n (Hj & t & ->)%Hg. split; try done; cbn; unfold top; lia.
  - intros j n (Hj & t & ->)%Hg. by repeat split.
  - intros j n (Hj & t & ->)%Hg. split; [done|by intros [?|?]|done].
  - intros m Hm. by apply not_elem_of_nil in Hm.
  - intros num v Hp. by apply Hno in Hp.
  - intros num v Hp. by apply Hno in Hp.
  - intros num v w Hp. by apply Hno in Hp.
  - intros j. rewrite Hh. constructor.
Qed.

(** All checks pass on the pool. *)
Lemma pool_safe k c ms :
  top k < 2 ^ 64 -> pool k c ms -> Forall (fun i => inv_Check i c = None) SafetyInvariants.
Proof.
  intros Ht [Hids HI]. specialize (HI Ht). repeat (apply Forall_cons; split); [| | |constructor]; cbn.
  - by eapply single_choice.
  - by eapply promise_respected.
  - by eapply history_monotonic.
Qed.

(** ** Termination of a step *)

(** What delivering a message can cause, counted in messages. *)
Definition weight (m : Message) : nat :=
  match m_Kind m with Prepare => S (2 * N) | Promise => 2 * N | Accept => 1 | Accepted => 0 end.

Definition burst : nat := (2 * N + N * S (S (2 * N)))%nat.

Definition good (m : Message) : Prop := 1 <= m_From m <= ZN /\ 1 <= m_To m <= ZN.

Definition seated (i : Z) (n : Node) : Prop :=
  id n = i /\ peers n = filter (fun j => j <> i) (allIds N) /\ Forall good (outbound n).

Definition steady (c : Cluster) : Prop :=
  ids c = allIds N /\ (forall i, 1 <= i <= ZN -> is_Some (nodes c !! i)) /\
  (forall i n, nodes c !! i = Some n -> 1 <= i <= ZN /\ seated i n).

Abbreviation load := (load weight).
Abbreviation buffer := (fun c => load (buffers (nodes c))).

(** A call adds messages of bounded load. *)
Definition adds (n n' : Node) (w : nat) : Prop :=
  id n' = id n /\ peers n' = peers n /\
  exists new, outbound n' = outbound n ++ new /\ Forall good new /\ (load new <= w)%nat.

Lemma adds_trans n1 n2 n3 w w' : adds n1 n2 w -> adds n2 n3 w' -> adds n1 n3 (w + w').
Proof.
  intros (E1 & E2 & new & E3 & H1 & H2) (D1 & D2 & new' & D3 & G1 & G2). split; [congruence|]. split; [congruence|].
  exists (new ++ new'). rewrite D3, E3, app_assoc. split; [done|]. split; [by apply Forall_app|].
  rewrite load_app. lia.
Qed.

Lemma adds_none n n' : id n' = id n -> peers n' = peers n -> outbound n' = outbound n -> adds n n' 0.
Proof. intros E1 E2 E3. split; [done|]. split; [done|]. exists []. by rewrite app_nil_r. Qed.

Lemma adds_le n n' w w' : adds n n' w -> (w <= w')%nat -> adds n n' w'.
Proof. intros (E1 & E2 & new & E3 & H1 & H2) Hw. split; [done|]. split; [done|]. exists new. split_and!; auto; lia. Qed.

(** One message to every peer. *)
Lemma broadcast_load i f l w :
  1 <= i <= ZN -> l = filter (fun j => j <> i) (allIds N) ->
  (forall p, m_From (f p) = i /\ m_To (f p) = p /\ weight (f p) = w) ->
  Forall good (f <$> l) /\ (load (f <$> l) <= N * S w)%nat.
Proof.
  intros Hi Hl Hf. split.
  - apply Forall_forall. intros m (p & -> & Hp)%list_elem_of_fmap. rewrite Hl in Hp.
    apply list_elem_of_filter in Hp as [_ Hp%elem_of_allIds]. destruct (Hf p) as (H1 & H2 & _). unfold good. by rewrite H1, H2.
  - assert (length l <= N)%nat as Hlen.
    { rewrite Hl. etrans; [apply length_filter|]. rewrite allIds_eq, length_seqZ. lia. }
    transitivity (length l * S w)%nat; [|nia]. clear Hl Hlen. induction l as [|p l IH]; [done|].
    rewrite fmap_cons, load_cons. destruct (Hf p) as (_ & _ & ->). cbn. lia.
Qed.

Lemma recordPromise_adds i n from accNum accVal hasAcc :
  1 <= i <= ZN -> seated i n -> adds n (recordPromise from accNum accVal hasAcc n) (2 * N).
Proof.
  intros Hi (Hid & Hpe & _). unfold recordPromise.
  destruct (collect_fields from accNum accVal hasAcc n) as (_ & _ & (E1 & _ & E2 & _) & _ & _ & E3).
  set (n1 := collect _ _ _ _ n) in *. clearbody n1.
  assert (adds n n1 0) as H1 by by apply adds_none.
  destruct (_ <? _); [eapply adds_le; [done|lia]|]. apply (adds_trans n n1 _ 0 (2 * N) H1).
  destruct (startAccept_fields n1) as ((D1 & _ & D2 & _) & _ & _ & _ & new & D3 & Hnew).
  split; [done|]. split; [done|]. exists new. split; [done|].
  destruct Hnew as [->| ->]; [split; [done|cbn; lia]|]. rewrite E1, Hid, E2.
  destruct (broadcast_load i (fun p => mkMessage Accept i p (myNum n1) (pick n1) false 0 0 false) (peers n) 1) as [H2 H3];
    [done|done|done|]. split; [done|]. unfold accepts_of. lia.
Qed.

Lemma Propose_adds i n val : 1 <= i <= ZN -> seated i n -> adds n (Propose val n) burst.
Proof.
  intros Hi Hs. unfold Propose, burst.
  assert (adds n (startRound val n) 0 /\ seated i (startRound val n)) as [H1 Hs1] by (by split; [apply adds_none|]).
  set (n1 := startRound val n) in *. clearbody n1. destruct (onPrepare (myNum n1) n1) as [r n2] eqn:E2.
  destruct (onPrepare_fields _ _ _ _ E2) as ((D1 & _ & D2 & _) & _ & D3).
  assert (adds n1 n2 0 /\ seated i n2) as [H2 Hs2].
  { split; [by apply adds_none|]. unfold seated. by rewrite D1, D2, D3. }
  set (n3 := if r_ok r then _ else _). assert (adds n2 n3 (2 * N)) as H3.
  { unfold n3. destruct (r_ok r); [by apply (recordPromise_adds i)|]. eapply adds_le; [by apply adds_none|lia]. }
  apply (adds_trans n n3 _ (2 * N)).
  - apply (adds_trans n n2 n3 0 (2 * N)); [|done]. by apply (adds_trans n n1 n2 0 0).
  - clearbody n3. destruct H3 as (F1 & F2 & _). destruct Hs2 as (G1 & G2 & _). split; [done|]. split; [done|].
    exists (prepareTo n3 <$> peers n3). split; [done|]. apply (broadcast_load i); [done|congruence|].
    intros p. unfold prepareTo. cbn. split; [congruence|done].
Qed.

Lemma Step_adds i m n : 1 <= i <= ZN -> seated i n -> good m -> adds n (Step m n) (weight m).
Proof.
  intros Hi Hs [Hf Ht]. pose proof Hs as (Hid & Hpe & _). unfold Step, weight. destruct (m_Kind m).
  - destruct (onPrepare (m_Num m) n) as [r n1] eqn:E. destruct (onPrepare_fields _ _ _ _ E) as ((D1 & _ & D2 & _) & _ & D3).
    split; [done|]. split; [done|]. eexists. cbn. rewrite D3. split; [done|].
    split; [apply Forall_singleton; unfold good; cbn; by rewrite D1, Hid|]. rewrite load_cons. cbn. lia.
  - destruct (_ || _); [eapply adds_le; [by apply adds_none|lia]|]. by apply (recordPromise_adds i).
  - unfold onAccept. destruct (_ <? _); cbn; (split; [done|]; split; [done|]; eexists; split; [done|]);
      (split; [apply Forall_singleton; unfold good; cbn; by rewrite Hid|]; rewrite load_cons; cbn; lia).
  - destruct (_ || _); [by apply adds_none|]. cbn. destruct (_ <=? _); by apply adds_none.
Qed.

Lemma Tick_adds i n : 1 <= i <= ZN -> seated i n -> adds n (Tick n) burst.
Proof.
  intros Hi Hs. unfold Tick. case_bool_decide; [eapply adds_le; [by apply adds_none|lia]|].
  set (n1 := n <| elapsed := _ |>). assert (adds n n1 0 /\ seated i n1) as [H1 Hs1] by (by split; [apply adds_none|]).
  destruct (_ <=? _); [|eapply adds_le; [done|lia]]. apply (adds_trans n n1 _ 0 burst); [done|]. by apply (Propose_adds i).
Qed.

Lemma steady_update c i n' :
  steady c -> 1 <= i <= ZN -> seated i n' -> steady (mkCluster (ids c) (<[i := n']> (nodes c))).
Proof.
  intros (Hids & Hall & Hs) Hi Hn'. split; [done|]. split; cbn [nodes].
  - intros j Hj. destruct (decide (j = i)) as [->|]; [rewrite lookup_insert_eq; by eexists|].
    rewrite lookup_insert_ne by done. by apply Hall.
  - intros j x [[<- <-]|[_ Hx]]%lookup_insert_Some; [done|by apply Hs].
Qed.

Lemma onNode_adds c f i w :
  steady c -> 1 <= i <= ZN -> (forall n, seated i n -> adds n (f n) w) ->
  exists c', onNode f i c = Some c' /\ steady c' /\ (buffer c' <= buffer c + w)%nat.
Proof.
  intros Hc Hi Hf. pose proof Hc as (Hids & Hall & Hs). unfold onNode. destruct (Hall i Hi) as [n Hn]. rewrite Hn. cbn.
  destruct (Hs i n Hn) as [_ Hsi]. destruct (Hf n Hsi) as (E1 & E2 & new & E3 & Hnew & Hload).
  eexists. split; [done|]. split.
  - apply steady_update; [done|done|]. destruct Hsi as (? & ? & ?). unfold seated. rewrite E1, E2, E3.
    split; [done|]. split; [done|]. by apply Forall_app.
  - cbn [nodes]. destruct (buffers_update (nodes c) i n (f n) Hn) as (rest & H1 & H2).
    rewrite (load_Proper weight _ _ H1), (load_Proper weight _ _ H2), E3, !load_app. lia.
Qed.

#[local] Instance paxos_quiet : Quiet steady good weight buffer burst (allIds N).
Proof.
  split.
  - by intros c [? _].
  - intros c i Hc Hi%elem_of_allIds. apply onNode_adds; [done|done|]. intros n. by apply Tick_adds.
  - intros c m Hc Hm. cbn. apply onNode_adds; [done|apply Hm|]. intros n Hn. apply (Step_adds (m_To m)); [apply Hm|done|done].
  - intros c i Hc Hi%elem_of_allIds. cbn. unfold drain. pose proof Hc as (_ & Hall & Hs).
    destruct (Hall i Hi) as [n Hn]. destruct (Hs i n Hn) as [_ (G1 & G2 & G3)]. rewrite Hn. cbn.
    eexists _, _. split; [done|]. split; [by apply steady_update|]. split; [done|]. cbn [nodes].
    destruct (buffers_update (nodes c) i n (n <| outbound := [] |>) Hn) as (rest & H1 & H2).
    rewrite (load_Proper weight _ _ H1), (load_Proper weight _ _ H2), !load_app.
    change (load rest + load (outbound n) <= load (outbound n) + load rest)%nat. lia.
Qed.

Lemma Inv_steady k c ms :
  ids c = allIds N -> Inv k (nodes c) (ms ++ buffers (nodes c)) -> steady c /\ Forall good ms.
Proof.
  intros Hids HI. split.
  - split; [done|]. split; [intros i Hi; by apply (in_ids _ _ _ HI)|]. intros i n Hn.
    split; [apply (in_ids _ _ _ HI); by eexists|]. destruct (in_local _ _ _ HI i n Hn). split; [done|]. split; [done|].
    apply Forall_forall. intros m Hm. destruct (in_msg _ _ _ HI m); [|done].
    destruct (buffers_update (nodes c) i n n Hn) as (rest & H1 & _). rewrite H1, !elem_of_app. auto.
  - apply Forall_forall. intros m Hm. destruct (in_msg _ _ _ HI m); [|done]. apply elem_of_app. by left.
Qed.

End protocol.

(** C16 Agreement.  Take the engine over a new Paxos cluster, any generator, loss
    and delay, and any sequence of runs, isolations, injected faults and
    proposals that starts at most as many rounds as proposal numbers fit in 64
    bits: all checks pass at the end, so at most one value was ever chosen; a
    node that considers its proposal chosen is right; and a checked run from there
    reports no violation. *)
Theorem paxos_agreement {R} (Intn Int63n : Z -> R -> Z * R) sha256 count c r dropPermille maxDelay acts
    (e : Engine Cluster Message R) :
  Z.of_nat count < 2 ^ 32 -> New count = Some c ->
  each (act Intn Int63n sha256 propose) acts (Engine.New r dropPermille maxDelay c) = Ret e ->
  (2 * Z.of_nat (costs count acts) + 1) * Z.of_nat count < 2 ^ 64 ->
  Forall (fun i => inv_Check i (Engine.cluster e) = None) SafetyInvariants /\
  (forall i n, nodes (Engine.cluster e) !! i = Some n -> Decided n = true ->
     Chosen (Engine.cluster e) = Some (myVal n, true)) /\
  (forall fuel steps e' v,
     (2 * Z.of_nat (costs count acts + steps * count) + 1) * Z.of_nat count < 2 ^ 64 ->
     RunChecked Intn Int63n sha256 (heapQueue Message) fuel steps SafetyInvariants e = Ret (e', v) -> v = None).
Proof.
  intros Hu HN HE Hk. assert (1 <= count)%nat as Hc by (unfold New in HN; destruct (Nat.ltb_spec count 1); [done|done]).
  pose proof (paxos_pool count Hc Hu) as HP. pose proof (New_pool count Hc Hu c HN) as H0.
  pose proof (session_pool Intn Int63n sha256 propose (pool count) count c r dropPermille maxDelay acts e H0 HE) as He.
  pose proof (sd_pool _ _ _ _ He) as Hp. split; [by eapply (pool_safe count Hc Hu)|]. split.
  - intros i n Hn Hd. destruct Hp as [Hids HI]. eapply (decided_chosen count Hc Hu); [by apply HI|done|done|done].
  - intros fuel steps e' v Hs. apply (RunChecked_pool Intn Int63n sha256 propose (pool count) count _ fuel steps _ e e' v He).
    intros k' c' ms Hle Hp'. eapply (pool_safe count Hc Hu); [|done]. unfold top. nia.
Qed.

(** The messages in flight or waiting in a node. *)
Definition inflight {R} (e : Engine Cluster Message R) : nat :=
  length (buffers (nodes (Engine.cluster e))) + length (queue e).

Lemma load_bound count ms : (load (weight count) ms <= (2 * count + 2) * length ms)%nat.
Proof.
  induction ms as [|m ms IH]; [cbn; lia|]. rewrite load_cons. cbn [length]. unfold weight at 1.
  destruct (m_Kind m); lia.
Qed.

(** C40 Termination.  In every simulated run of Paxos the cascade of deliveries
    inside a step ends: with the fuel that covers [2n + 2] deliveries for each of
    the messages in flight and a burst of new rounds, [Step] returns. *)
Theorem paxos_step_returns {R} (Intn Int63n : Z -> R -> Z * R) sha256 count c r dropPermille maxDelay acts
    (e : Engine Cluster Message R) fuel :
  Z.of_nat count < 2 ^ 32 -> New count = Some c ->
  each (act Intn Int63n sha256 propose) acts (Engine.New r dropPermille maxDelay c) = Ret e ->
  (2 * Z.of_nat (costs count acts) + 1) * Z.of_nat count < 2 ^ 64 ->
  0 <= delay e < 2 ^ 63 - 1 -> 0 <= seq_ e -> seq_ e + Z.of_nat fuel <= maxu64 ->
  ((2 * count + 2) * inflight e + count * (2 * count * count + 4 * count) <= fuel)%nat ->
  exists e', Engine.Step Intn Int63n sha256 (heapQueue Message) fuel e = Ret e'.
Proof.
  intros Hu HN HE Hk Hd Hs0 Hs Hf. assert (1 <= count)%nat as Hc by (unfold New in HN; destruct (Nat.ltb_spec count 1); [done|done]).
  pose proof (paxos_pool count Hc Hu) as HP. pose proof (New_pool count Hc Hu c HN) as H0.
  pose proof (session_pool Intn Int63n sha256 propose (pool count) count c r dropPermille maxDelay acts e H0 HE) as [Hp Hto Hh].
  destruct Hp as [Hids HI]. destruct (Inv_steady count _ _ _ Hids (HI Hk)) as [Hst Hg].
  set (limit := ((2 * count + 2) * inflight e)%nat).
  pose proof (load_bound count (buffers (nodes (Engine.cluster e)))) as Hb1.
  pose proof (load_bound count (ev_msg <$> queue e)) as Hb2. rewrite length_fmap in Hb2.
  assert (weights (weight count) (queue e) <= load (weight count) (ev_msg <$> queue e))%nat as Hb3.
  { generalize (queue e). intros q. induction q as [|ev q IH]; [done|]. rewrite weights_cons. cbn [fmap list_fmap].
    rewrite load_cons. lia. }
  assert (ready (steady count) (good count) (weight count)
    (fun c => load (weight count) (buffers (nodes c))) limit (seq_ e + Z.of_nat limit) [] e) as Hr.
  { split; try done; unfold work, future, limit, inflight; change (load (weight count) []) with 0%nat; lia. }
  assert (burst count = 2 * count * count + 4 * count)%nat as Hbu by (unfold burst; lia).
  pose proof (paxos_quiet count Hc Hu) as HQ.
  destruct (Step_ready Intn Int63n sha256 _ _ _ _ _ _ limit _ fuel e Hr) as (e' & He' & _); [| |by exists e'].
  - assert (length (allIds count) = count) as -> by (unfold allIds; by rewrite length_fmap, length_seq).
    rewrite Hbu. unfold limit. lia.
  - assert (length (allIds count) = count) as -> by (unfold allIds; by rewrite length_fmap, length_seq).
    rewrite Hbu. unfold limit. lia.
Qed.

Module Demo.

(** Every draw is zero, so a message arrives in the step that sent it. *)
Definition zero (n : Z) (r : unit) : Z * unit := (0, r).
Definition hash (b : bytes) : bytes := take 32 b.

Definition three : Cluster :=
  mkCluster [1; 2; 3] (<[3 := NewNode 3 3 21]> (<[2 := NewNode 2 3 18]> (<[1 := NewNode 1 3 15]> ∅))).

(** Two proposers with different values; the first is cut off from node 3 while
    the second takes over. *)
Definition script : list (session (Z * Z)) :=
  [SDrive (1, 7); SInject [During "during" 0 5 (Link "link" 1 3)]; SDrive (2, 9); SRun 100 40].

Definition outcome : Engine Cluster Message unit :=
  match each (act zero zero hash propose) script (Engine.New tt 0 0 three) with
  | Ret e => e
  | _ => Engine.New tt 0 0 three
  end.

Lemma outcome_run : each (act zero zero hash propose) script (Engine.New tt 0 0 three) = Ret outcome.
Proof. vm_compute. reflexivity. Defined.

Lemma paxos_agreement_witness :
  anyDecided (Engine.cluster outcome) = true /\ Adoptions (Engine.cluster outcome) = 1 /\
  checkSingleChoice (Engine.cluster outcome) = None.
Proof.
  split; [vm_compute; reflexivity|]. split; [vm_compute; reflexivity|].
  destruct (paxos_agreement zero zero hash 3 three tt 0 0 script outcome) as (H & _ & _);
    [lia|vm_compute; reflexivity|exact outcome_run|vm_compute; reflexivity|].
  exact (Forall_inv H).
Defined.

Lemma paxos_step_returns_witness :
  exists e', Engine.Step zero zero hash (heapQueue Message) 200 outcome = Ret e'.
Proof.
  apply (paxos_step_returns zero zero hash 3 three tt 0 0 script outcome 200);
    [lia|vm_compute; reflexivity|exact outcome_run|vm_compute; reflexivity|..].
  - split; [vm_compute; discriminate|vm_compute; reflexivity].
  - vm_compute. discriminate.
  - vm_compute. discriminate.
  - vm_compute. lia.
Defined.

End Demo.
End Paxos.
