(* ===== verification/TokenRing.v ===== *)
(** * The token ring example

    [examples/tokenring-consumer]: a token-ring protocol, and its adapter for the
    simulation engine.  Results: no simulated run, with whatever loss, delay and
    faults, ever has two token holders; and without loss the token goes round:
    every pass arrives, within the largest delay, at the next node of the ring. *)

From S2P Require Import Prelude Bytes EventHeap Engine EngineInv.

Module TokenRing.

(** ** tokenring/tokenring.go *)

Record Message := mkMessage { From : Z; To : Z; Sequence : Z }.

Record node := mkNode { holding : bool; sequence : Z; outbound : list Message }.

#[global] Instance eta_node : Eta node := fun n => mkNode (holding n) (sequence n) (outbound n).

Record Ring := mkRing { ids : list Z; nodes : gmap Z node; passes : Z }.

Definition ErrCount : error := "tokenring: node count must be at least 2".

Definition zeroNode : node := mkNode false 0 [].

Definition New (count : Z) : error + Ring :=
  if count <? 2 then inl ErrCount else
  let ids := (fun index => w32 (index + 1)) <$> seqZ 0 count in
  let nodes : gmap Z node := foldl (fun m id => <[id := zeroNode]> m) ∅ ids in
  inr (mkRing ids (alter (fun n => n <| holding := true |>) (hd 0 ids) nodes) 0).

Definition NodeIDs (r : Ring) : list Z := ids r.

(** The loop of [successor]. *)
Definition successor (id : Z) (r : Ring) : Z :=
  match list_find (fun candidate => candidate = id) (ids r) with
  | Some (index, _) => nth ((index + 1) mod length (ids r)) (ids r) 0
  | None => 0
  end.

Definition Advance (id : Z) (r : Ring) : Ring :=
  match nodes r !! id with
  | None => r
  | Some current =>
      if negb (holding current) then r else
      let seq := w64 (sequence current + 1) in
      let message := mkMessage id (successor id r) seq in
      mkRing (ids r) (<[id := mkNode false seq (outbound current ++ [message])]> (nodes r)) (w64 (passes r + 1))
  end.

Definition Receive (id : Z) (m : Message) (r : Ring) : Ring :=
  match nodes r !! id with
  | None => r
  | Some current =>
      if negb (To m =? id) then r else
      match nodes r !! From m with
      | None => r
      | Some _ =>
          if Sequence m <=? sequence current then r
          else mkRing (ids r) (<[id := mkNode true (Sequence m) (outbound current)]> (nodes r)) (passes r)
      end
  end.

Definition TakeOutbound (id : Z) (r : Ring) : Ring * list Message :=
  match nodes r !! id with
  | None => (r, [])
  | Some current =>
      if (length (outbound current) =? 0)%nat then (r, [])
      else (mkRing (ids r) (<[id := current <| outbound := [] |>]> (nodes r)) (passes r), outbound current)
  end.

Definition holds (r : Ring) (id : Z) : bool := from_option holding false (nodes r !! id).

Definition HolderIDs (r : Ring) : list Z := filter (fun id => holds r id = true) (ids r).

Definition Passes (r : Ring) : Z := passes r.

(** ** simulation/adapter.go *)

Record cluster := mkCluster { ring : Ring; c_nodes : list Z }.

Definition newCluster (count : Z) : error + cluster :=
  match New count with inl e => inl e | inr r => inr (mkCluster r (NodeIDs r)) end.

Definition Digest (m : Message) : Z * Z :=
  (1, Z.lor (Z.lor (w64 (Z.shiftl (Sequence m) 32)) (w64 (Z.shiftl (From m) 16))) (To m)).

#[global] Instance adapter : Cluster cluster Message := {
  Nodes := c_nodes;
  c_Tick := fun id c => Some (mkCluster (Advance id (ring c)) (c_nodes c));
  c_Deliver := fun id m c => Some (mkCluster (Receive id m (ring c)) (c_nodes c));
  c_Drain := fun id c => let (r, out) := TakeOutbound id (ring c) in Some (mkCluster r (c_nodes c), out);
  Route := fun m => (From m, To m);
  Engine.Digest := Digest
}.

Definition ErrTwoHolders : error := "token held by nodes".

Definition atMostOneToken : Invariant (C := cluster) :=
  mkInvariant "at-most-one-token"
    (fun c => if (1 <? length (HolderIDs (ring c)))%nat then Some ErrTwoHolders else None).

(** ** One token *)

(** What a node holds: the token, or messages that carry it. *)
Definition load (n : node) : nat := Nat.b2n (holding n) + length (outbound n).

Definition loads (m : gmap Z node) (l : list Z) : nat := sum_list ((fun id => from_option load 0%nat (m !! id)) <$> l).

Definition tokens (r : Ring) : nat := loads (nodes r) (ids r).

Record wf (r : Ring) : Prop := {
  wf_ids : NoDup (ids r);
  wf_nodes : forall id, is_Some (nodes r !! id) -> id ∈ ids r
}.

Lemma loads_other m id n l : id ∉ l -> loads (<[id := n]> m) l = loads m l.
Proof.
  intros Hl. unfold loads. f_equal. apply list_fmap_ext. intros i y Hy. cbn. rewrite lookup_insert_ne; [done|].
  intros ->. apply Hl. by eapply list_elem_of_lookup_2.
Qed.

Lemma loads_insert m id n n' l :
  NoDup l -> id ∈ l -> m !! id = Some n -> (loads (<[id := n']> m) l + load n = loads m l + load n')%nat.
Proof.
  intros Hd Hin E. induction Hd as [|x l Hx Hd IH]; [by apply elem_of_nil in Hin|].
  change (loads (<[id := n']> m) (x :: l)) with (from_option load 0 (<[id := n']> m !! x) + loads (<[id := n']> m) l)%nat.
  change (loads m (x :: l)) with (from_option load 0 (m !! x) + loads m l)%nat. apply elem_of_cons in Hin as [->|Hin].
  - rewrite lookup_insert_eq, E, loads_other by done. cbn. lia.
  - rewrite lookup_insert_ne by (intros ->; done). specialize (IH Hin). lia.
Qed.

Lemma tokens_insert id n n' r p :
  wf r -> nodes r !! id = Some n ->
  wf (mkRing (ids r) (<[id := n']> (nodes r)) p) /\
  (tokens (mkRing (ids r) (<[id := n']> (nodes r)) p) + load n = tokens r + load n')%nat.
Proof.
  intros [Hd Hn] E. split.
  - split; [done|]. cbn. intros j [x [[<- _]|[_ Hx]]%lookup_insert_Some]; apply Hn; by eexists.
  - apply loads_insert; [done| |done]. apply Hn. by eexists.
Qed.

Lemma Advance_tokens id r : wf r -> wf (Advance id r) /\ tokens (Advance id r) = tokens r.
Proof.
  intros Hr. unfold Advance. destruct (nodes r !! id) as [n|] eqn:E; [|done]. destruct (holding n) eqn:Hh; [|done]. cbn [negb].
  destruct (tokens_insert id n (mkNode false (w64 (sequence n + 1))
    (outbound n ++ [mkMessage id (successor id r) (w64 (sequence n + 1))])) r (w64 (passes r + 1)) Hr E) as [H1 H2].
  split; [done|]. unfold load in H2. rewrite Hh in H2. cbn [holding outbound Nat.b2n] in H2. rewrite length_app in H2. cbn [length] in H2. lia.
Qed.

Lemma Receive_tokens id m r : wf r -> wf (Receive id m r) /\ (tokens (Receive id m r) <= tokens r + 1)%nat.
Proof.
  intros Hr. assert (wf r /\ (tokens r <= tokens r + 1)%nat) as H0 by (split; [done|lia]).
  unfold Receive. destruct (nodes r !! id) as [n|] eqn:E; [|done]. destruct (negb _); [done|].
  destruct (nodes r !! From m); [|done]. destruct (_ <=? _); [done|].
  destruct (tokens_insert id n (mkNode true (Sequence m) (outbound n)) r (passes r) Hr E) as [H1 H2]. split; [done|].
  unfold load in H2. cbn [holding outbound Nat.b2n] in H2. lia.
Qed.

Lemma TakeOutbound_tokens id r r' out :
  wf r -> TakeOutbound id r = (r', out) -> wf r' /\ (tokens r' + length out = tokens r)%nat.
Proof.
  intros Hr. unfold TakeOutbound. destruct (nodes r !! id) as [n|] eqn:E; [|intros [= <- <-]; split; [done|cbn; lia]].
  destruct (Nat.eqb_spec (length (outbound n)) 0) as [|_]; [intros [= <- <-]; split; [done|cbn; lia]|]. intros [= <- <-].
  change (n <| outbound := [] |>) with (mkNode (holding n) (sequence n) []).
  destruct (tokens_insert id n (mkNode (holding n) (sequence n) []) r (passes r) Hr E) as [H1 H2]. split; [done|].
  unfold load in H2. cbn [holding outbound length] in H2. lia.
Qed.

Lemma HolderIDs_tokens r : (length (HolderIDs r) <= tokens r)%nat.
Proof.
  unfold HolderIDs, tokens, holds. induction (ids r) as [|id l IH]; [cbn; lia|].
  change (loads (nodes r) (id :: l)) with (from_option load 0 (nodes r !! id) + loads (nodes r) l)%nat.
  rewrite filter_cons. case_decide as Hh; [|lia]. cbn [length]. destruct (nodes r !! id) as [n|]; [|done].
  cbn in Hh |- *. unfold load. rewrite Hh. cbn. lia.
Qed.

(** The session of a test has no calls of its own. *)
Definition drive (d : Empty_set) (c : cluster) : option cluster := match d with end.

(** One token, at a node or in flight. *)
Definition single (size : nat) (k : nat) (c : cluster) (ms : list Message) : Prop :=
  wf (ring c) /\ length (c_nodes c) = size /\ (tokens (ring c) + length ms <= 1)%nat.

#[export] Instance single_pool size : Pool drive (single size) size.
Proof.
  split.
  - intros k k' c ms ms' (H1 & H2 & H3) _ Hs. split; [done|]. split; [done|]. apply submseteq_length in Hs. lia.
  - by intros k c ms (_ & H & _).
  - intros k c ms id c' (H1 & H2 & H3) [= <-]. destruct (Advance_tokens id _ H1) as [Hw Ht].
    split; [done|]. split; [done|]. cbn. by rewrite Ht.
  - intros k c m ms c' (H1 & H2 & H3) [= <-]. destruct (Receive_tokens (To m) m _ H1) as [Hw Ht].
    split; [done|]. split; [done|]. cbn in H3 |- *. lia.
  - intros k c ms id c' out (H1 & H2 & H3). cbn. destruct (TakeOutbound id (ring c)) as [r o] eqn:E. intros [= <- <-].
    destruct (TakeOutbound_tokens _ _ _ _ H1 E) as [Hw Ht]. split; [done|]. split; [done|]. cbn. rewrite length_app. lia.
  - intros k c ms [].
Qed.

Lemma single_check size k c ms : single size k c ms -> inv_Check atMostOneToken c = None.
Proof.
  intros (_ & _ & H). cbn [inv_Check atMostOneToken]. pose proof (HolderIDs_tokens (ring c)).
  destruct (Nat.ltb_spec 1 (length (HolderIDs (ring c)))); [lia|done].
Qed.

(** *** A new ring *)

Definition numbers (count : Z) : list Z := (fun index => w32 (index + 1)) <$> seqZ 0 count.

Lemma numbers_seq count : 0 <= count < 2 ^ 32 -> numbers count = seqZ 1 count.
Proof.
  intros Hc. unfold numbers. replace (seqZ 1 count) with (Z.add 1 <$> seqZ 0 count) by (by rewrite fmap_add_seqZ).
  apply list_fmap_ext. intros i x Hx.
  apply list_elem_of_lookup_2, elem_of_seqZ in Hx. unfold w32. rewrite Z.mod_small; lia.
Qed.

Lemma new_nodes l : forall m : gmap Z node, forall id,
  foldl (fun m id => <[id := zeroNode]> m) m l !! id = if decide (id ∈ l) then Some zeroNode else m !! id.
Proof.
  induction l as [|x l IH]; intros m id; cbn [foldl]; [by rewrite decide_False by apply not_elem_of_nil|].
  rewrite IH. destruct (decide (id ∈ l)) as [H|H].
  - by rewrite decide_True by (by apply elem_of_cons; right).
  - destruct (decide (id = x)) as [->|Hne].
    + rewrite lookup_insert_eq, decide_True; [done|by apply elem_of_cons; left].
    + rewrite lookup_insert_ne, decide_False; [done| |done]. rewrite elem_of_cons. tauto.
Qed.

(** Node 1 holds the token, the others have nothing. *)
Lemma New_ring count r :
  count < 2 ^ 32 -> New count = inr r ->
  2 <= count /\ ids r = seqZ 1 count /\ passes r = 0 /\
  forall id, nodes r !! id = if decide (1 <= id <= count) then Some (mkNode (id =? 1) 0 []) else None.
Proof.
  intros Hc. unfold New. destruct (Z.ltb_spec count 2) as [|H2]; [done|]. fold (numbers count). rewrite numbers_seq by lia.
  intros [= <-]. cbn [ids nodes passes]. split; [done|]. split; [done|]. split; [done|]. intros id.
  assert (hd 0 (seqZ 1 count) = 1) as -> by (rewrite (seqZ_cons 1) by lia; done).
  destruct (decide (id = 1)) as [->|Hne].
  - rewrite lookup_alter_eq, new_nodes. rewrite decide_True by (apply elem_of_seqZ; lia). by rewrite decide_True by lia.
  - rewrite lookup_alter_ne, new_nodes, lookup_empty by done. destruct (decide (1 <= id <= count)).
    + rewrite decide_True by (apply elem_of_seqZ; lia). by rewrite (proj2 (Z.eqb_neq _ _) Hne).
    + rewrite decide_False; [done|]. rewrite elem_of_seqZ. lia.
Qed.

Lemma New_wf count r : count < 2 ^ 32 -> New count = inr r -> wf r /\ tokens r = 1%nat.
Proof.
  intros Hc HN. destruct (New_ring count r Hc HN) as (H2 & Hi & _ & Hn). split.
  - split; [rewrite Hi; apply NoDup_seqZ|]. intros id [n Hid]. rewrite Hn in Hid. case_decide; [|done].
    rewrite Hi. apply elem_of_seqZ. lia.
  - unfold tokens. rewrite Hi, (seqZ_cons 1) by lia.
    change (loads (nodes r) (1 :: seqZ (Z.succ 1) (Z.pred count))) with
      (from_option load 0 (nodes r !! 1%Z) + loads (nodes r) (seqZ (Z.succ 1) (Z.pred count)))%nat.
    rewrite Hn, decide_True by lia. cbn [from_option].
    enough (loads (nodes r) (seqZ (Z.succ 1) (Z.pred count)) = 0%nat) as -> by done.
    assert (forall id, id ∈ seqZ (Z.succ 1) (Z.pred count) -> from_option load 0%nat (nodes r !! id) = 0%nat) as H0.
    { intros id Hid%elem_of_seqZ. rewrite Hn. case_decide; [|done]. cbn. by rewrite (proj2 (Z.eqb_neq id 1)) by lia. }
    revert H0. generalize (seqZ (Z.succ 1) (Z.pred count)). intros l. induction l as [|x l IH]; intros H0; [done|].
    change (loads (nodes r) (x :: l)) with (from_option load 0 (nodes r !! x) + loads (nodes r) l)%nat.
    rewrite H0 by apply list_elem_of_here. rewrite IH; [done|]. intros id Hid. apply H0. by right.
Qed.

(** C30 One token.  In a ring of any number of nodes below 2^32, run by the engine
    with any generator, loss, delay, isolations and injected faults, at most one
    node ever holds the token, and the check of the example never fails. *)
Theorem one_token {R} (Intn Int63n : Z -> R -> Z * R) sha256 count c r dropPermille maxDelay acts
    (e : Engine cluster Message R) :
  count < 2 ^ 32 -> newCluster count = inr c ->
  each (act Intn Int63n sha256 drive) acts (Engine.New r dropPermille maxDelay c) = Ret e ->
  (length (HolderIDs (ring (Engine.cluster e))) + length (queue e) <= 1)%nat /\
  forall fuel steps e' v,
    RunChecked Intn Int63n sha256 (heapQueue Message) fuel steps [atMostOneToken] e = Ret (e', v) -> v = None.
Proof.
  intros Hc HN HE. unfold newCluster in HN. destruct (New count) as [|r0] eqn:E; [done|]. injection HN as <-.
  destruct (New_wf count r0 Hc E) as [Hw Ht]. set (c := mkCluster _ _) in HE. set (size := length (c_nodes c)).
  assert (single size 0 c []) as H0 by (split; [done|]; split; [done|]; cbn; lia).
  pose proof (session_pool Intn Int63n sha256 drive (single size) size c r dropPermille maxDelay acts e H0 HE) as He. split.
  - destruct (sd_pool _ _ _ _ He) as (_ & _ & H). cbn [app] in H. rewrite length_fmap in H.
    pose proof (HolderIDs_tokens (ring (Engine.cluster e))). lia.
  - intros fuel steps e' v. apply (RunChecked_pool Intn Int63n sha256 drive (single size) size _ fuel steps _ e e' v He).
    intros k c' ms _ H. constructor; [|constructor]. by eapply single_check.
Qed.

(** ** Loops in which one element acts *)

Lemma each_keep {P A B} (f : B -> A -> run P A) l a : (forall x, x ∈ l -> f x a = Ret a) -> each f l a = Ret a.
Proof.
  induction l as [|x l IH]; intros Hf; cbn [each]; [done|]. rewrite Hf by apply list_elem_of_here.
  apply IH. intros y Hy. apply Hf. by right.
Qed.

Lemma each_one {P A B} (f : B -> A -> run P A) l h a a' :
  NoDup l -> h ∈ l -> (forall x, x ∈ l -> x <> h -> f x a = Ret a) -> f h a = Ret a' ->
  (forall x, x ∈ l -> x <> h -> f x a' = Ret a') -> each f l a = Ret a'.
Proof.
  intros Hd Hh Hb Hf Ha. induction Hd as [|x l Hx Hd IH]; [by apply elem_of_nil in Hh|]. cbn [each].
  apply elem_of_cons in Hh as [->|Hh].
  - rewrite Hf. apply each_keep. intros y Hy. apply Ha; [by right|]. by intros ->.
  - rewrite Hb; [|apply list_elem_of_here|by intros ->]. apply IH; [done|..]; intros y Hy Hne; [apply Hb|apply Ha]; try done; by right.
Qed.

(** ** The token goes round

    Without loss and faults.  After [p] passes the token is at node [home p], or
    on its way there. *)

Section round.
Context (n : Z).
Hypothesis n_range : 2 <= n < 2 ^ 32.

Definition home (p : Z) : Z := p mod n + 1.

Lemma home_range p : 1 <= home p <= n.
Proof. unfold home. pose proof (Z.mod_pos_bound p n). lia. Qed.

Lemma home_ne p : home (p + 1) <> home p.
Proof.
  unfold home. intros E. assert (((p + 1) - p) mod n = 0) as H.
  { rewrite Zminus_mod. replace ((p + 1) mod n) with (p mod n) by lia. by rewrite Z.sub_diag. }
  replace (p + 1 - p) with 1 in H by lia. rewrite Z.mod_small in H; lia.
Qed.

(** After [p] passes, with the token at the node [h], or at none; nothing waits to
    be sent. *)
Record rests (h : option Z) (p : Z) (r : Ring) : Prop := {
  re_ids : ids r = seqZ 1 n;
  re_passes : passes r = p;
  re_node : forall id, 1 <= id <= n -> exists x, nodes r !! id = Some x /\
    outbound x = [] /\ 0 <= sequence x <= p /\ holding x = bool_decide (h = Some id) /\
    (h = Some id -> sequence x = p) /\ (h = None -> id = home p -> sequence x < p)
}.

(** The message of the pass that made it [p]. *)
Definition token (p : Z) : Message := mkMessage (home (p - 1)) (home p) p.

(** The ring after the holder of [p] passes has let go of the token, with what it
    has still to send. *)
Definition released (p : Z) (out : list Message) (r : Ring) : Ring :=
  mkRing (ids r) (<[home p := mkNode false (p + 1) out]> (nodes r)) (p + 1).

Lemma successor_home p r : ids r = seqZ 1 n -> successor (home p) r = home (p + 1).
Proof.
  intros Hi. unfold successor. rewrite Hi. pose proof (home_range p) as Hh.
  assert (seqZ 1 n !! Z.to_nat (home p - 1) = Some (home p)) as Hl by (apply lookup_seqZ; lia).
  assert (list_find (fun candidate => candidate = home p) (seqZ 1 n) = Some (Z.to_nat (home p - 1), home p)) as ->.
  { apply list_find_Some. split; [done|]. split; [done|]. intros j y Hy Hj ->. apply lookup_seqZ in Hy. lia. }
  rewrite length_seqZ. replace (Z.to_nat (home p - 1) + 1)%nat with (Z.to_nat (home p)) by lia.
  rewrite <- Z2Nat.inj_mod by lia.
  assert (seqZ 1 n !! Z.to_nat (home p mod n) = Some (home (p + 1))) as E.
  { apply lookup_seqZ. pose proof (Z.mod_pos_bound (home p) n). unfold home in *.
    pose proof (Z.add_mod_idemp_l p 1 n ltac:(lia)). lia. }
  by apply nth_lookup_Some with (d := 0) in E.
Qed.

Lemma Advance_idle id r : holds r id = false -> Advance id r = r.
Proof. unfold holds, Advance. destruct (nodes r !! id) as [x|]; [|done]. cbn. by intros ->. Qed.

Lemma rests_holds h p r id : rests h p r -> 1 <= id <= n -> holds r id = bool_decide (h = Some id).
Proof. intros Hr Hid. destruct (re_node _ _ _ Hr id Hid) as (x & E & _ & _ & Hh & _). unfold holds. by rewrite E. Qed.

Lemma TakeOutbound_idle h p r id : rests h p r -> 1 <= id <= n -> TakeOutbound id r = (r, []).
Proof. intros Hr Hid. destruct (re_node _ _ _ Hr id Hid) as (x & E & Ho & _). unfold TakeOutbound. by rewrite E, Ho. Qed.

Lemma Advance_home p r :
  0 <= p < maxu64 -> rests (Some (home p)) p r -> Advance (home p) r = released p [token (p + 1)] r.
Proof.
  intros Hp Hr. destruct (re_node _ _ _ Hr (home p) (home_range p)) as (x & E & Ho & _ & Hh & Hs & _).
  unfold Advance, released, token. rewrite E, Hh, bool_decide_true by done. cbn [negb].
  rewrite (Hs eq_refl), Ho, (re_passes _ _ _ Hr), successor_home by apply Hr. unfold w64. rewrite !Z.mod_small by (unfold maxu64 in *; lia).
  by replace (p + 1 - 1) with p by lia.
Qed.

Lemma released_holds p out r id : rests (Some (home p)) p r -> 1 <= id <= n -> holds (released p out r) id = false.
Proof.
  intros Hr Hid. unfold holds, released. cbn [nodes]. destruct (decide (id = home p)) as [->|Hne]; [by rewrite lookup_insert_eq|].
  rewrite lookup_insert_ne by done. destruct (re_node _ _ _ Hr id Hid) as (x & -> & _ & _ & Hh & _). cbn.
  rewrite Hh. apply bool_decide_false. congruence.
Qed.

Lemma released_rests p r : 0 <= p -> rests (Some (home p)) p r -> rests None (p + 1) (released p [] r).
Proof.
  intros Hp Hr. split; [apply Hr|done|]. intros id Hid. unfold released. cbn [nodes].
  destruct (decide (id = home p)) as [->|Hne].
  - rewrite lookup_insert_eq. eexists. split; [done|]. cbn. split; [done|]. split; [lia|]. split; [done|]. split; [done|].
    intros _ E. by destruct (home_ne p).
  - rewrite lookup_insert_ne by done. destruct (re_node _ _ _ Hr id Hid) as (x & E & Ho & Hs & Hh & _).
    exists x. split; [done|]. split; [done|]. split; [lia|]. split; [rewrite Hh; by apply bool_decide_false; congruence|].
    split; [done|]. lia.
Qed.

Lemma released_take p out r id :
  rests (Some (home p)) p r -> 1 <= id <= n -> out <> [] ->
  TakeOutbound id (released p out r) = if decide (id = home p) then (released p [] r, out) else (released p out r, []).
Proof.
  intros Hr Hid Ho. unfold TakeOutbound, released. cbn [nodes ids passes]. case_decide as E.
  - subst id. rewrite lookup_insert_eq. cbn. destruct out; [done|]. cbn. by rewrite insert_insert_eq.
  - rewrite lookup_insert_ne by done. destruct (re_node _ _ _ Hr id Hid) as (x & -> & -> & _). done.
Qed.

Lemma Receive_home p r : 1 <= p -> rests None p r -> rests (Some (home p)) p (Receive (home p) (token p) r).
Proof.
  intros Hp Hr. destruct (re_node _ _ _ Hr (home p) (home_range p)) as (x & E & Ho & Hs & _ & _ & Hlt).
  destruct (re_node _ _ _ Hr (home (p - 1)) (home_range (p - 1))) as (y & Ey & _).
  unfold Receive, token. cbn [From To Sequence]. rewrite E, Ey, Z.eqb_refl. cbn [negb].
  destruct (Z.leb_spec p (sequence x)); [specialize (Hlt eq_refl eq_refl); lia|]. split; [apply Hr|apply Hr|]. intros id Hid. cbn [nodes].
  destruct (decide (id = home p)) as [->|Hne].
  - rewrite lookup_insert_eq. eexists. split; [done|]. cbn. split; [done|]. split; [lia|]. by rewrite bool_decide_true by done.
  - rewrite lookup_insert_ne by done. destruct (re_node _ _ _ Hr id Hid) as (z & Ez & Hzo & Hzs & Hzh & _).
    exists z. split; [done|]. split; [done|]. split; [lia|]. rewrite Hzh.
    split; [by rewrite !bool_decide_false by congruence|]. split; [congruence|done].
Qed.

Lemma filter_single (l : list Z) x : NoDup l -> x ∈ l -> filter (fun y => y = x) l = [x].
Proof.
  induction 1 as [|y l Hy Hd IH]; intros Hx; [by apply elem_of_nil in Hx|]. rewrite filter_cons. case_decide as E.
  - subst y. f_equal. apply filter_none. by intros z Hz ->.
  - apply elem_of_cons in Hx as [->|Hx]; [done|]. by apply IH.
Qed.

Lemma rests_holders h p r :
  rests h p r -> h = None \/ h = Some (home p) -> HolderIDs r = match h with Some id => [id] | None => [] end.
Proof.
  intros Hr Hh. unfold HolderIDs. rewrite (re_ids _ _ _ Hr). pose proof (home_range p) as Hp. destruct Hh as [->| ->].
  - apply filter_none. intros id Hid%elem_of_seqZ. by rewrite (rests_holds _ _ _ _ Hr) by lia.
  - rewrite <- (filter_single (seqZ 1 n) (home p)); [|apply NoDup_seqZ|apply elem_of_seqZ; lia].
    apply filter_ext_in. intros id Hid%elem_of_seqZ. rewrite (rests_holds _ _ _ _ Hr) by lia.
    rewrite bool_decide_eq_true. naive_solver.
Qed.

(** *** The engine *)

Context {R : Type} (Intn Int63n : Z -> R -> Z * R) (sha256 : bytes -> bytes) (D : Z).
Hypothesis D_range : 0 <= D < 2 ^ 63 - 1.

(** [math/rand]: [Int63n] draws below its bound. *)
Hypothesis draws : forall k r, 0 < k -> 0 <= (Int63n k r).1 < k.

Abbreviation engine := (Engine cluster Message R).

Definition setRing (r : Ring) (e : engine) : engine := e <| Engine.cluster := mkCluster r (c_nodes (Engine.cluster e)) |>.

(** No loss, no faults, and [n] nodes. *)
Record plain (e : engine) : Prop := {
  pl_drop : drop_ e = 0;
  pl_delay : delay e = D;
  pl_injectors : injectors e = [];
  pl_nodes : c_nodes (Engine.cluster e) = seqZ 1 n
}.

Lemma setRing_same e : setRing (ring (Engine.cluster e)) e = e.
Proof. by destruct e as [now [r ns] g dr de sq q t i j]. Qed.

Lemma ticks_idle e p :
  plain e -> rests None p (ring (Engine.cluster e)) ->
  each (fun id e => lift (AtTick id) (c_Tick id (Engine.cluster e)) e) (Nodes (Engine.cluster e)) e = Ret e.
Proof.
  intros He Hr. apply each_keep. intros id Hid. cbn in Hid |- *. rewrite (pl_nodes _ He) in Hid. apply elem_of_seqZ in Hid.
  rewrite Advance_idle by (rewrite (rests_holds _ _ _ _ Hr) by lia; done). f_equal. apply setRing_same.
Qed.

Lemma ticks_home e p :
  plain e -> 0 <= p < maxu64 -> rests (Some (home p)) p (ring (Engine.cluster e)) ->
  each (fun id e => lift (AtTick id) (c_Tick id (Engine.cluster e)) e) (Nodes (Engine.cluster e)) e =
    Ret (setRing (released p [token (p + 1)] (ring (Engine.cluster e))) e).
Proof.
  intros He Hp Hr. pose proof (home_range p) as Hh. cbn [Nodes adapter]. rewrite (pl_nodes _ He).
  apply (each_one _ _ (home p)).
  - apply NoDup_seqZ.
  - apply elem_of_seqZ. lia.
  - intros id Hid%elem_of_seqZ Hne. cbn. rewrite Advance_idle; [f_equal; apply setRing_same|].
    rewrite (rests_holds _ _ _ _ Hr) by lia. apply bool_decide_false. congruence.
  - cbn. by rewrite Advance_home.
  - intros id Hid%elem_of_seqZ Hne. cbn. rewrite Advance_idle by (apply released_holds; [done|lia]). done.
Qed.

Lemma Collect_idle e h p :
  plain e -> rests h p (ring (Engine.cluster e)) -> Collect Intn Int63n (heapQueue Message) e = Ret e.
Proof.
  intros He Hr. apply each_keep. intros id Hid. unfold collectNode. cbn in Hid |- *. rewrite (pl_nodes _ He) in Hid.
  apply elem_of_seqZ in Hid. rewrite (TakeOutbound_idle _ _ _ _ Hr) by lia. cbn. f_equal. apply setRing_same.
Qed.

(** A message is scheduled within the delay. *)
Lemma collectMsg_plain m e :
  plain e -> seq_ e < maxu64 -> 0 <= Now e -> Now e + D < 2 ^ 64 -> queue e = [] ->
  exists x g, 0 <= x <= D /\ collectMsg Intn Int63n (heapQueue Message) m e =
    Ret (e <| rng := g |> <| seq_ := seq_ e + 1 |> <| queue := [mkEvent (Now e + x) (seq_ e + 1) (From m) (To m) m] |>).
Proof.
  intros He Hs H0 Hn Hq. unfold collectMsg. rewrite (pl_drop _ He). cbn [Z.ltb Z.compare].
  assert (forall x g, 0 <= x <= D -> schedule (heapQueue Message) m x (e <| rng := g |>) =
    Ret (e <| rng := g |> <| seq_ := seq_ e + 1 |> <| queue := [mkEvent (Now e + x) (seq_ e + 1) (From m) (To m) m] |>)) as Hsch.
  { intros x g Hx. unfold schedule. cbn [Route adapter]. unfold blockedBy.
    change (injectors (e <| rng := g |>)) with (injectors e). rewrite (pl_injectors _ He). cbn [find negb].
    rewrite bool_decide_true by done. cbn [negb]. change (seq_ (e <| rng := g |>)) with (seq_ e).
    destruct (Z.eqb_spec (seq_ e) maxu64); [lia|]. cbn. rewrite Hq. unfold w64. by rewrite Z.mod_small by lia. }
  unfold delayMsg. rewrite (pl_delay _ He). destruct (Z.ltb_spec 0 D) as [HD|HD].
  - unfold delayBound. rewrite (pl_delay _ He). unfold w64. rewrite Z.mod_small by lia.
    destruct (Z.ltb_spec (D + 1) (2 ^ 63)); [|lia]. destruct (Z.leb_spec (D + 1) 0); [lia|].
    pose proof (draws (D + 1) (rng e) ltac:(lia)) as Hd. destruct (Int63n (D + 1) (rng e)) as [x g]. cbn in Hd.
    exists x, g. split; [lia|]. rewrite Z.mod_small by lia. apply Hsch. lia.
  - exists 0, (rng e). split; [lia|]. replace e with (e <| rng := rng e |>) at 1 by by destruct e. apply Hsch. lia.
Qed.

(** The event of a token in flight. *)
Definition flight (at_ p : Z) : event Message := mkEvent at_ p (home (p - 1)) (home p) (token p).

Lemma Collect_home e p r :
  plain e -> 0 <= p < maxu64 -> seq_ e = p -> 0 <= Now e -> Now e + D < 2 ^ 64 -> queue e = [] ->
  rests (Some (home p)) p r -> ring (Engine.cluster e) = released p [token (p + 1)] r ->
  exists x g, 0 <= x <= D /\ Collect Intn Int63n (heapQueue Message) e =
    Ret (setRing (released p [] r) e <| rng := g |> <| seq_ := p + 1 |> <| queue := [flight (Now e + x) (p + 1)] |>).
Proof.
  intros He Hp Hs H0 Hn Hq Hr HR.
  assert (plain (setRing (released p [] r) e)) as He' by by destruct He.
  destruct (collectMsg_plain (token (p + 1)) _ He') as (x & g & Hx & HC); [cbn; lia|done|done|done|].
  exists x, g. split; [done|]. unfold Collect. cbn [Nodes adapter]. rewrite (pl_nodes _ He). pose proof (home_range p).
  apply (each_one _ _ (home p)).
  - apply NoDup_seqZ.
  - apply elem_of_seqZ. lia.
  - intros id Hid%elem_of_seqZ Hne. unfold collectNode. cbn. rewrite HR, released_take by (done || lia).
    rewrite decide_False by done. cbn. rewrite <- HR. f_equal. apply setRing_same.
  - unfold collectNode. cbn. rewrite HR, released_take by (done || lia). rewrite decide_True by done. cbn [each].
    unfold setRing in HC. rewrite HC. cbn [mbind run_bind]. unfold flight, token.
    change (seq_ (e <| Engine.cluster := mkCluster (released p [] r) (c_nodes (Engine.cluster e)) |>)) with (seq_ e).
    change (Now (e <| Engine.cluster := mkCluster (released p [] r) (c_nodes (Engine.cluster e)) |>)) with (Now e).
    rewrite Hs. cbn [From To]. by replace (p + 1 - 1) with p by lia.
  - intros id Hid%elem_of_seqZ Hne. unfold collectNode. cbn.
    rewrite (TakeOutbound_idle None (p + 1)); [done| |lia]. apply released_rests; [lia|done].
Qed.

(** A token that has arrived is taken by its destination. *)
Lemma deliver_home fuel e p s :
  plain e -> 1 <= p -> rests None p (ring (Engine.cluster e)) ->
  queue e = [mkEvent (Now e) s (home (p - 1)) (home p) (token p)] ->
  exists e', deliver Intn Int63n sha256 (heapQueue Message) (S fuel) e = Ret e' /\ Now e' = Now e /\ seq_ e' = seq_ e /\
    plain e' /\ rests (Some (home p)) p (ring (Engine.cluster e')) /\ queue e' = [].
Proof.
  intros He Hp Hr Hq. cbn [deliver]. rewrite Hq.
  assert (forall ev : event Message, q_pop (heapQueue Message) [ev] = Some (ev, [])) as -> by done.
  cbn [ev_at]. rewrite Z.leb_refl. unfold record. cbn [Engine.Digest adapter ev_msg]. destruct (Digest (token p)) as [kind value].
  cbn zeta. set (e1 := upd _ _ : engine).
  assert (plain e1 /\ Now e1 = Now e /\ seq_ e1 = seq_ e /\ Engine.cluster e1 = Engine.cluster e /\ queue e1 = [])
    as (H1 & Hn1 & Hs1 & Hc1 & Hq1) by (subst e1; by destruct He).
  clearbody e1.
  rewrite Hc1. cbn [c_Deliver adapter ev_to ev_msg lift mbind run_bind].
  set (e2 := upd _ _ : engine).
  assert (plain e2 /\ Now e2 = Now e /\ seq_ e2 = seq_ e /\ ring (Engine.cluster e2) = Receive (home p) (token p) (ring (Engine.cluster e)) /\
    queue e2 = []) as (H2 & Hn2 & Hs2 & Hc2 & Hq2).
  { subst e2. destruct H1. split; [split; try done; cbn; by rewrite <- Hc1|]. done. }
  clearbody e2.
  assert (rests (Some (home p)) p (ring (Engine.cluster e2))) as Hr2 by (rewrite Hc2; by apply Receive_home).
  rewrite (Collect_idle e2 _ _ H2 Hr2). cbn [mbind run_bind]. exists e2. split; [|done].
  destruct fuel; cbn [deliver]; by rewrite Hq2.
Qed.

Lemma deliver_later fuel (e : engine) ev :
  queue e = [ev] -> Now e < ev_at ev -> deliver Intn Int63n sha256 (heapQueue Message) fuel e = Ret e.
Proof.
  intros Hq Hn. assert (forall x : event Message, q_pop (heapQueue Message) [x] = Some (x, [])) as Hp by done.
  destruct fuel; cbn [deliver]; rewrite Hq, Hp; by rewrite (proj2 (Z.leb_gt _ _) Hn).
Qed.

(** Between steps: the token rests at its node, or arrives there [rem] steps
    from now. *)
Definition phase (p rem : Z) (e : engine) : Prop :=
  plain e /\ seq_ e = p /\ 0 <= p /\
  (rem = 0 /\ rests (Some (home p)) p (ring (Engine.cluster e)) /\ queue e = [] \/
   0 < rem <= D /\ 1 <= p /\ rests None p (ring (Engine.cluster e)) /\ queue e = [flight (Now e + rem) p]).

(** Arrivals of a token that is at most [x] steps away. *)
Lemma deliver_phase fuel e p x :
  plain e -> seq_ e = p -> 1 <= p -> 0 <= x <= D -> rests None p (ring (Engine.cluster e)) -> queue e = [flight (Now e + x) p] ->
  exists e', deliver Intn Int63n sha256 (heapQueue Message) (S fuel) e = Ret e' /\ Now e' = Now e /\ phase p x e'.
Proof.
  intros He Hs Hp Hx Hr Hq. destruct (decide (x = 0)) as [->|Hne].
  - rewrite Z.add_0_r in Hq. destruct (deliver_home fuel e p p He Hp Hr Hq) as (e' & -> & Hn & Hs' & He' & Hr' & Hq').
    exists e'. split; [done|]. split; [done|]. split; [done|]. split; [lia|]. split; [lia|]. by left.
  - exists e. split; [by eapply deliver_later; [exact Hq|cbn; lia]|]. split; [done|]. split; [done|]. split; [done|].
    split; [lia|]. right. split; [lia|]. done.
Qed.

Lemma Step_phase fuel e p rem :
  phase p rem e -> 0 <= Now e -> Now e + D + 1 < 2 ^ 64 -> p < maxu64 ->
  exists e' p' rem', Step Intn Int63n sha256 (heapQueue Message) (S fuel) e = Ret e' /\ Now e' = Now e + 1 /\
    phase p' rem' e' /\ p <= p' <= p + 1 /\ (D + 1) * p - rem + 1 <= (D + 1) * p' - rem'.
Proof.
  intros (He & Hs & Hp0 & Hph) Hn0 Hn Hp. unfold Step. unfold w64. rewrite Z.mod_small by lia. cbn zeta.
  set (e0 := e <| Now := Now e + 1 |>).
  assert (plain e0 /\ seq_ e0 = p /\ Now e0 = Now e + 1 /\ Engine.cluster e0 = Engine.cluster e /\ queue e0 = queue e)
    as (He0 & Hs0 & Hn0' & Hc0 & Hq0) by (subst e0; by destruct He).
  clearbody e0. rewrite <- Hc0, <- Hq0 in Hph. destruct Hph as [(-> & Hr & Hq)|(Hrem & Hp1 & Hr & Hq)].
  - rewrite (ticks_home e0 p) by (done || lia). cbn [mbind run_bind]. set (e1 := setRing _ e0).
    destruct (Collect_home e1 p (ring (Engine.cluster e0))) as (x & g & Hx & ->); try done;
      [by destruct He0|cbn; lia..|]. cbn [mbind run_bind]. set (e2 := upd _ _ : engine).
    destruct (deliver_phase fuel e2 (p + 1) x) as (e' & Hd & Hn' & Hph'); try done; [by destruct He0|lia| |].
    + apply released_rests; [lia|done].
    + exists e', (p + 1), x. split; [done|]. split; [rewrite Hn'; exact Hn0'|]. split; [done|]. split; [lia|]. nia.
  - rewrite (ticks_idle e0 p) by done. cbn [mbind run_bind]. rewrite (Collect_idle e0 _ _ He0 Hr). cbn [mbind run_bind].
    destruct (deliver_phase fuel e0 p (rem - 1)) as (e' & Hd & Hn' & Hph'); try done; [lia| |].
    + rewrite Hq, Hn0'. do 2 f_equal. lia.
    + exists e', p, (rem - 1). split; [done|]. split; [lia|]. split; [done|]. lia.
Qed.

Lemma New_phase c r : newCluster n = inr c -> phase 0 0 (Engine.New r 0 D c).
Proof.
  unfold newCluster. destruct (New n) as [|r0] eqn:E; [done|]. intros [= <-].
  destruct (New_ring n r0 ltac:(lia) E) as (_ & Hi & Hp & Hn). split; [by split|]. split; [done|]. split; [done|]. left.
  split; [done|]. split; [|done]. cbn. unfold home. rewrite Z.mod_small by lia. split; [done|done|]. intros id Hid.
  rewrite Hn, decide_True by done. eexists. split; [done|]. cbn. split; [done|]. split; [lia|].
  split; [|done]. destruct (Z.eqb_spec id 1) as [->|Hne]; [by rewrite bool_decide_true by done|].
  rewrite bool_decide_false; [done|]. intros [= ?]. lia.
Qed.

Lemma Run_phase fuel steps : forall e p rem,
  phase p rem e -> 0 <= Now e -> Now e + Z.of_nat steps + D < 2 ^ 64 -> p + Z.of_nat steps < maxu64 ->
  exists e' p' rem', Run Intn Int63n sha256 (heapQueue Message) (S fuel) steps e = Ret e' /\
    phase p' rem' e' /\ p <= p' <= p + Z.of_nat steps /\ (D + 1) * p - rem + Z.of_nat steps <= (D + 1) * p' - rem'.
Proof.
  induction steps as [|steps IH]; intros e p rem Hph Hn0 Hn Hp; cbn [Run].
  { exists e, p, rem. split; [done|]. split; [done|]. lia. }
  destruct (Step_phase fuel e p rem Hph Hn0) as (e1 & p1 & rem1 & -> & Hn1 & Hph1 & Hp1 & Hm1); [lia..|]. cbn [mbind run_bind].
  destruct (IH e1 p1 rem1 Hph1) as (e' & p' & rem' & HE & Hph' & Hp' & Hm'); [lia..|].
  exists e', p', rem'. split; [done|]. split; [done|]. lia.
Qed.

End round.

(** C29 The token goes round.  Without loss and faults, and with any delays up to
    [D], a ring of [n] nodes runs for any number of steps, and in [D + 1] steps
    the token is passed at least once: after [p] passes it is held by node
    [p mod n + 1], and by no other, or it is the one message in flight, on its way
    there and due within [D] steps.  So every node gets the token, again and again. *)
Theorem token_circulates {R} (Intn Int63n : Z -> R -> Z * R) sha256 n D r c fuel steps :
  2 <= n < 2 ^ 32 -> 0 <= D < 2 ^ 63 - 1 -> (forall k r, 0 < k -> 0 <= (Int63n k r).1 < k) ->
  Z.of_nat steps + D < maxu64 -> newCluster n = inr c ->
  exists e, Run Intn Int63n sha256 (heapQueue Message) (S fuel) steps (Engine.New r 0 D c) = Ret e /\
    let p := Passes (ring (Engine.cluster e)) in
    Z.of_nat steps <= (D + 1) * p /\ p <= Z.of_nat steps /\
    (HolderIDs (ring (Engine.cluster e)) = [p mod n + 1] /\ queue e = [] \/
     HolderIDs (ring (Engine.cluster e)) = [] /\
     exists ev, queue e = [ev] /\ ev_to ev = p mod n + 1 /\ Now e < ev_at ev <= Now e + D).
Proof.
  intros Hn HD Hd Hs HN. pose proof (New_phase n Hn D c r HN) as H0.
  destruct (Run_phase n Hn Intn Int63n sha256 D HD Hd fuel steps _ 0 0 H0) as (e & p & rem & HE & (_ & _ & Hp0 & Hph) & Hp & Hm);
    [done|cbn; unfold maxu64 in Hs; lia|lia|].
  exists e. split; [done|]. unfold Passes. fold (home n p). destruct Hph as [(-> & Hr & Hq)|(Hrem & _ & Hr & Hq)];
    rewrite (re_passes _ _ _ _ Hr); (split; [lia|]); (split; [lia|]).
  - left. split; [|done]. apply (rests_holders n Hn _ _ _ Hr). by right.
  - right. split; [apply (rests_holders n Hn _ _ _ Hr); by left|]. eexists. split; [exact Hq|]. cbn. split; [done|]. lia.
Qed.

Module Demo.

Definition draw (k : Z) (r : Z) : Z * Z := (r mod k, r + 1).
Definition hash (b : bytes) : bytes := take 32 b.

Definition three : cluster := match newCluster 3 with inr c => c | inl _ => mkCluster (mkRing [] ∅ 0) [] end.

Lemma three_new : newCluster 3 = inr three.
Proof. reflexivity. Defined.

Lemma one_token_witness :
  exists e : Engine cluster Message Z,
    each (act draw draw hash drive) [SRun 10 7; SInject [Isolate "isolate[1]" [1]]; SRun 10 20] (Engine.New 0 0 3 three) = Ret e /\
    (length (HolderIDs (ring (Engine.cluster e))) + length (queue e) <= 1)%nat.
Proof.
  destruct (each (act draw draw hash drive) [SRun 10 7; SInject [Isolate "isolate[1]" [1]]; SRun 10 20] (Engine.New 0 0 3 three))
    as [e| |] eqn:E; [|vm_compute in E; discriminate E..].
  exists e. split; [reflexivity|]. refine (proj1 (one_token draw draw hash 3 three 0 0 3 _ e _ three_new E)). lia.
Defined.

Lemma token_circulates_witness :
  exists e, Run draw draw hash (heapQueue Message) 1 100 (Engine.New 0 0 3 three) = Ret e /\ 25 <= Passes (ring (Engine.cluster e)).
Proof.
  destruct (token_circulates draw draw hash 3 3 0 three 0 100) as (e & He & Hp & _);
    [lia|lia| |vm_compute; reflexivity|exact three_new|].
  - intros k r Hk. apply Z.mod_pos_bound. exact Hk.
  - exists e. split; [exact He|]. cbn zeta in Hp. lia.
Defined.

End Demo.
End TokenRing.
