(* ===== verification/Protocol.v ===== *)
(** * The wire protocol

    [protocol/frame.go], [protocol/peer.go], [protocol/client.go] and
    [protocol/call.go]: checksummed frames over a byte stream and the encodings of
    Raft messages, client requests and responses.  Results: a frame written to a
    writer that may write short is read back, with what follows it untouched; a
    truncated frame, or one whose payload has a changed byte, is never accepted;
    and what one side encodes the other side decodes. *)

From S2P Require Import Prelude Bytes RaftTypes.

Module Protocol.

(** ** protocol/frame.go *)

Definition Version : Z := 1.
Definition HeaderSize : nat := 16.
Definition MaxFrameSize : Z := Z.shiftl 1 20.

Definition KindPeer : Z := 1.
Definition KindClientRequest : Z := 2.
Definition KindClientResponse : Z := 3.

(** HYPR *)
Definition frameMagic : bytes := [72; 89; 80; 82].
Definition ErrFrame : error := "protocol: invalid frame".
Definition ErrVersion : error := "protocol: unsupported version".
Definition ErrFrameTooLarge : error := "protocol: frame too large".
Definition ErrShortWrite : error := "short write".
Definition ErrEOF : error := "EOF".

(** Writes to a buffer at fixed offsets, one after the other. *)
Definition puts (ws : list (nat * bytes)) (dst : bytes) : bytes :=
  foldl (fun dst w => put w.1 w.2 dst) dst ws.

(** [data[i]]. *)
Definition byteAt (i : nat) (data : bytes) : Z := leGet (sub i (S i) data).

Definition frameHeader (kind : Z) (payload : bytes) : bytes :=
  puts [(0, frameMagic); (4, le 2 Version); (6, le 2 (w16 kind)); (8, le 4 (w32 (len payload)));
        (12, le 4 (crc32c payload))]%nat (replicate HeaderSize 0).

(** [io.ReadFull] on the bytes a connection delivers before it is closed. *)
Definition ReadFull (n : nat) (r : bytes) : error + bytes * bytes :=
  if (n <=? length r)%nat then inr (take n r, drop n r) else inl ErrEOF.

Definition ReadFrame (r : bytes) : error + Z * bytes * bytes :=
  match ReadFull HeaderSize r with
  | inl e => inl e
  | inr (header, r) =>
      if negb (bool_decide (sub 0 4 header = frameMagic)) then inl ErrFrame
      else if negb (leGet (sub 4 6 header) =? Version) then inl ErrVersion
      else
        let length := leGet (sub 8 12 header) in
        if MaxFrameSize <? length then inl ErrFrameTooLarge
        else
          match ReadFull (Z.to_nat length) r with
          | inl e => inl e
          | inr (payload, r) =>
              if negb (crc32c payload =? leGet (sub 12 16 header)) then inl ErrFrame
              else inr (leGet (sub 6 8 header), payload, r)
          end
  end.

(** [io.Writer]: how many bytes of the slice were written, and an error. *)
Class Writer (W : Type) := {
  Write : bytes -> W -> W * nat * option error;
  written : W -> bytes
}.

(** The documented behaviour of [Write]. *)
Class WriterSpec (W : Type) `{!Writer W} : Prop :=
  write_spec : forall p w w' n err, Write p w = (w', n, err) ->
    (n <= length p)%nat /\ written w' = written w ++ take n p.

Section writer.
Context {W : Type} `{!Writer W}.

(** The loop of [writeFull].  Every iteration writes at least one byte, so the
    length of the slice bounds their number. *)
Fixpoint writeLoop (fuel : nat) (data : bytes) (w : W) : W * option error :=
  match data with
  | [] => (w, None)
  | _ =>
      match fuel with
      | O => (w, Some ErrShortWrite)
      | S fuel =>
          let '(w, n, err) := Write data w in
          match err with
          | Some e => (w, Some e)
          | None => if (n =? 0)%nat then (w, Some ErrShortWrite) else writeLoop fuel (drop n data) w
          end
      end
  end.

Definition writeFull (data : bytes) (w : W) : W * option error := writeLoop (length data) data w.

Definition WriteFrame (kind : Z) (payload : bytes) (w : W) : W * option error :=
  if MaxFrameSize <? len payload then (w, Some ErrFrameTooLarge) else
  let (w, err) := writeFull (frameHeader kind payload) w in
  match err with Some e => (w, Some e) | None => writeFull payload w end.

End writer.

(** ** protocol/client.go *)

Definition ClientPut : Z := 1.
Definition ClientDelete : Z := 2.
Definition ClientGet : Z := 3.
Definition ClientStatus : Z := 4.

Definition StatusOK : Z := 0.
Definition StatusNotLeader : Z := 1.
Definition StatusBusy : Z := 2.
Definition StatusInvalid : Z := 3.
Definition StatusNotFound : Z := 4.
Definition StatusTimeout : Z := 5.
Definition StatusInternal : Z := 6.

Definition ErrOperation : error := "protocol: invalid client operation".

Record ClientRequest := mkRequest {
  q_Operation : Z;
  q_ClientID : Z;
  q_RequestID : Z;
  q_Key : Z;
  q_Value : Z
}.

Record ClientResponse := mkResponse {
  p_Status : Z;
  p_Leader : Z;
  p_RequestID : Z;
  p_Value : Z;
  p_Commit : Z
}.

Definition clientRequestSize : nat := 40.
Definition clientResponseSize : nat := 32.

Definition EncodeClientRequest (q : ClientRequest) : bytes :=
  puts [(0, [w8 (q_Operation q)]); (8, le 8 (q_ClientID q)); (16, le 8 (q_RequestID q));
        (24, le 8 (q_Key q)); (32, le 8 (q_Value q))]%nat (replicate clientRequestSize 0).

Definition DecodeClientRequest (data : bytes) : error + ClientRequest :=
  if negb (length data =? clientRequestSize)%nat then inl ErrFrame else
  let request := mkRequest (byteAt 0 data) (leGet (sub 8 16 data)) (leGet (sub 16 24 data))
                   (leGet (sub 24 32 data)) (leGet (sub 32 40 data)) in
  if (q_Operation request <? ClientPut) || (ClientStatus <? q_Operation request)
  then inl ErrOperation else inr request.

Definition EncodeClientResponse (p : ClientResponse) : bytes :=
  puts [(0, le 2 (p_Status p)); (4, le 4 (p_Leader p)); (8, le 8 (p_RequestID p));
        (16, le 8 (p_Value p)); (24, le 8 (p_Commit p))]%nat (replicate clientResponseSize 0).

Definition DecodeClientResponse (data : bytes) : error + ClientResponse :=
  if negb (length data =? clientResponseSize)%nat then inl ErrFrame else
  inr (mkResponse (leGet (sub 0 2 data)) (leGet (sub 4 8 data)) (leGet (sub 8 16 data))
         (leGet (sub 16 24 data)) (leGet (sub 24 32 data))).

(** ** protocol/peer.go *)

Definition peerFixedSize : nat := 176.

(** The assignments of [EncodePeer]; a flag that is not set leaves the zero byte
    of the new buffer. *)
Definition peerWrites (m : Message) : list (nat * bytes) :=
  let e := m_Entry m in
  [(0, [w8 (m_Type m)]); (1, [Z.b2z (m_Reject m)]); (2, [Z.b2z (m_HasEntry m)]);
   (4, le 4 (m_From m)); (8, le 4 (m_To m));
   (12, le 8 (m_Term m)); (20, le 8 (m_LogIndex m)); (28, le 8 (m_LogTerm m)); (36, le 8 (m_Commit m));
   (44, le 8 (m_Match m)); (52, le 8 (m_Context m)); (60, le 8 (m_SnapshotIndex m)); (68, le 8 (m_SnapshotTerm m));
   (76, le 8 (e_Term e)); (84, le 8 (e_Command e)); (92, [w8 (e_Kind e)]); (93, [w8 (e_Operation e)]);
   (100, le 8 (e_OldVoters e)); (108, le 8 (e_NewVoters e)); (116, le 8 (e_ClientID e));
   (124, le 8 (e_RequestID e)); (132, le 8 (e_Key e)); (140, le 8 (e_Value e));
   (148, le 8 (m_SnapshotOld m)); (156, le 8 (m_SnapshotNew m)); (164, le 4 (w32 (len (m_Snapshot m))));
   (peerFixedSize, m_Snapshot m)]%nat.

Definition EncodePeer (m : Message) : bytes :=
  puts (peerWrites m) (replicate (peerFixedSize + length (m_Snapshot m)) 0).

Definition DecodePeer (data : bytes) : error + Message :=
  if (length data <? peerFixedSize)%nat then inl ErrFrame else
  let length' := leGet (sub 164 168 data) in
  if negb (length' =? len data - Z.of_nat peerFixedSize) then inl ErrFrame else
  inr {|
    m_Type := byteAt 0 data;
    m_Reject := negb (byteAt 1 data =? 0);
    m_HasEntry := negb (byteAt 2 data =? 0);
    m_From := leGet (sub 4 8 data);
    m_To := leGet (sub 8 12 data);
    m_Term := leGet (sub 12 20 data);
    m_LogIndex := leGet (sub 20 28 data);
    m_LogTerm := leGet (sub 28 36 data);
    m_Commit := leGet (sub 36 44 data);
    m_Match := leGet (sub 44 52 data);
    m_Context := leGet (sub 52 60 data);
    m_SnapshotIndex := leGet (sub 60 68 data);
    m_SnapshotTerm := leGet (sub 68 76 data);
    m_Entry := {|
      e_Term := leGet (sub 76 84 data);
      e_Command := leGet (sub 84 92 data);
      e_Kind := byteAt 92 data;
      e_Operation := byteAt 93 data;
      e_OldVoters := leGet (sub 100 108 data);
      e_NewVoters := leGet (sub 108 116 data);
      e_ClientID := leGet (sub 116 124 data);
      e_RequestID := leGet (sub 124 132 data);
      e_Key := leGet (sub 132 140 data);
      e_Value := leGet (sub 140 148 data) |};
    m_SnapshotOld := leGet (sub 148 156 data);
    m_SnapshotNew := leGet (sub 156 164 data);
    m_Snapshot := drop peerFixedSize data |}.

(** ** protocol/call.go *)

(** [Call] on a connection that was dialled or not; [reply] is what the peer
    sends until the connection ends or the deadline passes. *)
Definition Call {W} `{!Writer W} (dial : error + W) (reply : bytes) (request : ClientRequest) :
    option W * (error + ClientResponse) :=
  match dial with
  | inl e => (None, inl e)
  | inr w =>
      let (w, err) := WriteFrame KindClientRequest (EncodeClientRequest request) w in
      (Some w,
       match err with
       | Some e => inl e
       | None =>
           match ReadFrame reply with
           | inl e => inl e
           | inr (kind, payload, _) =>
               if negb (kind =? KindClientResponse) then inl ErrFrame else DecodeClientResponse payload
           end
       end)
  end.

(** ** Fields at fixed offsets *)

Definition inside (size : nat) (ws : list (nat * bytes)) : Prop :=
  Forall (fun w => w.1 + length w.2 <= size)%nat ws.

(** [w] leaves the bytes from [a] to [b] alone. *)
Definition apart (a b : nat) (w : nat * bytes) : Prop := (b <= w.1 \/ w.1 + length w.2 <= a)%nat.

Lemma puts_cons w ws dst : puts (w :: ws) dst = puts ws (put w.1 w.2 dst).
Proof. done. Qed.

Lemma length_puts ws : forall dst, inside (length dst) ws -> length (puts ws dst) = length dst.
Proof.
  induction ws as [|w ws IH]; intros dst H; [done|]. apply Forall_cons in H as [Hw H].
  rewrite puts_cons, IH; rewrite length_put by done; done.
Qed.

Lemma sub_put_apart a b off bs dst :
  apart a b (off, bs) -> (off + length bs <= length dst)%nat -> sub a b (put off bs dst) = sub a b dst.
Proof.
  intros H Hl. unfold put, sub, apart in *. cbn in H. apply list_eq. intros i. rewrite !lookup_take.
  case_decide as Hi; [|done]. rewrite !lookup_drop. destruct H as [H|H].
  - rewrite lookup_app_l by (rewrite length_take; lia). rewrite lookup_take_lt by lia. done.
  - rewrite lookup_app_r by (rewrite length_take; lia). rewrite length_take, Nat.min_l by lia.
    rewrite lookup_app_r by lia. rewrite lookup_drop. f_equal. lia.
Qed.

Lemma sub_put_eq off bs dst :
  (off + length bs <= length dst)%nat -> sub off (off + length bs) (put off bs dst) = bs.
Proof.
  intros Hl. unfold put, sub. replace (off + length bs - off)%nat with (length bs) by lia.
  rewrite drop_app_ge by (rewrite length_take; lia). rewrite length_take, Nat.min_l, Nat.sub_diag by lia.
  by rewrite drop_0, take_app_length.
Qed.

Lemma sub_puts_apart a b ws : forall dst,
  inside (length dst) ws -> Forall (apart a b) ws -> sub a b (puts ws dst) = sub a b dst.
Proof.
  induction ws as [|w ws IH]; intros dst Hin Hap; [done|]. apply Forall_cons in Hin as [Hw Hin], Hap as [Ha Hap].
  rewrite puts_cons, IH; [|by rewrite length_put|done]. by apply sub_put_apart.
Qed.

(** The field that the [k]-th write puts at [a] is read back, if no later write
    touches it. *)
Lemma sub_puts k ws dst a b x :
  ws !! k = Some (a, x) -> (a + length x)%nat = b -> inside (length dst) ws ->
  Forall (apart a b) (drop (S k) ws) -> sub a b (puts ws dst) = x.
Proof.
  intros Hk <- Hin Hap. rewrite <- (take_drop_middle ws k _ Hk) in Hin |- *. unfold puts, inside in *.
  rewrite foldl_app. cbn [foldl]. rewrite Forall_app, Forall_cons in Hin. destruct Hin as (H1 & H2 & H3).
  fold (puts (take k ws) dst). set (d := puts (take k ws) dst).
  assert (length d = length dst) as Hd by by apply length_puts. rewrite <- Hd in H2, H3. cbn [fst snd] in *.
  fold (puts (drop (S k) ws) (put a x d)).
  rewrite sub_puts_apart; [by apply sub_put_eq|by unfold inside; rewrite length_put|done].
Qed.

(** The side conditions hold by computation on the lengths. *)
Ltac offsets := repeat (apply Forall_cons; split); try apply Forall_nil;
  unfold apart, peerFixedSize, clientRequestSize, clientResponseSize; cbn; rewrite ?length_le; lia.

Lemma frame_inside kind payload :
  inside 16 [(0, frameMagic); (4, le 2 Version); (6, le 2 (w16 kind)); (8, le 4 (w32 (len payload)));
             (12, le 4 (crc32c payload))]%nat.
Proof. unfold inside. offsets. Qed.

Lemma length_frameHeader kind payload : length (frameHeader kind payload) = HeaderSize.
Proof. unfold frameHeader. rewrite length_puts; [done|]. rewrite length_replicate. apply frame_inside. Qed.

Lemma header_fields kind payload :
  let h := frameHeader kind payload in
  sub 0 4 h = frameMagic /\ sub 4 6 h = le 2 Version /\ sub 6 8 h = le 2 (w16 kind) /\
  sub 8 12 h = le 4 (w32 (len payload)) /\ sub 12 16 h = le 4 (crc32c payload).
Proof.
  unfold frameHeader. split_and!; (eapply sub_puts;
    [|rewrite ?length_le; reflexivity|rewrite length_replicate; apply frame_inside|]).
  1: instantiate (1 := 0%nat); reflexivity. 1: offsets.
  1: instantiate (1 := 1%nat); reflexivity. 1: offsets.
  1: instantiate (1 := 2%nat); reflexivity. 1: offsets.
  1: instantiate (1 := 3%nat); reflexivity. 1: offsets.
  1: instantiate (1 := 4%nat); reflexivity. 1: offsets.
Qed.

(** ** Frames *)

Definition frame (kind : Z) (payload : bytes) : bytes := frameHeader kind payload ++ payload.

(** What [ReadFrame] does behind a header it wrote, for any payload bytes. *)
Lemma ReadFrame_header kind payload r :
  is_u16 kind -> len payload <= MaxFrameSize -> Forall byte payload ->
  ReadFrame (frameHeader kind payload ++ r) =
    match ReadFull (length payload) r with
    | inl e => inl e
    | inr (p, r) => if crc32c p =? crc32c payload then inr (kind, p, r) else inl ErrFrame
    end.
Proof.
  intros Hk Hl Hp. unfold ReadFrame, ReadFull at 1. pose proof (length_frameHeader kind payload) as Hh.
  destruct (header_fields kind payload) as (F1 & F2 & F3 & F4 & F5). cbn zeta in *.
  destruct (Nat.leb_spec HeaderSize (length (frameHeader kind payload ++ r))) as [_|Hlt]; [|rewrite length_app in Hlt; lia].
  rewrite take_app_length', drop_app_length' by done. rewrite F1, F2, F3, F4, F5.
  rewrite bool_decide_true by done. rewrite (leGet_le 2 Version) by (split; [discriminate|reflexivity]). rewrite Z.eqb_refl. cbn [negb].
  assert (0 <= len payload < 2 ^ 32) as Hl32 by (change MaxFrameSize with (2 ^ 20) in Hl; unfold len in *; lia).
  assert (w32 (len payload) = len payload) as Hw by (by apply Z.mod_small). rewrite Hw.
  rewrite (leGet_le 4 (len payload)) by exact Hl32.
  destruct (Z.ltb_spec MaxFrameSize (len payload)); [lia|]. unfold len. rewrite Nat2Z.id.
  rewrite (leGet_le 4 (crc32c payload)) by (apply crc32c_u32, Hp).
  assert (w16 kind = kind) as -> by (apply Z.mod_small, Hk). rewrite (leGet_le 2 kind) by exact Hk.
  destruct (ReadFull (length payload) r) as [e|[p r']]; [done|]. by destruct (_ =? _).
Qed.

Lemma ReadFull_app p r : ReadFull (length p) (p ++ r) = inr (p, r).
Proof.
  unfold ReadFull. rewrite (proj2 (Nat.leb_le _ _)) by (rewrite length_app; lia).
  by rewrite take_app_length, drop_app_length.
Qed.

Lemma frame_read kind payload rest :
  is_u16 kind -> len payload <= MaxFrameSize -> Forall byte payload ->
  ReadFrame (frame kind payload ++ rest) = inr (kind, payload, rest).
Proof.
  intros Hk Hl Hp. unfold frame. rewrite <- app_assoc, ReadFrame_header, ReadFull_app by done.
  by rewrite (Z.eqb_refl (crc32c payload)).
Qed.

Lemma frame_truncated kind payload n :
  is_u16 kind -> len payload <= MaxFrameSize -> Forall byte payload -> (n < length (frame kind payload))%nat ->
  exists e, ReadFrame (take n (frame kind payload)) = inl e.
Proof.
  intros Hk Hl Hp Hn. unfold frame in *. pose proof (length_frameHeader kind payload) as Hh. rewrite length_app in Hn.
  destruct (Nat.lt_ge_cases n HeaderSize) as [Hlt|Hge].
  - unfold ReadFrame, ReadFull. rewrite (proj2 (Nat.leb_gt _ _)); [by eexists|]. rewrite length_take, length_app. lia.
  - rewrite take_app_ge by lia. rewrite ReadFrame_header by done. unfold ReadFull.
    rewrite (proj2 (Nat.leb_gt _ _)); [by eexists|]. rewrite length_take. lia.
Qed.

Lemma frame_corrupted kind payload i b rest :
  is_u16 kind -> len payload <= MaxFrameSize -> Forall byte payload ->
  (i < length payload)%nat -> byte b -> payload !! i <> Some b ->
  ReadFrame (frameHeader kind payload ++ <[i := b]> payload ++ rest) = inl ErrFrame.
Proof.
  intros Hk Hl Hp Hi Hb Hne. rewrite ReadFrame_header by done.
  rewrite <- (length_insert payload i b), ReadFull_app.
  destruct (Z.eqb_spec (crc32c (<[i := b]> payload)) (crc32c payload)) as [E|]; [|done].
  by apply crc32c_insert in E.
Qed.

Section written.
Context {W : Type} `{!Writer W} `{!WriterSpec W}.

(** A loop that may write short: everything, or a prefix and an error. *)
Lemma writeLoop_spec fuel : forall data (w w' : W) err,
  (length data <= fuel)%nat -> writeLoop fuel data w = (w', err) ->
  exists n, written w' = written w ++ take n data /\ (n <= length data)%nat /\ (err = None -> n = length data).
Proof.
  induction fuel as [|fuel IH]; intros data w w' err Hl; destruct data as [|b data]; cbn [writeLoop].
  - intros [= <- <-]. exists 0%nat. cbn. by rewrite app_nil_r.
  - cbn in Hl. lia.
  - intros [= <- <-]. exists 0%nat. cbn. by rewrite app_nil_r.
  - destruct (Write (b :: data) w) as [[w1 n] [e|]] eqn:E; destruct (write_spec _ _ _ _ _ E) as [Hn Hw].
    + intros [= <- <-]. by exists n.
    + destruct (Nat.eqb_spec n 0) as [->|Hn0]; [intros [= <- <-]; by exists 0%nat|]. intros E2.
      destruct (IH (drop n (b :: data)) w1 w' err) as (k & H1 & H2 & H3);
        [rewrite length_drop; cbn [length] in *; lia|done|].
      rewrite length_drop in H2, H3. exists (n + k)%nat. rewrite H1, Hw, <- app_assoc. split; [|split; [lia|]].
      * f_equal. rewrite take_take_drop. done.
      * intros ->. specialize (H3 eq_refl). lia.
Qed.

Lemma WriteFrame_spec kind payload (w w' : W) err :
  len payload <= MaxFrameSize -> WriteFrame kind payload w = (w', err) ->
  exists n, written w' = written w ++ take n (frame kind payload) /\ (n <= length (frame kind payload))%nat /\
    (err = None -> n = length (frame kind payload)).
Proof.
  intros Hl. unfold WriteFrame, frame, writeFull. destruct (Z.ltb_spec MaxFrameSize (len payload)); [lia|].
  destruct (writeLoop _ (frameHeader kind payload) w) as [w1 e1] eqn:E1.
  destruct (writeLoop_spec _ _ _ _ _ ltac:(done) E1) as (n1 & H1 & H2 & H3). destruct e1 as [e|].
  - intros [= <- <-]. exists n1. rewrite take_app_le by done. rewrite length_app. split; [done|]. split; [lia|done].
  - intros E2. destruct (writeLoop_spec _ _ _ _ _ ltac:(done) E2) as (n2 & G1 & G2 & G3).
    specialize (H3 eq_refl). subst n1. exists (length (frameHeader kind payload) + n2)%nat.
    rewrite G1, H1, take_ge by done. rewrite length_app, <- app_assoc. rewrite take_app_add. split; [done|].
    split; [lia|]. intros ->. specialize (G3 eq_refl). lia.
Qed.

End written.

(** Frames on a stream.  Writing a payload of at most [MaxFrameSize] bytes
    appends the frame, or, with an error, a prefix of it, however short the
    individual writes are; a larger payload is refused and nothing is written.
    The frame is read back with its kind and payload, and what follows it is left
    for the next read; a truncated frame and a frame with one changed payload
    byte are never accepted. *)
Theorem frame_stream {W} `{!Writer W} `{!WriterSpec W} kind payload (w w' : W) err :
  is_u16 kind -> Forall byte payload -> WriteFrame kind payload w = (w', err) ->
  if MaxFrameSize <? len payload then err = Some ErrFrameTooLarge /\ w' = w
  else
    (exists n, written w' = written w ++ take n (frame kind payload) /\
       (err = None -> n = length (frame kind payload))) /\
    (forall rest, ReadFrame (frame kind payload ++ rest) = inr (kind, payload, rest)) /\
    (forall n, (n < length (frame kind payload))%nat -> exists e, ReadFrame (take n (frame kind payload)) = inl e) /\
    (forall i b rest, (i < length payload)%nat -> byte b -> payload !! i <> Some b ->
       ReadFrame (frameHeader kind payload ++ <[i := b]> payload ++ rest) = inl ErrFrame).
Proof.
  intros Hk Hp HW. destruct (Z.ltb_spec MaxFrameSize (len payload)) as [Hlt|Hle].
  - unfold WriteFrame in HW. rewrite (proj2 (Z.ltb_lt _ _)) in HW by done. by injection HW as <- <-.
  - destruct (WriteFrame_spec kind payload w w' err Hle HW) as (n & H1 & _ & H2).
    split; [by exists n|]. split_and!.
    + intros rest. by apply frame_read.
    + intros k. by apply frame_truncated.
    + intros i b rest. by apply frame_corrupted.
Qed.

(** ** Encodings *)

Definition wf_entry (e : Entry) : Prop :=
  is_u64 (e_Term e) /\ is_u64 (e_Command e) /\ is_u8 (e_Kind e) /\ is_u64 (e_OldVoters e) /\
  is_u64 (e_NewVoters e) /\ is_u8 (e_Operation e) /\ is_u64 (e_ClientID e) /\
  is_u64 (e_RequestID e) /\ is_u64 (e_Key e) /\ is_u64 (e_Value e).

(** The fields of a message fit their Go types. *)
Record wf_message (m : Message) : Prop := {
  wm_type : is_u8 (m_Type m);
  wm_ids : is_u32 (m_From m) /\ is_u32 (m_To m);
  wm_words : Forall is_u64 [m_Term m; m_LogIndex m; m_LogTerm m; m_Commit m; m_Match m; m_Context m;
    m_SnapshotIndex m; m_SnapshotTerm m; m_SnapshotOld m; m_SnapshotNew m];
  wm_entry : wf_entry (m_Entry m);
  wm_snapshot : len (m_Snapshot m) < 2 ^ 32
}.

Definition wf_request (q : ClientRequest) : Prop :=
  is_u8 (q_Operation q) /\ is_u64 (q_ClientID q) /\ is_u64 (q_RequestID q) /\ is_u64 (q_Key q) /\ is_u64 (q_Value q).

Definition wf_response (p : ClientResponse) : Prop :=
  is_u16 (p_Status p) /\ is_u32 (p_Leader p) /\ is_u64 (p_RequestID p) /\ is_u64 (p_Value p) /\ is_u64 (p_Commit p).

(** Read the field of the [k]-th write. *)
Ltac field k inner :=
  erewrite (sub_puts k); [|reflexivity|cbn; rewrite ?length_le; reflexivity|inner|offsets].

Lemma byte_leGet z : is_u8 z -> leGet [w8 z] = z.
Proof. intros Hz. cbn. unfold w8. rewrite Z.mod_small by exact Hz. lia. Qed.

Lemma request_roundtrip q :
  wf_request q ->
  DecodeClientRequest (EncodeClientRequest q) =
    if (ClientPut <=? q_Operation q) && (q_Operation q <=? ClientStatus) then inr q else inl ErrOperation.
Proof.
  intros (H1 & H2 & H3 & H4 & H5). unfold DecodeClientRequest, EncodeClientRequest.
  set (ws := [_; _; _; _; _]). assert (inside 40 ws) as Hin by (unfold inside; offsets).
  rewrite length_puts by (by rewrite length_replicate). rewrite length_replicate. cbn [Nat.eqb clientRequestSize negb].
  unfold byteAt. field 0%nat ltac:(by rewrite length_replicate). field 1%nat ltac:(by rewrite length_replicate).
  field 2%nat ltac:(by rewrite length_replicate). field 3%nat ltac:(by rewrite length_replicate).
  field 4%nat ltac:(by rewrite length_replicate). rewrite byte_leGet, !leGet_le by done. cbn [q_Operation].
  rewrite (Z.ltb_antisym ClientPut), (Z.ltb_antisym (q_Operation q) ClientStatus), <- negb_andb.
  destruct (_ && _); [by destruct q|done].
Qed.

Lemma response_roundtrip p : wf_response p -> DecodeClientResponse (EncodeClientResponse p) = inr p.
Proof.
  intros (H1 & H2 & H3 & H4 & H5). unfold DecodeClientResponse, EncodeClientResponse.
  set (ws := [_; _; _; _; _]). assert (inside 32 ws) as Hin by (unfold inside; offsets).
  rewrite length_puts by (by rewrite length_replicate). rewrite length_replicate. cbn [Nat.eqb clientResponseSize negb].
  field 0%nat ltac:(by rewrite length_replicate). field 1%nat ltac:(by rewrite length_replicate).
  field 2%nat ltac:(by rewrite length_replicate). field 3%nat ltac:(by rewrite length_replicate).
  field 4%nat ltac:(by rewrite length_replicate). rewrite !leGet_le by done. by destruct p.
Qed.

Lemma peer_inside m : inside (peerFixedSize + length (m_Snapshot m)) (peerWrites m).
Proof. unfold inside, peerWrites. offsets. Qed.

Lemma length_peer m : length (EncodePeer m) = (peerFixedSize + length (m_Snapshot m))%nat.
Proof. unfold EncodePeer. rewrite length_puts; rewrite length_replicate; [done|apply peer_inside]. Qed.

Lemma peer_field m k a b x :
  peerWrites m !! k = Some (a, x) -> (a + length x)%nat = b -> Forall (apart a b) (drop (S k) (peerWrites m)) ->
  sub a b (EncodePeer m) = x.
Proof. intros Hk Hb Ha. apply (sub_puts k); [done|done|rewrite length_replicate; apply peer_inside|done]. Qed.

Ltac pfield k a b :=
  erewrite (peer_field _ k a b); [|reflexivity|cbn; rewrite ?length_le; reflexivity|cbn [drop peerWrites]; offsets].

Lemma peer_tail m : drop peerFixedSize (EncodePeer m) = m_Snapshot m.
Proof.
  pose proof (peer_field m 26 peerFixedSize (peerFixedSize + length (m_Snapshot m)) (m_Snapshot m)
    ltac:(reflexivity) ltac:(reflexivity) ltac:(constructor)) as H.
  unfold sub in H. rewrite take_ge in H; [done|]. rewrite length_drop, length_peer. lia.
Qed.

Lemma peer_roundtrip m : wf_message m -> DecodePeer (EncodePeer m) = inr m.
Proof.
  intros [Ht [Hf Hto] Hw (E1 & E2 & E3 & E4 & E5 & E6 & E7 & E8 & E9 & E10) Hs].
  repeat (apply Forall_cons in Hw as [? Hw]). unfold DecodePeer, byteAt.
  rewrite length_peer, peer_tail. rewrite (proj2 (Nat.ltb_ge _ _)) by lia.
  pfield 25%nat 164%nat 168%nat. assert (0 <= len (m_Snapshot m) < 2 ^ 32) as Hl by (unfold len in *; lia).
  assert (w32 (len (m_Snapshot m)) = len (m_Snapshot m)) as -> by (by apply Z.mod_small).
  rewrite (leGet_le 4 (len (m_Snapshot m))) by exact Hl.
  replace (len (EncodePeer m) - Z.of_nat peerFixedSize) with (len (m_Snapshot m)) by (unfold len; rewrite length_peer; lia).
  rewrite Z.eqb_refl. cbn [negb].
  pfield 0%nat 0%nat 1%nat. pfield 1%nat 1%nat 2%nat. pfield 2%nat 2%nat 3%nat. pfield 3%nat 4%nat 8%nat.
  pfield 4%nat 8%nat 12%nat. pfield 5%nat 12%nat 20%nat. pfield 6%nat 20%nat 28%nat. pfield 7%nat 28%nat 36%nat.
  pfield 8%nat 36%nat 44%nat. pfield 9%nat 44%nat 52%nat. pfield 10%nat 52%nat 60%nat. pfield 11%nat 60%nat 68%nat.
  pfield 12%nat 68%nat 76%nat. pfield 13%nat 76%nat 84%nat. pfield 14%nat 84%nat 92%nat. pfield 15%nat 92%nat 93%nat.
  pfield 16%nat 93%nat 94%nat. pfield 17%nat 100%nat 108%nat. pfield 18%nat 108%nat 116%nat.
  pfield 19%nat 116%nat 124%nat. pfield 20%nat 124%nat 132%nat. pfield 21%nat 132%nat 140%nat.
  pfield 22%nat 140%nat 148%nat. pfield 23%nat 148%nat 156%nat. pfield 24%nat 156%nat 164%nat.
  rewrite !byte_leGet by done. rewrite !leGet_le by done.
  destruct m as [ty from to term li lt e he co re ma cx si st sn so sw]. destruct e. by destruct he, re.
Qed.

Lemma puts_bytes ws : forall dst, Forall byte dst -> Forall (fun w => Forall byte w.2) ws -> Forall byte (puts ws dst).
Proof.
  induction ws as [|w ws IH]; intros dst Hd Hw; [done|]. apply Forall_cons in Hw as [Hw0 Hw]. rewrite puts_cons.
  apply IH; [|done]. unfold put. rewrite !Forall_app. split; [by apply Forall_take|]. split; [done|by apply Forall_drop].
Qed.

Lemma w8_byte z : byte (w8 z).
Proof. unfold byte, w8. apply Z.mod_pos_bound. lia. Qed.

Lemma zeros_bytes n : Forall byte (replicate n 0).
Proof. apply Forall_replicate. unfold byte. lia. Qed.

Lemma request_bytes q : Forall byte (EncodeClientRequest q) /\ len (EncodeClientRequest q) = 40.
Proof.
  unfold EncodeClientRequest. split.
  - apply puts_bytes; [apply zeros_bytes|]. rewrite !Forall_cons. split_and!; cbn [snd]; [apply Forall_singleton, w8_byte|apply le_bytes..|constructor].
  - unfold len. rewrite length_puts; rewrite length_replicate; [done|]. unfold inside. offsets.
Qed.

Lemma response_bytes p : Forall byte (EncodeClientResponse p) /\ len (EncodeClientResponse p) = 32.
Proof.
  unfold EncodeClientResponse. split.
  - apply puts_bytes; [apply zeros_bytes|]. rewrite !Forall_cons. split_and!; cbn [snd]; [apply le_bytes..|constructor].
  - unfold len. rewrite length_puts; rewrite length_replicate; [done|]. unfold inside. offsets.
Qed.

(** What one side encodes the other decodes.  Every Raft message whose fields
    fit their types, and every response, is decoded to itself; a client request
    is decoded to itself if its operation is one of the four and refused
    otherwise; data of any other length is refused.  A [Call] whose request is
    written without error leaves exactly that request on the connection, and
    returns the response the other side frames. *)
Theorem wire_roundtrip {W} `{!Writer W} `{!WriterSpec W} m q p (w w' : W) rest :
  wf_message m -> wf_request q -> wf_response p ->
  DecodePeer (EncodePeer m) = inr m /\
  DecodeClientRequest (EncodeClientRequest q) =
    (if (ClientPut <=? q_Operation q) && (q_Operation q <=? ClientStatus) then inr q else inl ErrOperation) /\
  DecodeClientResponse (EncodeClientResponse p) = inr p /\
  (forall data, length data <> clientRequestSize -> DecodeClientRequest data = inl ErrFrame) /\
  (forall data, length data <> clientResponseSize -> DecodeClientResponse data = inl ErrFrame) /\
  (WriteFrame KindClientRequest (EncodeClientRequest q) w = (w', None) ->
   ReadFrame (drop (length (written w)) (written w')) = inr (KindClientRequest, EncodeClientRequest q, []) /\
   Call (inr w) (frame KindClientResponse (EncodeClientResponse p) ++ rest) q = (Some w', inr p)).
Proof.
  intros Hm Hq Hp. destruct (request_bytes q) as [Bq Lq]. destruct (response_bytes p) as [Bp Lp].
  split; [by apply peer_roundtrip|]. split; [by apply request_roundtrip|]. split; [by apply response_roundtrip|].
  split; [intros data Hd; unfold DecodeClientRequest; by rewrite (proj2 (Nat.eqb_neq _ _))|].
  split; [intros data Hd; unfold DecodeClientResponse; by rewrite (proj2 (Nat.eqb_neq _ _))|]. intros HW. split.
  - destruct (WriteFrame_spec KindClientRequest (EncodeClientRequest q) w w' None) as (n & H1 & _ & H2);
      [rewrite Lq; done|done|]. rewrite H1, drop_app_length, (H2 eq_refl), take_ge by done.
    rewrite <- (app_nil_r (frame _ _)). apply frame_read; [by split|by rewrite Lq|done].
  - unfold Call. rewrite HW, frame_read by (done || by rewrite Lp). cbn [negb Z.eqb].
    rewrite response_roundtrip by done. done.
Qed.

Module Demo.

(** A buffer that takes at most ten bytes at a time. *)
Definition chunk (p : bytes) : nat := Nat.min 10 (length p).

#[global] Instance trickle : Writer bytes := {
  Write := fun p w => (w ++ take (chunk p) p, chunk p, None);
  written := fun w => w
}.

#[global] Instance trickle_spec : WriterSpec bytes.
Proof.
  intros p w w' n err [= <- <- _]. split; [unfold chunk; lia|done].
Defined.

Definition message : Message :=
  newMessage MsgAppend 1 2 3 <| m_Entry := mkEntry 3 0 0 0 0 1 5 1 10 20 |> <| m_HasEntry := true |>
    <| m_Snapshot := [1; 2; 3] |>.
Definition request : ClientRequest := mkRequest ClientPut 5 1 10 20.
Definition response : ClientResponse := mkResponse StatusOK 1 1 20 7.

Lemma message_wf : wf_message message.
Proof.
  split; cbn.
  - split; discriminate || reflexivity.
  - repeat split; discriminate || reflexivity.
  - repeat (apply Forall_cons; split); try constructor; discriminate || reflexivity.
  - repeat split; discriminate || reflexivity.
  - reflexivity.
Defined.

Lemma wire_roundtrip_witness :
  DecodePeer (EncodePeer message) = inr message /\
  exists w', Call (inr []) (frame KindClientResponse (EncodeClientResponse response) ++ [9]) request = (Some w', inr response).
Proof.
  destruct (WriteFrame (W := bytes) KindClientRequest (EncodeClientRequest request) []) as [w' err] eqn:E.
  assert (err = None) as He by (vm_compute in E; by injection E as _ <-).
  destruct (wire_roundtrip message request response [] w' [9] message_wf) as (H1 & _ & _ & _ & _ & H2).
  - repeat split; discriminate || reflexivity.
  - repeat split; discriminate || reflexivity.
  - split; [exact H1|]. exists w'. rewrite He in E. exact (proj2 (H2 E)).
Defined.

Lemma frame_stream_witness :
  ReadFrame (frame KindPeer (EncodePeer message) ++ [1; 2]) = inr (KindPeer, EncodePeer message, [1; 2]) /\
  exists e, ReadFrame (take 100 (frame KindPeer (EncodePeer message))) = inl e.
Proof.
  assert (Forall byte (EncodePeer message)) as Hb.
  { vm_compute. repeat (apply Forall_cons; split); try constructor; discriminate || reflexivity. }
  destruct (WriteFrame (W := bytes) KindPeer (EncodePeer message) []) as [w' err] eqn:E.
  pose proof (frame_stream (W := bytes) KindPeer (EncodePeer message) [] w' err ltac:(unfold is_u16, KindPeer; lia) Hb E) as H.
  assert (MaxFrameSize <? len (EncodePeer message) = false) as Hm by (vm_compute; reflexivity). rewrite Hm in H.
  destruct H as (_ & H1 & H2 & _). split; [exact (H1 [1; 2])|]. apply (H2 100%nat).
  apply Nat.ltb_lt. vm_compute. reflexivity.
Defined.

End Demo.
End Protocol.
