(* ===== verification/AdapterProto.v ===== *)
(** * The messages of external adapters

    [internal/adapterproto]: the requests and responses between the simulator and a
    protocol under test that runs in a child process, their validation, and their
    frames.  Results: the requests that are accepted are exactly those that stand
    for a call, and the responses accepted for one exactly those that stand for a
    reply to it; frames are read back as they were written. *)

From S2P Require Import Prelude Bytes GoStrings Protocol.

Module Adapterproto.

(** ** protocol.go *)

Definition Version : Z := 1.

Abbreviation Operation := string.

Definition OpHello : Operation := "hello".
Definition OpTick : Operation := "tick".
Definition OpDrain : Operation := "drain".
Definition OpDeliver : Operation := "deliver".
Definition OpCheck : Operation := "check".
Definition OpClose : Operation := "close".

Record HelloRequest := mkHelloRequest { Seed : Z }.
Record HelloResponse := mkHelloResponse { Nodes : list Z; Invariants : list string }.
Record Message := mkMessage { From : Z; To : Z; Kind : Z; Value : Z; Payload : bytes }.
Record Violation := mkViolation { Invariant : string; Detail : string }.
Record RemoteError := mkRemoteError { Code : string; Text : string }.

Record Request := mkRequest {
  q_Version : Z;
  q_ID : Z;
  q_Op : Operation;
  q_Hello : option HelloRequest;
  q_Node : option Z;
  q_Message : option Message
}.

Record Response := mkResponse {
  p_Version : Z;
  p_ID : Z;
  p_Op : Operation;
  p_Error : option RemoteError;
  p_Hello : option HelloResponse;
  p_Messages : list Message;
  p_Violation : option Violation
}.

(** ** validate.go *)

(** The errors of [protocolError], with what their messages name. *)
Inductive problem :=
| BadVersion (version : Z)
| ZeroID
| EmptyOperation
| UnknownOperation (op : Operation)
| NoHello
| Unrelated (op : Operation)
| NoNode (op : Operation)
| NeedsNodeAndMessage
| WrongNode (node to : Z)
| NoErrorCode
| NoErrorMessage
| ErrorWithSuccess
| NoNodes
| RepeatsNode (node : Z)
| EmptyInvariant
| RepeatsInvariant (name : string)
| NoViolationName
| NoViolationDetail
| InRequest (e : problem)
| InResponse (e : problem)
| WrongID (got want : Z)
| WrongOperation (got want : Operation)
| WrongSender (index : nat) (got want : Z).

Definition some {A} (o : option A) : bool := if o is Some _ then true else false.

Definition knownOp (op : Operation) : bool :=
  bool_decide (op ∈ [OpHello; OpTick; OpDrain; OpDeliver; OpCheck; OpClose]).

Definition validateEnvelope (version id : Z) (operation : Operation) : option problem :=
  if negb (version =? Version) then Some (BadVersion version)
  else if id =? 0 then Some ZeroID
  else if bool_decide (operation = ""%string) then Some EmptyOperation
  else if knownOp operation then None
  else Some (UnknownOperation operation).

Definition isOp (op op' : Operation) : bool := bool_decide (op = op').

Definition ValidateRequest (r : Request) : option problem :=
  match validateEnvelope (q_Version r) (q_ID r) (q_Op r) with
  | Some e => Some e
  | None =>
      let op := q_Op r in
      if isOp op OpHello then
        if negb (some (q_Hello r)) then Some NoHello
        else if some (q_Node r) || some (q_Message r) then Some (Unrelated op) else None
      else if isOp op OpTick || isOp op OpDrain then
        if negb (some (q_Node r)) then Some (NoNode op)
        else if some (q_Hello r) || some (q_Message r) then Some (Unrelated op) else None
      else if isOp op OpDeliver then
        match q_Node r, q_Message r with
        | Some node, Some m =>
            if some (q_Hello r) then Some (Unrelated op)
            else if negb (node =? To m) then Some (WrongNode node (To m)) else None
        | _, _ => Some NeedsNodeAndMessage
        end
      else if isOp op OpCheck || isOp op OpClose then
        if some (q_Hello r) || some (q_Node r) || some (q_Message r) then Some (Unrelated op) else None
      else Some (UnknownOperation op)
  end.

(** The two loops of [validateHello]. *)
Fixpoint helloNodes (l : list Z) (nodes : gset Z) : option problem :=
  match l with
  | [] => None
  | node :: l =>
      if bool_decide (node ∈ nodes) then Some (RepeatsNode node) else helloNodes l ({[node]} ∪ nodes)
  end.

Fixpoint helloInvariants (l : list string) (invariants : gset string) : option problem :=
  match l with
  | [] => None
  | invariant :: l =>
      if blank invariant then Some EmptyInvariant
      else if bool_decide (invariant ∈ invariants) then Some (RepeatsInvariant invariant)
      else helloInvariants l ({[invariant]} ∪ invariants)
  end.

Definition validateHello (h : HelloResponse) : option problem :=
  match Nodes h with
  | [] => Some NoNodes
  | _ =>
      match helloNodes (Nodes h) ∅ with
      | Some e => Some e
      | None => helloInvariants (Invariants h) ∅
      end
  end.

Definition messages (r : Response) : bool := if p_Messages r is [] then false else true.

Definition ValidateResponse (r : Response) : option problem :=
  match validateEnvelope (p_Version r) (p_ID r) (p_Op r) with
  | Some e => Some e
  | None =>
      let op := p_Op r in
      match p_Error r with
      | Some e =>
          if blank (Code e) then Some NoErrorCode
          else if blank (Text e) then Some NoErrorMessage
          else if some (p_Hello r) || messages r || some (p_Violation r) then Some ErrorWithSuccess
          else None
      | None =>
          if isOp op OpHello then
            match p_Hello r with
            | None => Some NoHello
            | Some h => if messages r || some (p_Violation r) then Some (Unrelated op) else validateHello h
            end
          else if isOp op OpTick || isOp op OpDeliver || isOp op OpClose then
            if some (p_Hello r) || messages r || some (p_Violation r) then Some (Unrelated op) else None
          else if isOp op OpDrain then
            if some (p_Hello r) || some (p_Violation r) then Some (Unrelated op) else None
          else if isOp op OpCheck then
            if some (p_Hello r) || messages r then Some (Unrelated op)
            else match p_Violation r with
                 | None => None
                 | Some v => if blank (Invariant v) then Some NoViolationName
                             else if blank (Detail v) then Some NoViolationDetail else None
                 end
          else Some (UnknownOperation op)
      end
  end.

(** The loop over the drained messages. *)
Fixpoint sendersFrom (index : nat) (node : Z) (l : list Message) : option problem :=
  match l with
  | [] => None
  | m :: l => if negb (From m =? node) then Some (WrongSender index (From m) node) else sendersFrom (S index) node l
  end.

Definition ValidateResponseFor (q : Request) (p : Response) : option problem :=
  match ValidateRequest q with
  | Some e => Some (InRequest e)
  | None =>
      match ValidateResponse p with
      | Some e => Some (InResponse e)
      | None =>
          if negb (p_ID p =? q_ID q) then Some (WrongID (p_ID p) (q_ID q))
          else if negb (isOp (p_Op p) (q_Op q)) then Some (WrongOperation (p_Op p) (q_Op q))
          else match p_Error p, q_Node q with
               | None, Some node => if isOp (q_Op q) OpDrain then sendersFrom 0 node (p_Messages p) else None
               | _, _ => None
               end
      end
  end.

(** ** codec.go *)

Definition MaxFrameSize : Z := Z.shiftl 16 20.

Definition ErrEmptyFrame : error := "adapter protocol: empty frame".
Definition ErrFrameTooLarge : error := "adapter protocol: frame too large".
Definition ErrEncode : error := "adapter protocol: encode frame".
Definition ErrDecode : error := "adapter protocol: decode frame".

Section codec.
Context {V : Type} (Marshal : V -> option bytes) (Unmarshal : bytes -> option V).
Context {W : Type} `{!Protocol.Writer W}.

(** [writeAll] is the loop of [protocol/frame.go] again. *)
Definition writeAll (data : bytes) (w : W) : W * option error := Protocol.writeFull data w.

(** Big-endian integers. *)
Definition be (n : nat) (z : Z) : bytes := reverse (le n z).
Definition beGet (b : bytes) : Z := leGet (reverse b).

Definition WriteFrame (v : V) (w : W) : W * option error :=
  match Marshal v with
  | None => (w, Some ErrEncode)
  | Some payload =>
      if MaxFrameSize <? len payload then (w, Some ErrFrameTooLarge) else
      let (w, err) := writeAll (be 4 (w32 (len payload))) w in
      match err with Some e => (w, Some e) | None => writeAll payload w end
  end.

Definition ReadFrame (r : bytes) : error + V * bytes :=
  match Protocol.ReadFull 4 r with
  | inl e => inl e
  | inr (prefix, r) =>
      let size := beGet prefix in
      if size =? 0 then inl ErrEmptyFrame
      else if MaxFrameSize <? size then inl ErrFrameTooLarge
      else
        match Protocol.ReadFull (Z.to_nat size) r with
        | inl e => inl e
        | inr (payload, r) =>
            match Unmarshal payload with Some v => inr (v, r) | None => inl ErrDecode end
        end
  end.

End codec.

(** ** What the messages mean *)

(** The calls a request stands for. *)
Inductive call :=
| Hello (seed : Z)
| Tick (node : Z)
| Drain (node : Z)
| Deliver (m : Message)
| Check
| Close.

Inductive reply :=
| Failed (code text : string)
| Welcome (nodes : list Z) (invariants : list string)
| Done
| Drained (l : list Message)
| Violates (v : Violation).

Definition opOf (c : call) : Operation :=
  match c with
  | Hello _ => OpHello
  | Tick _ => OpTick
  | Drain _ => OpDrain
  | Deliver _ => OpDeliver
  | Check => OpCheck
  | Close => OpClose
  end.

Definition requestOf (id : Z) (c : call) : Request :=
  mkRequest Version id (opOf c)
    (if c is Hello seed then Some (mkHelloRequest seed) else None)
    (match c with Tick node | Drain node => Some node | Deliver m => Some (To m) | _ => None end)
    (if c is Deliver m then Some m else None).

Definition responseOf (id : Z) (c : call) (r : reply) : Response :=
  mkResponse Version id (opOf c)
    (if r is Failed code text then Some (mkRemoteError code text) else None)
    (if r is Welcome nodes invariants then Some (mkHelloResponse nodes invariants) else None)
    (if r is Drained l then l else [])
    (if r is Violates v then Some v else None).

(** The replies to a call. *)
Definition replies (c : call) (r : reply) : Prop :=
  match c, r with
  | _, Failed code text => blank code = false /\ blank text = false
  | Hello _, Welcome nodes invariants =>
      nodes <> [] /\ NoDup nodes /\ NoDup invariants /\ Forall (fun i => blank i = false) invariants
  | Tick _, Done | Deliver _, Done | Check, Done | Close, Done => True
  | Drain node, Drained l => Forall (fun m => From m = node) l
  | Check, Violates v => blank (Invariant v) = false /\ blank (Detail v) = false
  | _, _ => False
  end.

Lemma envelope_none version id op :
  validateEnvelope version id op = None <-> version = Version /\ id <> 0 /\ knownOp op = true.
Proof.
  unfold validateEnvelope. destruct (Z.eqb_spec version Version); cbn [negb]; [|naive_solver].
  destruct (Z.eqb_spec id 0); [naive_solver|]. case_bool_decide as E.
  - split; [done|]. intros (_ & _ & H). by rewrite E in H.
  - destruct (knownOp op); naive_solver.
Qed.

Lemma knownOp_cases op : knownOp op = true -> exists c, op = opOf c.
Proof.
  unfold knownOp. rewrite bool_decide_eq_true, !elem_of_cons. intros [->|[->|[->|[->|[->|[->|[]%elem_of_nil]]]]]].
  - by exists (Hello 0).
  - by exists (Tick 0).
  - by exists (Drain 0).
  - by exists (Deliver (mkMessage 0 0 0 0 [])).
  - by exists Check.
  - by exists Close.
Qed.

Lemma requestOf_valid id c : id <> 0 -> ValidateRequest (requestOf id c) = None.
Proof.
  intros Hid. unfold ValidateRequest. rewrite (proj2 (envelope_none _ _ _)).
  - destruct c; cbn; try done. by rewrite Z.eqb_refl.
  - split; [done|]. split; [done|]. by destruct c.
Qed.

Lemma ValidateRequest_none q :
  ValidateRequest q = None <-> exists id c, id <> 0 /\ q = requestOf id c.
Proof.
  split; [|intros (id & c & Hid & ->); by apply requestOf_valid]. unfold ValidateRequest.
  destruct (validateEnvelope _ _ _) eqn:E; [done|]. apply envelope_none in E as (Hv & Hid & Hop).
  destruct q as [v id op h n m]. cbn in *. subst v. apply knownOp_cases in Hop as [c ->]. exists id.
  destruct c as [s0|n0|n0|m0| |]; cbn.
  - destruct h as [[seed]|]; [|done]. destruct n, m; try done. by exists (Hello seed).
  - destruct n as [n|]; [|done]. destruct h, m; try done. by exists (Tick n).
  - destruct n as [n|]; [|done]. destruct h, m; try done. by exists (Drain n).
  - destruct n as [n|], m as [m|]; try done. destruct h; [done|]. destruct (Z.eqb_spec n (To m)) as [->|]; [|done].
    by exists (Deliver m).
  - destruct h, n, m; try done. by exists Check.
  - destruct h, n, m; try done. by exists Close.
Qed.

Lemma helloNodes_none l : forall seen,
  helloNodes l seen = None <-> NoDup l /\ (forall x, x ∈ l -> x ∈ seen -> False).
Proof.
  induction l as [|x l IH]; intros seen; cbn [helloNodes].
  { split; [|done]. intros _. split; [apply NoDup_nil_2|]. by intros x []%elem_of_nil. }
  rewrite NoDup_cons. case_bool_decide as Hx.
  - split; [done|]. intros [_ H]. by destruct (H x (list_elem_of_here _ _)).
  - rewrite IH. set_solver.
Qed.

Lemma helloInvariants_none l : forall seen,
  helloInvariants l seen = None <->
  NoDup l /\ Forall (fun i => blank i = false) l /\ (forall x, x ∈ l -> x ∈ seen -> False).
Proof.
  induction l as [|x l IH]; intros seen; cbn [helloInvariants].
  { split; [|done]. intros _. split; [apply NoDup_nil_2|]. split; [constructor|]. by intros x []%elem_of_nil. }
  rewrite NoDup_cons, Forall_cons. destruct (blank x); [split; [done|]; by intros (_ & [? _] & _)|].
  case_bool_decide as Hx.
  - split; [done|]. intros (_ & _ & H). by destruct (H x (list_elem_of_here _ _)).
  - rewrite IH. set_solver.
Qed.

Lemma validateHello_none nodes invariants :
  validateHello (mkHelloResponse nodes invariants) = None <-> replies (Hello 0) (Welcome nodes invariants).
Proof.
  unfold validateHello. cbn. destruct nodes as [|n nodes]; [split; [done|by intros [? _]]|].
  destruct (helloNodes _ _) eqn:E.
  - split; [done|]. intros (_ & H & _). assert (helloNodes (n :: nodes) ∅ = None) as E'; [|congruence].
    apply helloNodes_none. set_solver.
  - apply helloNodes_none in E as [E _]. rewrite helloInvariants_none. set_solver.
Qed.

Lemma sendersFrom_none node l : forall i, sendersFrom i node l = None <-> Forall (fun m => From m = node) l.
Proof.
  induction l as [|m l IH]; intros i; cbn [sendersFrom]; [by split|]. rewrite Forall_cons.
  destruct (Z.eqb_spec (From m) node); cbn [negb]; [rewrite IH; tauto|]. split; [done|]. tauto.
Qed.

Lemma isOp_refl op : isOp op op = true.
Proof. unfold isOp. by apply bool_decide_eq_true. Qed.

(** The rest of the validation, once the envelope and the correlation are right. *)
Lemma response_body id c e h l v :
  id <> 0 ->
  ValidateResponse (mkResponse Version id (opOf c) e h l v) = None /\
    (match e, c with None, Drain node => sendersFrom 0 node l = None | _, _ => True end) <->
  exists r, replies c r /\ mkResponse Version id (opOf c) e h l v = responseOf id c r.
Proof.
  intros Hid. unfold ValidateResponse. cbn [p_Version p_ID p_Op p_Error p_Hello p_Messages p_Violation].
  rewrite (proj2 (envelope_none _ _ _)) by (split; [done|]; split; [done|]; by destruct c).
  destruct e as [[code text]|].
  - cbn [Code Text]. split.
    + intros [H _]. exists (Failed code text). destruct (blank code) eqn:E1; [done|]. destruct (blank text) eqn:E2; [done|].
      destruct h, l, v; try done. by destruct c.
    + intros (r & Hr & E). unfold responseOf in E. destruct r; try discriminate E. injection E as -> -> -> -> ->.
      destruct c; cbn [replies] in Hr; destruct Hr as [-> ->]; done.
  - destruct c as [s|n|n|m| |]; cbn [opOf isOp]; cbn -[validateHello blank sendersFrom].
    + split.
      * intros [H _]. destruct h as [[nodes invs]|]; [|done]. destruct l, v; try done. cbn -[validateHello] in H.
        exists (Welcome nodes invs). split; [by apply validateHello_none in H|done].
      * intros (r & Hr & E). destruct r; try done. injection E as -> -> ->. cbn -[validateHello].
        split; [by apply validateHello_none|done].
    + split; [intros [H _]; destruct h, l, v; try done; by exists Done|].
      intros (r & Hr & E). destruct r; try done. by injection E as -> -> ->.
    + split.
      * intros [H Hs]. destruct h, v; try done. exists (Drained l). split; [|done]. by apply sendersFrom_none in Hs.
      * intros (r & Hr & E). destruct r; try done. injection E as -> -> ->. split; [done|]. by apply sendersFrom_none.
    + split; [intros [H _]; destruct h, l, v; try done; by exists Done|].
      intros (r & Hr & E). destruct r; try done. by injection E as -> -> ->.
    + split.
      * intros [H _]. destruct h, l; try done. destruct v as [v|]; [|by exists Done]. cbn -[blank] in H. exists (Violates v).
        destruct (blank (Invariant v)) eqn:E1; [done|]. by destruct (blank (Detail v)) eqn:E2.
      * intros (r & Hr & E). destruct r; try done; injection E as -> -> ->; [done|]. cbn -[blank]. by destruct Hr as [-> ->].
    + split; [intros [H _]; destruct h, l, v; try done; by exists Done|].
      intros (r & Hr & E). destruct r; try done. by injection E as -> -> ->.
Qed.

Lemma ValidateResponseFor_none id c p :
  id <> 0 ->
  ValidateResponseFor (requestOf id c) p = None <-> exists r, replies c r /\ p = responseOf id c r.
Proof.
  intros Hid. destruct p as [ver id' op e h l v]. unfold ValidateResponseFor. rewrite requestOf_valid by done.
  cbn [q_ID q_Op q_Node requestOf p_ID p_Op p_Error p_Messages]. split.
  - destruct (ValidateResponse _) eqn:HV; [done|]. destruct (Z.eqb_spec id' id) as [->|]; [|done]. cbn [negb].
    unfold isOp at 1. case_bool_decide as Eo; [|done]. subst op. cbn [negb]. intros Hs.
    assert (ver = Version) as ->.
    { unfold ValidateResponse in HV. destruct (validateEnvelope _ _ _) eqn:E; [done|]. by apply envelope_none in E as [? _]. }
    apply response_body; [done|]. split; [done|]. destruct e; [done|]. by destruct c.
  - intros (r & Hr & E).
    assert (ver = Version /\ id' = id /\ op = opOf c) as (-> & -> & ->) by by injection E.
    destruct (proj2 (response_body id c e h l v Hid)) as [HV Hs]; [by exists r|]. rewrite HV, Z.eqb_refl, isOp_refl. cbn [negb].
    destruct e; [done|]. by destruct c.
Qed.


(** ** Frames *)

Lemma beGet_be z : 0 <= z < 2 ^ 32 -> beGet (be 4 z) = z.
Proof. intros Hz. unfold beGet, be. rewrite reverse_involutive. by apply (leGet_le 4). Qed.

Lemma length_be n z : length (be n z) = n.
Proof. unfold be. by rewrite length_reverse, length_le. Qed.

Definition frameOf (payload : bytes) : bytes := be 4 (w32 (len payload)) ++ payload.

Section frames.
Context {V : Type} (Marshal : V -> option bytes) (Unmarshal : bytes -> option V).

Lemma ReadFrame_frame payload rest :
  payload <> [] -> len payload <= MaxFrameSize ->
  ReadFrame Unmarshal (frameOf payload ++ rest) =
    match Unmarshal payload with Some v => inr (v, rest) | None => inl ErrDecode end.
Proof.
  intros Hn Hl. assert (0 < len payload < 2 ^ 32) as Hr.
  { change MaxFrameSize with (2 ^ 24) in Hl. unfold len in *. destruct payload; [done|]. cbn [length] in *. lia. }
  unfold ReadFrame, frameOf. rewrite <- app_assoc.
  pose proof (Protocol.ReadFull_app (be 4 (w32 (len payload))) (payload ++ rest)) as E. rewrite length_be in E. rewrite E.
  unfold w32. rewrite Z.mod_small by lia. rewrite beGet_be by lia. destruct (Z.eqb_spec (len payload) 0); [lia|].
  destruct (Z.ltb_spec MaxFrameSize (len payload)); [lia|]. unfold len. rewrite Nat2Z.id.
  by rewrite Protocol.ReadFull_app.
Qed.

Lemma ReadFrame_short payload n :
  payload <> [] -> len payload <= MaxFrameSize -> (n < length (frameOf payload))%nat ->
  exists e, ReadFrame Unmarshal (take n (frameOf payload)) = inl e.
Proof.
  intros Hne Hl Hn. unfold frameOf in *. rewrite length_app, length_be in Hn. unfold ReadFrame.
  destruct (Nat.lt_ge_cases n 4) as [H4|H4].
  - unfold Protocol.ReadFull. rewrite (proj2 (Nat.leb_gt _ _)); [by eexists|]. rewrite length_take, length_app, length_be. lia.
  - rewrite take_app_ge by (rewrite length_be; lia). rewrite length_be.
    pose proof (Protocol.ReadFull_app (be 4 (w32 (len payload))) (take (n - 4) payload)) as E. rewrite length_be in E. rewrite E.
    unfold w32, len in *. change MaxFrameSize with (2 ^ 24) in *. rewrite Z.mod_small by lia. rewrite beGet_be by lia.
    destruct (_ =? 0); [by eexists|]. destruct (_ <? _); [by eexists|]. rewrite Nat2Z.id. unfold Protocol.ReadFull.
    rewrite (proj2 (Nat.leb_gt _ _)); [by eexists|]. rewrite length_take. lia.
Qed.

Context {W : Type} `{!Protocol.Writer W} `{!Protocol.WriterSpec W}.

Lemma WriteFrame_written v payload (w w' : W) err :
  Marshal v = Some payload -> len payload <= MaxFrameSize -> WriteFrame Marshal v w = (w', err) ->
  exists n, Protocol.written w' = Protocol.written w ++ take n (frameOf payload) /\
    (err = None -> n = length (frameOf payload)).
Proof.
  intros HM Hl. unfold WriteFrame, writeAll, Protocol.writeFull. rewrite HM. destruct (Z.ltb_spec MaxFrameSize (len payload)); [lia|].
  unfold frameOf. set (prefix := be 4 _). destruct (Protocol.writeLoop _ prefix w) as [w1 e1] eqn:E1.
  destruct (Protocol.writeLoop_spec _ _ _ _ _ ltac:(done) E1) as (n1 & F1 & F2 & F3). destruct e1 as [e|].
  - intros [= <- <-]. exists n1. by rewrite take_app_le by done.
  - intros E2. destruct (Protocol.writeLoop_spec _ _ _ _ _ ltac:(done) E2) as (n2 & G1 & G2 & G3).
    specialize (F3 eq_refl). subst n1. exists (length prefix + n2)%nat.
    rewrite G1, F1, take_ge by done. rewrite length_app, <- app_assoc, take_app_add. split; [done|].
    intros ->. by rewrite (G3 eq_refl).
Qed.

End frames.

(** Frames on the pipes.  Given what [encoding/json] documents, that a value
    decodes to itself, a value whose text has at most 16 MiB is written as one
    frame, or a prefix of it with an error; the frame is read back, with what
    follows it untouched, and a part of a frame is never accepted.  A larger value
    is refused and nothing is written. *)
Theorem adapter_frames {V} (Marshal : V -> option bytes) (Unmarshal : bytes -> option V)
    {W} `{!Protocol.Writer W} `{!Protocol.WriterSpec W} v payload (w w' : W) err :
  (forall v b, Marshal v = Some b -> b <> [] /\ Unmarshal b = Some v) ->
  Marshal v = Some payload -> WriteFrame Marshal v w = (w', err) ->
  if MaxFrameSize <? len payload then err = Some ErrFrameTooLarge /\ w' = w
  else
    (exists n, Protocol.written w' = Protocol.written w ++ take n (frameOf payload) /\
       (err = None -> n = length (frameOf payload))) /\
    (forall rest, ReadFrame Unmarshal (frameOf payload ++ rest) = inr (v, rest)) /\
    (forall n, (n < length (frameOf payload))%nat -> exists e, ReadFrame Unmarshal (take n (frameOf payload)) = inl e).
Proof.
  intros HJ HM HW. destruct (HJ v payload HM) as [Hne HU]. destruct (Z.ltb_spec MaxFrameSize (len payload)) as [Hlt|Hle].
  - unfold WriteFrame in HW. rewrite HM, (proj2 (Z.ltb_lt _ _)) in HW by done. by injection HW as <- <-.
  - split; [by eapply WriteFrame_written|]. split.
    + intros rest. rewrite ReadFrame_frame by done. by rewrite HU.
    + intros n. by apply ReadFrame_short.
Qed.

End Adapterproto.
