(* ===== verification/AdapterHost.v ===== *)
(** * External adapters: the host

    [internal/adapterhost]: the session that sends calls to a child process and
    checks its answers, the bridge that makes it a cluster of the simulation engine,
    the runner, and the buffer for the child's error output.  Results: the pipes
    only ever carry well-formed requests with fresh identifiers, and a result is
    only handed on if it answers the request; a run with the protocol in a child
    process is the run with the same protocol in the simulator; the buffer holds
    the beginning of what was written, up to its limit. *)

From stdpp Require Import pretty.
From S2P Require Import Prelude Bytes GoStrings EventHeap Engine EngineInv EngineSim Protocol AdapterProto.
#[local] Open Scope Z_scope.

Module Adapterhost.

Abbreviation Request := Adapterproto.Request.
Abbreviation Response := Adapterproto.Response.
Abbreviation Message := Adapterproto.Message.

(** ** session.go *)

Inductive hostError :=
| NoSession
| NoStreams
| ErrClosed
| ErrIDExhausted
| BadRequest (e : Adapterproto.problem)
| NotWritten (op : string) (e : error)
| NotRead (op : string) (e : error)
| BadResponse (op : string) (e : Adapterproto.problem)
| Remote (op code text : string)
| NotConfigured (node : Z)
| Destination (index : nat) (e : hostError)
| Sender (e : hostError)
| Misdirected (to node : Z)
| Undeclared (invariant : string)
| InHello (e : hostError).

(** [adapterproto.WriteFrame] on the writer and [adapterproto.ReadFrame] on the
    reader of a session. *)
Class Transport (T : Type) := {
  send : Request -> T -> T * option error;
  receive : T -> T * (error + Response)
}.

(** The operations of a [RunError]. *)
Definition tickOperation (node : Z) : string := ("tick node " ++ pretty node)%string.
Definition deliverOperation (node : Z) : string := ("deliver to node " ++ pretty node)%string.
Definition drainOperation (node : Z) : string := ("drain node " ++ pretty node)%string.
Definition checkOperation : string := "check invariants".

Section session.
Context {T : Type} `{!Transport T}.

Record Session := mkSession {
  streams : T;
  nextID : Z;
  closed : bool;
  nodes : list Z;
  nodeSet : gset Z;
  invariants : list string;
  invariantSet : gset string
}.

#[global] Instance eta_Session : Eta Session := fun s =>
  mkSession (streams s) (nextID s) (closed s) (nodes s) (nodeSet s) (invariants s) (invariantSet s).

(** The fields of a request other than its version and identifier. *)
Definition ask (op : string) (hello : option Adapterproto.HelloRequest) (node : option Z) (m : option Message) : Request :=
  Adapterproto.mkRequest 0 0 op hello node m.

Definition exchange (request : Request) (s : Session) : Session * (hostError + Response) :=
  if closed s then (s, inl ErrClosed)
  else if nextID s =? 0 then (s, inl ErrIDExhausted)
  else
    let op := Adapterproto.q_Op request in
    let request := Adapterproto.mkRequest Adapterproto.Version (nextID s) op (Adapterproto.q_Hello request)
                     (Adapterproto.q_Node request) (Adapterproto.q_Message request) in
    let s := s <| nextID := w64 (nextID s + 1) |> in
    match Adapterproto.ValidateRequest request with
    | Some e => (s, inl (BadRequest e))
    | None =>
        let (t, err) := send request (streams s) in
        let s := s <| streams := t |> in
        match err with
        | Some e => (s, inl (NotWritten op e))
        | None =>
            let (t, r) := receive (streams s) in
            let s := s <| streams := t |> in
            match r with
            | inl e => (s, inl (NotRead op e))
            | inr response =>
                match Adapterproto.ValidateResponseFor request response with
                | Some e => (s, inl (BadResponse op e))
                | None =>
                    match Adapterproto.p_Error response with
                    | Some e => (s, inl (Remote op (Adapterproto.Code e) (Adapterproto.Text e)))
                    | None => (s, inr response)
                    end
                end
            end
        end
    end.

Definition requireNode (node : Z) (s : Session) : option hostError :=
  if bool_decide (node ∈ nodeSet s) then None else Some (NotConfigured node).

(** [Open]; [None] stands for a missing reader or writer. *)
Definition Open (pipes : option T) (seed : Z) : option Session * option hostError :=
  match pipes with
  | None => (None, Some NoStreams)
  | Some t =>
      let s := mkSession t 1 false [] ∅ [] ∅ in
      match exchange (ask Adapterproto.OpHello (Some (Adapterproto.mkHelloRequest seed)) None None) s with
      | (_, inl e) => (None, Some (InHello e))
      | (s, inr response) =>
          match Adapterproto.p_Hello response with
          | Some h =>
              (Some (s <| nodes := Adapterproto.Nodes h |> <| nodeSet := list_to_set (Adapterproto.Nodes h) |>
                       <| invariants := Adapterproto.Invariants h |>
                       <| invariantSet := list_to_set (Adapterproto.Invariants h) |>), None)
          | None => (None, None)
          end
      end
  end.

Definition errorOf {A} (r : hostError + A) : option hostError := if r is inl e then Some e else None.

Definition Tick (node : Z) (s : Session) : Session * option hostError :=
  match requireNode node s with
  | Some e => (s, Some e)
  | None => let (s, r) := exchange (ask Adapterproto.OpTick None (Some node) None) s in (s, errorOf r)
  end.

(** The loop of [Drain] over the destinations. *)
Fixpoint destinations (index : nat) (l : list Message) (s : Session) : option hostError :=
  match l with
  | [] => None
  | m :: l =>
      match requireNode (Adapterproto.To m) s with
      | Some e => Some (Destination index e)
      | None => destinations (S index) l s
      end
  end.

Definition Drain (node : Z) (s : Session) : Session * (hostError + list Message) :=
  match requireNode node s with
  | Some e => (s, inl e)
  | None =>
      match exchange (ask Adapterproto.OpDrain None (Some node) None) s with
      | (s, inl e) => (s, inl e)
      | (s, inr response) =>
          match destinations 0 (Adapterproto.p_Messages response) s with
          | Some e => (s, inl e)
          | None => (s, inr (Adapterproto.p_Messages response))
          end
      end
  end.

Definition Deliver (node : Z) (m : Message) (s : Session) : Session * option hostError :=
  match requireNode node s with
  | Some e => (s, Some e)
  | None =>
      match requireNode (Adapterproto.From m) s with
      | Some e => (s, Some (Sender e))
      | None =>
          if negb (Adapterproto.To m =? node) then (s, Some (Misdirected (Adapterproto.To m) node))
          else let (s, r) := exchange (ask Adapterproto.OpDeliver None (Some node) (Some m)) s in (s, errorOf r)
      end
  end.

Definition Check (s : Session) : Session * (hostError + option Adapterproto.Violation) :=
  match exchange (ask Adapterproto.OpCheck None None None) s with
  | (s, inl e) => (s, inl e)
  | (s, inr response) =>
      match Adapterproto.p_Violation response with
      | None => (s, inr None)
      | Some v =>
          if bool_decide (Adapterproto.Invariant v ∈ invariantSet s) then (s, inr (Some v))
          else (s, inl (Undeclared (Adapterproto.Invariant v)))
      end
  end.

Definition Close (s : Session) : Session * option hostError :=
  if closed s then (s, None) else
  match exchange (ask Adapterproto.OpClose None None None) s with
  | (s, inl e) => (s, Some e)
  | (s, inr _) => (s <| closed := true |>, None)
  end.

(** ** runner.go *)

(** [clusterBridge]. *)
Record Bridge := mkBridge { session : Session; b_nodes : list Z }.

#[global] Instance bridge : Cluster Bridge Message := {
  Engine.Nodes := b_nodes;
  c_Tick := fun node b =>
    match Tick node (session b) with (s, None) => Some (mkBridge s (b_nodes b)) | (_, Some _) => None end;
  c_Deliver := fun node m b =>
    match Deliver node m (session b) with (s, None) => Some (mkBridge s (b_nodes b)) | (_, Some _) => None end;
  c_Drain := fun node b =>
    match Drain node (session b) with
    | (s, inr out) => Some (mkBridge s (b_nodes b), out)
    | (_, inl _) => None
    end;
  Route := fun m => (Adapterproto.From m, Adapterproto.To m);
  Digest := fun m => (Adapterproto.Kind m, Adapterproto.Value m)
}.

Context {R : Type} (Intn Int63n : Z -> R -> Z * R) (sha256 : bytes -> bytes).
Abbreviation runner := (Engine Bridge Message R).

Definition NewRunner (r : R) (dropPermille maxDelay : Z) (s : option Session) : hostError + runner :=
  match s with
  | None => inl NoSession
  | Some s => if closed s then inl ErrClosed else inr (New r dropPermille maxDelay (mkBridge s (nodes s)))
  end.

Record RunError := mkRunError { re_Step : Z; re_Trace : bytes; re_Op : string; re_Err : hostError }.

(** How a checked step ends.  A call that fails inside the engine stops it where
    it is; the runner recovers and reports that.  A panic of the engine itself is
    passed on. *)
Inductive checked :=
| Fine (e : runner)
| Found (e : runner) (v : Violation)
| Stopped (e : runner) (err : RunError)
| Repanicked (e : runner)
| OutOfFuel.

Definition setSession (s : Session) (e : runner) : runner := e <| cluster := mkBridge s (b_nodes (cluster e)) |>.

Definition runError (operation : string) (err : hostError) (e : runner) : RunError :=
  mkRunError (Now e) (trace e) operation err.

(** The [callbackFailure] that the bridge panics with, and the session after the
    call that failed. *)
Definition callbackFailure (p : place Message) (s : Session) : option (Session * string * hostError) :=
  match p with
  | AtTick node =>
      match Tick node s with (s, Some err) => Some (s, tickOperation node, err) | (_, None) => None end
  | AtDeliver node m =>
      match Deliver node m s with (s, Some err) => Some (s, deliverOperation node, err) | (_, None) => None end
  | AtDrain node =>
      match Drain node s with (s, inl err) => Some (s, drainOperation node, err) | (_, inr _) => None end
  | AtDelay | AtCall => None
  end.

Definition StepChecked (fuel : nat) (e : runner) : checked :=
  match Step Intn Int63n sha256 (heapQueue Message) fuel e with
  | Limit => OutOfFuel
  | Panic (p, e) =>
      match callbackFailure p (session (cluster e)) with
      | Some (s, operation, err) => let e := setSession s e in Stopped e (runError operation err e)
      | None => Repanicked e
      end
  | Ret e =>
      let (s, r) := Check (session (cluster e)) in
      let e := setSession s e in
      match r with
      | inl err => Stopped e (runError checkOperation err e)
      | inr None => Fine e
      | inr (Some v) =>
          Found e (mkViolation (Adapterproto.Invariant v) (Now e) (trace e) (Adapterproto.Detail v))
      end
  end.

Fixpoint RunChecked (fuel steps : nat) (e : runner) : checked :=
  match steps with
  | O => Fine e
  | S steps => match StepChecked fuel e with Fine e => RunChecked fuel steps e | r => r end
  end.

End session.

(** ** process.go: the error output of the child *)

Record boundedBuffer := mkBuffer { buffer : bytes; limit : Z; truncated : bool }.

Definition Write (data : bytes) (b : boundedBuffer) : boundedBuffer * Z :=
  let written := len data in
  let remaining := limit b - len (buffer b) in
  if remaining <=? 0 then
    (mkBuffer (buffer b) (limit b) (truncated b || negb (len data =? 0)), written)
  else if remaining <? len data then
    (mkBuffer (buffer b ++ take (Z.to_nat remaining) data) (limit b) true, written)
  else (mkBuffer (buffer b ++ data) (limit b) (truncated b), written).

Definition MaxCapturedStderr : Z := Z.shiftl 64 10.
Definition notice : bytes := 10 :: bytesOf "[stderr truncated]".

Definition String_ (b : boundedBuffer) : bytes := if truncated b then buffer b ++ notice else buffer b.

(** ** What a session does *)

(** A call, as the session puts it together. *)
Definition askOf (c : Adapterproto.call) : Request :=
  let q := Adapterproto.requestOf 0 c in
  ask (Adapterproto.q_Op q) (Adapterproto.q_Hello q) (Adapterproto.q_Node q) (Adapterproto.q_Message q).

Section calls.
Context {T : Type} `{!Transport T}.
Implicit Types s : Session (T := T).

(** The session after request [id] was answered on the streams [t]. *)
Definition used (t : T) s : Session := s <| nextID := w64 (nextID s + 1) |> <| streams := t |>.

(** An exchange either sends nothing and changes nothing, or sends one request
    with the next identifier; a result is a reply to that request. *)
Lemma exchange_spec c s s' r :
  exchange (askOf c) s = (s', r) ->
  (s' = s /\ (closed s = true \/ nextID s = 0) /\ exists e, r = inl e) \/
  (closed s = false /\ nextID s <> 0 /\
   exists t err, send (Adapterproto.requestOf (nextID s) c) (streams s) = (t, err) /\
     (s' = used t s \/ exists t' x, receive t = (t', x) /\ s' = used t' s) /\
     (forall p, r = inr p -> Adapterproto.p_Error p = None /\
        exists x, Adapterproto.replies c x /\ p = Adapterproto.responseOf (nextID s) c x)).
Proof.
  unfold exchange. intros E. destruct (closed s); [injection E as <- <-; left; eauto|].
  destruct (Z.eqb_spec (nextID s) 0) as [|Hid]; [injection E as <- <-; left; eauto|]. right. split; [done|]. split; [done|].
  cbn zeta in E.
  change (Adapterproto.mkRequest Adapterproto.Version (nextID s) (Adapterproto.q_Op (askOf c)) (Adapterproto.q_Hello (askOf c))
    (Adapterproto.q_Node (askOf c)) (Adapterproto.q_Message (askOf c))) with (Adapterproto.requestOf (nextID s) c) in E.
  rewrite Adapterproto.requestOf_valid in E by done.
  change (streams (s <| nextID := w64 (nextID s + 1) |>)) with (streams s) in E.
  destruct (send _ (streams s)) as [t [e|]].
  { injection E as <- <-. exists t, (Some e). split; [done|]. split; [by left|done]. }
  change (streams (s <| nextID := w64 (nextID s + 1) |> <| streams := t |>)) with t in E.
  destruct (receive t) as [t' x] eqn:Er. exists t, None. split; [done|].
  assert (s' = used t' s) as -> by by repeat case_match; simplify_eq.
  split; [right; eauto|]. intros p ->. repeat case_match; try discriminate E. injection E as ->.
  split; [done|]. by apply Adapterproto.ValidateResponseFor_none.
Qed.

Lemma requireNode_none node s : requireNode node s = None <-> node ∈ nodeSet s.
Proof. unfold requireNode. by case_bool_decide. Qed.

Lemma destinations_none l s : forall i,
  destinations i l s = None <-> Forall (fun m => Adapterproto.To m ∈ nodeSet s) l.
Proof.
  induction l as [|m l IH]; intros i; cbn [destinations]; [by split|]. rewrite Forall_cons, <- requireNode_none.
  destruct (requireNode _ s); [|rewrite IH; tauto]. split; [done|]. by intros [? _].
Qed.

(** What an exchange leaves alone. *)
Lemma exchange_keeps c s s' r :
  exchange (askOf c) s = (s', r) ->
  closed s' = closed s /\ nodes s' = nodes s /\ nodeSet s' = nodeSet s /\ invariantSet s' = invariantSet s.
Proof.
  intros E. apply exchange_spec in E as [(-> & _)|(_ & _ & t & err & _ & [->|(t' & x & _ & ->)] & _)]; done.
Qed.

End calls.

(** *** The requests on the pipes *)

Section recorded.
Context {T : Type} `{!Transport T}.

(** Streams that remember the requests written to them. *)
#[local] Instance recorder : Transport (T * list Request) := {
  send := fun q t => let (t', err) := send q t.1 in ((t', t.2 ++ [q]), err);
  receive := fun t => let (t', r) := receive t.1 in ((t', t.2), r)
}.

Implicit Types s : Session (T := T * list Request).

Inductive op :=
| OTick (node : Z)
| ODrain (node : Z)
| ODeliver (node : Z) (m : Message)
| OCheck
| OClose.

Definition execute s (o : op) : Session :=
  match o with
  | OTick node => (Tick node s).1
  | ODrain node => (Drain node s).1
  | ODeliver node m => (Deliver node m s).1
  | OCheck => (Check s).1
  | OClose => (Close s).1
  end.

(** The calls a session may make of the nodes [ids]. *)
Definition within (ids : list Z) (c : Adapterproto.call) : Prop :=
  match c with
  | Adapterproto.Hello _ => False
  | Adapterproto.Tick node | Adapterproto.Drain node => node ∈ ids
  | Adapterproto.Deliver m => Adapterproto.From m ∈ ids /\ Adapterproto.To m ∈ ids
  | Adapterproto.Check | Adapterproto.Close => True
  end.

(** Requests numbered from 1 on. *)
Definition numbered (calls : list Adapterproto.call) : list Request :=
  imap (fun i c => Adapterproto.requestOf (Z.of_nat i + 1) c) calls.

Record recordOf (seed : Z) (ids : list Z) (invs : list string) (calls : list Adapterproto.call) s : Prop := {
  rc_sent : (streams s).2 = numbered (Adapterproto.Hello seed :: calls);
  rc_calls : Forall (within ids) calls;
  rc_next : nextID s = w64 (len calls + 2);
  rc_room : len calls + 2 <= 2 ^ 64;
  rc_nodes : nodeSet s = list_to_set ids;
  rc_invariants : invariantSet s = list_to_set invs;
  rc_closed : closed s = true -> last calls = Some Adapterproto.Close
}.

Lemma numbered_snoc calls c : numbered (calls ++ [c]) = numbered calls ++ [Adapterproto.requestOf (len calls + 1) c].
Proof. unfold numbered. rewrite imap_app. cbn. by rewrite Nat.add_0_r. Qed.

Lemma exchange_record seed ids invs calls c s s' r :
  recordOf seed ids invs calls s -> within ids c -> exchange (askOf c) s = (s', r) ->
  (s' = s /\ exists e, r = inl e) \/
  (recordOf seed ids invs (calls ++ [c]) s' /\ closed s' = false).
Proof.
  intros [Hs Hc Hn Hr Hd Hv Hcl] Hw E. apply exchange_spec in E as [(-> & _ & He)|(Ho & Hid & t & err & Hsend & Ht & _)]; [by left|].
  right. rewrite Hn in Hid. unfold w64 in Hid.
  assert (0 <= len calls) as H0 by (unfold len; lia).
  assert (len calls + 2 < 2 ^ 64) as Hlt.
  { destruct (decide (len calls + 2 = 2 ^ 64)) as [E|]; [|lia]. by rewrite E in Hid. }
  assert (forall t', t'.2 = t.2 -> recordOf seed ids invs (calls ++ [c]) (used t' s) /\ closed (used t' s) = false) as Hrec.
  { intros t' Ht'. split; [|done]. assert (len (calls ++ [c]) = len calls + 1) as El by (unfold len; rewrite length_app; cbn; lia).
    split; [| | | |done|done|].
    - change (streams (used t' s)) with t'. rewrite Ht'. cbn in Hsend. destruct (send _ (streams s).1) as [t1 err1]. injection Hsend as <- _. cbn [snd].
      rewrite Hs, Hn. unfold w64. rewrite Z.mod_small by lia.
      rewrite app_comm_cons, numbered_snoc. do 3 f_equal. unfold len. cbn [length]. lia.
    - apply Forall_app. split; [done|]. by apply Forall_singleton.
    - cbn. rewrite Hn, El. unfold w64. rewrite (Z.mod_small (len calls + 2)) by lia. f_equal. lia.
    - lia.
    - cbn. by rewrite Ho. }
  destruct Ht as [->|(t' & x & Hrecv & ->)]; [by apply Hrec|]. apply Hrec. cbn in Hrecv.
  destruct (receive t.1) as [t1 x1]. by injection Hrecv as <- _.
Qed.

Lemma execute_record seed ids invs calls s o :
  recordOf seed ids invs calls s -> exists calls', recordOf seed ids invs calls' (execute s o).
Proof.
  intros Hs. pose proof (rc_nodes _ _ _ _ _ Hs) as Hn.
  assert (forall node, requireNode node s = None -> node ∈ ids) as Hreq.
  { intros node Hq. apply requireNode_none in Hq. rewrite Hn in Hq. by apply elem_of_list_to_set in Hq. }
  assert (forall c, within ids c -> exists calls', recordOf seed ids invs calls' (exchange (askOf c) s).1) as Hx.
  { intros c Hw. destruct (exchange (askOf c) s) as [s' r] eqn:E.
    destruct (exchange_record _ _ _ _ _ _ _ _ Hs Hw E) as [[-> _]|[H' _]]; eauto. }
  destruct o as [node|node|node m| |]; cbn [execute].
  - unfold Tick. destruct (requireNode node s) eqn:E; [by exists calls|].
    destruct (Hx (Adapterproto.Tick node) (Hreq _ E)) as [calls' H']. exists calls'.
    change (ask _ _ _ _) with (askOf (Adapterproto.Tick node)). by destruct (exchange _ s).
  - unfold Drain. destruct (requireNode node s) eqn:E; [by exists calls|].
    destruct (Hx (Adapterproto.Drain node) (Hreq _ E)) as [calls' H']. exists calls'.
    change (ask _ _ _ _) with (askOf (Adapterproto.Drain node)). destruct (exchange _ s) as [s' [e|p]]; [done|].
    by destruct (destinations _ _ _).
  - unfold Deliver. destruct (requireNode node s) eqn:E; [by exists calls|].
    destruct (requireNode (Adapterproto.From m) s) eqn:E1; [by exists calls|].
    destruct (Z.eqb_spec (Adapterproto.To m) node) as [<-|]; cbn [negb]; [|by exists calls].
    destruct (Hx (Adapterproto.Deliver m) (conj (Hreq _ E1) (Hreq _ E))) as [calls' H']. exists calls'.
    change (ask _ _ _ _) with (askOf (Adapterproto.Deliver m)). by destruct (exchange _ s).
  - unfold Check. destruct (Hx Adapterproto.Check I) as [calls' H']. exists calls'.
    change (ask _ _ _ _) with (askOf Adapterproto.Check). destruct (exchange _ s) as [s' [e|p]]; [done|].
    destruct (Adapterproto.p_Violation p); [|done]. by case_bool_decide.
  - unfold Close. destruct (closed s); [by exists calls|]. change (ask _ _ _ _) with (askOf Adapterproto.Close).
    destruct (exchange _ s) as [s' r] eqn:E.
    destruct (exchange_record _ _ _ _ Adapterproto.Close _ _ _ Hs I E) as [[-> [e ->]]|[H' _]]; [by exists calls|].
    destruct r as [e|p]; [eauto|]. exists (calls ++ [Adapterproto.Close]). destruct H'. split; try done.
    intros _. by rewrite last_snoc.
Qed.

Lemma executeAll_record seed ids invs l : forall calls s,
  recordOf seed ids invs calls s -> exists calls', recordOf seed ids invs calls' (foldl execute s l).
Proof.
  induction l as [|o l IH]; intros calls s Hs; cbn [foldl]; [eauto|].
  destruct (execute_record _ _ _ _ _ o Hs) as [calls' H']. by eapply IH.
Qed.

Lemma Open_record t seed s :
  Open (Some (t, [])) seed = (Some s, None) -> recordOf seed (nodes s) (invariants s) [] s /\
    nodes s <> [] /\ NoDup (nodes s) /\ NoDup (invariants s) /\ invariantSet s = list_to_set (invariants s).
Proof.
  unfold Open. set (s0 := mkSession _ _ _ _ _ _ _).
  change (ask _ _ _ _) with (askOf (Adapterproto.Hello seed)).
  destruct (exchange _ s0) as [s1 [e|p]] eqn:E; [done|].
  apply exchange_spec in E as [(_ & _ & e & ?)|(_ & _ & t1 & err & Hsend & Hs1 & Hp)]; [done|].
  destruct (Hp p eq_refl) as (Hok & x & Hx & ->). destruct x; try done. cbn [Adapterproto.p_Hello Adapterproto.responseOf].
  intros [= <-]. destruct Hx as (H1 & H2 & H3 & _). cbn. split; [|done].
  assert ((streams s1).2 = t1.2 /\ nextID s1 = 2 /\ closed s1 = false) as (Hst & Hid & Hcl).
  { destruct Hs1 as [->|(t' & y & Hr & ->)]; [done|]. cbn in Hr. destruct (receive t1.1) as [t2 r2]. by injection Hr as <- _. }
  split; try done; cbn.
  - rewrite Hst. cbn in Hsend. destruct (send _ t) as [t2 e2]. by injection Hsend as <- _.
  - by rewrite Hcl.
Qed.

End recorded.

(** C31 What a session puts on the pipes.  After a session was opened and any
    sequence of calls was made on it, whatever the child answered: the requests
    written are the greeting and then well-formed requests, numbered from 1 on
    without a gap, that only name nodes the child declared; nothing follows a
    request to close that was answered.  A drained message comes from the drained
    node and goes to a declared node, and a reported violation names a declared
    invariant. *)
Theorem adapter_session {T} `{!Transport T} (t : T) seed s ops :
  Open (T := T * list Request) (Transport0 := recorder) (Some (t, [])) seed = (Some s, None) ->
  let s' := foldl execute s ops in
  exists calls,
    (streams s').2 = numbered (Adapterproto.Hello seed :: calls) /\
    Forall (fun q => Adapterproto.ValidateRequest q = None) (streams s').2 /\
    Forall (within (nodes s)) calls /\
    (closed s' = true -> last calls = Some Adapterproto.Close) /\
    (forall node out, (Drain (Transport0 := recorder) node s').2 = inr out ->
       Forall (fun m => Adapterproto.From m = node /\ Adapterproto.To m ∈ nodes s) out) /\
    (forall v, (Check (Transport0 := recorder) s').2 = inr (Some v) -> Adapterproto.Invariant v ∈ invariants s).
Proof.
  intros HO. destruct (Open_record _ _ _ HO) as (H0 & _). cbn zeta.
  destruct (executeAll_record seed (nodes s) (invariants s) ops [] s H0) as [calls Hs]. exists calls. destruct Hs as [H1 H2 H3 H4 H5 HI H6].
  split; [done|]. split; [|split; [done|split; [done|split]]].
  - rewrite H1. apply Forall_lookup. intros i q. unfold numbered. rewrite list_lookup_imap.
    destruct ((_ :: calls) !! i); [|done]. intros [= <-]. apply Adapterproto.requestOf_valid. lia.
  - intros node out. unfold Drain. destruct (requireNode node _); [done|].
    change (ask _ _ _ _) with (askOf (Adapterproto.Drain node)).
    destruct (exchange _ _) as [s1 [e|p]] eqn:E; [done|]. destruct (exchange_keeps _ _ _ _ E) as (_ & _ & Hn & _).
    apply exchange_spec in E as [(_ & _ & e & ?)|(_ & _ & t1 & err & _ & _ & Hp)]; [done|].
    destruct (Hp p eq_refl) as (Hok & x & Hx & ->). destruct x as [| | |l|]; try done. cbn [Adapterproto.p_Messages Adapterproto.responseOf].
    destruct (destinations 0 l s1) eqn:Hd; [done|]. intros [= <-]. apply destinations_none in Hd. cbn in Hx.
    rewrite Hn, H5 in Hd. rewrite Forall_forall in Hx, Hd |- *. intros m Hm. split; [by apply Hx|].
    specialize (Hd m Hm). by apply elem_of_list_to_set in Hd.
  - intros v. unfold Check. change (ask _ _ _ _) with (askOf Adapterproto.Check).
    destruct (exchange _ _) as [s1 [e|p]] eqn:E; [done|]. destruct (exchange_keeps _ _ _ _ E) as (_ & _ & _ & Hi).
    destruct (Adapterproto.p_Violation p) as [v'|]; [|done]. case_bool_decide as Hin; [|done]. intros [= <-].
    rewrite Hi, HI in Hin. by apply elem_of_list_to_set in Hin.
Qed.

(** ** A child that runs the protocol *)

Section hosted.
Context {C : Type} {IC : Cluster C Message} (ids : list Z) (invs : list (Invariant (C := C))).

(** The first invariant that fails. *)
Fixpoint failing (l : list (Invariant (C := C))) (x : C) : option Adapterproto.Violation :=
  match l with
  | [] => None
  | i :: l =>
      match inv_Check i x with
      | Some err => Some (Adapterproto.mkViolation (inv_Name i) err)
      | None => failing l x
      end
  end.

(** What a call does to the cluster, and the reply to it; [None] is a panic. *)
Definition perform (c : Adapterproto.call) (x : C) : option (C * Adapterproto.reply) :=
  match c with
  | Adapterproto.Hello _ => Some (x, Adapterproto.Welcome ids (inv_Name <$> invs))
  | Adapterproto.Tick node => x ← c_Tick node x; Some (x, Adapterproto.Done)
  | Adapterproto.Drain node => '(x, out) ← c_Drain node x; Some (x, Adapterproto.Drained out)
  | Adapterproto.Deliver m => x ← c_Deliver (Adapterproto.To m) m x; Some (x, Adapterproto.Done)
  | Adapterproto.Check =>
      Some (x, match failing invs x with None => Adapterproto.Done | Some v => Adapterproto.Violates v end)
  | Adapterproto.Close => Some (x, Adapterproto.Done)
  end.

(** A cluster that can run behind the pipes: it routes its messages by their
    addresses, keeps its nodes, and its checks have names and say what is wrong. *)
Class Remotable : Prop := {
  rm_Route : forall m, Route m = (Adapterproto.From m, Adapterproto.To m);
  rm_Digest : forall m, Digest m = (Adapterproto.Kind m, Adapterproto.Value m);
  rm_Tick : forall x id x', c_Tick id x = Some x' -> Nodes x' = Nodes x;
  rm_Deliver : forall x id m x', c_Deliver id m x = Some x' -> Nodes x' = Nodes x;
  rm_Drain : forall x id x' out, c_Drain id x = Some (x', out) -> Nodes x' = Nodes x /\
    Forall (fun m => Adapterproto.From m = id /\ Adapterproto.To m ∈ Nodes x) out;
  rm_names : Forall (fun i => blank (inv_Name i) = false /\ forall x e, inv_Check i x = Some e -> blank e = false) invs
}.

(** A child process that holds the cluster: it answers every request with what
    the call does. *)
Class Hosts {T : Type} `{!Transport T} (holds : T -> C -> Prop) : Prop :=
  host_call : forall id c t x, id <> 0 -> holds t x ->
    exists t1 t2 p, send (Adapterproto.requestOf id c) t = (t1, None) /\ receive t1 = (t2, inr p) /\
      match perform c x with
      | Some (x', r) => p = Adapterproto.responseOf id c r /\ holds t2 x'
      | None => exists code text, blank code = false /\ blank text = false /\
          p = Adapterproto.responseOf id c (Adapterproto.Failed code text)
      end.

(** The same cluster in the simulator, with as many calls as there are
    identifiers from the second component on. *)
Definition call1 {A} (o : option A) (k : Z) : option (A * Z) :=
  if k =? 0 then None else o ≫= fun a => Some (a, w64 (k + 1)).

Definition counted : Cluster (C * Z) Message := {|
  Engine.Nodes := fun x => Nodes x.1;
  c_Tick := fun id x => call1 (c_Tick id x.1) x.2;
  c_Deliver := fun id m x => call1 (c_Deliver id m x.1) x.2;
  c_Drain := fun id x => '(x, out, k) ← call1 (c_Drain id x.1) x.2; Some (x, k, out);
  Route := Route (Cluster := IC);
  Digest := Digest (Cluster := IC)
|}.

Definition lifted : list (Invariant (C := C * Z)) :=
  (fun i => mkInvariant (inv_Name i) (fun x => inv_Check i x.1)) <$> invs.

Context {R : Type} (Intn Int63n : Z -> R -> Z * R) (sha256 : bytes -> bytes).

(** The call at which the engine panics; none if it is not in a call. *)
Definition operationAt (p : place Message) : option string :=
  match p with
  | AtTick node => Some (tickOperation node)
  | AtDeliver node _ => Some (deliverOperation node)
  | AtDrain node => Some (drainOperation node)
  | AtDelay | AtCall => None
  end.

(** A checked step in the simulator; the check is a call, too. *)
Abbreviation simulation := (Engine (C * Z) Message R).
Definition countedStep (fuel : nat) (f : simulation) : run (option string * simulation) (simulation * option Violation) :=
  match Step (Cluster0 := counted) Intn Int63n sha256 (heapQueue Message) fuel f with
  | Limit => Limit
  | Panic (p, f) => Panic (operationAt p, f)
  | Ret f =>
      match call1 (Some (cluster f).1) (cluster f).2 with
      | None => Panic (Some checkOperation, f)
      | Some x => let f := f <| cluster := x |> in Ret (f, CheckInvariants lifted f)
      end
  end.

Fixpoint countedRun (fuel steps : nat) (f : simulation) : run (option string * simulation) (simulation * option Violation) :=
  match steps with
  | O => Ret (f, None)
  | S steps =>
      r ← countedStep fuel f;
      match r.2 with Some v => Ret (r.1, Some v) | None => countedRun fuel steps r.1 end
  end.

Lemma failing_named x v :
  Remotable -> failing invs x = Some v -> blank (Adapterproto.Invariant v) = false /\ blank (Adapterproto.Detail v) = false /\
    Adapterproto.Invariant v ∈ inv_Name <$> invs.
Proof.
  intros HR. pose proof (rm_names (Remotable := HR)) as Hn. clear HR.
  induction Hn as [|i l [Hi Hd] Hn IH]; cbn [failing fmap list_fmap]; [done|]. destruct (inv_Check i x) as [e|] eqn:E.
  - intros [= <-]. cbn. split; [done|]. split; [by eapply Hd|]. apply list_elem_of_here.
  - intros Hv. destruct (IH Hv) as (H1 & H2 & H3). split; [done|]. split; [done|]. by right.
Qed.

Context {T : Type} `{!Transport T} (holds : T -> C -> Prop) `{!Hosts holds} `{HR : !Remotable}.

(** A session whose child holds the cluster. *)
Record hosting (s : Session (T := T)) (x : C) (k : Z) : Prop := {
  ho_child : holds (streams s) x;
  ho_next : nextID s = k;
  ho_open : closed s = false;
  ho_nodes : nodeSet s = list_to_set ids;
  ho_invariants : invariantSet s = list_to_set (inv_Name <$> invs);
  ho_ids : Nodes x = ids
}.

(** An exchange is a call of the cluster. *)
Lemma exchange_child c s x :
  holds (streams s) x -> closed s = false -> nextID s <> 0 ->
  (forall x' r, perform c x = Some (x', r) -> Adapterproto.replies c r /\ forall code text, r <> Adapterproto.Failed code text) ->
  exists t y, exchange (askOf c) s = (used t s, y) /\
    match perform c x with
    | None => exists e, y = inl e
    | Some (x', r) => y = inr (Adapterproto.responseOf (nextID s) c r) /\ holds t x'
    end.
Proof.
  intros Hh Ho Hid Hp. unfold exchange. rewrite Ho. destruct (Z.eqb_spec (nextID s) 0) as [|_]; [done|]. cbn zeta.
  change (Adapterproto.mkRequest Adapterproto.Version (nextID s) (Adapterproto.q_Op (askOf c)) (Adapterproto.q_Hello (askOf c))
    (Adapterproto.q_Node (askOf c)) (Adapterproto.q_Message (askOf c))) with (Adapterproto.requestOf (nextID s) c).
  rewrite Adapterproto.requestOf_valid by done.
  change (streams (s <| nextID := w64 (nextID s + 1) |>)) with (streams s).
  destruct (host_call (nextID s) c (streams s) x Hid Hh) as (t1 & t2 & p & -> & Hrecv & Hpf).
  change (streams (s <| nextID := w64 (nextID s + 1) |> <| streams := t1 |>)) with t1. rewrite Hrecv. exists t2.
  destruct (perform c x) as [[x' r]|].
  - destruct Hpf as [-> Hh']. destruct (Hp x' r eq_refl) as (Hr & Hf).
    rewrite (proj2 (Adapterproto.ValidateResponseFor_none _ _ _ Hid)) by eauto.
    assert (Adapterproto.p_Error (Adapterproto.responseOf (nextID s) c r) = None) as ->.
    { destruct r; try done. by destruct (Hf code text). }
    eexists. split; [reflexivity|]. by split.
  - destruct Hpf as (code & text & H1 & H2 & ->).
    assert (Adapterproto.ValidateResponseFor (Adapterproto.requestOf (nextID s) c)
      (Adapterproto.responseOf (nextID s) c (Adapterproto.Failed code text)) = None) as ->.
    { apply Adapterproto.ValidateResponseFor_none; [done|]. eexists. split; [|reflexivity]. by destruct c. }
    cbn. eexists. split; [reflexivity|]. by eexists.
Qed.

Lemma exchange_host c s x k :
  hosting s x k -> (forall x' r, perform c x = Some (x', r) -> Adapterproto.replies c r /\
    (forall code text, r <> Adapterproto.Failed code text) /\ Nodes x' = Nodes x) ->
  exists s' y, exchange (askOf c) s = (s', y) /\
    match call1 (perform c x) k with
    | None => exists e, y = inl e
    | Some (x', r, k') => y = inr (Adapterproto.responseOf k c r) /\ hosting s' x' k'
    end.
Proof.
  intros [Hh <- Ho Hn Hi Hx] Hp. unfold call1. destruct (Z.eqb_spec (nextID s) 0) as [E|Hid].
  { unfold exchange. rewrite Ho, E. cbn. eauto. }
  destruct (exchange_child c s x Hh Ho Hid) as (t & y & E & Hy).
  { intros x' r E. by destruct (Hp x' r E) as (? & ? & _). }
  exists (used t s), y. split; [done|]. destruct (perform c x) as [[x' r]|] eqn:Ep; [|done].
  destruct Hy as [-> Hh']. cbn. split; [done|]. destruct (Hp x' r eq_refl) as (_ & _ & Hx'). split; try done. by rewrite Hx'.
Qed.

Lemma requireNode_host node s x k : hosting s x k -> requireNode node s = None <-> node ∈ ids.
Proof. intros H'. rewrite requireNode_none, (ho_nodes _ _ _ H'). apply elem_of_list_to_set. Qed.

(** The bridge over such a session, and the cluster in the simulator. *)
Definition bridged (b : Bridge (T := T)) (y : C * Z) : Prop := hosting (session b) y.1 y.2 /\ b_nodes b = ids.

Definition local_ (m : Message) : Prop := Adapterproto.From m ∈ ids /\ Adapterproto.To m ∈ ids.

Lemma Tick_host node b y :
  bridged b y -> node ∈ ids ->
  opAgree bridged (c_Tick (Cluster := bridge) node b) (c_Tick (Cluster := counted) node y).
Proof.
  intros [Hb Hn] Hin. destruct y as [x k]. cbn in Hb |- *. unfold Tick.
  rewrite (proj2 (requireNode_host node _ _ _ Hb)) by done. change (ask _ _ _ _) with (askOf (Adapterproto.Tick node)).
  destruct (exchange_host (Adapterproto.Tick node) _ x k Hb) as (s' & r & -> & Hr).
  { cbn. intros x' r' E. destruct (c_Tick node x) as [x1|] eqn:E1; [|done]. injection E as <- <-.
    split; [done|]. split; [done|]. by eapply rm_Tick. }
  unfold call1 in *. cbn [perform] in Hr. destruct (k =? 0); [destruct Hr as [e ->]; done|].
  destruct (c_Tick node x) as [x'|]; cbn in Hr |- *; [|destruct Hr as [e ->]; done]. by destruct Hr as [-> Hs].
Qed.

Lemma Deliver_host m b y :
  bridged b y -> local_ m ->
  opAgree bridged (c_Deliver (Cluster := bridge) (Adapterproto.To m) m b) (c_Deliver (Cluster := counted) (Adapterproto.To m) m y).
Proof.
  intros [Hb Hn] [Hf Ht]. destruct y as [x k]. cbn in Hb |- *. unfold Deliver.
  rewrite !(proj2 (requireNode_host _ _ _ _ Hb)) by done. rewrite Z.eqb_refl. cbn [negb].
  change (ask _ _ _ _) with (askOf (Adapterproto.Deliver m)).
  destruct (exchange_host (Adapterproto.Deliver m) _ x k Hb) as (s' & r & -> & Hr).
  { cbn. intros x' r' E. destruct (c_Deliver _ m x) as [x1|] eqn:E1; [|done]. injection E as <- <-.
    split; [done|]. split; [done|]. by eapply rm_Deliver. }
  unfold call1 in *. cbn [perform] in Hr. destruct (k =? 0); [destruct Hr as [e ->]; done|].
  destruct (c_Deliver _ m x) as [x'|]; cbn in Hr |- *; [|destruct Hr as [e ->]; done]. by destruct Hr as [-> Hs].
Qed.

Lemma Drain_host node b y :
  bridged b y -> node ∈ ids ->
  opAgree (fun p q => bridged p.1 q.1 /\ p.2 = q.2 /\ Forall local_ q.2)
    (c_Drain (Cluster := bridge) node b) (c_Drain (Cluster := counted) node y).
Proof.
  intros [Hb Hn] Hin. destruct y as [x k]. cbn in Hb |- *. unfold Drain.
  rewrite (proj2 (requireNode_host node _ _ _ Hb)) by done. change (ask _ _ _ _) with (askOf (Adapterproto.Drain node)).
  destruct (exchange_host (Adapterproto.Drain node) _ x k Hb) as (s' & r & -> & Hr).
  { cbn. intros x' r' E. destruct (c_Drain node x) as [[x1 out]|] eqn:E1; [|done]. injection E as <- <-.
    destruct (rm_Drain _ _ _ _ E1) as [H1 H2]. split; [|done]. eapply Forall_impl; [exact H2|]. by intros m [? _]. }
  unfold call1 in *. cbn [perform] in Hr. destruct (k =? 0); [destruct Hr as [e ->]; done|].
  destruct (c_Drain node x) as [[x' out]|] eqn:E; cbn in Hr |- *; [|destruct Hr as [e ->]; done].
  destruct Hr as [-> Hs]. cbn [Adapterproto.p_Messages Adapterproto.responseOf]. destruct (rm_Drain _ _ _ _ E) as [_ Ho].
  rewrite (ho_ids _ _ _ Hb) in Ho.
  rewrite (proj2 (destinations_none out s' 0)).
  - cbn. split; [by split|]. split; [done|]. eapply Forall_impl; [exact Ho|]. intros m [Hm ?]. split; [by rewrite Hm|done].
  - eapply Forall_impl; [exact Ho|]. intros m [_ ?]. rewrite (ho_nodes _ _ _ Hs). by apply elem_of_list_to_set.
Qed.

#[local] Instance bridge_sim : Simulates (bridge (T := T)) counted bridged local_.
Proof.
  split.
  - intros m. cbn. by rewrite rm_Route.
  - intros m. cbn. by rewrite rm_Digest.
  - intros b y [Hb Hn]. cbn. by rewrite Hn, (ho_ids _ _ _ Hb).
  - intros b y id Hb Hid. apply Tick_host; [done|]. destruct Hb as [Hb _]. cbn in Hid. by rewrite (ho_ids _ _ _ Hb) in Hid.
  - intros [x k] id y. cbn. unfold call1. destruct (k =? 0); [done|]. destruct (c_Tick id x) eqn:E; [|done].
    intros [= <-]. by eapply rm_Tick.
  - intros [x k] id y out. cbn. unfold call1. destruct (k =? 0); [done|]. destruct (c_Drain id x) as [[x' o]|] eqn:E; [|done].
    intros [= <- _]. by eapply rm_Drain.
  - intros [x k] id m y. cbn. unfold call1. destruct (k =? 0); [done|]. destruct (c_Deliver id m x) eqn:E; [|done].
    intros [= <-]. by eapply rm_Deliver.
  - intros b y m Hb Hm. change (Route (Cluster := counted) m) with (Route (Cluster := IC) m). rewrite rm_Route.
    by apply Deliver_host.
  - intros b y id Hb Hid. apply Drain_host; [done|]. destruct Hb as [Hb _]. cbn in Hid. by rewrite (ho_ids _ _ _ Hb) in Hid.
Qed.

Lemma CheckInvariants_lifted (f : Engine (C * Z) Message R) :
  CheckInvariants lifted f =
  (fun v => mkViolation (Adapterproto.Invariant v) (Now f) (trace f) (Adapterproto.Detail v)) <$> failing invs (cluster f).1.
Proof.
  unfold lifted. clear. induction invs as [|i l IH]; cbn [fmap list_fmap CheckInvariants failing]; [done|].
  cbn [inv_Check inv_Name]. destruct (inv_Check i (cluster f).1); [done|exact IH].
Qed.

#[local] Existing Instance counted.

(** Runs that end the same way.  A failed call is reported with the call in which
    the cluster panicked, and with the time and the trace at that point. *)
Definition sameEnd (r : checked (T := T)) (r' : run (option string * simulation) (simulation * option Violation)) : Prop :=
  match r, r' with
  | Fine e, Ret (f, None) => twin bridged local_ ids e f
  | Found e v, Ret (f, Some v') => twin bridged local_ ids e f /\ v = v'
  | Stopped e err, Panic (Some operation, f) => re_Op err = operation /\ re_Step err = Now f /\ re_Trace err = trace f
  | Repanicked e, Panic (None, f) => twin bridged local_ ids e f /\ delayBound f <= 0
  | OutOfFuel, Limit => True
  | _, _ => False
  end.

(** The runner recovers exactly from the panics of the bridge. *)
Lemma failure_host p e f :
  twin bridged local_ ids e f -> broken (p, e) ->
  sameEnd
    match callbackFailure p (session (cluster e)) with
    | Some (s, operation, err) => let e := setSession s e in Stopped e (runError operation err e)
    | None => Repanicked e
    end (Panic (operationAt p, f)).
Proof.
  intros He Hb. pose proof He as (d & -> & _). unfold broken in Hb. cbn [fst snd] in Hb.
  destruct p as [id|id m|id| |]; cbn [callbackFailure operationAt]; cbn in Hb.
  - by destruct (Tick id _) as [s [err|]].
  - by destruct (Deliver id m _) as [s [err|]].
  - by destruct (Drain id _) as [s [err|out]].
  - by split.
  - done.
Qed.

Lemma StepChecked_host fuel e f :
  twin bridged local_ ids e f -> sameEnd (StepChecked Intn Int63n sha256 fuel e) (countedStep fuel f).
Proof.
  intros He. unfold StepChecked, countedStep.
  pose proof (Step_twin bridged local_ Intn Int63n sha256 ids fuel e f He) as Hs.
  pose proof (Step_panics Intn Int63n sha256 (heapQueue Message) fuel e) as Hp.
  destruct (Step _ _ _ _ fuel e) as [e1|[p e1]|], (Step _ _ _ _ fuel f) as [f1|[p' f1]|]; try done.
  2: { destruct Hs as [Ep Ht]. cbn in Ep, Ht. subst p'. apply failure_host; [done|by apply Hp]. }
  destruct Hs as ([x k] & -> & [Hb Hn] & Hids & Hh & Hg). cbn [cluster over fst snd] in *. unfold Check.
  change (ask _ _ _ _) with (askOf Adapterproto.Check).
  destruct (exchange_host Adapterproto.Check _ x k Hb) as (s' & r & -> & Hr).
  { cbn. intros x' r' [= <- <-]. split; [|split; [|done]]; destruct (failing invs x) as [v|] eqn:Hv; try done.
    destruct (failing_named x v HR Hv) as (? & ? & _). done. }
  unfold call1 in *. destruct (k =? 0); [by destruct Hr as [err ->]|]. cbn [mbind option_bind perform] in Hr |- *.
  destruct Hr as [-> Hs]. cbn zeta. rewrite CheckInvariants_lifted. cbn [cluster fst].
  change (cluster (over (x, k) e1 <| cluster := (x, w64 (k + 1)) |>)).1 with x.
  assert (twin bridged local_ ids (setSession s' e1) (over (x, k) e1 <| cluster := (x, w64 (k + 1)) |>)) as Ht.
  { exists (x, w64 (k + 1)). split; [done|]. split; [by split|]. split; [exact Hids|]. by split. }
  destruct (failing invs x) as [v|] eqn:Hv; cbn [Adapterproto.p_Violation Adapterproto.responseOf fmap option_fmap option_map]; [|done].
  destruct (failing_named x v HR Hv) as (_ & _ & Hin).
  rewrite bool_decide_true; [by split|]. rewrite (ho_invariants _ _ _ Hs). by apply elem_of_list_to_set.
Qed.

Lemma RunChecked_host fuel steps : forall e f,
  twin bridged local_ ids e f -> sameEnd (RunChecked Intn Int63n sha256 fuel steps e) (countedRun fuel steps f).
Proof.
  induction steps as [|steps IH]; intros e f He; cbn [RunChecked countedRun]; [done|].
  pose proof (StepChecked_host fuel e f He) as Hs.
  destruct (StepChecked _ _ _ fuel e) as [e1|e1 v|e1 err|e1|], (countedStep fuel f) as [[f1 [v'|]]|[[op|] f1]|]; try done.
  by apply IH.
Qed.

(** Opening a session on such a child. *)
Lemma Open_host t x seed :
  holds t x -> Nodes x = ids -> ids <> [] -> NoDup ids -> NoDup (inv_Name <$> invs) ->
  exists s, Open (Some t) seed = (Some s, None) /\ hosting s x 2 /\ nodes s = ids /\ invariants s = inv_Name <$> invs.
Proof.
  intros Ht Hx Hn Hd Hi. unfold Open. set (s0 := mkSession t _ _ _ _ _ _).
  change (ask _ _ _ _) with (askOf (Adapterproto.Hello seed)).
  destruct (exchange_child (Adapterproto.Hello seed) s0 x Ht eq_refl ltac:(done)) as (t' & y & -> & Hy).
  { cbn. intros x' r [= <- <-]. split; [|done]. split; [done|]. split; [done|]. split; [done|]. apply Forall_fmap.
    eapply Forall_impl; [exact (rm_names (Remotable := HR))|]. by intros i [? _]. }
  cbn [perform] in Hy. destruct Hy as [-> Ht']. cbn [Adapterproto.p_Hello Adapterproto.responseOf].
  eexists. split; [reflexivity|]. split; [|done]. by split.
Qed.

End hosted.

(** C11 A protocol in a child process.  Let the child answer every request with
    what the call does to some cluster.  Then a session is opened with the nodes
    and invariants of the cluster, and a checked run of the runner, with any
    generator, loss, delay and faults, is the run of the engine over the cluster
    itself, with as many calls as there are 64-bit request identifiers: the same
    time, draws, messages in flight and trace, and the same violation.  The runner
    reports a failed call exactly where the cluster panics or the identifiers run
    out, with that call, time and trace, and passes on exactly the panic of the
    engine itself at a delay without a bound. *)
Theorem remote_run {C} {IC : Cluster C Message} ids invs {R} (Intn Int63n : Z -> R -> Z * R) sha256
    {T} `{!Transport T} (holds : T -> C -> Prop) `{!Hosts ids invs holds} `{!Remotable invs}
    (t : T) (x : C) seed r dropPermille maxDelay faults fuel steps :
  holds t x -> Nodes x = ids -> ids <> [] -> NoDup ids -> NoDup (inv_Name <$> invs) ->
  exists s e,
    Open (Some t) seed = (Some s, None) /\ NewRunner r dropPermille maxDelay (Some s) = inr e /\
    nodes s = ids /\ invariants s = inv_Name <$> invs /\
    sameEnd ids invs holds
      (RunChecked Intn Int63n sha256 fuel steps (Inject faults e))
      (countedRun invs Intn Int63n sha256 fuel steps (Inject faults (New r dropPermille maxDelay (x, 2)))).
Proof.
  intros Ht Hx Hn Hd Hi. destruct (Open_host ids invs holds t x seed Ht Hx Hn Hd Hi) as (s & Ho & Hs & Hns & Hiv).
  exists s. eexists. split; [done|]. split; [unfold NewRunner; by rewrite (ho_open _ _ _ _ _ _ Hs)|]. split; [done|].
  split; [done|]. apply (RunChecked_host ids invs Intn Int63n sha256 holds). exists (x, 2). split; [done|]. split; [by split; cbn; rewrite ?Hns|].
  split; [done|]. split; [apply heap_nil|constructor].
Qed.

(** The captured error output.  However the output of the child is cut into
    writes, the buffer holds its beginning up to the limit, every write reports all
    its bytes as written, and the notice is appended exactly if something was left
    out. *)
Theorem captured_output (writes : list bytes) (size : Z) :
  0 <= size ->
  let b := foldl (fun b data => (Write data b).1) (mkBuffer [] size false) writes in
  let out := concat writes in
  buffer b = take (Z.to_nat size) out /\ len (buffer b) <= size /\
  String_ b = take (Z.to_nat size) out ++ (if size <? len out then notice else []) /\
  forall data, (Write data b).2 = len data.
Proof.
  intros Hs. cbn zeta. set (b := foldl _ _ _).
  assert (buffer b = take (Z.to_nat size) (concat writes) /\ limit b = size /\ truncated b = (size <? len (concat writes))) as (Hb & Hl & Ht).
  { subst b. induction writes as [|data writes IH] using rev_ind.
    - cbn. rewrite take_nil. split; [done|]. split; [done|]. symmetry. by apply Z.ltb_ge.
    - rewrite foldl_app. cbn [foldl]. destruct IH as (Hb & Hl & Ht). set (b := foldl _ _ writes) in *.
      rewrite concat_app. cbn [concat]. rewrite app_nil_r. set (out := concat writes) in *. unfold Write, len in *.
      rewrite Hl, Hb, length_take, length_app in *. rewrite Ht.
      destruct (Z.leb_spec (size - Z.of_nat (Z.to_nat size `min` length out)) 0) as [H1|H1]; cbn [fst buffer limit truncated].
      + rewrite take_app_le by lia. split; [done|]. split; [done|].
        destruct (Z.eqb_spec (Z.of_nat (length data)) 0), (Z.ltb_spec size (Z.of_nat (length out)));
          cbn; symmetry; apply Z.ltb_lt || apply Z.ltb_ge; lia.
      + rewrite (take_ge out) by lia. rewrite take_app_ge by lia.
        destruct (Z.ltb_spec (size - Z.of_nat (Z.to_nat size `min` length out)) (Z.of_nat (length data))); cbn [fst buffer limit truncated].
        * split; [f_equal; f_equal; lia|]. split; [done|]. symmetry. apply Z.ltb_lt. lia.
        * split; [by rewrite (take_ge data) by lia|]. split; [done|].
          destruct (Z.ltb_spec size (Z.of_nat (length out))); [lia|]. symmetry. apply Z.ltb_ge. lia. }
  split; [done|]. split; [rewrite Hb; unfold len; rewrite length_take; lia|]. split.
  - unfold String_. rewrite Hb, Ht. destruct (size <? _); [done|]. by rewrite app_nil_r.
  - intros data. unfold Write. by repeat case_match.
Qed.

(** ** A child in the model, and a small protocol *)

Section child.
Context {C : Type} {IC : Cluster C Message} (ids : list Z) (invs : list (Invariant (C := C))).

Definition callOf (q : Request) : Adapterproto.call :=
  match Adapterproto.q_Hello q, Adapterproto.q_Message q, Adapterproto.q_Node q with
  | Some h, _, _ => Adapterproto.Hello (Adapterproto.Seed h)
  | None, Some m, _ => Adapterproto.Deliver m
  | None, None, Some node =>
      if Adapterproto.isOp (Adapterproto.q_Op q) Adapterproto.OpTick then Adapterproto.Tick node else Adapterproto.Drain node
  | None, None, None =>
      if Adapterproto.isOp (Adapterproto.q_Op q) Adapterproto.OpCheck then Adapterproto.Check else Adapterproto.Close
  end.

Lemma callOf_request id c : callOf (Adapterproto.requestOf id c) = c.
Proof. by destruct c. Qed.

(** The cluster, and the response that waits in the pipe. *)
#[export] Instance child : Transport (C * option Response) := {
  send := fun q t =>
    match perform ids invs (callOf q) t.1 with
    | Some (x, r) => ((x, Some (Adapterproto.responseOf (Adapterproto.q_ID q) (callOf q) r)), None)
    | None => ((t.1, Some (Adapterproto.responseOf (Adapterproto.q_ID q) (callOf q) (Adapterproto.Failed "panic" "panic"))), None)
    end;
  receive := fun t =>
    ((t.1, None), match t.2 with Some p => inr p | None => inl "EOF"%string end)
}.

Definition inChild (t : C * option Response) (x : C) : Prop := t.1 = x.

#[export] Instance child_hosts : Hosts ids invs inChild.
Proof.
  intros id c t x Hid <-. cbn. rewrite callOf_request. destruct (perform ids invs c t.1) as [[x' r]|].
  - eexists _, _, _. split; [reflexivity|]. split; [reflexivity|]. by split.
  - eexists _, _, _. split; [reflexivity|]. split; [reflexivity|]. by exists "panic"%string, "panic"%string.
Qed.

End child.

Module Demo.

(** Two nodes that send each other a message at every tick; the invariant says
    that at most four arrive. *)
Definition ping : Type := list Message * Z.

#[global] Instance pings : Cluster ping Message := {
  Engine.Nodes := fun _ => [1; 2];
  c_Tick := fun id x => Some (x.1 ++ [Adapterproto.mkMessage id (if id =? 1 then 2 else 1) 1 0 []], x.2);
  c_Deliver := fun id m x => Some (x.1, x.2 + 1);
  c_Drain := fun id x => Some ((filter (fun m => Adapterproto.From m <> id) x.1, x.2),
                               filter (fun m => Adapterproto.From m = id /\ Adapterproto.To m ∈ [1; 2]) x.1);
  Route := fun m => (Adapterproto.From m, Adapterproto.To m);
  Digest := fun m => (Adapterproto.Kind m, Adapterproto.Value m)
}.

Definition few : list (Invariant (C := ping)) :=
  [mkInvariant "few" (fun x => if 4 <? x.2 then Some "too many"%string else None)].

#[global] Instance pings_remotable : Remotable few.
Proof.
  split; try done.
  - intros x id x' out [= _ <-]. split; [done|]. apply Forall_forall. by intros m [[? ?] _]%list_elem_of_filter.
  - apply Forall_singleton. split; [done|]. intros x e. cbn. destruct (4 <? x.2); [|done]. by intros [= <-].
Qed.

Definition draw (n : Z) (r : Z) : Z * Z := (r mod n, r + 1).
Definition hash (b : bytes) : bytes := take 32 b.

Lemma remote_run_witness :
  exists s e, Open (Transport0 := child [1; 2] few) (Some (([], 0), None)) 7 = (Some s, None) /\
    NewRunner 0 0 0 (Some s) = inr e /\
    exists e' v f, RunChecked (Transport0 := child [1; 2] few) draw draw hash 100 9 (Inject [] e) = Found e' v /\ v_Step v = 3 /\
      countedRun few draw draw hash 100 9 (Inject [] (New 0 0 0 (([], 0), 2))) = Ret (f, Some v).
Proof.
  destruct (remote_run (IC := pings) (Transport0 := child [1; 2] few) (Hosts0 := child_hosts [1; 2] few) [1; 2] few draw draw hash (inChild (C := ping)) (([], 0), None) ([], 0) 7 0 0 0 [] 100 9)
    as (s & e & Ho & He & _ & _ & Hsame); [reflexivity|reflexivity|discriminate| |apply NoDup_singleton|].
  { refine (bool_decide_eq_true_1 (NoDup [1; 2]) _). vm_compute. reflexivity. }
  exists s, e. split; [exact Ho|]. split; [exact He|].
  assert (match countedRun few draw draw hash 100 9 (Inject [] (New 0 0 0 (([], 0), 2))) with
          | Ret (f, Some v) => v_Step v = 3
          | _ => False
          end) as H1 by (vm_compute; reflexivity).
  destruct (countedRun few draw draw hash 100 9 _) as [[f [v'|]]| |] eqn:E; try contradiction.
  destruct (RunChecked _ _ _ 100 9 _) as [e1|e1 v|e1 err|e1|]; try contradiction. destruct Hsame as [_ ->].
  exists e1, v', f. split; [reflexivity|]. split; [exact H1|reflexivity].
Defined.

(** Nine bytes in three writes, of which five are kept. *)
Lemma captured_output_witness :
  String_ (foldl (fun b data => (Write data b).1) (mkBuffer [] 5 false) [[1; 2; 3]; [4; 5; 6]; [7; 8; 9]]) =
    [1; 2; 3; 4; 5] ++ notice.
Proof.
  destruct (captured_output [[1; 2; 3]; [4; 5; 6]; [7; 8; 9]] 5) as (_ & _ & H & _); [lia|]. exact H.
Defined.

(** A session on the two nodes: what it is asked of node 3 is not sent. *)
Lemma adapter_session_witness :
  exists s calls,
    Open (T := (ping * option Response) * list Request) (Transport0 := recorder (Transport0 := child [1; 2] few))
      (Some ((([], 0), None), [])) 7 = (Some s, None) /\
    (streams (foldl (execute (Transport0 := child [1; 2] few)) s [OTick 1; OTick 3; ODrain 1; OClose; OCheck])).2 =
      numbered (Adapterproto.Hello 7 :: calls) /\
    Forall (within [1; 2]) calls /\ length calls = 3%nat.
Proof.
  destruct (Open (T := (ping * option Response) * list Request) (Transport0 := recorder (Transport0 := child [1; 2] few))
      (Some ((([], 0), None), [])) 7) as [[s|] [err|]] eqn:E; try (vm_compute in E; discriminate E).
  destruct (adapter_session (Transport0 := child [1; 2] few) (([], 0), None) 7 s
    [OTick 1; OTick 3; ODrain 1; OClose; OCheck] E) as (calls & H1 & _ & H2 & _).
  exists s, calls. vm_compute in E. injection E as <-. split; [reflexivity|]. split; [exact H1|]. split; [exact H2|].
  apply (f_equal length) in H1. unfold numbered in H1. rewrite length_imap in H1. vm_compute in H1. by injection H1.
Defined.

End Demo.
End Adapterhost.
