(* ===== verification/AdapterProcess.v ===== *)
(** * External adapter processes

    [StartProcess] and [Close] of [internal/adapterhost/process.go]: the child is
    started with its pipes, greeted through a session, and closed once.  What the
    operating system answers is a record of the outcome of each call; the calls
    that were made are kept in order.

    Result: a child that was started is waited for exactly once, also when the
    greeting fails, and its standard input is always closed. *)

From S2P Require Import Prelude Bytes GoStrings AdapterProto AdapterHost.

Module Process.

(** The calls that create or release something of the operating system. *)
Inductive event := StdinPipe | StdoutPipe | Start | StdinClose | Kill | Wait.
#[export] Instance event_eq_dec : EqDecision event.
Proof. solve_decision. Defined.

(** The outcome of the calls, and what the child has printed on its standard
    error by the time it has been waited for. *)
Record system := mkSystem {
  stdinErr : option error; stdoutErr : option error; startErr : option error;
  stdinCloseErr : option error; waitErr : option error; stderr : Adapterhost.boundedBuffer
}.

(** Errors, with the errors that were joined. *)
Inductive failure :=
| NoContext
| NoCommand
| NoStdin (e : error)
| NoStdout (e : error)
| NotStarted (e : error)
| Session (e : Adapterhost.hostError)
| System (e : error)
| Report (prefix : string) (errs : list failure) (stderr : option bytes).

(** [processError]. *)
Definition processError (prefix : string) (errs : list failure) (text : bytes) : failure :=
  let text := TrimSpace text in
  Report prefix errs (if bool_decide (text = []) then None else Some text).

Definition fromOption {A} (f : A -> failure) (e : option A) : list failure := if e is Some e then [f e] else [].

Section process.
Context {T : Type} `{!Adapterhost.Transport T}.

(** [closed] is the error of [Close] once it has run. *)
Record Process := mkProcess { session : Adapterhost.Session (T := T); closed : option (list failure) }.

Definition StartProcess (ctx : bool) (command : string) (sys : system) (pipes : T) (seed : Z) :
    list event * (failure + Process) :=
  if negb ctx then ([], inl NoContext)
  else if bool_decide (TrimSpace (bytesOf command) = []) then ([], inl NoCommand)
  else
    match stdinErr sys with
    | Some e => ([StdinPipe], inl (NoStdin e))
    | None =>
        match stdoutErr sys with
        | Some e => ([StdinPipe; StdoutPipe; StdinClose], inl (NoStdout e))
        | None =>
            match startErr sys with
            | Some e => ([StdinPipe; StdoutPipe; Start; StdinClose], inl (NotStarted e))
            | None =>
                match Adapterhost.Open (Some pipes) seed with
                | (Some s, None) => ([StdinPipe; StdoutPipe; Start], inr (mkProcess s None))
                | (_, err) =>
                    ([StdinPipe; StdoutPipe; Start; StdinClose; Kill; Wait],
                     inl (processError "adapter host: process handshake"
                            (fromOption Session err ++ fromOption System (waitErr sys)) (Adapterhost.String_ (stderr sys))))
                end
            end
        end
    end.

(** [Close]; [closeOnce] keeps the first result for the later calls. *)
Definition Close (sys : system) (p : Process) : list event * Process * list failure :=
  match closed p with
  | Some errs => ([], p, errs)
  | None =>
      let (s, sessionErr) := Adapterhost.Close (session p) in
      let wait := fromOption (fun e => processError "adapter host: process wait" [System e] (Adapterhost.String_ (stderr sys))) (waitErr sys) in
      let errs := fromOption Session sessionErr ++ fromOption System (stdinCloseErr sys) ++ wait in
      ([StdinClose; Wait], mkProcess s (Some errs), errs)
  end.

(** Any number of calls of [Close]: the events and the results. *)
Fixpoint closes (n : nat) (sys : system) (p : Process) : list event * list (list failure) :=
  match n with
  | O => ([], [])
  | S n =>
      let '(ev, p, errs) := Close sys p in
      let '(evs, all) := closes n sys p in (ev ++ evs, errs :: all)
  end.

(** How often a call was made. *)
Definition times (e : event) (l : list event) : nat := length (filter (fun x => x = e) l).

Lemma closes_again n sys p errs : closed p = Some errs -> closes n sys p = ([], replicate n errs).
Proof. intros Hc. induction n as [|n IH]; cbn [closes]; [done|]. unfold Close. by rewrite Hc, IH. Qed.

(** A session is opened without an error or not at all. *)
Lemma Open_ok t seed s err : Adapterhost.Open (Some t) seed = (Some s, err) -> err = None.
Proof.
  unfold Adapterhost.Open. destruct (Adapterhost.exchange _ _) as [s1 [e|r]]; [done|]. by destruct (Adapterproto.p_Hello r); intros [= _ <-].
Qed.

End process.

(** The life of an adapter process.  When it is not returned, because a pipe,
    the start or the greeting failed, a child that was started was killed and waited
    for once, and the standard input is closed if there was one.  When it is
    returned, closing it any number of times closes the standard input and waits
    for the child exactly once, and all the calls return what the first one found:
    an error exactly if the session, the standard input or the child reported one. *)
Theorem process_life {T} `{!Adapterhost.Transport T} ctx command sys (pipes : T) seed n :
  let '(events, r) := StartProcess ctx command sys pipes seed in
  match r with
  | inl _ =>
      (times StdinClose events = times StdoutPipe events) /\
      (Start ∈ events -> startErr sys = None -> times Kill events = 1%nat /\ times Wait events = 1%nat) /\
      (startErr sys <> None -> times Kill events = 0%nat /\ times Wait events = 0%nat)
  | inr p =>
      times Start events = 1%nat /\ times Kill events = 0%nat /\
      exists errs, closes (S n) sys p = ([StdinClose; Wait], replicate (S n) errs) /\
        (errs = [] <-> (Adapterhost.Close (session p)).2 = None /\ stdinCloseErr sys = None /\ waitErr sys = None)
  end.
Proof.
  unfold StartProcess. destruct ctx; cbn [negb]; [|split; [done|]; split; [by intros ?%elem_of_nil|done]].
  destruct (bool_decide _); [split; [done|]; split; [by intros ?%elem_of_nil|done]|].
  destruct (stdinErr sys); [split; [done|]; split; [|done]; intros [|Hs]%elem_of_cons; [done|by apply elem_of_nil in Hs]|].
  destruct (stdoutErr sys); [split; [done|]; split; [|done]; intros Hs; exfalso; revert Hs; by apply (bool_decide_eq_false_1 (Start ∈ _))|].
  destruct (startErr sys) eqn:Es; [by repeat split|].
  destruct (Adapterhost.Open (Some pipes) seed) as [[s|] err] eqn:EO; [|by repeat split].
  rewrite (Open_ok _ _ _ _ EO). split; [done|]. split; [done|]. cbn [closes Close closed session].
  destruct (Adapterhost.Close s) as [s' e1]. eexists. split; [by erewrite closes_again by done|].
  destruct e1, (stdinCloseErr sys), (waitErr sys); cbn; naive_solver.
Qed.

End Process.
