(* ===== verification/Sim.v ===== *)
(** * The Raft simulator

    [sim/sim.go], [sim/crash.go], [sim/invariants.go] and [sim/store.go]: the
    single-purpose simulator, with its own queue, trace and safety check.
    Result: it and the generic engine of [dst] over the cluster of
    [dst/raftcluster] run in lockstep, down to the trace, and their safety checks
    accept the same clusters. *)

From stdpp Require Import sorting.
From S2P Require Import Prelude Bytes Wal RaftTypes RaftNode RaftWal EventHeap Engine RaftCluster.

Module Sim.

(** ** sim/sim.go

    The maps [Nodes], [stores] and [disks] are kept in the record that holds them
    for [dst/raftcluster], and [stableStore] is its store, which [sim/store.go]
    repeats.  The simulator has no list of node numbers: it counts to the size of
    the map, and the list [ids] of that record plays no part. *)

Abbreviation Nodes := RaftCluster.Cluster.

Record scheduled := mkScheduled { at_ : Z; seq : Z; msg : Message }.

Definition nodeIds (c : Nodes) : list Z := RaftCluster.allIds (size (RaftCluster.nodes c)).

Section simulator.
Context {R : Type} (Intn Int63n : Z -> R -> Z * R) (sha256 : bytes -> bytes).

Record Simulator := mkSimulator {
  s_Now : Z;
  s_Nodes : Nodes;
  s_rng : R;
  s_drop : Z;
  s_delay : Z;
  s_seq : Z;
  s_queue : list scheduled;
  s_trace : bytes
}.

#[global] Instance eta_Simulator : Eta Simulator := fun s =>
  mkSimulator (s_Now s) (s_Nodes s) (s_rng s) (s_drop s) (s_delay s) (s_seq s) (s_queue s) (s_trace s).

(** [8+uint64(i*2)] with [i] an [int]. *)
Definition electionTicks (i : nat) : Z := w64 (8 + w64 (Z.of_nat i * 2)).

(** The body of the loop of [New]. *)
Definition addNode (count i : nat) (c : Nodes) : option Nodes :=
  let id := w32 (Z.of_nat i) in
  let peers := (fun j => w32 (Z.of_nat j)) <$> filter (fun j => j <> i) (List.seq 1 count) in
  match NewNodeWithStore id peers (electionTicks i) RaftCluster.newStore with
  | inr n => Some (RaftCluster.mkCluster (RaftCluster.ids c ++ [id]) (<[id := n]> (RaftCluster.nodes c)) ∅)
  | inl _ => None
  end.

(** [New]: the nodes, where [None] is a panic, and the simulator around them. *)
Definition NewNodes (count : nat) : option Nodes :=
  if (count <? 1)%nat then None else
  foldl (fun acc i => c ← acc; addNode count i c) (Some (RaftCluster.mkCluster [] ∅ ∅)) (List.seq 1 count).

Definition New (r : R) (dropPermille maxDelay : Z) (c : Nodes) : Simulator :=
  mkSimulator 0 c r dropPermille maxDelay 0 [] (replicate 32 0).

Definition delayBound (s : Simulator) : Z :=
  let z := w64 (s_delay s + 1) in if z <? 2 ^ 63 then z else z - 2 ^ 64.

(** The last sequence number is a bound of the model. *)
Definition schedule (m : Message) (d : Z) (s : Simulator) : run () Simulator :=
  if s_seq s =? maxu64 then Limit else
  let s := s <| s_seq := s_seq s + 1 |> in
  Ret (s <| s_queue := s_queue s ++ [mkScheduled (w64 (s_Now s + d)) (s_seq s) m] |>).

Definition collectMsg (m : Message) (s : Simulator) : run () Simulator :=
  let (lost, s) :=
    if 0 <? s_drop s then let (x, r) := Intn 1000 (s_rng s) in (x <? s_drop s, s <| s_rng := r |>)
    else (false, s) in
  if lost : bool then Ret s
  else if 0 <? s_delay s then
    if delayBound s <=? 0 then Panic () else
    let (x, r) := Int63n (delayBound s) (s_rng s) in schedule m (w64 x) (s <| s_rng := r |>)
  else schedule m 0 s.

Definition collectNode (id : Z) (s : Simulator) : run () Simulator :=
  match RaftCluster.Drain id (s_Nodes s) with
  | Some (c, scratch) => each collectMsg scratch (s <| s_Nodes := c |>)
  | None => Panic ()
  end.

Definition collect (s : Simulator) : run () Simulator := each collectNode (nodeIds (s_Nodes s)) s.

(** The scan for the earliest message that is due; [best] carries the element it
    points at. *)
Fixpoint nextReadyLoop (now : Z) (q : list scheduled) (i : nat) (best : option (nat * scheduled)) :
    option (nat * scheduled) :=
  match q with
  | [] => best
  | x :: q =>
      nextReadyLoop now q (S i)
        (if now <? at_ x then best
         else match best with
              | None => Some (i, x)
              | Some (_, b) =>
                  if (at_ x <? at_ b) || ((at_ x =? at_ b) && (seq x <? seq b)) then Some (i, x) else best
              end)
  end.

Definition nextReady (s : Simulator) : option (nat * scheduled) := nextReadyLoop (s_Now s) (s_queue s) 0 None.

Definition record (e : scheduled) (s : Simulator) : Simulator :=
  let m := msg e in
  let b := le 8 (s_Now s) ++ le 8 (seq e) ++ le 4 (m_From m) ++ le 4 (m_To m) ++
           le 1 (w8 (m_Type m)) ++ le 8 (m_Term m) ++ s_trace s in
  s <| s_trace := sha256 b |>.

Definition onNodes (o : option Nodes) (s : Simulator) : run () Simulator :=
  match o with Some c => Ret (s <| s_Nodes := c |>) | None => Panic () end.

Fixpoint deliver (fuel : nat) (s : Simulator) : run () Simulator :=
  match nextReady s with
  | None => Ret s
  | Some (idx, ev) =>
      match fuel with
      | O => Limit
      | S fuel =>
          let s := record ev (s <| s_queue := take idx (s_queue s) ++ drop (S idx) (s_queue s) |>) in
          s ← onNodes (RaftCluster.Deliver (m_To (msg ev)) (msg ev) (s_Nodes s)) s;
          s ← collect s;
          deliver fuel s
      end
  end.

Definition Step (fuel : nat) (s : Simulator) : run () Simulator :=
  let s := s <| s_Now := w64 (s_Now s + 1) |> in
  s ← each (fun id s => onNodes (RaftCluster.Tick id (s_Nodes s)) s) (nodeIds (s_Nodes s)) s;
  s ← collect s;
  deliver fuel s.

Fixpoint Run (fuel steps : nat) (s : Simulator) : run () Simulator :=
  match steps with O => Ret s | S steps => s ← Step fuel s; Run fuel steps s end.

(** [Propose], [ProposeJoint] and [ProposeFinal]: the messages are collected only
    if a node accepted. *)
Definition propose (op : MN RaftCluster.stableStore bool) (s : Simulator) : run () (Simulator * bool) :=
  match RaftCluster.tryNodes op (nodeIds (s_Nodes s)) (s_Nodes s) with
  | None => Panic ()
  | Some (c, ok) =>
      let s := s <| s_Nodes := c |> in
      if ok : bool then s ← collect s; Ret (s, true) else Ret (s, false)
  end.

Definition Propose (command : Z) : Simulator -> run () (Simulator * bool) := propose (RaftNode.Propose command).
Definition ProposeJoint (voters : list Z) : Simulator -> run () (Simulator * bool) := propose (RaftNode.ProposeJoint voters).
Definition ProposeFinal : Simulator -> run () (Simulator * bool) := propose RaftNode.ProposeFinal.

Definition Compact (id : Z) (state : list Z) (s : Simulator) : run () (Simulator * bool) :=
  match RaftCluster.nodes (s_Nodes s) !! id with
  | None => Ret (s, false)
  | Some n =>
      if n_Applied n <=? n_BaseIndex n then Ret (s, false) else
      match RaftCluster.onNode (RaftNode.Compact (n_Applied n) state) id (s_Nodes s) with
      | Some (c, ok) => Ret (s <| s_Nodes := c |>, ok)
      | None => Panic ()
      end
  end.

Definition Leader (s : Simulator) : Z :=
  match find (fun id => bool_decide (n_State <$> RaftCluster.nodes (s_Nodes s) !! id = Some RaftTypes.Leader))
          (nodeIds (s_Nodes s)) with
  | Some id => id
  | None => 0
  end.

(** ** sim/crash.go *)

Definition ErrUnknown : error := "sim: unknown node".
Definition ErrMismatch : error := "sim: snapshot/WAL base mismatch".

(** [CrashRestart]: the node is rebuilt from its write-ahead log, and then the
    messages in flight from and to it are lost. *)
Definition CrashRestart (id : Z) (s : Simulator) : run () (Simulator * option error) :=
  let c := s_Nodes s in
  match RaftCluster.nodes c !! id with
  | None => Ret (s, Some ErrUnknown)
  | Some n =>
      let old := RaftCluster.storeOf id n c in
      match MemoryDevice.Crash 0 (RaftCluster.disk old) with
      | inl e => Ret (s, Some e)
      | inr rebooted =>
          match RaftWal.Open rebooted with
          | inl e => Ret (s, Some e)
          | inr w =>
              let '(hard, base, entries) := RaftWal.StateWithBase w in
              let stable := RaftCluster.mkStable w (RaftCluster.snapshot old) in
              let snap := RaftCluster.snapshot stable in
              let timeout := w64 (8 + w32 (id * 2)) in
              let install r :=
                match r with
                | Done () n' =>
                    let c := RaftCluster.mkCluster (RaftCluster.ids c) (<[id := n']> (RaftCluster.nodes c))
                               (delete id (RaftCluster.stale c)) in
                    let kept := filter (fun e => m_From (msg e) <> id /\ m_To (msg e) <> id) (s_queue s) in
                    Ret (s <| s_Nodes := c |> <| s_queue := kept |>, None)
                | Panicked _ => Panic ()
                end in
              if negb (base =? 0) then
                if negb (s_LastIndex snap =? base)
                then Ret (s <| s_Nodes := RaftCluster.mkCluster (RaftCluster.ids c) (RaftCluster.nodes c)
                                            (<[id := stable]> (RaftCluster.stale c)) |>, Some ErrMismatch)
                else install (NewRecoveredNodeWithSnapshot id (n_Peers n) timeout stable hard snap (drop 1 entries))
              else install (NewRecoveredNode id (n_Peers n) timeout stable hard entries)
          end
      end
  end.

End simulator.
Arguments Simulator : clear implicits.

(** ** sim/invariants.go

    A range over the map [Nodes] takes some order, which is a parameter: [order]
    for the first loop, [outer] and [inner] for the two nested ones. *)

Fixpoint safetyLoop (c : Nodes) (l : list Z) (leaders : gmap Z Z) : option error :=
  match l with
  | [] => None
  | id :: l =>
      match RaftCluster.nodes c !! id with
      | None => Some RaftCluster.ErrNil
      | Some n =>
          let '(clash, leaders) :=
            if bool_decide (n_State n = RaftTypes.Leader) then
              match leaders !! n_Term n with
              | Some prior => (negb (prior =? id), <[n_Term n := id]> leaders)
              | None => (false, <[n_Term n := id]> leaders)
              end
            else (false, leaders) in
          if clash : bool then Some RaftCluster.ErrTwoLeaders
          else if RaftCluster.badIndexes n then Some RaftCluster.ErrIndexes
          else safetyLoop c l leaders
      end
  end.

Fixpoint innerLoop (c : Nodes) (a : Z) (na : RaftCluster.node) (l : list Z) : option error :=
  match l with
  | [] => None
  | b :: l =>
      if b <=? a then innerLoop c a na l else
      match RaftCluster.nodes c !! b with
      | None => Some RaftCluster.ErrNil
      | Some nb => match RaftCluster.pairCheck na nb with Some e => Some e | None => innerLoop c a na l end
      end
  end.

Fixpoint outerLoop (c : Nodes) (inner : Z -> list Z) (l : list Z) : option error :=
  match l with
  | [] => None
  | a :: l =>
      match RaftCluster.nodes c !! a with
      | None => Some RaftCluster.ErrNil
      | Some na => match innerLoop c a na (inner a) with Some e => Some e | None => outerLoop c inner l end
      end
  end.

Definition CheckSafety (order : list Z) (outer : list Z) (inner : Z -> list Z) (c : Nodes) : option error :=
  match safetyLoop c order ∅ with Some e => Some e | None => outerLoop c inner outer end.

(** ** The simulator against the engine *)

(** A message of the simulator's queue as an event of the engine's. *)
Definition toEvent (x : scheduled) : event Message :=
  mkEvent (at_ x) (seq x) (m_From (msg x)) (m_To (msg x)) (msg x).

Lemma toEvent_inj x y : toEvent x = toEvent y -> x = y.
Proof. destruct x, y. unfold toEvent. cbn. by intros [= -> -> _ _ ->]. Qed.

(** The best candidate seen so far in the queue. *)
Definition candidate (now : Z) (q : list scheduled) (best : option (nat * scheduled)) : Prop :=
  match best with
  | None => Forall (fun y => now < at_ y) q
  | Some (i, x) => q !! i = Some x /\ at_ x <= now /\
      Forall (fun y => at_ y <= now -> earlier (toEvent y) (toEvent x) = false) q
  end.

Lemma nextReadyLoop_spec now q : forall done best,
  candidate now done best -> candidate now (done ++ q) (nextReadyLoop now q (length done) best).
Proof.
  induction q as [|x q IH]; intros done best Hb; cbn [nextReadyLoop]; [by rewrite app_nil_r|].
  replace (done ++ x :: q) with ((done ++ [x]) ++ q) by by rewrite <- app_assoc.
  replace (S (length done)) with (length (done ++ [x])) by (rewrite length_app; cbn; lia). apply IH.
  destruct (Z.ltb_spec now (at_ x)) as [Hlt|Hle].
  - destruct best as [[i b]|]; cbn in *; rewrite Forall_app, Forall_singleton; [|done].
    destruct Hb as (H1 & H2 & H3). split; [by apply lookup_app_l_Some|]. split; [done|]. split; [done|lia].
  - destruct best as [[i b]|]; cbn in Hb.
    + destruct Hb as (H1 & H2 & H3).
      change ((at_ x <? at_ b) || ((at_ x =? at_ b) && (seq x <? seq b))) with (earlier (toEvent x) (toEvent b)).
      destruct (earlier (toEvent x) (toEvent b)) eqn:E; cbn; rewrite Forall_app, Forall_singleton.
      * split; [apply list_lookup_middle; lia|]. split; [done|]. split; [|by rewrite earlier_irrefl].
        eapply Forall_impl; [exact H3|]. cbn. intros y Hy Hn.
        eapply not_earlier_trans; [exact (earlier_not _ _ E)|by apply Hy].
      * split; [by apply lookup_app_l_Some|]. auto.
    + cbn. rewrite Forall_app, Forall_singleton. split; [apply list_lookup_middle; lia|]. split; [done|].
      split; [|by rewrite earlier_irrefl]. eapply Forall_impl; [exact Hb|]. cbn. lia.
Qed.

(** Runs that end the same way; a panic may leave anything behind. *)
Abbreviation ends := (agree (fun _ _ => True)).

Section lockstep.
Context {R : Type} (Intn Int63n : Z -> R -> Z * R) (sha256 : bytes -> bytes).
Abbreviation engine := (Engine Nodes Message R).
Abbreviation running := (Engine.running Nodes Message R).
Abbreviation simulator := (Simulator R).

(** The engine that a simulator stands for, up to the order of its queue. *)
Record shadow (s : simulator) (e : engine) : Prop := {
  sh_engine : e = mkEngine (s_Now s) (s_Nodes s) (s_rng s) (s_drop s) (s_delay s) (s_seq s)
                    (queue e) (s_trace s) [] ∅;
  sh_queue : queues (queue e) (toEvent <$> s_queue s) (s_seq s);
  sh_ids : RaftCluster.ids (s_Nodes s) = nodeIds (s_Nodes s)
}.

Lemma schedule_shadow m d s e :
  shadow s e -> ends shadow (schedule m d s) (Engine.schedule (heapQueue Message) m d e).
Proof.
  intros [He Hq Hi]. unfold schedule, Engine.schedule. cbn [Route RaftCluster.cluster].
  unfold blockedBy. rewrite He. cbn. destruct (Z.eqb_spec (s_seq s) maxu64); [done|]. cbn.
  split; [done| |done]. cbn. rewrite fmap_app. cbn.
  pose proof (queues_push _ _ _ (mkEvent (w64 (s_Now s + d)) (s_seq s + 1) (m_From m) (m_To m) m) Hq eq_refl)
    as (H1 & H2 & H3 & H4).
  split; [done|]. split; [|done]. rewrite H2. apply Permutation_cons_append.
Qed.

Lemma rng_shadow r s e : shadow s e -> shadow (s <| s_rng := r |>) (e <| rng := r |>).
Proof. intros [He Hq Hi]. split; [by rewrite He|done|done]. Qed.

Lemma collectMsg_shadow m s e :
  shadow s e -> ends shadow (collectMsg Intn Int63n m s) (Engine.collectMsg Intn Int63n (heapQueue Message) m e).
Proof.
  intros He. unfold collectMsg, Engine.collectMsg, delayMsg. pose proof He as [E _ _].
  assert (drop_ e = s_drop s /\ delay e = s_delay s /\ rng e = s_rng s) as (-> & Hd & ->) by by rewrite E.
  assert (forall s' e', shadow s' e' -> s_delay s' = s_delay s -> delay e' = s_delay s -> ends shadow
    (if 0 <? s_delay s' then if delayBound s' <=? 0 then Panic () else
       let (x, r) := Int63n (delayBound s') (s_rng s') in schedule m (w64 x) (s' <| s_rng := r |>) else schedule m 0 s')
    (delayMsg Int63n (heapQueue Message) m e')) as Hdelay.
  { intros s' e' Hs Hd1 Hd2. unfold delayMsg, delayBound, Engine.delayBound. rewrite Hd1, Hd2.
    assert (rng e' = s_rng s') as -> by by rewrite (sh_engine _ _ Hs).
    destruct (0 <? s_delay s); [|by apply schedule_shadow]. destruct (_ <=? 0); [done|].
    destruct (Int63n _ _) as [x r]. by apply schedule_shadow, rng_shadow. }
  destruct (0 <? s_drop s); [|by apply Hdelay]. destruct (Intn 1000 (s_rng s)) as [x r].
  destruct (x <? s_drop s); [by apply rng_shadow|]. apply Hdelay; [by apply rng_shadow|done|done].
Qed.

(** Replacing nodes keeps their numbers. *)
Lemma onNode_ids {A} (op : MN RaftCluster.stableStore A) id c c' r :
  RaftCluster.onNode op id c = Some (c', r) ->
  RaftCluster.ids c' = RaftCluster.ids c /\ nodeIds c' = nodeIds c.
Proof.
  unfold RaftCluster.onNode. destruct (RaftCluster.nodes c !! id) as [n|] eqn:E; cbn; [|done].
  destruct (_ && _); [|done]. destruct (op n); [|done]. destruct (_ <=? _); [|done]. intros [= <- <-]. cbn. split; [done|].
  unfold nodeIds. cbn. by rewrite map_size_insert_Some by by eexists.
Qed.

Lemma nodes_shadow c s e :
  shadow s e -> RaftCluster.ids c = RaftCluster.ids (s_Nodes s) -> nodeIds c = nodeIds (s_Nodes s) ->
  shadow (s <| s_Nodes := c |>) (e <| cluster := c |>).
Proof. intros [He Hq Hi] H1 H2. split; [by rewrite He|done|]. cbn. congruence. Qed.

Lemma collect_shadow s e :
  shadow s e -> ends shadow (collect Intn Int63n s) (Collect Intn Int63n (heapQueue Message) e).
Proof.
  intros He. unfold collect, Collect. cbn [Engine.Nodes RaftCluster.cluster].
  assert (cluster e = s_Nodes s) as -> by by rewrite (sh_engine _ _ He). rewrite (sh_ids _ _ He).
  apply agree_each; [done|]. clear s e He. intros id s e He. unfold collectNode, Engine.collectNode.
  assert (cluster e = s_Nodes s) as -> by by rewrite (sh_engine _ _ He).
  cbn [c_Drain RaftCluster.cluster]. destruct (RaftCluster.Drain id (s_Nodes s)) as [[c scratch]|] eqn:E; [|done].
  apply onNode_ids in E as [H1 H2]. apply agree_each; [by apply nodes_shadow|].
  intros. by apply collectMsg_shadow.
Qed.

Lemma onNodes_shadow {A} (op : MN RaftCluster.stableStore A) at_ id s e :
  shadow s e -> ends shadow (onNodes (fst <$> RaftCluster.onNode op id (s_Nodes s)) s)
                             (lift at_ (fst <$> RaftCluster.onNode op id (s_Nodes s)) e).
Proof.
  intros He. destruct (RaftCluster.onNode op id (s_Nodes s)) as [[c r]|] eqn:E; [|done].
  apply onNode_ids in E as [H1 H2]. by apply nodes_shadow.
Qed.

(** The message the simulator picks is the one on top of the heap. *)
Lemma nextReady_shadow s e :
  shadow s e ->
  match nextReady s, pop (queue e) with
  | None, None => True
  | None, Some (ev, _) => s_Now s < ev_at ev
  | Some (i, x), Some (ev, q) => ev = toEvent x /\ ev_at ev <= s_Now s /\
      queues q (toEvent <$> (take i (s_queue s) ++ drop (S i) (s_queue s))) (s_seq s)
  | Some _, None => False
  end.
Proof.
  intros [_ (Hh & Hp & Hd & Hs) _]. unfold nextReady.
  pose proof (nextReadyLoop_spec (s_Now s) (s_queue s) [] None ltac:(by constructor)) as Hc. cbn [app length] in Hc.
  pose proof (pop_heap (queue e) Hh) as H. destruct (pop (queue e)) as [[ev q]|].
  - destruct H as (Hhq & Hpq & Hmin). assert (ev ∈ toEvent <$> s_queue s) as Hin.
    { rewrite <- Hp, <- Hpq. apply list_elem_of_here. }
    apply list_elem_of_fmap in Hin as (z & -> & Hz).
    destruct (nextReadyLoop _ _ _ _) as [[i x]|]; cbn in Hc; [|rewrite Forall_forall in Hc; by apply Hc].
    destruct Hc as (Hi & Hx & Hbest). rewrite Forall_forall in Hbest.
    assert (toEvent x ∈ queue e) as Hxq.
    { rewrite Hp. apply list_elem_of_fmap_2. by eapply list_elem_of_lookup_2. }
    pose proof (Hmin _ Hxq) as Hxz.
    assert (at_ z <= s_Now s) as Hzn. { apply earlier_ge in Hxz. cbn in Hxz. lia. }
    pose proof (Hbest z Hz Hzn) as Hzx.
    assert (toEvent z = toEvent x) as E.
    { apply (distinct_eq (queue e)); [done|rewrite Hp; by apply list_elem_of_fmap_2|done|].
      apply earlier_ge in Hxz, Hzx. lia. }
    apply toEvent_inj in E as ->. split; [done|]. split; [done|].
    assert (q ≡ₚ toEvent <$> take i (s_queue s) ++ drop (S i) (s_queue s)) as Hperm.
    { apply (Permutation_cons_inv (a := toEvent x)). rewrite Hpq, Hp.
      rewrite <- (take_drop_middle (s_queue s) i x Hi) at 1. rewrite !fmap_app, fmap_cons.
      by rewrite <- Permutation_middle. }
    split; [done|]. split; [done|]. rewrite <- Hpq in Hs. apply Forall_cons in Hs as [_ Hs].
    split; [|done]. apply (distinct_perm _ (toEvent x :: q)) in Hd; [|done]. by apply NoDup_cons in Hd as [_ Hd].
  - rewrite H in Hp. apply Permutation_nil_l in Hp. destruct (s_queue s); [done|discriminate].
Qed.

Lemma record_shadow x q q' s e :
  shadow s e -> queues q' (toEvent <$> q) (s_seq s) ->
  shadow (record sha256 x (s <| s_queue := q |>)) (Engine.record sha256 (toEvent x) (e <| queue := q' |>)).
Proof. intros [He Hq Hi] Hq'. split; [by rewrite He|done|done]. Qed.

Lemma deliver_shadow fuel : forall s e,
  shadow s e -> ends shadow (deliver Intn Int63n sha256 fuel s)
                             (Engine.deliver Intn Int63n sha256 (heapQueue Message) fuel e).
Proof.
  induction fuel as [|fuel IH]; intros s e He; cbn [deliver Engine.deliver];
    pose proof (nextReady_shadow s e He) as H; cbn [q_pop heapQueue];
    assert (Now e = s_Now s) as HN by (by rewrite (sh_engine _ _ He)); rewrite HN;
    destruct (nextReady s) as [[i x]|], (pop (queue e)) as [[ev q]|]; try done.
  - destruct H as (-> & Hat & _). by rewrite (proj2 (Z.leb_le _ _) Hat).
  - by rewrite (proj2 (Z.leb_gt _ _) H).
  - destruct H as (-> & Hat & Hq). rewrite (proj2 (Z.leb_le _ _) Hat). cbn zeta.
    pose proof (record_shadow x _ _ s e He Hq) as Hrec.
    set (s1 := record sha256 x _) in *. set (e1 := Engine.record sha256 _ _) in *.
    eapply (agree_bind _ shadow); [|intros s2 e2 H2; eapply agree_bind; [by apply collect_shadow|by apply IH]].
    assert (cluster e1 = s_Nodes s1) as -> by (by rewrite (sh_engine _ _ Hrec)).
    cbn [c_Deliver RaftCluster.cluster ev_to ev_msg toEvent]. unfold RaftCluster.Deliver.
    destruct (_ <? _); [by apply onNodes_shadow|done].
  - by rewrite (proj2 (Z.leb_gt _ _) H).
Qed.

Lemma Step_shadow fuel s e :
  shadow s e -> ends shadow (Step Intn Int63n sha256 fuel s)
                             (Engine.Step Intn Int63n sha256 (heapQueue Message) fuel e).
Proof.
  intros He. unfold Step, Engine.Step. cbn zeta. cbn [Engine.Nodes RaftCluster.cluster].
  assert (Now e = s_Now s) as -> by by rewrite (sh_engine _ _ He).
  assert (cluster (e <| Now := w64 (s_Now s + 1) |>) = s_Nodes s) as -> by by rewrite (sh_engine _ _ He).
  rewrite (sh_ids _ _ He). eapply (agree_bind _ shadow); [apply agree_each|].
  - destruct He as [He Hq Hi]. split; [by rewrite He|done|done].
  - intros id s1 e1 H1. assert (cluster e1 = s_Nodes s1) as -> by by rewrite (sh_engine _ _ H1).
    by apply onNodes_shadow.
  - intros s1 e1 H1. eapply agree_bind; [by apply collect_shadow|]. intros. by apply deliver_shadow.
Qed.

Lemma Run_shadow fuel steps : forall s e,
  shadow s e -> ends shadow (Run Intn Int63n sha256 fuel steps s)
                             (Engine.Run Intn Int63n sha256 (heapQueue Message) fuel steps e).
Proof.
  induction steps as [|steps IH]; intros s e He; cbn [Run Engine.Run]; [done|].
  eapply agree_bind; [by apply Step_shadow|]. intros. by apply IH.
Qed.

(** *** The calls of a test

    On the engine's side, what a test does with [raftcluster] for the same effect:
    it collects after an accepted proposal, and isolates a node it restarted.  Both
    apply what a node has committed by calling the node. *)

Inductive request :=
| RunFor (fuel steps : nat)
| Proposal (command : Z)
| Joint (voters : list Z)
| Final
| ApplyAt (id : Z)
| Snap (id : Z) (state : list Z)
| Crash (id : Z).

Definition onSimulator (q : request) (s : simulator) : run () (simulator * bool) :=
  match q with
  | RunFor fuel steps => s ← Run Intn Int63n sha256 fuel steps s; Ret (s, true)
  | Proposal command => Propose Intn Int63n command s
  | Joint voters => ProposeJoint Intn Int63n voters s
  | Final => ProposeFinal Intn Int63n s
  | ApplyAt id => s ← onNodes (fst <$> RaftCluster.onNode RaftNode.Apply id (s_Nodes s)) s; Ret (s, true)
  | Snap id state => Compact id state s
  | Crash id => '(s, err) ← CrashRestart id s; Ret (s, bool_decide (err = None))
  end.

Definition collectIf (o : option (Nodes * bool)) (e : engine) : running (engine * bool) :=
  match o with
  | None => Panic (AtCall, e)
  | Some (c, ok) =>
      let e := e <| cluster := c |> in
      if ok : bool then e ← Collect Intn Int63n (heapQueue Message) e; Ret (e, true) else Ret (e, false)
  end.

Definition onEngine (q : request) (e : engine) : running (engine * bool) :=
  match q with
  | RunFor fuel steps => e ← Engine.Run Intn Int63n sha256 (heapQueue Message) fuel steps e; Ret (e, true)
  | Proposal command => collectIf (RaftCluster.Propose command (cluster e)) e
  | Joint voters => collectIf (RaftCluster.ProposeJoint voters (cluster e)) e
  | Final => collectIf (RaftCluster.ProposeFinal (cluster e)) e
  | ApplyAt id => e ← lift AtCall (fst <$> RaftCluster.onNode RaftNode.Apply id (cluster e)) e; Ret (e, true)
  | Snap id state =>
      match RaftCluster.Compact id state (cluster e) with
      | None => Panic (AtCall, e)
      | Some (c, ok) => Ret (e <| cluster := c |>, ok)
      end
  | Crash id =>
      match RaftCluster.Restart id (cluster e) with
      | None => Panic (AtCall, e)
      | Some (c, Some _) => Ret (e <| cluster := c |>, false)
      | Some (c, None) => Ret ((IsolateNode (heapQueue Message) id (e <| cluster := c |>)).1, true)
      end
  end.

(** One call, and the replies so far. *)
Definition logged {P A} (f : request -> A -> run P (A * bool)) (q : request) (x : A * list bool) : run P (A * list bool) :=
  '(a, b) ← f q x.1; Ret (a, x.2 ++ [b]).

Definition same {B} (x : simulator * B) (y : engine * B) : Prop := shadow x.1 y.1 /\ x.2 = y.2.

Lemma tryNodes_ids op l : forall c c' r,
  RaftCluster.tryNodes op l c = Some (c', r) ->
  RaftCluster.ids c' = RaftCluster.ids c /\ nodeIds c' = nodeIds c.
Proof.
  induction l as [|id l IH]; intros c c' r; cbn [RaftCluster.tryNodes]; [by intros [= <- <-]|].
  destruct (RaftCluster.onNode op id c) as [[c1 ok]|] eqn:E; cbn; [|done]. apply onNode_ids in E as [H1 H2].
  destruct ok; [by intros [= <- <-]|]. intros [H3 H4]%IH. split; congruence.
Qed.

Lemma propose_shadow op s e :
  shadow s e ->
  ends same (propose Intn Int63n op s)
    (collectIf (RaftCluster.tryNodes op (RaftCluster.ids (cluster e)) (cluster e)) e).
Proof.
  intros He. unfold propose, collectIf. assert (cluster e = s_Nodes s) as -> by by rewrite (sh_engine _ _ He).
  rewrite (sh_ids _ _ He). destruct (RaftCluster.tryNodes _ _ _) as [[c ok]|] eqn:E; [|done].
  apply tryNodes_ids in E as [H1 H2]. pose proof (nodes_shadow c s e He H1 H2) as Hc. cbn zeta.
  destruct ok; [|done]. eapply agree_bind; [by apply collect_shadow|]. by intros s1 e1 H.
Qed.

(** [CrashRestart] is [Restart] and then the loss of the node's messages. *)
Lemma CrashRestart_spec id (s : simulator) :
  match RaftCluster.Restart id (s_Nodes s) with
  | None => CrashRestart id s = Panic ()
  | Some (c, Some _) => exists err, CrashRestart id s = Ret (s <| s_Nodes := c |>, Some err)
  | Some (c, None) =>
      CrashRestart id s =
      Ret (s <| s_Nodes := c |>
             <| s_queue := filter (fun e => m_From (msg e) <> id /\ m_To (msg e) <> id) (s_queue s) |>, None)
  end.
Proof.
  unfold CrashRestart, RaftCluster.Restart. cbn zeta. destruct s as [now c r dr dl sq q tr]. cbn [s_Nodes s_queue].
  destruct (RaftCluster.nodes c !! id) as [n|]; [|by eexists].
  destruct (MemoryDevice.Crash _ _) as [err|rebooted]; [by eexists|].
  destruct (RaftWal.Open rebooted) as [err|w]; [by eexists|].
  destruct (RaftWal.StateWithBase w) as [[hard base] entries]. cbn [RaftCluster.snapshot].
  change (w64 (8 + w32 (id * 2))) with (RaftCluster.electionTimeout id). destruct (negb (base =? 0)).
  - destruct (negb _); [by eexists|]. by destruct (NewRecoveredNodeWithSnapshot _ _ _ _ _ _ _) as [[] n'|].
  - by destruct (NewRecoveredNode _ _ _ _ _ _) as [[] n'|].
Qed.

Lemma Restart_ids id c c' err :
  RaftCluster.Restart id c = Some (c', err) ->
  RaftCluster.ids c' = RaftCluster.ids c /\ nodeIds c' = nodeIds c.
Proof.
  unfold RaftCluster.Restart. cbn zeta. destruct (RaftCluster.nodes c !! id) as [n|] eqn:E; [|by intros [= <- <-]].
  destruct (MemoryDevice.Crash _ _); [by intros [= <- <-]|]. destruct (RaftWal.Open _) as [|w]; [by intros [= <- <-]|].
  destruct (RaftWal.StateWithBase w) as [[hard base] entries]. cbn [RaftCluster.snapshot].
  assert (forall r : outcome (Node RaftCluster.stableStore) RaftNode.Panic (), match r with
    | Done () n' => Some (RaftCluster.mkCluster (RaftCluster.ids c) (<[id := n']> (RaftCluster.nodes c))
                            (delete id (RaftCluster.stale c)), None)
    | Panicked _ => None
    end = Some (c', err) -> RaftCluster.ids c' = RaftCluster.ids c /\ nodeIds c' = nodeIds c) as H.
  { intros [[] n'|]; [|done]. intros [= <- <-]. split; [done|]. unfold nodeIds. cbn.
    by rewrite map_size_insert_Some by by eexists. }
  destruct (negb (base =? 0)); [|apply H]. destruct (negb _); [by intros [= <- <-]|apply H].
Qed.

(** The engine drops the events of the node, the simulator its messages. *)
Lemma isolate_shadow id s e :
  shadow s e ->
  shadow (s <| s_queue := filter (fun x => m_From (msg x) <> id /\ m_To (msg x) <> id) (s_queue s) |>)
    (IsolateNode (heapQueue Message) id e).1.
Proof.
  intros [He Hq Hi]. destruct (Isolate_sim id e (e <| queue := toEvent <$> s_queue s |>)) as [(q' & E & H) _].
  { exists (toEvent <$> s_queue s). split; [done|]. by rewrite He. }
  assert (q' = toEvent <$> filter (fun x => m_From (msg x) <> id /\ m_To (msg x) <> id) (s_queue s)) as ->.
  { apply (f_equal queue) in E. cbn in E. rewrite <- E. clear. induction (s_queue s) as [|x l IH]; [done|].
    rewrite fmap_cons, !filter_cons, IH. unfold unrelated. cbn.
    destruct (Z.eqb_spec (m_From (msg x)) id), (Z.eqb_spec (m_To (msg x)) id);
      repeat case_decide; naive_solver. }
  split; [|by rewrite He in H|done]. unfold IsolateNode in *. by rewrite He.
Qed.

Lemma request_shadow q s e : shadow s e -> ends same (onSimulator q s) (onEngine q e).
Proof.
  intros He. destruct q as [fuel steps|command|voters| |id|id state|id]; cbn [onSimulator onEngine].
  - eapply agree_bind; [by apply Run_shadow|]. by intros.
  - by apply propose_shadow.
  - by apply propose_shadow.
  - by apply propose_shadow.
  - assert (cluster e = s_Nodes s) as -> by by rewrite (sh_engine _ _ He).
    eapply agree_bind; [by apply onNodes_shadow|]. by intros.
  - unfold Compact, RaftCluster.Compact. assert (cluster e = s_Nodes s) as -> by by rewrite (sh_engine _ _ He).
    assert (shadow s (e <| cluster := s_Nodes s |>)) as Hid.
    { destruct He as [E Hq Hi]. split; [by rewrite E|done|done]. }
    destruct (RaftCluster.nodes (s_Nodes s) !! id) as [n|]; [|done]. destruct (_ <=? _); [done|].
    destruct (RaftCluster.onNode _ _ _) as [[c ok]|] eqn:E; [|done]. apply onNode_ids in E as [H1 H2].
    split; [by apply nodes_shadow|done].
  - assert (cluster e = s_Nodes s) as -> by by rewrite (sh_engine _ _ He).
    pose proof (CrashRestart_spec id s) as H. destruct (RaftCluster.Restart id (s_Nodes s)) as [[c [err|]]|] eqn:E.
    + destruct H as [err' ->]. cbn. apply Restart_ids in E as [H1 H2]. split; [by apply nodes_shadow|done].
    + rewrite H. cbn. apply Restart_ids in E as [H1 H2]. split; [|done].
      exact (isolate_shadow id _ _ (nodes_shadow c s e He H1 H2)).
    + by rewrite H.
Qed.

End lockstep.

(** Both constructors build the same nodes; the largest cluster has 64. *)
Definition peers_same (count i : nat) : bool :=
  bool_decide ((fun j => w32 (Z.of_nat j)) <$> filter (fun j => j <> i) (List.seq 1 count) =
    RaftCluster.peersOf count (Z.of_nat i) /\
    electionTicks i = RaftCluster.electionTimeout (Z.of_nat i) /\ w32 (Z.of_nat i) = Z.of_nat i).

Lemma peers_table : forallb (fun count => forallb (peers_same count) (List.seq 1 count)) (List.seq 0 65) = true.
Proof. vm_compute. reflexivity. Qed.

Lemma NewNodes_spec count : (count <= 64)%nat -> NewNodes count = RaftCluster.New count.
Proof.
  intros Hc. unfold NewNodes, RaftCluster.New. destruct (_ <? _)%nat; [done|]. unfold RaftCluster.allIds at 2.
  assert (Forall (fun i => peers_same count i = true) (List.seq 1 count)) as H.
  { apply Forall_forall. intros i Hi. pose proof peers_table as H. rewrite forallb_forall in H.
    specialize (H count). rewrite <- list_elem_of_In, elem_of_seq, forallb_forall in H.
    apply H; [lia|by apply list_elem_of_In]. }
  generalize (Some (RaftCluster.mkCluster [] ∅ ∅)). induction H as [|i l Hi Hl IH]; intros o; [done|].
  apply bool_decide_eq_true in Hi as (H1 & H2 & H3). cbn [fmap list_fmap foldl].
  destruct o as [c|]; [|by apply IH]. cbn [mbind option_bind]. unfold addNode at 2.
  fold (RaftCluster.peersOf count (Z.of_nat i)). rewrite H1, H2, H3. apply IH.
Qed.

(** *** The safety checks *)

Section checks.
Variable c : Nodes.

Abbreviation node i := (RaftCluster.nodes c !! i).

Definition leads (i : Z) (t : Z) : Prop :=
  exists n, node i = Some n /\ n_State n = RaftTypes.Leader /\ n_Term n = t.

(** No two leaders of a term among [l] and those in [leaders]. *)
Definition oneLeader (l : list Z) (leaders : gmap Z Z) : Prop :=
  forall i t, i ∈ l -> leads i t ->
    (forall p, leaders !! t = Some p -> p = i) /\ forall j, j ∈ l -> leads j t -> i = j.

Definition present (l : list Z) : Prop := Forall (fun i => is_Some (node i)) l.

Lemma electionLoop_spec l : forall leaders,
  RaftCluster.electionLoop c l leaders = None <-> present l /\ oneLeader l leaders.
Proof.
  induction l as [|i l IH]; intros leaders; cbn [RaftCluster.electionLoop].
  { split; [|done]. intros _. split; [constructor|]. by intros i t Hi%elem_of_nil. }
  unfold present. rewrite Forall_cons. fold (present l).
  destruct (node i) as [n|] eqn:En; [|split; [done|by intros [[[? ?] _] _]]].
  assert (forall t, leads i t <-> n_State n = RaftTypes.Leader /\ n_Term n = t) as Hlead.
  { intros t. unfold leads. rewrite En. naive_solver. }
  case_bool_decide as HL; cbn [negb].
  - assert ((forall p, leaders !! n_Term n = Some p -> p = i) ->
      RaftCluster.electionLoop c l (<[n_Term n := i]> leaders) = None <->
      (is_Some (Some n) /\ present l) /\ oneLeader (i :: l) leaders) as Hgo.
    { intros Hp. rewrite IH. split.
      - intros [H1 H2]. split; [done|]. intros j t [->|Hj]%elem_of_cons Hjt.
        + apply Hlead in Hjt as [_ <-]. split; [done|]. intros k [->|Hk]%elem_of_cons Hkt; [done|].
          destruct (H2 k (n_Term n) Hk Hkt) as [H3 _]. apply H3. by rewrite lookup_insert_eq.
        + destruct (H2 j t Hj Hjt) as [H3 H4]. destruct (decide (t = n_Term n)) as [->|Hne].
          * rewrite lookup_insert_eq in H3. specialize (H3 i eq_refl) as <-. split; [done|].
            intros k [->|Hk]%elem_of_cons Hkt; [done|by apply H4].
          * rewrite lookup_insert_ne in H3 by done. split; [done|].
            intros k [->|Hk]%elem_of_cons Hkt; [by apply Hlead in Hkt as [_ <-]|by apply H4].
      - intros [[_ H1] H2]. split; [done|]. intros j t Hj Hjt.
        destruct (H2 j t (proj2 (elem_of_cons _ _ _) (or_intror Hj)) Hjt) as [H3 H4]. split.
        + intros p [[<- <-]|[_ H]]%lookup_insert_Some; [|by apply H3]. symmetry. apply H4; [by left|by apply Hlead].
        + intros k Hk. apply H4. by right. }
    destruct (leaders !! n_Term n) as [prior|] eqn:Ep; [|by apply Hgo].
    destruct (Z.eqb_spec prior i) as [->|Hne]; cbn [negb]; [apply Hgo; by intros p [= <-]|].
    split; [done|]. intros [_ H]. destruct (H i (n_Term n)) as [H1 _]; [by left|by apply Hlead|]. by apply H1 in Ep.
  - rewrite IH. split.
    + intros [H1 H2]. split; [done|]. intros j t [->|Hj]%elem_of_cons Hjt; [by apply Hlead in Hjt as [? _]|].
      destruct (H2 j t Hj Hjt) as [H3 H4]. split; [done|].
      intros k [->|Hk]%elem_of_cons Hkt; [by apply Hlead in Hkt as [? _]|by apply H4].
    + intros [[_ H1] H2]. split; [done|]. intros j t Hj Hjt.
      destruct (H2 j t (proj2 (elem_of_cons _ _ _) (or_intror Hj)) Hjt) as [H3 H4]. split; [done|].
      intros k Hk. apply H4. by right.
Qed.

Lemma indexLoop_spec l :
  RaftCluster.indexLoop c l = None <->
  Forall (fun i => exists n, node i = Some n /\ RaftCluster.badIndexes n = false) l.
Proof.
  induction l as [|i l IH]; cbn [RaftCluster.indexLoop]; [done|]. rewrite Forall_cons, <- IH.
  destruct (node i) as [n|]; [|split; [done|by intros [(? & ? & _) _]]].
  destruct (RaftCluster.badIndexes n) eqn:E; split; [done| | |by intros [_ ?]].
  - intros [(n' & [= <-] & H) _]. congruence.
  - intros H. split; [by exists n|done].
Qed.

Lemma safetyLoop_spec l : forall leaders,
  safetyLoop c l leaders = None <->
  RaftCluster.electionLoop c l leaders = None /\ RaftCluster.indexLoop c l = None.
Proof.
  induction l as [|i l IH]; intros leaders; cbn [safetyLoop RaftCluster.electionLoop RaftCluster.indexLoop]; [done|].
  destruct (node i) as [n|]; [|naive_solver].
  case_bool_decide; cbn [negb]; [destruct (leaders !! n_Term n) as [prior|]; [destruct (prior =? i)|]|];
    cbn [negb]; destruct (RaftCluster.badIndexes n); rewrite ?IH; naive_solver.
Qed.

Definition agreed (a b : Z) : Prop :=
  exists na nb, node a = Some na /\ node b = Some nb /\ RaftCluster.pairCheck na nb = None.

Lemma innerLoop_spec a na l :
  node a = Some na -> innerLoop c a na l = None <-> forall b, b ∈ l -> a < b -> agreed a b.
Proof.
  intros Ha. induction l as [|b l IH]; cbn [innerLoop].
  { split; [|done]. by intros _ b Hb%elem_of_nil. }
  setoid_rewrite elem_of_cons. destruct (Z.leb_spec b a).
  { rewrite IH. split; [intros H1 b' [->|]; [lia|by apply H1]|naive_solver]. }
  destruct (node b) as [nb|] eqn:Hb.
  - destruct (RaftCluster.pairCheck na nb) eqn:E.
    + split; [done|]. intros H1. destruct (H1 b) as (x & y & ? & ? & ?); [by left|done|]. congruence.
    + rewrite IH. split; [|naive_solver]. intros H1 b' [->|Hin] Hlt; [by exists na, nb|by apply H1].
  - split; [done|]. intros H1. destruct (H1 b) as (x & y & ? & ? & ?); [by left|done|]. congruence.
Qed.

Lemma outerLoop_spec inner l :
  outerLoop c inner l = None <->
  present l /\ forall a b, a ∈ l -> b ∈ inner a -> a < b -> agreed a b.
Proof.
  induction l as [|a l IH]; cbn [outerLoop].
  { split; [|done]. intros _. split; [constructor|]. by intros a b Ha%elem_of_nil. }
  unfold present. rewrite Forall_cons. fold (present l). setoid_rewrite elem_of_cons.
  destruct (node a) as [na|] eqn:Ha; [|split; [done|by intros [[[? ?] _] _]]].
  pose proof (innerLoop_spec a na (inner a) Ha) as Hin. destruct (innerLoop c a na (inner a)).
  - split; [done|]. intros [_ H]. exfalso. discriminate (proj2 Hin (fun b => H a b (or_introl eq_refl))).
  - rewrite IH. pose proof (proj1 Hin eq_refl) as Hb. split; [|naive_solver].
    intros [H1 H2]. split; [by split|]. intros a' b [->|Ha'] Hb' Hlt; [by apply Hb|by apply (H2 a')].
Qed.

Lemma peersLoop_spec a na l :
  node a = Some na -> RaftCluster.peersLoop c na l = None <-> forall b, b ∈ l -> agreed a b.
Proof.
  intros Ha. induction l as [|b l IH]; cbn [RaftCluster.peersLoop].
  { split; [|done]. by intros _ b Hb%elem_of_nil. }
  setoid_rewrite elem_of_cons. destruct (node b) as [nb|] eqn:Hb.
  - destruct (RaftCluster.pairCheck na nb) eqn:E.
    + split; [done|]. intros H1. destruct (H1 b) as (x & y & ? & ? & ?); [by left|]. congruence.
    + rewrite IH. split; [|naive_solver]. intros H1 b' [->|Hin]; [by exists na, nb|by apply H1].
  - split; [done|]. intros H1. destruct (H1 b) as (x & y & ? & ? & ?); [by left|]. congruence.
Qed.

Lemma prefixLoop_spec l :
  StronglySorted Z.lt l ->
  RaftCluster.prefixLoop c l = None <->
  present l /\ forall a b, a ∈ l -> b ∈ l -> a < b -> agreed a b.
Proof.
  induction 1 as [|a l Hl IH Hal]; cbn [RaftCluster.prefixLoop].
  { split; [|done]. intros _. split; [constructor|]. by intros a b Ha%elem_of_nil. }
  unfold present. rewrite Forall_cons. fold (present l). setoid_rewrite elem_of_cons.
  rewrite Forall_forall in Hal.
  destruct (node a) as [na|] eqn:Ha; [|split; [done|by intros [[[? ?] _] _]]].
  pose proof (peersLoop_spec a na l Ha) as Hin. destruct (RaftCluster.peersLoop c na l).
  - split; [done|]. intros [_ H]. exfalso. discriminate (proj2 Hin (fun b Hb =>
      H a b (or_introl eq_refl) (or_intror Hb) (Hal b Hb))).
  - rewrite IH. pose proof (proj1 Hin eq_refl) as Hb. split; [|naive_solver].
    intros [H1 H2]. split; [by split|]. intros x y [->|Hx] [->|Hy] Hlt.
    + lia.
    + by apply Hb.
    + specialize (Hal x Hx). lia.
    + by apply H2.
Qed.

Lemma nodeIds_sorted : StronglySorted Z.lt (nodeIds c).
Proof.
  unfold nodeIds, RaftCluster.allIds. generalize 1%nat. generalize (size (RaftCluster.nodes c)).
  intros n. induction n as [|n IH]; intros k; cbn; constructor; [by apply IH|].
  apply Forall_fmap, Forall_forall. intros x Hx%elem_of_seq. cbn. lia.
Qed.

(** The order in which the maps are ranged over does not matter, and the check
    passes when the three checks of the cluster do. *)
Lemma CheckSafety_spec order outer inner :
  RaftCluster.ids c = nodeIds c ->
  order ≡ₚ nodeIds c -> outer ≡ₚ nodeIds c -> (forall a, inner a ≡ₚ nodeIds c) ->
  CheckSafety order outer inner c = None <->
  RaftCluster.checkElectionSafety c = None /\ RaftCluster.checkIndexSanity c = None /\
  RaftCluster.checkCommittedPrefix c = None.
Proof.
  intros Hids Ho Hou Hi. unfold CheckSafety, RaftCluster.checkElectionSafety, RaftCluster.checkIndexSanity,
    RaftCluster.checkCommittedPrefix. rewrite Hids.
  trans (safetyLoop c order ∅ = None /\ outerLoop c inner outer = None);
    [destruct (safetyLoop c order ∅); naive_solver|].
  rewrite safetyLoop_spec, !electionLoop_spec, !indexLoop_spec, outerLoop_spec, prefixLoop_spec by apply nodeIds_sorted.
  unfold present, oneLeader. rewrite Ho, Hou. setoid_rewrite Ho. setoid_rewrite Hou. setoid_rewrite Hi. tauto.
Qed.

End checks.

Lemma New_nodeIds count c :
  (count <= 64)%nat -> RaftCluster.New count = Some c -> RaftCluster.ids c = nodeIds c.
Proof.
  intros Hc HN. destruct (RaftCluster.New_spec count c Hc HN) as (Hids & _ & Hnodes).
  unfold nodeIds. rewrite Hids. f_equal. rewrite <- size_dom.
  assert (dom (RaftCluster.nodes c) = list_to_set (RaftCluster.allIds count)) as ->.
  { apply set_eq. intros i. rewrite elem_of_dom, elem_of_list_to_set, Hnodes.
    destruct (decide (i ∈ RaftCluster.allIds count)); [|by rewrite is_Some_alt]. split; [done|by eexists]. }
  rewrite size_list_to_set; [unfold RaftCluster.allIds; by rewrite length_fmap, length_seq|].
  apply NoDup_fmap_2; [intros i j H; lia|apply NoDup_seq].
Qed.

Lemma New_shadow {R} count c (r : R) dropPermille maxDelay :
  (count <= 64)%nat -> RaftCluster.New count = Some c -> shadow (New r dropPermille maxDelay c) (Engine.New r dropPermille maxDelay c).
Proof.
  intros Hc HN. split; [done| |by eapply New_nodeIds].
  split; [intros k Hk _ a b Ha; discriminate|]. split; [done|]. split; [constructor|constructor].
Qed.

Lemma logged_same {R} (Intn Int63n : Z -> R -> Z * R) sha256 q x y :
  same x y -> ends same (logged (onSimulator Intn Int63n sha256) q x) (logged (onEngine Intn Int63n sha256) q y).
Proof.
  destruct x as [s l], y as [e l']. intros [He Hl]. cbn in He, Hl. subst l'. unfold logged. cbn [fst snd].
  eapply agree_bind; [by apply request_shadow|]. intros [s1 b] [e1 b'] [H1 H2]. cbn in *. by rewrite H2.
Qed.

(** C22 The simulator and the engine run in lockstep.  Built for the same number
    of nodes, up to 64, with the same generator, hash, loss and delay, and given
    the same runs, proposals, reconfigurations, applications of what is committed,
    compactions and crashes, the simulator and the engine over [raftcluster] end
    the same way.  When they return, they gave the same replies and are at the same
    time, with the same nodes, generator, sequence number and trace, and the same
    messages in flight; and, in whatever orders it ranges over its map, the simulator's safety check
    passes exactly when the engine finds no invariant violated. *)
Theorem simulator_lockstep {R} (Intn Int63n : Z -> R -> Z * R) sha256 count c r dropPermille maxDelay requests :
  (count <= 64)%nat -> NewNodes count = Some c ->
  RaftCluster.New count = Some c /\
  match each (logged (onSimulator Intn Int63n sha256)) requests (New r dropPermille maxDelay c, []),
        each (logged (onEngine Intn Int63n sha256)) requests (Engine.New r dropPermille maxDelay c, []) with
  | Ret (s, l), Ret (e, l') =>
      l = l' /\ Now e = s_Now s /\ cluster e = s_Nodes s /\ rng e = s_rng s /\ seq_ e = s_seq s /\
      trace e = s_trace s /\ queue e ≡ₚ toEvent <$> s_queue s /\
      forall order outer inner,
        order ≡ₚ nodeIds (s_Nodes s) -> outer ≡ₚ nodeIds (s_Nodes s) ->
        (forall a, inner a ≡ₚ nodeIds (s_Nodes s)) ->
        CheckSafety order outer inner (s_Nodes s) = None <->
        CheckInvariants RaftCluster.SafetyInvariants e = None
  | Panic _, Panic _ | Limit, Limit => True
  | _, _ => False
  end.
Proof.
  intros Hc HN. rewrite NewNodes_spec in HN by done. split; [done|].
  assert (same (New r dropPermille maxDelay c, []) (Engine.New r dropPermille maxDelay c, [] : list bool)) as H0.
  { split; [by eapply New_shadow|done]. }
  pose proof (agree_each (fun _ _ => True) same _ _ requests _ _ H0 (logged_same Intn Int63n sha256)) as H.
  destruct (each _ _ _) as [[s l]| |], (each _ _ _) as [[e l']| |]; try done.
  destruct H as [[He Hq Hi] Hl]. cbn in He, Hq, Hi, Hl. split; [done|].
  split; [by rewrite He|]. split; [by rewrite He|]. split; [by rewrite He|]. split; [by rewrite He|].
  split; [by rewrite He|]. split; [apply Hq|]. intros order outer inner Ho Hou Hin.
  rewrite (CheckSafety_spec _ _ _ _ Hi Ho Hou Hin). rewrite He. cbn.
  destruct (RaftCluster.checkElectionSafety _); [naive_solver|].
  destruct (RaftCluster.checkIndexSanity _); [naive_solver|].
  destruct (RaftCluster.checkCommittedPrefix _); naive_solver.
Qed.

Module Demo.

Abbreviation zero := RaftCluster.Demo.zero.
Abbreviation hash := RaftCluster.Demo.hash.
Abbreviation three := RaftCluster.Demo.three.

(** Node 1 leads, commits a command and crashes; a new leader takes over, node 1
    returns from its log, the cluster leaves out node 3, and node 2 applies what is
    committed and compacts its log, once. *)
Definition script : list request :=
  [RunFor 1000 12; Proposal 7; RunFor 1000 5; Crash 1; RunFor 1000 14; Proposal 8;
   RunFor 1000 4; Joint [1; 2]; RunFor 1000 6; Final; RunFor 1000 6; ApplyAt 2; Snap 2 [9]; Snap 2 [9]].

Lemma simulator_lockstep_witness :
  exists (s : Simulator unit) e l,
    each (logged (onSimulator zero zero hash)) script (New tt 0 0 three, []) = Ret (s, l) /\
    each (logged (onEngine zero zero hash)) script (Engine.New tt 0 0 three, []) = Ret (e, l) /\
    l = replicate 13 true ++ [false] /\ trace e = s_trace s.
Proof.
  pose proof (simulator_lockstep zero zero hash 3 three tt 0 0 script ltac:(lia) ltac:(vm_compute; reflexivity))
    as [_ H].
  assert (match each (logged (onSimulator zero zero hash)) script (New tt 0 0 three, []) with
          | Ret (s, l) => l = replicate 13 true ++ [false]
          | _ => False
          end) as Hl by (vm_compute; reflexivity).
  destruct (each (logged (onSimulator zero zero hash)) script (New tt 0 0 three, [])) as [[s l]| |];
    [|destruct Hl..].
  destruct (each (logged (onEngine zero zero hash)) script (Engine.New tt 0 0 three, [])) as [[e l']| |];
    [|destruct H..].
  destruct H as (<- & _ & _ & _ & _ & Ht & _). exists s, e, l. auto.
Defined.

End Demo.
End Sim.
