(* ===== verification/Seeds.v ===== *)
(** * The sim and seeds commands

    [internal/cli/sim.go]: one simulation with its report, the sweep of one seed,
    and the sweep of a range of seeds by a pool of goroutines.  The pool is a step
    relation: the goroutine that hands out the seeds, the workers, the channel of
    results and the loop that reads it.

    Results: the sweep of a seed never finds anything, crashes included; the pool
    cannot get stuck and always comes to an end, and it reports a pass exactly when
    every seed of the range was swept without an error. *)

From stdpp Require Import sorting relations.
From S2P Require Import Prelude Bytes GoStrings Wal RaftTypes Quorum RaftNode RaftWal EventHeap Engine EngineInv RaftCluster Restarts Sim.

Module Seeds.

(** ** One simulation *)

Section simulate.
Context {R : Type} (Intn Int63n : Z -> R -> Z * R) (NewSource : Z -> R) (sha256 : bytes -> bytes).

Abbreviation simulator := (Sim.Simulator R).

Definition newSim (nodes : nat) (seed drop delay : Z) : run () simulator :=
  match Sim.NewNodes nodes with
  | Some c => Ret (Sim.New (NewSource seed) drop delay c)
  | None => Panic ()
  end.

(** The loop of [runSim] over the steps. *)
Fixpoint simLoop (fuel : nat) (ticks : list Z) (proposed : Z) (s : simulator) : run () (simulator * Z) :=
  match ticks with
  | [] => Ret (s, proposed)
  | i :: ticks =>
      s ← Sim.Step Intn Int63n sha256 fuel s;
      if i mod 31 =? 0 then
        '(s, ok) ← Sim.Propose Intn Int63n i s;
        simLoop fuel ticks (if ok : bool then w64 (proposed + 1) else proposed) s
      else simLoop fuel ticks proposed s
  end.

Record simReport := mkSimReport { p_seed : Z; p_steps : Z; p_leader : Z; p_proposed : Z; p_maxCommit : Z; p_trace : bytes }.

Definition maxCommit (c : Sim.Nodes) : Z := map_fold (fun _ n m => Z.max m (n_Commit n)) 0 (RaftCluster.nodes c).

(** [runSim] on the values of its flags; a seed that cannot be read is an error.
    With the largest number of steps the loop does not end. *)
Definition runSim (fuel : nat) (seedText : string) (steps : Z) (nodes : nat) (drop delay : Z) : run () (option simReport) :=
  match ParseInt (TrimSpace (bytesOf seedText)) with
  | None => Ret None
  | Some seed =>
      s ← newSim nodes seed drop delay;
      if steps =? maxu64 then Limit else
      '(s, proposed) ← simLoop fuel (seqZ 1 steps) 0 s;
      Ret (Some (mkSimReport seed steps (Sim.Leader s) proposed (maxCommit (Sim.s_Nodes s)) (Sim.s_trace s)))
  end.

(** ** One seed of a sweep *)

Inductive sweepError := RestartFailed (e : error) | Unsafe (tick : Z) (trace : bytes) (e : error).

(** The orders in which the safety check ranges over the nodes at a tick. *)
Context (orders : Z -> list Z * list Z * (Z -> list Z)).

Definition sweepTick (fuel : nat) (seed tick : Z) (s : simulator) : run () (simulator * option sweepError) :=
  s ← Sim.Step Intn Int63n sha256 fuel s;
  s ← (if tick mod 17 =? 0 then
         '(s, _) ← Sim.Propose Intn Int63n (Z.lor (w64 (Z.shiftl (w64 seed) 32)) tick) s; Ret s
       else Ret s);
  '(s, err) ← (if tick mod 101 =? 0 then Sim.CrashRestart (w32 ((tick / 101) mod 5 + 1)) s else Ret (s, None));
  match err with
  | Some e => Ret (s, Some (RestartFailed e))
  | None =>
      let '(order, outer, inner) := orders tick in
      match Sim.CheckSafety order outer inner (Sim.s_Nodes s) with
      | Some e => Ret (s, Some (Unsafe tick (Sim.s_trace s) e))
      | None => Ret (s, None)
      end
  end.

Fixpoint sweepLoop (fuel : nat) (seed : Z) (ticks : list Z) (s : simulator) : run () (option sweepError) :=
  match ticks with
  | [] => Ret None
  | tick :: ticks =>
      '(s, err) ← sweepTick fuel seed tick s;
      match err with Some e => Ret (Some e) | None => sweepLoop fuel seed ticks s end
  end.

Definition sweepSeed (fuel : nat) (seed steps : Z) : run () (option sweepError) :=
  s ← newSim 5 seed 50 5; if steps =? maxu64 then Limit else sweepLoop fuel seed (seqZ 1 steps) s.

End simulate.

(** ** A sweep finds nothing *)

Section sweep.
Context {R : Type} (Intn Int63n : Z -> R -> Z * R) (NewSource : Z -> R) (sha256 : bytes -> bytes).
Context (orders : Z -> list Z * list Z * (Z -> list Z)).
Variable c0 : RaftCluster.Cluster.
Hypothesis HN : RaftCluster.New 5 = Some c0.

Lemma five : (5 <= 64)%nat.
Proof. lia. Qed.

Abbreviation pool := (fun _ : nat => Restarts.ready 5 (RaftCluster.abstract c0)).
#[local] Instance sweep_pool : Pool Restarts.drive pool 5 := Restarts.ready_pool 5 (RaftCluster.abstract c0) five.

(** The simulator runs beside an engine whose cluster is that of a safe run. *)
Definition hosted (s : Sim.Simulator R) : Prop := exists e k, Sim.shadow s e /\ simulated pool k [] e.

Lemma hosted_ready s : hosted s -> exists ms, Restarts.ready 5 (RaftCluster.abstract c0) (Sim.s_Nodes s) ms.
Proof.
  intros (e & k & Hsh & He). eexists. assert (cluster e = Sim.s_Nodes s) as <- by by rewrite (Sim.sh_engine _ _ Hsh). apply He.
Qed.

Lemma Step_hosted fuel s s' : hosted s -> Sim.Step Intn Int63n sha256 fuel s = Ret s' -> hosted s'.
Proof.
  intros (e & k & Hsh & He) HS. pose proof (Sim.Step_shadow Intn Int63n sha256 fuel s e Hsh) as H. rewrite HS in H.
  destruct (Engine.Step _ _ _ _ fuel e) as [e'| |] eqn:E; [|done..]. exists e', (k + 5)%nat. split; [done|].
  by eapply (Step_simulated Intn Int63n sha256 Restarts.drive pool 5).
Qed.

Lemma Propose_hosted command s s' ok : is_u64 command -> hosted s -> Sim.Propose Intn Int63n command s = Ret (s', ok) -> hosted s'.
Proof.
  intros Hc (e & k & Hsh & He) HP. pose proof (Sim.request_shadow Intn Int63n sha256 (Sim.Proposal command) s e Hsh) as H.
  cbn [Sim.onSimulator Sim.onEngine] in H. rewrite HP in H. unfold Sim.collectIf in H.
  destruct (RaftCluster.Propose command (cluster e)) as [[c b]|] eqn:E; [|done].
  assert (simulated pool k [] (e <| cluster := c |>)) as H1.
  { destruct He as [Hp Hto Hh]. split; [|done|done]. eapply Restarts.Propose_ready; [exact five|exact Hc|exact Hp|exact E]. }
  destruct b; [|destruct H as [H _]; exists (e <| cluster := c |>), k; by split].
  destruct (Collect _ _ _ _) as [e'| |] eqn:E1; [|done..]. destruct H as [H _]. exists e', k. split; [done|].
  by eapply (Collect_simulated Intn Int63n Restarts.drive pool 5).
Qed.

Lemma CrashRestart_hosted id s s' err :
  id ∈ RaftCluster.allIds 5 -> hosted s -> Sim.CrashRestart id s = Ret (s', err) -> err = None /\ hosted s'.
Proof.
  intros Hid (e & k & Hsh & He) HC. pose proof (Sim.request_shadow Intn Int63n sha256 (Sim.Crash id) s e Hsh) as H.
  cbn [Sim.onSimulator Sim.onEngine] in H. rewrite HC in H. cbn [mbind run_bind] in H. destruct He as [Hp Hto Hh].
  destruct (RaftCluster.Restart id (cluster e)) as [[c r]|] eqn:E; [|done].
  assert (is_Some (RaftCluster.nodes (cluster e) !! id)) as Hn.
  { destruct (Restarts.rd_reach _ _ _ _ Hp) as (_ & _ & _ & _ & _ & _ & Hall). rewrite Forall_forall in Hall. apply Hall.
    by rewrite (Restarts.rd_ids _ _ _ _ Hp). }
  destruct (Restarts.Restart_ready 5 _ five id _ _ _ _ Hn Hp E) as [-> Hp'].
  destruct H as [H Hb]. cbn in Hb. apply bool_decide_eq_true in Hb. split; [done|].
  exists (IsolateNode (heapQueue Message) id (e <| cluster := c |>)).1, k. split; [done|].
  apply (Isolate_simulated Restarts.drive pool 5 k id (e <| cluster := c |>)). by split.
Qed.

Lemma check_hosted order outer inner s :
  order ≡ₚ RaftCluster.allIds 5 -> outer ≡ₚ RaftCluster.allIds 5 -> (forall a, inner a ≡ₚ RaftCluster.allIds 5) ->
  hosted s -> Sim.CheckSafety order outer inner (Sim.s_Nodes s) = None.
Proof.
  intros Ho Hou Hi Hs. pose proof Hs as (e & k & Hsh & _). destruct (hosted_ready s Hs) as [ms Hr].
  assert (Sim.nodeIds (Sim.s_Nodes s) = RaftCluster.allIds 5) as Hids
    by (by rewrite <- (Sim.sh_ids _ _ Hsh), (Restarts.rd_ids _ _ _ _ Hr)).
  apply (Sim.CheckSafety_spec (Sim.s_Nodes s)); rewrite ?Hids; [apply Hr|done..|].
  pose proof (proj2 (Restarts.New_ready 5 c0 five HN) _ _ Hr) as H.
  unfold RaftCluster.SafetyInvariants in H. rewrite !Forall_cons in H. cbn in H. tauto.
Qed.

(** The loops of the safety check see every node once. *)
Hypothesis Horders : forall t, let '(order, outer, inner) := orders t in
  order ≡ₚ RaftCluster.allIds 5 /\ outer ≡ₚ RaftCluster.allIds 5 /\ forall a, inner a ≡ₚ RaftCluster.allIds 5.

Lemma sweepTick_hosted fuel seed tick s s' err :
  is_u64 tick -> hosted s -> sweepTick Intn Int63n sha256 orders fuel seed tick s = Ret (s', err) -> err = None /\ hosted s'.
Proof.
  intros Ht Hs. unfold sweepTick. destruct (Sim.Step _ _ _ fuel s) as [s1| |] eqn:E1; cbn [mbind run_bind]; [|done..].
  pose proof (Step_hosted fuel s s1 Hs E1) as H1.
  set (r2 := if tick mod 17 =? 0 then _ else _). assert (always hosted r2) as H2.
  { subst r2. destruct (_ =? 0); [|intros x [= <-]; done]. destruct (Sim.Propose _ _ _ s1) as [[s2 ok]| |] eqn:E2; [|done..].
    intros x [= <-]. eapply Propose_hosted; [|exact H1|exact E2]. apply lor_u64; [apply w64_range|done]. }
  destruct r2 as [s2| |]; cbn [mbind run_bind]; [|done..]. specialize (H2 s2 eq_refl).
  set (r3 := if tick mod 101 =? 0 then _ else _). assert (always (fun r => r.2 = None /\ hosted r.1) r3) as H3.
  { subst r3. destruct (_ =? 0); [|intros x [= <-]; done]. intros [s3 e3] E3. cbn.
    eapply CrashRestart_hosted; [|exact H2|exact E3]. pose proof (Z.mod_pos_bound (tick / 101) 5 ltac:(lia)) as Hm.
    unfold w32. rewrite Z.mod_small by lia. unfold RaftCluster.allIds. apply list_elem_of_fmap.
    exists (Z.to_nat ((tick / 101) mod 5 + 1)). rewrite elem_of_seq. lia. }
  destruct r3 as [[s3 e3]| |]; cbn [mbind run_bind]; [|done..]. destruct (H3 _ eq_refl) as [Hn H4]. cbn in Hn, H4. subst e3.
  specialize (Horders tick). destruct (orders tick) as [[order outer] inner]. destruct Horders as (Ho & Hou & Hi).
  rewrite (check_hosted order outer inner s3 Ho Hou Hi H4). by intros [= <- <-].
Qed.

Lemma sweepLoop_hosted fuel seed ticks : forall s r,
  Forall is_u64 ticks -> hosted s -> sweepLoop Intn Int63n sha256 orders fuel seed ticks s = Ret r -> r = None.
Proof.
  induction ticks as [|tick ticks IH]; intros s r Ht Hs; cbn [sweepLoop]; [by intros [= <-]|].
  apply Forall_cons in Ht as [Ht Hts]. destruct (sweepTick _ _ _ _ fuel seed tick s) as [[s' err]| |] eqn:E; cbn [mbind run_bind]; [|done..].
  destruct (sweepTick_hosted fuel seed tick s s' err Ht Hs E) as [-> H]. by apply IH.
Qed.

Lemma sweep_start seed : hosted (Sim.New (NewSource seed) 50 5 c0).
Proof.
  eexists _, 0%nat. split; [by apply (Sim.New_shadow 5 c0); [lia|]|].
  split; [apply (Restarts.New_ready 5 c0 five HN)|constructor|apply heap_nil].
Qed.

End sweep.

Lemma sweepSeed_none {R} (Intn Int63n : Z -> R -> Z * R) NewSource sha256 orders fuel seed steps r :
  (forall t, let '(order, outer, inner) := orders t in
     order ≡ₚ RaftCluster.allIds 5 /\ outer ≡ₚ RaftCluster.allIds 5 /\ forall a, inner a ≡ₚ RaftCluster.allIds 5) ->
  is_u64 steps -> sweepSeed Intn Int63n NewSource sha256 orders fuel seed steps = Ret r -> r = None.
Proof.
  intros Ho Hst. unfold sweepSeed, newSim. rewrite Sim.NewNodes_spec by lia.
  destruct (RaftCluster.New 5) as [c0|] eqn:HN; [|done]. cbn [mbind run_bind]. destruct (_ =? _); [done|].
  apply (sweepLoop_hosted Intn Int63n sha256 orders c0 HN Ho); [|by apply sweep_start].
  apply Forall_forall. intros t Ht%elem_of_seqZ. unfold is_u64 in *. lia.
Qed.

(** ** The pool *)

Section pool.
(** The error of sweeping a seed. *)
Context {E : Type} (sweep : Z -> option E).

Inductive worker := Idle | Sweeping (seed : Z) | Sending (seed : Z) (err : option E) | Exited.

(** What the command returns: a pass with the number of seeds, or the seed that
    failed. *)
Inductive status := Running | Passed (seeds : Z) | FailedSeed (seed : Z) (e : E).

Record pool := mkPool {
  next : Z; jobsClosed : bool; workers : list worker;
  results : list (Z * option E); resultsClosed : bool;
  counted : Z; state : status
}.

#[global] Instance eta_pool : Eta pool := fun p =>
  mkPool (next p) (jobsClosed p) (workers p) (results p) (resultsClosed p) (counted p) (state p).

Definition i64 (z : Z) : Z := if w64 z <? 2 ^ 63 then w64 z else w64 z - 2 ^ 64.

Context (last : Z).

(** The steps of the goroutines; after the command has returned there are none. *)
Inductive step : pool -> pool -> Prop :=
| Handed p i :
    state p = Running -> jobsClosed p = false -> next p <= last -> workers p !! i = Some Idle ->
    step p (p <| next := i64 (next p + 1) |> <| workers := <[i := Sweeping (next p)]> (workers p) |>)
| JobsClosed p :
    state p = Running -> jobsClosed p = false -> last < next p -> step p (p <| jobsClosed := true |>)
| Swept p i seed :
    state p = Running -> workers p !! i = Some (Sweeping seed) ->
    step p (p <| workers := <[i := Sending seed (sweep seed)]> (workers p) |>)
| Sent p i seed err :
    state p = Running -> workers p !! i = Some (Sending seed err) -> (length (results p) < length (workers p))%nat ->
    step p (p <| workers := <[i := Idle]> (workers p) |> <| results := results p ++ [(seed, err)] |>)
| WorkerDone p i :
    state p = Running -> jobsClosed p = true -> workers p !! i = Some Idle ->
    step p (p <| workers := <[i := Exited]> (workers p) |>)
| ResultsClosed p :
    state p = Running -> jobsClosed p = true -> resultsClosed p = false -> Forall (fun w => w = Exited) (workers p) ->
    step p (p <| resultsClosed := true |>)
| Counted p seed rest :
    state p = Running -> results p = (seed, None) :: rest ->
    step p (p <| results := rest |> <| counted := w64 (counted p + 1) |>)
| Reported p seed e rest :
    state p = Running -> results p = (seed, Some e) :: rest ->
    step p (p <| results := rest |> <| state := FailedSeed seed e |>)
| Finished p :
    state p = Running -> results p = [] -> resultsClosed p = true -> step p (p <| state := Passed (counted p) |>).

End pool.
Arguments worker : clear implicits.
Arguments pool : clear implicits.
Arguments status : clear implicits.

(** [runSeeds] up to the start of the goroutines. *)
Definition runSeeds {E} (first last workers : Z) : option (pool E) :=
  if (first <? 0) || (last <? first) || (workers <? 1) then None
  else Some (mkPool first false (replicate (Z.to_nat workers) Idle) [] false 0 Running).

(** ** What the pool keeps *)

Section invariant.
Context {E : Type} (sweep : Z -> option E) (first last : Z).
Hypothesis range : 0 <= first <= last.
Hypothesis room : last < 2 ^ 63 - 1.

(** The seeds a worker is busy with. *)
Definition busy (w : worker E) : list Z := match w with Sweeping s | Sending s _ => [s] | _ => [] end.

Definition pending (p : pool E) : list Z := (workers p ≫= busy) ++ (results p).*1.

Record sound (p : pool E) (passed : list Z) : Prop := {
  so_next : first <= next p <= last + 1;
  so_seeds : passed ++ pending p ≡ₚ seqZ first (next p - first);
  so_passed : Forall (fun s => sweep s = None) passed;
  so_counted : counted p = len passed;
  so_sending : forall s err, Sending s err ∈ workers p -> err = sweep s;
  so_results : Forall (fun r => r.2 = sweep r.1) (results p);
  so_jobs : jobsClosed p = true -> next p = last + 1;
  so_exited : Exited ∈ workers p -> jobsClosed p = true;
  so_closed : resultsClosed p = true -> jobsClosed p = true /\ Forall (fun w => w = Exited) (workers p);
  so_workers : workers p <> []
}.

(** Changing one worker. *)
Lemma busy_insert (l : list (worker E)) i w w' :
  l !! i = Some w -> busy w ++ (<[i := w']> l ≫= busy) ≡ₚ busy w' ++ (l ≫= busy).
Proof.
  intros Hi. rewrite (insert_take_drop l i w') by by eapply lookup_lt_Some. rewrite <- (take_drop_middle l i w Hi) at 3.
  rewrite !bind_app, !bind_cons. solve_Permutation.
Qed.

Lemma elem_insert {A} (l : list A) i x y : y ∈ <[i := x]> l -> y = x \/ y ∈ l.
Proof.
  intros [j Hj]%list_elem_of_lookup. destruct (decide (j = i)) as [->|Hne].
  - destruct (decide (i < length l)%nat) as [Hl|Hl]; [rewrite list_lookup_insert_eq in Hj by done; left; congruence|].
    rewrite list_insert_ge in Hj by lia. right. by eapply list_elem_of_lookup_2.
  - rewrite list_lookup_insert_ne in Hj by done. right. by eapply list_elem_of_lookup_2.
Qed.

Lemma insert_nonempty {A} (l : list A) i x : l <> [] -> <[i := x]> l <> [].
Proof. destruct l; [done|]. by destruct i. Qed.

(** The state of the command agrees with what was swept. *)
Definition true_ (p : pool E) : Prop :=
  match state p with
  | Running => True
  | Passed k => k = last - first + 1 /\ forall s, first <= s <= last -> sweep s = None
  | FailedSeed s e => first <= s <= last /\ sweep s = Some e
  end.

Lemma replaced p i w w' (rs : list (Z * option E)) :
  workers p !! i = Some w -> (busy w' ++ rs.*1 ≡ₚ busy w ++ (results p).*1 -> 
  (<[i := w']> (workers p) ≫= busy) ++ rs.*1 ≡ₚ pending p).
Proof.
  intros Hi HP. pose proof (busy_insert (workers p) i w w' Hi) as HB. unfold pending.
  apply (Permutation_app_inv_l (busy w)). rewrite app_assoc, HB.
  transitivity ((workers p ≫= busy) ++ (busy w' ++ rs.*1)); [solve_Permutation|]. rewrite HP. solve_Permutation.
Qed.

Lemma i64_small z : 0 <= z < 2 ^ 63 -> i64 z = z.
Proof. intros Hz. unfold i64, w64. rewrite Z.mod_small by lia. by rewrite (proj2 (Z.ltb_lt z (2 ^ 63))) by lia. Qed.

Lemma seqZ_snoc m n : 0 <= n -> seqZ m (n + 1) = seqZ m n ++ [m + n].
Proof. intros Hn. rewrite seqZ_app by lia. done. Qed.

Lemma Handed_sound p passed i : sound p passed -> next p <= last -> jobsClosed p = false -> workers p !! i = Some Idle ->
  sound (p <| next := i64 (next p + 1) |> <| workers := <[i := Sweeping (next p)]> (workers p) |>) passed.
Proof.
  intros [H1 H2 H3 H4 H5 H6 H7 H8 H9 H10] Hn Hj Hi. split; cbn; rewrite ?i64_small by lia; try done; try lia.
  - replace (next p + 1 - first) with (next p - first + 1) by lia. rewrite seqZ_snoc by lia. replace (first + (next p - first)) with (next p) by lia.
    rewrite <- H2. unfold pending. cbn. pose proof (busy_insert (workers p) i Idle (Sweeping (next p)) Hi) as HB. cbn [busy app] in HB.
    rewrite HB. solve_Permutation.
  - intros s err [[=]|Hs]%elem_insert. by apply H5.
  - congruence.
  - intros [[=]|Hs]%elem_insert. by apply H8.
  - intros Hc. destruct (H9 Hc) as [? _]. congruence.
  - by apply insert_nonempty.
Qed.

Lemma worker_sound p passed i w w' rs : sound p passed -> workers p !! i = Some w -> resultsClosed p = false ->
  busy w' ++ rs.*1 ≡ₚ busy w ++ (results p).*1 -> (forall s err, w' = Sending s err -> err = sweep s) ->
  Forall (fun r => r.2 = sweep r.1) rs -> (w' = Exited -> jobsClosed p = true) ->
  sound (p <| workers := <[i := w']> (workers p) |> <| results := rs |>) passed.
Proof.
  intros [H1 H2 H3 H4 H5 H6 H7 H8 H9 H10] Hi Hr HP Hs Hrs Hx. split; cbn; try done.
  - rewrite <- H2. unfold pending at 1. cbn. by rewrite (replaced p i w w' rs Hi HP).
  - intros s err [E1|Hin]%elem_insert; [by apply Hs|by apply H5].
  - intros [E1|Hin]%elem_insert; [by apply Hx|by apply H8].
  - congruence.
  - by apply insert_nonempty.
Qed.

(** A result that is counted. *)
Lemma Counted_sound p passed seed rest : sound p passed -> results p = (seed, None) :: rest ->
  sound (p <| results := rest |> <| counted := w64 (counted p + 1) |>) (passed ++ [seed]).
Proof.
  intros [H1 H2 H3 H4 H5 H6 H7 H8 H9 H10] Hr. rewrite Hr in H6. apply Forall_cons in H6 as [Hs HR]. cbn in Hs.
  assert (len passed + 1 <= last - first + 1) as Hlen.
  { assert (length (passed ++ pending p) = Z.to_nat (next p - first)) as L by by rewrite H2, length_seqZ.
    unfold pending in L. rewrite !length_app, length_fmap, Hr in L. cbn [length] in L. unfold len. lia. }
  split; cbn; try done.
  - rewrite <- H2. unfold pending. cbn. rewrite Hr. cbn. solve_Permutation.
  - apply Forall_app. split; [done|]. by constructor.
  - rewrite H4. unfold len in *. rewrite length_app. cbn. unfold w64. rewrite Z.mod_small by lia. lia.
Qed.

(** A pool that has ended has passed every seed. *)
Lemma ended_sound p passed : sound p passed -> results p = [] -> resultsClosed p = true ->
  counted p = last - first + 1 /\ forall s, first <= s <= last -> sweep s = None.
Proof.
  intros [H1 H2 H3 H4 H5 H6 H7 H8 H9 H10] Hr Hc. destruct (H9 Hc) as [Hj HF]. specialize (H7 Hj).
  assert (pending p = []) as E1.
  { unfold pending. rewrite Hr, app_nil_r. clear -HF. induction HF as [|w l -> _ IH]; [done|]. exact IH. }
  rewrite E1, app_nil_r, H7 in H2. split.
  - rewrite H4. unfold len. rewrite H2, length_seqZ. lia.
  - intros s Hs. rewrite Forall_forall in H3. apply H3. rewrite H2. apply elem_of_seqZ. lia.
Qed.

Lemma results_range p passed x e : sound p passed -> (x, e) ∈ results p -> first <= x <= last /\ e = sweep x.
Proof.
  intros Hp Hx. split.
  - assert (x ∈ seqZ first (next p - first)) as Hq.
    { rewrite <- (so_seeds _ _ Hp). apply elem_of_app. right. apply elem_of_app. right. by apply (list_elem_of_fmap_2 fst _ (x, e)). }
    apply elem_of_seqZ in Hq. pose proof (so_next _ _ Hp). lia.
  - pose proof (so_results _ _ Hp) as HF. rewrite Forall_forall in HF. exact (HF _ Hx).
Qed.

Lemma step_sound p p' passed : sound p passed -> step sweep last p p' ->
  true_ p' /\ (state p' = Running -> exists passed', sound p' passed').
Proof.
  intros Hp Hs. assert (forall i w, workers p !! i = Some w -> w <> Exited -> resultsClosed p = false) as Hopen.
  { intros i w Hi Hw. destruct (resultsClosed p) eqn:E1; [|done]. destruct (so_closed _ _ Hp E1) as [_ HF].
    rewrite Forall_lookup in HF. by apply HF in Hi. }
  destruct Hs as [p i Hst Hj Hn Hi|p Hst Hj Hn|p i seed Hst Hi|p i seed err Hst Hi Hl|p i Hst Hj Hi|p Hst Hj Hr HF|p seed rest Hst Hr|p seed e rest Hst Hr|p Hst Hr Hc];
    unfold true_; cbn; rewrite ?Hst.
  - split; [done|]. intros _. exists passed. by apply Handed_sound.
  - split; [done|]. intros _. exists passed. destruct Hp as [H1 H2 H3 H4 H5 H6 H7 H8 H9 H10]. split; cbn; try done; [lia|].
    intros Hc. by destruct (H9 Hc).
  - split; [done|]. intros _. exists passed.
    apply (worker_sound p passed i _ (Sending seed (sweep seed)) (results p) Hp Hi); try done; [by eapply Hopen|by intros s err [= -> ->]|apply Hp].
  - split; [done|]. intros _. exists passed.
    apply (worker_sound p passed i _ Idle (results p ++ [(seed, err)]) Hp Hi); try done; [by eapply Hopen|..].
    + rewrite fmap_app. cbn. solve_Permutation.
    + apply Forall_app. split; [apply Hp|]. constructor; [|done]. cbn. eapply so_sending; [done|]. by eapply list_elem_of_lookup_2.
  - split; [done|]. intros _. exists passed.
    apply (worker_sound p passed i _ Exited (results p) Hp Hi); try done; [by eapply Hopen|apply Hp].
  - split; [done|]. intros _. exists passed. by destruct Hp; split.
  - split; [done|]. intros _. exists (passed ++ [seed]). by apply Counted_sound.
  - split; [|done]. destruct (results_range p passed seed (Some e) Hp) as [? ?]; [rewrite Hr; left|]. done.
  - split; [|done]. by eapply ended_sound.
Qed.

(** What a worker has left to do. *)
Definition load (w : worker E) : nat := match w with Idle => 1 | Sweeping _ => 4 | Sending _ _ => 3 | Exited => 0 end.

(** The pool is never stuck. *)
Lemma progress p passed : sound p passed -> state p = Running -> exists p', step sweep last p p'.
Proof.
  intros Hp Hst. destruct (results p) as [|[seed [e|]] rest] eqn:Hr; [|by eexists; eapply Reported|by eexists; eapply Counted].
  destruct (decide (Exists (fun w => busy w <> []) (workers p))) as [Hb|Hb].
  { apply Exists_exists in Hb as (w & [i Hi]%list_elem_of_lookup & Hw). destruct w as [|s|s err|]; try done.
    - eexists. by eapply Swept.
    - eexists. eapply Sent; [done|done|]. rewrite Hr. apply lookup_lt_Some in Hi. cbn. lia. }
  assert (forall i w, workers p !! i = Some w -> w = Idle \/ w = Exited) as Hq.
  { intros i w Hi. destruct w; try by auto. all: destruct Hb; apply Exists_exists; eexists; split; [by eapply list_elem_of_lookup_2|done]. }
  destruct (jobsClosed p) eqn:Hj.
  - destruct (decide (Exists (fun w => load w = 1%nat) (workers p))) as [Hi|Hi].
    { apply Exists_exists in Hi as (w & [i Hi]%list_elem_of_lookup & Hw). destruct w; try done. eexists. by eapply WorkerDone. }
    assert (Forall (fun w => w = Exited) (workers p)) as HF.
    { apply Forall_lookup. intros i w Hw. destruct (Hq i w Hw) as [->|]; [|done]. destruct Hi. apply Exists_exists.
      eexists. split; [by eapply list_elem_of_lookup_2|done]. }
    destruct (resultsClosed p) eqn:Hc; eexists; [by eapply Finished|by eapply ResultsClosed].
  - destruct (workers p) as [|w l] eqn:Hw; [by destruct (so_workers _ _ Hp)|].
    destruct (Hq 0%nat w eq_refl) as [->| ->].
    + destruct (Z.le_gt_cases (next p) last); eexists; [eapply (Handed _ _ p 0); [done..|by rewrite Hw]|by eapply JobsClosed].
    + rewrite (so_exited _ _ Hp) in Hj; [done|]. rewrite Hw. left.
Qed.

(** What is left to do. *)
Definition work (p : pool E) : nat :=
  (4 * Z.to_nat (last + 1 - next p) + sum_list_with load (workers p) + length (results p) +
   (if jobsClosed p then 0 else 1) + (if resultsClosed p then 0 else 1) + (if state p is Running then 1 else 0))%nat.

Lemma load_insert (l : list (worker E)) i w w' :
  l !! i = Some w -> (sum_list_with load (<[i := w']> l) + load w = sum_list_with load l + load w')%nat.
Proof.
  intros Hi. rewrite (insert_take_drop l i w') by by eapply lookup_lt_Some. rewrite <- (take_drop_middle l i w Hi) at 3.
  rewrite !sum_list_with_app. cbn [sum_list_with]. lia.
Qed.

Lemma step_work p p' passed : sound p passed -> step sweep last p p' -> (work p' < work p)%nat.
Proof.
  intros Hp Hs. pose proof (so_next _ _ Hp) as Hb. unfold work.
  destruct Hs as [p i Hst Hj Hn Hi|p Hst Hj Hn|p i seed Hst Hi|p i seed err Hst Hi Hl|p i Hst Hj Hi|p Hst Hj Hr HF|p seed rest Hst Hr|p seed e rest Hst Hr|p Hst Hr Hc];
    cbn [next jobsClosed workers results resultsClosed counted state upd]; rewrite ?Hst, ?Hj, ?Hr, ?Hc.
  - pose proof (load_insert _ _ _ (Sweeping (next p)) Hi) as HL. cbn [load] in HL. rewrite i64_small by lia. cbn. lia.
  - cbn. lia.
  - pose proof (load_insert _ _ _ (Sending seed (sweep seed)) Hi) as HL. cbn [load] in HL. cbn. lia.
  - pose proof (load_insert _ _ _ Idle Hi) as HL. cbn [load] in HL. cbn. rewrite length_app. cbn. lia.
  - pose proof (load_insert _ _ _ Exited Hi) as HL. cbn [load] in HL. cbn. lia.
  - cbn. lia.
  - cbn. lia.
  - cbn. lia.
  - cbn. lia.
Qed.

Lemma nsteps_sound n : forall p p' passed, sound p passed -> true_ p -> nsteps (step sweep last) n p p' ->
  (n <= work p)%nat /\ true_ p' /\ (state p' = Running -> exists passed', sound p' passed').
Proof.
  induction n as [|n IH]; intros p p' passed Hp Ht Hn; inversion Hn as [|? ? q ? Hs Hr]; subst; clear Hn.
  { split; [lia|]. split; [done|]. by exists passed. }
  pose proof (step_work p q passed Hp Hs) as Hw. destruct (step_sound p q passed Hp Hs) as [Hq Hq'].
  destruct (state q) eqn:E1.
  - destruct (Hq' eq_refl) as [passed' Hp']. destruct (IH q p' passed' Hp' Hq Hr) as (? & ? & ?). split; [lia|]. done.
  - assert (n = 0%nat) as -> by (destruct n; [done|]; inversion Hr as [|? ? q' ? Hs' _]; subst; destruct Hs'; congruence).
    inversion Hr; subst. split; [lia|]. split; [done|]. by rewrite E1.
  - assert (n = 0%nat) as -> by (destruct n; [done|]; inversion Hr as [|? ? q' ? Hs' _]; subst; destruct Hs'; congruence).
    inversion Hr; subst. split; [lia|]. split; [done|]. by rewrite E1.
Qed.

End invariant.

Lemma runSeeds_sound {E} (sweep : Z -> option E) first last count p0 :
  runSeeds first last count = Some p0 -> 0 <= first <= last /\ sound sweep first last p0 [] /\ state p0 = Running /\
  work last p0 = (4 * Z.to_nat (last + 1 - first) + Z.to_nat count + 3)%nat /\ 1 <= count.
Proof.
  unfold runSeeds. destruct ((first <? 0) || (last <? first) || (count <? 1)) eqn:Eb; [done|]. intros [= <-].
  apply orb_false_iff in Eb as [[E1 E2]%orb_false_iff E3]. apply Z.ltb_ge in E1, E2, E3. split; [lia|].
  assert (replicate (Z.to_nat count) (Idle (E := E)) ≫= busy = []) as Eb by (generalize (Z.to_nat count); intros k; by induction k).
  split; [|split; [done|split; [|lia]]].
  - split; cbn; try done; try lia.
    + unfold pending. cbn. rewrite Eb. by rewrite Z.sub_diag.
    + intros s err Hs. by apply elem_of_replicate in Hs as [[=] _].
    + intros Hs. by apply elem_of_replicate in Hs as [[=] _].
    + destruct (Z.to_nat count) eqn:Ew; [lia|done].
  - unfold work. cbn [next workers results jobsClosed resultsClosed state].
    enough (sum_list_with load (replicate (Z.to_nat count) (Idle (E := E))) = Z.to_nat count) by (cbn; lia).
    generalize (Z.to_nat count). intros k. induction k as [|k IH]; [done|]. cbn in *. by rewrite IH.
Qed.

(** C28 Sweeping a range of seeds.  For a range that ends before the largest
    [int64], any number of workers and any interleaving of the goroutines: a run
    takes a bounded number of steps, and as long as the command has not returned
    some goroutine can go on, so it returns.  When it reports a pass, every seed of
    the range was swept without an error and was counted once; when it reports a
    failure, it names a seed of the range and the error of its sweep. *)
Theorem seeds_swept {E} (sweep : Z -> option E) first last count p0 n p :
  runSeeds first last count = Some p0 -> last < 2 ^ 63 - 1 -> nsteps (step sweep last) n p0 p ->
  Z.of_nat n <= 4 * (last - first + 1) + count + 3 /\
  match state p with
  | Running => exists p', step sweep last p p'
  | Passed k => k = last - first + 1 /\ forall s, first <= s <= last -> sweep s = None
  | FailedSeed s e => first <= s <= last /\ sweep s = Some e
  end.
Proof.
  intros HR Hl Hn. destruct (runSeeds_sound sweep first last count p0 HR) as (Hf & H0 & Hst & Hw0 & Hc).
  assert (true_ sweep first last p0) as Ht0 by (unfold true_; by rewrite Hst).
  destruct (nsteps_sound sweep first last ltac:(lia) Hl n p0 p [] H0 Ht0 Hn) as (Hw & Ht & Hr). split; [lia|].
  unfold true_ in Ht. destruct (state p) eqn:Es; [|done|done]. destruct (Hr eq_refl) as [passed Hp]. by eapply progress.
Qed.

(** C24 No seed fails.  With any generator, in whatever orders the safety check
    ranges over its nodes, a sweep of a seed that returns has found nothing: every
    restart from the logs succeeded and no check failed.  So when the sweeps of a
    range return, the command reports no failure, whatever the interleaving of its
    goroutines; once it returns, it has passed with the number of the seeds. *)
Theorem sweep_clean {R} (Intn Int63n : Z -> R -> Z * R) (NewSource : Z -> R) (sha256 : bytes -> bytes)
    (orders : Z -> Z -> list Z * list Z * (Z -> list Z)) (fuel : Z -> nat) (sweep : Z -> option sweepError) steps first last count p0 n p :
  is_u64 steps ->
  (forall seed t, let '(order, outer, inner) := orders seed t in
     order ≡ₚ RaftCluster.allIds 5 /\ outer ≡ₚ RaftCluster.allIds 5 /\ forall a, inner a ≡ₚ RaftCluster.allIds 5) ->
  (forall seed, first <= seed <= last ->
     sweepSeed Intn Int63n NewSource sha256 (orders seed) (fuel seed) seed steps = Ret (sweep seed)) ->
  (forall seed, first <= seed <= last -> sweep seed = None) /\
  (runSeeds first last count = Some p0 -> last < 2 ^ 63 - 1 -> nsteps (step sweep last) n p0 p ->
   state p = Running \/ state p = Passed (last - first + 1)).
Proof.
  intros Hst Ho Hsw.
  assert (forall seed, first <= seed <= last -> sweep seed = None) as Hnone.
  { intros seed Hs. by eapply sweepSeed_none; [apply Ho|exact Hst|apply Hsw]. }
  split; [done|]. intros HR Hl Hn. destruct (runSeeds_sound sweep first last count p0 HR) as (Hf & H0 & Hs0 & _ & _).
  assert (true_ sweep first last p0) as Ht0 by (unfold true_; by rewrite Hs0).
  destruct (nsteps_sound sweep first last ltac:(lia) Hl n p0 p [] H0 Ht0 Hn) as (_ & Ht & _).
  unfold true_ in Ht. destruct (state p) as [|k|s e]; [by left|right|].
  - by destruct Ht as [-> _].
  - destruct Ht as [Hs He]. by rewrite Hnone in He.
Qed.

Module Demo.

Definition fine {E} (s : Z) : option E := None.

Definition onePool {E} (n : Z) (w : worker E) : pool E := mkPool n false [w] [] false 0 Running.

(** One seed and one worker, to the end. *)
Lemma one_seed E : nsteps (step (E := E) fine 3) 8 (onePool 3 Idle) (mkPool 4 true [Exited] [] true 1 (Passed 1)).
Proof.
  eapply nsteps_l; [apply (Handed fine 3 (onePool 3 Idle) 0); reflexivity || lia|].
  eapply nsteps_l; [eapply (Swept fine 3 _ 0 3); reflexivity|].
  eapply nsteps_l; [eapply (Sent fine 3 _ 0 3 None); [reflexivity|reflexivity|cbn; lia]|].
  eapply nsteps_l; [eapply (Counted fine 3 _ 3 []); reflexivity|].
  eapply nsteps_l; [eapply JobsClosed; reflexivity|].
  eapply nsteps_l; [eapply (WorkerDone fine 3 _ 0); reflexivity|].
  eapply nsteps_l; [eapply ResultsClosed; [reflexivity|reflexivity|reflexivity|repeat constructor]|].
  eapply nsteps_l; [eapply Finished; reflexivity|]. apply nsteps_O.
Qed.

Lemma seeds_swept_witness :
  exists p, nsteps (step (E := error) fine 3) 8 (onePool 3 Idle) p /\ state p = Passed 1 /\ 8 <= 4 * (3 - 3 + 1) + 1 + 3 /\
    forall s, 3 <= s <= 3 -> fine (E := error) s = None.
Proof.
  destruct (seeds_swept fine 3 3 1 (onePool 3 Idle) 8 _ eq_refl ltac:(lia) (one_seed error)) as [Hn [_ Hs]].
  eexists. split; [exact (one_seed error)|]. split; [reflexivity|]. split; [exact Hn|exact Hs].
Defined.

(** Draws that run through all values; the nodes in ascending order. *)
Definition draw (n r : Z) : Z * Z := (r mod n, r + 1).
Definition hash (b : bytes) : bytes := take 32 b.
Definition ascending (t : Z) : list Z * list Z * (Z -> list Z) :=
  (RaftCluster.allIds 5, RaftCluster.allIds 5, fun _ => RaftCluster.allIds 5).

(** Seed 3, for 120 ticks with seven proposals and a restart. *)
Lemma sweep_clean_witness :
  sweepSeed draw draw id hash ascending 1000 3 120 = Ret None /\
  exists p, nsteps (step (E := sweepError) fine 3) 8 (onePool 3 Idle) p /\ (state p = Running \/ state p = Passed (3 - 3 + 1)).
Proof.
  assert (sweepSeed draw draw id hash ascending 1000 3 120 = Ret None) as H3 by (vm_compute; reflexivity).
  destruct (sweep_clean draw draw id hash (fun _ => ascending) (fun _ => 1000%nat) fine 120 3 3 1
    (onePool 3 Idle) 8 (mkPool 4 true [Exited] [] true 1 (Passed 1))) as [_ Hp].
  - unfold is_u64. lia.
  - intros seed t. cbn. split; [reflexivity|]. split; [reflexivity|]. intros a. reflexivity.
  - intros seed Hs. assert (seed = 3) as -> by lia. exact H3.
  - split; [exact H3|]. eexists. split; [exact (one_seed sweepError)|]. apply Hp; [reflexivity|lia|exact (one_seed sweepError)].
Defined.

(** A range up to the largest [int64]: the next seed wraps around, and the pool goes
    on with seeds outside the range. *)
Theorem seeds_wrap :
  exists p, nsteps (step (E := error) fine (2 ^ 63 - 1)) 5 (onePool (2 ^ 63 - 1) Idle) p /\ workers p = [Sweeping (- 2 ^ 63)].
Proof.
  eexists. split.
  - eapply nsteps_l; [apply (Handed fine _ (onePool (2 ^ 63 - 1) Idle) 0); [reflexivity|reflexivity|cbn; lia|reflexivity]|].
    eapply nsteps_l; [eapply (Swept fine _ _ 0); reflexivity|].
    eapply nsteps_l; [eapply (Sent fine _ _ 0); [reflexivity|reflexivity|cbn; lia]|].
    eapply nsteps_l; [eapply Counted; reflexivity|].
    eapply nsteps_l; [eapply (Handed fine _ _ 0); [reflexivity|reflexivity|vm_compute; discriminate|reflexivity]|]. apply nsteps_O.
  - reflexivity.
Qed.

End Demo.
End Seeds.
