(* ===== verification/Server.v ===== *)
(** * The replicated key-value server

    [server/server.go]: the single loop that owns the Raft node and the state
    machine, and the connections that feed it through bounded channels.  Results:
    every request that reaches the loop is answered at most once and never lost,
    and no send blocks the loop; a get is answered from a machine that has applied
    everything its read barrier covers, and a mutation is acknowledged from the
    entries the loop applied; the loop never panics on messages that follow the
    protocol, and applies every committed entry once and in order; what one server
    sends is what its peer receives; and four defects. *)

From S2P Require Import Prelude Bytes RaftTypes Quorum RaftNode RaftInv RaftStep RaftClient RaftSafety Operations.
From S2P Require Import StateMachine Wal RaftWal Snapshot RaftStore EventHeap Engine RaftCluster Protocol.

Module Server.
Import Protocol.

(** ** Data *)

(** Times are in nanoseconds. *)
Record Config := mkConfig {
  ID : Z;
  Peers : gmap Z string;
  PeerAddress : string;
  ClientAddress : string;
  HTTPAddress : string;
  DataDir : string;
  ElectionTicks : Z;
  TickInterval : Z;
  QueueCapacity : Z;
  RequestTimeout : Z;
  SnapshotEntries : Z
}.

#[export] Instance eta_Config : Eta Config := fun c =>
  mkConfig (ID c) (Peers c) (PeerAddress c) (ClientAddress c) (HTTPAddress c) (DataDir c) (ElectionTicks c)
    (TickInterval c) (QueueCapacity c) (RequestTimeout c) (SnapshotEntries c).

(** A reply channel is named by the number of the request it was made for. *)
Record request := mkReq { value : ClientRequest; reply : nat }.

Record pendingRead := mkRead { context : Z; r_request : request }.

Record Metrics := mkMetrics { Requests : Z; Committed : Z; Duplicates : Z; Busy : Z; PeerErrors : Z }.

#[export] Instance eta_Metrics : Eta Metrics := fun m =>
  mkMetrics (Requests m) (Committed m) (Duplicates m) (Busy m) (PeerErrors m).

(** How the loop can stop other than by returning: a panic of the node, or a
    send on a reply channel whose one slot is taken. *)
Inductive Stop := NodePanic (p : RaftNode.Panic) | Blocked.

(** The result of [server.Open]. *)
Inductive opened (A : Type) := Opened (s : A) | OpenError (e : error) | OpenPanic.
Arguments Opened {A}.
Arguments OpenError {A}.
Arguments OpenPanic {A}.

Section server.
Context {S : Type} `{!StableStore S}.

(** The orders in which Go ranges over the maps of the machine and over the
    addresses of the peers. *)
Context (orders : StateMachine.Machine -> list Z * list Z) (peerOrder : gmap Z string -> list Z).

(** The server with its two channels.  [answers] are the sends on reply channels,
    [direct] the responses a connection writes without asking the loop, and
    [submitted] the requests that reached the loop's channel, whose place there is
    the number of their reply channel.  [stopped] is the loop's return value. *)
Record Server := mkServer {
  config : Config;
  node : Node S;
  machine : StateMachine.Machine;
  inbound : list Message;
  requests : list request;
  pending : gmap (Z * Z) (list nat);
  reads : list pendingRead;
  metrics : Metrics;
  commit : Z;
  answers : list (nat * ClientResponse);
  direct : list ClientResponse;
  submitted : list ClientRequest;
  stopped : option (option error)
}.

#[export] Instance eta_Server : Eta Server := fun s =>
  mkServer (config s) (node s) (machine s) (inbound s) (requests s) (pending s) (reads s) (metrics s)
    (commit s) (answers s) (direct s) (submitted s) (stopped s).

Abbreviation SM := (M Server Stop).

(** A method of the node. *)
Definition onNode {A} (op : MN S A) : SM A := fun s =>
  match op (node s) with
  | Done a n => Done a (s <| node := n |>)
  | Panicked p => Panicked (NodePanic p)
  end.

(** [reply <- response] on a channel of capacity one.  A second send would block
    unless the connection had taken the first response; it counts as blocked. *)
Definition send (ch : nat) (response : ClientResponse) : SM () := fun s =>
  if decide (ch ∈ (answers s).*1) then Panicked Blocked
  else Done () (s <| answers := answers s ++ [(ch, response)] |>).

Definition count (f : Metrics -> Metrics) : SM () := modify (fun s => s <| metrics := f (metrics s) |>).
Definition addRequest (m : Metrics) : Metrics := m <| Requests := w64 (Requests m + 1) |>.
Definition addCommitted (m : Metrics) : Metrics := m <| Committed := w64 (Committed m + 1) |>.
Definition addDuplicate (m : Metrics) : Metrics := m <| Duplicates := w64 (Duplicates m + 1) |>.
Definition addBusy (m : Metrics) : Metrics := m <| Busy := w64 (Busy m + 1) |>.
Definition addPeerError (m : Metrics) : Metrics := m <| PeerErrors := w64 (PeerErrors m + 1) |>.

Definition response (status : Z) (q : ClientRequest) (v : Z) (s : Server) : ClientResponse :=
  mkResponse status (n_Leader (node s)) (q_RequestID q) v (n_Commit (node s)).

(** [incoming.reply <- s.response(status, req, value)]. *)
Definition respond (status : Z) (incoming : request) (v : Z) : SM () :=
  s ← get; send (reply incoming) (response status (value incoming) v s).

(** ** The loop *)

Definition contextID (q : ClientRequest) : Z := Z.lxor (w64 (Z.shiftl (q_ClientID q) 32)) (q_RequestID q).

Definition handleGet (incoming : request) : SM () :=
  s ← get;
  match reads s with
  | _ :: _ => count addBusy ;; respond StatusBusy incoming 0
  | [] =>
      let c := contextID (value incoming) in
      if c =? 0 then respond StatusBusy incoming 0 else
      ok ← onNode (StartReadIndex c);
      if ok : bool then modify (fun s => s <| reads := reads s ++ [mkRead c incoming] |>)
      else respond StatusBusy incoming 0
  end.

Definition handleMutation (incoming : request) : SM () :=
  s ← get;
  let q := value incoming in
  if (q_ClientID q =? 0) || (q_RequestID q =? 0) then respond StatusInvalid incoming 0 else
  match StateMachine.Cached (q_ClientID q) (q_RequestID q) (machine s) with
  | inl _ => respond StatusInvalid incoming 0
  | inr (result, true) => count addDuplicate ;; respond StatusOK incoming (StateMachine.Value result)
  | inr (_, false) =>
      let key := (q_ClientID q, q_RequestID q) in
      match pending s !! key with
      | Some waiters => modify (fun s => s <| pending := <[key := waiters ++ [reply incoming]]> (pending s) |>)
      | None =>
          let propose operation :=
            ok ← onNode (ProposeRequest operation (q_ClientID q) (q_RequestID q) (q_Key q) (q_Value q));
            if ok : bool then modify (fun s => s <| pending := <[key := [reply incoming]]> (pending s) |>)
            else respond StatusBusy incoming 0 in
          if q_Operation q =? ClientPut then propose CommandPut
          else if q_Operation q =? ClientDelete then propose CommandDelete
          else respond StatusInvalid incoming 0
      end
  end.

Definition handleRequest (incoming : request) : SM () :=
  count addRequest ;;
  s ← get;
  let op := q_Operation (value incoming) in
  if op =? ClientStatus then respond StatusOK incoming 0
  else if negb (bool_decide (n_State (node s) = Leader)) then respond StatusNotLeader incoming 0
  else if op =? ClientGet then handleGet incoming
  else handleMutation incoming.

(** One entry of the loop of [apply]. *)
Definition applyEntry (entry : Entry) : SM () :=
  s ← get;
  let (m, r) := StateMachine.Apply entry (machine s) in
  modify (fun s => s <| machine := m |>) ;;
  let status := match r with inl _ => StatusInvalid | inr _ => StatusOK end in
  let v := match r with inl _ => 0 | inr result => StateMachine.Value result end in
  let key := (e_ClientID entry, e_RequestID entry) in
  (match pending s !! key with
   | Some waiters =>
       let resp := mkResponse status (n_Leader (node s)) (e_RequestID entry) v (n_Commit (node s)) in
       forM_ waiters (fun ch => send ch resp) ;;
       modify (fun s => s <| pending := delete key (pending s) |>)
   | None => mret ()
   end) ;;
  count addCommitted.

Definition apply : SM () :=
  entries ← onNode (ApplyEntries []);
  forM_ entries applyEntry ;;
  s ← get;
  let n := node s in
  let threshold := SnapshotEntries (config s) in
  if negb (threshold =? 0) && (threshold <=? w64 (n_Applied n - n_BaseIndex n)) then
    let (keys, clients) := orders (machine s) in
    _ ← onNode (Compact (n_Applied n) (StateMachine.Snapshot keys clients (machine s)));
    mret ()
  else mret ().

Definition completeRead (remaining : list pendingRead) (r : pendingRead) : SM (list pendingRead) :=
  s ← get;
  let due := match ReadIndex (node s) (context r) with
             | Some index => negb (n_Applied (node s) <? index)
             | None => false
             end in
  if due : bool then
    let (v, found) := StateMachine.Get (q_Key (value (r_request r))) (machine s) in
    respond (if found : bool then StatusOK else StatusNotFound) (r_request r) v ;;
    mret remaining
  else mret (remaining ++ [r]).

Definition completeReads : SM () :=
  s ← get;
  remaining ← foldM completeRead [] (reads s);
  modify (fun s => s <| reads := remaining |>).

(** What the [select] of the loop can receive. *)
Inductive input := InMessage (m : Message) | InRequest (r : request) | InTick.

Definition ErrRaftStorage (e : error) : error := ("server: raft storage: " ++ e)%string.

(** The cases of the [select]. *)
Definition receive (i : input) : SM () :=
  match i with
  | InMessage m => onNode (RaftNode.Step m)
  | InRequest r => handleRequest r
  | InTick => onNode RaftNode.Tick
  end.

(** One iteration: the messages handed to [sendPeer], unless storage failed and
    the loop returned. *)
Definition turn (i : input) : SM (list Message) :=
  receive i ;;
  s ← get;
  match n_storageErr (node s) with
  | Some e => modify (fun s => s <| stopped := Some (Some (ErrRaftStorage e)) |>) ;; mret []
  | None =>
      outbound ← onNode (RaftNode.Drain []);
      apply ;;
      completeReads ;;
      modify (fun s => s <| commit := n_Commit (node s) |>) ;;
      mret outbound
  end.

(** ** Connections *)

(** The goroutine of a peer connection, up to the channel. *)
Definition receivePeer (id : Z) (stream : bytes) : option Message :=
  match ReadFrame stream with
  | inl _ => None
  | inr (kind, payload, _) =>
      if negb (kind =? KindPeer) then None else
      match DecodePeer payload with
      | inl _ => None
      | inr m => if negb (m_To m =? id) then None else Some m
      end
  end.

(** [acceptPeers]: a full channel drops the message. *)
Definition acceptPeer (stream : bytes) (s : Server) : Server :=
  match receivePeer (ID (config s)) stream with
  | None => s
  | Some m =>
      if len (inbound s) <? QueueCapacity (config s) then s <| inbound := inbound s ++ [m] |>
      else s <| metrics := addBusy (metrics s) |>
  end.

(** [handleClient], up to the wait for the loop's response. *)
Definition handleClient (stream : bytes) (s : Server) : Server :=
  match ReadFrame stream with
  | inl _ => s
  | inr (kind, payload, _) =>
      if negb (kind =? KindClientRequest) then s else
      match DecodeClientRequest payload with
      | inl _ => s <| direct := direct s ++ [mkResponse StatusInvalid 0 0 0 0] |>
      | inr v =>
          if len (requests s) <? QueueCapacity (config s) then
            s <| requests := requests s ++ [mkReq v (length (submitted s))] |> <| submitted := submitted s ++ [v] |>
          else s <| metrics := addBusy (metrics s) |>
                 <| direct := direct s ++ [mkResponse StatusBusy 0 (q_RequestID v) 0 0] |>
      end
  end.

(** How [handleClient] ends: it is handed the response, the server is shutting
    down, or the timer fires.  The result is the response it writes. *)
Inductive waited := Replied (p : ClientResponse) | Cancelled | TimedOut.

Definition awaitReply (q : ClientRequest) (w : waited) : option ClientResponse :=
  match w with
  | Replied p => Some p
  | Cancelled => None
  | TimedOut => Some (mkResponse StatusTimeout 0 (q_RequestID q) 0 0)
  end.

(** [sendPeer]; [dial] is the connection to an address, if there is one. *)
Definition sendPeer {W} `{!Writer W} (dial : string -> option W) (m : Message) (s : Server) : Server * option W :=
  match Peers (config s) !! m_To m with
  | None => (s, None)
  | Some address =>
      match dial address with
      | None => (s <| metrics := addPeerError (metrics s) |>, None)
      | Some w =>
          let (w, err) := WriteFrame KindPeer (EncodePeer m) w in
          match err with
          | Some _ => (s <| metrics := addPeerError (metrics s) |>, Some w)
          | None => (s, Some w)
          end
      end
  end.

(** ** The interleaving of the loop and the connections *)

Inductive event :=
| PeerConnection (stream : bytes)
| ClientConnection (stream : bytes)
| TakeMessage
| TakeRequest
| Ticked
| Cancel.

(** What the [select] receives: an iteration needs a loop that is running and a
    case that is ready. *)
Definition selected (e : event) (s : Server) : option (input * Server) :=
  match stopped s with
  | Some _ => None
  | None =>
      match e with
      | TakeMessage => match inbound s with m :: l => Some (InMessage m, s <| inbound := l |>) | [] => None end
      | TakeRequest => match requests s with r :: l => Some (InRequest r, s <| requests := l |>) | [] => None end
      | Ticked => Some (InTick, s)
      | _ => None
      end
  end.

(** Without an iteration only the connections and the shutdown do something. *)
Definition idle (e : event) (s : Server) : Server :=
  match e with
  | PeerConnection stream => acceptPeer stream s
  | ClientConnection stream => handleClient stream s
  | Cancel => match stopped s with None => s <| stopped := Some None |> | Some _ => s end
  | _ => s
  end.

Definition exec (e : event) : SM (list Message) := fun s =>
  match selected e s with
  | Some (i, s) => turn i s
  | None => Done [] (idle e s)
  end.

Definition execAll (l : list event) : SM () := forM_ l (fun e => _ ← exec e; mret ()).

(** The entries an iteration hands to the machine: what [ApplyEntries] returns at
    that point of it. *)
Definition takes (i : input) : SM (list Entry) :=
  receive i ;;
  s ← get;
  match n_storageErr (node s) with
  | Some _ => mret []
  | None => onNode (RaftNode.Drain []) ;; onNode (ApplyEntries [])
  end.

Definition taken (e : event) (s : Server) : list Entry :=
  match selected e s with
  | Some (i, s) => match takes i s with Done l _ => l | Panicked _ => [] end
  | None => []
  end.

(** All entries that were handed to the machine in a run. *)
Fixpoint applied (l : list event) (s : Server) : list Entry :=
  match l with
  | [] => []
  | e :: l => taken e s ++ match exec e s with Done _ s' => applied l s' | Panicked _ => [] end
  end.

(** ** Open *)

Definition ErrConfig : error := "server: incomplete configuration".

Definition defaults (c : Config) : Config :=
  let c := if ElectionTicks c =? 0 then c <| ElectionTicks := w64 (10 + ID c) |> else c in
  let c := if TickInterval c =? 0 then c <| TickInterval := 50000000 |> else c in
  let c := if QueueCapacity c =? 0 then c <| QueueCapacity := 1024 |> else c in
  if RequestTimeout c =? 0 then c <| RequestTimeout := 5000000000 |> else c.

(** The loop over the committed entries: the first error ends it. *)
Fixpoint replay (entries : list Entry) (m : StateMachine.Machine) : error + StateMachine.Machine :=
  match entries with
  | [] => inr m
  | e :: l =>
      match StateMachine.Apply e m with
      | (_, inl err) => inl err
      | (m, inr _) => replay l m
      end
  end.

Definition newServer (c : Config) (n : Node S) (m : StateMachine.Machine) : Server :=
  mkServer c n m [] [] ∅ [] (mkMetrics 0 0 0 0 0) 0 [] [] [] None.

(** [Open]; [storage] is what creating the directory and opening the store in it
    returned.  A negative capacity makes [make] panic. *)
Definition Open (c : Config) (storage : error + S * RaftStore.Recovery) : opened Server :=
  if (ID c =? 0) || bool_decide (PeerAddress c = ""%string) || bool_decide (ClientAddress c = ""%string) ||
     bool_decide (DataDir c = ""%string) then OpenError ErrConfig else
  let c := defaults c in
  match storage with
  | inl e => OpenError e
  | inr (store, recovery) =>
      let peerIDs := filter (fun id => id <> ID c) (peerOrder (Peers c)) in
      let snap := RaftStore.Snapshot recovery in
      let recovered :=
        if negb (s_LastIndex snap =? 0) then
          (NewRecoveredNodeWithSnapshot (ID c) peerIDs (ElectionTicks c) store (RaftStore.Hard recovery) snap
             (RaftStore.Suffix recovery),
           if decide (s_State snap = []) then inr StateMachine.New else StateMachine.Restore (s_State snap))
        else
          (NewRecoveredNode (ID c) peerIDs (ElectionTicks c) store (RaftStore.Hard recovery)
             (zeroEntry :: RaftStore.Suffix recovery), inr StateMachine.New) in
      match recovered with
      | (Panicked _, _) => OpenPanic
      | (Done _ _, inl e) => OpenError e
      | (Done _ n, inr m) =>
          match ApplyEntries [] n with
          | Panicked _ => OpenPanic
          | Done entries n =>
              match replay entries m with
              | inl e => OpenError e
              | inr m => if QueueCapacity c <? 0 then OpenPanic else Opened (newServer c n m)
              end
          end
      end
  end.

End server.

(** ** What is owed to the clients *)

Definition isGet (q : ClientRequest) : Prop := q_Operation q = ClientGet.
Definition isMutation (q : ClientRequest) : Prop := q_Operation q <> ClientGet /\ q_Operation q <> ClientStatus.

(** The machine after a list of entries. *)
Definition after (m0 : StateMachine.Machine) (l : list Entry) : StateMachine.Machine :=
  foldl (fun m e => (StateMachine.Apply e m).1) m0 l.

(** The reply [p] to [q] is right for a machine [m0] that since has applied
    [history]: to a get it is as [G] says; a mutation is acknowledged after a point
    at which the machine remembers the request with that result, or at a legacy
    entry that carries the numbers of the request. *)
Definition justified (G : ClientRequest -> ClientResponse -> Prop) (m0 : StateMachine.Machine) (history : list Entry)
    (q : ClientRequest) (p : ClientResponse) : Prop :=
  (isGet q -> p_Status p = StatusOK \/ p_Status p = StatusNotFound -> G q p) /\
  (isMutation q -> p_Status p = StatusOK -> exists pre, pre `prefix_of` history /\
     ((exists r, StateMachine.Cached (q_ClientID q) (q_RequestID q) (after m0 pre) = inr (r, true) /\
                 StateMachine.Value r = p_Value p) \/
      (exists e, last pre = Some e /\ e_Operation e = CommandLegacy /\
                 e_ClientID e = q_ClientID q /\ e_RequestID e = q_RequestID q))).

Lemma justified_more G m0 h e q p : justified G m0 h q p -> justified G m0 (h ++ [e]) q p.
Proof.
  intros [H1 H2]. split; [done|].
  intros Hq Hs. destruct (H2 Hq Hs) as (pre & Hp & H). exists pre. split; [by apply prefix_app_r|done].
Qed.

(** A refusal needs no justification. *)
Lemma justified_refusal G m0 h q p :
  p_Status p <> StatusOK -> p_Status p <> StatusNotFound -> justified G m0 h q p.
Proof. intros H1 H2. split; [by intros _ [?|?]|done]. Qed.

(** The channels that wait for a mutation. *)
Definition waiters (p : gmap (Z * Z) (list nat)) : list nat := concat (map_to_list p).*2.

Lemma waiters_insert p key ws :
  p !! key = None -> waiters (<[key := ws]> p) ≡ₚ ws ++ waiters p.
Proof. intros H. unfold waiters. by rewrite map_to_list_insert. Qed.

Lemma waiters_delete p key ws :
  p !! key = Some ws -> waiters p ≡ₚ ws ++ waiters (delete key p).
Proof.
  intros H. rewrite <- (insert_delete_id p key ws H) at 1. rewrite waiters_insert; [done|apply lookup_delete_eq].
Qed.

Lemma waiters_update p key ws ch :
  p !! key = Some ws -> waiters (<[key := ws ++ [ch]]> p) ≡ₚ ch :: waiters p.
Proof.
  intros H. rewrite <- insert_delete_eq, waiters_insert by apply lookup_delete_eq.
  rewrite (waiters_delete p key ws H). by rewrite <- Permutation_middle, app_nil_r.
Qed.

Section owed.
Context {S : Type} `{!StableStore S} (orders : StateMachine.Machine -> list Z * list Z).
Abbreviation server := (Server (S := S)).
Implicit Types s : server.

(** Where the reply channels are. *)
Definition holders s : list nat :=
  (answers s).*1 ++ waiters (pending s) ++ ((fun r => reply (r_request r)) <$> reads s) ++ (reply <$> requests s).

(** Every channel is in one place; [hand] are those the loop is about to answer.
    Since a machine [m0] and the answers [old], [history] was applied, and what was
    answered since is justified. *)
Record good (G : ClientRequest -> ClientResponse -> Prop) (m0 : StateMachine.Machine) (old : list (nat * ClientResponse))
    (history : list Entry) (hand : list nat) s : Prop := {
  g_owes : hand ++ holders s ≡ₚ seq 0 (length (submitted s));
  g_requests : Forall (fun r => submitted s !! reply r = Some (value r)) (requests s);
  g_reads : Forall (fun r => submitted s !! reply (r_request r) = Some (value (r_request r)) /\
                             isGet (value (r_request r)) /\ context r = contextID (value (r_request r))) (reads s);
  g_pending : map_Forall (fun key ws => Forall (fun ch => exists q, submitted s !! ch = Some q /\ isMutation q /\
                            (q_ClientID q, q_RequestID q) = key) ws) (pending s);
  g_machine : machine s = after m0 history;
  g_answers : exists new, answers s = old ++ new /\
                Forall (fun a => exists q, submitted s !! a.1 = Some q /\ p_RequestID a.2 = q_RequestID q /\
                         justified G m0 history q a.2) new
}.

(** The loop may stop in a panic of the node, but it never blocks. *)
Definition unblocked (e : Stop) : Prop := e <> Blocked.

Abbreviation safe m Q s := (wpx m Q unblocked s).

Lemma onNode_safe {A} (op : MN S A) (Q : A -> server -> Prop) s :
  (forall a n, op (node s) = Done a n -> Q a (s <| node := n |>)) -> safe (onNode op) Q s.
Proof. intros H. unfold wpx, onNode. destruct (op (node s)) as [a n|]; [by apply H|done]. Qed.

Lemma good_node G m0 old h hand s n : good G m0 old h hand s -> good G m0 old h hand (s <| node := n |>).
Proof. by intros []. Qed.

Lemma good_metrics G m0 old h hand s f : good G m0 old h hand s -> good G m0 old h hand (s <| metrics := f (metrics s) |>).
Proof. by intros []. Qed.

Lemma send_safe G m0 old h ch hand p q s (Q : () -> server -> Prop) :
  good G m0 old h (ch :: hand) s -> submitted s !! ch = Some q -> p_RequestID p = q_RequestID q -> justified G m0 h q p ->
  (good G m0 old h hand (s <| answers := answers s ++ [(ch, p)] |>) -> Q () (s <| answers := answers s ++ [(ch, p)] |>)) ->
  safe (send ch p) Q s.
Proof.
  intros [Ho Hr Hrd Hp Hm Ha] Hq Hid Hj HQ. unfold wpx, send. case_decide as Hin.
  - exfalso. assert (NoDup ((ch :: hand) ++ holders s)) as Hnd by (rewrite Ho; apply NoDup_seq).
    apply NoDup_app in Hnd as (_ & Hnd & _). apply (Hnd ch); [by left|]. unfold holders. apply elem_of_app. by left.
  - apply HQ. split; try done; cbn.
    + rewrite <- Ho. unfold holders. cbn. rewrite fmap_app. cbn. rewrite <- !app_assoc. cbn.
      by rewrite <- !Permutation_middle.
    + destruct Ha as (new & -> & Ha). exists (new ++ [(ch, p)]). split; [by rewrite app_assoc|].
      apply Forall_app. split; [done|]. apply Forall_singleton. by exists q.
Qed.

Lemma respond_safe G m0 old h r status v s :
  good G m0 old h [reply r] s -> submitted s !! reply r = Some (value r) ->
  justified G m0 h (value r) (response status (value r) v s) ->
  safe (respond status r v) (fun _ s' => good G m0 old h [] s') s.
Proof.
  intros Hg Hr Hj. unfold respond. apply wpx_bind. unfold wpx at 1. cbn [get].
  by eapply send_safe; [exact Hg|exact Hr|done|exact Hj|].
Qed.

Lemma refuse_safe G m0 old h r status v s :
  good G m0 old h [reply r] s -> submitted s !! reply r = Some (value r) ->
  status <> StatusOK -> status <> StatusNotFound ->
  safe (respond status r v) (fun _ s' => good G m0 old h [] s') s.
Proof. intros Hg Hr H1 H2. apply respond_safe; [done|done|]. by apply justified_refusal. Qed.

Lemma handleGet_safe G m0 old h r s :
  good G m0 old h [reply r] s -> submitted s !! reply r = Some (value r) -> isGet (value r) ->
  safe (handleGet r) (fun _ s' => good G m0 old h [] s') s.
Proof.
  intros Hg Hr Hq. unfold handleGet. apply wpx_bind. unfold wpx at 1. cbn [get].
  destruct (reads s) as [|r0 rs] eqn:Erd.
  - cbn zeta. destruct (_ =? 0); [by apply refuse_safe|].
    apply wpx_bind, onNode_safe. intros [] n _; [|by apply refuse_safe; [apply good_node|..]].
    destruct Hg as [Ho Hrq Hrd Hp Hm Ha]. unfold wpx, modify. split; try done; cbn.
    + rewrite <- Ho. unfold holders. cbn. rewrite Erd. cbn. rewrite !Permutation_middle. done.
    + rewrite Erd. cbn. by apply Forall_singleton.
  - apply wpx_bind. unfold wpx at 1. cbn [count modify]. by apply refuse_safe; [apply good_metrics|..].
Qed.

Lemma handleMutation_safe G m0 old h r s :
  good G m0 old h [reply r] s -> submitted s !! reply r = Some (value r) -> isMutation (value r) ->
  safe (handleMutation r) (fun _ s' => good G m0 old h [] s') s.
Proof.
  intros Hg Hr Hq. unfold handleMutation. apply wpx_bind. unfold wpx at 1. cbn [get]. cbn zeta.
  set (q := value r) in *. destruct (_ || _); [by apply refuse_safe|].
  destruct (StateMachine.Cached _ _ _) as [e|[res ok]] eqn:Ec; [by apply refuse_safe|]. destruct ok.
  { apply wpx_bind. unfold wpx at 1. cbn [count modify]. apply respond_safe; [by apply good_metrics|done|].
    split; [by intros ?%Hq|]. intros _ _. exists h. split; [done|]. left. exists res. split; [|done].
    by rewrite <- (g_machine _ _ _ _ _ _ Hg). }
  destruct (pending s !! (q_ClientID q, q_RequestID q)) as [ws|] eqn:Ep.
  { destruct Hg as [Ho Hrq Hrd Hp Hm Ha]. unfold wpx, modify. split; try done; cbn.
    - rewrite <- Ho. unfold holders. cbn. rewrite (waiters_update _ _ _ _ Ep). cbn. by rewrite <- Permutation_middle.
    - apply map_Forall_insert_2; [|done]. apply Forall_app. split; [exact (Hp _ _ Ep)|].
      apply Forall_singleton. by exists q. }
  assert (forall op, safe (ok ← onNode (ProposeRequest op (q_ClientID q) (q_RequestID q) (q_Key q) (q_Value q));
    if ok : bool then modify (fun s => s <| pending := <[(q_ClientID q, q_RequestID q) := [reply r]]> (pending s) |>)
    else respond StatusBusy r 0) (fun _ s' => good G m0 old h [] s') s) as Hpropose.
  { intros op. apply wpx_bind, onNode_safe. intros [] n _; [|by apply refuse_safe; [apply good_node|..]].
    destruct Hg as [Ho Hrq Hrd Hp Hm Ha]. unfold wpx, modify. split; try done; cbn.
    - rewrite <- Ho. unfold holders. cbn. rewrite (waiters_insert _ _ _ Ep). cbn. by rewrite <- Permutation_middle.
    - apply map_Forall_insert_2; [|done]. apply Forall_singleton. by exists q. }
  destruct (_ =? ClientPut); [apply Hpropose|]. destruct (_ =? ClientDelete); [apply Hpropose|by apply refuse_safe].
Qed.

Lemma handleRequest_safe G m0 old h r s :
  good G m0 old h [reply r] s -> submitted s !! reply r = Some (value r) ->
  safe (handleRequest r) (fun _ s' => good G m0 old h [] s') s.
Proof.
  intros Hg Hr. unfold handleRequest. apply wpx_bind. unfold wpx at 1. cbn [count modify].
  apply (good_metrics _ _ _ _ _ _ addRequest) in Hg. set (s1 := s <| metrics := _ |>) in *.
  assert (submitted s1 !! reply r = Some (value r)) as Hr1 by done. clearbody s1.
  apply wpx_bind. unfold wpx at 1. cbn [get]. cbn zeta.
  destruct (Z.eqb_spec (q_Operation (value r)) ClientStatus) as [E1|E1].
  { apply respond_safe; [done|done|]. split; [unfold isGet; rewrite E1; done|by intros [_ ?]]. }
  destruct (negb _); [by apply refuse_safe|].
  destruct (Z.eqb_spec (q_Operation (value r)) ClientGet) as [E2|E2]; [by apply handleGet_safe|].
  by apply handleMutation_safe.
Qed.

(** *** Applying *)

(** What was applied without an error is remembered with its result. *)
Lemma Apply_remembered e m m' r :
  StateMachine.Apply e m = (m', inr r) -> e_Operation e <> CommandLegacy ->
  exists r', StateMachine.Cached (e_ClientID e) (e_RequestID e) m' = inr (r', true) /\
    StateMachine.Value r' = StateMachine.Value r.
Proof.
  intros H Hop. unfold StateMachine.Apply in H. rewrite (proj2 (Z.eqb_neq _ _) Hop) in H. cbn zeta in H.
  assert (match StateMachine.execute e (StateMachine.values m) with
    | None => (m, inl StateMachine.ErrUnsupported)
    | Some (vs, value, found) =>
        (StateMachine.mkMachine vs (<[e_ClientID e := StateMachine.mkClient (e_RequestID e) value found]> (StateMachine.clients m)),
         inr (StateMachine.mkResult (e_ClientID e) (e_RequestID e) value found))
    end = (m', inr r) -> exists r', StateMachine.Cached (e_ClientID e) (e_RequestID e) m' = inr (r', true) /\
    StateMachine.Value r' = StateMachine.Value r) as Hfresh.
  { destruct (StateMachine.execute e _) as [[[vs v] f]|]; [|done]. intros [= <- <-]. unfold StateMachine.Cached. cbn.
    rewrite lookup_insert_eq. cbn. rewrite Z.ltb_irrefl. by eexists. }
  destruct (StateMachine.clients m !! e_ClientID e) as [p|] eqn:Ep; [|by apply Hfresh].
  destruct (Z.eqb_spec (StateMachine.c_RequestID p) (e_RequestID e)) as [E|E].
  - injection H as <- <-. unfold StateMachine.Cached. rewrite Ep, E, Z.ltb_irrefl. by eexists.
  - destruct (_ <? _); [done|by apply Hfresh].
Qed.

Lemma send_pending ch p pend s :
  send ch p (s <| pending := pend |>) =
  match send ch p s with Done a s' => Done a (s' <| pending := pend |>) | Panicked e => Panicked e end.
Proof. unfold send. change (answers (s <| pending := pend |>)) with (answers s). by case_decide. Qed.

(** Answering the waiters of a mutation, whose place is no longer theirs. *)
Lemma answerAll_safe G m0 old h key p pend ws : forall s,
  good G m0 old h ws (s <| pending := pend |>) ->
  Forall (fun ch => exists q, submitted s !! ch = Some q /\ isMutation q /\ (q_ClientID q, q_RequestID q) = key) ws ->
  p_RequestID p = key.2 ->
  (forall q, isMutation q -> (q_ClientID q, q_RequestID q) = key -> justified G m0 h q p) ->
  safe (forM_ ws (fun ch => send ch p)) (fun _ s' => good G m0 old h [] (s' <| pending := pend |>) /\ pending s' = pending s) s.
Proof.
  induction ws as [|ch ws IH]; intros s Hg Hws Hid Hj; [done|]. apply Forall_cons in Hws as [(q & Hq & Hmut & Hkey) Hws].
  cbn [forM_]. apply wpx_bind.
  assert (safe (send ch p) (fun _ s' => good G m0 old h ws s' /\ submitted s' = submitted s /\ pending s' = pend)
    (s <| pending := pend |>)) as Hs.
  { eapply send_safe; [exact Hg|exact Hq|rewrite Hid; by subst key|by apply Hj|done]. }
  unfold wpx in Hs. rewrite send_pending in Hs. unfold send in Hs. unfold wpx at 1. unfold send. case_decide; [done|].
  destruct Hs as (Hg' & Hsub & _). eapply wpx_mono; [apply IH; [exact Hg'|exact Hws|done|done]|].
  by intros _ s' [H1 H2].
Qed.

Lemma applyEntry_safe G m0 old h e s :
  good G m0 old h [] s -> safe (applyEntry e) (fun _ s' => good G m0 old (h ++ [e]) [] s') s.
Proof.
  intros Hg. pose proof Hg as [Ho Hrq Hrd Hp Hm Ha]. unfold applyEntry. apply wpx_bind. unfold wpx at 1. cbn [get].
  destruct (StateMachine.Apply e (machine s)) as [m r] eqn:EA.
  assert (m = after m0 (h ++ [e])) as Em. { unfold after. rewrite foldl_app. cbn. fold (after m0 h). by rewrite <- Hm, EA. }
  apply wpx_bind. unfold wpx at 1. cbn [modify]. set (s1 := s <| machine := m |>). cbn zeta.
  assert (good G m0 old (h ++ [e]) [] s1) as Hg1.
  { split; try done. cbn. destruct Ha as (new & En & Ha). exists new. split; [done|]. eapply Forall_impl; [exact Ha|].
    intros a (q & H1 & H2 & H3). exists q. split; [done|]. split; [done|]. by apply justified_more. }
  apply wpx_bind. apply (wpx_mono _ (fun _ s' => good G m0 old (h ++ [e]) [] s')).
  2: { intros _ s' H. unfold count, wpx, modify. by apply good_metrics. }
  change (pending s) with (pending s1).
  destruct (pending s1 !! (e_ClientID e, e_RequestID e)) as [ws|] eqn:Ep; [|done].
  apply wpx_bind. eapply wpx_mono.
  - apply (answerAll_safe G m0 old (h ++ [e]) (e_ClientID e, e_RequestID e) _
      (delete (e_ClientID e, e_RequestID e) (pending s1))).
    + destruct Hg1 as [Ho1 Hrq1 Hrd1 Hp1 Hm1 Ha1]. split; try done; cbn.
      * etrans; [|exact Ho1]. unfold holders. cbn. rewrite (waiters_delete (pending s) _ _ Ep). cbn [app].
        rewrite <- !app_assoc. apply Permutation_app_swap_app.
      * by apply map_Forall_delete.
    + exact (Hp _ _ Ep).
    + done.
    + intros q Hmut [= H1 H2]. split; [by intros ?%Hmut|]. intros _. cbn. destruct r as [|res]; [done|]. intros _.
      exists (h ++ [e]). split; [done|]. destruct (decide (e_Operation e = CommandLegacy)) as [El|El].
      * right. exists e. rewrite last_snoc. done.
      * left. destruct (Apply_remembered e _ _ _ EA El) as (r' & Hr1 & Hr2). exists r'.
        by rewrite H1, H2, <- Em.
  - intros _ s' [H1 H2]. unfold wpx, modify. by rewrite H2.
Qed.

Lemma applyAll_safe G m0 old l : forall h s,
  good G m0 old h [] s -> safe (forM_ l applyEntry) (fun _ s' => good G m0 old (h ++ l) [] s') s.
Proof.
  induction l as [|e l IH]; intros h s Hg; cbn [forM_].
  - unfold wpx. cbn. by rewrite app_nil_r.
  - apply wpx_bind. eapply wpx_mono; [by apply applyEntry_safe|]. intros [] s2 H2. cbn beta in H2.
    replace (h ++ e :: l) with ((h ++ [e]) ++ l) by by rewrite <- app_assoc. by apply IH.
Qed.

(** [apply] hands what [ApplyEntries] returns to the machine. *)
Lemma apply_safe G m0 old s :
  good G m0 old [] [] s ->
  safe (apply orders) (fun _ s' => exists l n, ApplyEntries [] (node s) = Done l n /\ good G m0 old l [] s') s.
Proof.
  intros Hg. unfold apply. apply wpx_bind, onNode_safe. intros entries n En.
  apply wpx_bind. eapply wpx_mono; [apply (applyAll_safe G m0 old entries []); by apply good_node|].
  intros [] s1 Hg1. apply wpx_bind. unfold wpx at 1. cbn [get]. cbn zeta.
  destruct (negb _ && _); [|by exists entries, n]. destruct (orders (machine s1)) as [keys clients].
  apply wpx_bind, onNode_safe. intros a n1 _. exists entries, n. split; [done|]. by apply good_node.
Qed.

Lemma send_reads ch p rs s :
  send ch p (s <| reads := rs |>) =
  match send ch p s with Done a s' => Done a (s' <| reads := rs |>) | Panicked e => Panicked e end.
Proof. unfold send. change (answers (s <| reads := rs |>)) with (answers s). by case_decide. Qed.

(** The read [r] leaves the list and its channel is in hand. *)
Lemma good_take_read G m0 old h s rem r todo :
  good G m0 old h [] (s <| reads := rem ++ r :: todo |>) ->
  good G m0 old h [reply (r_request r)] (s <| reads := rem ++ todo |>) /\
  submitted s !! reply (r_request r) = Some (value (r_request r)) /\ isGet (value (r_request r)) /\
  context r = contextID (value (r_request r)).
Proof.
  intros [Ho Hrq Hrd Hp Hm Ha]. cbn in Hrd. apply Forall_app in Hrd as [H1 [H2 H3]%Forall_cons]. split; [|done].
  split; try done; cbn.
  - etrans; [|exact Ho]. unfold holders. cbn. rewrite !fmap_app. cbn. rewrite <- !app_assoc. cbn.
    by rewrite !(app_assoc _ (waiters _)), !(app_assoc _ (_ <$> rem)), <- Permutation_middle.
  - by apply Forall_app.
Qed.

(** What a get is told: the value of its key in the machine, when the node has
    applied everything up to the index its barrier was confirmed for. *)
Definition truth (n : Node S) (m : StateMachine.Machine) (q : ClientRequest) (p : ClientResponse) : Prop :=
  StateMachine.Get (q_Key q) m = (p_Value p, bool_decide (p_Status p = StatusOK)) /\
  exists i, ReadIndex n (contextID q) = Some i /\ i <= n_Applied n.

Lemma completeReads_loop n m m0 old h todo : forall rem s,
  node s = n -> machine s = m -> good (truth n m) m0 old h [] (s <| reads := rem ++ todo |>) ->
  safe (foldM completeRead rem todo)
    (fun rem' s' => node s' = n /\ machine s' = m /\ good (truth n m) m0 old h [] (s' <| reads := rem' |>)) s.
Proof.
  induction todo as [|r todo IH]; intros rem s Hn Hm Hg; cbn [foldM].
  { unfold wpx. cbn. by rewrite app_nil_r in Hg. }
  apply wpx_bind. unfold completeRead. apply wpx_bind. unfold wpx at 1. cbn [get]. cbn zeta.
  destruct (match ReadIndex _ _ with Some _ => _ | None => _ end) eqn:Edue.
  2: { unfold wpx at 1. cbn [mret M_ret]. apply IH; [done|done|]. by rewrite <- app_assoc. }
  destruct (good_take_read _ _ _ _ _ _ _ _ Hg) as (Hg1 & Hsub & Hget & Hctx).
  destruct (StateMachine.Get _ (machine s)) as [v found] eqn:EG.
  apply wpx_bind. apply (wpx_mono _ (fun _ s' => node s' = n /\ machine s' = m /\
    good (truth n m) m0 old h [] (s' <| reads := rem ++ todo |>))).
  2: { intros _ s' (H1 & H2 & H3). unfold wpx at 1. cbn [mret M_ret]. by apply IH. }
  unfold respond. apply wpx_bind. unfold wpx at 1. cbn [get].
  set (p := response _ _ _ s).
  assert (safe (send (reply (r_request r)) p) (fun _ s' => node s' = n /\ machine s' = m /\ good (truth n m) m0 old h [] s')
    (s <| reads := rem ++ todo |>)) as H.
  { eapply send_safe; [exact Hg1|exact Hsub|done| |by intros]. split; [|by intros [? _]]. intros _ _.
    rewrite <- Hn, <- Hm. split; [rewrite EG; f_equal; cbn; by destruct found|].
    rewrite <- Hctx. destruct (ReadIndex (node s) (context r)) as [i|]; [|done]. exists i. split; [done|].
    apply negb_true_iff, Z.ltb_ge in Edue. exact Edue. }
  unfold wpx in H |- *. rewrite send_reads in H. by destruct (send _ _ s).
Qed.

Lemma justified_weaken G G' m0 h q p : (forall q p, G q p -> G' q p) -> justified G m0 h q p -> justified G' m0 h q p.
Proof. intros HG [H1 H2]. split; [|done]. auto. Qed.

Lemma good_weaken G G' m0 old h hand s : (forall q p, G q p -> G' q p) -> good G m0 old h hand s -> good G' m0 old h hand s.
Proof.
  intros HG [Ho Hrq Hrd Hp Hm (new & En & Ha)]. split; try done. exists new. split; [done|]. eapply Forall_impl; [exact Ha|].
  intros a (q & H1 & H2 & H3). exists q. split; [done|]. split; [done|]. by eapply justified_weaken.
Qed.

(** Between events: the channels are in order. *)
Abbreviation noGet := (fun (_ : ClientRequest) (_ : ClientResponse) => False).
Definition fair hand s : Prop := good noGet (machine s) (answers s) [] hand s.

Lemma good_fair G m0 old h s : good G m0 old h [] s -> fair [] s.
Proof. intros [Ho Hrq Hrd Hp Hm Ha]. split; try done. exists []. by rewrite app_nil_r. Qed.

Lemma takes_spec i s s1 :
  receive i s = Done () s1 ->
  takes i s =
  match n_storageErr (node s1) with
  | Some _ => Done [] s1
  | None =>
      match ApplyEntries [] (node s1 <| n_outbound := [] |>) with
      | Done l n => Done l (s1 <| node := n |>)
      | Panicked p => Panicked (NodePanic p)
      end
  end.
Proof.
  intros E. unfold takes, mbind, M_bind. rewrite E. unfold get. destruct (n_storageErr (node s1)); [done|].
  unfold onNode, RaftNode.Drain, mbind, M_bind, get, modify, mret, M_ret.
  change (node (s1 <| node := ?n |>)) with n. by destruct (ApplyEntries [] _).
Qed.

Lemma turn_good i s :
  (match i with InRequest r => fair [reply r] s /\ submitted s !! reply r = Some (value r) | _ => fair [] s end) ->
  safe (turn orders i) (fun _ s' => good (truth (node s') (machine s')) (machine s) (answers s)
    match takes i s with Done l _ => l | Panicked _ => [] end [] s') s.
Proof.
  intros Hi. unfold turn. apply wpx_bind.
  assert (safe (receive i) (fun _ s' => good noGet (machine s) (answers s) [] [] s') s) as Hrec.
  { unfold receive. destruct i as [m|r|].
    - apply onNode_safe. intros [] n _. by apply good_node.
    - destruct Hi. by apply handleRequest_safe.
    - apply onNode_safe. intros [] n _. by apply good_node. }
  unfold wpx in Hrec. unfold wpx at 1. pose proof (takes_spec i s) as Ht. destruct (receive i s) as [[] s1|]; [|done].
  specialize (Ht s1 eq_refl). rewrite Ht. apply wpx_bind. unfold wpx at 1. cbn [get]. destruct (n_storageErr (node s1)).
  { apply (good_weaken noGet); [done|]. destruct Hrec. by split. }
  apply wpx_bind, onNode_safe. intros out n [= _ <-]. apply (good_node _ _ _ _ _ _ (node s1 <| n_outbound := [] |>)) in Hrec.
  apply wpx_bind. eapply wpx_mono; [by apply apply_safe|]. intros [] s2 (l & n2 & El & H2). cbn [node] in El.
  change (node (s1 <| node := node s1 <| n_outbound := [] |> |>)) with (node s1 <| n_outbound := [] |>) in El. rewrite El.
  apply wpx_bind. apply (wpx_mono _ (fun _ s' => good (truth (node s') (machine s')) (machine s) (answers s) l [] s')).
  - unfold completeReads. apply wpx_bind. unfold wpx at 1. cbn [get]. apply wpx_bind.
    eapply wpx_mono; [apply (completeReads_loop (node s2) (machine s2) (machine s) (answers s) l); [done..|]|].
    + apply (good_weaken noGet); [done|]. cbn [app]. by destruct s2.
    + intros rem s3 (H3 & H4 & H5). unfold wpx. cbn. by rewrite H3, H4.
  - intros _ s3 H3. unfold wpx. cbn. destruct H3. by split.
Qed.

(** A new request takes the next channel. *)
Lemma good_submit G m0 old h v s :
  good G m0 old h [] s ->
  good G m0 old h [] (s <| requests := requests s ++ [mkReq v (length (submitted s))] |> <| submitted := submitted s ++ [v] |>).
Proof.
  intros [Ho Hrq Hrd Hp Hm Ha].
  assert (forall ch q, submitted s !! ch = Some q -> (submitted s ++ [v]) !! ch = Some q) as Hold.
  { intros ch q. apply lookup_app_l_Some. }
  split; try done; cbn.
  - rewrite length_app. cbn. rewrite seq_app, <- Ho. unfold holders. cbn. rewrite fmap_app. cbn.
    by rewrite !app_assoc.
  - apply Forall_app. split; [eapply Forall_impl; [exact Hrq|]; cbn; eauto|]. apply Forall_singleton. cbn.
    by rewrite lookup_app_r, Nat.sub_diag.
  - eapply Forall_impl; [exact Hrd|]. intros r [H1 H2]. eauto.
  - eapply map_Forall_impl; [exact Hp|]. intros key ws Hws. eapply Forall_impl; [exact Hws|].
    intros ch (q & H1 & H2 & H3). eauto.
  - destruct Ha as (new & En & Ha). exists new. split; [done|]. eapply Forall_impl; [exact Ha|]. intros a (q & H1 & H2). eauto.
Qed.

Lemma idle_fair e s : fair [] s -> fair [] (idle e s) /\ answers (idle e s) = answers s /\ machine (idle e s) = machine s.
Proof.
  intros Hg. unfold idle. destruct e as [stream|stream| | | |]; try done.
  - unfold acceptPeer. destruct (receivePeer _ _); [|done].
    destruct (_ <? _); [|split; [by apply good_metrics|done]]. split; [destruct Hg; by split|done].
  - unfold handleClient. destruct (ReadFrame stream) as [|[[kind payload] rest]]; [done|].
    destruct (negb _); [done|]. destruct (DecodeClientRequest payload) as [|v]; [split; [destruct Hg; by split|done]|].
    destruct (_ <? _); [split; [by apply good_submit|done]|]. split; [destruct Hg; by split|done].
  - destruct (stopped s); [done|]. split; [destruct Hg; by split|done].
Qed.

Lemma exec_good e s :
  fair [] s -> safe (exec orders e)
    (fun _ s' => good (truth (node s') (machine s')) (machine s) (answers s) (taken e s) [] s') s.
Proof.
  intros Hg. unfold wpx, exec, taken. destruct (selected e s) as [[i s1]|] eqn:Es.
  - assert (machine s1 = machine s /\ answers s1 = answers s /\
      match i with InRequest r => fair [reply r] s1 /\ submitted s1 !! reply r = Some (value r) | _ => fair [] s1 end) as (<- & <- & H1).
    { unfold selected in Es. destruct (stopped s); [done|]. destruct e as [stream|stream| | | |]; try done.
      - destruct (inbound s); [done|]. injection Es as <- <-. split; [done|]. split; [done|]. destruct Hg; by split.
      - destruct (requests s) as [|r l] eqn:Er; [done|]. injection Es as <- <-. split; [done|]. split; [done|].
        destruct Hg as [Ho Hrq Hrd Hp Hm Ha]. rewrite Er in Hrq.
        apply Forall_cons in Hrq as [H1 H2]. split; [|done]. split; try done. etrans; [|exact Ho].
        unfold holders. cbn. rewrite Er. cbn. by rewrite <- !Permutation_middle.
      - by injection Es as <- <-. }
    apply (turn_good i s1 H1).
  - destruct (idle_fair e s Hg) as (H1 & H2 & H3). apply (good_weaken noGet); [done|]. by rewrite <- H2, <- H3.
Qed.

Lemma execAll_fair l : forall s,
  fair [] s -> safe (execAll orders l) (fun _ s' => fair [] s' /\ machine s' = after (machine s) (applied orders l s)) s.
Proof.
  induction l as [|e l IH]; intros s Hg; [done|]. unfold execAll. cbn [forM_ applied].
  pose proof (exec_good e s Hg) as He. apply wpx_bind, wpx_bind. unfold wpx in He. unfold wpx at 1.
  destruct (exec orders e s) as [out s1|]; [|done]. unfold wpx at 1. cbn [mret M_ret].
  eapply wpx_mono; [apply IH; by eapply good_fair|]. intros [] s2 [H1 H2]. split; [done|].
  rewrite H2, (g_machine _ _ _ _ _ _ He). unfold after. by rewrite foldl_app.
Qed.

Lemma newServer_fair c n m : fair [] (newServer c n m).
Proof. split; try done; cbn; [constructor..|]. by exists []. Qed.

(** C12 Every request gets one answer.  Take any server, any interleaving of peer
    and client connections with the iterations of its loop, and any order of its
    maps.  The loop never sends twice on a reply channel, so it never blocks on a
    client; and the channel of every request that was handed to the loop is in
    exactly one place: still in the queue, waiting for a read barrier, waiting
    for its entry to be applied, or answered. *)
Theorem server_replies c (n : Node S) m events :
  match execAll orders events (newServer c n m) with
  | Panicked e => e <> Blocked
  | Done _ s =>
      NoDup (answers s).*1 /\
      (answers s).*1 ++ waiters (pending s) ++ ((fun r => reply (r_request r)) <$> reads s) ++ (reply <$> requests s)
        ≡ₚ seq 0 (length (submitted s))
  end.
Proof.
  pose proof (execAll_fair events _ (newServer_fair c n m)) as H. unfold wpx in H.
  destruct (execAll _ _ _) as [_ s|e]; [|exact H]. destruct H as [[Ho _ _ _ _ _] _]. cbn in Ho. split; [|exact Ho].
  assert (NoDup (holders s)) as Hnd by (rewrite Ho; apply NoDup_seq). by apply NoDup_app in Hnd as [? _].
Qed.


End owed.

(** ** The loop does not panic *)

Section progress.
Context {S : Type} `{!StableStore S} (orders : StateMachine.Machine -> list Z * list Z).
Abbreviation server := (Server (S := S)).
Implicit Types s : server.
Implicit Types n : Node S.

(** No panic of the node; that nothing blocks is a matter of the channels. *)
Abbreviation runs m Q s := (wpx m Q (fun e => e = Blocked) s).

Lemma onNode_runs {A} (op : MN S A) (P : A -> Node S -> Prop) (Q : A -> server -> Prop) s :
  wp op P (node s) -> (forall a n, P a n -> Q a (s <| node := n |>)) -> runs (onNode op) Q s.
Proof. unfold wp, wpx, onNode. destruct (op (node s)) as [a n|]; [eauto|done]. Qed.

(** The same for an operation that leaves the applied index alone. *)
Lemma onNode_steady {A} (op : MN S A) (P : A -> Node S -> Prop) (Q : A -> server -> Prop) s :
  wp op P (node s) -> steady op ->
  (forall a n, P a n -> n_Applied n = n_Applied (node s) -> Q a (s <| node := n |>)) -> runs (onNode op) Q s.
Proof.
  intros H Hs. specialize (Hs _ (node s) eq_refl). revert H Hs. unfold wp, wlp, wpx, onNode.
  destruct (op (node s)) as [a n|]; [eauto|done].
Qed.

(** The node, the machine and the settings, which sends and counters leave alone. *)
Definition core s := (config s, node s, machine s, stopped s).

Lemma send_runs ch p s : runs (send ch p) (fun _ s' => core s' = core s) s.
Proof. unfold wpx, send. by case_decide. Qed.

Lemma respond_runs status r v s : runs (respond status r v) (fun _ s' => core s' = core s) s.
Proof. unfold respond. apply wpx_bind. unfold wpx at 1. cbn [get]. apply send_runs. Qed.

Lemma sends_runs ws p s : runs (forM_ ws (fun ch => send ch p)) (fun _ s' => core s' = core s) s.
Proof.
  revert s. induction ws as [|ch ws IH]; intros s; [done|]. cbn [forM_]. apply wpx_bind.
  eapply wpx_mono; [apply send_runs|]. intros [] s1 E1. eapply wpx_mono; [apply IH|]. intros [] s2 E2. congruence.
Qed.

(** What a request does to the node: at most one entry more. *)
Definition moved s s' : Prop :=
  evolves (top (node s) + 1) 63 (node s) (node s') /\ config s' = config s /\ machine s' = machine s /\
  stopped s' = stopped s /\ n_Applied (node s') = n_Applied (node s).

Lemma moved_core s s' s'' : moved s s' -> core s'' = core s' -> moved s s''.
Proof. unfold moved, core. intros (H1 & H2 & H3 & H4 & H5) [= -> -> -> ->]. done. Qed.

Lemma handleGet_runs r s : node_inv (node s) -> room (node s) 63 -> moved s s -> runs (handleGet r) (fun _ s' => moved s s') s.
Proof.
  intros Hinv Hr Hself. unfold handleGet. apply wpx_bind. unfold wpx at 1. cbn [get]. cbn zeta.
  destruct (reads s).
  - destruct (_ =? 0).
    { eapply wpx_mono; [apply respond_runs|]. intros [] s' E. by eapply moved_core. }
    apply wpx_bind. eapply onNode_steady; [by apply StartReadIndex_wp|apply StartReadIndex_steady|]. intros ok n [Hev _] Ha.
    assert (moved s (s <| node := n |>)) as Hm.
    { split; [|done]. eapply evolves_mono; [exact Hev|lia|lia]. }
    destruct ok; [done|]. eapply wpx_mono; [apply respond_runs|]. intros [] s' E. by eapply moved_core.
  - apply wpx_bind. unfold wpx at 1. cbn [count modify]. eapply wpx_mono; [apply respond_runs|].
    intros [] s' E. by eapply moved_core.
Qed.

Lemma handleMutation_runs r s :
  node_inv (node s) -> top (node s) < maxu64 -> room (node s) 63 -> moved s s ->
  runs (handleMutation r) (fun _ s' => moved s s') s.
Proof.
  intros Hinv Ht Hr Hself. unfold handleMutation. apply wpx_bind. unfold wpx at 1. cbn [get]. cbn zeta.
  assert (forall s1 status v, core s1 = core s -> runs (respond status r v) (fun _ s' => moved s s') s1) as Hresp.
  { intros s1 status v E. eapply wpx_mono; [apply respond_runs|]. intros [] s' E'. eapply moved_core; [exact Hself|congruence]. }
  destruct (_ || _); [by apply Hresp|]. destruct (StateMachine.Cached _ _ _) as [e|[res ok]]; [by apply Hresp|].
  destruct ok; [apply wpx_bind; by apply Hresp|]. destruct (pending s !! _); [done|].
  assert (forall op, runs (ok ← onNode (ProposeRequest op (q_ClientID (value r)) (q_RequestID (value r)) (q_Key (value r)) (q_Value (value r)));
    if ok : bool then modify (fun s => s <| pending := <[(q_ClientID (value r), q_RequestID (value r)) := [reply r]]> (pending s) |>)
    else respond StatusBusy r 0) (fun _ s' => moved s s') s) as Hpropose.
  { intros op. apply wpx_bind. eapply onNode_steady; [by apply ProposeRequest_wp|apply ProposeRequest_steady|]. intros ok n (Hev & _) Ha.
    assert (moved s (s <| node := n |>)) as Hm by done. destruct ok; [done|].
    eapply wpx_mono; [apply respond_runs|]. intros [] s' E. by eapply moved_core. }
  destruct (_ =? ClientPut); [apply Hpropose|]. destruct (_ =? ClientDelete); [apply Hpropose|by apply Hresp].
Qed.

Lemma moved_refl s : node_inv (node s) -> moved s s.
Proof.
  intros (Hwf & _ & Hst). split; [|done]. eapply evolves_mono; [by apply evolves_refl|lia|lia].
Qed.

Lemma handleRequest_runs r s :
  node_inv (node s) -> top (node s) < maxu64 -> room (node s) 63 ->
  runs (handleRequest r) (fun _ s' => moved s s') s.
Proof.
  intros Hinv Ht Hr. unfold handleRequest. apply wpx_bind. unfold wpx at 1. cbn [count modify].
  set (s1 := s <| metrics := _ |>). apply wpx_bind. unfold wpx at 1. cbn [get]. cbn zeta.
  pose proof (moved_refl s1 Hinv) as Hself. change (moved s) with (moved s1).
  assert (forall status v, runs (respond status r v) (fun _ s' => moved s1 s') s1) as Hresp.
  { intros status v. eapply wpx_mono; [apply respond_runs|]. intros [] s' E. by eapply moved_core. }
  destruct (_ =? ClientStatus); [apply Hresp|]. destruct (negb _); [apply Hresp|].
  destruct (_ =? ClientGet); [by apply handleGet_runs|by apply handleMutation_runs].
Qed.

Lemma applyAll_runs l : forall s,
  runs (forM_ l applyEntry)
    (fun _ s' => core s' = (config s, node s, after (machine s) l, stopped s)) s.
Proof.
  induction l as [|e l IH]; intros s; [done|]. cbn [forM_]. apply wpx_bind.
  apply (wpx_mono _ (fun _ s' => core s' = (config s, node s, (StateMachine.Apply e (machine s)).1, stopped s))).
  - unfold applyEntry. apply wpx_bind. unfold wpx at 1. cbn [get].
    destruct (StateMachine.Apply e (machine s)) as [m r]. apply wpx_bind. unfold wpx at 1. cbn [modify]. cbn zeta.
    apply wpx_bind. set (s1 := s <| machine := m |>).
    apply (wpx_mono _ (fun _ s' => core s' = core s1)); [|by intros [] s' E].
    destruct (pending s !! _); [|done]. apply wpx_bind. eapply wpx_mono; [apply sends_runs|]. by intros [] s' E.
  - intros [] s1 E. eapply wpx_mono; [apply IH|]. intros [] s2 E2. rewrite E2. injection E as -> -> -> ->. done.
Qed.

Lemma completeReads_runs s : runs completeReads (fun _ s' => core s' = core s) s.
Proof.
  unfold completeReads. apply wpx_bind. unfold wpx at 1. cbn [get]. apply wpx_bind.
  apply (wpx_mono _ (fun _ s' => core s' = core s)); [|by intros rem s' E].
  generalize (reads s). generalize ([] : list pendingRead). intros rem todo.
  assert (forall s1, core s1 = core s -> runs (foldM completeRead rem todo) (fun _ s' => core s' = core s) s1) as H.
  { revert rem. induction todo as [|r todo IH]; intros rem s1 E; cbn [foldM]; [done|].
    apply wpx_bind. apply (wpx_mono _ (fun _ s' => core s' = core s)); [|intros rem' s' E'; by apply IH].
    unfold completeRead. apply wpx_bind. unfold wpx at 1. cbn [get]. cbn zeta.
    destruct (match ReadIndex _ _ with Some _ => _ | None => _ end); [|done].
    destruct (StateMachine.Get _ _). apply wpx_bind. eapply wpx_mono; [apply respond_runs|].
    intros [] s2 E2. unfold wpx. cbn. congruence. }
  by apply H.
Qed.

(** Only a snapshot can move the applied index past entries. *)
Definition isInstall (i : input) : Prop :=
  match i with InMessage m => m_Type m = MsgInstallSnapshot | _ => False end.

(** What an iteration on the input [i] did, from the server [s] that received it:
    it moved the node only forward and dropped nothing that was committed.  Unless
    the loop stopped, the input left some node [n1], the machine has applied the
    normal entries of [n1] above its applied index up to its commit index, in that
    order, and the applied index is now that commit index; and unless the input
    was a snapshot, the applied index of [n1] was still the one of [s]. *)
Record iterated i s s' : Prop := {
  it_inv : node_inv (node s');
  it_term : n_Term (node s) <= n_Term (node s');
  it_commit : n_Commit (node s) <= n_Commit (node s');
  it_keep : forall j, n_BaseIndex (node s') < j <= n_Commit (node s) -> EntryAt (node s') j = EntryAt (node s) j;
  it_done : stopped s' = None -> n_outbound (node s') = [] /\
    exists s1, receive i s = Done () s1 /\
      let n1 := node s1 in
      (~ isInstall i -> n_Applied n1 = n_Applied (node s)) /\ n_Applied (node s) <= n_Applied n1 <= n_Commit n1 /\
      n_Commit (node s) <= n_Commit n1 /\
      (n_Faulted (node s') = false -> n_Commit (node s') = n_Commit n1 /\ n_Applied (node s') = n_Commit n1) /\
      machine s' = after (machine s) (filter (fun e => e_Kind e = EntryNormal)
        (entries n1 (n_Applied n1 + 1) (n_Commit n1 - n_Applied n1)))
}.

(** [apply] on a node whose messages were taken. *)
Lemma apply_runs s :
  node_inv (node s) -> n_outbound (node s) = [] ->
  runs (apply orders) (fun _ s' =>
    config s' = config s /\ stopped s' = stopped s /\ n_outbound (node s') = [] /\
    (exists n', n' = node s <| n_Applied := n_Commit (node s) |> /\ evolves (top (node s)) 0 n' (node s')) /\
    (n_Faulted (node s') = false -> n_Commit (node s') = n_Commit (node s) /\ n_Applied (node s') = n_Commit (node s)) /\
    machine s' = after (machine s) (filter (fun e => e_Kind e = EntryNormal)
      (entries (node s) (n_Applied (node s) + 1) (n_Commit (node s) - n_Applied (node s))))) s.
Proof.
  intros Hinv Hout. pose proof Hinv as (Hwf & Ht & Hst). unfold apply. apply wpx_bind.
  eapply onNode_runs; [by apply ApplyEntries_wp|]. intros es n1 [-> ->]. cbn [app].
  set (l := filter _ _). set (n1 := node s <| n_Applied := _ |>).
  assert (node_inv n1) as Hinv1.
  { split; [|done]. destruct Hwf as (H1 & H2 & H3 & H4). split_and!; try done. unfold wf_index, n1 in *. cbn. lia. }
  apply wpx_bind. eapply wpx_mono; [apply applyAll_runs|]. intros [] s2 E2. apply wpx_bind. unfold wpx at 1. cbn [get].
  cbn zeta. unfold core in E2. injection E2 as Ec En Em Es. cbn in Ec, En, Em, Es. fold n1 in En.
  assert (evolves (top (node s)) 0 n1 n1) as Hself.
  { apply (evolves_refl n1); [apply Hinv1|apply Hinv1]. }
  destruct (negb _ && _).
  2: { unfold wpx. cbn. rewrite En. split_and!; try done. by exists n1. }
  destruct (orders (machine s2)) as [keys clients]. apply wpx_bind.
  eapply onNode_runs; [rewrite En; by apply Compact_wp|]. intros ok n' [Hev Hok]. unfold wpx. cbn.
  split; [done|]. split; [done|]. assert (n_outbound n' = []) as Hout'.
  { destruct (n_Faulted n') eqn:Hf; [by apply (ev_fault _ _ _ _ Hev Hf)|].
    destruct (ev_sent _ _ _ _ Hev Hf) as (_ & ms & E & Hlen & _). rewrite E. cbn. rewrite Hout.
    destruct ms; [done|unfold len in Hlen; cbn in Hlen; lia]. }
  split; [done|]. split; [by exists n1|]. split; [|done]. intros Hf. destruct ok; [|by destruct Hok as [->|?]; [|congruence]].
  by destruct Hok as (_ & st & ->).
Qed.

Definition inputOk n (i : input) : Prop :=
  match i with InMessage m => msg_ok n m /\ m_Term m < maxu64 | _ => True end.

Lemma input_runs i s :
  node_inv (node s) -> n_outbound (node s) = [] -> top (node s) < maxu64 -> n_Term (node s) < maxu64 ->
  inputOk (node s) i ->
  runs (receive i)
    (fun _ s' => (exists b k, evolves b k (node s) (node s')) /\ config s' = config s /\ machine s' = machine s /\
                 stopped s' = stopped s /\ (~ isInstall i -> n_Applied (node s') = n_Applied (node s))) s.
Proof.
  intros Hinv Hout Ht Htm Hi.
  assert (forall k, k <= outboundCapacity -> room (node s) k) as Hroom.
  { intros k Hk. unfold room. by rewrite Hout. }
  destruct i as [m|r|]; cbn [receive isInstall].
  - destruct Hi. assert (wp (RaftNode.Step m) (fun _ n' => exists b k, evolves b k (node s) n') (node s)) as Hwp.
    { eapply wp_mono; [apply Step_wp; [done..|by apply Hroom]|]. intros [] n Hev. by eexists _, _. }
    destruct (Z.eq_dec (m_Type m) MsgInstallSnapshot) as [E|E].
    + eapply onNode_runs; [exact Hwp|]. intros [] n Hev. by split_and!.
    + eapply onNode_steady; [exact Hwp|by apply Step_steady|]. intros [] n Hev Ha. by split_and!.
  - eapply wpx_mono; [apply handleRequest_runs; [done..|by apply Hroom]|].
    intros [] s' (Hev & H1 & H2 & H3 & H4). split; [by eexists _, _|done].
  - eapply onNode_steady; [apply Tick_wp; [done..|by apply Hroom]|apply Tick_steady|].
    intros [] n Hev Ha. split_and!; try done. by eexists _, _.
Qed.

Lemma applied_inv n : node_inv n -> n_storageErr n = None ->
  n_Applied n <= n_Commit n /\ node_inv (n <| n_outbound := [] |>) /\ node_inv (n <| n_outbound := [] |> <| n_Applied := n_Commit n |>).
Proof.
  intros ((H1 & H2 & H3 & H4) & H5 & H6) He. unfold wf_index in H2. split; [lia|].
  assert (n_Faulted n = false) as Hf.
  { destruct (n_Faulted n); [|done]. destruct (H6 eq_refl) as (_ & _ & _ & [x Hx]). congruence. }
  split; (split; [|split; [done|intros H; cbn in H; congruence]]); split_and!; try done; unfold wf_index; cbn; lia.
Qed.

Lemma turn_runs i s :
  node_inv (node s) -> n_outbound (node s) = [] -> top (node s) < maxu64 -> n_Term (node s) < maxu64 ->
  inputOk (node s) i ->
  runs (turn orders i) (fun out s' => iterated i s s' /\ Forall (sentBy (node s)) out) s.
Proof.
  intros Hinv Hout Ht Htm Hi. unfold turn. apply wpx_bind. pose proof (input_runs i s Hinv Hout Ht Htm Hi) as Hrec.
  unfold wpx in Hrec. unfold wpx at 1. destruct (receive i s) as [[] s1|] eqn:Erec; [|done].
  destruct Hrec as ((b & k & Hev) & Ec & Em & Es & Ha). apply wpx_bind. unfold wpx at 1. cbn [get].
  pose proof (evolves_inv _ _ _ _ Hinv Hev) as Hinv1.
  destruct (n_storageErr (node s1)) as [err|] eqn:Eerr.
  { unfold wpx. cbn. split; [|constructor]. split; try done; apply Hev. }
  destruct (applied_inv _ Hinv1 Eerr) as (Hac & Hinv2 & Hinv3).
  assert (n_Faulted (node s1) = false) as Hf1.
  { destruct (n_Faulted (node s1)) eqn:Hf; [|done]. destruct (ev_fault _ _ _ _ Hev Hf) as (_ & _ & _ & [x Hx]). congruence. }
  destruct (ev_sent _ _ _ _ Hev Hf1) as (_ & ms & Eout & _ & Hms). rewrite Hout in Eout. cbn in Eout.
  apply wpx_bind. eapply (onNode_runs _ (fun out n => out = n_outbound (node s1) /\ n = node s1 <| n_outbound := [] |>)); [done|].
  intros out n [-> ->]. set (s2 := s1 <| node := _ |>). apply wpx_bind. eapply wpx_mono.
  { by apply (apply_runs s2). }
  intros [] s3 (Hc3 & Hs3 & Hout3 & (n3 & -> & Hev3) & Hdone & Hm3). apply wpx_bind.
  eapply wpx_mono; [apply completeReads_runs|]. intros [] s4 E4. injection E4 as Ec4 En4 Em4 Es4.
  unfold wpx. cbn. split; [|by rewrite Eout]. split; cbn; rewrite ?En4.
  - eapply evolves_inv; [|exact Hev3]. exact Hinv3.
  - pose proof (ev_term _ _ _ _ Hev) as H0. pose proof (ev_term _ _ _ _ Hev3) as H. cbn in H. lia.
  - pose proof (ev_commit _ _ _ _ Hev) as H0. pose proof (ev_commit _ _ _ _ Hev3) as H. cbn in H. lia.
  - intros j Hj. pose proof (ev_commit _ _ _ _ Hev). pose proof (ev_base _ _ _ _ Hev3) as Hb. cbn in Hb.
    rewrite (ev_keep _ _ _ _ Hev3) by (cbn; lia).
    change (EntryAt (node s1) j = EntryAt (node s) j). apply (ev_keep _ _ _ _ Hev). lia.
  - intros _. split; [done|]. exists s1. split; [exact Erec|]. cbn zeta. split; [exact Ha|].
    split; [split; [apply Hev|exact Hac]|]. split; [apply Hev|]. split; [exact Hdone|].
    rewrite Em4, Hm3. unfold s2. cbn. by rewrite Em.
Qed.

(** Between events: the channels are in order, and so is the node. *)
Definition ready s : Prop :=
  fair [] s /\ node_inv (node s) /\ (stopped s = None -> n_outbound (node s) = []).

Lemma idle_core e s :
  node (idle e s) = node s /\ machine (idle e s) = machine s /\ (stopped (idle e s) = None -> stopped s = None).
Proof.
  unfold idle, acceptPeer, handleClient. destruct e as [stream|stream| | | |]; try done.
  - destruct (receivePeer _ _); [destruct (_ <? _)|]; done.
  - destruct (ReadFrame stream) as [|[[kind payload] rest]]; [done|]. destruct (negb _); [done|].
    destruct (DecodeClientRequest payload); [done|]. by destruct (_ <? _).
  - destruct (stopped s) eqn:E; [|done]. split_and!; congruence.
Qed.

Lemma selected_core e s i s0 :
  selected e s = Some (i, s0) -> node s0 = node s /\ machine s0 = machine s /\ stopped s = None /\
    match i with InMessage m => e = TakeMessage /\ exists l, inbound s = m :: l | _ => True end.
Proof.
  unfold selected. destruct (stopped s); [done|]. destruct e; try done.
  - destruct (inbound s) as [|m l]; [done|]. intros [= <- <-]. split_and!; try done. by exists l.
  - destruct (requests s) as [|r l]; [done|]. by intros [= <- <-].
  - by intros [= <- <-].
Qed.

(** C14 The loop never panics, moves only forward and applies everything once.
    From a server in order, whatever connection arrives and whichever case the loop
    takes, with a peer message that does not contradict what is committed: the
    event runs to the end without a panic and without blocking, and leaves the
    server in order.  An event that is no iteration touches neither the node nor
    the machine.  An iteration sends only messages of this node to valid nodes,
    never lowers the term or the commit index, and keeps every committed entry its
    log still holds.  Unless storage failed, it hands to the machine, in order, the
    normal entries from the one after the applied index up to the commit index
    that the input left, and makes that the applied index: the next iteration goes
    on where this one ended, with nothing applied twice and nothing left out, but
    for the entries a leader's snapshot replaces. *)
Theorem server_step e s :
  ready s -> top (node s) < maxu64 -> n_Term (node s) < maxu64 ->
  (forall m l, e = TakeMessage -> inbound s = m :: l -> msg_ok (node s) m /\ m_Term m < maxu64) ->
  exists out s', exec orders e s = Done out s' /\ ready s' /\ Forall (sentBy (node s)) out /\
    match selected e s with
    | Some (i, s0) => node s0 = node s /\ machine s0 = machine s /\ iterated i s0 s'
    | None => out = [] /\ node s' = node s /\ machine s' = machine s
    end.
Proof.
  intros (Hg & Hinv & Hout) Ht Htm Hmsg. pose proof (exec_good orders e s Hg) as Hsafe.
  unfold wpx, exec in Hsafe. unfold exec. destruct (selected e s) as [[i s0]|] eqn:Es.
  - destruct (selected_core _ _ _ _ Es) as (En & Em & Hs & Hi). specialize (Hout Hs).
    assert (runs (turn orders i) (fun out s' => iterated i s0 s' /\ Forall (sentBy (node s0)) out) s0) as Hruns.
    { apply turn_runs; rewrite ?En; try done. destruct i as [m|r|]; try done. destruct Hi as [-> [l Hl]]. by apply (Hmsg m l). }
    unfold wpx in Hruns. destruct (turn orders i s0) as [out s'|x]; [|by destruct Hsafe].
    destruct Hruns as [Hit Hsent]. rewrite En in Hsent. exists out, s'. split; [done|]. split; [|done].
    split; [by eapply good_fair|]. split; [apply Hit|]. intros H. by apply (it_done _ _ _ Hit).
  - destruct (idle_core e s) as (En & Em & Hs). exists [], (idle e s). split; [done|].
    split; [|done]. split; [by eapply good_fair|]. rewrite En. auto.
Qed.

End progress.

(** ** From one server to another *)

Lemma addPeerError_changes m : addPeerError m <> m.
Proof.
  intros H. apply (f_equal PeerErrors) in H. cbn in H. unfold w64 in H. rewrite Z.mod_eq in H by lia. lia.
Qed.

Lemma peer_bytes m : Forall byte (m_Snapshot m) -> Forall byte (EncodePeer m).
Proof.
  intros Hs. unfold EncodePeer. apply puts_bytes; [apply zeros_bytes|]. unfold peerWrites. rewrite !Forall_cons.
  assert (forall b : bool, Forall byte [Z.b2z b]) as Hbool.
  { intros b. apply Forall_singleton. unfold byte. destruct b; cbn; lia. }
  assert (forall z, Forall byte [w8 z]) as Hw8 by (intros z; apply Forall_singleton, w8_byte).
  split_and!; cbn [snd]; first [apply le_bytes|apply Hbool|apply Hw8|exact Hs|constructor].
Qed.

(** C38 A peer receives what was sent.  A message whose fields fit their types,
    sent over a new connection without counting an error, is delivered unchanged
    to the server it is addressed to, and to no other.  With a snapshot that does
    not fit a frame the message is never sent: nothing is written, and the send
    counts as an error. *)
Theorem peer_transport {S} `{!StableStore S} {W} `{!Writer W} `{!WriterSpec W} (dial : string -> option W)
    (m : Message) (s s' : Server (S := S)) address w w' :
  wf_message m -> Forall byte (m_Snapshot m) -> Peers (config s) !! m_To m = Some address -> dial address = Some w -> written w = [] ->
  sendPeer dial m s = (s', Some w') ->
  if MaxFrameSize <? Z.of_nat peerFixedSize + len (m_Snapshot m)
  then written w' = [] /\ PeerErrors (metrics s') = w64 (PeerErrors (metrics s) + 1)
  else s' = s -> forall id, receivePeer id (written w') = if id =? m_To m then Some m else None.
Proof.
  intros Hm Hb Hp Hd Hw. unfold sendPeer. rewrite Hp, Hd.
  assert (len (EncodePeer m) = Z.of_nat peerFixedSize + len (m_Snapshot m)) as El.
  { unfold len. rewrite length_peer. lia. }
  destruct (WriteFrame KindPeer (EncodePeer m) w) as [w1 err] eqn:E. rewrite <- El.
  destruct (Z.ltb_spec MaxFrameSize (len (EncodePeer m))) as [Hbig|Hfit].
  - unfold WriteFrame in E. rewrite (proj2 (Z.ltb_lt _ _) Hbig) in E. injection E as <- <-. by intros [= <- <-].
  - destruct (WriteFrame_spec _ _ _ _ _ Hfit E) as (n & H1 & _ & H2). destruct err as [err|].
    { intros [= <- <-] H. exfalso. apply (f_equal metrics) in H. by apply addPeerError_changes in H. }
    intros [= <- <-] _ id. specialize (H2 eq_refl). subst n. rewrite Hw in H1. cbn [app] in H1. rewrite take_ge in H1 by done.
    unfold receivePeer. rewrite H1, <- (app_nil_r (frame _ _)), frame_read; [|unfold is_u16; vm_compute; intuition discriminate|done|by apply peer_bytes].
    rewrite Z.eqb_refl. cbn [negb]. rewrite peer_roundtrip by done. rewrite Z.eqb_sym. by destruct (id =? m_To m).
Qed.

(** ** Recovery *)

Section recovery.
Context {S : Type} `{!StableStore S} (peerOrder : gmap Z string -> list Z).

Lemma ApplyEntries_faulted (n : Node S) :
  wlp (ApplyEntries []) (fun _ n' => n_Faulted n' = n_Faulted n) n.
Proof.
  unfold ApplyEntries. wlp_pures. apply wlp_foldM; [done|]. intros dst x n1 _ H1. wlp_pures.
  unfold entryAt. wlp_pures. destruct (offset _ _); wlp_pures; done.
Qed.

Lemma replay_after l : forall m m', replay l m = inr m' -> m' = after m l.
Proof.
  induction l as [|e l IH]; intros m m'; cbn [replay]; [by intros [= <-]|]. unfold after. cbn [foldl].
  destruct (StateMachine.Apply e m) as [m1 [err|r]]; [done|]. apply IH.
Qed.

(** The machine in a snapshot; index zero is no snapshot. *)
Definition snapshotMachine (snap : RaftTypes.Snapshot) : error + StateMachine.Machine :=
  if (s_LastIndex snap =? 0) || bool_decide (s_State snap = []) then inr StateMachine.New
  else StateMachine.Restore (s_State snap).

(** The entries after the snapshot that recovery knows to be committed. *)
Definition committedSuffix (r : RaftStore.Recovery) : list Entry :=
  let base := s_LastIndex (RaftStore.Snapshot r) in
  filter (fun e => e_Kind e = EntryNormal)
    (take (Z.to_nat (Z.max (h_Commit (RaftStore.Hard r)) base - base)) (RaftStore.Suffix r)).

(** What the store promises of a recovery. *)
Record recovery_ok (r : RaftStore.Recovery) : Prop := {
  ro_term : 0 <= h_Term (RaftStore.Hard r);
  ro_commit : 0 <= h_Commit (RaftStore.Hard r);
  ro_base : 0 <= s_LastIndex (RaftStore.Snapshot r);
  ro_length : s_LastIndex (RaftStore.Snapshot r) + len (RaftStore.Suffix r) < maxu64;
  ro_voters : s_LastIndex (RaftStore.Snapshot r) <> 0 ->
    0 < s_OldVoters (RaftStore.Snapshot r) /\ 0 <= s_NewVoters (RaftStore.Snapshot r);
  ro_masks : Forall (fun e => 0 <= e_OldVoters e /\ 0 <= e_NewVoters e) (RaftStore.Suffix r)
}.

(** Both constructors leave the log after the snapshot, or a stopped node. *)
Definition rebuilt (r : RaftStore.Recovery) (n : Node S) : Prop :=
  n_Faulted n = false -> node_inv n /\ n_outbound n = [] /\
    n_BaseIndex n = s_LastIndex (RaftStore.Snapshot r) /\ n_Applied n = n_BaseIndex n /\
    n_Commit n = Z.max (h_Commit (RaftStore.Hard r)) (s_LastIndex (RaftStore.Snapshot r)) /\
    exists x, n_Log n = x :: RaftStore.Suffix r.

Lemma recovered_rebuilt r (n0 n : Node S) :
  recovered n0 n -> sameState n0 n -> recovery_ok r ->
  n_Term n0 = h_Term (RaftStore.Hard r) -> n_outbound n0 = [] ->
  n_BaseIndex n0 = s_LastIndex (RaftStore.Snapshot r) -> n_Applied n0 = n_BaseIndex n0 ->
  n_Commit n0 = Z.max (h_Commit (RaftStore.Hard r)) (s_LastIndex (RaftStore.Snapshot r)) ->
  (exists x, n_Log n0 = x :: RaftStore.Suffix r) -> rebuilt r n.
Proof.
  intros Hrec (_ & St & _ & Sc & Sa & Sl & Sb & _ & _ & So & _) Hr Ht Ho Hb Ha Hc [x Hl] Hf.
  unfold recovered in Hrec. rewrite Hf in Hrec. destruct Hrec as (Hwf & _).
  split. { split; [done|]. split; [rewrite St, Ht; apply Hr|congruence]. }
  split; [congruence|]. split; [congruence|]. split; [congruence|]. split; [congruence|]. exists x. congruence.
Qed.

Lemma recover_rebuilt id peers ticks (store : S) r n :
  valid_id id -> Forall valid_id peers -> NoDup (id :: peers) -> recovery_ok r ->
  (if negb (s_LastIndex (RaftStore.Snapshot r) =? 0)
   then NewRecoveredNodeWithSnapshot id peers ticks store (RaftStore.Hard r) (RaftStore.Snapshot r) (RaftStore.Suffix r)
   else NewRecoveredNode id peers ticks store (RaftStore.Hard r) (zeroEntry :: RaftStore.Suffix r)) = Done () n ->
  rebuilt r n.
Proof.
  intros Hid Hps Hnd Hr. pose proof Hr as [Ht Hc Hb Hlen Hv Hmasks].
  destruct (Z.eqb_spec (s_LastIndex (RaftStore.Snapshot r)) 0) as [E0|E0]; cbn [negb].
  - destruct (NewRecoveredNode_wp id peers ticks store (RaftStore.Hard r) (zeroEntry :: RaftStore.Suffix r))
      as (v & n1 & _ & -> & Hrec & Hsame); [done..| |done| |].
    + unfold len in *. cbn [length]. lia.
    + by constructor.
    + intros [= <-]. eapply recovered_rebuilt; try done.
      * cbn. lia.
      * by exists zeroEntry.
  - destruct (Hv E0) as [Hv1 Hv2].
    destruct (NewRecoveredNodeWithSnapshot_wp id peers ticks store (RaftStore.Hard r) (RaftStore.Snapshot r)
      (RaftStore.Suffix r) Hid Hps Hnd Hb Hlen Hv1 Hv2 Hmasks) as (v & n1 & ps & nx & mt & _ & -> & Hrec & Hsame).
    intros [= <-]. eapply recovered_rebuilt; try done. by eexists.
Qed.

Lemma defaults_id c : ID (defaults c) = ID c /\ Peers (defaults c) = Peers c.
Proof.
  unfold defaults. repeat (cbn zeta; destruct (_ =? 0); cbn [ID Peers]); done.
Qed.

(** Recovery rebuilds the machine.  When [Open] returns a server whose node did
    not find its data inconsistent, the server is in order, with every committed
    entry applied: its machine is the one in the snapshot after the committed
    entries that follow it in the log, none of which the machine refused. *)
Theorem server_open c (store : S) r s :
  let peers := filter (fun id => id <> ID c) (peerOrder (Peers c)) in
  valid_id (ID c) -> Forall valid_id peers -> NoDup (ID c :: peers) -> recovery_ok r ->
  Open peerOrder c (inr (store, r)) = Opened s -> n_Faulted (node s) = false ->
  ready s /\ n_Applied (node s) = n_Commit (node s) /\
  n_Commit (node s) = Z.max (h_Commit (RaftStore.Hard r)) (s_LastIndex (RaftStore.Snapshot r)) /\
  exists m0, snapshotMachine (RaftStore.Snapshot r) = inr m0 /\
    replay (committedSuffix r) m0 = inr (machine s) /\ machine s = after m0 (committedSuffix r).
Proof.
  intros peers Hid Hps Hnd Hr. unfold Open. destruct (_ || _); [done|]. cbn zeta.
  destruct (defaults_id c) as [-> ->]. fold peers.
  set (snap := RaftStore.Snapshot r). set (node0 := if negb (s_LastIndex snap =? 0) then _ else _).
  assert (node0 = (if negb (s_LastIndex snap =? 0)
    then NewRecoveredNodeWithSnapshot (ID c) peers (ElectionTicks (defaults c)) store (RaftStore.Hard r) snap (RaftStore.Suffix r)
    else NewRecoveredNode (ID c) peers (ElectionTicks (defaults c)) store (RaftStore.Hard r) (zeroEntry :: RaftStore.Suffix r),
    snapshotMachine snap)) as ->.
  { unfold node0, snapshotMachine. destruct (s_LastIndex snap =? 0); cbn [negb orb]; [done|].
    case_decide; [by rewrite bool_decide_true|by rewrite bool_decide_false]. }
  destruct (if negb _ then _ else _) as [[] n|] eqn:En; [|done].
  apply recover_rebuilt in En; [|done..].
  destruct (snapshotMachine snap) as [e|m0]; [done|].
  pose proof (ApplyEntries_faulted n) as Hfault. destruct (ApplyEntries [] n) as [es n'|] eqn:EA; [|done].
  unfold wlp in Hfault. rewrite EA in Hfault. destruct (replay es m0) as [e|m] eqn:Erep; [done|].
  destruct (_ <? 0); [done|]. intros [= <-] Hf. cbn in Hf. rewrite Hfault in Hf.
  destruct (En Hf) as (Hinv & Hout & Hb & Ha & Hc & x & Hl).
  pose proof (ApplyEntries_wp [] n (proj1 Hinv)) as Hap. unfold wp in Hap. rewrite EA in Hap. destruct Hap as [-> ->].
  assert (filter (fun e => e_Kind e = EntryNormal) (entries n (n_Applied n + 1) (n_Commit n - n_Applied n)) =
    committedSuffix r) as Hes.
  { unfold committedSuffix, entries. rewrite Ha, Hc, Hb, Hl. fold snap.
    replace (Z.to_nat (s_LastIndex snap + 1 - s_LastIndex snap)) with 1%nat by lia. done. }
  cbn [app] in Erep. rewrite Hes in Erep. cbn. split; [|split; [done|split; [done|]]].
  - split; [apply newServer_fair|]. split; [|done]. cbn.
    destruct Hinv as ((H1 & H2 & H3 & H4) & H5 & H6). split; [|done]. split_and!; try done.
    unfold wf_index in *. cbn. lia.
  - exists m0. split; [done|]. split; [done|]. by apply replay_after.
Qed.

End recovery.

(** ** Concrete servers, and four defects *)

Module Demo.

Definition anyOrder (m : StateMachine.Machine) : list Z * list Z :=
  ((map_to_list (StateMachine.values m)).*1, (map_to_list (StateMachine.clients m)).*1).
Definition peersOrder (p : gmap Z string) : list Z := (map_to_list p).*1.

(** Node 1 of three. *)
Definition conf : Config :=
  mkConfig 1 {[2 := "b:1"%string; 3 := "c:1"%string]} "a:1" "a:2" "" "d" 2 0 0 0 0.

Definition empty : RaftStore.Recovery := RaftStore.mkRecovery (mkHardState 0 0 0) zeroSnapshot [].

Definition client (operation clientID requestID key v : Z) : event :=
  ClientConnection (frame KindClientRequest (EncodeClientRequest (mkRequest operation clientID requestID key v))).
Definition peer (m : Message) : list event := [PeerConnection (frame KindPeer (EncodePeer m)); TakeMessage].

(** Node 2 votes for node 1 in term [t], and node 2 has the log up to [i]. *)
Definition elect (t : Z) : list event :=
  [Ticked; Ticked] ++ peer (newMessage MsgPreVoteResponse 2 1 t) ++ peer (newMessage MsgRequestVoteResponse 2 1 t).
Definition ack (t i : Z) : list event := peer (newMessage MsgAppendResponse 2 1 t <| m_Match := i |>).

(** A server on a write-ahead log, after some events. *)
Definition serve (events : list event) : option (Server (S := RaftCluster.stableStore)) :=
  match Open peersOrder conf (inr (RaftCluster.newStore, empty)) with
  | Opened s => match execAll anyOrder events s with Done _ s => Some s | Panicked _ => None end
  | _ => None
  end.

Definition statuses (s : Server (S := RaftCluster.stableStore)) : list (nat * Z) :=
  (fun a => (a.1, p_Status a.2)) <$> answers s.

(** What a crash and [raftstore.Open] make of the server's disk. *)
Definition reopen (s : Server (S := RaftCluster.stableStore)) : opened (Server (S := RaftCluster.stableStore)) :=
  match MemoryDevice.Crash 0 (RaftCluster.disk (n_store (node s))) with
  | inl e => OpenError e
  | inr d =>
      match RaftStore.Open None d (Snap.mkFs None None [None]) with
      | inl e => OpenError e
      | inr (st, r) => Open peersOrder conf (inr (RaftCluster.mkStable (RaftStore.wal st) zeroSnapshot, r))
      end
  end.

(** The requests of one client, the later one first. *)
Definition outOfOrder : list event :=
  elect 1 ++ [client ClientPut 9 2 5 10; client ClientPut 9 1 5 20; TakeRequest; TakeRequest] ++ ack 1 3.

(** A server that cannot be restarted.  A client sends its request 2 and then its
    request 1 before either is committed.  The server proposes both, commits both,
    acknowledges the first and refuses the second as stale, and goes on.  But
    [Open] ends at the first entry the machine refuses, so after a restart the
    server does not come up again. *)
Theorem server_reopen_stale :
  exists s, serve outOfOrder = Some s /\ statuses s = [(0%nat, StatusOK); (1%nat, StatusInvalid)] /\
    stopped s = None /\ reopen s = OpenError StateMachine.ErrStaleRequest.
Proof.
  destruct (serve outOfOrder) as [s|] eqn:E; [|vm_compute in E; discriminate]. exists s. split; [done|].
  vm_compute in E. injection E as <-. vm_compute. auto.
Qed.

(** A new leader replaces node 1 while it waits for a read barrier, and node 1 is
    elected again and commits in its own term. *)
Definition demoted : list event :=
  elect 1 ++ ack 1 1 ++ [client ClientGet 9 1 5 0; TakeRequest] ++
  peer (newMessage MsgAppend 2 1 2 <| m_LogIndex := 1 |> <| m_LogTerm := 1 |>) ++ elect 3 ++ ack 3 2.

(** Reads that stay blocked.  The read that was waiting when the server lost its
    leadership is never answered and never dropped, so after it leads again the
    server refuses every read, although it could serve them. *)
Theorem server_read_stuck :
  exists s, serve demoted = Some s /\ n_State (node s) = Leader /\ n_Commit (node s) = 2 /\
    reads s <> [] /\ answers s = [] /\
    forall q ch, q_Operation q = ClientGet -> exists s',
      handleRequest (mkReq q ch) s = Done () s' /\ node s' = node s /\ reads s' = reads s /\
      answers s' = [(ch, response StatusBusy q 0 s)].
Proof.
  destruct (serve demoted) as [s|] eqn:E; [|vm_compute in E; discriminate]. exists s. split; [done|].
  assert (n_State (node s) = Leader /\ n_Commit (node s) = 2 /\ length (reads s) = 1%nat /\ answers s = []) as (H1 & H2 & H3 & H4).
  { vm_compute in E. injection E as <-. vm_compute. auto. }
  clear E. destruct (reads s) as [|r0 l] eqn:Er; [done|]. split_and!; try done. intros q ch Hq.
  unfold handleRequest, count, mbind, M_bind, modify, get. cbn [value]. rewrite Hq, bool_decide_true by exact H1.
  change (ClientGet =? ClientStatus) with false. change (ClientGet =? ClientGet) with true. cbn [negb].
  unfold handleGet, mbind, M_bind, get.
  match goal with |- context [reads ?x] => change (reads x) with (reads s) end. rewrite Er.
  unfold respond, count, mbind, M_bind, modify, get, send. cbn [reply].
  rewrite decide_False by (cbn; rewrite H4; apply not_elem_of_nil).
  eexists. split; [reflexivity|]. cbn. by rewrite H4.
Qed.

(** A machine in which key 1 holds 7, and its snapshot at index 5. *)
Definition stored : StateMachine.Machine := (StateMachine.Apply (StateMachine.Demo.put 9 1 1 7) StateMachine.New).1.
Definition image : bytes := StateMachine.Snapshot (anyOrder stored).1 (anyOrder stored).2 stored.

Definition install : Message :=
  newMessage MsgInstallSnapshot 2 1 1 <| m_SnapshotIndex := 5 |> <| m_SnapshotTerm := 1 |>
    <| m_Snapshot := image |> <| m_SnapshotOld := 7 |>.

(** A follower that forgets a snapshot.  A server that installs a snapshot from its
    leader saves it and counts its entries as applied, but does not restore the
    machine from it: the values in the snapshot are missing until a restart. *)
Theorem server_install_forgets :
  StateMachine.Restore image = inr stored /\ StateMachine.Get 1 stored = (7, true) /\
  exists s, execAll anyOrder (peer install) (newServer (defaults conf) RaftSafety.Demo.node1 StateMachine.New) = Done () s /\
    n_Faulted (node s) = false /\ n_Applied (node s) = 5 /\ s_State (n_snapshot (node s)) = image /\
    StateMachine.Get 1 (machine s) = (0, false).
Proof.
  split; [vm_compute; reflexivity|]. split; [vm_compute; reflexivity|].
  eexists. split; [vm_compute; reflexivity|]. vm_compute. auto.
Qed.

(** A retry that is never proposed.  While a mutation of the client is pending,
    a retry only joins the waiters; so once the entry was lost with a change of
    leadership, this server never proposes the request again. *)
Theorem server_retry_ignored {S} `{!StableStore S} (s : Server (S := S)) r ws result :
  n_State (node s) = Leader -> isMutation (value r) -> q_ClientID (value r) <> 0 -> q_RequestID (value r) <> 0 ->
  StateMachine.Cached (q_ClientID (value r)) (q_RequestID (value r)) (machine s) = inr (result, false) ->
  pending s !! (q_ClientID (value r), q_RequestID (value r)) = Some ws ->
  exists s', handleRequest r s = Done () s' /\ node s' = node s /\ answers s' = answers s /\
    pending s' !! (q_ClientID (value r), q_RequestID (value r)) = Some (ws ++ [reply r]).
Proof.
  intros HL [Hg Hs] Hc Hr HC Hp. unfold handleRequest, count, mbind, M_bind, modify, get.
  rewrite bool_decide_true by exact HL. cbn [negb].
  rewrite (proj2 (Z.eqb_neq _ _) Hs), (proj2 (Z.eqb_neq _ _) Hg).
  unfold handleMutation, mbind, M_bind, get. rewrite (proj2 (Z.eqb_neq _ _) Hc), (proj2 (Z.eqb_neq _ _) Hr). cbn [orb].
  match goal with |- context [machine ?x] => change (machine x) with (machine s) end. rewrite HC.
  match goal with |- context [pending ?x !! _] => change (pending x) with (pending s) end. rewrite Hp.
  eexists. split; [reflexivity|]. cbn. by rewrite lookup_insert_eq.
Qed.

(** A follower with an append from node 2 in its channel: a put that is already
    committed. *)
Definition appendPut : Message :=
  newMessage MsgAppend 2 1 1 <| m_Entry := StateMachine.Demo.put 9 1 1 7 |> <| m_HasEntry := true |> <| m_Commit := 1 |>.

Lemma appendPut_ok : msg_ok RaftSafety.Demo.node1 appendPut.
Proof. apply RaftSafety.Demo.msg_ok_concrete; cbn; (done || (unfold valid_id; lia)). Qed.

Definition fresh : Server (S := RaftSafety.Demo.MS) :=
  newServer (defaults conf) RaftSafety.Demo.node1 StateMachine.New.
Definition follower : Server (S := RaftSafety.Demo.MS) := fresh <| inbound := [appendPut] |>.

Lemma server_step_witness :
  exists out s', exec anyOrder TakeMessage follower = Done out s' /\ ready s' /\
    Forall (sentBy (node follower)) out /\ out <> [] /\ iterated (InMessage appendPut) fresh s' /\
    n_Applied (node s') = 1 /\ StateMachine.Get 1 (machine s') = (7, true).
Proof.
  destruct (server_step anyOrder TakeMessage follower) as (out & s' & E & H1 & H2 & H3).
  - split; [split; try done; cbn; [constructor..|]; by exists []|].
    split; [exact RaftSafety.Demo.node1_inv|reflexivity].
  - vm_compute. reflexivity.
  - vm_compute. reflexivity.
  - intros m l _ [= <- <-]. split; [exact appendPut_ok|vm_compute; reflexivity].
  - destruct H3 as (_ & _ & H3). exists out, s'. split; [exact E|]. split; [exact H1|]. split; [exact H2|].
    split; [intros ->; vm_compute in E; discriminate|]. split; [exact H3|].
    vm_compute in E. injection E as _ <-. split; reflexivity.
Defined.

(** A put and a get of the same client wait, when node 2 acknowledges both the
    entry and the barrier of the get. *)
Definition getRequest : ClientRequest := mkRequest ClientGet 9 2 5 0.
Definition waiting : list event :=
  elect 1 ++ ack 1 1 ++ [client ClientPut 9 1 5 10; TakeRequest; client ClientGet 9 2 5 0; TakeRequest;
    PeerConnection (frame KindPeer (EncodePeer
      (newMessage MsgAppendResponse 2 1 1 <| m_Match := 2 |> <| m_Context := contextID getRequest |>)))].


(** A committed put and one that is not. *)
Definition logged : RaftStore.Recovery :=
  RaftStore.mkRecovery (mkHardState 1 1 2) zeroSnapshot
    [RaftSafety.Demo.noop; StateMachine.Demo.put 9 1 1 7; StateMachine.Demo.put 9 2 1 8].

Lemma logged_ok : recovery_ok logged.
Proof.
  split.
  - cbn. lia.
  - cbn. lia.
  - cbn. lia.
  - vm_compute. reflexivity.
  - intros H. destruct (H eq_refl).
  - repeat (apply Forall_cons; split; [cbn; lia|]). constructor.
Defined.

Lemma server_open_witness :
  exists s, Open peersOrder conf (inr (RaftCluster.newStore, logged)) = Opened s /\ ready s /\
    n_Applied (node s) = 2 /\ StateMachine.Get 1 (machine s) = (7, true).
Proof.
  destruct (Open peersOrder conf (inr (RaftCluster.newStore, logged))) as [s|e|] eqn:E; [|vm_compute in E; discriminate..].
  destruct (server_open peersOrder conf RaftCluster.newStore logged s) as (H1 & H2 & H3 & _).
  - unfold valid_id. cbn. lia.
  - vm_compute. repeat (apply Forall_cons; split; [split; discriminate|]). constructor.
  - apply (bool_decide_unpack _). vm_compute. exact I.
  - exact logged_ok.
  - exact E.
  - vm_compute in E. injection E as <-. reflexivity.
  - exists s. split; [reflexivity|]. split; [exact H1|]. rewrite H2, H3. split; [reflexivity|].
    vm_compute in E. injection E as <-. reflexivity.
Defined.

Lemma peer_transport_witness :
  exists w', sendPeer (fun _ => Some ([] : bytes)) Protocol.Demo.message follower = (follower, Some w') /\
    receivePeer 2 (written w') = Some Protocol.Demo.message /\ receivePeer 3 (written w') = None.
Proof.
  destruct (sendPeer (fun _ => Some ([] : bytes)) Protocol.Demo.message follower) as [s' [w'|]] eqn:E;
    [|vm_compute in E; discriminate].
  assert (s' = follower) as Hs by (vm_compute in E; injection E as <- _; vm_compute; reflexivity).
  pose proof (peer_transport (fun _ => Some ([] : bytes)) Protocol.Demo.message follower s' "b:1"%string [] w'
    Protocol.Demo.message_wf) as H.
  assert (MaxFrameSize <? Z.of_nat peerFixedSize + len (m_Snapshot Protocol.Demo.message) = false) as Hm by (vm_compute; reflexivity).
  rewrite Hm in H. exists w'. rewrite Hs. split; [reflexivity|]. rewrite !H; try exact E; try exact Hs; try reflexivity.
  - split; reflexivity.
  - cbn. repeat (apply Forall_cons; split; [unfold byte; lia|]). constructor.
  - cbn. repeat (apply Forall_cons; split; [unfold byte; lia|]). constructor.
Defined.

End Demo.
End Server.
