(* ===== verification/ClusterSpec.v ===== *)
(** * Cluster files

    [server/spec.go]: the description of a whole cluster, its validation, and the
    configuration of one member.  Results: validation accepts exactly the files
    without a conflict, whatever order the maps are iterated in; the members
    derived from one file never disagree about who they are, and their
    configurations are ones the server accepts. *)

From S2P Require Import Prelude Bytes RaftTypes Quorum RaftNode RaftInv RaftStep RaftStore Server.

Module ClusterSpec.

Definition MaxNodeID : Z := 64.

Record SpecNode := mkSpecNode { ID : Z; Peer : string; Client : string; HTTP : string; DataDir : string }.

Record Spec := mkSpec {
  Name : string;
  Nodes : list SpecNode;
  ElectionTicks : Z;
  TickInterval : string;
  QueueCapacity : Z;
  RequestTimeout : string;
  SnapshotEntries : Z
}.

(** The keys of the map literal that [Validate] ranges over for each node. *)
Inductive label := LPeer | LClient | LHTTP.

Definition addressOf (n : SpecNode) (l : label) : string :=
  match l with LPeer => Peer n | LClient => Client n | LHTTP => HTTP n end.

(** The errors, with what their messages name. *)
Inductive problem :=
| NoNodes
| NotDuration (field value : string)
| NotPositive (field value : string)
| NegativeQueue
| IdRange (id : Z)
| IdTwice (id : Z)
| NoAddress (id : Z) (l : label)
| BadAddress (id : Z) (l : label) (address : string)
| AddressTaken (other id : Z) (address : string)
| NoDataDir (id : Z)
| SharedDataDir (other id : Z) (dir : string)
| NotDeclared (id : Z).

Section spec.

(** [net.SplitHostPort] without an error, [time.ParseDuration] in nanoseconds,
    [filepath.Clean], and the order of the range over the labels. *)
Context (splits : string -> bool) (ParseDuration : string -> option Z) (Clean : string -> string).
Context (order : SpecNode -> list label).

Definition parseOptionalDuration (field value : string) : problem + Z :=
  if bool_decide (value = ""%string) then inr 0 else
  match ParseDuration value with
  | None => inl (NotDuration field value)
  | Some d => if d <=? 0 then inl (NotPositive field value) else inr d
  end.

Definition tickInterval (s : Spec) : problem + Z := parseOptionalDuration "tickInterval" (TickInterval s).
Definition requestTimeout (s : Spec) : problem + Z := parseOptionalDuration "requestTimeout" (RequestTimeout s).

(** The loop over the labels of node [n]. *)
Fixpoint checkAddresses (n : SpecNode) (l : list label) (addresses : gmap string Z) : problem + gmap string Z :=
  match l with
  | [] => inr addresses
  | lb :: l =>
      let address := addressOf n lb in
      if bool_decide (address = ""%string) then
        match lb with LHTTP => checkAddresses n l addresses | _ => inl (NoAddress (ID n) lb) end
      else if negb (splits address) then inl (BadAddress (ID n) lb address)
      else match addresses !! address with
           | Some other => inl (AddressTaken other (ID n) address)
           | None => checkAddresses n l (<[address := ID n]> addresses)
           end
  end.

Fixpoint checkNodes (l : list SpecNode) (ids : gset Z) (addresses dataDirs : gmap string Z) : option problem :=
  match l with
  | [] => None
  | n :: l =>
      if (ID n <? 1) || (MaxNodeID <? ID n) then Some (IdRange (ID n))
      else if bool_decide (ID n ∈ ids) then Some (IdTwice (ID n))
      else match checkAddresses n (order n) addresses with
           | inl e => Some e
           | inr addresses =>
               if bool_decide (DataDir n = ""%string) then Some (NoDataDir (ID n)) else
               let clean := Clean (DataDir n) in
               match dataDirs !! clean with
               | Some other => Some (SharedDataDir other (ID n) clean)
               | None => checkNodes l ({[ID n]} ∪ ids) addresses (<[clean := ID n]> dataDirs)
               end
           end
  end.

Definition Validate (s : Spec) : option problem :=
  match Nodes s with
  | [] => Some NoNodes
  | _ =>
      match tickInterval s with
      | inl e => Some e
      | inr _ =>
          match requestTimeout s with
          | inl e => Some e
          | inr _ => if QueueCapacity s <? 0 then Some NegativeQueue else checkNodes (Nodes s) ∅ ∅ ∅
          end
      end
  end.

Definition findNode (id : Z) (l : list SpecNode) : option SpecNode := find (fun n => ID n =? id) l.

(** The peers of node [id]: every other node of the file. *)
Definition peersOf (id : Z) (l : list SpecNode) : gmap Z string :=
  foldl (fun m n => if negb (ID n =? id) then <[ID n := Peer n]> m else m) ∅ l.

Definition ConfigFor (s : Spec) (id : Z) : problem + Server.Config :=
  match Validate s with
  | Some e => inl e
  | None =>
      match findNode id (Nodes s) with
      | None => inl (NotDeclared id)
      | Some self =>
          match tickInterval s with
          | inl e => inl e
          | inr tick =>
              match requestTimeout s with
              | inl e => inl e
              | inr timeout =>
                  inr (Server.mkConfig (ID self) (peersOf id (Nodes s)) (Peer self) (Client self) (HTTP self)
                         (DataDir self) (ElectionTicks s)
                         (if tick =? 0 then 50000000 else tick)
                         (if QueueCapacity s =? 0 then 1024 else QueueCapacity s)
                         (if timeout =? 0 then 5000000000 else timeout)
                         (if SnapshotEntries s =? 0 then 10000 else SnapshotEntries s))
              end
          end
      end
  end.

(** ** What a valid file is *)

Definition goodDuration (value : string) : Prop :=
  value <> ""%string -> exists d, ParseDuration value = Some d /\ 0 < d.

(** The addresses a node listens on. *)
Definition addressesOf (n : SpecNode) : list string := filter (fun a => a <> ""%string) [Peer n; Client n; HTTP n].

Record valid (s : Spec) : Prop := {
  v_nodes : Nodes s <> [];
  v_tick : goodDuration (TickInterval s);
  v_timeout : goodDuration (RequestTimeout s);
  v_queue : 0 <= QueueCapacity s;
  v_ids : Forall (fun n => 1 <= ID n <= MaxNodeID) (Nodes s);
  v_distinct : NoDup (ID <$> Nodes s);
  v_required : Forall (fun n => Peer n <> ""%string /\ Client n <> ""%string /\ DataDir n <> ""%string) (Nodes s);
  v_hostport : Forall (fun n => Forall (fun a => splits a = true) (addressesOf n)) (Nodes s);
  v_addresses : NoDup (concat (addressesOf <$> Nodes s));
  v_dirs : NoDup ((fun n => Clean (DataDir n)) <$> Nodes s)
}.

(** ** Validation *)

Hypothesis order_labels : forall n, order n ≡ₚ [LPeer; LClient; LHTTP].

Definition nonempty (n : SpecNode) (l : list label) : list string := filter (fun a => a <> ""%string) (addressOf n <$> l).

Lemma checkAddresses_dom n l : forall A A',
  checkAddresses n l A = inr A' -> forall a, is_Some (A' !! a) <-> a ∈ nonempty n l \/ is_Some (A !! a).
Proof.
  induction l as [|lb l IH]; intros A A'; cbn [checkAddresses].
  { intros [= <-] a. unfold nonempty. cbn. rewrite elem_of_nil. tauto. }
  unfold nonempty. rewrite fmap_cons, filter_cons. fold (nonempty n l).
  case_bool_decide as He; [rewrite decide_False by tauto; destruct lb; [done|done|]; intros H; by apply IH|].
  rewrite decide_True by done. destruct (splits (addressOf n lb)); cbn [negb]; [|done].
  destruct (A !! addressOf n lb) eqn:EA; [done|]. intros H a. rewrite (IH _ _ H), elem_of_cons.
  destruct (decide (a = addressOf n lb)) as [->|Hne].
  - rewrite lookup_insert_eq. naive_solver.
  - rewrite lookup_insert_ne by done. naive_solver.
Qed.

Lemma checkAddresses_ok n l : forall A,
  (exists A', checkAddresses n l A = inr A') <->
  Forall (fun lb => lb = LHTTP \/ addressOf n lb <> ""%string) l /\ Forall (fun a => splits a = true) (nonempty n l) /\
  NoDup (nonempty n l) /\ Forall (fun a => A !! a = None) (nonempty n l).
Proof.
  induction l as [|lb l IH]; intros A; cbn [checkAddresses].
  { split; [|by eexists]. intros _. split_and!; constructor. }
  unfold nonempty. rewrite fmap_cons, filter_cons, Forall_cons. fold (nonempty n l). case_bool_decide as He.
  - rewrite decide_False by tauto. destruct lb; [|  |rewrite IH; naive_solver];
      (split; [by intros [A' ?]|intros [[[?|?] _] _]; done]).
  - rewrite decide_True by done. rewrite !Forall_cons, NoDup_cons.
    destruct (splits (addressOf n lb)) eqn:Es; cbn [negb]; [|split; [by intros [A' ?]|by intros (_ & [? _] & _)]].
    destruct (A !! addressOf n lb) eqn:EA; [split; [by intros [A' ?]|by intros (_ & _ & _ & ? & _)]|].
    rewrite IH. split.
    + intros (H1 & H2 & H3 & H4). rewrite Forall_forall in H4. split; [split; [by right|done]|]. split; [done|].
      split; [split; [|done]|split; [done|]].
      * intros Hin. specialize (H4 _ Hin). by rewrite lookup_insert_eq in H4.
      * apply Forall_forall. intros a Ha. specialize (H4 a Ha). by apply lookup_insert_None in H4 as [? _].
    + intros ([_ H1] & [_ H2] & [H3 H4] & _ & H5). split; [done|]. split; [done|]. split; [done|].
      apply Forall_forall. intros a Ha. rewrite lookup_insert_None. rewrite Forall_forall in H5.
      split; [by apply H5|]. intros <-. done.
Qed.

Lemma nonempty_order n : nonempty n (order n) ≡ₚ addressesOf n.
Proof. unfold nonempty, addressesOf. by rewrite order_labels. Qed.

(** The node's own part of the check: its addresses are new and well-formed. *)
Lemma checkAddresses_node n A :
  (exists A', checkAddresses n (order n) A = inr A') <->
  (Peer n <> ""%string /\ Client n <> ""%string) /\ Forall (fun a => splits a = true) (addressesOf n) /\
  NoDup (addressesOf n) /\ Forall (fun a => A !! a = None) (addressesOf n).
Proof.
  rewrite checkAddresses_ok, nonempty_order, order_labels, !Forall_cons. cbn [addressOf].
  split; intros (H & H1); (split; [|exact H1]).
  - destruct H as ([?|?] & [?|?] & _); done.
  - destruct H. split_and!; auto.
Qed.

Definition dirOf (n : SpecNode) : string := Clean (DataDir n).

Lemma checkNodes_ok l : forall ids A D,
  checkNodes l ids A D = None <->
  (Forall (fun n => 1 <= ID n <= MaxNodeID) l /\ NoDup (ID <$> l) /\ Forall (fun n => ID n ∉ ids) l) /\
  Forall (fun n => Peer n <> ""%string /\ Client n <> ""%string /\ DataDir n <> ""%string) l /\
  (Forall (fun n => Forall (fun a => splits a = true) (addressesOf n)) l /\
   NoDup (concat (addressesOf <$> l)) /\ Forall (fun a => A !! a = None) (concat (addressesOf <$> l))) /\
  NoDup (dirOf <$> l) /\ Forall (fun d => D !! d = None) (dirOf <$> l).
Proof.
  induction l as [|n l IH]; intros ids A D; cbn [checkNodes].
  { split; [|done]. intros _. split_and!; constructor. }
  rewrite !fmap_cons, !Forall_cons, !NoDup_cons. cbn [concat]. rewrite NoDup_app, Forall_app.
  destruct ((ID n <? 1) || (MaxNodeID <? ID n)) eqn:Eid.
  { split; [done|]. intros (((H & _) & _) & _). apply orb_true_iff in Eid. lia. }
  apply orb_false_iff in Eid as [E1 E2]. case_bool_decide as Ein.
  { split; [done|]. intros ((_ & _ & H & _) & _). done. }
  pose proof (checkAddresses_node n A) as Hn.
  destruct (checkAddresses n (order n) A) as [e|A'] eqn:EA.
  { split; [done|]. intros (_ & ((H1 & H2 & _) & _) & ((H3 & _) & (H4 & _) & H5 & _) & _).
    destruct (proj2 Hn) as [A' H]; [done|discriminate H]. }
  destruct (proj1 Hn) as ((H1 & H2) & H3 & H4 & H5); [by exists A'|]. clear Hn.
  case_bool_decide as Ed; [split; [done|]; by intros (_ & ((_ & _ & ?) & _) & _)|]. cbn zeta. fold (dirOf n).
  destruct (D !! dirOf n) eqn:ED; [split; [done|]; by intros (_ & _ & _ & _ & ? & _)|].
  assert (forall a, A' !! a = None <-> a ∉ addressesOf n /\ A !! a = None) as HA'.
  { intros a. pose proof (checkAddresses_dom n (order n) A A' EA a) as H. rewrite nonempty_order in H.
    rewrite !eq_None_not_Some. tauto. }
  rewrite IH. clear IH. split.
  - intros ((I1 & I2 & I3) & R & (P1 & P2 & P3) & Q1 & Q2). rewrite Forall_forall in I3. rewrite Forall_forall in P3. rewrite Forall_forall in Q2.
    split; [|split; [done|split; [|split]]].
    + split; [split; [lia|done]|]. split; [split; [|done]|split; [done|]].
      * intros (n' & E & Hn')%list_elem_of_fmap. specialize (I3 n' Hn'). set_solver.
      * apply Forall_forall. intros n' Hn'. specialize (I3 n' Hn'). set_solver.
    + split; [done|]. split; [split; [done|split; [|done]]|split; [done|]].
      * intros a Ha Hin. specialize (P3 a Hin). by apply HA' in P3 as [? _].
      * apply Forall_forall. intros a Ha. specialize (P3 a Ha). by apply HA' in P3 as [_ ?].
    + split; [|done]. intros Hin. specialize (Q2 _ Hin). by rewrite lookup_insert_eq in Q2.
    + split; [done|]. apply Forall_forall. intros d Hd. specialize (Q2 d Hd). by apply lookup_insert_None in Q2 as [? _].
  - intros (([_ I1] & [I2 I3] & [_ I4]) & [_ R] & ([_ P1] & (P2 & P3 & P4) & [_ P5]) & [Q1 Q2] & [_ Q3]).
    rewrite Forall_forall in I4. rewrite Forall_forall in P5. rewrite Forall_forall in Q3. split; [|split; [done|split; [|split; [done|]]]].
    + split; [done|]. split; [done|]. apply Forall_forall. intros n' Hn'. specialize (I4 n' Hn').
      intros [E%elem_of_singleton|?]%elem_of_union; [|done]. apply I2. rewrite <- E. by apply list_elem_of_fmap_2.
    + split; [done|]. split; [done|]. apply Forall_forall. intros a Ha. apply HA'. split; [|by apply P5].
      intros Hin. by apply (P3 a Hin).
    + apply Forall_forall. intros d Hd. apply lookup_insert_None. split; [by apply Q3|]. by intros <-.
Qed.

Lemma duration_ok field value :
  (exists d, parseOptionalDuration field value = inr d) <-> goodDuration value.
Proof.
  unfold parseOptionalDuration, goodDuration. case_bool_decide as E; [split; [done|by eexists]|].
  destruct (ParseDuration value) as [d|]; [|split; [by intros [? ?]|naive_solver]].
  destruct (Z.leb_spec d 0); split.
  - by intros [? ?].
  - intros H1. destruct (H1 E) as (d' & [= <-] & ?). lia.
  - intros _ _. by exists d.
  - by eexists.
Qed.

(** Validation decides validity. *)
Lemma Validate_ok s : Validate s = None <-> valid s.
Proof.
  unfold Validate. destruct (Nodes s) as [|n l] eqn:En; [split; [done|by intros [? _]]|]. rewrite <- En.
  pose proof (duration_ok "tickInterval" (TickInterval s)) as Ht.
  pose proof (duration_ok "requestTimeout" (RequestTimeout s)) as Hr. unfold tickInterval, requestTimeout.
  destruct (parseOptionalDuration _ (TickInterval s)) as [e|t].
  { split; [done|]. intros []. destruct (proj2 Ht) as [? ?]; done. }
  destruct (parseOptionalDuration _ (RequestTimeout s)) as [e|r].
  { split; [done|]. intros []. destruct (proj2 Hr) as [? ?]; done. }
  destruct (Z.ltb_spec (QueueCapacity s) 0) as [Hq|Hq]; [split; [done|]; intros []; lia|].
  rewrite checkNodes_ok. split.
  - intros ((I1 & I2 & _) & R & (P1 & P2 & _) & Q & _). split; try done; [congruence|apply Ht; by eexists|apply Hr; by eexists].
  - intros []. split_and!; try done; apply Forall_forall; intros; try apply lookup_empty. set_solver.
Qed.

(** ** The members of a cluster *)

Definition member (s : Spec) (id : Z) (address : string) : Prop :=
  exists n, n ∈ Nodes s /\ ID n = id /\ Peer n = address.

Lemma peersOf_loop id l : forall (m : gmap Z string) j a,
  NoDup (ID <$> l) ->
  foldl (fun m n => if negb (ID n =? id) then <[ID n := Peer n]> m else m) m l !! j = Some a <->
  (j <> id /\ exists n, n ∈ l /\ ID n = j /\ Peer n = a) \/ (m !! j = Some a /\ (j = id \/ j ∉ ID <$> l)).
Proof.
  induction l as [|n l IH]; intros m j a Hnd; cbn [foldl].
  { cbn. setoid_rewrite elem_of_nil. naive_solver. }
  rewrite fmap_cons in *. apply NoDup_cons in Hnd as [Hn Hnd]. rewrite IH by done. setoid_rewrite elem_of_cons.
  destruct (Z.eqb_spec (ID n) id) as [E|E]; cbn [negb].
  - split; [|naive_solver].
    intros [[H1 (x & Hx & H2)]|[H1 [->|H2]]]; [left; naive_solver|by auto|].
    destruct (decide (j = id)) as [->|]; [by auto|]. right. split; [done|]. right. intros [->|?]; done.
  - rewrite lookup_insert_Some. split.
    + intros [[H1 (x & Hx & H2)]|[[[<- <-]|[H1 H2]] H3]]; [left; naive_solver| |].
      * left. split; [done|]. exists n. auto.
      * right. split; [done|]. destruct H3; [by left|]. right. intros [->|?]; done.
    + intros [[H1 (x & [->|Hx] & <- & <-)]|[H1 H2]].
      * right. split; [by left|by right].
      * left. split; [done|]. by exists x.
      * right. destruct H2 as [->|H2]; [split; [by right|by left]|].
        split; [right; split; [|done]; intros <-; apply H2; by left|]. right. intros ?. apply H2. by right.
Qed.

Lemma findNode_spec id l :
  match findNode id l with Some n => n ∈ l /\ ID n = id | None => id ∉ ID <$> l end.
Proof.
  unfold findNode. destruct (find _ l) as [n|] eqn:E.
  - apply find_some in E as [H1 H2%Z.eqb_eq]. by rewrite list_elem_of_In.
  - intros (n & -> & Hn)%list_elem_of_fmap. apply list_elem_of_In in Hn. eapply find_none in E; [|done].
    by rewrite Z.eqb_refl in E.
Qed.

Lemma node_unique l n n' : NoDup (ID <$> l) -> n ∈ l -> n' ∈ l -> ID n = ID n' -> n = n'.
Proof.
  intros Hnd [i Hi]%list_elem_of_lookup [j Hj]%list_elem_of_lookup E.
  assert (i = j) as ->; [|congruence]. eapply NoDup_lookup; [exact Hnd| |].
  - rewrite list_lookup_fmap, Hi. reflexivity.
  - rewrite list_lookup_fmap, Hj. cbn. by rewrite E.
Qed.

(** The members a configuration knows, itself included. *)
Definition members (c : Server.Config) : gmap Z string := <[Server.ID c := Server.PeerAddress c]> (Server.Peers c).

(** What [server.Open] asks of a configuration. *)
Definition complete (c : Server.Config) : Prop :=
  valid_id (Server.ID c) /\ Server.PeerAddress c <> ""%string /\ Server.ClientAddress c <> ""%string /\
  Server.DataDir c <> ""%string /\ 0 < Server.QueueCapacity c /\
  map_Forall (fun id _ => valid_id id /\ id <> Server.ID c) (Server.Peers c).

Lemma ConfigFor_ok s id :
  valid s ->
  match ConfigFor s id with
  | inr c => Server.ID c = id /\ complete c /\ forall j a, members c !! j = Some a <-> member s j a
  | inl _ => id ∉ ID <$> Nodes s
  end.
Proof.
  intros Hv. unfold ConfigFor. rewrite (proj2 (Validate_ok s) Hv). pose proof (findNode_spec id (Nodes s)) as Hf.
  destruct (findNode id (Nodes s)) as [self|]; [|done]. destruct Hf as [Hin <-].
  destruct Hv as [_ Ht Hr Hq Hids Hnd Hreq _ _ _].
  destruct (proj2 (duration_ok "tickInterval" _) Ht) as [t Et]. unfold tickInterval. rewrite Et.
  destruct (proj2 (duration_ok "requestTimeout" _) Hr) as [r Er]. unfold requestTimeout. rewrite Er.
  rewrite Forall_forall in Hids. rewrite Forall_forall in Hreq. destruct (Hreq self Hin) as (R1 & R2 & R3).
  assert (forall j a, peersOf (ID self) (Nodes s) !! j = Some a <-> j <> ID self /\ member s j a) as Hp.
  { intros j a. unfold peersOf. rewrite peersOf_loop by done. rewrite lookup_empty. unfold member. naive_solver. }
  cbn [Server.ID]. split; [done|]. split.
  - unfold complete. cbn. split; [exact (Hids self Hin)|]. split; [done|]. split; [done|]. split; [done|]. split.
    + destruct (Z.eqb_spec (QueueCapacity s) 0); lia.
    + intros j a [H1 (n & Hn & <- & _)]%Hp. split; [by apply Hids|done].
  - intros j a. unfold members. cbn. rewrite lookup_insert_Some, Hp. unfold member. split.
    + intros [[<- <-]|[_ [_ H]]]; [by exists self|done].
    + intros (n & Hn & <- & <-). destruct (decide (ID n = ID self)) as [E|E]; [left|right].
      * split; [done|]. f_equal. symmetry. by apply (node_unique (Nodes s)).
      * split; [done|]. split; [done|]. by exists n.
Qed.

(** One file, one cluster.  Whatever order the labels of a node are checked in,
    validation accepts exactly the files in which there are nodes, numbered 1 to
    64 without repetition, every node has its addresses and its directory, every
    address is a host and a port, no two addresses and no two directories
    coincide, and the settings make sense.  From such a file every declared node,
    and no other, gets a configuration; it is complete; and the members in it,
    the node itself included, are those of the file, so that any two nodes agree
    on all numbers and addresses. *)
Theorem cluster_file s :
  (Validate s = None <-> valid s) /\
  (valid s -> forall id,
     (is_Some (match ConfigFor s id with inr c => Some c | inl _ => None end) <-> id ∈ ID <$> Nodes s) /\
     forall c, ConfigFor s id = inr c -> Server.ID c = id /\ complete c /\
       (forall j a, members c !! j = Some a <-> member s j a) /\
       forall id' c', ConfigFor s id' = inr c' -> members c' = members c).
Proof.
  split; [apply Validate_ok|]. intros Hv id. pose proof (ConfigFor_ok s id Hv) as H.
  destruct (ConfigFor s id) as [e|c].
  - split; [|done]. split; [by intros [? ?]|done].
  - destruct H as (H1 & H2 & H3). split.
    + split; [|by eexists]. intros _. destruct (proj1 (H3 id (Server.PeerAddress c))) as (n & Hn & <- & _).
      { unfold members. rewrite H1. apply lookup_insert_eq. }
      by apply list_elem_of_fmap_2.
    + intros c1 [= <-]. split; [done|]. split; [done|]. split; [done|]. intros id' c' E'.
      pose proof (ConfigFor_ok s id' Hv) as H'. rewrite E' in H'. destruct H' as (_ & _ & H4).
      apply map_eq. intros j. apply option_eq. intros a. by rewrite H3, H4.
Qed.

End spec.

Module Demo.

Definition file : Spec :=
  mkSpec "demo"
    [mkSpecNode 1 "a:1" "a:2" "a:3" "d1"; mkSpecNode 2 "b:1" "b:2" "" "d2"; mkSpecNode 3 "c:1" "c:2" "" "d3"]
    0 "10ms" 0 "" 0.

Definition colon (a : string) : bool := negb (bool_decide (a = "localhost"%string)).
Definition parse (d : string) : option Z := if bool_decide (d = "10ms"%string) then Some 10000000 else None.
Definition clean (d : string) : string := d.
Definition labels (n : SpecNode) : list label := [LHTTP; LPeer; LClient].

Lemma cluster_file_witness :
  exists c1 c2, ConfigFor colon parse clean labels file 1 = inr c1 /\ ConfigFor colon parse clean labels file 2 = inr c2 /\
    members c1 = members c2 /\ Server.TickInterval c1 = 10000000.
Proof.
  assert (forall n, labels n ≡ₚ [LPeer; LClient; LHTTP]) as Ho by (intros n; apply (Permutation_cons_append [LPeer; LClient])).
  destruct (cluster_file colon parse clean labels Ho file) as [H1 H2].
  assert (Validate colon parse clean labels file = None) as HV by (vm_compute; reflexivity).
  apply H1 in HV. destruct (ConfigFor colon parse clean labels file 1) as [e|c1] eqn:E1; [vm_compute in E1; discriminate|].
  destruct (ConfigFor colon parse clean labels file 2) as [e|c2] eqn:E2; [vm_compute in E2; discriminate|].
  exists c1, c2. split; [reflexivity|]. split; [reflexivity|]. split.
  - destruct (H2 HV 2) as [_ H]. destruct (H c2 E2) as (_ & _ & _ & H3). exact (H3 1 c1 E1).
  - vm_compute in E1. injection E1 as <-. reflexivity.
Defined.

End Demo.
End ClusterSpec.
